(* ===== verification/_CoqProject ===== *)
-Q . S2P
Prelude.v
Types.v
ReplicaConfig.v
Certs.v
IoUtils.v
DataDirs.v
Block.v
BlockStore.v
Lmdb.v
Consensus.v
Events.v
FetchManager.v
App.v
RpcClient.v
Servers.v
EventQueue.v
Safety.v
ReplicaInv.v
StoreInv.v
AppInv.v
Network.v
Durable.v
Votes.v
Runs.v
Progress.v
Leader.v
Cluster.v
Batches.v
Pacemaker.v
SpecGadget.v
VMControl.v
VMThreads.v
LogAccess.v
Bridges.v
Restart.v
Instance.v
Concrete.v
Replay.v
Scenarios.v
Theorems.v
Witnesses.v
