(* ===== verification/Prelude.v ===== *)
(** * A verification development for the hotstuff replica

    The program is a C++ implementation of a chained HotStuff replica: blocks
    form a tree, each carries a quorum certificate for an earlier block, replicas
    vote for at most one block per height, and three directly linked certified
    blocks decide the lowest.  A replica is a set of threads around a consensus
    core: RPC handlers receive votes, proposals and fetched blocks and put them
    in the network queue; the network thread validates them, links blocks into
    the block store and asks for missing ones; the consensus thread runs the
    core; the core votes and proposes through the protocol manager, records
    decisions in an LMDB index, and drives a virtual machine through a bridge.

    ** The files and the code they model

    - [Prelude] (this file): bytes, wrap-around integers, big-endian encodings,
      the state-and-fault monad [M] with its weakest precondition [wp], list
      lemmas.
    - [Types]: hotstuff/xdr/*.x as records, hotstuff/crypto/hash.h, and the
      classes for what is outside the sources: [Sodium], [Xdr], [BitVector],
      [Fs], each with its laws.
    - [ReplicaConfig]: hotstuff/config/replica_config.*.
    - [Certs]: hotstuff/crypto/certs.*.
    - [IoUtils]: hotstuff/block_storage/io_utils.*, utils/hs_save_load_xdr.h and
      the directory names of hotstuff/manage_data_dirs.cc.
    - [DataDirs]: making and clearing the directories, over the class [DirOps].
    - [Block]: hotstuff/block.*; blocks live in a heap indexed by locations, so
      shared pointers, their aliasing and pointer comparison are kept.
    - [BlockStore]: block_store.*, garbage_collector.*.
    - [Lmdb]: hotstuff/lmdb.*, vm_block_id.h, over the class [LmdbLib].
    - [Consensus]: hotstuff/consensus.*; the virtual methods of [HotstuffCore]
      are the class [CoreVirtuals].
    - [Events]: event.*, network_event.*, generic_event_queue.h.
    - [FetchManager]: block_fetch_manager.*, the request set of
      block_fetch_worker.*, block_fetch_server.cc.
    - [App]: hotstuff/hotstuff.*, event_queue.*, network_event_queue.*,
      protocol/*: the whole replica, one operation per entry point of a thread;
      it instantiates [CoreVirtuals] over any bridge of class [VMBridge].
    - [SpecGadget], [VMControl], [Bridges]: hotstuff/vm/* and examples/vm/*, a
      bridge over any machine of class [VMBase]; [Bridges] gives the two
      instances of [VMBridge].  The class [AsyncWait] says how a call that waits
      for the machine's worker may end.
    - [VMThreads]: the threads of vm_control_interface.*.
    - [Pacemaker]: include/hotstuff/liveness.h.
    - [RpcClient]: nonblocking_rpc_client.h and the workers that use it,
      hotstuff_protocol_client.* and block_fetch_worker.cc.
    - [Servers]: the threads of hotstuff_server.* and block_fetch_server.*.
    - [EventQueue]: the threads of generic_event_queue.h.
    - [LogAccess]: the cursor of hotstuff/lmdb.h and the iterators of
      log_access_wrapper.*, over the class [CursorLib].
    - [Restart]: the initialisation of the applications of hotstuff/hotstuff.h,
      and what a process finds on the disk of the one before it.
    - [Instance]: include/hotstuff/hotstuff_app.h and hotstuff_app.cc, the public
      interface as a class with the two applications as its instances.
    - [Safety]: the protocol argument, over logs of votes and a universe of
      headers, without the program.
    - [ReplicaInv], [StoreInv], [AppInv]: the invariant of a replica and that
      every operation keeps it.
    - [Network]: clusters of replicas as a step relation.  Honest replicas take
      the steps of [App] in any order and interleaving; the virtual machine side
      moves freely; faulty replicas send anything they can sign.
    - [Votes]: counting votes up to a certificate that every replica accepts.
    - [Runs]: executions seen from one replica, which acts while the others do
      anything; what is queued for a peer is never withdrawn; stacked blocks.
    - [Progress]: a replica that handles a chain of a leader's proposals.
    - [Leader]: a replica that proposes, votes and counts the votes it receives.
    - [Cluster]: a leader and a quorum of followers that exchange their messages.
    - [Durable]: the invariant of a replica's disk and index of decisions.
    - [Batches]: handling a batch of events equals handling them one by one.
    - [Concrete], [Replay], [Scenarios]: toy instances of the classes, an
      executable checker that turns a script into a reachability proof, and
      runs of a four-replica cluster, one without faults and two attacks.
    - [Theorems]: the properties; [Witnesses]: an instance of each.

    ** What the theorems show

    - The cluster: agreement, one vote and one certificate per height, decisions
      are justified by a three-chain and form a prefix, the votes of a quorum
      make a certificate that is accepted, a direct three-chain is decided, a
      replica votes for a leader's chain of proposals and decides it whatever
      the others do ([follower_progress]), a leader and a quorum that exchange
      their messages certify and decide a block per round, in any interleaving
      ([cluster_progress]), the block store stays well formed.  A
      replica stops only for causes outside the protocol: no "safety breached",
      null pointer or endless loop of the core ([only_outside_faults]); the
      causes are listed in [outside] (ReplicaInv) and, per bridge, in [spec_fault] and
      [nonspec_fault] (Bridges).  They assume genuine signatures, fewer
      faulty replicas than two quorums share, heights below [2 ^ 32], and that a
      received block's justified block is its ancestor.  The code does not check
      the last one, and [disagreement_without_ancestry] is a run without it in
      which two honest replicas decide conflicting blocks.
    - The core: the vote decision and the width of [vheight].
    - Restarts: a process that starts over a replica's disk finds exactly its
      decisions, hands them to the machine, and resumes; it may vote again where
      it had voted.  The loops over the index visit its entries in order, each
      once ([index_loops_visit_entries]).
    - Certificates and configurations: quorum intersection and where it fails,
      what [verify] establishes, returns and throws, the wire round trip.
    - Storage: block insertion on every branch, garbage collection, and that
      cleared directories hold no block ([cleared_no_blocks]).
    - Queues: batches, the order in which concurrent threads' events are handled
      and that none is left ([event_queue_drains]), the fetch manager against an
      abstract map, what wakes a waiting pacemaker and whom it follows.
    - Connections: messages to a peer arrive in order and at least once, fetch
      requests are not lost ([fetch_run_once_wp]), a server's shutdown ends, and a
      client's may follow a null pointer.
    - The virtual machine: no call of its control interface blocks for ever and
      nothing that is submitted is skipped ([vm_calls_return]); what each bridge
      does with a leader's own blocks and with decided blocks, and where it
      deadlocks, crashes or cannot restart.

    ** Bounds and fuel

    Integers keep their C++ width through [u32] and [u64].  The loops over
    parents take the height of the starting block plus one as fuel; parents are
    one lower, so a well-formed store never uses it up ([opinion_correct],
    [three_chain_commits], [only_outside_faults]).  The read loop takes the
    file's length plus one.  The loops of a connection take one turn per
    observation ([client_delivers]), those over the index one turn per entry
    ([iterate_entries]).  A result [Fault] with [OutOfFuel] is never the result of a theorem that says an operation returns.

    ** Threads

    A step of a replica is one entry point run to its end: what the code does
    under the queue mutexes and the proposal mutex.  A call that waits
    for the worker of the machine lets it take as many turns as the parameter
    [AsyncWait] says, any number its laws allow; [VMThreads] has the two as
    threads, with the mutex and the condition variable, and shows that a wait
    changes the interface in no other way ([waiting_turns]).  A thread that locks a mutex it holds deadlocks, and an uncaught
    exception or a null dereference stops the replica.

    ** Not modelled

    Logging, the start of libsodium, test support, and what is not in the
    sources: the generated XDR code, sockets and xdrpp's RPC, LMDB, the base
    class of the workers.  These are classes or lists of
    observations that the theorems quantify over.  In [RpcClient] a call is
    handled by the peer when it returns or when it throws, or not at all: a
    request that stays buffered on a broken connection and is handled after the
    client has reconnected is outside the model.  [VMThreads] has one calling
    thread: a [get_proposal] of a proposing thread that overlaps a
    [log_commitment] of the consensus thread is outside the model.  Restarting is a run of a new
    replica over the old disk and not a step of the cluster: a restarted replica
    has forgotten its votes above its last decision. *)

From stdpp Require Export base gmap list strings numbers pretty fin_maps fin_sets sorting.
From Stdlib Require Export Strings.Byte.

(** ** Bytes *)

Abbreviation bytes := (list byte).

#[export] Instance byte_eq_dec : EqDecision byte.
Proof. intros x y. destruct (Byte.byte_eq_dec x y); [by left | by right]. Defined.

#[export] Instance byte_countable : Countable byte.
Proof.
  refine (inj_countable Byte.to_N Byte.of_N _).
  intros x. apply Byte.of_to_N.
Defined.

(** ** Machine-width unsigned integers

    [uint32_t] and [uint64_t] values are natural numbers below the bound;
    arithmetic that may leave the range goes through [u32] or [u64], the
    wrap-around of an unsigned C++ integer. *)

Definition u32 (n : N) : N := (n mod 2 ^ 32)%N.
Definition u64 (n : N) : N := (n mod 2 ^ 64)%N.

Lemma u32_small n : (n < 2 ^ 32)%N → u32 n = n.
Proof. intros. by apply N.mod_small. Qed.

Lemma u64_small n : (n < 2 ^ 64)%N → u64 n = n.
Proof. intros. by apply N.mod_small. Qed.

Lemma u32_bound n : (u32 n < 2 ^ 32)%N.
Proof. by apply N.mod_lt. Qed.

Lemma u64_bound n : (u64 n < 2 ^ 64)%N.
Proof. by apply N.mod_lt. Qed.

(** Equivalent conditions choose the same branch. *)
Lemma bool_decide_ext_if {A} (P Q : Prop) `{!Decision P, !Decision Q} (x y : A) :
  (P ↔ Q) → (if bool_decide P then x else y) = (if bool_decide Q then x else y).
Proof. intros HPQ. by rewrite (bool_decide_ext _ _ HPQ). Qed.

(** ** Outcomes of C++ code

    A method either returns, throws (keeping every mutation made before the
    throw), or does something that is not a C++ result at all: it reads
    through a null pointer, locks a [std::mutex] its own thread already holds,
    or (in the model only) runs out of the fuel of a loop. *)

Inductive exn :=
  | RuntimeError (msg : string)
  | InvalidArgument (msg : string)
  | OutOfRange
  | XdrError.

Inductive halt :=
  | NullDeref
  | SelfDeadlock
  | Blocked
  | OutOfFuel.

#[export] Instance exn_eq_dec : EqDecision exn.
Proof. solve_decision. Defined.
#[export] Instance halt_eq_dec : EqDecision halt.
Proof. solve_decision. Defined.

(** What ends a computation early: an exception, or one of the above. *)
Inductive fault :=
  | Exn (e : exn)
  | Stop (h : halt).

#[export] Instance fault_eq_dec : EqDecision fault.
Proof. solve_decision. Defined.

Inductive Res (S A : Type) :=
  | Ok (a : A) (s : S)
  | Fault (f : fault) (s : S).
Arguments Ok {S A} a s.
Arguments Fault {S A} f s.
Notation Throw e s := (Fault (Exn e) s).
Notation Halt h s := (Fault (Stop h) s).

(** State-passing computations. *)
Definition M (S A : Type) : Type := S → Res S A.

Definition ret {S A} (a : A) : M S A := λ s, Ok a s.
Definition bind {S A B} (m : M S A) (k : A → M S B) : M S B := λ s,
  match m s with
  | Ok a s' => k a s'
  | Fault f s' => Fault f s'
  end.
Definition throw {S A} (e : exn) : M S A := λ s, Throw e s.
Definition halt_with {S A} (h : halt) : M S A := λ s, Halt h s.
Definition gets {S A} (f : S → A) : M S A := λ s, Ok (f s) s.
Definition modify {S} (f : S → S) : M S unit := λ s, Ok tt (f s).

(** Run a computation on a component of the state. *)
Definition zoom {S T A} (get : S → T) (put : T → S → S) (m : M T A) : M S A := λ s,
  match m (get s) with
  | Ok a t => Ok a (put t s)
  | Fault f t => Fault f (put t s)
  end.

Declare Scope hs_scope.
Delimit Scope hs_scope with hs.
Notation "x <- m ;; k" := (bind m (λ x, k))
  (at level 100, m at next level, right associativity) : hs_scope.
Notation "m ;; k" := (bind m (λ _, k))
  (at level 100, right associativity) : hs_scope.
Open Scope hs_scope.

(** [when b m] is [if (b) m]. *)
Definition when {S} (b : bool) (m : M S unit) : M S unit := if b then m else ret tt.

(** A loop over a container, in order. *)
Fixpoint for_each {S A} (l : list A) (f : A → M S unit) : M S unit :=
  match l with
  | [] => ret tt
  | x :: l => f x ;; for_each l f
  end.

Section inversion.
Context {S A B : Type}.
Implicit Types (s : S).

Lemma bind_Ok (m : M S A) (k : A → M S B) s b s' :
  bind m k s = Ok b s' ↔ ∃ a s1, m s = Ok a s1 ∧ k a s1 = Ok b s'.
Proof. unfold bind. destruct (m s); naive_solver. Qed.

Lemma bind_Fault (m : M S A) (k : A → M S B) s f s' :
  bind m k s = Fault f s' ↔
    m s = Fault f s' ∨ ∃ a s1, m s = Ok a s1 ∧ k a s1 = Fault f s'.
Proof. unfold bind. destruct (m s); naive_solver. Qed.

Lemma bind_run (m : M S A) (k : A → M S B) s a s1 :
  m s = Ok a s1 → bind m k s = k a s1.
Proof. unfold bind. by intros ->. Qed.
End inversion.

(** Split a hypothesis [bind m k s = Ok a s'] into its two runs. *)
Ltac inv_bind H :=
  let a := fresh "a" in let s := fresh "s" in let H1 := fresh "Hrun" in
  apply bind_Ok in H as (a & s & H1 & H).

(** Close or simplify the primitive runs [ret], [gets], [modify], [throw]. *)
Ltac run_simpl :=
  repeat match goal with
  | H : ret _ _ = Ok _ _ |- _ => unfold ret in H; simplify_eq
  | H : gets _ _ = Ok _ _ |- _ => unfold gets in H; simplify_eq
  | H : modify _ _ = Ok _ _ |- _ => unfold modify in H; simplify_eq
  | H : throw _ _ = Ok _ _ |- _ => unfold throw in H; simplify_eq
  | H : halt_with _ _ = Ok _ _ |- _ => unfold halt_with in H; simplify_eq
  end.

(** ** Weakest preconditions

    [wp m Q R s]: run from [s], [m] returns in a state satisfying [Q] or faults
    in one satisfying [R].  Faults that [R] excludes cannot happen. *)

Definition wp {S A} (m : M S A) (Q : A → S → Prop) (R : fault → S → Prop) (s : S) : Prop :=
  match m s with
  | Ok a s' => Q a s'
  | Fault f s' => R f s'
  end.

Section wp.
Context {S : Type}.
Implicit Types (s : S) (R : fault → S → Prop).

Lemma wp_ret {A} (a : A) (Q : A → S → Prop) R s : Q a s → wp (ret a) Q R s.
Proof. done. Qed.

Lemma wp_bind {A B} (m : M S A) (k : A → M S B) Q R s :
  wp m (λ a, wp (k a) Q R) R s → wp (bind m k) Q R s.
Proof. unfold wp, bind. by destruct (m s). Qed.

Lemma wp_gets {A} (f : S → A) (Q : A → S → Prop) R s : Q (f s) s → wp (gets f) Q R s.
Proof. done. Qed.

Lemma wp_modify (f : S → S) (Q : unit → S → Prop) R s : Q tt (f s) → wp (modify f) Q R s.
Proof. done. Qed.

Lemma wp_throw {A} e (Q : A → S → Prop) R s : R (Exn e) s → wp (throw e) Q R s.
Proof. done. Qed.

Lemma wp_mono {A} (m : M S A) (Q Q' : A → S → Prop) R R' s :
  wp m Q R s → (∀ a s', Q a s' → Q' a s') → (∀ f s', R f s' → R' f s') →
  wp m Q' R' s.
Proof. unfold wp. destruct (m s); naive_solver. Qed.

Lemma wp_zoom {T A} (get : S → T) put (m : M T A) Q R s :
  wp m (λ a t, Q a (put t s)) (λ f t, R f (put t s)) (get s) →
  wp (zoom get put m) Q R s.
Proof. unfold wp, zoom. by destruct (m (get s)). Qed.

Lemma wp_when (b : bool) (m : M S unit) Q R s :
  (b = true → wp m Q R s) → (b = false → Q tt s) → wp (when b m) Q R s.
Proof. destruct b; intros Ht Hf; [by apply Ht|by apply wp_ret, Hf]. Qed.

Lemma wp_Ok {A} (m : M S A) Q R s a s' : wp m Q R s → m s = Ok a s' → Q a s'.
Proof. unfold wp. by intros ? Heq; rewrite Heq in *. Qed.

Lemma wp_Fault {A} (m : M S A) Q R s f s' : wp m Q R s → m s = Fault f s' → R f s'.
Proof. unfold wp. by intros ? Heq; rewrite Heq in *. Qed.

Lemma wp_run {A} (m : M S A) (Q : A → S → Prop) R s a s' :
  m s = Ok a s' → Q a s' → wp m Q R s.
Proof. unfold wp. by intros ->. Qed.

Lemma wp_and {A} (m : M S A) Q Q' R R' s :
  wp m Q R s → wp m Q' R' s →
  wp m (λ a s', Q a s' ∧ Q' a s') (λ f s', R f s' ∧ R' f s') s.
Proof. unfold wp. by destruct (m s). Qed.

Lemma wp_eq {A} (m : M S A) Q R s :
  wp m Q R s → wp m (λ a s', Q a s' ∧ m s = Ok a s') R s.
Proof. unfold wp. by destruct (m s). Qed.

(** A loop keeps an invariant indexed by the elements done so far. *)
Lemma wp_for_each {A} (I : list A → S → Prop) (l : list A) (f : A → M S unit) Q R s :
  I [] s →
  (∀ seen x rest s, l = seen ++ x :: rest → I seen s →
     wp (f x) (λ _ s', I (seen ++ [x]) s') R s) →
  (∀ s', I l s' → Q tt s') →
  wp (for_each l f) Q R s.
Proof.
  intros H0 Hstep HQ.
  assert (Hgen : ∀ rest seen s, l = seen ++ rest → I seen s → wp (for_each rest f) Q R s).
  { intros rest. induction rest as [|x rest IH]; intros seen s1 Heq HI; simpl.
    - apply wp_ret, HQ. by rewrite Heq, app_nil_r.
    - apply wp_bind. eapply wp_mono; [by eapply Hstep| |done].
      intros u s2 HI2. apply (IH (seen ++ [x])); [|done]. by rewrite <- app_assoc. }
  by apply (Hgen l []).
Qed.
End wp.

Lemma filter_all {A} (P : A → Prop) `{∀ x, Decision (P x)} (l : list A) :
  (∀ x, x ∈ l → P x) → filter P l = l.
Proof.
  induction l as [|x l IH]; intros Hl; [done|]. rewrite filter_cons_True by (apply Hl; by left).
  f_equal. apply IH. intros y Hy. apply Hl. by right.
Qed.

(** ** [std::map] with integer keys

    An ordered map is the list of its entries in iteration order, keys
    strictly increasing.  [emplace] keeps the entry already there. *)

Section std_map.
Context {V : Type}.
Implicit Types (m : list (N * V)) (k : N) (v : V).

Fixpoint map_emplace k v m : list (N * V) :=
  match m with
  | [] => [(k, v)]
  | (k', v') :: m' =>
    if (k <? k')%N then (k, v) :: m
    else if (k =? k')%N then m
    else (k', v') :: map_emplace k v m'
  end.

Fixpoint map_find k m : option V :=
  match m with
  | [] => None
  | (k', v') :: m' => if (k =? k')%N then Some v' else map_find k m'
  end.

Definition map_wf m : Prop := StronglySorted N.lt m.*1.

Lemma map_wf_nil : map_wf [].
Proof. constructor. Qed.

Lemma map_wf_NoDup m : map_wf m → NoDup m.*1.
Proof.
  unfold map_wf. induction 1 as [|k ks ? IH Hall]; constructor; [|done].
  intros Hin. rewrite Forall_forall in Hall. specialize (Hall k Hin). lia.
Qed.

Lemma map_emplace_keys k v m k' :
  k' ∈ (map_emplace k v m).*1 ↔ k' = k ∨ k' ∈ m.*1.
Proof.
  induction m as [|[k1 v1] m IH]; simpl; [set_solver|].
  destruct (N.ltb_spec k k1); simpl; [set_solver|].
  destruct (N.eqb_spec k k1); simpl; [set_solver|].
  rewrite !elem_of_cons, IH. naive_solver.
Qed.

Lemma map_emplace_wf k v m : map_wf m → map_wf (map_emplace k v m).
Proof.
  unfold map_wf. induction m as [|[k1 v1] m IH]; simpl; intros Hwf;
    [repeat constructor|].
  apply StronglySorted_inv in Hwf as [Hwf Hall].
  destruct (N.ltb_spec k k1); simpl.
  { constructor; [by constructor|]. constructor; [done|].
    eapply Forall_impl; [done|]. simpl. intros. lia. }
  destruct (N.eqb_spec k k1); simpl; [by constructor|].
  constructor; [by apply IH|]. apply Forall_forall. intros x Hx%map_emplace_keys.
  rewrite Forall_forall in Hall. destruct Hx as [->|Hx]; [lia|by apply Hall].
Qed.

(** An entry after [emplace] is an old one or the new one. *)
Lemma map_emplace_elem k v m kv :
  kv ∈ map_emplace k v m → kv = (k, v) ∨ kv ∈ m.
Proof.
  induction m as [|[k1 v1] m IH]; simpl; [set_solver|].
  destruct (N.ltb_spec k k1); [set_solver|].
  destruct (N.eqb_spec k k1); [set_solver|].
  rewrite !elem_of_cons. naive_solver.
Qed.

Lemma map_emplace_present k v m :
  map_wf m → k ∈ m.*1 → map_emplace k v m = m.
Proof.
  unfold map_wf. induction m as [|[k1 v1] m IH]; simpl; intros Hwf Hin; [set_solver|].
  apply StronglySorted_inv in Hwf as [Hwf Hall]. rewrite Forall_forall in Hall.
  apply elem_of_cons in Hin as [->|Hin].
  - by rewrite N.ltb_irrefl, N.eqb_refl.
  - specialize (Hall k Hin). destruct (N.ltb_spec k k1); [lia|].
    destruct (N.eqb_spec k k1); [lia|]. by rewrite IH.
Qed.

Lemma map_emplace_length k v m :
  map_wf m →
  length (map_emplace k v m) =
    if decide (k ∈ m.*1) then length m else S (length m).
Proof.
  intros Hwf. case_decide as Hin; [by rewrite map_emplace_present|].
  clear Hwf. induction m as [|[k1 v1] m IH]; simpl in *; [done|].
  apply not_elem_of_cons in Hin as [Hne Hin].
  destruct (N.ltb_spec k k1); simpl; [done|].
  destruct (N.eqb_spec k k1); simpl; [done|]. by rewrite IH.
Qed.

(** Emplacing above every key appends: building a map in key order. *)
Lemma map_emplace_last k v m :
  Forall (λ k', k' < k)%N m.*1 → map_emplace k v m = m ++ [(k, v)].
Proof.
  induction m as [|[k1 v1] m IH]; simpl; intros Hall; [done|].
  apply Forall_cons in Hall as [Hlt Hall].
  destruct (N.ltb_spec k k1); [lia|]. destruct (N.eqb_spec k k1); [lia|].
  by rewrite IH.
Qed.
End std_map.

Lemma elem_of_rev {A} (x : A) l : x ∈ rev l ↔ x ∈ l.
Proof. by rewrite !list_elem_of_In, <- in_rev. Qed.

Lemma of_nat_seq_sorted n m : StronglySorted N.lt (N.of_nat <$> seq n m).
Proof.
  revert n. induction m as [|m IH]; intros n; [constructor|].
  cbn [seq]. rewrite fmap_cons. constructor; [apply IH|].
  apply Forall_fmap, Forall_forall. intros x Hx%elem_of_seq. simpl. lia.
Qed.

(** Two increasing lists with the same elements are the same list. *)
Lemma sorted_ext (l1 l2 : list N) :
  StronglySorted N.lt l1 → StronglySorted N.lt l2 →
  (∀ x, x ∈ l1 ↔ x ∈ l2) → l1 = l2.
Proof.
  revert l2. induction l1 as [|x l1 IH]; intros [|y l2] H1 H2 Heq;
    [done|set_solver|set_solver|].
  apply StronglySorted_inv in H1 as [S1 A1]. apply StronglySorted_inv in H2 as [S2 A2].
  rewrite Forall_forall in A1, A2.
  assert (x = y) as ->.
  { assert (Hx : x ∈ y :: l2) by (apply Heq; by left).
    assert (Hy : y ∈ x :: l1) by (apply Heq; by left).
    apply elem_of_cons in Hx as [?|Hx]; [done|]. apply elem_of_cons in Hy as [?|Hy]; [done|].
    specialize (A1 _ Hy). specialize (A2 _ Hx). lia. }
  f_equal. apply IH; [done..|]. intros z. specialize (Heq z).
  rewrite !elem_of_cons in Heq. split; intros Hz.
  - destruct (proj1 Heq) as [->|]; [by right| |done]. specialize (A1 _ Hz). lia.
  - destruct (proj2 Heq) as [->|]; [by right| |done]. specialize (A2 _ Hz). lia.
Qed.

Lemma sorted_bound_length (l : list N) (n : N) :
  StronglySorted N.lt l → Forall (λ x, x < n)%N l → length l ≤ N.to_nat n.
Proof.
  intros Hs Hb. assert (Hd : NoDup l).
  { clear Hb. induction Hs as [|x l Hs IH Hx]; constructor; [|done].
    rewrite Forall_forall in Hx. intros Hin. specialize (Hx x Hin). lia. }
  assert (Hsub : N.to_nat <$> l ⊆ seq 0 (N.to_nat n)).
  { intros i (x & -> & Hx)%list_elem_of_fmap. rewrite Forall_forall in Hb.
    specialize (Hb x Hx). apply elem_of_seq. lia. }
  apply NoDup_fmap_2_strong with (f := N.to_nat) in Hd; [|intros; lia].
  pose proof (submseteq_length _ _ (NoDup_submseteq _ _ Hd Hsub)) as Hl.
  by rewrite length_fmap, length_seq in Hl.
Qed.

(** ** The swap-with-last removal loop

    [for (i = 0; i < v.size();) if (p(v[i])) { v[i] = v.back(); v.pop_back(); }
    else i++;] over a [std::vector]: what stays in the vector and, in the order
    they are visited, the elements taken out. *)

Section swap_remove.
Context {A : Type} (p : A → bool).

Fixpoint swap_remove (fuel : nat) (i : nat) (l : list A) : list A * list A :=
  match fuel with
  | 0 => (l, [])
  | S fuel =>
    match l !! i with
    | None => (l, [])
    | Some x =>
      if p x then
        let l' := take (length l - 1) (<[i := default x (last l)]> l) in
        let '(kept, out) := swap_remove fuel i l' in (kept, x :: out)
      else swap_remove fuel (S i) l
    end
  end.

(** One removal step, split at the visited position. *)
Lemma swap_step (l1 : list A) x l2 :
  take (length (l1 ++ x :: l2) - 1)
    (<[length l1 := default x (last (l1 ++ x :: l2))]> (l1 ++ x :: l2)) =
  l1 ++ match last l2 with
        | None => []
        | Some y => y :: take (length l2 - 1) l2
        end.
Proof.
  rewrite last_app, last_cons.
  rewrite insert_app_r_alt by lia. rewrite Nat.sub_diag. simpl.
  rewrite length_app. simpl. destruct (last l2) as [y|] eqn:Hl; simpl.
  - assert (length l2 ≠ 0) by (destruct l2; simpl in *; [done|lia]).
    rewrite take_app_ge by lia.
    replace (length l1 + S (length l2) - 1 - length l1) with (S (length l2 - 1)) by lia.
    done.
  - apply last_None in Hl as ->. simpl.
    rewrite take_app_le by lia. rewrite take_ge by lia. by rewrite app_nil_r.
Qed.

(** With fuel for every element after [i], the loop keeps exactly the
    elements that fail [p] and takes out exactly those that pass it. *)
Lemma swap_remove_spec fuel (l1 l2 : list A) :
  length l2 ≤ fuel →
  Forall (λ x, p x = false) l1 →
  let '(kept, out) := swap_remove fuel (length l1) (l1 ++ l2) in
  kept ≡ₚ l1 ++ filter (λ x, p x = false) l2 ∧ out ≡ₚ filter (λ x, p x = true) l2.
Proof.
  revert l1 l2. induction fuel as [|fuel IH]; intros l1 l2 Hlen Hl1.
  { destruct l2; [|simpl in *; lia]. simpl. by rewrite !filter_nil, ?app_nil_r. }
  destruct l2 as [|x l2].
  { simpl. rewrite app_nil_r. rewrite lookup_ge_None_2 by lia. by rewrite !filter_nil, ?app_nil_r. }
  simpl in *. rewrite lookup_app_r, Nat.sub_diag by lia. simpl.
  destruct (p x) eqn:Hpx.
  - rewrite swap_step. rewrite !filter_cons.
    rewrite (decide_False (P := p x = false)), (decide_True (P := p x = true)) by congruence.
    destruct (last l2) as [y|] eqn:Hl.
    + apply last_Some in Hl as [l3 ->].
      rewrite length_app, take_app_length' by (simpl; lia).
      specialize (IH l1 (y :: l3)). simpl in IH. rewrite length_app in Hlen. simpl in Hlen.
      destruct (swap_remove _ _ _) as [kept out].
      destruct IH as [Hk Ho]; [lia|done|].
      assert (Hperm : l3 ++ [y] ≡ₚ y :: l3) by (by rewrite Permutation_app_comm).
      rewrite !Hperm. by rewrite Hk, Ho.
    + apply last_None in Hl as ->.
      specialize (IH l1 []). simpl in IH.
      destruct (swap_remove _ _ _) as [kept out].
      destruct IH as [Hk Ho]; [lia|done|]. by rewrite Hk, Ho.
  - rewrite !filter_cons.
    rewrite (decide_True (P := p x = false)), (decide_False (P := p x = true)) by congruence.
    specialize (IH (l1 ++ [x]) l2). rewrite length_app, <- app_assoc in IH. simpl in IH.
    rewrite Nat.add_1_r in IH.
    destruct (swap_remove _ _ _) as [kept out].
    destruct IH as [Hk Ho]; [lia|apply Forall_app; by auto|].
    split; [|done]. rewrite Hk, <- app_assoc. done.
Qed.
End swap_remove.

(** ** Computations that commute with a change of state *)

Definition map_state {S A} (T : S → S) (r : Res S A) : Res S A :=
  match r with
  | Ok a s => Ok a (T s)
  | Fault f s => Fault f (T s)
  end.

Definition natural {S A} (T : S → S) (m : M S A) : Prop :=
  ∀ s, m (T s) = map_state T (m s).

Section natural.
Context {S : Type} (T : S → S).

Lemma nat_ret {A} (a : A) : natural T (ret a).
Proof. done. Qed.
Lemma nat_throw {A} e : natural (A := A) T (throw e).
Proof. done. Qed.
Lemma nat_halt {A} h : natural (A := A) T (halt_with h).
Proof. done. Qed.
Lemma nat_bind {A A'} (m : M S A) (k : A → M S A') :
  natural T m → (∀ a, natural T (k a)) → natural T (bind m k).
Proof. intros Hm Hk s. unfold bind. rewrite Hm. destruct (m s); simpl; [apply Hk|done]. Qed.
Lemma nat_when b m : natural T m → natural T (when b m).
Proof. by destruct b. Qed.
Lemma nat_gets {A} (f : S → A) : (∀ s, f (T s) = f s) → natural T (gets f).
Proof. intros Hf s. unfold gets. simpl. by rewrite Hf. Qed.
Lemma nat_modify (f : S → S) : (∀ s, f (T s) = T (f s)) → natural T (modify f).
Proof. intros Hf s. unfold modify. simpl. by rewrite Hf. Qed.
Lemma nat_zoom {X A} (get : S → X) put (m : M X A) :
  (∀ s, get (T s) = get s) → (∀ x s, put x (T s) = T (put x s)) → natural T (zoom get put m).
Proof. intros Hg Hp s. unfold zoom. rewrite Hg. destruct (m (get s)); simpl; by rewrite Hp. Qed.
End natural.

Create HintDb natural.
#[export] Hint Resolve nat_ret nat_throw nat_halt nat_gets nat_modify nat_zoom : natural.

Ltac nat_step :=
  repeat match goal with
  | |- natural _ (bind _ _) => apply nat_bind; [|intros ?]
  | |- natural _ (when _ _) => apply nat_when
  | |- natural _ (match _ with _ => _ end) => case_match
  | |- natural _ _ => solve [auto with natural]
  end.
