(* ===== verification/Types.v ===== *)
(** * Wire types and the external libraries

    The XDR types of include/hotstuff/xdr/types.x and hotstuff/xdr/hotstuff.x
    (the generated C++ structs), [hash_xdr] of hotstuff/crypto/hash.h, and the
    interfaces of the libraries the sources call but do not contain: libsodium,
    xdrpp's marshalling, the [utils::BitVector] of the utils submodule and the
    C file functions.  Each library is a class of operations; what the sources
    rely on is a separate class of laws, required only where it is used. *)

From S2P Require Import Prelude.

(** ** include/hotstuff/xdr/types.x *)

Abbreviation Hash := bytes.       (* opaque Hash[32] *)
Abbreviation Signature := bytes.  (* opaque Signature[64] *)
Abbreviation PublicKey := bytes.  (* opaque PublicKey[32] *)
Abbreviation SecretKey := bytes.  (* opaque SecretKey[64] *)
Abbreviation ReplicaID := N.      (* uint32 *)

Definition MAX_REPLICAS : N := 32.
Definition UNKNOWN_REPLICA : N := 32.

(** The value-initialised [Hash()]: the hash of the genesis block. *)
Definition zero_hash : Hash := replicate 32 x00.

(** ** hotstuff/xdr/hotstuff.x *)

Record PartialCertificateWire := mkPC {
  pc_hash : Hash;
  pc_sig : Signature;
}.

Record QuorumCertificateWire := mkQCWire {
  qcw_justify : Hash;
  qcw_bmp : N;
  qcw_sigs : list Signature;
}.

Record HotstuffBlockHeader := mkHeader {
  parent_hash : Hash;
  header_qc : QuorumCertificateWire;
  body_hash : Hash;
}.

Record HotstuffBlockWire := mkWire {
  header : HotstuffBlockHeader;
  body : bytes;
}.

Record VoteMessage := mkVoteMessage {
  vm_vote : PartialCertificateWire;
  vm_voter : ReplicaID;
}.

Record ProposeMessage := mkProposeMessage {
  pm_proposal : HotstuffBlockWire;
  pm_proposer : ReplicaID;
}.

#[export] Instance pc_eq_dec : EqDecision PartialCertificateWire.
Proof. solve_decision. Defined.
#[export] Instance qcw_eq_dec : EqDecision QuorumCertificateWire.
Proof. solve_decision. Defined.
#[export] Instance header_eq_dec : EqDecision HotstuffBlockHeader.
Proof. solve_decision. Defined.
#[export] Instance wire_eq_dec : EqDecision HotstuffBlockWire.
Proof. solve_decision. Defined.

(** The value-initialised wire block, as in [wire_block()] of the genesis
    constructor. *)
Definition empty_qc_wire : QuorumCertificateWire := mkQCWire zero_hash 0 [].
Definition empty_wire : HotstuffBlockWire :=
  mkWire (mkHeader zero_hash empty_qc_wire zero_hash) [].

(** The bounds the .x files put on a certificate. *)
Definition qc_wire_ok (q : QuorumCertificateWire) : Prop :=
  length (qcw_justify q) = 32 ∧ (qcw_bmp q < 2 ^ 32)%N ∧
  length (qcw_sigs q) ≤ 32 ∧ Forall (λ s, length s = 64) (qcw_sigs q).

Definition header_ok (hd : HotstuffBlockHeader) : Prop :=
  length (parent_hash hd) = 32 ∧ length (body_hash hd) = 32 ∧ qc_wire_ok (header_qc hd).

Definition wire_ok (w : HotstuffBlockWire) : Prop :=
  header_ok (header w) ∧ (N.of_nat (length (body w)) < 2 ^ 32)%N.

(** ** libsodium

    [crypto_generichash] and [crypto_sign_detached] report failure by a nonzero
    return code ([None]); verification answers with a return code. *)

Class Sodium := {
  crypto_generichash : bytes → option Hash;
  crypto_sign_detached : bytes → SecretKey → option Signature;
  crypto_sign_verify_detached : Signature → bytes → PublicKey → bool;
}.

(** ** xdrpp marshalling

    [xdr_to_opaque] at the types the sources marshal, and [xdr_from_opaque]
    ([None]: it throws) at those they read back. *)

Class Xdr := {
  xdr_header : HotstuffBlockHeader → bytes;
  xdr_opaque : bytes → bytes;
  xdr_block : HotstuffBlockWire → bytes;
  xdr_block_from : bytes → option HotstuffBlockWire;
  xdr_qc : QuorumCertificateWire → bytes;
  xdr_qc_from : bytes → option QuorumCertificateWire;
  xdr_uint64 : N → bytes;
  xdr_uint64_from : bytes → option N;
}.

(** RFC 4506: reading back what was written gives the value. *)
Class XdrLaws {i_xdr : Xdr} := {
  xdr_block_rt : ∀ w, wire_ok w → xdr_block_from (xdr_block w) = Some w;
  xdr_qc_rt : ∀ q, qc_wire_ok q → xdr_qc_from (xdr_qc q) = Some q;
  xdr_uint64_rt : ∀ n, (n < 2 ^ 64)%N → xdr_uint64_from (xdr_uint64 n) = Some n;
  xdr_uint64_nil : xdr_uint64_from [] = None;
  xdr_uint64_bound : ∀ bs n, xdr_uint64_from bs = Some n → (n < 2 ^ 64)%N;
  xdr_uint64_length : ∀ n, length (xdr_uint64 n) = 8;
}.

(** ** [utils::BitVector<ReplicaID>] *)

Class BitVector := {
  BV : Type;
  bv_new : BV;              (* BitVector() *)
  bv_of : N → BV;           (* BitVector(bitmap) *)
  bv_size : BV → N;         (* size() *)
  bv_pop : BV → N * BV;     (* pop() *)
  bv_add : BV → N → BV;     (* add(id) *)
  bv_get : BV → N;          (* get() *)
}.

(** A bit vector is a set of replica ids below 32; [pop] takes the lowest. *)
Class BitVectorLaws {i_bv : BitVector} := {
  bv_elems : BV → list N;
  bv_elems_sorted : ∀ b, StronglySorted N.lt (bv_elems b);
  bv_new_elems : bv_elems bv_new = [];
  bv_size_elems : ∀ b, bv_size b = N.of_nat (length (bv_elems b));
  bv_pop_elems : ∀ b x l, bv_elems b = x :: l →
    (bv_pop b).1 = x ∧ bv_elems (bv_pop b).2 = l;
  bv_add_elems : ∀ b x y, (x < 32)%N →
    y ∈ bv_elems (bv_add b x) ↔ y = x ∨ y ∈ bv_elems b;
  bv_get_elems : ∀ b, bv_elems (bv_of (bv_get b)) = bv_elems b;
  bv_elems_bound : ∀ b, Forall (λ x, x < 32)%N (bv_elems b);
  bv_get_bound : ∀ b, (bv_get b < 2 ^ 32)%N;
}.

(** ** Files

    A disk maps file names to contents.  [fopen] may fail for reasons outside
    the program. *)

Abbreviation Disk := (gmap string bytes).

Class Fs := {
  fopen_w_ok : string → bool;
  fopen_r_ok : string → bool;
}.

(** ** hotstuff/crypto/hash.h *)

Section hash.
Context {i_sodium : Sodium}.

(** [hash_xdr] of an already marshalled value. *)
Definition hash_xdr {S} (serialized : bytes) : M S Hash :=
  match crypto_generichash serialized with
  | Some h => ret h
  | None => throw (RuntimeError "error in crypto_generichash")
  end.

Lemma hash_xdr_Ok {S} bs h (s s' : S) :
  hash_xdr bs s = Ok h s' ↔ crypto_generichash bs = Some h ∧ s' = s.
Proof. unfold hash_xdr, ret, throw. destruct (crypto_generichash bs); naive_solver. Qed.
End hash.
