(* ===== verification/ReplicaConfig.v ===== *)
(** * The replica set and its quorums

    include/hotstuff/config/replica_config.h and
    hotstuff/config/replica_config.cc: [ReplicaInfo], [ReplicaConfig] and the
    quorum size that [finish_init] computes.  The [unordered_map] is a finite
    map; opening a TCP connection ([tcp_connect]) is left out. *)

From S2P Require Import Prelude Types.

Inductive ReplicaService := BLOCK_FETCH_SERVICE | PROTOCOL_SERVICE.

Record ReplicaInfo := mkReplicaInfo {
  hostname : string;
  block_fetch_port : string;
  protocol_port : string;
  root_data_folder : string;
  id : ReplicaID;
  pk : PublicKey;
}.

Definition get_service_name (info : ReplicaInfo) (service : ReplicaService) : string :=
  match service with
  | BLOCK_FETCH_SERVICE => block_fetch_port info
  | PROTOCOL_SERVICE => protocol_port info
  end.

Record ReplicaConfig := mkReplicaConfig {
  replica_map : gmap ReplicaID ReplicaInfo;
  nreplicas : N;
  nmajority : N;
}.

Definition ReplicaConfig_init : ReplicaConfig := mkReplicaConfig ∅ 0 0.

(** [ReplicaConfig::add_replica] *)
Definition add_replica (info : ReplicaInfo) : M ReplicaConfig unit := λ c,
  match replica_map c !! id info with
  | Some _ => Throw (RuntimeError "can't add replicaid twice!") c
  | None =>
    Ok tt (mkReplicaConfig (<[id info := info]> (replica_map c))
             (u64 (nreplicas c + 1)) (nmajority c))
  end.

(** [ReplicaConfig::finish_init] *)
Definition finish_init : M ReplicaConfig unit := λ c,
  let nfaulty := (nreplicas c / 3)%N in
  Ok tt (mkReplicaConfig (replica_map c) (nreplicas c) (nreplicas c - nfaulty)).

(** ["rid" + std::to_string(rid) + "not found"] *)
Definition rid_not_found (rid : ReplicaID) : string := "rid" +:+ pretty rid +:+ "not found".

(** [ReplicaConfig::get_info] (a const method: the state is the caller's). *)
Definition get_info {S} (c : ReplicaConfig) (rid : ReplicaID) : M S ReplicaInfo :=
  match replica_map c !! rid with
  | Some info => ret info
  | None => throw (RuntimeError (rid_not_found rid))
  end.

Definition get_publickey {S} (c : ReplicaConfig) (rid : ReplicaID) : M S PublicKey :=
  info <- get_info c rid ;; ret (pk info).

Definition list_info (c : ReplicaConfig) : list ReplicaInfo :=
  (map_to_list (replica_map c)).*2.

Definition is_valid_replica (c : ReplicaConfig) (replica : ReplicaID) : bool :=
  bool_decide (is_Some (replica_map c !! replica)).

(** Configuring a cluster: add every replica, then [finish_init]. *)
Definition configure (infos : list ReplicaInfo) : M ReplicaConfig unit :=
  for_each infos add_replica ;; finish_init.

(** ** Well-formed configurations *)

(** The state [configure] leaves: ids agree with their keys, the counters count
    the map. *)
Record config_wf (c : ReplicaConfig) : Prop := {
  cw_ids : ∀ rid info, replica_map c !! rid = Some info → id info = rid;
  cw_nreplicas : nreplicas c = N.of_nat (size (replica_map c));
  cw_nmajority : nmajority c = (nreplicas c - nreplicas c / 3)%N;
}.

Definition replicas (c : ReplicaConfig) : gset ReplicaID := dom (replica_map c).

Lemma elem_of_replicas c r : r ∈ replicas c ↔ is_Some (replica_map c !! r).
Proof. apply elem_of_dom. Qed.

Lemma get_info_Ok {S} c rid info (s s' : S) :
  get_info c rid s = Ok info s' ↔ replica_map c !! rid = Some info ∧ s' = s.
Proof. unfold get_info, ret, throw. destruct (replica_map c !! rid); naive_solver. Qed.

Lemma get_publickey_Ok {S} c rid k (s s' : S) :
  get_publickey c rid s = Ok k s' ↔
    ∃ info, replica_map c !! rid = Some info ∧ k = pk info ∧ s' = s.
Proof.
  unfold get_publickey. rewrite bind_Ok. setoid_rewrite get_info_Ok. unfold ret. naive_solver.
Qed.

(** Replicas can only be added one id at a time; a second use of an id is
    refused and changes nothing. *)
Lemma add_replica_Ok info c c' :
  add_replica info c = Ok tt c' ↔
    replica_map c !! id info = None ∧
    c' = mkReplicaConfig (<[id info := info]> (replica_map c))
           (u64 (nreplicas c + 1)) (nmajority c).
Proof. unfold add_replica. destruct (replica_map c !! id info); naive_solver. Qed.

Definition config_counts (n : nat) (c : ReplicaConfig) : Prop :=
  (∀ rid info, replica_map c !! rid = Some info → id info = rid) ∧
  size (replica_map c) = n ∧ nreplicas c = N.of_nat n.

Lemma add_replica_counts info n c c' :
  (N.of_nat (S n) < 2 ^ 64)%N →
  config_counts n c → add_replica info c = Ok tt c' → config_counts (S n) c'.
Proof.
  intros Hb (Hids & Hsz & Hn) [Hnew ->]%add_replica_Ok. split; [|split]; simpl.
  - intros rid i. destruct (decide (id info = rid)) as [<-|Hne].
    + rewrite lookup_insert_eq. naive_solver.
    + rewrite lookup_insert_ne by done. apply Hids.
  - rewrite map_size_insert_None by done. by rewrite Hsz.
  - rewrite Hn, u64_small by lia. lia.
Qed.

Lemma add_replicas_counts infos n c c' :
  (N.of_nat (n + length infos) < 2 ^ 64)%N →
  config_counts n c → for_each infos add_replica c = Ok tt c' →
  config_counts (n + length infos) c'.
Proof.
  revert n c. induction infos as [|i infos IH]; intros n c Hb Hc Hrun; simpl in *.
  - run_simpl. by rewrite Nat.add_0_r.
  - inv_bind Hrun. destruct a. rewrite <- Nat.add_succ_comm in *.
    eapply IH; [lia| |done]. eapply add_replica_counts; [|done..]. lia.
Qed.

Lemma configure_wf infos c :
  (N.of_nat (length infos) < 2 ^ 64)%N →
  configure infos ReplicaConfig_init = Ok tt c →
  config_wf c ∧ nreplicas c = N.of_nat (length infos).
Proof.
  intros Hb Hrun. unfold configure in Hrun. inv_bind Hrun. destruct a.
  apply (add_replicas_counts _ 0) in Hrun0 as (Hids & Hsz & Hn); simpl; [|lia|].
  - unfold finish_init in Hrun. simplify_eq. split; [split|]; simpl; try done; lia.
  - split; [|split]; done.
Qed.

Lemma add_replicas_members infos c c' :
  for_each infos add_replica c = Ok tt c' →
  ∀ r, r ∈ replicas c' ↔ r ∈ replicas c ∨ r ∈ id <$> infos.
Proof.
  revert c. induction infos as [|i infos IH]; intros c Hrun r; simpl in *.
  - run_simpl. set_solver.
  - inv_bind Hrun. destruct a. rewrite (IH _ Hrun). apply add_replica_Ok in Hrun0 as [_ ->].
    unfold replicas. simpl. rewrite dom_insert. set_solver.
Qed.

Lemma configure_members infos c :
  configure infos ReplicaConfig_init = Ok tt c → ∀ r, r ∈ replicas c ↔ r ∈ id <$> infos.
Proof.
  intros Hrun r. unfold configure in Hrun. inv_bind Hrun. destruct a. unfold finish_init in Hrun.
  simplify_eq. pose proof (add_replicas_members _ _ _ Hrun0 r) as Hm.
  unfold replicas in *. simpl in *. rewrite Hm. set_solver.
Qed.

(** ** Quorum intersection *)

Lemma quorum_overlap (R Q1 Q2 : gset ReplicaID) :
  Q1 ⊆ R → Q2 ⊆ R → size Q1 + size Q2 ≤ size R + size (Q1 ∩ Q2).
Proof.
  intros H1 H2.
  assert (Hu : size (Q1 ∪ Q2) = size Q1 + size (Q2 ∖ Q1)) by apply size_union_alt.
  assert (Hd : size (Q2 ∖ Q1) + size (Q1 ∩ Q2) = size Q2).
  { rewrite <- size_union by set_solver. f_equal. apply set_eq. intros x.
    destruct (decide (x ∈ Q1)); set_solver. }
  assert (size (Q1 ∪ Q2) ≤ size R) by (apply subseteq_size; set_solver). lia.
Qed.

(** Two sets of [nmajority] replicas meet in at least [n - 2 * (n / 3)]. *)
Lemma quorum_overlap_nmajority c (Q1 Q2 : gset ReplicaID) :
  config_wf c → Q1 ⊆ replicas c → Q2 ⊆ replicas c →
  (nmajority c ≤ N.of_nat (size Q1))%N → (nmajority c ≤ N.of_nat (size Q2))%N →
  (nreplicas c - 2 * (nreplicas c / 3) ≤ N.of_nat (size (Q1 ∩ Q2)))%N.
Proof.
  intros Hwf H1 H2 Hs1 Hs2. pose proof (quorum_overlap _ _ _ H1 H2) as Ho.
  unfold replicas in Ho. rewrite size_dom in Ho.
  rewrite (cw_nmajority _ Hwf), (cw_nreplicas _ Hwf) in *. lia.
Qed.

(** The quorum-intersection fact the protocol needs: fewer faulty replicas than
    the overlap leave an honest replica in it. *)
Lemma quorum_honest c (Q1 Q2 B : gset ReplicaID) :
  config_wf c → Q1 ⊆ replicas c → Q2 ⊆ replicas c →
  (nmajority c ≤ N.of_nat (size Q1))%N → (nmajority c ≤ N.of_nat (size Q2))%N →
  (N.of_nat (size B) < nreplicas c - 2 * (nreplicas c / 3))%N →
  ∃ r, r ∈ Q1 ∧ r ∈ Q2 ∧ r ∉ B.
Proof.
  intros Hwf H1 H2 Hs1 Hs2 HB.
  pose proof (quorum_overlap_nmajority _ _ _ Hwf H1 H2 Hs1 Hs2) as Ho.
  destruct (decide ((Q1 ∩ Q2) ⊆ B)) as [Hsub|Hsub].
  - apply subseteq_size in Hsub. lia.
  - destruct (set_choose_L ((Q1 ∩ Q2) ∖ B)) as [r Hr].
    + intros Hemp. apply Hsub. intros x Hx. destruct (decide (x ∈ B)); [done|]. set_solver.
    + exists r. set_solver.
Qed.

(** With three replicas per fault the bound is attained: two quorums that meet
    in exactly [n / 3] replicas. *)
Lemma tight_quorums c k :
  config_wf c → (0 < k)%nat → nreplicas c = N.of_nat (3 * k) →
  ∃ Q1 Q2, Q1 ⊆ replicas c ∧ Q2 ⊆ replicas c ∧
    N.of_nat (size Q1) = nmajority c ∧ N.of_nat (size Q2) = nmajority c ∧
    N.of_nat (size (Q1 ∩ Q2)) = (nreplicas c / 3)%N.
Proof.
  intros Hwf Hk Hn. pose proof (NoDup_elements (replicas c)) as Hnd.
  set (l := elements (replicas c)) in *.
  assert (Hlen : length l = 3 * k).
  { change (size (replicas c) = 3 * k). unfold replicas. rewrite size_dom.
    pose proof (cw_nreplicas _ Hwf). lia. }
  assert (Hd : (N.of_nat (3 * k) / 3 = N.of_nat k)%N)
    by (rewrite Nat2N.inj_mul, N.mul_comm; by apply N.div_mul).
  assert (Hsub : ∀ x, x ∈ l → x ∈ replicas c) by (intros x; apply elem_of_elements).
  rewrite <- (take_drop k l) in Hnd. apply NoDup_app in Hnd as (Ha & Hab & Hbc).
  rewrite <- (take_drop k (drop k l)) in Hbc. apply NoDup_app in Hbc as (Hb & Hbc & Hc).
  rewrite drop_drop in *.
  set (la := take k l) in *. set (lb := take k (drop k l)) in *. set (lc := drop (k + k) l) in *.
  assert (Hl : l = la ++ lb ++ lc)
    by (unfold la, lb, lc; by rewrite <- drop_drop, !take_drop).
  assert (HAB : NoDup (la ++ lb)).
  { apply NoDup_app. split_and!; [done| |done]. intros x Hx Hx'. apply (Hab x Hx).
    rewrite <- (take_drop k (drop k l)). apply elem_of_app. by left. }
  assert (HBC : NoDup (lb ++ lc)) by (apply NoDup_app; split_and!; done).
  assert (la ⊆ l ∧ lb ⊆ l ∧ lc ⊆ l) as (Hsa & Hsb & Hsc)
    by (rewrite Hl; split_and!; intros x; rewrite !elem_of_app; auto).
  assert (length la = k ∧ length lb = k ∧ length lc = k) as (Hla & Hlb & Hlc)
    by (unfold la, lb, lc; rewrite !length_take, !length_drop, Hlen; lia).
  exists (list_to_set (la ++ lb)), (list_to_set (lb ++ lc)).
  rewrite !size_list_to_set by done. rewrite !length_app, Hla, Hlb, Hlc.
  rewrite (cw_nmajority _ Hwf), Hn, Hd.
  split_and!; [| |lia|lia|].
  - intros x. rewrite elem_of_list_to_set, elem_of_app. intros [?|?]; auto.
  - intros x. rewrite elem_of_list_to_set, elem_of_app. intros [?|?]; auto.
  - rewrite <- Hlb, <- (size_list_to_set (C := gset ReplicaID) lb) by done. do 2 f_equal.
    apply set_eq. intros x. rewrite elem_of_intersection, !elem_of_list_to_set, !elem_of_app.
    split; [|naive_solver]. intros [[Hx|?] Hx']; [|done]. exfalso. apply (Hab x Hx).
    rewrite <- (take_drop k (drop k l)), drop_drop. by apply elem_of_app.
Qed.
