(* ===== verification/Certs.v ===== *)
(** * Vote certificates and quorum certificates

    hotstuff/crypto/certs.h and certs.cc.  A [QuorumCertificate] is a hash and
    a [std::map] from replica ids to signatures; its wire form is a bitmap of
    ids and the signatures in id order. *)

From S2P Require Import Prelude Types ReplicaConfig.

Record QuorumCertificate := mkQC {
  obj_hash : Hash;
  sigs : list (ReplicaID * Signature);
}.

#[export] Instance qc_eq_dec : EqDecision QuorumCertificate.
Proof. solve_decision. Defined.

(** [QuorumCertificate(const Hash&)] *)
Definition QC_new (h : Hash) : QuorumCertificate := mkQC h [].

Section certs.
Context {i_sodium : Sodium} {i_bv : BitVector}.

Definition check_sig (sig : Signature) (val : Hash) (pk : PublicKey) : bool :=
  crypto_sign_verify_detached sig val pk.

(** [PartialCertificate(const Hash&, const SecretKey&)] *)
Definition PC_sign {S} (h : Hash) (sk : SecretKey) : M S PartialCertificateWire :=
  match crypto_sign_detached h sk with
  | Some sig => ret (mkPC h sig)
  | None => throw (RuntimeError "failed to sign message")
  end.

(** [PartialCertificate::validate] *)
Definition PC_validate (pc : PartialCertificateWire) (info : ReplicaInfo) : bool :=
  check_sig (pc_sig pc) (pc_hash pc) (pk info).

(** The loop of the wire constructor: pop an id per signature. *)
Fixpoint load_sigs (bv : BV) (ws : list Signature) (acc : list (ReplicaID * Signature))
  : list (ReplicaID * Signature) :=
  match ws with
  | [] => acc
  | sig :: ws =>
    let '(rid, bv') := bv_pop bv in load_sigs bv' ws (map_emplace rid sig acc)
  end.

(** [QuorumCertificate(QuorumCertificateWire const&)] *)
Definition QC_of_wire (w : QuorumCertificateWire) : QuorumCertificate :=
  let bv := bv_of (qcw_bmp w) in
  if negb (bv_size bv =? N.of_nat (length (qcw_sigs w)))%N then QC_new (qcw_justify w)
  else mkQC (qcw_justify w) (load_sigs bv (qcw_sigs w) []).

(** [QuorumCertificate::serialize] *)
Definition serialize (qc : QuorumCertificate) : QuorumCertificateWire :=
  let '(out, bv) :=
    fold_left (λ '(out, bv) '(rid, sig), (out ++ [sig], bv_add bv rid))
      (sigs qc) ([], bv_new) in
  mkQCWire (obj_hash qc) (bv_get bv) out.

(** [QuorumCertificate::add_partial_certificate] *)
Definition add_partial_certificate (rid : ReplicaID) (pc : PartialCertificateWire)
  : M QuorumCertificate unit := λ qc,
  if negb (bool_decide (pc_hash pc = obj_hash qc)) then
    Throw (InvalidArgument "partial certificate merged into different quorum certificate") qc
  else if (MAX_REPLICAS <=? rid)%N then
    Throw (InvalidArgument "invalid replica id") qc
  else Ok tt (mkQC (obj_hash qc) (map_emplace rid (pc_sig pc) (sigs qc))).

(** The counting loop of [verify]; an id outside the configuration makes
    [get_publickey] throw. *)
Fixpoint count_valid {S} (c : ReplicaConfig) (h : Hash)
    (l : list (ReplicaID * Signature)) (n_valid : N) : M S N :=
  match l with
  | [] => ret n_valid
  | (rid, sig) :: l =>
    pk <- get_publickey c rid ;;
    count_valid c h l (if check_sig sig h pk then n_valid + 1 else n_valid)%N
  end.

(** [QuorumCertificate::verify] *)
Definition verify {S} (c : ReplicaConfig) (qc : QuorumCertificate) : M S bool :=
  if bool_decide (obj_hash qc = zero_hash) then ret true
  else if (N.of_nat (length (sigs qc)) <? nmajority c)%N then ret false
  else
    n_valid <- count_valid c (obj_hash qc) (sigs qc) 0 ;;
    ret (nmajority c <=? n_valid)%N.

(** [QuorumCertificate::has_quorum] *)
Definition has_quorum (c : ReplicaConfig) (qc : QuorumCertificate) : bool :=
  (nmajority c <=? N.of_nat (length (sigs qc)))%N.

(** ** Well-formed certificates *)

Definition qc_wf (qc : QuorumCertificate) : Prop :=
  map_wf (sigs qc) ∧ Forall (λ rid, rid < MAX_REPLICAS)%N (sigs qc).*1.

Lemma QC_new_wf h : qc_wf (QC_new h).
Proof. split; [apply map_wf_nil|constructor]. Qed.

Lemma QC_of_wire_hash w : obj_hash (QC_of_wire w) = qcw_justify w.
Proof. unfold QC_of_wire. by destruct (negb _). Qed.

Lemma serialize_justify qc : qcw_justify (serialize qc) = obj_hash qc.
Proof. unfold serialize. by destruct (fold_left _ _ _). Qed.

Lemma load_sigs_wf bv ws acc : map_wf acc → map_wf (load_sigs bv ws acc).
Proof.
  revert bv acc. induction ws as [|sig ws IH]; intros bv acc Hacc; simpl; [done|].
  destruct (bv_pop bv). by apply IH, map_emplace_wf.
Qed.

(** Whatever is on the wire, the parsed certificate has one entry per id. *)
Lemma QC_of_wire_map_wf w : map_wf (sigs (QC_of_wire w)).
Proof.
  unfold QC_of_wire. destruct (negb _); simpl; [apply map_wf_nil|].
  apply load_sigs_wf, map_wf_nil.
Qed.

Lemma add_partial_certificate_Ok rid pc qc qc' :
  add_partial_certificate rid pc qc = Ok tt qc' ↔
    pc_hash pc = obj_hash qc ∧ (rid < MAX_REPLICAS)%N ∧
    qc' = mkQC (obj_hash qc) (map_emplace rid (pc_sig pc) (sigs qc)).
Proof.
  unfold add_partial_certificate. case_bool_decide; simpl; [|naive_solver].
  destruct (N.leb_spec MAX_REPLICAS rid); split; intros; destruct_and?; simplify_eq;
    try lia; auto.
Qed.

Lemma add_partial_certificate_wf rid pc qc qc' :
  qc_wf qc → add_partial_certificate rid pc qc = Ok tt qc' → qc_wf qc'.
Proof.
  intros [Hwf Hall] (_ & Hrid & ->)%add_partial_certificate_Ok. split; simpl.
  - by apply map_emplace_wf.
  - rewrite Forall_forall in *. intros x [->|Hx]%map_emplace_keys; auto.
Qed.

(** A vote never lowers the number of signatures: a quorum stays a quorum. *)
Lemma add_partial_certificate_quorum c rid pc qc qc' :
  map_wf (sigs qc) → add_partial_certificate rid pc qc = Ok tt qc' →
  has_quorum c qc = true → has_quorum c qc' = true.
Proof.
  intros Hwf (_ & _ & ->)%add_partial_certificate_Ok. unfold has_quorum. simpl.
  rewrite map_emplace_length by done. rewrite !N.leb_le. case_decide; lia.
Qed.

(** ** Verification *)

Definition valid_entry (c : ReplicaConfig) (h : Hash) (e : ReplicaID * Signature) : Prop :=
  ∃ info, replica_map c !! e.1 = Some info ∧ check_sig e.2 h (pk info) = true.

(** When the counting loop returns, it has counted distinct entries whose
    signatures check under their replica's key. *)
Lemma count_valid_Ok {S} c h l n m (s s' : S) :
  count_valid c h l n s = Ok m s' →
  s' = s ∧ ∃ l', sublist l' l ∧ Forall (valid_entry c h) l' ∧
                 m = (n + N.of_nat (length l'))%N.
Proof.
  revert n. induction l as [|[rid sig] l IH]; intros n Hrun; simpl in Hrun.
  - run_simpl. split; [done|]. exists []. split; [constructor|]. split; [constructor|].
    simpl. lia.
  - inv_bind Hrun. apply get_publickey_Ok in Hrun0 as (info & Hinfo & -> & ->).
    destruct (check_sig sig h (pk info)) eqn:Hsig.
    + apply IH in Hrun as (-> & l' & Hsub & Hall & ->). split; [done|].
      exists ((rid, sig) :: l'). split; [by constructor|].
      split; [constructor; [by exists info|done]|]. simpl. lia.
    + apply IH in Hrun as (-> & l' & Hsub & Hall & ->). split; [done|].
      exists l'. split; [by constructor|]. done.
Qed.

Lemma sublist_fst_NoDup (l' l : list (ReplicaID * Signature)) :
  sublist l' l → NoDup l.*1 → NoDup l'.*1.
Proof.
  intros Hsub. induction Hsub as [| [k v] l1 l2 Hs IH| [k v] l1 l2 Hs IH]; simpl;
    rewrite ?NoDup_cons; [done| |naive_solver].
  intros [Hnin Hnd]. split; [|by apply IH].
  intros Hin. apply Hnin. apply list_elem_of_fmap in Hin as ([k' v'] & -> & Hin).
  apply list_elem_of_fmap. exists (k', v'). split; [done|].
  eapply sublist_subseteq; eauto.
Qed.

(** The set of replicas whose signature in [qc] checks. *)
Lemma verify_signers {S} c qc (s s' : S) :
  map_wf (sigs qc) → verify c qc s = Ok true s' → obj_hash qc ≠ zero_hash →
  ∃ Q : gset ReplicaID,
    Q ⊆ replicas c ∧ (nmajority c ≤ N.of_nat (size Q))%N ∧
    ∀ r, r ∈ Q → ∃ info sig, replica_map c !! r = Some info ∧
      (r, sig) ∈ sigs qc ∧ check_sig sig (obj_hash qc) (pk info) = true.
Proof.
  intros Hwf Hrun Hnz. unfold verify in Hrun.
  rewrite bool_decide_eq_false_2 in Hrun by done.
  destruct (N.ltb_spec (N.of_nat (length (sigs qc))) (nmajority c)); [by run_simpl|].
  inv_bind Hrun. apply count_valid_Ok in Hrun0 as (-> & l' & Hsub & Hall & ->).
  unfold ret in Hrun. injection Hrun as Hle _. apply N.leb_le in Hle.
  assert (Hnd : NoDup l'.*1)
    by (eapply sublist_fst_NoDup; [done|by apply map_wf_NoDup]).
  exists (list_to_set l'.*1). rewrite Forall_forall in Hall. split; [|split].
  - intros r Hr. rewrite elem_of_list_to_set, list_elem_of_fmap in Hr.
    destruct Hr as ([r' sig] & -> & Hin). apply Hall in Hin as (info & Hi & _).
    apply elem_of_replicas. by exists info.
  - rewrite size_list_to_set by done. by rewrite length_fmap.
  - intros r Hr. rewrite elem_of_list_to_set, list_elem_of_fmap in Hr.
    destruct Hr as ([r' sig] & -> & Hin). destruct (Hall _ Hin) as (info & Hi & Hs).
    exists info, sig. split; [done|]. split; [|done]. by eapply sublist_subseteq.
Qed.

(** [verify] only throws on an id outside the configuration. *)
Lemma count_valid_total {S} c h l n (s : S) :
  Forall (λ e, e.1 ∈ replicas c) l → ∃ m, count_valid c h l n s = Ok m s.
Proof.
  revert n. induction l as [|[rid sig] l IH]; intros n Hall; simpl; [by eexists|].
  apply Forall_cons in Hall as [Hin Hall]. apply elem_of_replicas in Hin as [info Hi].
  simpl in Hi.
  unfold get_publickey, get_info, bind. rewrite Hi. simpl. by apply IH.
Qed.

(** A signature by a configured replica that checks. *)
Definition signer_valid (c : ReplicaConfig) (h : Hash) (e : ReplicaID * Signature) : bool :=
  match replica_map c !! e.1 with
  | Some info => check_sig e.2 h (pk info)
  | None => false
  end.

Lemma count_valid_exact {S} c h l n (s : S) :
  Forall (λ e, e.1 ∈ replicas c) l →
  count_valid c h l n s =
    Ok (n + N.of_nat (length (filter (λ e, signer_valid c h e = true) l)))%N s.
Proof.
  intros Hl. revert n. induction Hl as [|[rid sig] l Hr Hl IH]; intros n; simpl.
  { by rewrite N.add_0_r. }
  apply elem_of_replicas in Hr as [i Hi]. simpl in Hi.
  unfold get_publickey, get_info, bind, ret. rewrite Hi, IH, filter_cons.
  assert (Hv : signer_valid c h (rid, sig) = check_sig sig h (pk i))
    by (unfold signer_valid; simpl; by rewrite Hi).
  rewrite Hv. destruct (check_sig sig h (pk i)); simpl; f_equal; lia.
Qed.

(** The first signer outside the configuration ends the loop. *)
Lemma count_valid_spec {S} c h l n (s : S) :
  count_valid c h l n s =
    match find (λ e, bool_decide (e.1 ∉ replicas c)) l with
    | Some e => Throw (RuntimeError (rid_not_found e.1)) s
    | None => Ok (n + N.of_nat (length (filter (λ e, signer_valid c h e = true) l)))%N s
    end.
Proof.
  destruct (find _ l) as [e|] eqn:Hf.
  - revert n. induction l as [|[k v] l IH]; intros n; [done|]. simpl in *.
    unfold get_publickey, get_info, bind. case_bool_decide as Hk.
    + injection Hf as <-. destruct (replica_map c !! k) as [i|] eqn:Hi; [|done].
      destruct Hk. apply elem_of_replicas. by exists i.
    + destruct (replica_map c !! k) as [i|] eqn:Hi; [by apply IH|].
      apply elem_of_replicas in Hk as [i Hi']. simpl in Hi'. congruence.
  - apply count_valid_exact, Forall_forall. intros e He%list_elem_of_In.
    pose proof (find_none _ _ Hf _ He) as Hb. simpl in Hb.
    apply bool_decide_eq_false in Hb. by apply dec_stable in Hb.
Qed.

(** The answer of [verify] does not depend on the state it runs in. *)
Lemma verify_state {S T} c qc ok (s : S) (t t' : T) :
  verify c qc t = Ok ok t' → verify c qc s = Ok ok s.
Proof.
  unfold verify. case_bool_decide; [by intros [= <- <-]|]. case_match; [by intros [= <- <-]|].
  unfold bind. rewrite !count_valid_spec. destruct (find _ _); simpl; [done|].
  unfold ret. by intros [= <- <-].
Qed.
End certs.

(** ** The wire round trip *)

Section roundtrip.
Context {i_sodium : Sodium} {i_bv : BitVector} {i_bvlaws : BitVectorLaws}.

(** The serialising loop writes the signatures in order and sets the ids. *)
Lemma serialize_fold (l : list (ReplicaID * Signature)) out bv :
  Forall (λ rid, rid < MAX_REPLICAS)%N l.*1 →
  let '(out', bv') :=
    fold_left (λ '(out, bv) '(rid, sig), (out ++ [sig], bv_add bv rid)) l (out, bv) in
  out' = out ++ l.*2 ∧ ∀ y, y ∈ bv_elems bv' ↔ y ∈ l.*1 ∨ y ∈ bv_elems bv.
Proof.
  revert out bv. induction l as [|[rid sig] l IH]; intros out bv Hall; simpl.
  - rewrite app_nil_r. split; [done|]. set_solver.
  - simpl in Hall. apply Forall_cons in Hall as [Hrid Hall].
    specialize (IH (out ++ [sig]) (bv_add bv rid) Hall).
    destruct (fold_left _ _ _) as [out' bv']. destruct IH as [-> IH].
    rewrite <- app_assoc. split; [done|]. intros y. rewrite IH.
    rewrite bv_add_elems by done. set_solver.
Qed.

Lemma serialize_elems qc :
  qc_wf qc →
  ∃ bv, serialize qc = mkQCWire (obj_hash qc) (bv_get bv) (sigs qc).*2 ∧
        bv_elems bv = (sigs qc).*1.
Proof.
  intros [Hwf Hall]. unfold serialize.
  pose proof (serialize_fold (sigs qc) [] bv_new Hall) as Hf.
  destruct (fold_left _ _ _) as [out bv]. destruct Hf as [-> Hel].
  exists bv. split; [done|]. apply sorted_ext; [apply bv_elems_sorted|done|].
  intros x. rewrite Hel, bv_new_elems. set_solver.
Qed.

(** Popping the ids of the bitmap pairs each signature with its id. *)
Lemma load_sigs_zip (l : list (ReplicaID * Signature)) bv acc :
  bv_elems bv = l.*1 → map_wf (acc ++ l) → load_sigs bv l.*2 acc = acc ++ l.
Proof.
  revert bv acc. induction l as [|[rid sig] l IH]; intros bv acc Hel Hwf; simpl.
  - by rewrite app_nil_r.
  - simpl in Hel. destruct (bv_pop_elems _ _ _ Hel) as [Hp1 Hp2].
    destruct (bv_pop bv) as [rid' bv']. simpl in *. subst rid'.
    rewrite map_emplace_last.
    + etrans; [apply (IH bv' (acc ++ [(rid, sig)])); [done|]|];
        by rewrite <- app_assoc.
    + unfold map_wf in Hwf. rewrite fmap_app in Hwf. simpl in Hwf.
      apply Forall_forall. intros x Hx.
      eapply StronglySorted_app_1_elem_of; [exact Hwf|done|by left].
Qed.

Lemma QC_roundtrip qc : qc_wf qc → QC_of_wire (serialize qc) = qc.
Proof.
  intros Hwf. destruct (serialize_elems _ Hwf) as (bv & -> & Hel).
  unfold QC_of_wire. simpl.
  rewrite bv_size_elems, bv_get_elems, Hel, !length_fmap, N.eqb_refl. simpl.
  rewrite load_sigs_zip; [by destruct qc|by rewrite bv_get_elems|]. by destruct Hwf.
Qed.

(** ** What parsing a certificate gives *)

Lemma load_sigs_keys bv ws acc rid :
  length ws ≤ length (bv_elems bv) → rid ∈ (load_sigs bv ws acc).*1 →
  rid ∈ acc.*1 ∨ rid ∈ bv_elems bv.
Proof.
  revert bv acc. induction ws as [|sig ws IH]; intros bv acc Hlen Hin; simpl in *; [by left|].
  destruct (bv_elems bv) as [|x l] eqn:Hel; simpl in Hlen; [lia|].
  destruct (bv_pop_elems _ _ _ Hel) as [Hx Hl]. destruct (bv_pop bv) as [x' bv'].
  simpl in *. subst x'. destruct (IH bv' (map_emplace x sig acc)) as [Hk|Hk].
  - rewrite Hl. lia.
  - done.
  - apply map_emplace_keys in Hk as [->|?]; [right; by left|by left].
  - right. right. by rewrite <- Hl.
Qed.

Lemma load_sigs_sig bv ws acc rid sig :
  (rid, sig) ∈ load_sigs bv ws acc → (rid, sig) ∈ acc ∨ sig ∈ ws.
Proof.
  revert bv acc. induction ws as [|sig' ws IH]; intros bv acc Hin; simpl in *; [by left|].
  destruct (bv_pop bv) as [x bv']. destruct (IH _ _ Hin) as [Hk|?]; [|right; by right].
  apply map_emplace_elem in Hk as [[= -> ->]|?]; [right; by left|by left].
Qed.

(** Whatever is on the wire, the parsed certificate is well formed. *)
Lemma QC_of_wire_wf w : qc_wf (QC_of_wire w).
Proof.
  split; [apply QC_of_wire_map_wf|]. unfold QC_of_wire.
  destruct (N.eqb_spec (bv_size (bv_of (qcw_bmp w))) (N.of_nat (length (qcw_sigs w))))
    as [Heq|]; simpl; [|constructor].
  rewrite bv_size_elems in Heq. apply Forall_forall. intros rid Hin.
  apply load_sigs_keys in Hin as [Hin|Hin]; [by apply elem_of_nil in Hin| |lia].
  pose proof (bv_elems_bound (bv_of (qcw_bmp w))) as Hb. rewrite Forall_forall in Hb.
  by apply Hb.
Qed.

(** Serializing a parsed certificate respects the sizes of the .x files. *)
Lemma serialize_sized w : qc_wire_ok w → qc_wire_ok (serialize (QC_of_wire w)).
Proof.
  intros (Hj & _ & _ & Hs). destruct (serialize_elems _ (QC_of_wire_wf w)) as (bv & -> & Hel).
  split; [simpl; by rewrite QC_of_wire_hash|]. split; [apply bv_get_bound|]. simpl.
  rewrite length_fmap, <- (length_fmap fst), <- Hel. split.
  - apply (sorted_bound_length _ 32); [apply bv_elems_sorted|apply bv_elems_bound].
  - apply Forall_fmap, Forall_forall. intros [rid sig] Hin. simpl.
    unfold QC_of_wire in Hin. destruct (negb _); simpl in Hin; [by apply elem_of_nil in Hin|].
    apply load_sigs_sig in Hin as [Hin|Hin]; [by apply elem_of_nil in Hin|].
    rewrite Forall_forall in Hs. by apply Hs.
Qed.
End roundtrip.
