(* ===== verification/IoUtils.v ===== *)
(** * Blocks on disk

    hotstuff/block_storage/io_utils.cc, utils/hs_save_load_xdr.h and the
    directory names of hotstuff/manage_data_dirs.cc.  A disk is a finite map
    from file names to contents; a block's file is named by the hexadecimal
    form of its header hash. *)

From S2P Require Import Prelude Types ReplicaConfig.

(** ** hotstuff/manage_data_dirs.cc: the directory names *)

Definition hotstuff_index_lmdb_dir (info : ReplicaInfo) : string :=
  root_data_folder info +:+ "hotstuff_block_index/".

Definition hotstuff_block_data_dir (info : ReplicaInfo) : string :=
  root_data_folder info +:+ "hotstuff_block_data/".

(** ** File names *)

(** [std::hex] of a digit. *)
Definition hex_digit (n : N) : Ascii.ascii :=
  if (n <? 10)%N then Ascii.ascii_of_N (48 + n) else Ascii.ascii_of_N (87 + n).

(** [s << std::setw(2) << std::hex << (unsigned short)hash[i]] with fill '0'. *)
Definition hex_byte (b : byte) : string :=
  let n := Byte.to_N b in
  String (hex_digit (n / 16)) (String (hex_digit (n mod 16)) EmptyString).

(** [array_to_str] *)
Fixpoint array_to_str (h : Hash) : string :=
  match h with
  | [] => EmptyString
  | b :: h => hex_byte b +:+ array_to_str h
  end.

(** [block_filename(const Hash&, const ReplicaInfo&)] *)
Definition block_filename (header_hash : Hash) (info : ReplicaInfo) : string :=
  hotstuff_block_data_dir info +:+ (array_to_str header_hash +:+ ".block").

(** ** utils/hs_save_load_xdr.h *)

(** The [fread] loop of [load_xdr_from_file]: chunks of [BUF_SIZE] bytes are
    appended until a read returns no byte. *)
Definition BUF_SIZE : nat := N.to_nat 65536.

Fixpoint fread_loop (fuel : nat) (file contents : bytes) : bytes :=
  match fuel with
  | 0 => contents
  | S fuel =>
    match take BUF_SIZE file with
    | [] => contents
    | chunk => fread_loop fuel (drop BUF_SIZE file) (contents ++ chunk)
    end
  end.

Section io.
Context {i_sodium : Sodium} {i_xdr : Xdr} {i_fs : Fs}.

(** [save_xdr_to_file]: the return code is [true] for 0. *)
Definition save_xdr_to_file (buf : bytes) (filename : string) : M Disk bool := λ d,
  if fopen_w_ok filename then Ok true (<[filename := buf]> d) else Ok false d.

(** [load_xdr_from_file]: [None] for the return code -1; a malformed file
    makes [xdr_from_opaque] throw. *)
Definition load_xdr_from_file {A} (from : bytes → option A) (filename : string)
  : M Disk (option A) := λ d,
  match d !! filename with
  | Some file =>
    if fopen_r_ok filename then
      match from (fread_loop (S (length file)) file []) with
      | Some a => Ok (Some a) d
      | None => Throw XdrError d
      end
    else Ok None d
  | None => Ok None d
  end.

(** [save_block]; [block_filename(const HotstuffBlockWire&, _)] hashes the
    header again. *)
Definition save_block (block : HotstuffBlockWire) (info : ReplicaInfo) : M Disk unit :=
  header_hash <- hash_xdr (xdr_header (header block)) ;;
  let filename := block_filename header_hash info in
  ok <- save_xdr_to_file (xdr_block block) filename ;;
  if ok then ret tt else throw (RuntimeError ("failed to save file" +:+ filename)).

(** [load_block] *)
Definition load_block (req_header_hash : Hash) (info : ReplicaInfo)
  : M Disk (option HotstuffBlockWire) :=
  load_xdr_from_file xdr_block_from (block_filename req_header_hash info).

(** ** Properties *)

Lemma fread_loop_all fuel file contents :
  length file < fuel → fread_loop fuel file contents = contents ++ file.
Proof.
  revert file contents. induction fuel as [|fuel IH]; intros file contents Hlt; [lia|].
  assert (∃ k, BUF_SIZE = S k) as [k Hk].
  { exists (N.to_nat 65535). unfold BUF_SIZE. by rewrite <- N2Nat.inj_succ. }
  cbn [fread_loop]. rewrite Hk. destruct file as [|b file]; simpl.
  { by rewrite app_nil_r. }
  rewrite IH by (rewrite length_drop; simpl in *; lia).
  rewrite <- app_assoc. simpl. by rewrite take_drop.
Qed.

Lemma save_block_Ok block info d d' :
  save_block block info d = Ok tt d' ↔
    ∃ h, crypto_generichash (xdr_header (header block)) = Some h ∧
         fopen_w_ok (block_filename h info) = true ∧
         d' = <[block_filename h info := xdr_block block]> d.
Proof.
  unfold save_block. rewrite bind_Ok. setoid_rewrite hash_xdr_Ok.
  setoid_rewrite bind_Ok. unfold save_xdr_to_file, ret, throw. split.
  - intros (h & s1 & [Hh ->] & ok & s2 & Hs & Hr). exists h.
    destruct (fopen_w_ok _); naive_solver.
  - intros (h & Hh & Hok & ->). exists h, d. split; [done|].
    exists true, (<[block_filename h info := xdr_block block]> d). by rewrite Hok.
Qed.

Lemma load_block_saved {i_xdrlaws : XdrLaws} d h info w :
  wire_ok w → d !! block_filename h info = Some (xdr_block w) →
  fopen_r_ok (block_filename h info) = true →
  load_block h info d = Ok (Some w) d.
Proof.
  intros Hw Hd Hr. unfold load_block, load_xdr_from_file. rewrite Hd, Hr.
  rewrite fread_loop_all by lia. simpl. by rewrite xdr_block_rt.
Qed.
End io.

(** ** Distinct blocks have distinct files *)

Lemma hex_digit_inj n m : (n < 16)%N → (m < 16)%N → hex_digit n = hex_digit m → n = m.
Proof.
  intros Hn Hm Heq. apply (f_equal Ascii.N_of_ascii) in Heq. unfold hex_digit in Heq.
  destruct (N.ltb_spec n 10), (N.ltb_spec m 10);
    rewrite !Ascii.N_ascii_embedding in Heq by lia; lia.
Qed.

Lemma byte_to_N_lt b : (Byte.to_N b < 256)%N.
Proof. pose proof (Byte.to_N_bounded b). lia. Qed.

Lemma hex_byte_inj b c : hex_byte b = hex_byte c → b = c.
Proof.
  unfold hex_byte. intros Heq. injection Heq as H1 H2.
  pose proof (byte_to_N_lt b) as Hb. pose proof (byte_to_N_lt c) as Hc.
  assert (Hdiv : ∀ n, (n < 256)%N → (n / 16 < 16)%N)
    by (intros; apply N.Div0.div_lt_upper_bound; lia).
  apply hex_digit_inj in H1; [|by apply Hdiv..].
  apply hex_digit_inj in H2; [|by apply N.mod_lt..].
  assert (Byte.to_N b = Byte.to_N c).
  { rewrite (N.div_mod (Byte.to_N b) 16), (N.div_mod (Byte.to_N c) 16) by done. congruence. }
  apply (inj Some). by rewrite <- !Byte.of_to_N; f_equal.
Qed.

Lemma array_to_str_inj h1 h2 : array_to_str h1 = array_to_str h2 → h1 = h2.
Proof.
  revert h2. induction h1 as [|b h1 IH]; intros [|c h2] Heq; try done.
  cbn [array_to_str] in Heq.
  assert (hex_byte b = hex_byte c ∧ array_to_str h1 = array_to_str h2) as [Hb Ht].
  { unfold hex_byte in *. cbn in Heq. injection Heq as H1 H2 H3. by rewrite H1, H2. }
  f_equal; [by apply hex_byte_inj|by apply IH].
Qed.

Lemma string_length_app (s t : string) :
  String.length (s +:+ t) = String.length s + String.length t.
Proof. induction s as [|a s IH]; simpl; [done|]. by rewrite IH. Qed.

Lemma string_app_inj_r (s1 s2 t : string) : s1 +:+ t = s2 +:+ t → s1 = s2.
Proof.
  revert s2. induction s1 as [|a s1 IH]; intros [|b s2] Heq; simpl in *; [done|..].
  - exfalso. apply (f_equal String.length) in Heq. simpl in Heq.
    rewrite !string_length_app in Heq. simpl in Heq. lia.
  - exfalso. apply (f_equal String.length) in Heq. simpl in Heq.
    rewrite !string_length_app in Heq. simpl in Heq. lia.
  - injection Heq as -> Heq. f_equal. by apply IH.
Qed.

Lemma block_filename_inj h1 h2 info :
  block_filename h1 info = block_filename h2 info → h1 = h2.
Proof.
  unfold block_filename. intros Heq%(inj (String.append _)).
  by apply array_to_str_inj, (string_app_inj_r _ _ ".block").
Qed.
