(* ===== verification/DataDirs.v ===== *)
(** * The data directories

    hotstuff/manage_data_dirs.cc: making and clearing the directories of a
    replica.  [mkdir_safe] is of the utils submodule; it and
    [std::filesystem::remove_all] act on the file system, so both are
    operations of the class [DirOps], with what is documented of them in
    [DirLaws].  The directory names are in IoUtils.v. *)

From S2P Require Import Prelude Types ReplicaConfig IoUtils.

(** [remove_all] returns whether the error code was set. *)
Class DirOps := {
  mkdir_safe : string → M Disk unit;
  remove_all : string → M Disk bool;
}.

(** A name below a directory; directory names end in a slash. *)
Definition below (dir name : string) : bool := String.prefix dir name.

Definition without (dir : string) (d : Disk) : Disk :=
  filter (λ x, below dir x.1 = false) d.

(** Making a directory touches no file.  Removing one without an error removes
    what is below it and nothing else; with an error, some of it may be left. *)
Class DirLaws {i_dirs : DirOps} := {
  mkdir_files : ∀ dir d, wp (mkdir_safe dir) (λ _ d', d' = d) (λ _ d', d' = d) d;
  remove_all_files : ∀ dir d, ∃ ec d', remove_all dir d = Ok ec d' ∧
    without dir d' = without dir d ∧ (ec = false → d' = without dir d);
}.
#[global] Hint Mode DirLaws ! : typeclass_instances.

(** ** hotstuff/manage_data_dirs.cc *)

Section dirs.
Context {i_dirs : DirOps}.

Definition make_hotstuff_dirs (info : ReplicaInfo) : M Disk unit :=
  mkdir_safe (root_data_folder info) ;;
  mkdir_safe (hotstuff_block_data_dir info) ;;
  mkdir_safe (hotstuff_index_lmdb_dir info).

Definition clear_hotstuff_dirs (info : ReplicaInfo) : M Disk unit :=
  ec <- remove_all (hotstuff_block_data_dir info) ;;
  if ec : bool then throw (RuntimeError "failed to clear hotstuff block dir")
  else
    ec <- remove_all (hotstuff_index_lmdb_dir info) ;;
    if ec : bool then throw (RuntimeError "failed to clear hotstuff index lmdb dir")
    else ret tt.

Definition clear_all_data_dirs (info : ReplicaInfo) : M Disk unit := clear_hotstuff_dirs info.

Definition make_all_data_dirs (info : ReplicaInfo) : M Disk unit := make_hotstuff_dirs info.

(** ** Properties *)

Lemma prefix_app (s t : string) : String.prefix s (s +:+ t) = true.
Proof. induction s as [|a s IH]; [by destruct t|]. simpl. by destruct (Ascii.ascii_dec a a). Qed.

Lemma without_below dir name d : below dir name = true → without dir d !! name = None.
Proof. intros Hb. apply map_lookup_filter_None. right. intros x _ Hf. simpl in Hf. congruence. Qed.

Lemma block_file_below h info : below (hotstuff_block_data_dir info) (block_filename h info) = true.
Proof. apply prefix_app. Qed.

Context {i_laws : DirLaws}.

(** Only what is below the two directories is removed, also by a call that
    throws; a call that returns has removed all of it. *)
Lemma clear_all_data_dirs_wp info d :
  wp (clear_all_data_dirs info)
    (λ _ d', d' = without (hotstuff_index_lmdb_dir info) (without (hotstuff_block_data_dir info) d))
    (λ f d', (f = Exn (RuntimeError "failed to clear hotstuff block dir") ∧
              without (hotstuff_block_data_dir info) d' = without (hotstuff_block_data_dir info) d) ∨
             (f = Exn (RuntimeError "failed to clear hotstuff index lmdb dir") ∧
              without (hotstuff_index_lmdb_dir info) d' =
              without (hotstuff_index_lmdb_dir info) (without (hotstuff_block_data_dir info) d))) d.
Proof.
  unfold wp, clear_all_data_dirs, clear_hotstuff_dirs, bind, throw, ret.
  destruct (remove_all_files (hotstuff_block_data_dir info) d) as (e1 & d1 & -> & Hk1 & H1).
  destruct e1; [by left|]. rewrite (H1 eq_refl).
  destruct (remove_all_files (hotstuff_index_lmdb_dir info)
    (without (hotstuff_block_data_dir info) d)) as (e2 & d2 & -> & Hk2 & H2).
  destruct e2; [by right|by apply H2].
Qed.

(** After it no block is found: a replica started over the directories knows
    nothing of the blocks before. *)
Lemma cleared_no_blocks {i_xdr : Xdr} {i_fs : Fs} info d d' h :
  clear_all_data_dirs info d = Ok tt d' → load_block h info d' = Ok None d'.
Proof.
  intros Hrun. pose proof (clear_all_data_dirs_wp info d) as Hwp. unfold wp in Hwp.
  rewrite Hrun in Hwp. unfold load_block, load_xdr_from_file.
  assert (d' !! block_filename h info = None) as ->; [|done].
  rewrite Hwp. apply map_lookup_filter_None. left. apply without_below, block_file_below.
Qed.

(** Making the directories keeps every block. *)
Lemma make_all_data_dirs_wp info d :
  wp (make_all_data_dirs info) (λ _ d', d' = d) (λ _ d', d' = d) d.
Proof.
  unfold make_all_data_dirs, make_hotstuff_dirs. apply wp_bind.
  eapply wp_mono; [apply mkdir_files| |done]. intros _ ? ->. apply wp_bind.
  eapply wp_mono; [apply mkdir_files| |done]. intros _ ? ->. apply mkdir_files.
Qed.
End dirs.
