(* ===== verification/Block.v ===== *)
(** * Blocks

    hotstuff/block.h and block.cc.  Blocks are shared objects: [block_ptr_t]
    is a nullable pointer ([option loc]) into a heap of [HotstuffBlock]s, so
    that pointer comparison, aliasing and in-place updates of a block are those
    of the code.  Methods on one block are functions on the record; methods
    that follow parent pointers take the heap. *)

From S2P Require Import Prelude Types ReplicaConfig Certs IoUtils.

Abbreviation loc := positive.

(** ** Data *)

Record HotstuffBlock := mkBlock {
  wire_block : HotstuffBlockWire;
  parsed_qc : option QuorumCertificate;
  proposer : ReplicaID;
  block_height : N;
  parent_block_ptr : option loc;
  justify_block_ptr : option loc;
  self_qc : QuorumCertificate;
  decided : bool;
  written_to_disk : bool;
  hash_checked : bool;
  hash_valid : bool;
  flushed_from_memory : bool;
}.

Abbreviation heap := (gmap loc HotstuffBlock).

(** In-place field updates. *)
Definition with_links (b : HotstuffBlock) (height : N) (parent justify : option loc)
  : HotstuffBlock :=
  mkBlock (wire_block b) (parsed_qc b) (proposer b) height parent justify (self_qc b)
    (decided b) (written_to_disk b) (hash_checked b) (hash_valid b) (flushed_from_memory b).
Definition with_self_qc (b : HotstuffBlock) (qc : QuorumCertificate) : HotstuffBlock :=
  mkBlock (wire_block b) (parsed_qc b) (proposer b) (block_height b) (parent_block_ptr b)
    (justify_block_ptr b) qc (decided b) (written_to_disk b) (hash_checked b) (hash_valid b)
    (flushed_from_memory b).
Definition with_decided (b : HotstuffBlock) (d : bool) : HotstuffBlock :=
  mkBlock (wire_block b) (parsed_qc b) (proposer b) (block_height b) (parent_block_ptr b)
    (justify_block_ptr b) (self_qc b) d (written_to_disk b) (hash_checked b) (hash_valid b)
    (flushed_from_memory b).
Definition with_written (b : HotstuffBlock) (w : bool) : HotstuffBlock :=
  mkBlock (wire_block b) (parsed_qc b) (proposer b) (block_height b) (parent_block_ptr b)
    (justify_block_ptr b) (self_qc b) (decided b) w (hash_checked b) (hash_valid b)
    (flushed_from_memory b).
Definition with_hash_cache (b : HotstuffBlock) (checked valid : bool) : HotstuffBlock :=
  mkBlock (wire_block b) (parsed_qc b) (proposer b) (block_height b) (parent_block_ptr b)
    (justify_block_ptr b) (self_qc b) (decided b) (written_to_disk b) checked valid
    (flushed_from_memory b).

(** ** Accessors *)

Definition to_wire (b : HotstuffBlock) : HotstuffBlockWire := wire_block b.
Definition has_been_decided (b : HotstuffBlock) : bool := decided b.
Definition decide_block (b : HotstuffBlock) : HotstuffBlock := with_decided b true.
Definition get_proposer (b : HotstuffBlock) : ReplicaID := proposer b.
Definition get_height (b : HotstuffBlock) : N := block_height b.
Definition get_wire_body (b : HotstuffBlock) : bytes := body (wire_block b).
Definition get_hash (b : HotstuffBlock) : Hash := obj_hash (self_qc b).
Definition get_parent_hash (b : HotstuffBlock) : Hash := parent_hash (header (wire_block b)).
Definition get_parent (b : HotstuffBlock) : option loc := parent_block_ptr b.
Definition get_justify (b : HotstuffBlock) : option loc := justify_block_ptr b.
Definition get_self_qc (b : HotstuffBlock) : QuorumCertificate := self_qc b.

(** [*parsed_qc]: the genesis block has none. *)
Definition get_justify_qc {S} (b : HotstuffBlock) : M S QuorumCertificate :=
  match parsed_qc b with
  | Some qc => ret qc
  | None => halt_with NullDeref
  end.

Definition get_justify_hash {S} (b : HotstuffBlock) : M S Hash :=
  qc <- get_justify_qc b ;; ret (obj_hash qc).

Definition is_flushed_from_memory (b : HotstuffBlock) : bool := flushed_from_memory b.

(** Following a pointer. *)
Definition deref {S} (h : heap) (p : loc) : M S HotstuffBlock :=
  match h !! p with
  | Some b => ret b
  | None => halt_with NullDeref
  end.
Definition deref_ptr {S} (h : heap) (p : option loc) : M S HotstuffBlock :=
  match p with
  | Some p => deref h p
  | None => halt_with NullDeref
  end.

(** [new HotstuffBlock(...)]: a fresh address. *)
Definition alloc (b : HotstuffBlock) (h : heap) : loc * heap :=
  let p := fresh (dom h) in (p, <[p := b]> h).

(** ** Operations *)

(** [set_parent] followed by [set_justify], as [insert_block] calls them. *)
Definition set_parent (b : HotstuffBlock) (p : loc) (parent_height : N) : HotstuffBlock :=
  with_links b (u64 (parent_height + 1)) (Some p) (justify_block_ptr b).
Definition set_justify (b : HotstuffBlock) (j : loc) : HotstuffBlock :=
  with_links b (block_height b) (parent_block_ptr b) (Some j).

(** [has_body] *)
Definition has_body {S} (b : HotstuffBlock) : M S bool :=
  if flushed_from_memory b then
    throw (RuntimeError "can't query body if flushed from memory")
  else ret (negb (bool_decide (body (wire_block b) = []))).

(** [flush_from_memory] *)
Definition flush_from_memory (b : HotstuffBlock) : HotstuffBlock :=
  if flushed_from_memory b then b
  else mkBlock (mkWire (header (wire_block b)) []) (parsed_qc b) (proposer b) (block_height b)
         (parent_block_ptr b) (justify_block_ptr b) (self_qc b) (decided b)
         (written_to_disk b) (hash_checked b) (hash_valid b) true.

(** The genesis constructor; [HotstuffBlock::genesis_block]. *)
Definition genesis_block : HotstuffBlock :=
  mkBlock empty_wire None UNKNOWN_REPLICA 0 None None (QC_new zero_hash)
    true true true true true.

Section block.
Context {i_sodium : Sodium} {i_xdr : Xdr} {i_bv : BitVector} {i_fs : Fs}.

(** [HotstuffBlock(HotstuffBlockWire&&, ReplicaID)]; also [receive_block]. *)
Definition receive_block {S} (w : HotstuffBlockWire) (source_id : ReplicaID)
  : M S HotstuffBlock :=
  h <- hash_xdr (xdr_header (header w)) ;;
  ret (mkBlock w (Some (QC_of_wire (header_qc (header w)))) source_id 0 None None
         (QC_new h) false false false false false).

(** [HotstuffBlock(HotstuffBlockWire&&, load_from_disk_block_t)] *)
Definition loaded_block {S} (w : HotstuffBlockWire) : M S HotstuffBlock :=
  h <- hash_xdr (xdr_header (header w)) ;;
  ret (mkBlock w (Some (QC_of_wire (header_qc (header w)))) UNKNOWN_REPLICA 0 None None
         (QC_new h) true true true true false).

(** [mint_block] *)
Definition mint_block {S} (bd : bytes) (qc_wire : QuorumCertificateWire)
    (parent : Hash) (self_id : ReplicaID) : M S HotstuffBlock :=
  bh <- hash_xdr (xdr_opaque bd) ;;
  receive_block (mkWire (mkHeader parent qc_wire bh) bd) self_id.

(** [load_decided_block] *)
Definition load_decided_block (h : Hash) (info : ReplicaInfo) : M Disk HotstuffBlock :=
  loaded <- load_block h info ;;
  match loaded with
  | None => throw (RuntimeError "failed to load an expected block!")
  | Some w => loaded_block w
  end.

(** [validate_hash], caching its answer in the block. *)
Definition validate_hash : M HotstuffBlock bool := λ b,
  if hash_checked b then Ok (hash_valid b) b
  else
    match crypto_generichash (xdr_opaque (body (wire_block b))) with
    | None => Throw (RuntimeError "error in crypto_generichash") b
    | Some h =>
      if bool_decide (h = body_hash (header (wire_block b)))
      then Ok true (with_hash_cache b true true)
      else Ok false (with_hash_cache b true false)
    end.

(** [validate_hotstuff] *)
Definition validate_hotstuff (c : ReplicaConfig) : M HotstuffBlock bool :=
  ok <- validate_hash ;;
  if negb ok then ret false
  else
    b <- gets (λ b, b) ;;
    qc <- get_justify_qc b ;;
    verify c qc.

(** [supports_nonempty_child_proposal] *)
Fixpoint supports_nonempty_child_proposal {S} (h : heap) (b : HotstuffBlock)
    (self_id : ReplicaID) (depth : nat) : M S bool :=
  match depth with
  | 0 => ret true
  | S depth =>
    if negb (self_id =? proposer b)%N then ret false
    else
      match justify_block_ptr b, parent_block_ptr b with
      | None, _ | _, None => ret false
      | Some _, Some p =>
        jh <- get_justify_hash b ;;
        if negb (bool_decide (jh = get_parent_hash b)) then ret false
        else
          parent <- deref h p ;;
          supports_nonempty_child_proposal h parent self_id depth
      end
  end.

(** [write_to_disk]: test-and-set the flag, save, recurse into the parent. *)
Fixpoint write_to_disk (fuel : nat) (info : ReplicaInfo) (p : loc)
  : M (heap * Disk) unit :=
  match fuel with
  | 0 => halt_with OutOfFuel
  | S fuel =>
    h <- gets fst ;;
    b <- deref h p ;;
    if written_to_disk b then ret tt
    else
      modify (λ s, (<[p := with_written b true]> s.1, s.2)) ;;
      zoom snd (λ d s, (s.1, d)) (save_block (wire_block b) info) ;;
      match parent_block_ptr b with
      | None => ret tt
      | Some parent => write_to_disk fuel info parent
      end
  end.
End block.
