(* ===== verification/BlockStore.v ===== *)
(** * The block store and its garbage collector

    hotstuff/block_storage/block_store.{h,cc} and garbage_collector.{h,cc}.
    The store maps hashes to block pointers; the collector's queue, its list of
    blocks and its worker's iteration are explicit state. *)

From S2P Require Import Prelude Types ReplicaConfig Certs IoUtils Block.

(** ** BlockGarbageCollector *)

Record BlockGarbageCollector := mkGC {
  hotstuff_height_to_gc : option N;
  gc_list : list loc;
  gc_list_buffer : list loc;
}.

Definition GC_init : BlockGarbageCollector := mkGC None [] [].

Definition push_buffer_to_gc_list (g : BlockGarbageCollector) : BlockGarbageCollector :=
  mkGC (hotstuff_height_to_gc g) (gc_list g ++ gc_list_buffer g) [].

Definition exists_work_to_do (g : BlockGarbageCollector) : bool :=
  bool_decide (is_Some (hotstuff_height_to_gc g)).

Definition below (h : heap) (height : N) (p : loc) : bool :=
  match h !! p with
  | Some b => (get_height b <? height)%N
  | None => false
  end.

Definition flush_all (h : heap) (ps : list loc) : heap :=
  foldl (λ h p, alter flush_from_memory p h) h ps.

(** [do_gc]: the swap-with-last loop; each block taken out is flushed.  Flushing
    does not change a height, so the loop's test does not depend on it. *)
Definition do_gc (hotstuff_height : N) : M (heap * BlockGarbageCollector) unit := λ '(h, g),
  let '(kept, out) := swap_remove (below h hotstuff_height) (length (gc_list g)) 0 (gc_list g) in
  Ok tt (flush_all h out, mkGC (hotstuff_height_to_gc g) kept (gc_list_buffer g)).

(** One iteration of [run]; without work the worker waits on its condition
    variable and nothing changes. *)
Definition gc_run_once : M (heap * BlockGarbageCollector) unit := λ '(h, g),
  match hotstuff_height_to_gc g with
  | None => Ok tt (h, g)
  | Some hotstuff_height =>
    let g1 := push_buffer_to_gc_list g in
    do_gc hotstuff_height (h, mkGC None (gc_list g1) (gc_list_buffer g1))
  end.

Definition invoke_gc (hotstuff_height : N) (g : BlockGarbageCollector) : BlockGarbageCollector :=
  mkGC (Some hotstuff_height) (gc_list g) (gc_list_buffer g).

Definition gc_add_block (p : loc) (g : BlockGarbageCollector) : BlockGarbageCollector :=
  mkGC (hotstuff_height_to_gc g) (gc_list g) (gc_list_buffer g ++ [p]).

(** ** BlockStore *)

Record BlockStore := mkStore {
  block_cache : gmap Hash loc;
  gc_collector : BlockGarbageCollector;
}.

Record MissingDependencies := mkMissing {
  md_parent_hash : option Hash;
  md_justify_hash : option Hash;
}.

(** [operator bool] *)
Definition missing (m : MissingDependencies) : bool :=
  bool_decide (is_Some (md_parent_hash m)) || bool_decide (is_Some (md_justify_hash m)).

(** [BlockStore(block_ptr_t genesis_block)] *)
Definition BlockStore_init (genesis : loc) (h : Hash) : BlockStore :=
  mkStore {[h := genesis]} GC_init.

(** [std::map::emplace]: an entry already there stays. *)
Definition cache_emplace (h : Hash) (p : loc) (m : gmap Hash loc) : gmap Hash loc :=
  match m !! h with
  | Some _ => m
  | None => <[h := p]> m
  end.

(** [get_block] *)
Definition get_block (st : BlockStore) (h : Hash) : option loc := block_cache st !! h.

(** [prune_below_height] *)
Definition prune_below_height (prune_height : N) (st : BlockStore) : BlockStore :=
  mkStore (block_cache st) (invoke_gc prune_height (gc_collector st)).

(** [insert_block] *)
Definition insert_block (p : loc) : M (heap * BlockStore) MissingDependencies :=
  s <- gets (λ s, s) ;; let '(h, st) := s in
  block <- deref h p ;;
  let parent := get_parent_hash block in
  let parent_it := block_cache st !! parent in
  justify_hash <- get_justify_hash block ;;
  let justify_it := block_cache st !! justify_hash in
  match parent_it, justify_it with
  | Some pp, Some jp =>
    pb <- deref h pp ;;
    let block' := set_justify (set_parent block pp (get_height pb)) jp in
    modify (λ '(h, st),
      (<[p := block']> h,
       mkStore (cache_emplace (get_hash block') p (block_cache st))
         (gc_add_block p (gc_collector st)))) ;;
    ret (mkMissing None None)
  | _, _ =>
    ret (mkMissing (if parent_it then None else Some parent)
                   (if justify_it then None else Some justify_hash))
  end.

(** [BlockStore::write_to_disk] *)
Definition store_write_to_disk {i_sodium : Sodium} {i_xdr : Xdr} {i_fs : Fs} (st : BlockStore) (h : Hash)
    (info : ReplicaInfo) : M (heap * Disk) unit :=
  match get_block st h with
  | None => throw (RuntimeError "could not find block that needs to go to disk!")
  | Some p =>
    hp <- gets fst ;;
    b <- deref hp p ;;
    write_to_disk (S (N.to_nat (get_height b))) info p
  end.

(** ** What a collection does *)

Lemma flush_idem b : flush_from_memory (flush_from_memory b) = flush_from_memory b.
Proof. unfold flush_from_memory. destruct (flushed_from_memory b) eqn:Hf; [by rewrite Hf|done]. Qed.

Lemma flush_all_lookup h ps p :
  flush_all h ps !! p = if bool_decide (p ∈ ps) then flush_from_memory <$> h !! p else h !! p.
Proof.
  revert h. induction ps as [|q ps IH]; intros h; [done|].
  change (flush_all h (q :: ps)) with (flush_all (alter flush_from_memory q h) ps).
  rewrite IH. destruct (decide (q = p)) as [->|Hne].
  - rewrite lookup_alter_eq, (bool_decide_eq_true_2 (p ∈ p :: ps)) by (by left).
    case_bool_decide; [|done]. destruct (h !! p); simpl; [by rewrite flush_idem|done].
  - rewrite lookup_alter_ne by done. apply bool_decide_ext_if. set_solver.
Qed.

(** A collection flushes the listed blocks below the height and keeps the
    others listed. *)
Lemma gc_run_once_spec h g height :
  hotstuff_height_to_gc g = Some height →
  let listed := gc_list g ++ gc_list_buffer g in
  ∃ h' kept, gc_run_once (h, g) = Ok tt (h', mkGC None kept []) ∧
    kept ≡ₚ filter (λ p, below h height p = false) listed ∧
    ∀ p, h' !! p = if bool_decide (p ∈ listed ∧ below h height p = true)
                   then flush_from_memory <$> h !! p else h !! p.
Proof.
  intros Hg listed. unfold gc_run_once, do_gc. rewrite Hg. simpl. fold listed.
  pose proof (swap_remove_spec (below h height) (length listed) [] listed) as Hs. simpl in Hs.
  destruct (swap_remove _ _ _ _) as [kept out]. destruct Hs as [Hk Ho]; [done|by constructor|].
  exists (flush_all h out), kept. split; [done|]. split; [done|]. intros p.
  rewrite flush_all_lookup. apply bool_decide_ext_if. rewrite Ho, list_elem_of_filter. naive_solver.
Qed.

(** ** The shape of the block tree

    What the consensus code relies on of a block never changes once the block
    is in the store: its header, parsed certificate, proposer, height, pointers
    and hash.  [skel] keeps exactly that; certificates being collected, status
    flags and the body are dropped. *)

Record Skel := mkSkel {
  sk_header : HotstuffBlockHeader;
  sk_qc : option QuorumCertificate;
  sk_proposer : ReplicaID;
  sk_height : N;
  sk_parent : option loc;
  sk_justify : option loc;
  sk_hash : Hash;
}.

Definition skel (b : HotstuffBlock) : Skel :=
  mkSkel (header (wire_block b)) (parsed_qc b) (proposer b) (block_height b)
    (parent_block_ptr b) (justify_block_ptr b) (get_hash b).

Abbreviation tree := (gmap loc Skel).

Definition same_skel (h h' : heap) : Prop := skel <$> h = skel <$> h'.

#[export] Instance same_skel_equiv : Equivalence same_skel.
Proof. split; unfold same_skel; [by intros ?|by intros ???|by intros ??? -> ->]. Qed.

Lemma skel_lookup (h : heap) p k :
  (skel <$> h) !! p = Some k ↔ ∃ b, h !! p = Some b ∧ skel b = k.
Proof. rewrite lookup_fmap, fmap_Some. naive_solver. Qed.

Lemma skel_lookup_Some (h : heap) p b : h !! p = Some b → (skel <$> h) !! p = Some (skel b).
Proof. intros Hb. apply skel_lookup. eauto. Qed.

(** Updating a block without touching its skeleton. *)
Lemma same_skel_insert (h : heap) p b b' :
  h !! p = Some b → skel b' = skel b → same_skel (<[p := b']> h) h.
Proof.
  intros Hb Heq. unfold same_skel. rewrite fmap_insert, Heq.
  apply insert_id. by rewrite lookup_fmap, Hb.
Qed.

Lemma same_skel_alter (h : heap) p f :
  (∀ b, skel (f b) = skel b) → same_skel (alter f p h) h.
Proof.
  intros Hf. unfold same_skel. apply map_eq. intros q.
  rewrite !lookup_fmap. destruct (decide (p = q)) as [->|Hne].
  - rewrite lookup_alter_eq. destruct (h !! q); simpl; [by rewrite Hf|done].
  - by rewrite lookup_alter_ne.
Qed.

Lemma flush_skel b : skel (flush_from_memory b) = skel b.
Proof. unfold flush_from_memory. by destruct (flushed_from_memory b). Qed.

Lemma flush_all_skel h ps : same_skel (flush_all h ps) h.
Proof.
  unfold flush_all. revert h. induction ps as [|p ps IH]; intros h; simpl; [done|].
  etrans; [apply IH|]. apply same_skel_alter, flush_skel.
Qed.

Section tree.
Context {i_sodium : Sodium} {i_xdr : Xdr} {i_bv : BitVector}.

(** A block built by one of the constructors from its wire form. *)
Definition node_ok (k : Skel) : Prop :=
  sk_qc k = Some (QC_of_wire (header_qc (sk_header k))) ∧
  crypto_generichash (xdr_header (sk_header k)) = Some (sk_hash k).

Definition unlinked (k : Skel) : Prop :=
  sk_height k = 0%N ∧ sk_parent k = None ∧ sk_justify k = None.

(** A block [insert_block] has linked: both pointers are the store's. *)
Definition linked (t : tree) (c : gmap Hash loc) (k : Skel) : Prop :=
  ∃ pp pk jp jk,
    sk_parent k = Some pp ∧ t !! pp = Some pk ∧
    c !! parent_hash (sk_header k) = Some pp ∧
    sk_height k = u64 (sk_height pk + 1) ∧
    sk_justify k = Some jp ∧ t !! jp = Some jk ∧
    c !! qcw_justify (header_qc (sk_header k)) = Some jp.

Record tree_wf (g : loc) (t : tree) (c : gmap Hash loc) : Prop := {
  tw_genesis : t !! g = Some (skel genesis_block);
  tw_zero : c !! zero_hash = Some g;
  tw_cached : ∀ hh p, c !! hh = Some p →
    ∃ k, t !! p = Some k ∧ sk_hash k = hh ∧ (p = g ∨ linked t c k);
  tw_nodes : ∀ p k, t !! p = Some k → p ≠ g →
    node_ok k ∧ (unlinked k ∨ linked t c k);
  tw_stored : ∀ p k, t !! p = Some k → linked t c k → is_Some (c !! sk_hash k);
}.

Lemma linked_not_unlinked t c k : linked t c k → unlinked k → False.
Proof. intros (?&?&?&?&Hp&_) (_&Hn&_). congruence. Qed.

(** The initial store. *)
Lemma tree_wf_init g :
  tree_wf g {[g := skel genesis_block]} {[zero_hash := g]}.
Proof.
  split; [by simplify_map_eq..| | |].
  - intros hh p [<- <-]%lookup_singleton_Some. exists (skel genesis_block).
    split; [by simplify_map_eq|]. split; [done|by left].
  - intros p k [<- <-]%lookup_singleton_Some. done.
  - intros p k [<- <-]%lookup_singleton_Some _. rewrite lookup_singleton_eq. eauto.
Qed.

Lemma linked_mono t t' c c' k :
  linked t c k →
  (∀ q k, t !! q = Some k → (∃ hh, c !! hh = Some q) → t' !! q = Some k) →
  (∀ hh q, c !! hh = Some q → c' !! hh = Some q) →
  linked t' c' k.
Proof.
  intros (pp & pk & jp & jk & Hp & Hpk & Hcp & Hh & Hj & Hjk & Hcj) Ht Hc.
  exists pp, pk, jp, jk. split_and!; eauto.
Qed.

(** A block is not linked yet, or the store has one with its hash. *)
Lemma node_stored g t c p k :
  tree_wf g t c → t !! p = Some k → unlinked k ∨ is_Some (c !! sk_hash k).
Proof.
  intros Hwf Hp. destruct (decide (p = g)) as [->|Hne].
  - right. rewrite (tw_genesis _ _ _ Hwf) in Hp. injection Hp as <-.
    exists g. apply (tw_zero _ _ _ Hwf).
  - destruct (tw_nodes _ _ _ Hwf _ _ Hp Hne) as [_ [?|Hl]]; [by left|right].
    by apply (tw_stored _ _ _ Hwf p).
Qed.

(** Adding a freshly constructed block. *)
Lemma tree_wf_alloc g t c p k :
  tree_wf g t c → t !! p = None → node_ok k → unlinked k →
  tree_wf g (<[p := k]> t) c.
Proof.
  intros Hwf Hp Hk Hu.
  assert (Hmono : ∀ q k', t !! q = Some k' → <[p := k]> t !! q = Some k').
  { intros q k' Hq. rewrite lookup_insert_ne; [done|]. congruence. }
  split.
  - apply Hmono, (tw_genesis _ _ _ Hwf).
  - apply (tw_zero _ _ _ Hwf).
  - intros hh q Hq. destruct (tw_cached _ _ _ Hwf _ _ Hq) as (k' & Hk' & Hhh & Hor).
    exists k'. split; [by apply Hmono|]. split; [done|].
    destruct Hor as [->|Hl]; [by left|right]. eapply linked_mono; eauto.
  - intros q k' Hq Hne. destruct (decide (p = q)) as [->|Hpq].
    + rewrite lookup_insert_eq in Hq. simplify_eq. auto.
    + rewrite lookup_insert_ne in Hq by done.
      destruct (tw_nodes _ _ _ Hwf _ _ Hq Hne) as [Hn [Hul|Hl]]; [auto|].
      split; [done|right]. eapply linked_mono; eauto.
  - intros q k' [[<- <-]|[_ Hq]]%lookup_insert_Some Hl; [by destruct (linked_not_unlinked _ _ _ Hl)|].
    destruct (node_stored g t c q k' Hwf Hq) as [Hul|?]; [|done].
    by destruct (linked_not_unlinked _ _ _ Hl).
Qed.

Lemma cache_emplace_mono (h : Hash) (p : loc) (c : gmap Hash loc) (hh : Hash) (q : loc) :
  c !! hh = Some q → cache_emplace h p c !! hh = Some q.
Proof.
  unfold cache_emplace. intros Hq. destruct (c !! h) eqn:Hh; [done|].
  rewrite lookup_insert_ne; [done|]. congruence.
Qed.

Lemma cache_emplace_inv (h : Hash) (p : loc) (c : gmap Hash loc) (hh : Hash) (q : loc) :
  cache_emplace h p c !! hh = Some q → c !! hh = Some q ∨ (hh = h ∧ q = p).
Proof.
  unfold cache_emplace. destruct (c !! h) eqn:Hh; [auto|].
  intros [[??]|[??]]%lookup_insert_Some; auto.
Qed.

(** A hash that is stored keeps its block. *)
Lemma cache_emplace_lookup (h : Hash) (p : loc) (c : gmap Hash loc) (hh : Hash) :
  cache_emplace h p c !! hh = if bool_decide (hh = h) then Some (default p (c !! h)) else c !! hh.
Proof.
  unfold cache_emplace. case_bool_decide as Hh; [subst hh|]; destruct (c !! h) as [q|] eqn:Hq; try done.
  - by rewrite lookup_insert_eq.
  - by rewrite lookup_insert_ne.
Qed.

(** The skeleton [set_parent] and [set_justify] produce. *)
Definition link (k : Skel) (pp : loc) (pk : Skel) (jp : loc) : Skel :=
  mkSkel (sk_header k) (sk_qc k) (sk_proposer k) (u64 (sk_height pk + 1))
    (Some pp) (Some jp) (sk_hash k).

(** Linking a block that is linked already changes nothing. *)
Lemma link_linked t c k pp pk jp :
  linked t c k → c !! parent_hash (sk_header k) = Some pp → t !! pp = Some pk →
  c !! qcw_justify (header_qc (sk_header k)) = Some jp → link k pp pk jp = k.
Proof.
  intros (pp' & pk' & jp' & jk' & Hp & Hpk & Hcp & Hh & Hj & Hjk & Hcj) Hpp Ht Hjp.
  destruct k; unfold link; simpl in *. congruence.
Qed.

(** A cached block is untouched by linking another block (or itself again). *)
Lemma link_frame g t c p k pp pk jp q kq :
  tree_wf g t c → t !! p = Some k → p ≠ g →
  c !! parent_hash (sk_header k) = Some pp → t !! pp = Some pk →
  c !! qcw_justify (header_qc (sk_header k)) = Some jp →
  t !! q = Some kq → (∃ hh, c !! hh = Some q) →
  <[p := link k pp pk jp]> t !! q = Some kq.
Proof.
  intros Hwf Hk Hpg Hpp Hpk Hjp Hq [hh Hhh].
  destruct (decide (p = q)) as [->|Hne]; [|by rewrite lookup_insert_ne].
  destruct (tw_cached _ _ _ Hwf _ _ Hhh) as (k' & Hk' & _ & [->|Hl]); [done|].
  simplify_eq. rewrite lookup_insert_eq. f_equal. by eapply link_linked.
Qed.

Lemma tree_wf_link g t c p k pp pk jp :
  tree_wf g t c → t !! p = Some k → p ≠ g →
  c !! parent_hash (sk_header k) = Some pp → t !! pp = Some pk →
  c !! qcw_justify (header_qc (sk_header k)) = Some jp →
  tree_wf g (<[p := link k pp pk jp]> t) (cache_emplace (sk_hash k) p c).
Proof.
  intros Hwf Hk Hpg Hpp Hpk Hjp.
  destruct (tw_cached _ _ _ Hwf _ _ Hjp) as (jk & Hjk & _ & _).
  assert (Hfr := λ q kq, link_frame g t c p k pp pk jp q kq Hwf Hk Hpg Hpp Hpk Hjp).
  assert (Hmono := λ kk Hl, linked_mono t _ c _ kk Hl Hfr (cache_emplace_mono (sk_hash k) p c)).
  assert (Hnew : linked (<[p := link k pp pk jp]> t) (cache_emplace (sk_hash k) p c)
                   (link k pp pk jp)).
  { exists pp, pk, jp, jk. simpl.
    split_and!; eauto using cache_emplace_mono. }
  split.
  - rewrite lookup_insert_ne by done. apply (tw_genesis _ _ _ Hwf).
  - by apply cache_emplace_mono, (tw_zero _ _ _ Hwf).
  - intros hh q [Hq|[-> ->]]%cache_emplace_inv.
    + destruct (tw_cached _ _ _ Hwf _ _ Hq) as (k' & Hk' & Hhh & Hor).
      exists k'. split; [by eauto|]. split; [done|]. destruct Hor; [by left|right; auto].
    + exists (link k pp pk jp). rewrite lookup_insert_eq. auto.
  - intros q k' Hq Hne. destruct (decide (p = q)) as [->|Hpq].
    + rewrite lookup_insert_eq in Hq. simplify_eq.
      destruct (tw_nodes _ _ _ Hwf _ _ Hk Hne) as [Hn _]. auto.
    + rewrite lookup_insert_ne in Hq by done.
      destruct (tw_nodes _ _ _ Hwf _ _ Hq Hne) as [Hn [Hul|Hl]]; auto.
  - intros q k' [[<- <-]|[_ Hq]]%lookup_insert_Some Hl.
    { simpl. unfold cache_emplace. destruct (c !! sk_hash k) eqn:Hc; [by eauto|].
      rewrite lookup_insert_eq. eauto. }
    destruct (node_stored g t c q k' Hwf Hq) as [Hul|[q' Hq']].
    + by destruct (linked_not_unlinked _ _ _ Hl).
    + eauto using cache_emplace_mono.
Qed.

(** [insert_block] on a received block: it reports exactly the missing
    dependencies and changes nothing, or it links and stores the block. *)
Lemma insert_block_spec g h st p b :
  tree_wf g (skel <$> h) (block_cache st) → h !! p = Some b → p ≠ g →
  let c := block_cache st in
  let jh := qcw_justify (header_qc (header (wire_block b))) in
  match c !! get_parent_hash b, c !! jh with
  | Some pp, Some jp =>
    ∃ pb, h !! pp = Some pb ∧
      let b' := set_justify (set_parent b pp (get_height pb)) jp in
      insert_block p (h, st) = Ok (mkMissing None None)
        (<[p := b']> h, mkStore (cache_emplace (get_hash b) p c)
                          (gc_add_block p (gc_collector st)))
  | op, oj =>
    insert_block p (h, st) =
      Ok (mkMissing (if op then None else Some (get_parent_hash b))
                    (if oj then None else Some jh)) (h, st)
  end.
Proof.
  intros Hwf Hb Hpg. simpl.
  destruct (tw_nodes _ _ _ Hwf p (skel b)) as [[Hqc _] _]; [by apply skel_lookup_Some|done|].
  simpl in Hqc.
  assert (Hjh : ∀ S (s : S), get_justify_hash b s =
            Ok (qcw_justify (header_qc (header (wire_block b)))) s).
  { intros S s. unfold get_justify_hash, get_justify_qc, bind. rewrite Hqc. simpl.
    unfold ret. by rewrite QC_of_wire_hash. }
  unfold insert_block, bind, gets, deref. rewrite Hb. simpl. rewrite Hjh.
  destruct (block_cache st !! get_parent_hash b) as [pp|] eqn:Hpp;
    destruct (block_cache st !! qcw_justify (header_qc (header (wire_block b)))) as [jp|] eqn:Hjp; try done.
  destruct (tw_cached _ _ _ Hwf _ _ Hpp) as (pk & (pb & Hpb & _)%skel_lookup & _).
  exists pb. split; [done|]. rewrite Hpb. done.
Qed.

Lemma insert_block_wf g h st p b m h' st' :
  tree_wf g (skel <$> h) (block_cache st) → h !! p = Some b → p ≠ g →
  insert_block p (h, st) = Ok m (h', st') →
  tree_wf g (skel <$> h') (block_cache st').
Proof.
  intros Hwf Hb Hpg Hrun. pose proof (insert_block_spec g h st p b Hwf Hb Hpg) as Hspec.
  simpl in Hspec.
  destruct (block_cache st !! get_parent_hash b) as [pp|] eqn:Hpp;
    destruct (block_cache st !! qcw_justify (header_qc (header (wire_block b)))) as [jp|] eqn:Hjp;
    [|rewrite Hrun in Hspec; by simplify_eq..].
  destruct Hspec as (pb & Hpb & Hspec). rewrite Hrun in Hspec. simplify_eq. simpl.
  rewrite fmap_insert.
  apply (tree_wf_link g _ _ p (skel b) pp (skel pb) jp); auto using skel_lookup_Some.
Qed.
End tree.
