(* ===== verification/Lmdb.v ===== *)
(** * The index of decided blocks

    hotstuff/lmdb.h and lmdb.cc: the LMDB database that maps a decided height to
    the block hash followed by the serialised vm block id, and holds the
    certificate on the highest decided block.  LMDB itself, its C++ wrapper
    ([LMDBInstance]) and the endianness helpers are library code: a class of
    operations and a class of laws. *)

From S2P Require Import Prelude Types ReplicaConfig Certs IoUtils Block.

(** ** The library *)

Inductive dbi := data_dbi | meta_dbi.

#[export] Instance dbi_eq_dec : EqDecision dbi.
Proof. solve_decision. Defined.

Class LmdbLib := {
  DB : Type;                                    (* the committed database *)
  TXN : Type;                                   (* a write transaction *)
  create_db : DB;
  wbegin : DB → TXN;
  txn_put : TXN → dbi → bytes → bytes → TXN;
  commit_wtxn : TXN → N → DB;
  get_persisted_round_number : DB → N;
  rget : DB → dbi → bytes → option bytes;       (* a read transaction's get *)
  cursor_entries : DB → dbi → list (bytes * bytes);
  dbval_string : string → bytes;
  write_unsigned_big_endian : N → bytes;
  read_unsigned_big_endian : bytes → N;
}.

(** Lexicographic order on keys, the order of an LMDB cursor. *)
Fixpoint bytes_lt (a b : bytes) : Prop :=
  match a, b with
  | [], [] => False
  | [], _ :: _ => True
  | _ :: _, [] => False
  | x :: a, y :: b => (Byte.to_N x < Byte.to_N y)%N ∨ (x = y ∧ bytes_lt a b)
  end.

Lemma bytes_lt_trans a b c : bytes_lt a b → bytes_lt b c → bytes_lt a c.
Proof.
  revert b c. induction a as [|x a IH]; intros [|y b] [|z c]; simpl; try done.
  intros [H1|[-> H1]] [H2|[-> H2]]; [left; lia|left; lia|left; lia|right; eauto].
Qed.

Lemma bytes_lt_irrefl a : ¬ bytes_lt a a.
Proof. induction a as [|x a IH]; simpl; [naive_solver|]. intros [?|[_ ?]]; [lia|done]. Qed.

(** What the sources rely on: a committed transaction is the old database with
    the transaction's puts applied, a cursor visits the entries in key order,
    and the big-endian encoding of a [uint64_t] is injective and order
    preserving. *)
Class LmdbLaws {i_lmdb : LmdbLib} := {
  txn_get : TXN → dbi → bytes → option bytes;
  rget_create : ∀ i k, rget create_db i k = None;
  txn_get_begin : ∀ d i k, txn_get (wbegin d) i k = rget d i k;
  txn_get_put : ∀ t i k v i' k',
    txn_get (txn_put t i k v) i' k' =
      if bool_decide (i = i' ∧ k = k') then Some v else txn_get t i' k';
  rget_commit : ∀ t n i k,
    i = data_dbi ∨ k = dbval_string "qc" → rget (commit_wtxn t n) i k = txn_get t i k;
  cursor_mem : ∀ d k v, (k, v) ∈ cursor_entries d data_dbi ↔ rget d data_dbi k = Some v;
  cursor_sorted : ∀ d, StronglySorted bytes_lt (cursor_entries d data_dbi).*1;
  read_write_be : ∀ n, (n < 2 ^ 64)%N →
    read_unsigned_big_endian (write_unsigned_big_endian n) = n;
  write_be_lt : ∀ n m, (n < m)%N → (m < 2 ^ 64)%N →
    bytes_lt (write_unsigned_big_endian n) (write_unsigned_big_endian m);
}.

(** ** include/hotstuff/vm/vm_block_id.h *)

Record VMBlockID := mkVMBlockID { vmid_value : option bytes }.

#[export] Instance vmid_eq_dec : EqDecision VMBlockID.
Proof. solve_decision. Defined.

(** [VMBlockID()], [VMBlockID(bytes)], [serialize] and [operator bool]. *)
Definition VMBlockID_null : VMBlockID := mkVMBlockID None.
Definition VMBlockID_of (bs : bytes) : VMBlockID := mkVMBlockID (Some bs).
Definition vmid_serialize (i : VMBlockID) : bytes :=
  match vmid_value i with
  | None => []
  | Some bs => bs
  end.
Definition vmid_bool (i : VMBlockID) : bool := bool_decide (is_Some (vmid_value i)).

(** ** HotstuffLMDB *)

Section lmdb.
Context {i_sodium : Sodium} {i_xdr : Xdr} {i_bv : BitVector} {i_fs : Fs} {i_lmdb : LmdbLib}.

Definition open_txn (db : DB) : TXN := wbegin db.

Definition commit (tx : TXN) (db : DB) : DB :=
  commit_wtxn tx (get_persisted_round_number db + 1).

(** [txn::add_decided_block] and [add_decided_block_] *)
Definition add_decided_block (tx : TXN) (b : HotstuffBlock) (vid : VMBlockID) : TXN :=
  let key_bytes := write_unsigned_big_endian (get_height b) in
  let value_bytes := get_hash b ++ vmid_serialize vid in
  txn_put tx data_dbi key_bytes value_bytes.

(** [txn::set_qc_on_top_block] *)
Definition set_qc_on_top_block (tx : TXN) (qc : QuorumCertificate) : TXN :=
  txn_put tx meta_dbi (dbval_string "qc") (xdr_qc (serialize qc)).

(** [get_highest_qc] *)
Definition get_highest_qc {S} (db : DB) : M S QuorumCertificate :=
  match rget db meta_dbi (dbval_string "qc") with
  | None => throw (RuntimeError "failed to get highest qc when loading from db")
  | Some value =>
    match xdr_qc_from value with
    | None => throw XdrError
    | Some out => ret (QC_of_wire out)
    end
  end.

(** [detail::get_hash_from_lmdb_value] *)
Definition get_hash_from_lmdb_value {S} (value_bytes : bytes) : M S Hash :=
  if (length value_bytes <? 32)%nat then
    throw (RuntimeError "invalid bytes length from lmdb")
  else ret (take 32 value_bytes).

(** [get_decided_hash_id_pair] and [get_decided_hash_id_pair_], at
    [vm_block_id = VMBlockID]. *)
Definition get_decided_hash_id_pair {S} (db : DB) (height : N)
  : M S (option (Hash * VMBlockID)) :=
  match rget db data_dbi (write_unsigned_big_endian height) with
  | None => ret None
  | Some value_bytes =>
    h <- get_hash_from_lmdb_value value_bytes ;;
    ret (Some (h, VMBlockID_of value_bytes))
  end.

(** [cursor::iterator::operator*] *)
Definition iterator_deref {S} (e : bytes * bytes) : M S (N * Hash) :=
  h <- get_hash_from_lmdb_value e.2 ;;
  ret (read_unsigned_big_endian e.1, h).

(** [cursor::iterator::get_hs_hash_and_vm_data], at [VMBlockID]. *)
Definition get_hs_hash_and_vm_data {S} (e : bytes * bytes) : M S (Hash * VMBlockID) :=
  h <- get_hash_from_lmdb_value e.2 ;;
  ret (h, VMBlockID_of (drop 32 e.2)).

(** [forward_cursor] and its range, [begin()] to [end()]. *)
Definition forward_cursor (db : DB) : list (bytes * bytes) := cursor_entries db data_dbi.

(** [load_block_unparsed] *)
Definition load_block_unparsed (h : Hash) (info : ReplicaInfo) : M Disk (option bytes) :=
  res <- load_block h info ;;
  ret (body <$> res).

(** ** Properties *)

Context {i_lmdblaws : LmdbLaws}.

Lemma write_be_inj n m :
  (n < 2 ^ 64)%N → (m < 2 ^ 64)%N →
  write_unsigned_big_endian n = write_unsigned_big_endian m → n = m.
Proof. intros Hn Hm Heq. rewrite <- (read_write_be n), <- (read_write_be m) by done. by rewrite Heq. Qed.

(** What a transaction has written at a height. *)
Lemma txn_get_add_decided tx b vid h' :
  (get_height b < 2 ^ 64)%N → (h' < 2 ^ 64)%N →
  txn_get (add_decided_block tx b vid) data_dbi (write_unsigned_big_endian h') =
    if bool_decide (get_height b = h') then Some (get_hash b ++ vmid_serialize vid)
    else txn_get tx data_dbi (write_unsigned_big_endian h').
Proof.
  intros Hb Hh'. unfold add_decided_block. rewrite txn_get_put.
  apply bool_decide_ext_if. split; [intros [_ Heq]; by apply write_be_inj|by intros ->].
Qed.

Lemma txn_get_set_qc tx qc k :
  txn_get (set_qc_on_top_block tx qc) data_dbi k = txn_get tx data_dbi k.
Proof. unfold set_qc_on_top_block. rewrite txn_get_put. by rewrite bool_decide_eq_false_2 by naive_solver. Qed.

Lemma txn_get_set_qc_key tx qc :
  txn_get (set_qc_on_top_block tx qc) meta_dbi (dbval_string "qc") =
    Some (xdr_qc (serialize qc)).
Proof. unfold set_qc_on_top_block. rewrite txn_get_put. by rewrite bool_decide_eq_true_2. Qed.

(** The blocks of a commit, oldest first. *)
Definition add_decided_blocks (tx : TXN) (l : list (HotstuffBlock * VMBlockID)) : TXN :=
  foldl (λ tx bv, add_decided_block tx bv.1 bv.2) tx l.

Definition heights_ok (l : list (HotstuffBlock * VMBlockID)) : Prop :=
  Forall (λ bv, get_height bv.1 < 2 ^ 64)%N l.

Lemma txn_get_add_blocks tx l b vid :
  heights_ok l → NoDup ((λ bv, get_height bv.1) <$> l) → (b, vid) ∈ l →
  txn_get (add_decided_blocks tx l) data_dbi (write_unsigned_big_endian (get_height b)) =
    Some (get_hash b ++ vmid_serialize vid).
Proof.
  induction l as [|[b0 v0] l IH] using rev_ind; intros Hh Hn Hin; [set_solver|].
  unfold add_decided_blocks. rewrite foldl_snoc. simpl.
  apply Forall_app in Hh as [Hh [Hb0 _]%Forall_cons].
  rewrite fmap_app in Hn. apply NoDup_app in Hn as (Hn & Hdis & _).
  assert (Hb : (get_height b < 2 ^ 64)%N).
  { apply elem_of_app in Hin as [Hin|[= -> ->]%list_elem_of_singleton]; [|exact Hb0].
    unfold heights_ok in Hh. rewrite Forall_forall in Hh. exact (Hh _ Hin). }
  rewrite txn_get_add_decided by done.
  apply elem_of_app in Hin as [Hin|Heq%list_elem_of_singleton].
  - rewrite bool_decide_eq_false_2; [by apply IH|]. intros Heq.
    apply (Hdis (get_height b)); [apply list_elem_of_fmap; by exists (b, vid)|].
    rewrite <- Heq. simpl. by left.
  - injection Heq as -> ->. by rewrite bool_decide_eq_true_2.
Qed.

(** Every key of the index is the encoding of a height. *)
Definition height_keys (db : DB) : Prop := ∀ k v,
  rget db data_dbi k = Some v → ∃ n, (n < 2 ^ 64)%N ∧ k = write_unsigned_big_endian n.

Lemma height_keys_create : height_keys create_db.
Proof. intros k v. by rewrite rget_create. Qed.

Lemma height_keys_commit db l qc :
  height_keys db → heights_ok l →
  height_keys (commit (set_qc_on_top_block (add_decided_blocks (open_txn db) l) qc) db).
Proof.
  intros Hdb Hl k v. unfold commit. rewrite rget_commit, txn_get_set_qc by auto.
  revert v. induction l as [|[b vid] l IH] using rev_ind; intros v.
  { unfold add_decided_blocks, open_txn. simpl. rewrite txn_get_begin. apply Hdb. }
  apply Forall_app in Hl as [Hl [Hb _]%Forall_cons].
  unfold add_decided_blocks. rewrite foldl_snoc. unfold add_decided_block at 1. simpl.
  rewrite txn_get_put. case_bool_decide as Hk; [|by apply IH]. intros _.
  exists (get_height b). split; [done|]. symmetry. apply Hk.
Qed.

Lemma read_be_sorted ns :
  Forall (λ n, n < 2 ^ 64)%N ns →
  StronglySorted bytes_lt (write_unsigned_big_endian <$> ns) → StronglySorted N.lt ns.
Proof.
  intros Hall. induction Hall as [|n ns Hn Hns IH]; [constructor|]. rewrite fmap_cons.
  intros [Hs Hf]%StronglySorted_inv. constructor; [by apply IH|].
  rewrite Forall_fmap in Hf. rewrite Forall_forall in *. intros m Hm.
  specialize (Hf m Hm). simpl in Hf. destruct (N.lt_total n m) as [?|[->|Hlt]]; [done|..].
  - by destruct (bytes_lt_irrefl (write_unsigned_big_endian m)).
  - destruct (bytes_lt_irrefl (write_unsigned_big_endian n)).
    eapply bytes_lt_trans; [exact Hf|]. by apply write_be_lt.
Qed.

Lemma height_keys_list db :
  height_keys db → ∃ ns, Forall (λ n, n < 2 ^ 64)%N ns ∧
    (forward_cursor db).*1 = write_unsigned_big_endian <$> ns.
Proof.
  intros Hdb. assert (Hin : ∀ e, e ∈ forward_cursor db → rget db data_dbi e.1 = Some e.2)
    by (intros [k v] He; by apply cursor_mem).
  induction (forward_cursor db) as [|[k v] l IH]; [by exists []|].
  destruct IH as (ns & Hns & Heq); [intros; apply Hin; by right|].
  destruct (Hdb k v) as (n & Hn & ->); [apply (Hin (k, v)); by left|].
  exists (n :: ns). rewrite !fmap_cons. split; [by constructor|]. by rewrite Heq.
Qed.

(** The cursor visits the index in the order of heights. *)
Lemma forward_cursor_sorted db :
  height_keys db → StronglySorted N.lt (read_unsigned_big_endian <$> (forward_cursor db).*1).
Proof.
  intros Hdb. destruct (height_keys_list db Hdb) as (ns & Hns & Heq).
  pose proof (cursor_sorted db) as Hs. change (cursor_entries db data_dbi) with (forward_cursor db) in Hs.
  rewrite Heq in *. rewrite <- list_fmap_compose.
  rewrite (list_fmap_ext _ (λ n, n)), list_fmap_id; [by apply read_be_sorted|].
  intros i n Hi. simpl. apply read_write_be. rewrite Forall_lookup in Hns. by eapply Hns.
Qed.

(** The keys of an index that holds the heights from 1 to [n]. *)
Lemma cursor_keys db n :
  height_keys db → (n < 2 ^ 64)%N →
  (∀ m, (m < 2 ^ 64)%N →
     is_Some (rget db data_dbi (write_unsigned_big_endian m)) ↔ (0 < m ≤ n)%N) →
  (forward_cursor db).*1 = write_unsigned_big_endian <$> (N.of_nat <$> seq 1 (N.to_nat n)).
Proof.
  intros Hdb Hn Hex. destruct (height_keys_list db Hdb) as (ns & Hns & Heq).
  rewrite Heq. f_equal. pose proof (cursor_sorted db) as Hs.
  change (cursor_entries db data_dbi) with (forward_cursor db) in Hs. rewrite Heq in Hs.
  apply sorted_ext; [by apply read_be_sorted|apply of_nat_seq_sorted|].
  rewrite Forall_forall in Hns. intros m. rewrite list_elem_of_fmap. split.
  - intros Hm. assert (Hk : write_unsigned_big_endian m ∈ (forward_cursor db).*1)
      by (rewrite Heq; by apply list_elem_of_fmap_2).
    apply list_elem_of_fmap in Hk as ([k v] & Hk & Hkv). apply cursor_mem in Hkv.
    simpl in Hk. subst k.
    destruct (proj1 (Hex m (Hns _ Hm))) as [??]; [eauto|].
    exists (N.to_nat m). rewrite elem_of_seq. lia.
  - intros (i & -> & Hi%elem_of_seq). assert (Hlt : (N.of_nat i < 2 ^ 64)%N) by lia.
    destruct (proj2 (Hex _ Hlt)) as [v Hv%cursor_mem]; [lia|].
    apply (list_elem_of_fmap_2 fst) in Hv. simpl in Hv.
    change (cursor_entries db data_dbi) with (forward_cursor db) in Hv. rewrite Heq in Hv.
    apply list_elem_of_fmap in Hv as (m & Hm & Hin). apply write_be_inj in Hm; [|done|auto].
    by rewrite Hm.
Qed.

(** What a commit wrote for a block is found under its height. *)
Lemma decided_entry db l qc b vid :
  heights_ok l → NoDup ((λ bv, get_height bv.1) <$> l) → (b, vid) ∈ l →
  let db' := commit (set_qc_on_top_block (add_decided_blocks (open_txn db) l) qc) db in
  rget db' data_dbi (write_unsigned_big_endian (get_height b)) =
    Some (get_hash b ++ vmid_serialize vid).
Proof.
  intros Hl Hn Hin. simpl. unfold commit. rewrite rget_commit, txn_get_set_qc by auto.
  by apply txn_get_add_blocks.
Qed.

Lemma get_hash_prefix {S} h bs (s : S) :
  length h = 32 → get_hash_from_lmdb_value (h ++ bs) s = Ok h s.
Proof.
  intros Hh. unfold get_hash_from_lmdb_value. rewrite length_app, (proj2 (Nat.ltb_ge _ _)) by lia.
  unfold ret. by rewrite take_app_length' by done.
Qed.

(** [get_decided_hash_id_pair] does not return the id that was stored: it
    prefixes the id's bytes with the block's hash. *)
Lemma decided_pair_id_has_hash {S} db l qc b vid (s : S) :
  heights_ok l → NoDup ((λ bv, get_height bv.1) <$> l) → (b, vid) ∈ l →
  length (get_hash b) = 32 →
  let db' := commit (set_qc_on_top_block (add_decided_blocks (open_txn db) l) qc) db in
  get_decided_hash_id_pair db' (get_height b) s =
    Ok (Some (get_hash b, VMBlockID_of (get_hash b ++ vmid_serialize vid))) s.
Proof.
  intros Hl Hn Hin Hlen db'. pose proof (decided_entry db l qc b vid Hl Hn Hin) as He.
  unfold get_decided_hash_id_pair. simpl in He. fold db' in He. rewrite He. unfold bind.
  by rewrite get_hash_prefix.
Qed.
End lmdb.
