(* ===== verification/Consensus.v ===== *)
(** * The HotStuff core

    hotstuff/consensus.h and consensus.cc: [HotstuffCore], its state variables
    and handlers.  The class is abstract; its pure virtual methods are the
    interface [CoreVirtuals], implemented by the application classes of
    hotstuff/hotstuff.h.  [proposal_mutex] makes [update_hqc] and the proposing
    methods atomic with respect to each other; each handler below is one atomic
    step. *)

From S2P Require Import Prelude Types ReplicaConfig Certs IoUtils Block BlockStore Lmdb.

Section core.
Context {i_sodium : Sodium} {i_xdr : Xdr} {i_bv : BitVector} {i_fs : Fs} {i_lmdb : LmdbLib}.

Record HotstuffCore := mkCore {
  core_genesis : loc;
  hqc : loc * QuorumCertificateWire;
  b_lock : loc;
  b_exec : loc;
  vheight : N;                       (* uint32_t *)
  self_id : ReplicaID;
  config : ReplicaConfig;
  b_leaf : loc;
  decided_hash_index : DB;
}.

Definition set_hqc (q : loc * QuorumCertificateWire) (c : HotstuffCore) : HotstuffCore :=
  mkCore (core_genesis c) q (b_lock c) (b_exec c) (vheight c) (self_id c) (config c)
    (b_leaf c) (decided_hash_index c).
Definition set_b_lock (p : loc) (c : HotstuffCore) : HotstuffCore :=
  mkCore (core_genesis c) (hqc c) p (b_exec c) (vheight c) (self_id c) (config c)
    (b_leaf c) (decided_hash_index c).
Definition set_b_exec (p : loc) (c : HotstuffCore) : HotstuffCore :=
  mkCore (core_genesis c) (hqc c) (b_lock c) p (vheight c) (self_id c) (config c)
    (b_leaf c) (decided_hash_index c).
(** The assignment of a [uint64_t] to the [uint32_t] field truncates. *)
Definition set_vheight (n : N) (c : HotstuffCore) : HotstuffCore :=
  mkCore (core_genesis c) (hqc c) (b_lock c) (b_exec c) (u32 n) (self_id c) (config c)
    (b_leaf c) (decided_hash_index c).
Definition set_b_leaf (p : loc) (c : HotstuffCore) : HotstuffCore :=
  mkCore (core_genesis c) (hqc c) (b_lock c) (b_exec c) (vheight c) (self_id c) (config c)
    p (decided_hash_index c).
Definition set_index (db : DB) (c : HotstuffCore) : HotstuffCore :=
  mkCore (core_genesis c) (hqc c) (b_lock c) (b_exec c) (vheight c) (self_id c) (config c)
    (b_leaf c) db.

(** [HotstuffCore::HotstuffCore], the genesis block already on the heap. *)
Definition HotstuffCore_init (g : loc) (cfg : ReplicaConfig) (self : ReplicaID) (db : DB)
  : HotstuffCore :=
  mkCore g (g, serialize (get_self_qc genesis_block)) g g 0 self cfg g db.

(** The pure virtual methods.  They see the heap but cannot change it; [E] is
    the state of the derived class. *)
Class CoreVirtuals (E : Type) := {
  do_vote : heap → loc → ReplicaID → M E unit;
  on_new_qc : Hash → M E unit;
  apply_block : heap → loc → TXN → M E TXN;
  notify_vm_of_commitment : heap → loc → M E unit;
  notify_vm_of_qc_on_nonself_block : heap → loc → M E unit;
  notify_ok_to_prune_blocks : N → M E unit;
  find_block_by_hash : Hash → M E loc;
}.
End core.

Section handlers.
Context {i_sodium : Sodium} {i_xdr : Xdr} {i_bv : BitVector} {i_fs : Fs} {i_lmdb : LmdbLib} {E : Type} {i_virt : CoreVirtuals E}.

(** The state a handler runs in: the shared heap, the disk, the core's own
    fields and the derived class. *)
Record CoreSt := mkSt {
  st_heap : heap;
  st_disk : Disk;
  st_core : HotstuffCore;
  st_env : E;
}.

Definition in_core (f : HotstuffCore → HotstuffCore) : M CoreSt unit :=
  modify (λ s, mkSt (st_heap s) (st_disk s) (f (st_core s)) (st_env s)).
Definition in_env {A} (m : heap → M E A) : M CoreSt A := λ s,
  zoom st_env (λ e s, mkSt (st_heap s) (st_disk s) (st_core s) e) (m (st_heap s)) s.
Definition set_block (p : loc) (b : HotstuffBlock) : M CoreSt unit :=
  modify (λ s, mkSt (<[p := b]> (st_heap s)) (st_disk s) (st_core s) (st_env s)).
Definition read (p : loc) : M CoreSt HotstuffBlock := λ s, deref (st_heap s) p s.
Definition read_ptr (p : option loc) : M CoreSt HotstuffBlock := λ s,
  deref_ptr (st_heap s) p s.
Definition core {A} (f : HotstuffCore → A) : M CoreSt A := gets (λ s, f (st_core s)).

(** [b -> write_to_disk(info)] on the shared heap and disk. *)
Definition write_block (info : ReplicaInfo) (p : loc) : M CoreSt unit :=
  b <- read p ;;
  zoom (λ s, (st_heap s, st_disk s))
       (λ hd s, mkSt hd.1 hd.2 (st_core s) (st_env s))
       (write_to_disk (S (N.to_nat (get_height b))) info p).

(** [update_hqc] *)
Definition update_hqc (qc_block : loc) (qc : QuorumCertificate) : M CoreSt unit :=
  b <- read qc_block ;;
  high <- core hqc ;;
  hb <- read (high.1) ;;
  if (get_height hb <? get_height b)%N then
    in_core (set_hqc (qc_block, serialize qc)) ;;
    in_core (set_b_leaf qc_block) ;;
    self <- core self_id ;;
    if negb (get_proposer b =? self)%N then
      in_env (λ h, notify_vm_of_qc_on_nonself_block h qc_block)
    else ret tt
  else ret tt.

(** [for (b = blk; b->get_height() > b_exec->get_height(); b = b->get_parent())
    commit_queue.push_back(b);] *)
Fixpoint collect_commits (fuel : nat) (b : option loc) (exec_height : N)
    (commit_queue : list loc) : M CoreSt (list loc * option loc) :=
  match fuel with
  | 0 => halt_with OutOfFuel
  | S fuel =>
    blk <- read_ptr b ;;
    if (exec_height <? get_height blk)%N then
      match b with
      | Some p => collect_commits fuel (get_parent blk) exec_height (commit_queue ++ [p])
      | None => halt_with NullDeref
      end
    else ret (commit_queue, b)
  end.

(** The body of the commit loop: [decide], [apply_block],
    [notify_vm_of_commitment]. *)
Fixpoint commit_blocks (queue : list loc) (tx : TXN) : M CoreSt TXN :=
  match queue with
  | [] => ret tx
  | p :: queue =>
    b <- read p ;;
    set_block p (decide_block b) ;;
    tx' <- in_env (λ h, apply_block h p tx) ;;
    in_env (λ h, notify_vm_of_commitment h p) ;;
    commit_blocks queue tx'
  end.

(** The part of [update] after "otherwise commit". *)
Definition commit_chain (blk : loc) (blk1 : HotstuffBlock) : M CoreSt unit :=
  exec <- core b_exec ;;
  be <- read exec ;;
  bb <- read blk ;;
  q <- collect_commits (S (N.to_nat (get_height bb))) (Some blk) (get_height be) [] ;;
  let '(commit_queue, b) := q in
  if negb (bool_decide (b = Some exec)) then throw (RuntimeError "safety breached")
  else
    db <- core decided_hash_index ;;
    tx <- commit_blocks (rev commit_queue) (open_txn db) ;;
    in_core (set_b_exec blk) ;;
    qc <- get_justify_qc blk1 ;;
    in_core (set_index (commit (set_qc_on_top_block tx qc) db)) ;;
    in_env (λ _, notify_ok_to_prune_blocks (get_height bb)).

(** [if (blk1->get_height() > b_lock->get_height()) b_lock = blk1;] *)
Definition raise_lock (p1 : loc) (blk1 : HotstuffBlock) : M CoreSt unit :=
  lock <- core b_lock ;;
  lb <- read lock ;;
  when (get_height lb <? get_height blk1)%N (in_core (set_b_lock p1)).

(** The part of [update] from the lock on: raise the lock to [blk1], write it
    to disk, commit [blk1]'s justified block if the chain is direct. *)
Definition lock_and_commit (blk2 : HotstuffBlock) (p1 : loc) (blk1 : HotstuffBlock)
  : M CoreSt unit :=
  raise_lock p1 blk1 ;;
  cfg <- core config ;;
  self <- core self_id ;;
  info <- get_info cfg self ;;
  lock <- core b_lock ;;
  write_block info lock ;;
  match get_justify blk1 with
  | None => ret tt
  | Some p0 =>
    blk <- read p0 ;;
    if has_been_decided blk then ret tt
    else if negb (bool_decide (get_parent blk2 = Some p1)) ||
            negb (bool_decide (get_parent blk1 = Some p0)) then ret tt
    else commit_chain p0 blk1
  end.

(** [update] *)
Definition update (nblk : loc) : M CoreSt unit :=
  nb <- read nblk ;;
  match get_justify nb with
  | None => ret tt
  | Some p2 =>
    blk2 <- read p2 ;;
    if has_been_decided blk2 then ret tt
    else
      qc <- get_justify_qc nb ;;
      update_hqc p2 qc ;;
      match get_justify blk2 with
      | None => ret tt
      | Some p1 =>
        blk1 <- read p1 ;;
        if has_been_decided blk1 then ret tt
        else lock_and_commit blk2 p1 blk1
      end
  end.

(** [on_receive_vote] *)
Definition on_receive_vote (partial_cert : PartialCertificateWire) (certified_block : loc)
    (voterid : ReplicaID) : M CoreSt unit :=
  b <- read certified_block ;;
  cfg <- core config ;;
  let had_quorum_before := has_quorum cfg (get_self_qc b) in
  match add_partial_certificate voterid partial_cert (get_self_qc b) with
  | Fault f _ => λ s, Fault f s
  | Ok _ qc =>
    set_block certified_block (with_self_qc b qc) ;;
    let has_quorum_after := has_quorum cfg qc in
    when (has_quorum_after && negb had_quorum_before)
      (update_hqc certified_block qc ;;
       in_env (λ _, on_new_qc (get_hash b)))
  end.

(** [for (b = bnew; b->get_height() > b_lock_height; b = b->get_parent());] *)
Fixpoint walk_down (fuel : nat) (b : option loc) (height : N) : M CoreSt (option loc) :=
  match fuel with
  | 0 => halt_with OutOfFuel
  | S fuel =>
    blk <- read_ptr b ;;
    if (height <? get_height blk)%N then walk_down fuel (get_parent blk) height
    else ret b
  end.

(** The vote decision of [on_receive_proposal]. *)
Definition opinion (bnew : loc) : M CoreSt bool :=
  nb <- read bnew ;;
  vh <- core vheight ;;
  if (vh <? get_height nb)%N then
    jb <- read_ptr (get_justify nb) ;;
    lock <- core b_lock ;;
    lb <- read lock ;;
    if (get_height lb <? get_height jb)%N then ret true
    else
      b <- walk_down (S (N.to_nat (get_height nb))) (Some bnew) (get_height lb) ;;
      ret (bool_decide (b = Some lock))
  else ret false.

(** [on_receive_proposal] *)
Definition on_receive_proposal (bnew : loc) (proposer : ReplicaID) : M CoreSt unit :=
  op <- opinion bnew ;;
  when op
    (nb <- read bnew ;;
     in_core (set_vheight (get_height nb)) ;;
     in_env (λ h, do_vote h bnew proposer)) ;;
  update bnew.

(** [reload_state_from_index] *)
Definition reload_state_from_index : M CoreSt unit :=
  db <- core decided_hash_index ;;
  highest_qc <- get_highest_qc db ;;
  p <- in_env (λ _, find_block_by_hash (obj_hash highest_qc)) ;;
  update_hqc p highest_qc ;;
  b <- read p ;;
  in_core (set_vheight (get_height b)) ;;
  in_core (set_b_exec p) ;;
  in_core (set_b_lock p).

(** [get_last_proposer] *)
Definition get_last_proposer : M CoreSt ReplicaID :=
  high <- core hqc ;;
  b <- read (high.1) ;;
  ret (get_proposer b).
End handlers.

Arguments CoreSt {_} _.
