(* ===== verification/Events.v ===== *)
(** * Events and event queues

    hotstuff/event.{h,cc}, network_event.{h,cc} and generic_event_queue.h: the
    events of the state machine and of the network, what is checked before they
    enter a queue, and the queue worker's loop. *)

From S2P Require Import Prelude Types ReplicaConfig Certs IoUtils Block.

(** ** State machine events *)

Record VoteEvent := mkVoteEvent {
  ve_rid : ReplicaID;
  ve_cert : PartialCertificateWire;
  ve_block : loc;
}.

Record ProposalEvent := mkProposalEvent {
  pe_rid : ReplicaID;
  pe_block : loc;
}.

Inductive Event :=
  | EVote (v : VoteEvent)
  | EProposal (p : ProposalEvent).

(** [VoteEvent::validate] *)
Definition VoteEvent_validate {S} (h : heap) (v : VoteEvent) : M S bool :=
  b <- deref h (ve_block v) ;;
  if negb (bool_decide (get_hash b = pc_hash (ve_cert v))) then
    throw (RuntimeError "built a VoteEvent where blk->get_hash() != cert.hash")
  else ret true.

(** [ProposalEvent::validate] *)
Definition ProposalEvent_validate {S} (h : heap) (p : ProposalEvent) : M S bool :=
  b <- deref h (pe_block p) ;;
  ret (negb (get_height b =? 0)%N).

(** [Event::validate] *)
Definition Event_validate {S} (h : heap) (e : Event) : M S bool :=
  match e with
  | EVote v => VoteEvent_validate h v
  | EProposal p => ProposalEvent_validate h p
  end.

(** ** Network events *)

Record VoteNetEvent := mkVoteNet {
  vn_cert : PartialCertificateWire;
  vn_voter : ReplicaID;
}.

Record ProposalNetEvent := mkProposalNet {
  pn_block : loc;
  pn_proposer : ReplicaID;
}.

Record BlockReceiveNetEvent := mkReceiveNet {
  rn_block : loc;
  rn_sender : ReplicaID;
}.

Inductive NetEvent :=
  | NVote (v : VoteNetEvent)
  | NProposal (p : ProposalNetEvent)
  | NReceive (b : BlockReceiveNetEvent).

(** [VoteNetEvent(std::unique_ptr<VoteMessage>)] *)
Definition VoteNetEvent_of (v : VoteMessage) : VoteNetEvent :=
  mkVoteNet (vm_vote v) (vm_voter v).

(** [VoteNetEvent::to_hotstuff_event], [ProposalNetEvent::to_hotstuff_event] *)
Definition vote_to_event (v : VoteNetEvent) (voted_block : loc) : Event :=
  EVote (mkVoteEvent (vn_voter v) (vn_cert v) voted_block).
Definition proposal_to_event (p : ProposalNetEvent) : Event :=
  EProposal (mkProposalEvent (pn_proposer p) (pn_block p)).

Section net_events.
Context {i_sodium : Sodium} {i_xdr : Xdr} {i_bv : BitVector}.

(** [VoteNetEvent::validate] *)
Definition VoteNetEvent_validate {S} (c : ReplicaConfig) (v : VoteNetEvent) : M S bool :=
  info <- get_info c (vn_voter v) ;;
  ret (PC_validate (vn_cert v) info).

(** [validate_hotstuff] on a block of the heap: the block caches its answer. *)
Definition validate_block (c : ReplicaConfig) (p : loc) : M heap bool := λ h,
  match h !! p with
  | None => Halt NullDeref h
  | Some b =>
    match validate_hotstuff c b with
    | Ok ok b' => Ok ok (<[p := b']> h)
    | Fault f b' => Fault f (<[p := b']> h)
    end
  end.

(** [NetEvent::validate] *)
Definition NetEvent_validate (c : ReplicaConfig) (e : NetEvent) : M heap bool :=
  match e with
  | NVote v => VoteNetEvent_validate c v
  | NProposal p => validate_block c (pn_block p)
  | NReceive b => validate_block c (rn_block b)
  end.
End net_events.

(** ** The worker of [GenericEventQueue]

    [take_all] is the critical section of [run]; [run_events] the loop over the
    batch it took, during which handlers may append to the queue. *)

Section queue.
Context {S EventT : Type}.
Context (events : S → list EventT) (set_events : list EventT → S → S).
Context (on_event : EventT → M S unit).

Definition add_event (e : EventT) : M S unit :=
  modify (λ s, set_events (events s ++ [e]) s).
Definition add_events (es : list EventT) : M S unit :=
  modify (λ s, set_events (events s ++ es) s).

Definition take_all : M S (list EventT) := λ s, Ok (events s) (set_events [] s).

Definition run_events (es : list EventT) : M S unit := for_each es on_event.

(** One iteration of [run]. *)
Definition run_batch : M S unit := es <- take_all ;; run_events es.

(** Handling only the event at the head of the queue. *)
Definition run_head : M S unit := λ s,
  match events s with
  | [] => Ok tt s
  | e :: es => on_event e (set_events es s)
  end.

Fixpoint run_heads (n : nat) : M S unit :=
  match n with
  | 0 => ret tt
  | Datatypes.S n => run_head ;; run_heads n
  end.

Hypothesis events_set : ∀ l s, events (set_events l s) = l.
Hypothesis set_set : ∀ l l' s, set_events l (set_events l' s) = set_events l s.
Hypothesis set_events_id : ∀ s, set_events (events s) s = s.

(** A handler only appends to the queue, whatever the queue holds. *)
Definition appends : Prop := ∀ e s pre,
  match on_event e s with
  | Ok _ s' => on_event e (set_events (pre ++ events s) s) =
                 Ok tt (set_events (pre ++ events s') s')
  | Fault f s' => on_event e (set_events (pre ++ events s) s) =
                    Fault f (set_events (pre ++ events s') s')
  end.

(** How the two ways of handling the events [todo] compare: they return in one
    state; or both fault at the same event, one at a time with the events behind
    it still at the head of the queue, where the batch has dropped them. *)
Definition same_outcome (todo : list EventT) (batch heads : Res S unit) : Prop :=
  match batch, heads with
  | Ok _ s1, Ok _ s2 => s2 = s1
  | Fault f1 s1, Fault f2 s2 => f2 = f1 ∧
      ∃ handled e rest, todo = handled ++ e :: rest ∧ s2 = set_events (rest ++ events s1) s1
  | _, _ => False
  end.

Lemma run_events_heads : appends → ∀ es s,
  same_outcome es (run_events es s) (run_heads (length es) (set_events (es ++ events s) s)).
Proof using events_set set_set set_events_id.
  intros Happ es. induction es as [|e es IH]; intros s; simpl; [apply set_events_id|].
  change (run_events (e :: es) s) with (bind (on_event e) (λ _, run_events es) s).
  unfold bind, run_head. rewrite events_set. simpl. rewrite !set_set.
  pose proof (Happ e s es) as He. destruct (on_event e s) as [[] s1|f1 s1]; rewrite He.
  - specialize (IH s1). unfold same_outcome in *.
    destruct (run_events es s1), (run_heads _ _); try done.
    destruct IH as [-> (l & x & rest & -> & ->)]. split; [done|]. by exists (e :: l), x, rest.
  - split; [done|]. by exists [], e, es.
Qed.

(** Batches do not change the order of events: an iteration of the worker is
    the same as handling the events one by one from the head of the queue. *)
Lemma run_batch_heads s :
  appends → same_outcome (events s) (run_batch s) (run_heads (length (events s)) s).
Proof using events_set set_set set_events_id.
  intros Happ. pose proof (run_events_heads Happ (events s) (set_events [] s)) as H.
  by rewrite events_set, set_set, app_nil_r, set_events_id in H.
Qed.
End queue.
