(* ===== verification/FetchManager.v ===== *)
(** * Fetching missing blocks

    hotstuff/block_storage/block_fetch_manager.{h,cc}, the request set of
    block_fetch_worker.{h,cc} and [BlockFetchHandler::fetch] of
    block_fetch_server.cc.  Request contexts are shared between the manager and
    the per-replica queues, so they live in a store of their own. *)

From S2P Require Import Prelude Types ReplicaConfig Certs IoUtils Block BlockStore Events.

Abbreviation ctx_ptr := positive.

Record RequestContext := mkCtx {
  request : Hash;
  block_is_received : bool;
  dependent_network_events : list NetEvent;
  requested_from : N;                  (* ReplicaIDBitMap *)
}.

(** [RequestContext(Hash const&)] *)
Definition RequestContext_new (h : Hash) : RequestContext := mkCtx h false [] 0.

Definition add_network_events (es : list NetEvent) (c : RequestContext) : RequestContext :=
  mkCtx (request c) (block_is_received c) (dependent_network_events c ++ es) (requested_from c).

Definition mark_received (c : RequestContext) : RequestContext :=
  mkCtx (request c) true (dependent_network_events c) (requested_from c).

(** [(requested_from >> rid) & 1] *)
Definition was_requested_from (c : RequestContext) (rid : ReplicaID) : bool :=
  negb (N.land (N.shiftr (requested_from c) rid) 1 =? 0)%N.

(** [ReplicaFetchQueue], with the [reqs] of its [BlockFetchWorker]. *)
Record ReplicaFetchQueue := mkFetchQueue {
  fq_outstanding : list ctx_ptr;
  fq_reqs : gset Hash;
}.

Definition GC_FREQ : nat := 10.

Record BlockFetchManager := mkFetch {
  queues : gmap ReplicaID ReplicaFetchQueue;
  outstanding_reqs : gmap Hash ctx_ptr;
  ctxs : gmap ctx_ptr RequestContext;
}.

Definition set_queue (rid : ReplicaID) (q : ReplicaFetchQueue) (m : BlockFetchManager)
  : BlockFetchManager := mkFetch (<[rid := q]> (queues m)) (outstanding_reqs m) (ctxs m).
Definition set_ctx (p : ctx_ptr) (c : RequestContext) (m : BlockFetchManager)
  : BlockFetchManager := mkFetch (queues m) (outstanding_reqs m) (<[p := c]> (ctxs m)).

(** [init_configs]: one queue per configured replica. *)
Definition init_configs (c : ReplicaConfig) : BlockFetchManager :=
  mkFetch ((λ _, mkFetchQueue [] ∅) <$> replica_map c) ∅ ∅.

(** [ReplicaFetchQueue::do_gc]: drop the requests that were answered. *)
Definition queue_gc (cs : gmap ctx_ptr RequestContext) (l : list ctx_ptr) : list ctx_ptr :=
  (swap_remove (λ p, match cs !! p with Some c => block_is_received c | None => false end)
     (length l) 0 l).1.

(** [ReplicaFetchQueue::add_request] with [BlockFetchWorker::add_request]. *)
Definition queue_add_request (cs : gmap ctx_ptr RequestContext) (p : ctx_ptr) (h : Hash)
    (q : ReplicaFetchQueue) : ReplicaFetchQueue :=
  let l := fq_outstanding q ++ [p] in
  mkFetchQueue (if (GC_FREQ <? length l) then queue_gc cs l else l) ({[h]} ∪ fq_reqs q).

(** The lookup or creation of the context in [add_fetch_request]. *)
Definition find_ctx (h : Hash) : M BlockFetchManager ctx_ptr := λ m,
  match outstanding_reqs m !! h with
  | Some p => Ok p m
  | None =>
    let p := fresh (dom (ctxs m)) in
    Ok p (mkFetch (queues m) (<[h := p]> (outstanding_reqs m))
            (<[p := RequestContext_new h]> (ctxs m)))
  end.

Definition get_ctx (p : ctx_ptr) : M BlockFetchManager RequestContext := λ m,
  match ctxs m !! p with
  | Some c => Ok c m
  | None => Halt NullDeref m
  end.

(** [add_fetch_request] *)
Definition add_fetch_request (cfg : ReplicaConfig) (requested_block : Hash)
    (request_target : ReplicaID) (dependent_events : list NetEvent)
  : M BlockFetchManager unit :=
  if negb (is_valid_replica cfg request_target) then ret tt
  else
    p <- find_ctx requested_block ;;
    ctx <- get_ctx p ;;
    when (negb (was_requested_from ctx request_target))
      (m <- gets (λ m, m) ;;
       match queues m !! request_target with
       | None => throw OutOfRange
       | Some q =>
         modify (set_queue request_target (queue_add_request (ctxs m) p (request ctx) q))
       end) ;;
    ctx <- get_ctx p ;;
    modify (set_ctx p (add_network_events dependent_events ctx)).

(** [deliver_block] of a block with hash [h]. *)
Definition deliver_block (h : Hash) : M BlockFetchManager (list NetEvent) := λ m,
  match outstanding_reqs m !! h with
  | None => Ok [] m
  | Some p =>
    match ctxs m !! p with
    | None => Halt NullDeref m
    | Some c =>
      Ok (dependent_network_events c)
        (mkFetch (queues m) (delete h (outstanding_reqs m))
           (<[p := mark_received c]> (ctxs m)))
    end
  end.

(** ** The worker's request set *)

(** [extract_reqs]: take the whole set, in order (any fixed order of a
    [std::set] of hashes). *)
Definition extract_reqs (q : ReplicaFetchQueue) : list Hash * ReplicaFetchQueue :=
  (elements (fq_reqs q), mkFetchQueue (fq_outstanding q) ∅).

(** [readd_request] after a failed call. *)
Definition readd_request (hs : list Hash) (q : ReplicaFetchQueue) : ReplicaFetchQueue :=
  mkFetchQueue (fq_outstanding q) (list_to_set hs ∪ fq_reqs q).

(** ** The serving side: [BlockFetchHandler::fetch] *)

Fixpoint fetch (h : heap) (st : BlockStore) (reqs : list Hash) : list HotstuffBlockWire :=
  match reqs with
  | [] => []
  | r :: reqs =>
    match get_block st r with
    | Some p =>
      match h !! p with
      | Some b => if is_flushed_from_memory b then fetch h st reqs
                  else wire_block b :: fetch h st reqs
      | None => fetch h st reqs
      end
    | None => fetch h st reqs
    end
  end.

(** ** Correctness

    What the manager promises: the events waiting for a hash, as a map. *)

Definition pending (m : BlockFetchManager) (h : Hash) : list NetEvent :=
  match outstanding_reqs m !! h with
  | Some p => match ctxs m !! p with Some c => dependent_network_events c | None => [] end
  | None => []
  end.

Record fetch_wf (cfg : ReplicaConfig) (m : BlockFetchManager) : Prop := {
  fw_queues : ∀ rid, rid ∈ replicas cfg → is_Some (queues m !! rid);
  fw_ctx : ∀ h p, outstanding_reqs m !! h = Some p →
    ∃ c, ctxs m !! p = Some c ∧ request c = h ∧ block_is_received c = false;
  fw_from : ∀ p c, ctxs m !! p = Some c → requested_from c = 0%N;
}.

Lemma init_configs_wf cfg : fetch_wf cfg (init_configs cfg).
Proof.
  split; simpl; [|by intros; simplify_map_eq..].
  intros rid Hr. unfold replicas in Hr. apply elem_of_dom in Hr as [info Hi]. rewrite lookup_fmap, Hi. eauto.
Qed.

(** The context of a hash after the lookup: its events are the pending ones. *)
Lemma find_ctx_spec cfg h m :
  fetch_wf cfg m →
  ∃ p c m', find_ctx h m = Ok p m' ∧ fetch_wf cfg m' ∧
    outstanding_reqs m' !! h = Some p ∧ ctxs m' !! p = Some c ∧ request c = h ∧
    queues m' = queues m ∧ (∀ h', pending m' h' = pending m h').
Proof.
  intros [Hq Hc Hf]. unfold find_ctx. destruct (outstanding_reqs m !! h) as [p|] eqn:Hh.
  - destruct (Hc _ _ Hh) as (c & Hp & Hr & _). exists p, c, m. done.
  - set (p := fresh (dom (ctxs m))).
    assert (Hnew : ctxs m !! p = None) by (apply not_elem_of_dom, is_fresh).
    assert (Hne : ∀ h' p', outstanding_reqs m !! h' = Some p' → p' ≠ p).
    { intros h' p' Hp' ->. destruct (Hc _ _ Hp') as (c & Hcp & _). congruence. }
    eexists p, (RequestContext_new h), _. split; [done|]. split; [split; simpl; try done|].
    + intros h' p' [[<- <-]|[_ Hp']]%lookup_insert_Some.
      { exists (RequestContext_new h). by rewrite lookup_insert_eq. }
      rewrite lookup_insert_ne by (intros ->; by eapply Hne). auto.
    + intros p' c' [[<- <-]|[_ Hp']]%lookup_insert_Some; [done|eauto].
    + simpl. rewrite !lookup_insert_eq. split_and!; try done.
      intros h'. unfold pending. simpl. destruct (decide (h = h')) as [<-|Hh'].
      * by rewrite !lookup_insert_eq, Hh.
      * rewrite lookup_insert_ne by done.
        destruct (outstanding_reqs m !! h') as [p'|] eqn:Hp'; [|done].
        rewrite lookup_insert_ne by (intros ->; by eapply Hne). done.
Qed.

(** No request records whom it was sent to: [was_requested_from] is constant. *)
Lemma was_requested_from_false cfg m p c rid :
  fetch_wf cfg m → ctxs m !! p = Some c → was_requested_from c rid = false.
Proof.
  intros Hwf Hc. unfold was_requested_from. rewrite (fw_from _ _ Hwf _ _ Hc).
  by rewrite N.shiftr_0_l.
Qed.

Lemma set_ctx_pending cfg m h p c es :
  fetch_wf cfg m → outstanding_reqs m !! h = Some p → ctxs m !! p = Some c →
  let m' := set_ctx p (add_network_events es c) m in
  fetch_wf cfg m' ∧ pending m' h = pending m h ++ es ∧
  ∀ h', h' ≠ h → pending m' h' = pending m h'.
Proof.
  intros [Hq Hc Hf] Hh Hp. simpl. split; [split; simpl; try done|split].
  - intros h' p' Hp'. destruct (Hc _ _ Hp') as (c' & Hc' & Hr & Hrec).
    destruct (decide (p = p')) as [<-|Hne].
    + simplify_eq. exists (add_network_events es c). by rewrite lookup_insert_eq.
    + exists c'. by rewrite lookup_insert_ne.
  - intros p' c' [[<- <-]|[_ Hp']]%lookup_insert_Some; [exact (Hf _ _ Hp)|eauto].
  - unfold pending. simpl. by rewrite Hh, lookup_insert_eq, Hp.
  - intros h' Hne. unfold pending. simpl.
    destruct (outstanding_reqs m !! h') as [p'|] eqn:Hp'; [|done].
    rewrite lookup_insert_ne; [done|]. intros ->.
    destruct (Hc _ _ Hp') as (c1 & Hc1 & Hr1 & _), (Hc _ _ Hh) as (c2 & Hc2 & Hr2 & _).
    simplify_eq.
Qed.

(** [add_fetch_request] to a configured replica queues the events behind those
    already waiting for the hash, and asks the replica's worker. *)
Lemma add_fetch_request_spec cfg h rid es m :
  fetch_wf cfg m → rid ∈ replicas cfg →
  ∃ m', add_fetch_request cfg h rid es m = Ok tt m' ∧ fetch_wf cfg m' ∧
    pending m' h = pending m h ++ es ∧ (∀ h', h' ≠ h → pending m' h' = pending m h') ∧
    is_Some (outstanding_reqs m' !! h) ∧
    ∃ q, queues m' !! rid = Some q ∧ h ∈ fq_reqs q.
Proof.
  intros Hwf Hr. unfold add_fetch_request.
  assert (Hv : is_valid_replica cfg rid = true)
    by (apply bool_decide_eq_true; unfold replicas in Hr; by apply elem_of_dom in Hr).
  rewrite Hv. simpl.
  destruct (find_ctx_spec cfg h m Hwf) as (p & c & m1 & Hf & Hwf1 & Ho & Hc & Hrq & Hq & Hp).
  rewrite (bind_run _ _ _ _ _ Hf). unfold get_ctx, bind. rewrite Hc.
  rewrite (was_requested_from_false _ _ _ _ rid Hwf1 Hc). simpl.
  destruct (fw_queues _ _ Hwf1 _ Hr) as [q Hqr]. unfold gets. rewrite Hqr. simpl. rewrite Hc.
  set (q' := queue_add_request _ _ _ _). set (m2 := set_queue rid q' m1).
  assert (Hwf2 : fetch_wf cfg m2).
  { destruct Hwf1 as [H1 H2 H3]. split; simpl; try done. intros rid' Hr'.
    destruct (decide (rid = rid')) as [<-|]; [by rewrite lookup_insert_eq|].
    rewrite lookup_insert_ne by done. auto. }
  destruct (set_ctx_pending cfg m2 h p c es Hwf2 Ho Hc) as (Hwf3 & Hp3 & Hp3').
  eexists. split; [done|]. split; [done|].
  split; [by rewrite Hp3; unfold m2; rewrite <- (Hp h)|].
  split; [by intros h' Hne; rewrite Hp3' by done; rewrite <- (Hp h')|].
  split; [by exists p|]. exists q'. simpl. rewrite lookup_insert_eq. split; [done|].
  unfold q', queue_add_request. simpl. rewrite Hrq. set_solver.
Qed.

(** A request to an unknown replica drops the events. *)
Lemma add_fetch_request_invalid cfg h rid es m :
  rid ∉ replicas cfg → add_fetch_request cfg h rid es m = Ok tt m.
Proof.
  intros Hr. unfold add_fetch_request, is_valid_replica, replicas in *.
  rewrite bool_decide_eq_false_2; [done|]. by rewrite <- elem_of_dom.
Qed.

(** [deliver_block] hands out exactly the pending events, once. *)
Lemma deliver_block_spec cfg h m :
  fetch_wf cfg m →
  ∃ m', deliver_block h m = Ok (pending m h) m' ∧ fetch_wf cfg m' ∧
    pending m' h = [] ∧ (∀ h', h' ≠ h → pending m' h' = pending m h') ∧
    outstanding_reqs m' !! h = None.
Proof.
  intros [Hq Hc Hf]. unfold deliver_block, pending.
  destruct (outstanding_reqs m !! h) as [p|] eqn:Hh; [|by exists m; rewrite Hh].
  destruct (Hc _ _ Hh) as (c & Hp & Hr & Hrec). rewrite Hp.
  eexists. split; [done|]. simpl. rewrite lookup_delete_eq. split; [split; simpl; try done|].
  - intros h' p' [Hne Hp']%lookup_delete_Some.
    destruct (Hc _ _ Hp') as (c' & Hc' & Hr' & Hrec').
    exists c'. rewrite lookup_insert_ne; [done|]. intros ->. simplify_eq.
  - intros p' c' [[<- <-]|[_ Hp']]%lookup_insert_Some; [exact (Hf _ _ Hp)|eauto].
  - split; [done|]. split; [|done]. intros h' Hne. rewrite lookup_delete_ne by done.
    destruct (outstanding_reqs m !! h') as [p'|] eqn:Hp'; [|done].
    destruct (Hc _ _ Hp') as (c' & Hc' & Hr' & _).
    rewrite lookup_insert_ne; [done|]. intros ->. simplify_eq.
Qed.

(** A failed fetch loses no request. *)
Lemma readd_extract q : let '(hs, q') := extract_reqs q in readd_request hs q' = q.
Proof.
  destruct q as [l reqs]. unfold extract_reqs, readd_request. simpl. f_equal.
  apply set_eq. intros h. set_solver.
Qed.

(** The server answers only with unflushed blocks that are in its store. *)
Lemma fetch_sound h st reqs w :
  w ∈ fetch h st reqs ↔ ∃ r p b, r ∈ reqs ∧ block_cache st !! r = Some p ∧
    h !! p = Some b ∧ flushed_from_memory b = false ∧ w = wire_block b.
Proof.
  induction reqs as [|r reqs IH]; simpl.
  { split; [set_solver|]. intros (? & ? & ? & []%not_elem_of_nil & _). }
  assert (Hskip : (∀ p b, block_cache st !! r = Some p → h !! p = Some b →
                     flushed_from_memory b = true) →
    (∃ r' p b, r' ∈ reqs ∧ block_cache st !! r' = Some p ∧ h !! p = Some b ∧
       flushed_from_memory b = false ∧ w = wire_block b) ↔
    (∃ r' p b, r' ∈ r :: reqs ∧ block_cache st !! r' = Some p ∧ h !! p = Some b ∧
       flushed_from_memory b = false ∧ w = wire_block b)).
  { intros Hs. split; intros (r' & p & b & Hin & Hc & Hb & Hf & ->); exists r', p, b.
    - split; [by right|done].
    - apply elem_of_cons in Hin as [->|Hin]; [|done].
      pose proof (Hs p b Hc Hb). congruence. }
  unfold get_block. destruct (block_cache st !! r) as [p|] eqn:Hr;
    [|rewrite IH; by apply Hskip].
  destruct (h !! p) as [b|] eqn:Hb; [|rewrite IH; apply Hskip; congruence].
  unfold is_flushed_from_memory. destruct (flushed_from_memory b) eqn:Hf;
    [rewrite IH; apply Hskip; congruence|].
  rewrite elem_of_cons, IH. split.
  - intros [->|(r' & p' & b' & ? & ?)]; [exists r, p, b; split; [by left|done]|].
    exists r', p', b'. split; [by right|done].
  - intros (r' & p' & b' & [->|Hin]%elem_of_cons & Hc & Hb' & Hf' & ->); [left; congruence|].
    right. by exists r', p', b'.
Qed.

(** ** The manager implements a map from hashes to waiting events *)

Inductive fetch_op :=
  | FAdd (h : Hash) (rid : ReplicaID) (es : list NetEvent)
  | FDeliver (h : Hash).

(** The contract: a request adds events to those waiting for a hash, a delivery
    hands them all over. *)
Definition spec_fetch (cfg : ReplicaConfig) (o : fetch_op) (w : Hash → list NetEvent)
  : list NetEvent * (Hash → list NetEvent) :=
  match o with
  | FAdd h rid es =>
    ([], λ h', if is_valid_replica cfg rid && bool_decide (h' = h) then w h' ++ es else w h')
  | FDeliver h => (w h, λ h', if bool_decide (h' = h) then [] else w h')
  end.

Definition run_fetch (cfg : ReplicaConfig) (o : fetch_op) : M BlockFetchManager (list NetEvent) :=
  match o with
  | FAdd h rid es => add_fetch_request cfg h rid es ;; ret []
  | FDeliver h => deliver_block h
  end.

Fixpoint spec_fetches (cfg : ReplicaConfig) (os : list fetch_op) (w : Hash → list NetEvent)
  : list (list NetEvent) :=
  match os with
  | [] => []
  | o :: os => (spec_fetch cfg o w).1 :: spec_fetches cfg os (spec_fetch cfg o w).2
  end.

Fixpoint run_fetches (cfg : ReplicaConfig) (os : list fetch_op)
  : M BlockFetchManager (list (list NetEvent)) :=
  match os with
  | [] => ret []
  | o :: os => out <- run_fetch cfg o ;; outs <- run_fetches cfg os ;; ret (out :: outs)
  end.

Lemma run_fetch_spec cfg o m w :
  fetch_wf cfg m → (∀ h, pending m h = w h) →
  ∃ m', run_fetch cfg o m = Ok (spec_fetch cfg o w).1 m' ∧ fetch_wf cfg m' ∧
    ∀ h, pending m' h = (spec_fetch cfg o w).2 h.
Proof.
  intros Hwf Hw. destruct o as [h rid es|h]; simpl.
  - unfold bind, is_valid_replica. destruct (decide (rid ∈ replicas cfg)) as [Hr|Hr].
    + destruct (add_fetch_request_spec cfg h rid es m Hwf Hr) as (m' & -> & Hwf' & Hh & Hne & _).
      exists m'. split; [done|]. split; [done|]. intros h'.
      rewrite bool_decide_eq_true_2 by by apply elem_of_replicas. simpl.
      case_bool_decide as Heq; [subst; by rewrite Hh, Hw|by rewrite Hne, Hw].
    + rewrite add_fetch_request_invalid by done. exists m. split; [done|]. split; [done|].
      intros h'. rewrite bool_decide_eq_false_2 by by rewrite <- elem_of_replicas. apply Hw.
  - destruct (deliver_block_spec cfg h m Hwf) as (m' & -> & Hwf' & Hh & Hne & _).
    exists m'. rewrite Hw. split; [done|]. split; [done|]. intros h'.
    case_bool_decide as Heq; [by subst|by rewrite Hne, Hw].
Qed.

Lemma run_fetches_spec cfg os m w :
  fetch_wf cfg m → (∀ h, pending m h = w h) →
  ∃ m', run_fetches cfg os m = Ok (spec_fetches cfg os w) m'.
Proof.
  revert m w. induction os as [|o os IH]; intros m w Hwf Hw; simpl; [by eexists|].
  destruct (run_fetch_spec cfg o m w Hwf Hw) as (m1 & H1 & Hwf1 & Hw1).
  destruct (IH m1 _ Hwf1 Hw1) as (m2 & H2). unfold bind. rewrite H1, H2. by eexists.
Qed.

Lemma run_fetches_wf cfg os m outs m' :
  fetch_wf cfg m → run_fetches cfg os m = Ok outs m' → fetch_wf cfg m'.
Proof.
  revert m outs. induction os as [|o os IH]; intros m outs Hwf Hrun; simpl in Hrun.
  { unfold ret in Hrun. by simplify_eq. }
  destruct (run_fetch_spec cfg o m (pending m) Hwf (λ _, eq_refl)) as (m1 & H1 & Hwf1 & _).
  unfold bind in Hrun. rewrite H1 in Hrun.
  destruct (run_fetches cfg os m1) as [outs1 m2|] eqn:H2; [|done].
  unfold ret in Hrun. simplify_eq. by eapply IH.
Qed.
