(* ===== verification/App.v ===== *)
(** * The replica

    hotstuff/hotstuff.{h,cc} ([HotstuffAppBase]), event_queue.cc,
    network_event_queue.cc, protocol/hotstuff_protocol_manager.cc, the client
    queues of protocol/hotstuff_protocol_client.{h,cc}, the handlers of
    protocol/hotstuff_server.cc and the response loop of block_fetch_worker.cc:
    everything around the core in one replica process.

    The vm bridges of the two derived classes ([HotstuffApp] and
    [NonspeculativeHotstuffApp]) are behind the interface [VMBridge].  The
    process is several threads; each operation below is what one of them does
    between two points where it may be interrupted, as an atomic step on the
    replica's state. *)

From S2P Require Import Prelude Types ReplicaConfig Certs IoUtils Block BlockStore Lmdb.
From S2P Require Import Consensus Events FetchManager.

(** ** Outgoing messages *)

(** [HotstuffProtocolClient::msg_t] *)
Inductive msg_t :=
  | MVote (v : VoteMessage)
  | MPropose (p : ProposeMessage).

(** [HotstuffProtocolManager]: the own id and the [work] of every client. *)
Record HotstuffProtocolManager := mkPM {
  pm_self_id : ReplicaID;
  other_clients : gmap ReplicaID (list msg_t);
}.

Definition HotstuffProtocolManager_init (c : ReplicaConfig) (self : ReplicaID)
  : HotstuffProtocolManager :=
  mkPM self ((λ _, []) <$> delete self (replica_map c)).

(** The constant of [notify_ok_to_prune_blocks]. *)
Definition keep_depth : N := 100.

Section bridge.
Context {i_lmdb : LmdbLib}.

(** What [HotstuffAppBase] asks of its derived class. *)
Class VMBridge (V : Type) := {
  get_next_vm_block : bool → N → M V bytes;
  bridge_apply_block : heap → loc → TXN → M V TXN;
  bridge_notify_vm_of_commitment : heap → loc → M V unit;
}.
End bridge.

Section app.
Context {i_sodium : Sodium} {i_xdr : Xdr} {i_bv : BitVector} {i_fs : Fs} {i_lmdb : LmdbLib}.
Context {V : Type} {i_bridge : VMBridge V}.

(** The fields of [HotstuffAppBase].  [a_signed] is a history variable: the
    hashes signed so far, newest first; no operation reads it. *)
Record AppBase := mkApp {
  a_store : BlockStore;
  a_fetch : BlockFetchManager;
  a_events : list Event;
  a_net_events : list NetEvent;
  a_protocol : HotstuffProtocolManager;
  a_secret_key : SecretKey;
  latest_new_qc : option Hash;
  cancel_wait : bool;
  a_vm : V;
  a_signed : list Hash;
}.

Definition set_store (x : BlockStore) (a : AppBase) : AppBase :=
  mkApp x (a_fetch a) (a_events a) (a_net_events a) (a_protocol a) (a_secret_key a)
    (latest_new_qc a) (cancel_wait a) (a_vm a) (a_signed a).
Definition set_fetch (x : BlockFetchManager) (a : AppBase) : AppBase :=
  mkApp (a_store a) x (a_events a) (a_net_events a) (a_protocol a) (a_secret_key a)
    (latest_new_qc a) (cancel_wait a) (a_vm a) (a_signed a).
Definition set_events (x : list Event) (a : AppBase) : AppBase :=
  mkApp (a_store a) (a_fetch a) x (a_net_events a) (a_protocol a) (a_secret_key a)
    (latest_new_qc a) (cancel_wait a) (a_vm a) (a_signed a).
Definition set_net_events (x : list NetEvent) (a : AppBase) : AppBase :=
  mkApp (a_store a) (a_fetch a) (a_events a) x (a_protocol a) (a_secret_key a)
    (latest_new_qc a) (cancel_wait a) (a_vm a) (a_signed a).
Definition set_clients (x : gmap ReplicaID (list msg_t)) (a : AppBase) : AppBase :=
  mkApp (a_store a) (a_fetch a) (a_events a) (a_net_events a)
    (mkPM (pm_self_id (a_protocol a)) x) (a_secret_key a)
    (latest_new_qc a) (cancel_wait a) (a_vm a) (a_signed a).
Definition set_wait (q : option Hash) (c : bool) (a : AppBase) : AppBase :=
  mkApp (a_store a) (a_fetch a) (a_events a) (a_net_events a) (a_protocol a)
    (a_secret_key a) q c (a_vm a) (a_signed a).
Definition set_vm (x : V) (a : AppBase) : AppBase :=
  mkApp (a_store a) (a_fetch a) (a_events a) (a_net_events a) (a_protocol a)
    (a_secret_key a) (latest_new_qc a) (cancel_wait a) x (a_signed a).
Definition add_signed (h : Hash) (a : AppBase) : AppBase :=
  mkApp (a_store a) (a_fetch a) (a_events a) (a_net_events a) (a_protocol a)
    (a_secret_key a) (latest_new_qc a) (cancel_wait a) (a_vm a) (h :: a_signed a).

Definition in_vm {A} (m : M V A) : M AppBase A := zoom a_vm set_vm m.

(** [HotstuffAppBase::HotstuffAppBase], the genesis block at [g]. *)
Definition AppBase_init (g : loc) (c : ReplicaConfig) (self : ReplicaID) (sk : SecretKey)
    (vm : V) : AppBase :=
  mkApp (BlockStore_init g (get_hash genesis_block)) (init_configs c) [] []
    (HotstuffProtocolManager_init c self) sk None false vm [].

(** ** Queues and messages *)

(** [EventQueue::validate_and_add_event] *)
Definition event_queue_add (h : heap) (e : Event) : M AppBase unit :=
  ok <- Event_validate h e ;;
  if negb ok then ret tt else add_event a_events set_events e.

(** [MockClientForSelf::vote] and [propose] *)
Definition self_vote (h : heap) (block : loc) (pc : PartialCertificateWire)
    (self : ReplicaID) : M AppBase unit :=
  event_queue_add h (EVote (mkVoteEvent self pc block)).
Definition self_propose (h : heap) (block : loc) (self : ReplicaID) : M AppBase unit :=
  event_queue_add h (EProposal (mkProposalEvent self block)).

(** [HotstuffProtocolManager::send_vote_to] *)
Definition send_vote_to (h : heap) (block : loc) (pc : PartialCertificateWire)
    (target : ReplicaID) : M AppBase unit :=
  pm <- gets a_protocol ;;
  if (target =? pm_self_id pm)%N then self_vote h block pc (pm_self_id pm)
  else
    match other_clients pm !! target with
    | None => throw OutOfRange
    | Some work =>
      modify (set_clients
        (<[target := work ++ [MVote (mkVoteMessage pc (pm_self_id pm))]]> (other_clients pm)))
    end.

(** [HotstuffProtocolManager::broadcast_proposal] *)
Definition broadcast_proposal (h : heap) (block : loc) : M AppBase unit :=
  pm <- gets a_protocol ;;
  self_propose h block (pm_self_id pm) ;;
  b <- deref h block ;;
  let p := mkProposeMessage (wire_block b) (pm_self_id pm) in
  modify (set_clients ((λ work, work ++ [MPropose p]) <$> other_clients pm)).

(** ** The virtual methods of the core *)

(** [do_vote] *)
Definition app_do_vote (h : heap) (block : loc) (proposer : ReplicaID) : M AppBase unit :=
  b <- deref h block ;;
  sk <- gets a_secret_key ;;
  cert <- PC_sign (get_hash b) sk ;;
  modify (add_signed (get_hash b)) ;;
  send_vote_to h block cert proposer.

(** [on_new_qc] *)
Definition app_on_new_qc (h : Hash) : M AppBase unit :=
  modify (λ a, set_wait (Some h) (cancel_wait a) a).

(** [notify_ok_to_prune_blocks] *)
Definition app_notify_ok_to_prune (committed_hotstuff_height : N) : M AppBase unit :=
  modify (λ a, set_store (prune_below_height
    (if (keep_depth <? committed_hotstuff_height)%N
     then committed_hotstuff_height - keep_depth else 0)%N (a_store a)) a).

(** [find_block_by_hash] *)
Definition app_find_block_by_hash (h : Hash) : M AppBase loc :=
  st <- gets a_store ;;
  match get_block st h with
  | None => throw (RuntimeError "Failed to find block during initialization")
  | Some p => ret p
  end.

#[export] Instance app_virtuals : CoreVirtuals AppBase := {
  do_vote := app_do_vote;
  on_new_qc := app_on_new_qc;
  apply_block := λ h p tx, in_vm (bridge_apply_block h p tx);
  notify_vm_of_commitment := λ h p, in_vm (bridge_notify_vm_of_commitment h p);
  notify_vm_of_qc_on_nonself_block := λ _ _, ret tt;
  notify_ok_to_prune_blocks := app_notify_ok_to_prune;
  find_block_by_hash := app_find_block_by_hash;
}.

Abbreviation AppSt := (CoreSt AppBase).

(** ** Waiting for a certificate *)

(** [wait_for_new_qc]; [None]: the caller is still blocked. *)
Definition wait_for_new_qc (expected_next_qc : Hash) : M AppBase (option bool) := λ a,
  match latest_new_qc a, cancel_wait a with
  | None, false => Ok None a
  | q, true => Ok (Some false) (set_wait q false a)
  | Some q, false => Ok (Some (bool_decide (q = expected_next_qc))) (set_wait None false a)
  end.

(** [cancel_wait_for_new_qc] *)
Definition cancel_wait_for_new_qc : M AppBase unit :=
  modify (λ a, set_wait (latest_new_qc a) true a).

(** ** The store *)

(** [new HotstuffBlock(...)] on the shared heap. *)
Definition new_block (b : HotstuffBlock) : M AppSt loc := λ s,
  let '(p, h) := alloc b (st_heap s) in
  Ok p (mkSt h (st_disk s) (st_core s) (st_env s)).

Definition store_insert (p : loc) : M AppSt MissingDependencies :=
  zoom (λ s : AppSt, (st_heap s, a_store (st_env s)))
       (λ hs s, mkSt hs.1 (st_disk s) (st_core s) (set_store hs.2 (st_env s)))
       (insert_block p).

(** An iteration of the collector's worker. *)
Definition store_gc : M AppSt unit :=
  zoom (λ s : AppSt, (st_heap s, gc_collector (a_store (st_env s))))
       (λ hg s, mkSt hg.1 (st_disk s) (st_core s)
          (set_store (mkStore (block_cache (a_store (st_env s))) hg.2) (st_env s)))
       gc_run_once.

Definition in_fetch {A} (m : M BlockFetchManager A) : M AppSt A :=
  in_env (λ _, zoom a_fetch set_fetch m).

(** ** Proposing *)

(** The default argument of [supports_nonempty_child_proposal]. *)
Definition proposal_depth : nat := 3.

(** [do_propose] and [do_empty_propose] up to the new block; they differ in
    how they choose [nonempty]. *)
Definition mint_proposal (nonempty : HotstuffBlock → M AppSt bool) : M AppSt HotstuffBlock :=
  leaf <- core b_leaf ;;
  lb <- read leaf ;;
  let new_block_height := u64 (get_height lb + 1) in
  ne <- nonempty lb ;;
  bd <- in_env (λ _, in_vm (get_next_vm_block ne new_block_height)) ;;
  high <- core hqc ;;
  self <- core self_id ;;
  mint_block bd (high.2) (get_hash lb) self.

Definition propose_with (nonempty : HotstuffBlock → M AppSt bool) : M AppSt Hash :=
  newly_minted <- mint_proposal nonempty ;;
  p <- new_block newly_minted ;;
  md <- store_insert p ;;
  if missing md then throw (RuntimeError "failed to insert newly minted block?")
  else
    in_core (set_b_leaf p) ;;
    in_env (λ h, broadcast_proposal h p) ;;
    ret (get_hash newly_minted).

Definition supports_nonempty (lb : HotstuffBlock) : M AppSt bool := λ s,
  supports_nonempty_child_proposal (st_heap s) lb (self_id (st_core s)) proposal_depth s.
Definition always_empty (lb : HotstuffBlock) : M AppSt bool := ret false.

Definition do_propose : M AppSt Hash :=
  propose_with supports_nonempty.
Definition do_empty_propose : M AppSt Hash := propose_with always_empty.

(** ** Handling events *)

(** [EventQueue::on_event]: [VoteEvent::operator()], [ProposalEvent::operator()]. *)
Definition on_event (e : Event) : M AppSt unit :=
  match e with
  | EVote v => on_receive_vote (ve_cert v) (ve_block v) (ve_rid v)
  | EProposal p => on_receive_proposal (pe_block p) (pe_rid p)
  end.

(** The requests of a block whose dependencies are missing. *)
Definition request_missing (md : MissingDependencies) (from : ReplicaID)
    (dep_events : list NetEvent) : M AppSt unit :=
  cfg <- core config ;;
  match md_parent_hash md with
  | Some ph =>
    in_fetch (add_fetch_request cfg ph from dep_events) ;;
    match md_justify_hash md with
    | Some jh => in_fetch (add_fetch_request cfg jh from [])
    | None => ret tt
    end
  | None =>
    match md_justify_hash md with
    | Some jh => in_fetch (add_fetch_request cfg jh from dep_events)
    | None => ret tt
    end
  end.

(** The part the proposal and the block case share: insert the block, deliver
    it to those waiting, and say whether it is in the store. *)
Definition insert_received (p : loc) (from : ReplicaID) (event : NetEvent) : M AppSt bool :=
  md <- store_insert p ;;
  b <- read p ;;
  es <- in_fetch (deliver_block (get_hash b)) ;;
  if negb (missing md) then
    in_env (λ _, add_events a_net_events set_net_events es) ;; ret true
  else request_missing md from (es ++ [event]) ;; ret false.

(** [NetworkEventQueue::on_event] *)
Definition on_net_event (e : NetEvent) : M AppSt unit :=
  match e with
  | NVote v =>
    st <- gets (λ s, a_store (st_env s)) ;;
    match get_block st (pc_hash (vn_cert v)) with
    | Some p => in_env (λ h, event_queue_add h (vote_to_event v p))
    | None =>
      cfg <- core config ;;
      in_fetch (add_fetch_request cfg (pc_hash (vn_cert v)) (vn_voter v) [e])
    end
  | NProposal pr =>
    stored <- insert_received (pn_block pr) (pn_proposer pr) e ;;
    when stored (in_env (λ h, event_queue_add h (proposal_to_event pr)))
  | NReceive rb =>
    insert_received (rn_block rb) (rn_sender rb) e ;; ret tt
  end.

(** [NetworkEventQueue::validate_and_add_event] *)
Definition net_queue_add (e : NetEvent) : M AppSt unit :=
  cfg <- core config ;;
  ok <- zoom st_heap (λ h s, mkSt h (st_disk s) (st_core s) (st_env s))
          (NetEvent_validate cfg e) ;;
  when ok (in_env (λ _, add_event a_net_events set_net_events e)).

(** [HotstuffProtocolHandler::vote] *)
Definition handler_vote (v : VoteMessage) : M AppSt unit :=
  cfg <- core config ;;
  if negb (is_valid_replica cfg (vm_voter v)) then ret tt
  else net_queue_add (NVote (VoteNetEvent_of v)).

(** [HotstuffProtocolHandler::propose] *)
Definition handler_propose (m : ProposeMessage) : M AppSt unit :=
  cfg <- core config ;;
  if negb (is_valid_replica cfg (pm_proposer m)) then ret tt
  else
    b <- receive_block (pm_proposal m) (pm_proposer m) ;;
    p <- new_block b ;;
    net_queue_add (NProposal (mkProposalNet p (pm_proposer m))).

(** The loop body of [BlockFetchWorker::run] on a response: the answer of
    [validate_hash] is not used. *)
Definition worker_response (w : HotstuffBlockWire) (from : ReplicaID) : M AppSt unit :=
  b <- receive_block w from ;;
  match validate_hash b with
  | Fault f _ => λ s, Fault f s
  | Ok _ b' =>
    p <- new_block b' ;;
    net_queue_add (NReceive (mkReceiveNet p from))
  end.

(** ** Restarting from disk *)

(** The loop of [reload_decided_blocks] over the index. *)
Fixpoint reload_blocks (cfg : ReplicaConfig) (self : ReplicaID) (entries : list (bytes * bytes))
    (highest_decision : N) : M AppSt N :=
  match entries with
  | [] => ret highest_decision
  | e :: entries =>
    it <- iterator_deref e ;;
    info <- get_info cfg self ;;
    blk <- zoom st_disk (λ d s, mkSt (st_heap s) d (st_core s) (st_env s))
             (load_decided_block (it.2) info) ;;
    p <- new_block blk ;;
    res <- store_insert p ;;
    if missing res then
      throw (RuntimeError "unable to properly load data into block store")
    else
      b <- read p ;;
      reload_blocks cfg self entries (get_height b)
  end.

(** [reload_decided_blocks] *)
Definition reload_decided_blocks : M AppSt N :=
  db <- core decided_hash_index ;;
  cfg <- core config ;;
  self <- core self_id ;;
  highest <- reload_blocks cfg self (forward_cursor db) 0 ;;
  reload_state_from_index ;;
  ret highest.
End app.

Arguments AppBase : clear implicits.
Abbreviation AppSt V := (CoreSt (AppBase V)).
