(* ===== verification/RpcClient.v ===== *)
(** * Outgoing connections

    hotstuff/nonblocking_rpc_client.h, the worker of
    protocol/hotstuff_protocol_client.{h,cc} and the calling half of
    block_storage/block_fetch_worker.cc: one worker thread per peer, which
    reconnects and retries until a call returns.

    Sockets, xdrpp's clients and the moment another thread sets [done_flag] are
    outside the program: a [tick] is what the worker observes next, and a run is
    determined by the list of ticks.  When the list ends the thread is still
    waiting ([OutOfFuel]).  The theorems hold for every list. *)

From S2P Require Import Prelude Types ReplicaConfig Block Events FetchManager App.

(** ** NonblockingRpcClient *)

(** [t_done]: [done_flag] has been set by now.  [t_connect]: a connection
    attempt succeeds.  [t_reply]: a call returns this, or throws; if it throws,
    [t_handled] says whether the peer handled the call all the same, before the
    client went on; a request that the peer reads from an old connection after
    the client has opened a new one is not covered. *)
Record tick (R : Type) := mkTick {
  t_done : bool;
  t_connect : bool;
  t_reply : option R;
  t_handled : bool;
}.
Arguments mkTick {_}.
Arguments t_done {_}.
Arguments t_connect {_}.
Arguments t_reply {_}.
Arguments t_handled {_}.

(** [rc_handled] is a history variable: the calls the peer has handled, oldest
    first. *)
Record NonblockingRpcClient (A R : Type) := mkRpc {
  rc_client : bool;                       (* client != nullptr *)
  rc_done : bool;
  rc_handled : list A;
  rc_world : list (tick R);
}.
Arguments mkRpc {_ _}.
Arguments rc_client {_ _}.
Arguments rc_done {_ _}.
Arguments rc_handled {_ _}.
Arguments rc_world {_ _}.

Section rpc.
Context {A R : Type}.
Abbreviation Rpc := (NonblockingRpcClient A R).

(** The constructor. *)
Definition NonblockingRpcClient_init (world : list (tick R)) : Rpc := mkRpc false false [] world.

Definition set_client (b : bool) (c : Rpc) : Rpc :=
  mkRpc b (rc_done c) (rc_handled c) (rc_world c).

(** What the thread observes next. *)
Definition observe : M Rpc (tick R) := λ c,
  match rc_world c with
  | [] => Halt OutOfFuel c
  | t :: ts => Ok t (mkRpc (rc_client c) (rc_done c || t_done t) (rc_handled c) ts)
  end.

(** A read of [done_flag]. *)
Definition read_done : M Rpc bool := observe ;; gets rc_done.

(** [connection_is_open], [clear_connection] *)
Definition connection_is_open : M Rpc bool := gets rc_client.
Definition clear_connection : M Rpc unit := modify (set_client false).

(** [try_open_connection]: [open_connection] or, if it throws,
    [clear_connection]; [on_connection_open] is not overridden. *)
Definition try_open_connection : M Rpc unit :=
  t <- observe ;;
  if t_connect t then modify (set_client true) else clear_connection.

(** The loop of [wait_for_try_open_connection]; [wait] only sleeps. *)
Fixpoint open_loop (fuel : nat) : M Rpc unit :=
  match fuel with
  | 0 => halt_with OutOfFuel
  | S fuel =>
    try_open_connection ;;
    o <- connection_is_open ;;
    if o : bool then ret tt
    else
      d <- read_done ;;
      if d : bool then ret tt else open_loop fuel
  end.

(** [wait_for_try_open_connection] *)
Definition wait_for_try_open_connection : M Rpc unit :=
  o <- connection_is_open ;;
  if o : bool then ret tt
  else
    d <- read_done ;;
    if d : bool then ret tt else λ c, open_loop (S (length (rc_world c))) c.

(** [client -> call(x)]: the pointer is followed without a test. *)
Definition remote_call (x : A) : M Rpc (option R) :=
  o <- connection_is_open ;;
  if negb o then halt_with NullDeref
  else
    t <- observe ;;
    modify (λ c, mkRpc (rc_client c) (rc_done c)
      (rc_handled c ++ (if t_reply t then [x] else if t_handled t then [x] else [])) (rc_world c)) ;;
    ret (t_reply t).

(** [try_action]: [None] is [nullptr]; [try_action_void] returns whether there
    is a reply. *)
Definition try_action (x : A) : M Rpc (option R) :=
  wait_for_try_open_connection ;;
  out <- remote_call x ;;
  match out with
  | Some r => ret (Some r)
  | None => clear_connection ;; ret None
  end.

Definition try_action_void (x : A) : M Rpc bool :=
  out <- try_action x ;;
  ret (bool_decide (is_Some out)).

(** ** What a call does *)

(** Every run only consumes observations, and [done_flag] stays set. *)
Definition rpc_le (c c' : Rpc) : Prop :=
  (∃ ts, rc_world c = ts ++ rc_world c' ∧ rc_done c' = rc_done c || existsb t_done ts).

#[local] Instance rpc_le_po : PreOrder rpc_le.
Proof.
  split.
  - intros c. exists []. by rewrite orb_false_r.
  - intros c1 c2 c3 (t1 & W1 & D1) (t2 & W2 & D2). exists (t1 ++ t2).
    rewrite W1, W2, app_assoc, D2, D1, existsb_app. by rewrite orb_assoc.
Qed.

Lemma observe_wp c :
  wp observe (λ t c', rpc_le c c' ∧ rc_client c' = rc_client c ∧ rc_handled c' = rc_handled c ∧
                length (rc_world c') < length (rc_world c))
    (λ f c', f = Stop OutOfFuel ∧ c' = c ∧ rc_world c = []) c.
Proof.
  unfold wp, observe. destruct (rc_world c) as [|t ts] eqn:Hw; [done|].
  split; [|simpl; auto with lia]. exists [t]. rewrite Hw. simpl. by rewrite orb_false_r.
Qed.

Lemma read_done_wp c :
  wp read_done (λ d c', rpc_le c c' ∧ rc_client c' = rc_client c ∧ rc_handled c' = rc_handled c ∧
                  length (rc_world c') < length (rc_world c) ∧ d = rc_done c')
    (λ f c', f = Stop OutOfFuel ∧ c' = c ∧ rc_world c = []) c.
Proof.
  unfold read_done. apply wp_bind. eapply wp_mono; [apply observe_wp| |done].
  intros t c' (? & ? & ? & ?). by apply wp_gets.
Qed.

(** The wait ends with an open connection or in a shutdown; nothing is sent. *)
Lemma open_loop_wp fuel c :
  length (rc_world c) < fuel →
  wp (open_loop fuel)
    (λ _ c', rpc_le c c' ∧ rc_handled c' = rc_handled c ∧ (rc_client c' = true ∨ rc_done c' = true))
    (λ f c', f = Stop OutOfFuel ∧ rc_handled c' = rc_handled c ∧ rc_world c' = [] ∧ rpc_le c c') c.
Proof.
  revert c. induction fuel as [|fuel IH]; intros c Hf; [lia|]. cbn [open_loop].
  apply wp_bind. unfold try_open_connection. apply wp_bind.
  eapply wp_mono; [apply observe_wp| |by intros f c' (-> & -> & ->)].
  intros t c1 (L1 & _ & H1 & W1).
  set (c2 := set_client (t_connect t) c1).
  assert (L2 : rpc_le c c2) by (destruct L1 as (ts & ? & ?); by exists ts).
  assert (Hbody : wp (o <- connection_is_open ;;
      if o : bool then ret tt else d <- read_done ;; if d : bool then ret tt else open_loop fuel)
    (λ _ c', rpc_le c c' ∧ rc_handled c' = rc_handled c ∧ (rc_client c' = true ∨ rc_done c' = true))
    (λ f c', f = Stop OutOfFuel ∧ rc_handled c' = rc_handled c ∧ rc_world c' = [] ∧ rpc_le c c') c2).
  { apply wp_bind, wp_gets. destruct (rc_client c2) eqn:Ho.
    { apply wp_ret. split_and!; [done|done|by left]. }
    unfold read_done. apply wp_bind, wp_bind.
    eapply wp_mono; [apply observe_wp| |by intros f c' (-> & -> & ->)].
    intros t' c3 (L3 & _ & H3 & W3). apply wp_gets. destruct (rc_done c3) eqn:Hd.
    { apply wp_ret. split_and!; [by etrans|by rewrite H3|by right]. }
    eapply wp_mono; [apply IH; simpl in W3; lia|..].
    - intros _ c' (L4 & H4 & Hor). split; [by do 2 etrans|]. split; [|done]. by rewrite H4, H3.
    - intros f c' (-> & H4 & W4 & L4). split_and!; [done|by rewrite H4, H3|done|by do 2 etrans]. }
  destruct (t_connect t); exact Hbody.
Qed.

Lemma wait_for_open_wp c :
  wp wait_for_try_open_connection
    (λ _ c', rpc_le c c' ∧ rc_handled c' = rc_handled c ∧ (rc_client c' = true ∨ rc_done c' = true))
    (λ f c', f = Stop OutOfFuel ∧ rc_handled c' = rc_handled c ∧ rc_world c' = [] ∧ rpc_le c c') c.
Proof.
  unfold wait_for_try_open_connection. apply wp_bind, wp_gets.
  destruct (rc_client c) eqn:Ho; [apply wp_ret; split_and!; auto; reflexivity|].
  apply wp_bind. eapply wp_mono; [apply read_done_wp| |intros f c' (-> & -> & ?); split_and!; auto; reflexivity].
  intros d c1 (L1 & _ & H1 & _ & ->). destruct (rc_done c1) eqn:Hd; [apply wp_ret; by split_and!; auto|].
  eapply wp_mono; [apply open_loop_wp; lia|..].
  - intros _ c' (L2 & H2 & Hor). split_and!; [by etrans|by rewrite H2|done].
  - intros f c' (-> & H2 & ? & L2). split_and!; [done|by rewrite H2|done|by etrans].
Qed.

(** A call with a reply was handled once; one without was handled at most
    once.  It faults only when there is nothing more to observe, or, in a
    shutdown, on the null client. *)
Definition call_fault (x : A) (c : Rpc) (f : fault) (c' : Rpc) : Prop :=
  rpc_le c c' ∧ rc_handled c' = rc_handled c ∧
  ((f = Stop OutOfFuel ∧ rc_world c' = []) ∨ (f = Stop NullDeref ∧ rc_done c' = true)).

Lemma try_action_wp x c :
  wp (try_action x)
    (λ out c', rpc_le c c' ∧
       match out with
       | Some _ => rc_handled c' = rc_handled c ++ [x]
       | None => rc_client c' = false ∧
           (rc_handled c' = rc_handled c ∨ rc_handled c' = rc_handled c ++ [x])
       end)
    (call_fault x c) c.
Proof.
  unfold try_action. apply wp_bind. eapply wp_mono; [apply wait_for_open_wp| |].
  2: { intros f c' (-> & H & W & L). split_and!; auto. }
  intros _ c1 (L1 & H1 & Hor). apply wp_bind. unfold remote_call. apply wp_bind, wp_gets.
  destruct (rc_client c1) eqn:Ho; simpl.
  2: { split_and!; [done|done|right]. by destruct Hor. }
  apply wp_bind. eapply wp_mono; [apply observe_wp| |].
  2: { intros f c' (-> & -> & ?). split_and!; auto. }
  intros t c2 (L2 & _ & H2 & _). apply wp_bind, wp_modify, wp_ret.
  assert (L3 : ∀ b l, rpc_le c (mkRpc b (rc_done c2) l (rc_world c2))).
  { intros b l. destruct (rpc_le_po.(PreOrder_Transitive) _ _ _ L1 L2) as (ts & ? & ?). by exists ts. }
  destruct (t_reply t) as [rep|].
  - apply wp_ret. split; [apply L3|]. simpl. by rewrite H2, H1.
  - apply wp_bind, wp_modify, wp_ret. split; [apply L3|]. simpl. split; [done|].
    rewrite H2, H1. destruct (t_handled t); [by right|left; by rewrite app_nil_r].
Qed.

Lemma try_action_void_wp x c :
  wp (try_action_void x)
    (λ ok c', rpc_le c c' ∧
       if ok : bool then rc_handled c' = rc_handled c ++ [x]
       else rc_handled c' = rc_handled c ∨ rc_handled c' = rc_handled c ++ [x])
    (call_fault x c) c.
Proof.
  unfold try_action_void. apply wp_bind. eapply wp_mono; [apply try_action_wp| |done].
  intros [rep|] c' [L H]; apply wp_ret; (split; [done|]); [done|apply H].
Qed.

(** ** HotstuffProtocolClient *)

(** The [while (!success)] loop: [false] is the early return of a shutdown. *)
Fixpoint send_loop (fuel : nat) (x : A) : M Rpc bool :=
  match fuel with
  | 0 => halt_with OutOfFuel
  | S fuel =>
    success <- try_action_void x ;;
    if success : bool then ret true
    else
      d <- read_done ;;
      if d : bool then ret false else send_loop fuel x
  end.

(** The loop of [do_work] over the batch. *)
Fixpoint send_all (todo : list A) : M Rpc unit :=
  match todo with
  | [] => ret tt
  | x :: todo =>
    ok <- (λ c, send_loop (S (length (rc_world c))) x c) ;;
    if ok : bool then send_all todo else ret tt
  end.

(** [do_work] *)
Definition do_work (todo : list A) : M Rpc unit :=
  d <- read_done ;;
  if d : bool then ret tt else send_all todo.

(** Delivery in order, each message at least once. *)
Inductive delivered : list A → list A → Prop :=
  | dl_nil : delivered [] []
  | dl_snoc l h x n : delivered l h → delivered (l ++ [x]) (h ++ replicate (S n) x).

(** Some messages delivered, and perhaps copies of the next one. *)
Definition delivering (l h : list A) : Prop :=
  ∃ pre post h0 n, l = pre ++ post ∧ delivered pre h0 ∧
    h = h0 ++ match post with [] => [] | x :: _ => replicate n x end.

Lemma delivered_delivering l h : delivered l h → delivering l h.
Proof. intros Hd. exists l, [], h, 0. by rewrite !app_nil_r. Qed.

Lemma delivering_app l l' h : delivering l h → delivering (l ++ l') h.
Proof.
  intros (pre & post & h0 & n & -> & Hd & ->). exists pre, (post ++ l'), h0.
  destruct post as [|x post]; [exists 0|exists n]; rewrite <- app_assoc; (split; [done|]); (split; [done|]).
  - simpl. by destruct l'.
  - done.
Qed.

Lemma delivered_app l1 h1 l2 h2 :
  delivered l1 h1 → delivered l2 h2 → delivered (l1 ++ l2) (h1 ++ h2).
Proof.
  intros H1. induction 1 as [|l h x n _ IH]; [by rewrite !app_nil_r|].
  rewrite !app_assoc. by constructor.
Qed.

Lemma delivered_delivering_app l1 h1 l2 h2 :
  delivered l1 h1 → delivering l2 h2 → delivering (l1 ++ l2) (h1 ++ h2).
Proof.
  intros H1 (pre & post & h0 & n & -> & Hd & ->). exists (l1 ++ pre), post, (h1 ++ h0), n.
  rewrite !app_assoc. split; [done|]. split; [by apply delivered_app|done].
Qed.

(** How a batch can end early: the run is over, or the replica shuts down. *)
Definition ends_early (f : fault) (c' : Rpc) : Prop :=
  (f = Stop OutOfFuel ∧ rc_world c' = []) ∨ (f = Stop NullDeref ∧ rc_done c' = true).

Lemma send_loop_wp fuel x c :
  length (rc_world c) < fuel →
  wp (send_loop fuel x)
    (λ ok c', rpc_le c c' ∧ ∃ n, rc_handled c' = rc_handled c ++ replicate n x ∧
       if ok : bool then 0 < n else rc_done c' = true)
    (λ f c', rpc_le c c' ∧ (∃ n, rc_handled c' = rc_handled c ++ replicate n x) ∧ ends_early f c') c.
Proof.
  revert c. induction fuel as [|fuel IH]; intros c Hf; [lia|]. cbn [send_loop].
  apply wp_bind. eapply wp_mono; [apply try_action_void_wp| |].
  2: { intros f c' (L & H & He). split_and!; [done|exists 0; by rewrite H, app_nil_r|done]. }
  intros [] c1 [L1 H1].
  { apply wp_ret. split; [done|]. exists 1. auto with lia. }
  assert (Hn : ∃ n, rc_handled c1 = rc_handled c ++ replicate n x)
    by (destruct H1 as [->| ->]; [exists 0; by rewrite app_nil_r|by exists 1]).
  destruct Hn as [n Hn]. apply wp_bind. eapply wp_mono; [apply read_done_wp| |].
  2: { intros f c' (-> & -> & W). split_and!; [done|by exists n|by left]. }
  intros d c2 (L2 & _ & H2 & W2 & ->). assert (L : rpc_le c c2) by by etrans.
  destruct (rc_done c2) eqn:Hd.
  { apply wp_ret. split; [done|]. exists n. by rewrite H2. }
  assert (Hlen : length (rc_world c2) < fuel).
  { destruct L1 as (ts & W1 & _). rewrite W1, length_app in Hf. lia. }
  eapply wp_mono; [by apply IH|..].
  - intros ok c' (L3 & m & Hm & Hok). split; [by etrans|]. exists (n + m).
    rewrite Hm, H2, Hn, <- app_assoc, <- replicate_add. split; [done|].
    destruct ok; [lia|done].
  - intros f c' (L3 & [m Hm] & He). split_and!; [by etrans| |done]. exists (n + m).
    by rewrite Hm, H2, Hn, <- app_assoc, <- replicate_add.
Qed.

Lemma delivering_next x todo n : delivering (x :: todo) (replicate n x).
Proof. exists [], (x :: todo), [], n. split_and!; [done|constructor|done]. Qed.

Lemma send_all_wp todo c :
  wp (send_all todo)
    (λ _ c', rpc_le c c' ∧ ∃ h, rc_handled c' = rc_handled c ++ h ∧ delivering todo h ∧
       (rc_done c' = false → delivered todo h))
    (λ f c', rpc_le c c' ∧ (∃ h, rc_handled c' = rc_handled c ++ h ∧ delivering todo h) ∧
       ends_early f c') c.
Proof.
  revert c. induction todo as [|x todo IH]; intros c; cbn [send_all].
  { apply wp_ret. split; [reflexivity|]. exists []. rewrite app_nil_r.
    split_and!; [done|apply delivered_delivering|]; constructor. }
  apply wp_bind. eapply wp_mono; [apply (send_loop_wp _ x c); lia| |].
  2: { intros f c' (L & [n Hn] & He). split_and!; [done| |done]. exists (replicate n x).
       split; [done|apply delivering_next]. }
  intros ok c1 (L1 & n & H1 & Hok). destruct ok.
  2: { apply wp_ret. split; [done|]. exists (replicate n x).
       split_and!; [done|apply delivering_next|by rewrite Hok]. }
  assert (Hd : delivered [x] (replicate n x))
    by (destruct n as [|n]; [lia|]; apply (dl_snoc [] [] x n), dl_nil).
  eapply wp_mono; [apply IH|..].
  - intros _ c' (L2 & h & Hh & Hdl & Hfull). split; [by etrans|]. exists (replicate n x ++ h).
    rewrite Hh, H1, app_assoc. split; [done|]. split.
    + by apply (delivered_delivering_app [x]).
    + intros Hnd. by apply (delivered_app [x]); [|apply Hfull].
  - intros f c' (L2 & (h & Hh & Hdl) & He). split_and!; [by etrans| |done].
    exists (replicate n x ++ h). rewrite Hh, H1, app_assoc. split; [done|].
    by apply (delivered_delivering_app [x]).
Qed.

Lemma do_work_wp todo c :
  wp (do_work todo)
    (λ _ c', rpc_le c c' ∧ ∃ h, rc_handled c' = rc_handled c ++ h ∧ delivering todo h ∧
       (rc_done c' = false → delivered todo h))
    (λ f c', rpc_le c c' ∧ (∃ h, rc_handled c' = rc_handled c ++ h ∧ delivering todo h) ∧
       ends_early f c') c.
Proof.
  assert (Hnone : delivering todo []) by (exists [], todo, [], 0; split_and!; [done|constructor|by destruct todo]).
  unfold do_work. apply wp_bind. eapply wp_mono; [apply read_done_wp| |].
  2: { intros f c' (-> & -> & W). split; [reflexivity|]. split; [|by left].
       exists []. by rewrite app_nil_r. }
  intros d c1 (L1 & _ & H1 & _ & ->). destruct (rc_done c1) eqn:Hd.
  { apply wp_ret. split; [done|]. exists []. rewrite app_nil_r, Hd. by split_and!. }
  eapply wp_mono; [apply send_all_wp|..].
  - intros _ c' (L2 & h & Hh & Hdl). split; [by etrans|]. exists h. by rewrite Hh, H1.
  - intros f c' (L2 & (h & Hh & Hdl) & He). split_and!; [by etrans| |done]. exists h. by rewrite Hh, H1.
Qed.
End rpc.

(** The client: its connection and the [work] it was given. *)
Record HotstuffProtocolClient := mkClient {
  cl_rpc : NonblockingRpcClient msg_t unit;
  cl_work : list msg_t;
}.

Definition HotstuffProtocolClient_init (world : list (tick unit)) : HotstuffProtocolClient :=
  mkClient (NonblockingRpcClient_init world) [].

(** [propose] and [vote] *)
Definition client_propose (p : ProposeMessage) : M HotstuffProtocolClient unit :=
  modify (λ c, mkClient (cl_rpc c) (cl_work c ++ [MPropose p])).
Definition client_vote (v : VoteMessage) : M HotstuffProtocolClient unit :=
  modify (λ c, mkClient (cl_rpc c) (cl_work c ++ [MVote v])).

Definition in_rpc {A} (m : M (NonblockingRpcClient msg_t unit) A) : M HotstuffProtocolClient A :=
  zoom cl_rpc (λ x c, mkClient x (cl_work c)) m.

(** [exists_work_to_do] *)
Definition client_has_work (c : HotstuffProtocolClient) : bool :=
  negb (bool_decide (cl_work c = [])).

(** One iteration of [run]; without work and without a shutdown the thread
    stays in [cv.wait]. *)
Definition client_run_once : M HotstuffProtocolClient unit :=
  d <- in_rpc read_done ;;
  c <- gets (λ c, c) ;;
  if d : bool then ret tt
  else if negb (client_has_work c) then ret tt
  else
    modify (λ c, mkClient (cl_rpc c) []) ;;
    in_rpc (do_work (cl_work c)).

(** The threads of the process, interleaved. *)
Inductive client_op :=
  | CPropose (p : ProposeMessage)
  | CVote (v : VoteMessage)
  | CRun.

Definition client_exec (o : client_op) : M HotstuffProtocolClient unit :=
  match o with
  | CPropose p => client_propose p
  | CVote v => client_vote v
  | CRun => client_run_once
  end.

(** What the client was given. *)
Definition enqueued (ops : list client_op) : list msg_t :=
  omap (λ o, match o with
             | CPropose p => Some (MPropose p)
             | CVote v => Some (MVote v)
             | CRun => None
             end) ops.

Lemma enqueued_app o1 o2 : enqueued (o1 ++ o2) = enqueued o1 ++ enqueued o2.
Proof. apply omap_app. Qed.

(** After the messages [q]: unless the replica is shutting down, everything
    but the waiting [work] has been delivered, in order. *)
Definition client_ok (q : list msg_t) (c : HotstuffProtocolClient) : Prop :=
  delivering q (rc_handled (cl_rpc c)) ∧
  (rc_done (cl_rpc c) = false →
     ∃ sent, q = sent ++ cl_work c ∧ delivered sent (rc_handled (cl_rpc c))).

Definition client_stopped (q : list msg_t) (f : fault) (c : HotstuffProtocolClient) : Prop :=
  delivering q (rc_handled (cl_rpc c)) ∧ ends_early f (cl_rpc c).

Lemma client_run_once_wp q c :
  client_ok q c → wp client_run_once (λ _ c', client_ok q c') (client_stopped q) c.
Proof.
  intros [Hd Hq]. unfold client_run_once. apply wp_bind. unfold in_rpc. apply wp_zoom.
  eapply wp_mono; [apply read_done_wp| |].
  2: { intros f c' (-> & -> & W). split; [done|by left]. }
  intros d r1 (L1 & _ & H1 & _ & ->).
  assert (Hmono : rc_done r1 = false → rc_done (cl_rpc c) = false).
  { destruct L1 as (ts & _ & ->). by destruct (rc_done (cl_rpc c)). }
  assert (Hok1 : client_ok q (mkClient r1 (cl_work c))).
  { split; simpl; rewrite H1; [done|]. auto. }
  apply wp_bind, wp_gets. destruct (rc_done r1) eqn:Hd1; [by apply wp_ret|].
  unfold client_has_work. simpl. case_bool_decide; [by apply wp_ret|]. simpl.
  destruct (Hq (Hmono eq_refl)) as (sent & -> & Hsent).
  apply wp_bind, wp_modify. simpl. apply wp_zoom. simpl.
  eapply wp_mono; [apply do_work_wp|..].
  - intros _ r2 (L2 & h & Hh & Hdl & Hfull). unfold client_ok. simpl. rewrite Hh, H1.
    split; [by apply delivered_delivering_app|]. intros Hnd.
    exists (sent ++ cl_work c). rewrite app_nil_r. split; [done|]. apply delivered_app; auto.
  - intros f r2 (L2 & (h & Hh & Hdl) & He). split; [|done]. simpl. rewrite Hh, H1.
    by apply delivered_delivering_app.
Qed.

Lemma client_exec_wp q o c :
  client_ok q c →
  wp (client_exec o) (λ _ c', client_ok (q ++ enqueued [o]) c')
    (client_stopped (q ++ enqueued [o])) c.
Proof.
  intros H. destruct o as [p|v|]; simpl.
  1, 2: apply wp_modify; destruct H as [Hd Hq]; (split; [by apply delivering_app|]);
    intros Hnd; destruct (Hq Hnd) as (sent & -> & Hs); exists sent; simpl;
    by rewrite app_assoc.
  rewrite app_nil_r. by apply client_run_once_wp.
Qed.

(** Every run of the client. *)
Lemma client_run_wp ops q c :
  client_ok q c →
  wp (for_each ops client_exec) (λ _ c', client_ok (q ++ enqueued ops) c')
    (client_stopped (q ++ enqueued ops)) c.
Proof.
  revert q c. induction ops as [|o ops IH]; intros q c H; cbn [for_each].
  { apply wp_ret. by rewrite app_nil_r. }
  apply wp_bind. change (o :: ops) with ([o] ++ ops). rewrite enqueued_app.
  eapply wp_mono; [by apply (client_exec_wp q o)|..].
  - intros u c1 H1. rewrite app_assoc. by apply IH.
  - intros f c1 [Hd He]. split; [|done]. rewrite app_assoc. by apply delivering_app.
Qed.

Lemma client_init_ok world : client_ok [] (HotstuffProtocolClient_init world).
Proof.
  split; [apply delivered_delivering; constructor|]. intros _. exists []. split; [done|constructor].
Qed.

(** ** A network that works *)

Definition good_tick {R} (t : tick R) : Prop :=
  t_done t = false ∧ t_connect t = true ∧ is_Some (t_reply t).

Section good.
Context {A R : Type}.

(** With [n] good observations ahead. *)
Definition good_world (n : nat) (c : NonblockingRpcClient A R) : Prop :=
  rc_done c = false ∧ n ≤ length (rc_world c) ∧ Forall good_tick (rc_world c).

Lemma good_observe n c :
  good_world (S n) c → ∃ t c', observe c = Ok t c' ∧ good_tick t ∧ good_world n c' ∧
    rc_client c' = rc_client c ∧ rc_handled c' = rc_handled c.
Proof.
  intros (Hd & Hl & Hw). unfold observe. destruct (rc_world c) as [|t ts] eqn:Hts; [simpl in Hl; lia|].
  apply Forall_cons in Hw as [Ht Hts']. exists t. eexists. split; [done|]. split; [done|].
  simpl in *. pose proof Ht as (Htd & _). unfold good_world. simpl. rewrite Hd, Htd.
  split; [|done]. split; [done|]. split; [lia|done].
Qed.

Lemma good_try n x c :
  good_world (n + 3) c → ∃ c', try_action_void x c = Ok true c' ∧ good_world n c' ∧
    rc_handled c' = rc_handled c ++ [x].
Proof.
  intros Hg. unfold try_action_void, try_action, bind, wait_for_try_open_connection, connection_is_open,
    bind, gets.
  assert (Hcall : ∀ c1, good_world (n + 1) c1 → rc_client c1 = true →
    ∃ rep c2, remote_call x c1 = Ok (Some rep) c2 ∧ good_world n c2 ∧ rc_handled c2 = rc_handled c1 ++ [x]).
  { intros c1 G1 Ho. unfold remote_call, bind, connection_is_open, gets. rewrite Ho. simpl.
    rewrite Nat.add_1_r in G1. destruct (good_observe _ _ G1) as (t & c2 & -> & (_ & _ & [rep Hr]) & G2 & _ & H2).
    rewrite Hr. unfold modify, ret. do 2 eexists. split; [done|]. split; [exact G2|].
    simpl. by rewrite H2. }
  destruct (rc_client c) eqn:Ho.
  - destruct (Hcall c) as (rep & c2 & Hc & G2 & H2); [|done|].
    { destruct Hg as (? & ? & ?). split_and!; [done|lia|done]. }
    unfold ret. rewrite Hc. eexists. split; [done|]. done.
  - replace (n + 3) with (S (S (n + 1))) in Hg by lia.
    unfold read_done, bind. destruct (good_observe _ _ Hg) as (t & c1 & -> & Ht & G1 & _ & H1).
    pose proof G1 as (Hd1 & _). unfold gets. rewrite Hd1. cbn [open_loop].
    unfold try_open_connection, connection_is_open, bind.
    destruct (good_observe _ _ G1) as (t2 & c2 & -> & (_ & Hc2 & _) & G2 & _ & H2).
    rewrite Hc2. unfold modify, gets. simpl. unfold ret.
    destruct (Hcall (set_client true c2)) as (rep & c3 & Hc3 & G3 & H3); [exact G2|done|].
    rewrite Hc3. eexists. split; [done|]. split; [done|]. rewrite H3. simpl. by rewrite H2, H1.
Qed.

(** A batch goes through, each message once. *)
Lemma good_send_all todo n c :
  good_world (n + 3 * length todo) c → ∃ c', send_all todo c = Ok tt c' ∧ good_world n c' ∧
    rc_handled c' = rc_handled c ++ todo.
Proof.
  revert c. induction todo as [|x todo IH]; intros c Hg; cbn [send_all].
  { exists c. rewrite app_nil_r. simpl in Hg. rewrite Nat.add_0_r in Hg. done. }
  unfold bind. cbn [send_loop length] in *.
  replace (n + 3 * S (length todo)) with (n + 3 * length todo + 3) in Hg by lia.
  unfold bind. destruct (good_try _ x c Hg) as (c1 & -> & G1 & H1). unfold ret.
  destruct (IH c1 G1) as (c2 & Hs & G2 & H2). exists c2. split; [done|]. split; [done|].
  rewrite H2, H1. by rewrite <- app_assoc.
Qed.
End good.

(** An iteration over a working network delivers the whole [work] once. *)
Lemma client_run_good c :
  good_world (2 + 3 * length (cl_work c)) (cl_rpc c) → cl_work c ≠ [] →
  ∃ c', client_run_once c = Ok tt c' ∧ cl_work c' = [] ∧
    rc_handled (cl_rpc c') = rc_handled (cl_rpc c) ++ cl_work c.
Proof.
  intros Hg Hw. unfold client_run_once, in_rpc, zoom, bind, do_work, read_done, bind.
  destruct (good_observe _ _ Hg) as (t & c1 & -> & _ & G1 & _ & H1). unfold gets. simpl.
  pose proof G1 as (-> & _). unfold client_has_work. simpl. rewrite bool_decide_eq_false_2 by done. simpl.
  destruct (good_observe _ _ G1) as (t2 & c2 & -> & _ & G2 & _ & H2).
  pose proof G2 as (-> & _).
  destruct (good_send_all (cl_work c) 0 c2 G2) as (c3 & -> & _ & H3).
  eexists. split; [done|]. simpl. split; [done|]. by rewrite H3, H2, H1.
Qed.

(** A shutdown while the client is not connected: the wait for a connection
    returns without one, and the call follows the null pointer. *)
Lemma do_work_shutdown {A R} (x : A) todo (c : NonblockingRpcClient A R) t1 t2 ts :
  rc_client c = false → rc_done c = false → rc_world c = t1 :: t2 :: ts →
  t_done t1 = false → t_done t2 = true →
  ∃ c', do_work (x :: todo) c = Halt NullDeref c'.
Proof.
  intros Hc Hd Hw H1 H2. destruct c as [cl dn hd w]. simpl in *. subst.
  unfold do_work, read_done, bind, observe. simpl. rewrite H1. simpl.
  unfold bind, try_action_void, try_action, bind, wait_for_try_open_connection, bind,
    connection_is_open, gets, read_done, observe, bind. simpl. rewrite H2. simpl. by eexists.
Qed.

(** ** BlockFetchWorker *)

Abbreviation FetchRpc := (NonblockingRpcClient (list Hash) (list HotstuffBlockWire)).

Definition in_fetch_rpc {A} (m : M FetchRpc A) : M (ReplicaFetchQueue * FetchRpc) A :=
  zoom snd (λ c s, (s.1, c)) m.

(** [exists_work_to_do] *)
Definition worker_has_work (q : ReplicaFetchQueue) : bool := negb (bool_decide (fq_reqs q = ∅)).

(** One iteration of [run], up to the loop over the responses (the loop body
    is [worker_response]); a failed call puts the requests back. *)
Definition fetch_run_once : M (ReplicaFetchQueue * FetchRpc) (list HotstuffBlockWire) :=
  d <- in_fetch_rpc read_done ;;
  q <- gets fst ;;
  if d : bool then ret []
  else if negb (worker_has_work q) then ret []
  else
    let '(req, q') := extract_reqs q in
    modify (λ s, (q', s.2)) ;;
    res <- in_fetch_rpc (try_action req) ;;
    match res with
    | None => modify (λ s, (readd_request req s.1, s.2)) ;; ret []
    | Some responses => ret responses
    end.

(** No request is lost: after an iteration either all of them are still
    waiting, or the peer has handled a call that asked for all of them. *)
Lemma fetch_run_once_wp q c :
  wp fetch_run_once
    (λ out '(q', c'), fq_outstanding q' = fq_outstanding q ∧
       (fq_reqs q' = fq_reqs q ∧ out = [] ∨
        fq_reqs q' = ∅ ∧ rc_handled c' = rc_handled c ++ [elements (fq_reqs q)]))
    (λ f s', ends_early f s'.2) (q, c).
Proof.
  unfold fetch_run_once. apply wp_bind. unfold in_fetch_rpc. apply wp_zoom.
  eapply wp_mono; [apply read_done_wp| |]; simpl.
  2: { intros f c' (-> & -> & W). by left. }
  intros d c1 (L1 & _ & H1 & _ & ->). apply wp_bind, wp_gets. simpl.
  destruct (rc_done c1); [apply wp_ret; auto|]. unfold worker_has_work.
  case_bool_decide; simpl; [apply wp_ret; auto|].
  apply wp_bind, wp_modify, wp_bind, wp_zoom. simpl.
  eapply wp_mono; [apply try_action_wp| |]; simpl.
  2: { intros f c' (_ & _ & He). exact He. }
  intros [rep|] c2 [L2 Hh].
  - apply wp_ret. split; [done|right]. by rewrite Hh, H1.
  - apply wp_bind, wp_modify, wp_ret. simpl. split; [done|left].
    split; [|done]. apply set_eq. set_solver.
Qed.
