(* ===== verification/Servers.v ===== *)
(** * Shutting down a server

    protocol/hotstuff_server.{h,cc} and block_storage/block_fetch_server.{h,cc}
    run the same two threads: a detached one that polls the socket until
    [start_shutdown] is set and then reports its end under the mutex, and the
    destructor, which sets the flag and waits for the report.  Their
    interleavings are a step relation; a label tells the spurious wake-ups of
    the condition variable from the other steps. *)

From S2P Require Import Prelude.

(** The polling thread: at the test of [start_shutdown], in [ps.poll], at
    [std::lock_guard], at [ps_is_shutdown = true; cv.notify_all()], at the
    release of the lock, or ended. *)
Inductive poll_pc := PCheck | PPoll | PLock | PReport | PUnlock | PEnd.

(** The destructor: not called, at the lock, at the test of [ps_is_shutdown],
    in [cv.wait], woken and at the lock again, or past
    [await_pollset_shutdown]. *)
Inductive dtor_pc := DNone | DLock | DTest | DWait | DWoken | DDone.

Inductive thread := Poller | Destructor.

Record Server := mkServer {
  start_shutdown : bool;
  ps_is_shutdown : bool;
  sv_mtx : option thread;
  sv_poll : poll_pc;
  sv_dtor : dtor_pc;
}.

(** The constructor has just started the thread. *)
Definition Server_init : Server := mkServer false false None PCheck DNone.

(** [cv.notify_all] *)
Definition notify_all (d : dtor_pc) : dtor_pc :=
  match d with DWait => DWoken | _ => d end.

(** One step of one thread; [true]: a spurious wake-up. *)
Inductive server_step : bool → Server → Server → Prop :=
  | poll_go sd ps m d :
      sd = false →
      server_step false (mkServer sd ps m PCheck d) (mkServer sd ps m PPoll d)
  | poll_stop sd ps m d :
      sd = true →
      server_step false (mkServer sd ps m PCheck d) (mkServer sd ps m PLock d)
  | poll_return sd ps m d :
      server_step false (mkServer sd ps m PPoll d) (mkServer sd ps m PCheck d)
  | poll_lock sd ps d :
      server_step false (mkServer sd ps None PLock d) (mkServer sd ps (Some Poller) PReport d)
  | poll_report sd ps m d :
      server_step false (mkServer sd ps m PReport d) (mkServer sd true m PUnlock (notify_all d))
  | poll_unlock sd ps m d :
      server_step false (mkServer sd ps m PUnlock d) (mkServer sd ps None PEnd d)
  | dtor_start sd ps m p :
      server_step false (mkServer sd ps m p DNone) (mkServer true ps m p DLock)
  | dtor_lock sd ps p :
      server_step false (mkServer sd ps None p DLock) (mkServer sd ps (Some Destructor) p DTest)
  | dtor_done sd ps m p :
      ps = true →
      server_step false (mkServer sd ps m p DTest) (mkServer sd ps None p DDone)
  | dtor_wait sd ps m p :
      ps = false →
      server_step false (mkServer sd ps m p DTest) (mkServer sd ps None p DWait)
  | dtor_relock sd ps p :
      server_step false (mkServer sd ps None p DWoken) (mkServer sd ps (Some Destructor) p DTest)
  | dtor_spurious sd ps m p :
      server_step true (mkServer sd ps m p DWait) (mkServer sd ps m p DWoken).

Inductive server_reachable : Server → Prop :=
  | sv_init : server_reachable Server_init
  | sv_step b s s' : server_reachable s → server_step b s s' → server_reachable s'.

(** ** The invariant *)

Definition reported (p : poll_pc) : bool :=
  match p with PUnlock | PEnd => true | _ => false end.
Definition poller_holds (p : poll_pc) : bool :=
  match p with PReport | PUnlock => true | _ => false end.
Definition leaving (p : poll_pc) : bool :=
  match p with PLock | PReport | PUnlock | PEnd => true | _ => false end.

(** Who holds the mutex; the report was made exactly once the thread is past
    it; and the destructor waits only while the report is still to come. *)
Record ServerInv (s : Server) : Prop := {
  si_poller : sv_mtx s = Some Poller ↔ poller_holds (sv_poll s) = true;
  si_dtor : sv_mtx s = Some Destructor ↔ sv_dtor s = DTest;
  si_report : ps_is_shutdown s = reported (sv_poll s);
  si_leaving : leaving (sv_poll s) = true → start_shutdown s = true;
  si_start : start_shutdown s = true ↔ sv_dtor s ≠ DNone;
  si_wait : sv_dtor s = DWait → ps_is_shutdown s = false;
  si_done : sv_dtor s = DDone → sv_poll s = PEnd;
}.

Lemma server_inv s : server_reachable s → ServerInv s.
Proof.
  induction 1 as [|b s s' _ [Hp Hd Hr Hl Hs Hw Hdn] Hstep]; [by split|].
  destruct Hstep as [? ? m d|? ? m d|? ? m d|? ? d|? ? m d|? ? m d|? ? m p|? ? p|? ? m p|? ? m p|? ? p|? ? m p];
    subst; try destruct m as [[]|]; try destruct p; try destruct d; simpl in *;
    (split; simpl; clear -Hp Hd Hr Hl Hs Hw Hdn; intuition congruence).
Qed.

(** ** Termination *)

(** Steps each thread has left, once the destructor runs. *)
Definition poll_left (p : poll_pc) : nat :=
  match p with PPoll => 5 | PCheck => 4 | PLock => 3 | PReport => 2 | PUnlock => 1 | PEnd => 0 end.
Definition dtor_left (d : dtor_pc) : nat :=
  match d with DNone => 6 | DLock => 5 | DWoken => 4 | DTest => 3 | DWait => 2 | DDone => 0 end.
Definition steps_left (s : Server) : nat := 4 * poll_left (sv_poll s) + dtor_left (sv_dtor s).

Definition shut_down (s : Server) : Prop := sv_poll s = PEnd ∧ sv_dtor s = DDone.

(** Once the destructor runs every step brings the end closer. *)
Lemma server_step_left s s' :
  start_shutdown s = true → server_step false s s' →
  steps_left s' < steps_left s ∧ start_shutdown s' = true.
Proof.
  intros Hs Hstep. remember false as b eqn:Hb.
  destruct Hstep; simplify_eq/=; unfold steps_left; simpl; (split; [|done]); try lia.
  destruct d; simpl; lia.
Qed.

(** Nobody is stuck before the end. *)
Lemma server_progress s :
  ServerInv s → start_shutdown s = true → shut_down s ∨ ∃ s', server_step false s s'.
Proof.
  intros [Hp Hd Hr Hl Hs Hw Hdn] Hst. destruct s as [sd ps m p d]; simpl in *; subst.
  destruct p; try (right; eexists; by constructor).
  - destruct m as [[]|]; [by destruct Hp as [Hp _]; specialize (Hp eq_refl)| |right; eexists; constructor].
    assert (d = DTest) as -> by by apply Hd. right. eexists. by apply dtor_wait.
  - destruct d; try (right; eexists; by constructor).
    + destruct m as [[]|]; [by destruct Hp as [Hp _]; specialize (Hp eq_refl)| |right; eexists; constructor].
      by destruct Hd as [Hd _]; specialize (Hd eq_refl).
    + specialize (Hw eq_refl). done.
    + destruct m as [[]|]; [by destruct Hp as [Hp _]; specialize (Hp eq_refl)| |right; eexists; constructor].
      by destruct Hd as [Hd _]; specialize (Hd eq_refl).
    + by left.
Qed.

(** Without further spurious wake-ups a shutdown takes a bounded number of
    steps, and it can stop only at its end. *)
Lemma server_shutdown s s' n :
  server_reachable s → start_shutdown s = true → nsteps (server_step false) n s s' →
  n + steps_left s' ≤ steps_left s ∧
  (shut_down s' ∨ ∃ s'', server_step false s' s'').
Proof.
  intros Hr Hst Hn. revert Hr Hst. induction Hn as [s|n s s1 s' H1 Hn IH]; intros Hr Hst.
  - split; [done|]. apply server_progress; [by apply server_inv|done].
  - destruct (server_step_left _ _ Hst H1) as [Hlt Hst1].
    destruct IH as [Hle Hor]; [by eapply sv_step|done|]. split; [lia|done].
Qed.
