(* ===== verification/EventQueue.v ===== *)
(** * The threads of an event queue

    hotstuff/generic_event_queue.h: producers that append events under the
    mutex, and the worker thread of [run], which takes the whole queue under
    the mutex and handles the batch outside it.  Their interleavings are a step
    relation.  [terminate_worker] is of the utils submodule: a relation with
    what the queue relies on. *)

From S2P Require Import Prelude.

Section event_queue.
Context {EventT : Type}.

(** The worker: at the lock of an iteration; at the [if]; at the predicate of
    [cv.wait]; in the wait; woken and at the lock again; at the test of
    [done_flag]; at the moves out of [events]; at [cv.notify_all] with its
    batch; past the lock with what is left of the batch; ended. *)
Inductive worker_pc :=
  | WLock | WIf | WPred | WWait | WWoken | WDoneTest | WTake
  | WNotify (work_list : list EventT) | WRun (work_list : list EventT) | WEnd.

(** Who holds the mutex.  A producer is at its insertion or at its
    notification. *)
Inductive holder := Worker | Inserting (es : list EventT) | Notifying.

Record GenericEventQueue := mkQueue {
  events : list EventT;
  done_flag : bool;
  q_mtx : option holder;
  q_worker : worker_pc;
  q_added : list EventT;      (* all events added so far *)
  q_handled : list EventT;    (* those given to [on_event] *)
}.

(** The constructor has just started the thread. *)
Definition GenericEventQueue_init : GenericEventQueue := mkQueue [] false None WLock [] [].

Definition exists_work_to_do (q : GenericEventQueue) : bool :=
  match events q with [] => false | _ => true end.

(** [cv.notify_all]: only the worker waits. *)
Definition wake (w : worker_pc) : worker_pc := match w with WWait => WWoken | _ => w end.

Definition at_pc (q : GenericEventQueue) (m : option holder) (w : worker_pc) : GenericEventQueue :=
  mkQueue (events q) (done_flag q) m w (q_added q) (q_handled q).

(** What the worker does next; [None]: it waits for the mutex or a
    notification, or has ended. *)
Definition run_step (q : GenericEventQueue) : option GenericEventQueue :=
  match q_worker q with
  | WLock =>
    match q_mtx q with None => Some (at_pc q (Some Worker) WIf) | _ => None end
  | WIf => Some (at_pc q (q_mtx q)
      (if negb (done_flag q) && negb (exists_work_to_do q) then WPred else WDoneTest))
  | WPred => Some (if done_flag q || exists_work_to_do q then at_pc q (q_mtx q) WDoneTest
                   else at_pc q None WWait)
  | WWait => None
  | WWoken =>
    match q_mtx q with None => Some (at_pc q (Some Worker) WPred) | _ => None end
  | WDoneTest => Some (if done_flag q then at_pc q None WEnd else at_pc q (q_mtx q) WTake)
  | WTake => Some (mkQueue [] (done_flag q) (q_mtx q) (WNotify (events q)) (q_added q) (q_handled q))
  | WNotify es => Some (at_pc q None (WRun es))
  | WRun [] => Some (at_pc q (q_mtx q) WLock)
  | WRun (e :: es) => Some (mkQueue (events q) (done_flag q) (q_mtx q) (WRun es) (q_added q)
                              (q_handled q ++ [e]))
  | WEnd => None
  end.

(** [add_events_]; [add_event_] is the case of one event. *)
Definition insert_events (es : list EventT) (q : GenericEventQueue) : GenericEventQueue :=
  mkQueue (events q ++ es) (done_flag q) (Some Notifying) (q_worker q) (q_added q ++ es) (q_handled q).
Definition notify_waiting (q : GenericEventQueue) : GenericEventQueue :=
  at_pc q None (wake (q_worker q)).

(** [terminate_worker] up to its wait for the thread's end: under the mutex, it
    sets the flag and notifies. *)
Context (terminate : GenericEventQueue → GenericEventQueue → Prop).
Hypothesis terminate_sets : ∀ q q', terminate q q' →
  q_mtx q = None ∧
  q' = mkQueue (events q) true None (wake (q_worker q)) (q_added q) (q_handled q).

(** A step: of the worker or of the producer that holds the mutex ([Inner]); a
    call of a producer that gets the mutex, or of [terminate_worker] ([Call]); a
    wake-up nobody asked for ([Spurious]). *)
Inductive label := Inner | Call | Spurious.

Inductive queue_step : label → GenericEventQueue → GenericEventQueue → Prop :=
  | worker_moves q q' : run_step q = Some q' → queue_step Inner q q'
  | producer_locks q es :
      q_mtx q = None → queue_step Call q (at_pc q (Some (Inserting es)) (q_worker q))
  | producer_inserts q es : q_mtx q = Some (Inserting es) → queue_step Inner q (insert_events es q)
  | producer_notifies q : q_mtx q = Some Notifying → queue_step Inner q (notify_waiting q)
  | terminates q q' : terminate q q' → queue_step Call q q'
  | spurious q : q_worker q = WWait → queue_step Spurious q (at_pc q (q_mtx q) WWoken).

Inductive queue_reachable : GenericEventQueue → Prop :=
  | q_init : queue_reachable GenericEventQueue_init
  | q_step l q q' : queue_reachable q → queue_step l q q' → queue_reachable q'.

(** ** The invariant *)

Definition worker_holds (w : worker_pc) : bool :=
  match w with WIf | WPred | WDoneTest | WTake | WNotify _ => true | _ => false end.

Definition batch (w : worker_pc) : list EventT :=
  match w with WNotify es | WRun es => es | _ => [] end.

(** The worker has the mutex where the code holds it; every added event was
    handled, is in the batch, or is queued, in the order of the additions; and
    the worker waits only while there is nothing to do, unless a producer is
    about to notify it. *)
Record QueueInv (q : GenericEventQueue) : Prop := {
  qi_holds : q_mtx q = Some Worker ↔ worker_holds (q_worker q) = true;
  qi_fifo : q_added q = q_handled q ++ batch (q_worker q) ++ events q;
  qi_wait : q_worker q = WWait →
    done_flag q = false ∧ (events q = [] ∨ q_mtx q = Some Notifying);
  qi_done : q_worker q = WEnd → done_flag q = true;
  qi_test : q_worker q = WDoneTest → done_flag q = true ∨ events q ≠ [];
  qi_take : q_worker q = WTake → events q ≠ [];
}.

Lemma run_step_inv q q' : QueueInv q → run_step q = Some q' → QueueInv q'.
Proof.
  intros [Hh Hf Hw Hd Ht Hk] Hs. destruct q as [es d m w ad ha]. unfold run_step in Hs. simpl in *.
  destruct w as [| | | | | | |wl|[|e wl]|]; simpl in *; try done.
  - destruct m; simplify_eq. by split.
  - destruct d, es; simplify_eq; split; simpl; try done; auto.
  - destruct d, es; simplify_eq; split; simpl; try done; auto.
  - destruct m; simplify_eq. by split.
  - destruct d; simplify_eq; split; simpl; try done. intros _. by destruct Ht.
  - simplify_eq. split; simpl; try done. by rewrite app_nil_r.
  - simplify_eq. by split.
  - simplify_eq. by split.
  - simplify_eq. split; simpl; try done. by rewrite <- app_assoc.
Qed.

(** No one else runs where the worker holds the mutex. *)
Lemma not_holding q m : QueueInv q → q_mtx q = m → m ≠ Some Worker → worker_holds (q_worker q) = false.
Proof.
  intros I <- Hm. destruct (worker_holds (q_worker q)) eqn:Hw; [|done]. by apply (qi_holds _ I) in Hw.
Qed.

Lemma queue_inv q : queue_reachable q → QueueInv q.
Proof using terminate_sets.
  induction 1 as [|l q q' _ I Hstep]; [by split|].
  destruct Hstep as [q q' Hs|q es Hm|q es Hm|q Hm|q q' Ht|q Hw].
  - by eapply run_step_inv.
  - pose proof (not_holding q _ I Hm) as Hn. destruct I as [Hh Hf Hw Hd Ht Hk].
    split; simpl; try done; [rewrite Hn by done; naive_solver|]. intros Hww. naive_solver.
  - pose proof (not_holding q _ I Hm) as Hn. destruct I as [Hh Hf Hw Hd Ht Hk].
    split; simpl; [rewrite Hn by done; naive_solver|by rewrite Hf, !app_assoc|naive_solver|done|..];
      intros Hp; by rewrite Hp in Hn; specialize (Hn ltac:(done)).
  - pose proof (not_holding q _ I Hm) as Hn. destruct I as [Hh Hf Hw Hd Ht Hk].
    destruct q as [es d m w ad ha]. simpl in *. subst m. specialize (Hn ltac:(done)).
    by destruct w; try discriminate Hn; split; simpl in *; try done.
  - destruct (terminate_sets _ _ Ht) as [Hm ->].
    pose proof (not_holding q _ I Hm) as Hn. destruct I as [Hh Hf Hw Hd Ht' Hk].
    destruct q as [es d m w ad ha]. simpl in *. subst m. specialize (Hn ltac:(done)).
    by destruct w; try discriminate Hn; split; simpl in *; try done.
  - destruct I as [Hh Hf Hww Hd Ht Hk]. rewrite Hw in *. by split.
Qed.

(** ** Termination *)

(** The steps the worker has left in its iteration, with its batch; those of
    the mutex's holder; ten for every queued event. *)
Definition worker_left (w : worker_pc) : nat :=
  match w with
  | WLock => 9 | WIf => 8 | WPred => 7 | WWait => 0 | WWoken => 8 | WDoneTest => 6 | WTake => 5
  | WNotify es => 11 + length es | WRun es => 10 + length es | WEnd => 0
  end.
Definition holder_left (m : option holder) : nat :=
  match m with Some (Inserting es) => 10 + 10 * length es | Some Notifying => 9 | _ => 0 end.
Definition queue_left (q : GenericEventQueue) : nat :=
  worker_left (q_worker q) + holder_left (q_mtx q) + 10 * length (events q).

Lemma run_step_left q q' : QueueInv q → run_step q = Some q' → queue_left q' < queue_left q.
Proof.
  intros [Hh _ _ _ _ Hk] Hs. destruct q as [es d m w ad ha]. unfold run_step, queue_left in *. simpl in *.
  destruct w as [| | | | | | |wl|[|e wl]|]; simpl in *; try done;
    try (assert (m = Some Worker) as -> by by apply Hh).
  - destruct m; simplify_eq/=. lia.
  - destruct d, es; simplify_eq/=; lia.
  - destruct d, es; simplify_eq/=; lia.
  - destruct m; simplify_eq/=. lia.
  - destruct d; simplify_eq/=; lia.
  - simplify_eq/=. destruct es; [by destruct Hk|]. simpl. lia.
  - simplify_eq/=. lia.
  - simplify_eq/=. lia.
  - simplify_eq/=. lia.
Qed.

Lemma inner_left q q' : QueueInv q → queue_step Inner q q' → queue_left q' < queue_left q.
Proof.
  intros I Hs. inversion Hs as [? ? Hr| |? es Hm|? Hm| |]; subst; [by apply run_step_left|..];
    unfold queue_left; simpl; rewrite Hm; simpl.
  - rewrite length_app. lia.
  - destruct (q_worker q); simpl; lia.
Qed.

(** Nothing is stuck: without a step left, the worker has ended, or it waits and
    has handled everything. *)
Definition at_rest (q : GenericEventQueue) : Prop :=
  (done_flag q = true ∧ q_worker q = WEnd) ∨
  (done_flag q = false ∧ q_worker q = WWait ∧ q_handled q = q_added q).

Lemma inner_progress q : QueueInv q → at_rest q ∨ ∃ q', queue_step Inner q q'.
Proof.
  intros I. destruct (q_mtx q) as [[| |]|] eqn:Hm.
  - right. apply (qi_holds _ I) in Hm. destruct (run_step q) as [q'|] eqn:Hs; [eexists; by constructor|].
    unfold run_step in Hs. destruct (q_worker q) as [| | | | | | | |[]|]; done.
  - right. eexists. by apply producer_inserts.
  - right. eexists. by apply producer_notifies.
  - destruct (run_step q) as [q'|] eqn:Hs; [right; eexists; by constructor|]. left.
    unfold run_step in Hs. rewrite Hm in Hs.
    destruct (q_worker q) as [| | | | | | | |[]|] eqn:Hw; try done.
    + right. destruct (qi_wait _ I Hw) as [Hd [He|He]]; [|by rewrite Hm in He].
      split_and!; [done..|]. by rewrite (qi_fifo _ I), Hw, He, app_nil_r.
    + left. split; [by apply (qi_done _ I)|done].
Qed.

(** Steps of the worker and of producers past their lock: boundedly many, up to
    a state at rest. *)
Lemma queue_runs q q' n :
  queue_reachable q → nsteps (queue_step Inner) n q q' →
  queue_reachable q' ∧ n + queue_left q' ≤ queue_left q ∧ (at_rest q' ∨ ∃ q'', queue_step Inner q' q'').
Proof using terminate_sets.
  intros Hr Hn. revert Hr. induction Hn as [q|n q q1 q' H1 Hn IH]; intros Hr.
  - split_and!; [done|done|]. by apply inner_progress, queue_inv.
  - pose proof (inner_left _ _ (queue_inv _ Hr) H1) as Hlt.
    destruct IH as (? & Hle & ?); [by eapply q_step|]. split_and!; [done|lia|done].
Qed.
End event_queue.

Arguments GenericEventQueue : clear implicits.
Arguments worker_pc : clear implicits.
Arguments holder : clear implicits.
