(* ===== verification/Safety.v ===== *)
(** * The safety argument

    The abstract contract of the protocol, over block hashes: a tree of headers,
    a log of the votes honest replicas have signed, certified blocks, and the
    rules every honest vote obeys.  From the rules alone: two blocks that head a
    certified chain of direct parents never conflict.  ReplicaInv.v and
    Network.v show that replicas running the code of hotstuff/consensus.cc obey
    the rules. *)

From S2P Require Import Prelude Types ReplicaConfig.

Section tree.
(** The headers in circulation, by hash: one header per hash. *)
Variable U : Hash → option HotstuffBlockHeader.

Definition just_of (hd : HotstuffBlockHeader) : Hash := qcw_justify (header_qc hd).

(** [anc a b]: [a] is [b] or one of its ancestors. *)
Inductive anc (a : Hash) : Hash → Prop :=
  | anc_refl : anc a a
  | anc_step b hd : U b = Some hd → anc a (parent_hash hd) → anc a b.

(** [ht b n]: following parents from [b] reaches the genesis block in [n]
    steps. *)
Inductive ht : Hash → N → Prop :=
  | ht_genesis : ht zero_hash 0
  | ht_step b hd n : U b = Some hd → ht (parent_hash hd) n → ht b (n + 1).

Hypothesis U_zero : U zero_hash = None.

Lemma anc_trans a b c : anc a b → anc b c → anc a c.
Proof. intros Hab Hbc. induction Hbc; [done|]. by eapply anc_step. Qed.

Lemma anc_parent b hd : U b = Some hd → anc (parent_hash hd) b.
Proof. intros. eapply anc_step; [done|apply anc_refl]. Qed.

Lemma ht_fun b n m : ht b n → ht b m → n = m.
Proof.
  intros Hn. revert m. induction Hn as [|b hd n Hb _ IH]; intros m Hm.
  - inversion Hm; [done|congruence].
  - inversion Hm as [|b' hd' m' Hb']; subst; [congruence|].
    rewrite Hb in Hb'. simplify_eq. f_equal. by apply IH.
Qed.

Lemma ht_zero b : ht b 0 → b = zero_hash.
Proof. inversion 1; [done|lia]. Qed.

Lemma anc_ht_le a b n m : anc a b → ht a n → ht b m → (n ≤ m)%N.
Proof.
  intros Hanc. revert m. induction Hanc as [|b hd Hb Hanc IH]; intros m Ha Hm.
  - by rewrite (ht_fun _ _ _ Ha Hm).
  - inversion Hm as [|b' hd' m' Hb']; subst; [congruence|].
    rewrite Hb in Hb'. simplify_eq. specialize (IH m' Ha). 
    assert (n ≤ m')%N by auto. lia.
Qed.

Lemma anc_ht_eq a b n : anc a b → ht a n → ht b n → a = b.
Proof.
  intros Hanc Ha Hb. destruct Hanc as [|b hd HU Hanc]; [done|].
  inversion Hb as [|b' hd' m' Hb']; subst; [congruence|].
  rewrite HU in Hb'. simplify_eq. pose proof (anc_ht_le _ _ _ _ Hanc Ha H). lia.
Qed.

(** An ancestor of a block that has a height has one too. *)
Lemma anc_has_ht a b m : anc a b → ht b m → ∃ n, ht a n.
Proof.
  intros Hanc. revert m. induction Hanc as [|b hd HU Hanc IH]; intros m Hb; [eauto|].
  inversion Hb as [|b' hd' m' Hb']; subst; [congruence|].
  rewrite HU in Hb'. simplify_eq. eauto.
Qed.

(** Two ancestors of one block are on one branch. *)
Lemma anc_linear a b c : anc a c → anc b c → anc a b ∨ anc b a.
Proof.
  intros Ha. revert b. induction Ha as [|c hd HU Ha IH]; intros b Hb; [auto|].
  inversion Hb as [|c' hd' HU']; subst.
  - left. by eapply anc_step.
  - rewrite HU in HU'. simplify_eq. by apply IH.
Qed.

Lemma anc_linear_le a b c n m :
  anc a c → anc b c → ht a n → ht b m → (n ≤ m)%N → anc a b.
Proof.
  intros Hac Hbc Ha Hb Hle. destruct (anc_linear _ _ _ Hac Hbc) as [|Hba]; [done|].
  pose proof (anc_ht_le _ _ _ _ Hba Hb Ha). assert (n = m) as -> by lia.
  rewrite (anc_ht_eq _ _ _ Hba Hb Ha). apply anc_refl.
Qed.

(** ** Votes and certificates *)

Variables (cfg : ReplicaConfig) (B : gset ReplicaID).

(** The votes honest replicas have signed, newest first. *)
Abbreviation log := (list (ReplicaID * Hash)).

Definition honest (r : ReplicaID) : Prop := r ∈ replicas cfg ∧ r ∉ B.

(** A quorum of replicas in which every honest one has voted. *)
Definition certified (G : log) (h : Hash) : Prop :=
  h = zero_hash ∨
  ∃ Q : gset ReplicaID, Q ⊆ replicas cfg ∧ (nmajority cfg ≤ N.of_nat (size Q))%N ∧
    ∀ r, r ∈ Q → r ∉ B → (r, h) ∈ G.

Lemma certified_mono G G' h : certified G h → (∀ x, x ∈ G → x ∈ G') → certified G' h.
Proof. intros [->|(Q & HQ & Hs & Hr)] Hsub; [by left|right]. exists Q. eauto. Qed.

(** The rules of an honest vote by [r] on [w], given the votes before it. *)
Record vote_ok (G : log) (r : ReplicaID) (w : Hash) : Prop := {
  vo_header : ∃ hd, U w = Some hd ∧ certified G (just_of hd) ∧ anc (just_of hd) w;
  vo_height : ∃ n, ht w n;
  vo_increasing : ∀ v n m, (r, v) ∈ G → ht v n → ht w m → (n < m)%N;
  vo_lock : ∃ L l, certified G L ∧ ht L l ∧
    (∀ v hv hj j n, (r, v) ∈ G → U v = Some hv → U (just_of hv) = Some hj →
       just_of hj = j → ht j n → (n ≤ l)%N) ∧
    ((∃ hd m, U w = Some hd ∧ ht (just_of hd) m ∧ (l < m)%N) ∨ anc L w);
}.

(** Every vote in the log was cast by the rules. *)
Fixpoint log_ok (G : log) : Prop :=
  match G with
  | [] => True
  | (r, w) :: G => vote_ok G r w ∧ log_ok G
  end.

Lemma log_ok_suffix G1 G2 : log_ok (G1 ++ G2) → log_ok G2.
Proof. induction G1 as [|[r w] G1 IH]; simpl; [done|]. intros [_ ?]. auto. Qed.

Lemma log_ok_vote G1 r w G2 : log_ok (G1 ++ (r, w) :: G2) → vote_ok G2 r w.
Proof. intros Hl%log_ok_suffix. apply Hl. Qed.

Lemma log_ok_ht G r w : log_ok G → (r, w) ∈ G → ∃ n, ht w n.
Proof.
  intros Hl (G1 & G2 & ->)%list_elem_of_split. apply log_ok_vote in Hl. apply Hl.
Qed.

(** An honest replica's votes have distinct heights: one vote per height. *)
Lemma vote_once G r v w n :
  log_ok G → (r, v) ∈ G → (r, w) ∈ G → ht v n → ht w n → v = w.
Proof.
  induction G as [|[r' u] G IH]; simpl; [set_solver|].
  intros [Hv Hl] H1 H2 Hn Hm.
  apply elem_of_cons in H1 as [H1|H1], H2 as [H2|H2]; simplify_eq; try done.
  - pose proof (vo_increasing _ _ _ Hv _ _ _ H2 Hm Hn). lia.
  - pose proof (vo_increasing _ _ _ Hv _ _ _ H1 Hn Hm). lia.
  - by apply IH.
Qed.

(** ** Commitment *)

(** [b0 <- b1 <- b2], direct parents each certified by its child, and [b2]
    certified: what [update] requires before it commits [b0]. *)
Definition three_chain (G : log) (b0 b1 b2 : Hash) : Prop :=
  ∃ h1 h2, U b2 = Some h2 ∧ parent_hash h2 = b1 ∧ just_of h2 = b1 ∧
    U b1 = Some h1 ∧ parent_hash h1 = b0 ∧ just_of h1 = b0 ∧ certified G b2.

Definition committed (G : log) (b : Hash) : Prop :=
  b = zero_hash ∨ ∃ b1 b2, three_chain G b b1 b2.

Lemma committed_mono G G' b : committed G b → (∀ x, x ∈ G → x ∈ G') → committed G' b.
Proof.
  intros [->|(b1 & b2 & h1 & h2 & H)] Hsub; [by left|right].
  exists b1, b2, h1, h2. destruct_and!. split_and!; try done. by eapply certified_mono.
Qed.

Hypothesis cfg_wf : config_wf cfg.
Hypothesis few_faulty :
  (N.of_nat (size B) < nreplicas cfg - 2 * (nreplicas cfg / 3))%N.

(** Two certificates share an honest voter. *)
Lemma certified_meet G G' v w :
  certified G v → certified G' w → v ≠ zero_hash → w ≠ zero_hash →
  ∃ r, r ∉ B ∧ (r, v) ∈ G ∧ (r, w) ∈ G'.
Proof.
  intros [?|(Q & HQ & Hs & Hr)] [?|(Q' & HQ' & Hs' & Hr')] Hv Hw; [done..|].
  destruct (quorum_honest cfg Q Q' B) as (r & H1 & H2 & H3); auto.
  exists r. auto.
Qed.

(** At most one certified block per height. *)
Lemma certified_unique G v w n :
  log_ok G → certified G v → certified G w → ht v n → ht w n → v = w.
Proof.
  intros Hl Hv Hw Hn Hm.
  destruct (decide (v = zero_hash)) as [->|Hvz], (decide (w = zero_hash)) as [->|Hwz];
    [done|..].
  - assert (n = 0%N) as -> by (eapply ht_fun; [exact Hn|constructor]).
    by rewrite (ht_zero _ Hm).
  - assert (n = 0%N) as -> by (eapply ht_fun; [exact Hm|constructor]).
    by rewrite (ht_zero _ Hn).
  - destruct (certified_meet _ _ _ _ Hv Hw Hvz Hwz) as (r & _ & H1 & H2).
    by eapply vote_once.
Qed.

(** A certified block's own certificate is on a certified ancestor. *)
Lemma certified_just G w hd :
  log_ok G → certified G w → U w = Some hd →
  certified G (just_of hd) ∧ anc (just_of hd) w.
Proof.
  intros Hl Hw HU. assert (Hz : w ≠ zero_hash) by (intros ->; congruence).
  destruct (certified_meet _ _ _ _ Hw Hw Hz Hz) as (r & _ & Hr & _).
  apply list_elem_of_split in Hr as (G1 & G2 & ->).
  destruct (vo_header _ _ _ (log_ok_vote _ _ _ _ Hl)) as (hd' & HU' & Hc & Ha).
  rewrite HU in HU'. simplify_eq. split; [|done].
  eapply certified_mono; [done|]. set_solver.
Qed.

Lemma certified_ht G w : log_ok G → certified G w → ∃ n, ht w n.
Proof.
  intros Hl Hw. destruct (decide (w = zero_hash)) as [->|Hz]; [eexists; constructor|].
  destruct (certified_meet _ _ _ _ Hw Hw Hz Hz) as (r & _ & Hr & _).
  by eapply log_ok_ht.
Qed.

Section one_commit.
Context (G : log) (Hlog : log_ok G) (b0 b1 b2 : Hash) (k : N).
Hypothesis (Hchain : three_chain G b0 b1 b2) (Hk : ht b0 k).

Lemma chain_certified : certified G b0 ∧ certified G b1 ∧ certified G b2.
Proof using All.
  destruct Hchain as (h1 & h2 & H2 & Hp2 & Hj2 & H1 & Hp1 & Hj1 & Hc).
  destruct (certified_just _ _ _ Hlog Hc H2) as [Hc1 _]. rewrite Hj2 in Hc1.
  destruct (certified_just _ _ _ Hlog Hc1 H1) as [Hc0 _]. rewrite Hj1 in Hc0. done.
Qed.

Lemma chain_heights : ht b1 (k + 1) ∧ ht b2 (k + 2).
Proof using All.
  destruct Hchain as (h1 & h2 & H2 & Hp2 & Hj2 & H1 & Hp1 & Hj1 & Hc).
  assert (Hb1 : ht b1 (k + 1)) by (eapply ht_step; [done|by rewrite Hp1]).
  split; [done|]. replace (k + 2)%N with (k + 1 + 1)%N by lia.
  eapply ht_step; [done|by rewrite Hp2].
Qed.

Lemma chain_anc : anc b0 b1 ∧ anc b0 b2.
Proof using All.
  destruct Hchain as (h1 & h2 & H2 & Hp2 & Hj2 & H1 & Hp1 & Hj1 & Hc).
  assert (anc b0 b1) by (rewrite <- Hp1; by apply anc_parent).
  split; [done|]. eapply anc_trans; [done|]. rewrite <- Hp2. by apply anc_parent.
Qed.

(** Within three blocks of [b0], certified blocks are the chain's own. *)
Lemma near_commit w n :
  certified G w → ht w n → (k ≤ n ≤ k + 2)%N → anc b0 w.
Proof using All.
  intros Hw Hn Hle. destruct chain_certified as (Hc0 & Hc1 & Hc2).
  destruct chain_heights as [Hh1 Hh2]. destruct chain_anc as [Ha1 Ha2].
  assert (n = k ∨ n = k + 1 ∨ n = k + 2)%N as [->|[->| ->]] by lia.
  - rewrite (certified_unique _ _ _ _ Hlog Hw Hc0 Hn Hk). constructor.
  - by rewrite (certified_unique _ _ _ _ Hlog Hw Hc1 Hn Hh1).
  - by rewrite (certified_unique _ _ _ _ Hlog Hw Hc2 Hn Hh2).
Qed.

(** The honest voter shared with [b2] voted for [b2] first, so its lock was
    at least at [b0] when it voted for [w]. *)
Lemma far_vote G1 r w n G2 :
  G = G1 ++ (r, w) :: G2 → (r, b2) ∈ G → ht w n → (k + 2 < n)%N → (r, b2) ∈ G2.
Proof using All.
  intros Heq Hr Hn Hlt. destruct chain_heights as [_ Hh2].
  rewrite Heq in Hr. apply elem_of_app in Hr as [Hr|Hr].
  - apply list_elem_of_split in Hr as (Ga & Gb & ->).
    rewrite <- app_assoc in Heq. simpl in Heq.
    pose proof Hlog as Hv. rewrite Heq in Hv. apply log_ok_vote in Hv.
    assert (n < k + 2)%N; [|lia].
    eapply (vo_increasing _ _ _ Hv w); [set_solver|done|done].
  - apply elem_of_cons in Hr as [Hr|Hr]; [|done]. simplify_eq.
    rewrite (ht_fun _ _ _ Hn Hh2) in Hlt. lia.
Qed.

(** Every certified block at or above [b0]'s height extends [b0]. *)
Lemma commit_extends_suffix m : ∀ G1 G2 w n,
  length G2 < m → G = G1 ++ G2 → certified G2 w → ht w n → (k ≤ n)%N → anc b0 w.
Proof using All.
  induction m as [|m IH]; [lia|]. intros G1 G2 w n Hlen Heq Hw Hn Hle.
  assert (HwG : certified G w) by (eapply certified_mono; [done|]; set_solver).
  destruct (decide (n ≤ k + 2)%N) as [?|Hfar]; [by eapply near_commit|].
  destruct chain_certified as (_ & _ & Hc2).
  assert (Hwz : w ≠ zero_hash).
  { intros ->. rewrite (ht_fun _ _ _ Hn ht_genesis) in Hfar. lia. }
  assert (Hbz : b2 ≠ zero_hash).
  { destruct Hchain as (h1 & h2 & H2 & _). intros ->. congruence. }
  destruct (certified_meet _ _ _ _ Hc2 Hw Hbz Hwz) as (r & _ & Hr2 & Hrw).
  apply list_elem_of_split in Hrw as (Ga & Gb & ->). rewrite app_assoc in Heq.
  assert (Hr2b : (r, b2) ∈ Gb) by (eapply far_vote; [done..|lia]).
  pose proof Hlog as Hv. rewrite Heq in Hv. apply log_ok_vote in Hv.
  rewrite length_app in Hlen. simpl in Hlen.
  assert (Hrec : ∀ x i, certified Gb x → ht x i → (k ≤ i)%N → anc b0 x).
  { intros x i. apply (IH ((G1 ++ Ga) ++ [(r, w)]) Gb); [lia|].
    by rewrite <- app_assoc. }
  destruct (vo_lock _ _ _ Hv) as (L & l & HL & Hl & Hlocked & Hor).
  assert (Hkl : (k ≤ l)%N).
  { destruct Hchain as (h1 & h2 & H2 & Hp2 & Hj2 & H1 & Hp1 & Hj1 & _).
    eapply (Hlocked b2 h2 h1 b0); try done. by rewrite Hj2. }
  destruct Hor as [(hd & j & HU & Hj & Hlt)|HLw].
  - destruct (vo_header _ _ _ Hv) as (hd' & HU' & Hc & Ha).
    rewrite HU in HU'. simplify_eq. eapply anc_trans; [|exact Ha].
    eapply Hrec; [done..|lia].
  - eapply anc_trans; [|exact HLw]. by eapply Hrec.
Qed.
End one_commit.

Lemma commit_extends G b w k n :
  log_ok G → committed G b → certified G w → ht b k → ht w n → (k ≤ n)%N → anc b w.
Proof.
  intros Hl [->|(b1 & b2 & Hch)] Hw Hk Hn Hle.
  - clear -Hn. induction Hn; [constructor|by eapply anc_step].
  - eapply (commit_extends_suffix G Hl b b1 b2 k Hch Hk (S (length G)) [] G); eauto.
Qed.

Lemma committed_certified G b : log_ok G → committed G b → certified G b.
Proof.
  intros Hl [->|(b1 & b2 & Hch)]; [by left|].
  destruct Hch as (h1 & h2 & H2 & Hp2 & Hj2 & H1 & Hp1 & Hj1 & Hc).
  destruct (certified_just _ _ _ Hl Hc H2) as [Hc1 _]. rewrite Hj2 in Hc1.
  destruct (certified_just _ _ _ Hl Hc1 H1) as [Hc0 _]. by rewrite Hj1 in Hc0.
Qed.

(** Two committed blocks are on one branch. *)
Lemma committed_agree G a b : log_ok G → committed G a → committed G b → anc a b ∨ anc b a.
Proof.
  intros Hl Ha Hb.
  pose proof (committed_certified _ _ Hl Ha) as Hca.
  pose proof (committed_certified _ _ Hl Hb) as Hcb.
  destruct (certified_ht _ _ Hl Hca) as [n Hn], (certified_ht _ _ Hl Hcb) as [m Hm].
  destruct (decide (n ≤ m)%N).
  - left. by eapply commit_extends.
  - right. eapply commit_extends; try done. lia.
Qed.
End tree.
