(* ===== verification/ReplicaInv.v ===== *)
(** * What a replica maintains

    The invariant of one honest replica running the handlers of Consensus.v on
    a well-formed block store, and the proof that every handler keeps it and
    votes only by the rules of Safety.v.  The invariant is relative to the log
    [G] of all votes honest replicas have signed; it also shows that the core
    never follows a null pointer, that its loops end, and that "safety breached"
    is never thrown. *)

From S2P Require Import Prelude Types ReplicaConfig Certs IoUtils Block BlockStore Lmdb.
From S2P Require Import Consensus Safety.

Definition safety_breached : fault := Exn (RuntimeError "safety breached").

(** ** What may stop a replica from outside

    libsodium fails, a file cannot be written, a received certificate names a
    signer outside the configuration, or a member has an id that does not fit
    the bitmaps. *)

Section outside.
Context {i_sodium : Sodium} {i_fs : Fs} (cfg : ReplicaConfig).

Inductive outside : fault → Prop :=
  | out_hash m : crypto_generichash m = None →
      outside (Exn (RuntimeError "error in crypto_generichash"))
  | out_sign m sk : crypto_sign_detached m sk = None →
      outside (Exn (RuntimeError "failed to sign message"))
  | out_file f : fopen_w_ok f = false →
      outside (Exn (RuntimeError ("failed to save file" +:+ f)))
  | out_signer rid : rid ∉ replicas cfg → outside (Exn (RuntimeError (rid_not_found rid)))
  | out_id rid : rid ∈ replicas cfg → (MAX_REPLICAS ≤ rid)%N →
      outside (Exn (InvalidArgument "invalid replica id")).

Lemma outside_no_breach : ¬ outside safety_breached.
Proof. inversion 1. Qed.
End outside.

(** ** What the derived class promises to the core

    The virtual methods do not touch the block cache, only [do_vote] signs, and
    it signs exactly the block's hash; [signed] is the history of signatures,
    newest first.  They stop only with the faults of [env_fault], voting only
    for a replica that can be reached ([env_reaches]). *)

Class CoreLaws {i_sodium : Sodium} {i_xdr : Xdr} {i_bv : BitVector} {i_fs : Fs} {i_lmdb : LmdbLib} (E : Type) {i_virt : CoreVirtuals E} := {
  env_store : E → BlockStore;
  signed : E → list Hash;
  env_fault : fault → Prop;
  env_reaches : E → ReplicaID → Prop;
  env_same (e e' : E) : Prop :=
    block_cache (env_store e') = block_cache (env_store e) ∧ signed e' = signed e;
  quiet {A} (m : M E A) : Prop := ∀ e,
    wp m (λ _, env_same e) (λ f e', env_same e e' ∧ env_fault f) e;
  do_vote_law : ∀ h p r b e, h !! p = Some b → env_reaches e r →
    wp (do_vote h p r)
      (λ _ e', block_cache (env_store e') = block_cache (env_store e) ∧
               signed e' = get_hash b :: signed e)
      (λ f e', block_cache (env_store e') = block_cache (env_store e) ∧
               (signed e' = signed e ∨ signed e' = get_hash b :: signed e) ∧
               env_fault f) e;
  on_new_qc_law : ∀ h, quiet (on_new_qc h);
  apply_block_law : ∀ h p tx, is_Some (h !! p) → quiet (apply_block h p tx);
  notify_commitment_law : ∀ h p, is_Some (h !! p) → quiet (notify_vm_of_commitment h p);
  notify_nonself_law : ∀ h p, quiet (notify_vm_of_qc_on_nonself_block h p);
  notify_prune_law : ∀ n, quiet (notify_ok_to_prune_blocks n);
}.

Section tree.
Context {i_sodium : Sodium} {i_xdr : Xdr} {i_bv : BitVector}.
Context (U : Hash → option HotstuffBlockHeader) (cfg : ReplicaConfig) (B : gset ReplicaID).
Hypothesis U_zero : U zero_hash = None.

(** A block in the tree: the genesis block, or a linked one. *)
Definition node (g : loc) (t : tree) (c : gmap Hash loc) (p : loc) (k : Skel) : Prop :=
  t !! p = Some k ∧ (p = g ∨ linked t c k).

(** The tree against the headers in circulation and the votes. *)
Record TreeInv (G : list (ReplicaID * Hash)) (g : loc) (t : tree) (c : gmap Hash loc)
  : Prop := {
  ti_wf : tree_wf g t c;
  ti_U : ∀ p k, t !! p = Some k → p ≠ g → U (sk_hash k) = Some (sk_header k);
  ti_ht : ∀ p k, node g t c p k → ht U (sk_hash k) (sk_height k);
  ti_bound : ∀ p k, t !! p = Some k → (sk_height k < 2 ^ 32)%N;
  ti_just : ∀ p k, t !! p = Some k → linked t c k →
    anc U (just_of (sk_header k)) (parent_hash (sk_header k)) ∧
    certified cfg B G (just_of (sk_header k));
}.

Section with_tree.
Context (G : list (ReplicaID * Hash)) (g : loc) (t : tree) (c : gmap Hash loc).
Hypothesis T : TreeInv G g t c.

Lemma node_genesis : node g t c g (skel genesis_block).
Proof using T U_zero. split; [apply (tw_genesis _ _ _ (ti_wf _ _ _ _ T))|by left]. Qed.

Lemma node_fun p k k' : node g t c p k → node g t c p k' → k = k'.
Proof. intros [? _] [? _]. congruence. Qed.

(** A pointer out of the cache is a node with that hash. *)
Lemma cached_node h p : c !! h = Some p → ∃ k, node g t c p k ∧ sk_hash k = h.
Proof using T U_zero.
  intros Hp. destruct (tw_cached _ _ _ (ti_wf _ _ _ _ T) _ _ Hp) as (k & ? & ? & ?).
  exists k. by split.
Qed.

(** And a node's hash is in the cache, if under another pointer. *)
Lemma node_in_cache p k : node g t c p k → is_Some (c !! sk_hash k).
Proof using T U_zero.
  intros [Hk [->|Hl]]; [|by apply (tw_stored _ _ _ (ti_wf _ _ _ _ T) p)].
  rewrite (tw_genesis _ _ _ (ti_wf _ _ _ _ T)) in Hk. injection Hk as <-.
  exists g. apply (tw_zero _ _ _ (ti_wf _ _ _ _ T)).
Qed.

Lemma node_cached_hash h p k : c !! h = Some p → node g t c p k → sk_hash k = h.
Proof using T U_zero.
  intros Hp Hk. destruct (cached_node _ _ Hp) as (k' & Hk' & <-).
  by rewrite (node_fun _ _ _ Hk Hk').
Qed.

(** A linked block's parent and justified block. *)
Lemma linked_parent p k :
  t !! p = Some k → linked t c k →
  ∃ pp pk, sk_parent k = Some pp ∧ node g t c pp pk ∧
    c !! sk_hash pk = Some pp ∧ sk_hash pk = parent_hash (sk_header k) ∧
    sk_height k = (sk_height pk + 1)%N.
Proof using T U_zero.
  intros Hk (pp & pk & jp & jk & Hp & Hpk & Hcp & Hh & _).
  destruct (cached_node _ _ Hcp) as (pk' & Hn & Hhash).
  assert (pk' = pk) as -> by (destruct Hn; congruence).
  exists pp, pk. split_and!; [done|done|by rewrite Hhash|done|].
  rewrite Hh. apply u64_small.
  pose proof (ti_bound _ _ _ _ T _ _ Hpk). change (2 ^ 64)%N with (2 ^ 32 * 2 ^ 32)%N. lia.
Qed.

Lemma linked_justify p k :
  t !! p = Some k → linked t c k →
  ∃ jp jk, sk_justify k = Some jp ∧ node g t c jp jk ∧
    c !! sk_hash jk = Some jp ∧ sk_hash jk = just_of (sk_header k).
Proof using T U_zero.
  intros Hk (pp & pk & jp & jk & _ & _ & _ & _ & Hj & Hjk & Hcj).
  destruct (cached_node _ _ Hcj) as (jk' & Hn & Hhash).
  exists jp, jk'. split_and!; [done|done|by rewrite Hhash|done].
Qed.

Lemma linked_not_genesis p k : t !! p = Some k → linked t c k → p ≠ g.
Proof using T U_zero.
  intros Hk Hl ->. rewrite (tw_genesis _ _ _ (ti_wf _ _ _ _ T)) in Hk. simplify_eq.
  destruct Hl as (? & ? & ? & ? & ? & _). done.
Qed.

Lemma linked_U p k : t !! p = Some k → linked t c k → U (sk_hash k) = Some (sk_header k).
Proof using T U_zero. intros Hk Hl. eapply ti_U; [done..|]. by eapply linked_not_genesis. Qed.

(** A node without a height, or without pointers, is the genesis block. *)
Lemma node_height_pos p k : node g t c p k → (0 < sk_height k)%N → linked t c k.
Proof using T U_zero.
  intros [Hk [->|Hl]] Hpos; [|done].
  rewrite (tw_genesis _ _ _ (ti_wf _ _ _ _ T)) in Hk. by simplify_eq.
Qed.

Lemma node_justify_linked p k j :
  node g t c p k → sk_justify k = Some j → linked t c k.
Proof using T U_zero.
  intros [Hk [->|Hl]] Hj; [|done].
  rewrite (tw_genesis _ _ _ (ti_wf _ _ _ _ T)) in Hk. by simplify_eq.
Qed.

Lemma node_hash_genesis p k : node g t c p k → p = g → sk_hash k = zero_hash.
Proof using T U_zero.
  intros [Hk _] ->. rewrite (tw_genesis _ _ _ (ti_wf _ _ _ _ T)) in Hk. by simplify_eq.
Qed.

(** Two nodes in the cache with one hash are one pointer. *)
Lemma same_pointer p k q k' :
  c !! sk_hash k = Some p → c !! sk_hash k' = Some q → sk_hash k = sk_hash k' → p = q.
Proof. congruence. Qed.

(** ** Walking down parent pointers *)

(** The pointers from [p] (included) down to [q] (excluded). *)
Inductive chain : loc → list loc → loc → Prop :=
  | chain_nil p : chain p [] p
  | chain_cons p k pp l q :
      t !! p = Some k → sk_parent k = Some pp → chain pp l q → chain p (p :: l) q.

Lemma chain_node p l q k :
  chain p l q → node g t c p k → ∃ k', node g t c q k' ∧ anc U (sk_hash k') (sk_hash k).
Proof using T U_zero.
  intros Hc. revert k. induction Hc as [p|p k0 pp l q Hp Hpar Hc IH]; intros k Hk.
  - exists k. split; [done|constructor].
  - destruct Hk as [Hk [->|Hl]].
    { rewrite (tw_genesis _ _ _ (ti_wf _ _ _ _ T)) in Hp. by simplify_eq. }
    assert (k0 = k) as -> by congruence.
    destruct (linked_parent _ _ Hk Hl) as (pp' & pk & Hpp & Hpk & _ & Hhash & _).
    assert (pp' = pp) as -> by congruence. destruct (IH _ Hpk) as (k' & Hk' & Hanc). exists k'. split; [done|].
    eapply anc_step; [by eapply linked_U|]. by rewrite <- Hhash.
Qed.

(** Past the first block, a walk goes through the cache. *)
Lemma chain_cached p l q k k' :
  chain p l q → node g t c p k → node g t c q k' →
  (p = q ∧ l = []) ∨ c !! sk_hash k' = Some q.
Proof using T U_zero.
  intros Hc. revert k. induction Hc as [p|p k0 pp l q Hp Hpar Hc IH]; intros k Hk Hk'.
  - by left.
  - right. destruct Hk as [Hk [->|Hl]].
    { rewrite (tw_genesis _ _ _ (ti_wf _ _ _ _ T)) in Hp. by simplify_eq. }
    assert (k0 = k) as -> by congruence.
    destruct (linked_parent _ _ Hk Hl) as (pp' & pk & Hpp & Hpk & Hc' & _).
    assert (pp' = pp) as -> by congruence. destruct (IH _ Hpk Hk') as [[-> _]|?]; [|done].
    by rewrite (node_fun _ _ _ Hk' Hpk).
Qed.

(** The members of a walk are nodes, ancestors of its start, descendants of
    its end, and strictly above the end. *)
Lemma chain_members p l q k kq x :
  chain p l q → node g t c p k → node g t c q kq → x ∈ l →
  ∃ kx, node g t c x kx ∧ anc U (sk_hash kx) (sk_hash k) ∧
        anc U (sk_hash kq) (sk_hash kx) ∧ (x = p ∨ c !! sk_hash kx = Some x).
Proof using T U_zero.
  intros Hc. revert k. induction Hc as [p|p k0 pp l q Hp Hpar Hc IH];
    intros k Hk Hkq Hx; [set_solver|].
  assert (Hfull : chain p (p :: l) q) by by econstructor.
  assert (Hl : linked t c k).
  { destruct Hk as [Hk [->|Hl]]; [|done].
    rewrite (tw_genesis _ _ _ (ti_wf _ _ _ _ T)) in Hp. by simplify_eq. }
  apply elem_of_cons in Hx as [->|Hx].
  - exists k. split_and!; [done|constructor| |by left].
    destruct (chain_node _ _ _ _ Hfull Hk) as (k' & Hk' & Hanc).
    by rewrite (node_fun _ _ _ Hkq Hk').
  - destruct Hk as [Hk _].
    destruct (linked_parent _ _ Hk Hl) as (pp' & pk & Hpp & Hpk & Hcp & Hhash & _).
    assert (pp' = pp) as -> by congruence.
    destruct (IH _ Hpk Hkq Hx) as (kx & Hkx & Ha1 & Ha2 & Hor).
    exists kx. split_and!; [done| |done|].
    2: { right. destruct Hor as [->|?]; [|done]. by rewrite (node_fun _ _ _ Hkx Hpk). }
    eapply anc_step; [by eapply linked_U|]. by rewrite <- Hhash.
Qed.

(** Every ancestor of the start is on the walk or an ancestor of its end. *)
Lemma chain_complete p l q k kq a :
  chain p l q → node g t c p k → node g t c q kq → anc U a (sk_hash k) →
  anc U a (sk_hash kq) ∨
  ∃ x kx, x ∈ l ∧ node g t c x kx ∧ sk_hash kx = a.
Proof using T U_zero.
  intros Hc. revert k. induction Hc as [p|p k0 pp l q Hp Hpar Hc IH]; intros k Hk Hkq Ha.
  - left. by rewrite (node_fun _ _ _ Hkq Hk).
  - assert (Hl : linked t c k).
    { destruct Hk as [Hk [->|Hl]]; [|done].
      rewrite (tw_genesis _ _ _ (ti_wf _ _ _ _ T)) in Hp. by simplify_eq. }
    pose proof Hk as [Hk' _].
    destruct (linked_parent _ _ Hk' Hl) as (pp' & pk & Hpp & Hpk & _ & Hhash & _).
    assert (pp' = pp) as -> by congruence.
    inversion Ha as [|b hd HU Ha']; subst.
    + right. exists p, k. split_and!; [by left|done|done].
    + rewrite (linked_U _ _ Hk' Hl) in HU. simplify_eq. rewrite <- Hhash in Ha'.
      destruct (IH _ Hpk Hkq Ha') as [?|(x & kx & Hx & Hkx & ?)]; [by left|right].
      exists x, kx. split_and!; [by right|done|done].
Qed.

(** Heights go down by one along a walk. *)
Lemma chain_heights_walk p l q k kq :
  chain p l q → node g t c p k → node g t c q kq →
  sk_height k = (sk_height kq + N.of_nat (length l))%N ∧
  (λ x, sk_height <$> t !! x) <$> rev l =
    (λ i, Some (sk_height kq + 1 + N.of_nat i)%N) <$> seq 0 (length l).
Proof using T U_zero.
  intros Hc. revert k. induction Hc as [p|p k0 pp l q Hp Hpar Hc IH]; intros k Hk Hkq.
  - rewrite (node_fun _ _ _ Hkq Hk). simpl. split; [lia|done].
  - pose proof Hk as [Hk' Hor]. assert (k0 = k) as -> by congruence.
    assert (Hl : linked t c k).
    { destruct Hor as [->|Hl]; [|done].
      rewrite (tw_genesis _ _ _ (ti_wf _ _ _ _ T)) in Hp. by simplify_eq. }
    destruct (linked_parent _ _ Hk' Hl) as (pp' & pk & Hpp & Hpk & _ & _ & Hh).
    assert (pp' = pp) as -> by congruence.
    destruct (IH _ Hpk Hkq) as [Hlen Hs]. cbn [rev length].
    rewrite fmap_app, Hs, seq_S, fmap_app. cbn [fmap list_fmap]. rewrite Hk'. simpl.
    split; [lia|]. do 3 f_equal. lia.
Qed.

Lemma node_linked_dec p k : node g t c p k → p = g ∨ linked t c k.
Proof. by intros [_ ?]. Qed.
End with_tree.
End tree.

(** ** The part of a block the invariant looks at *)

Definition view (b : HotstuffBlock) : Skel * QuorumCertificate * bool :=
  (skel b, self_qc b, decided b).

Lemma view_inv b b' :
  view b = view b' →
  skel b = skel b' ∧ self_qc b = self_qc b' ∧ get_hash b = get_hash b' ∧ decided b = decided b'.
Proof.
  intros Heq. pose proof (f_equal (λ v, v.1.1) Heq) as H1.
  pose proof (f_equal (λ v, v.1.2) Heq) as H2. pose proof (f_equal (λ v, v.2) Heq) as H3.
  simpl in *. unfold get_hash. by rewrite H2.
Qed.

Definition same_view (h h' : heap) : Prop := view <$> h = view <$> h'.

#[export] Instance same_view_equiv : Equivalence same_view.
Proof. split; unfold same_view; [by intros ?|by intros ???|by intros ??? -> ->]. Qed.

Lemma same_view_skel h h' : same_view h h' → same_skel h h'.
Proof.
  unfold same_view, same_skel. intros Heq.
  assert (Hf : ∀ h : heap, skel <$> h = (λ v : Skel * QuorumCertificate * bool, v.1.1) <$> (view <$> h)).
  { intros h0. by rewrite <- map_fmap_compose. }
  by rewrite !Hf, Heq.
Qed.

Lemma same_view_lookup h h' p b :
  same_view h h' → h !! p = Some b → ∃ b', h' !! p = Some b' ∧ view b' = view b.
Proof.
  unfold same_view. intros Heq Hb.
  assert (Hv : (view <$> h') !! p = Some (view b)) by (rewrite <- Heq, lookup_fmap, Hb; done).
  rewrite lookup_fmap in Hv. destruct (h' !! p) as [b'|]; [|done].
  apply (inj Some) in Hv. eauto.
Qed.

Lemma same_view_insert (h : heap) p b b' :
  h !! p = Some b → view b' = view b → same_view (<[p := b']> h) h.
Proof.
  intros Hb Heq. unfold same_view. rewrite fmap_insert, Heq.
  apply insert_id. by rewrite lookup_fmap, Hb.
Qed.

(** ** The loops *)

Section loops.
Context {i_sodium : Sodium} {i_xdr : Xdr} {i_bv : BitVector} {i_fs : Fs} {i_lmdb : LmdbLib} {E : Type} {i_virt : CoreVirtuals E}.
Context (U : Hash → option HotstuffBlockHeader) (cfg : ReplicaConfig) (B : gset ReplicaID).
Hypothesis U_zero : U zero_hash = None.
Context (G : list (ReplicaID * Hash)) (g : loc) (c : gmap Hash loc).

Abbreviation TI t := (TreeInv U cfg B G g t c).

Lemma save_block_faults w info d :
  wp (save_block w info) (λ _ _, True) (λ f _, outside cfg f) d.
Proof.
  unfold save_block, wp, bind, hash_xdr, save_xdr_to_file, throw, ret.
  destruct (crypto_generichash _) eqn:Hh; [|by eapply out_hash].
  destruct (fopen_w_ok _) eqn:Hf; [done|by apply out_file].
Qed.

(** [write_to_disk] ends, and only sets flags and writes files. *)
Lemma write_to_disk_wp fuel info p k h d :
  TI (skel <$> h) → node g (skel <$> h) c p k → N.to_nat (sk_height k) < fuel →
  wp (write_to_disk fuel info p)
    (λ _ hd, same_view hd.1 h)
    (λ f hd, same_view hd.1 h ∧ outside cfg f) (h, d).
Proof using U_zero.
  revert p k h d. induction fuel as [|fuel IH]; intros p k h d T Hk Hlt; [lia|].
  pose proof Hk as [(b & Hb & Hkb)%skel_lookup Hor]. subst k.
  cbn [write_to_disk]. apply wp_bind, wp_gets, wp_bind. simpl.
  unfold deref. rewrite Hb. apply wp_ret.
  destruct (written_to_disk b); [by apply wp_ret|].
  apply wp_bind, wp_modify. simpl.
  set (h1 := <[p := with_written b true]> h).
  assert (Hv : same_view h1 h) by by apply (same_view_insert _ _ b).
  assert (Hs : skel <$> h1 = skel <$> h) by by apply same_view_skel.
  apply wp_bind, wp_zoom. simpl.
  eapply wp_mono; [apply save_block_faults|simpl|simpl; auto].
  intros _ d' _. destruct (parent_block_ptr b) as [pp|] eqn:Hpar; [|by apply wp_ret].
  assert (Hl : linked (skel <$> h) c (skel b)).
  { destruct Hor as [->|?]; [|done].
    pose proof (tw_genesis _ _ _ (ti_wf _ _ _ _ _ _ _ T)) as Hg.
    rewrite lookup_fmap, Hb in Hg. by simplify_eq/=. }
  destruct (linked_parent U cfg B U_zero G g _ c T p (skel b))
    as (pp' & pk & Hpp & Hpk & _ & _ & Hh); [by apply skel_lookup_Some|done|].
  simpl in Hpp. assert (pp' = pp) as -> by congruence.
  eapply wp_mono; [apply (IH pp pk)| |].
  - by rewrite Hs.
  - by rewrite Hs.
  - simpl in *. lia.
  - simpl. intros _ hd Hhd. by etrans.
  - simpl. intros f hd [Hhd ?]. split; [by etrans|done].
Qed.

Lemma collect_commits_spec (s : CoreSt E) fuel p k eh acc :
  TI (skel <$> st_heap s) → node g (skel <$> st_heap s) c p k →
  N.to_nat (sk_height k) < fuel →
  ∃ l q kq, collect_commits fuel (Some p) eh acc s = Ok (acc ++ l, Some q) s ∧
    chain (skel <$> st_heap s) p l q ∧ node g (skel <$> st_heap s) c q kq ∧
    (sk_height kq ≤ eh)%N ∧ (eh ≤ sk_height k → sk_height kq = eh)%N ∧
    (sk_height k ≤ eh → q = p ∧ l = [])%N.
Proof using U_zero.
  intros T. revert p k acc. induction fuel as [|fuel IH]; intros p k acc Hk Hlt; [lia|].
  pose proof Hk as [(b & Hb & Hkb)%skel_lookup Hor]. subst k.
  cbn [collect_commits]. unfold bind at 1, read_ptr, deref_ptr, deref. rewrite Hb.
  simpl. unfold ret at 1. change (get_height b) with (sk_height (skel b)) in *.
  destruct (N.ltb_spec eh (sk_height (skel b))) as [Hgt|Hle].
  - assert (Hl : linked (skel <$> st_heap s) c (skel b))
      by (eapply node_height_pos; [exact U_zero|done|done|lia]).
    destruct (linked_parent U cfg B U_zero G g _ c T p (skel b))
      as (pp & pk & Hpp & Hpk & _ & _ & Hh); [by apply skel_lookup_Some|done|].
    change (get_parent b) with (sk_parent (skel b)). rewrite Hpp.
    destruct (IH pp pk (acc ++ [p])) as (l & q & kq & Hrun & Hc & Hkq & H1 & H2 & H3);
      [done|lia|].
    exists (p :: l), q, kq. rewrite Hrun, <- app_assoc. split_and!; try done.
    + econstructor; [by apply skel_lookup_Some|done|done].
    + intros _. apply H2. lia.
    + intros ?. simpl in *. lia.
  - exists [], p, (skel b). rewrite app_nil_r. split_and!; try done; [apply chain_nil|simpl in *; lia].
Qed.

Lemma walk_down_spec (s : CoreSt E) fuel p k lh :
  TI (skel <$> st_heap s) → node g (skel <$> st_heap s) c p k →
  N.to_nat (sk_height k) < fuel →
  ∃ l q kq, walk_down fuel (Some p) lh s = Ok (Some q) s ∧
    chain (skel <$> st_heap s) p l q ∧ node g (skel <$> st_heap s) c q kq ∧
    (lh ≤ sk_height k → sk_height kq = lh)%N.
Proof using U_zero.
  intros T. revert p k. induction fuel as [|fuel IH]; intros p k Hk Hlt; [lia|].
  pose proof Hk as [(b & Hb & Hkb)%skel_lookup Hor]. subst k.
  cbn [walk_down]. unfold bind at 1, read_ptr, deref_ptr, deref. rewrite Hb.
  simpl. unfold ret at 1. change (get_height b) with (sk_height (skel b)) in *.
  destruct (N.ltb_spec lh (sk_height (skel b))) as [Hgt|Hle].
  - assert (Hl : linked (skel <$> st_heap s) c (skel b))
      by (eapply node_height_pos; [exact U_zero|done|done|lia]).
    destruct (linked_parent U cfg B U_zero G g _ c T p (skel b))
      as (pp & pk & Hpp & Hpk & _ & _ & Hh); [by apply skel_lookup_Some|done|].
    change (get_parent b) with (sk_parent (skel b)). rewrite Hpp.
    destruct (IH pp pk) as (l & q & kq & Hrun & Hc & Hkq & Hq); [done|lia|].
    exists (p :: l), q, kq. split_and!; [done| |done|intros _; apply Hq; lia].
    econstructor; [by apply skel_lookup_Some|done|done].
  - exists [], p, (skel b). split_and!; [done|constructor|done|simpl in *; lia].
Qed.
End loops.

(** ** The invariant *)

Section replica.
Context {i_sodium : Sodium} {i_xdr : Xdr} {i_bv : BitVector} {i_fs : Fs} {i_lmdb : LmdbLib}.
Context {E : Type} {i_virt : CoreVirtuals E} {i_laws : CoreLaws E}.
Context (U : Hash → option HotstuffBlockHeader) (cfg : ReplicaConfig) (B : gset ReplicaID).
Hypothesis U_zero : U zero_hash = None.
Context (r : ReplicaID).

Definition cache (s : CoreSt E) : gmap Hash loc := block_cache (env_store (st_env s)).
Definition votes (s : CoreSt E) : list Hash := signed (st_env s).

(** The faults the core does not cause itself. *)
Definition allowed (f : fault) : Prop := env_fault f ∨ outside cfg f.

(** A node whose pointer is the store's. *)
Definition cnode (g : loc) (t : tree) (c : gmap Hash loc) (p : loc) (k : Skel) : Prop :=
  node g t c p k ∧ c !! sk_hash k = Some p.

(** The certificate being collected on a block holds votes of members, and of
    honest ones only votes they cast. *)
Definition qc_ok (G : list (ReplicaID * Hash)) (b : HotstuffBlock) : Prop :=
  map_wf (sigs (self_qc b)) ∧
  ∀ rid, rid ∈ (sigs (self_qc b)).*1 →
    rid ∈ replicas cfg ∧ (rid ∉ B → (rid, get_hash b) ∈ G).

Record RepInv (G : list (ReplicaID * Hash)) (h : heap) (co : HotstuffCore)
    (c : gmap Hash loc) (sg : list Hash) : Prop := {
  ri_tree : TreeInv U cfg B G (core_genesis co) (skel <$> h) c;
  ri_config : config co = cfg;
  ri_self : self_id co = r ∧ r ∈ replicas cfg;
  ri_lock : ∃ k, cnode (core_genesis co) (skel <$> h) c (b_lock co) k ∧
    certified cfg B G (sk_hash k);
  ri_exec : ∃ k, cnode (core_genesis co) (skel <$> h) c (b_exec co) k ∧
    committed U cfg B G (sk_hash k);
  ri_order : ∀ kl ke, (skel <$> h) !! b_lock co = Some kl →
    (skel <$> h) !! b_exec co = Some ke → (sk_height ke ≤ sk_height kl)%N;
  ri_hqc : ∃ k, node (core_genesis co) (skel <$> h) c (hqc co).1 k ∧
    certified cfg B G (sk_hash k) ∧ qcw_justify (hqc co).2 = sk_hash k;
  ri_leaf : ∃ k kh, node (core_genesis co) (skel <$> h) c (b_leaf co) k ∧
    (skel <$> h) !! (hqc co).1 = Some kh ∧ anc U (sk_hash kh) (sk_hash k);
  ri_decided : ∀ p b ke, h !! p = Some b → decided b = true →
    (skel <$> h) !! b_exec co = Some ke →
    node (core_genesis co) (skel <$> h) c p (skel b) ∧ anc U (get_hash b) (sk_hash ke);
  ri_undecided : ∀ hh p b ke, c !! hh = Some p → h !! p = Some b →
    (skel <$> h) !! b_exec co = Some ke → anc U hh (sk_hash ke) → decided b = true;
  ri_qcs : ∀ p b, h !! p = Some b → qc_ok G b;
  ri_votes : ∀ v, v ∈ sg → ∃ n, ht U v n ∧ (n ≤ vheight co)%N;
  ri_log : ∀ v, v ∈ sg ↔ (r, v) ∈ G;
}.

(** The lock is at least two certificates below every vote. *)
Definition locked_votes (h : heap) (co : HotstuffCore) (sg : list Hash) : Prop :=
  ∀ v hv hj n kl, v ∈ sg → U v = Some hv → U (just_of hv) = Some hj →
    ht U (just_of hj) n → (skel <$> h) !! b_lock co = Some kl → (n ≤ sk_height kl)%N.

(** What is left of the invariant when a replica stops. *)
Definition stopped (G : list (ReplicaID * Hash)) (h : heap) (sg : list Hash) : Prop :=
  (∀ p b, h !! p = Some b → decided b = true →
     ∃ c0, committed U cfg B G c0 ∧ anc U (get_hash b) c0) ∧
  (∀ v, v ∈ sg ↔ (r, v) ∈ G).

Abbreviation RI G s := (RepInv G (st_heap s) (st_core s) (cache s) (votes s)).

Lemma RepInv_stop G h co c sg : RepInv G h co c sg → stopped G h sg.
Proof.
  intros I. split; [|apply (ri_log _ _ _ _ _ I)]. intros p b Hb Hd.
  destruct (ri_exec _ _ _ _ _ I) as (ke & [[Hke _] _] & Hc).
  exists (sk_hash ke). split; [done|]. by eapply (ri_decided _ _ _ _ _ I).
Qed.

Lemma RepInv_stopped G s : RI G s → stopped G (st_heap s) (votes s).
Proof. apply RepInv_stop. Qed.

(** Votes only add to the log. *)
Lemma RepInv_grow G G' h co c sg sg' :
  RepInv G h co c sg → (∀ x, x ∈ G → x ∈ G') →
  (∀ v, v ∈ sg' → ∃ n, ht U v n ∧ (n ≤ vheight co)%N) →
  (∀ v, v ∈ sg' ↔ (r, v) ∈ G') → RepInv G' h co c sg'.
Proof.
  intros [T ???? ? ? ? ? ? Hq ? Hlog] Hsub Hv Hr.
  assert (Hcert : ∀ h, certified cfg B G h → certified cfg B G' h)
    by (intros; by eapply certified_mono).
  split; try done.
  - destruct T as [??? ? Hj]. split; try done. intros p k Hk Hl.
    destruct (Hj p k Hk Hl). auto.
  - naive_solver.
  - destruct ri_exec0 as (k & ? & ?). exists k. split; [done|]. by eapply committed_mono.
  - naive_solver.
  - intros p b Hb. destruct (Hq p b Hb) as [? Hm]. split; [done|]. naive_solver.
Qed.

Lemma RepInv_log_mono G G' s :
  RI G s → (∀ x, x ∈ G → x ∈ G') → (∀ v, (r, v) ∈ G' → (r, v) ∈ G) → RI G' s.
Proof.
  intros I Hsub Hr. eapply RepInv_grow; [done..|apply I|].
  intros v. rewrite (ri_log _ _ _ _ _ I). naive_solver.
Qed.

(** The replica's own vote. *)
Lemma RepInv_vote G h co c sg w n :
  RepInv G h co c sg → ht U w n → (vheight co ≤ n)%N → (n < 2 ^ 32)%N →
  RepInv ((r, w) :: G) h (set_vheight n co) c (w :: sg).
Proof.
  intros I Hw Hle Hn. apply (RepInv_grow G _ _ _ _ sg).
  - destruct I as [???????????  Hv ?]. split; simpl; try done. rewrite u32_small by done.
    intros v Hin. destruct (Hv v Hin) as (m & ? & ?). exists m. split; [done|lia].
  - set_solver.
  - simpl. rewrite u32_small by done. intros v [->|Hin]%elem_of_cons; [eauto|].
    destruct (ri_votes _ _ _ _ _ I v Hin) as (m & ? & ?). exists m. split; [done|lia].
  - intros v. rewrite !elem_of_cons, (ri_log _ _ _ _ _ I). naive_solver.
Qed.

Lemma stopped_log_mono G G' h sg :
  stopped G h sg → (∀ x, x ∈ G → x ∈ G') → (∀ v, (r, v) ∈ G' → (r, v) ∈ G) →
  stopped G' h sg.
Proof.
  intros [Hd Hl] Hsub Hr. split.
  - intros p b Hb Hdb. destruct (Hd p b Hb Hdb) as (c0 & ? & ?). exists c0.
    split; [by eapply committed_mono|done].
  - intros v. rewrite Hl. naive_solver.
Qed.

(** What a handler leaves alone. *)
Definition env_frame (s s' : CoreSt E) : Prop := cache s' = cache s ∧ votes s' = votes s.

Lemma in_env_quiet {A} (m : heap → M E A) s :
  quiet (m (st_heap s)) →
  wp (in_env m)
    (λ _ s', env_frame s s' ∧ st_heap s' = st_heap s ∧ st_core s' = st_core s)
    (λ f s', env_frame s s' ∧ st_heap s' = st_heap s ∧ st_core s' = st_core s ∧
             allowed f) s.
Proof.
  intros Hq. unfold in_env. apply wp_zoom.
  eapply wp_mono; [apply (Hq (st_env s))|..].
  - intros a e [??]. split; [by split|done].
  - intros f e [[??]?]. split; [by split|]. do 2 (split; [done|]). by left.
Qed.

(** ** [update_hqc] *)

Lemma RepInv_set_hqc G h co c sg p k qc :
  RepInv G h co c sg → node (core_genesis co) (skel <$> h) c p k →
  certified cfg B G (sk_hash k) → qcw_justify qc = sk_hash k →
  RepInv G h (set_b_leaf p (set_hqc (p, qc) co)) c sg.
Proof.
  intros [] Hk Hc Hq. split; simpl; try done.
  - by exists k.
  - exists k, k. split; [done|]. split; [by destruct Hk|constructor].
Qed.

Definition hqc_frame (s s' : CoreSt E) : Prop :=
  env_frame s s' ∧ st_heap s' = st_heap s ∧
  core_genesis (st_core s') = core_genesis (st_core s) ∧
  b_lock (st_core s') = b_lock (st_core s) ∧ b_exec (st_core s') = b_exec (st_core s) ∧
  vheight (st_core s') = vheight (st_core s).

Lemma node_lookup g t c p k : node g t c p k → t !! p = Some k.
Proof. by intros [? _]. Qed.

Lemma update_hqc_wp G s p k qc :
  RI G s → node (core_genesis (st_core s)) (skel <$> st_heap s) (cache s) p k →
  certified cfg B G (sk_hash k) → obj_hash qc = sk_hash k →
  wp (update_hqc p qc)
    (λ _ s', RI G s' ∧ hqc_frame s s')
    (λ f s', st_heap s' = st_heap s ∧ votes s' = votes s ∧ allowed f) s.
Proof.
  intros I Hk Hc Hq. pose proof Hk as [(b & Hb & Hkb)%skel_lookup _].
  destruct (ri_hqc _ _ _ _ _ I) as (kh & [(hb & Hhb & _)%skel_lookup _] & _).
  unfold update_hqc. apply wp_bind. unfold read, wp, deref. rewrite Hb. simpl.
  apply wp_bind, wp_gets, wp_bind. unfold wp, deref. rewrite Hhb. simpl.
  destruct (get_height hb <? get_height b)%N.
  - apply wp_bind, wp_modify, wp_bind, wp_modify, wp_bind, wp_gets. simpl.
    assert (I' : RI G (mkSt (st_heap s) (st_disk s)
              (set_b_leaf p (set_hqc (p, serialize qc) (st_core s))) (st_env s))).
    { eapply RepInv_set_hqc; [done|exact Hk|done|]. by rewrite serialize_justify. }
    destruct (negb _); [|by apply wp_ret; split; [done|]].
    eapply wp_mono; [apply in_env_quiet, notify_nonself_law|..]; simpl.
    + intros _ s' ([Hca Hvo] & Hh & Hco). unfold cache, votes in *. simpl in *.
      split; [by rewrite Hca, Hvo, Hh, Hco|]. split; [by split|]. by rewrite Hco.
    + intros f s' ([Hca Hvo] & Hh & Hco & ?). done.
  - apply wp_ret. split; [done|]. by split.
Qed.

(** ** Changes the invariant does not see *)

Lemma RepInv_same_view G h h' co c sg :
  RepInv G h co c sg → same_view h' h → RepInv G h' co c sg.
Proof.
  intros [] Hv. assert (Hs : skel <$> h' = skel <$> h) by by apply same_view_skel.
  assert (Hlk : ∀ p b, h' !! p = Some b → ∃ b', h !! p = Some b' ∧ view b' = view b)
    by (intros; by eapply same_view_lookup).
  split; rewrite ?Hs; try done.
  - intros p b ke Hb Hd Hke. destruct (Hlk _ _ Hb) as (b' & Hb' & Hvb).
    apply view_inv in Hvb as (Hsk & _ & Hgh & Hdec).
    rewrite <- Hsk, <- Hgh. eapply ri_decided0; [done| |done]. congruence.
  - intros hh p b ke Hc Hb Hke Ha. destruct (Hlk _ _ Hb) as (b' & Hb' & Hvb).
    apply view_inv in Hvb as (_ & _ & _ & Hdec). rewrite <- Hdec.
    by eapply ri_undecided0.
  - intros p b Hb. destruct (Hlk _ _ Hb) as (b' & Hb' & Hvb).
    apply view_inv in Hvb as (_ & Hqc & Hgh & _). unfold qc_ok. rewrite <- Hqc, <- Hgh.
    by eapply ri_qcs0.
Qed.

Lemma stopped_same_view G h h' sg : stopped G h sg → same_view h' h → stopped G h' sg.
Proof.
  intros [Hd Hl] Hv. split; [|done]. intros p b Hb Hdb.
  destruct (same_view_lookup _ _ _ _ Hv Hb) as (b' & Hb' & Hvb).
  apply view_inv in Hvb as (_ & _ & Hgh & Hdec). rewrite <- Hgh.
  eapply Hd; [done|congruence].
Qed.

(** ** The commit loop *)

Definition decide_all (h : heap) (ps : list loc) : heap :=
  foldl (λ h p, alter decide_block p h) h ps.

Lemma decide_all_lookup h ps q :
  decide_all h ps !! q =
    (λ b, if decide (q ∈ ps) then decide_block b else b) <$> h !! q.
Proof.
  revert h. unfold decide_all. induction ps as [|p ps IH]; intros h; simpl.
  - by destruct (h !! q).
  - rewrite IH. destruct (decide (p = q)) as [->|Hne].
    + rewrite lookup_alter_eq. destruct (h !! q) as [b|]; simpl; [|done].
      rewrite (decide_True (P := q ∈ q :: ps)) by set_solver. by case_decide.
    + rewrite lookup_alter_ne by done. destruct (h !! q) as [b|]; simpl; [|done].
      f_equal. destruct (decide (q ∈ ps)), (decide (q ∈ p :: ps)); set_solver.
Qed.

Lemma decide_all_inv h ps q b' :
  decide_all h ps !! q = Some b' →
  ∃ b, h !! q = Some b ∧ skel b' = skel b ∧ self_qc b' = self_qc b ∧
    (decided b' = true ↔ decided b = true ∨ q ∈ ps).
Proof.
  rewrite decide_all_lookup. destruct (h !! q) as [b|]; simpl; [|done].
  intros ?. simplify_eq. exists b. case_decide; simpl; naive_solver.
Qed.

Lemma decide_all_skel h ps : skel <$> decide_all h ps = skel <$> h.
Proof.
  apply map_eq. intros q. rewrite !lookup_fmap, decide_all_lookup.
  destruct (h !! q) as [b|]; simpl; [|done]. by case_decide.
Qed.

Lemma commit_blocks_wp queue tx s :
  (∀ p, p ∈ queue → is_Some (st_heap s !! p)) →
  wp (commit_blocks queue tx)
    (λ _ s', env_frame s s' ∧ st_core s' = st_core s ∧
             st_heap s' = decide_all (st_heap s) queue)
    (λ f s', env_frame s s' ∧ allowed f ∧
             ∃ done rest, queue = done ++ rest ∧
               st_heap s' = decide_all (st_heap s) done) s.
Proof.
  revert tx s. induction queue as [|p queue IH]; intros tx s Hin; simpl.
  { apply wp_ret. by split. }
  destruct (Hin p) as [b Hb]; [by left|].
  apply wp_bind. unfold read, wp, deref. rewrite Hb. simpl.
  apply wp_bind, wp_modify. simpl.
  set (s1 := mkSt (<[p := decide_block b]> (st_heap s)) _ _ _).
  assert (Hh1 : st_heap s1 = decide_all (st_heap s) [p]).
  { apply map_eq. intros q. unfold decide_all. simpl.
    destruct (decide (p = q)) as [<-|]; [|by rewrite lookup_insert_ne, lookup_alter_ne].
    by rewrite lookup_insert_eq, lookup_alter_eq, Hb. }
  apply wp_bind. eapply wp_mono; [apply in_env_quiet, apply_block_law|..].
  { rewrite Hh1, decide_all_lookup, Hb. by eexists. }
  2: { intros f s' ([??] & Hh & _ & ?). split; [by split|]. split; [done|].
       exists [p], queue. by rewrite Hh. }
  intros tx' s2 ([Hc2 Hv2] & Hh2 & Hco2). apply wp_bind.
  eapply wp_mono; [apply in_env_quiet, notify_commitment_law|..].
  { rewrite Hh2, Hh1, decide_all_lookup, Hb. by eexists. }
  2: { intros f s' ([Hc3 Hv3] & Hh & _ & ?).
       split; [split; [by rewrite Hc3, Hc2|by rewrite Hv3, Hv2]|]. split; [done|].
       exists [p], queue. by rewrite Hh, Hh2. }
  intros _ s3 ([Hc3 Hv3] & Hh3 & Hco3).
  eapply wp_mono; [apply (IH tx' s3)|..].
  - intros q Hq. rewrite Hh3, Hh2, Hh1, decide_all_lookup, fmap_is_Some.
    apply Hin. by right.
  - intros tx'' s' ([Hc' Hv'] & Hco' & Hh'). split; [split; [by rewrite Hc', Hc3, Hc2|by rewrite Hv', Hv3, Hv2]|].
    split; [by rewrite Hco', Hco3, Hco2|]. rewrite Hh', Hh3, Hh2, Hh1. done.
  - intros f s' ([Hc' Hv'] & ? & done' & rest & -> & Hh'). split; [split; [by rewrite Hc', Hc3, Hc2|by rewrite Hv', Hv3, Hv2]|].
    split; [done|]. exists (p :: done'), rest. split; [done|].
    rewrite Hh', Hh3, Hh2, Hh1. done.
Qed.

Lemma wp_read (s : CoreSt E) p b (Q : HotstuffBlock → CoreSt E → Prop) R :
  st_heap s !! p = Some b → Q b s → wp (read p) Q R s.
Proof. intros Hb HQ. eapply wp_run; [|done]. unfold read, deref. by rewrite Hb. Qed.

Section commit.
Hypothesis cfg_wf : config_wf cfg.
Hypothesis few_faulty :
  (N.of_nat (size B) < nreplicas cfg - 2 * (nreplicas cfg / 3))%N.
Context (G : list (ReplicaID * Hash)).
Hypothesis Hlog : log_ok U cfg B G.

(** An undecided block to commit is a strict descendant of [b_exec]. *)
Lemma commit_above h co c sg p0 k0 b0 ke :
  RepInv G h co c sg →
  cnode (core_genesis co) (skel <$> h) c p0 k0 → committed U cfg B G (sk_hash k0) →
  h !! p0 = Some b0 → decided b0 = false →
  cnode (core_genesis co) (skel <$> h) c (b_exec co) ke →
  committed U cfg B G (sk_hash ke) →
  anc U (sk_hash ke) (sk_hash k0) ∧ (sk_height ke < sk_height k0)%N.
Proof using All.
  intros I [Hk0 Hc0] Hcm0 Hb0 Hd0 [Hke Hce] Hcme.
  pose proof (ri_tree _ _ _ _ _ I) as T.
  pose proof (ti_ht _ _ _ _ _ _ _ T _ _ Hk0) as Hh0.
  pose proof (ti_ht _ _ _ _ _ _ _ T _ _ Hke) as Hhe.
  destruct (decide (sk_height k0 ≤ sk_height ke)%N) as [Hle|Hgt].
  - exfalso.
    assert (Ha : anc U (sk_hash k0) (sk_hash ke)).
    { eapply commit_extends; eauto using committed_certified. }
    assert (decided b0 = true); [|congruence].
    eapply (ri_undecided _ _ _ _ _ I); [exact Hc0|done|by destruct Hke|done].
  - split; [|lia]. eapply commit_extends; eauto using committed_certified. lia.
Qed.

(** Walking down from it ends at [b_exec]. *)
Lemma commit_walk h co c sg p0 k0 b0 ke l q kq :
  RepInv G h co c sg →
  cnode (core_genesis co) (skel <$> h) c p0 k0 → committed U cfg B G (sk_hash k0) →
  h !! p0 = Some b0 → decided b0 = false →
  cnode (core_genesis co) (skel <$> h) c (b_exec co) ke →
  committed U cfg B G (sk_hash ke) →
  chain (skel <$> h) p0 l q → node (core_genesis co) (skel <$> h) c q kq →
  (sk_height ke ≤ sk_height k0 → sk_height kq = sk_height ke)%N → q = b_exec co.
Proof using All.
  intros I Hc0 Hcm0 Hb0 Hd0 Hce Hcme Hch Hkq Hhq.
  destruct (commit_above _ _ _ _ _ _ _ _ I Hc0 Hcm0 Hb0 Hd0 Hce Hcme) as [Ha Hlt].
  pose proof (ri_tree _ _ _ _ _ I) as T. destruct Hc0 as [Hk0 _], Hce as [Hke Hce].
  assert (Hq : sk_height kq = sk_height ke) by (apply Hhq; lia).
  pose proof (ti_ht _ _ _ _ _ _ _ T _ _ Hke) as Hhe.
  pose proof (ti_ht _ _ _ _ _ _ _ T _ _ Hkq) as Hhkq.
  destruct (chain_node U cfg B U_zero G _ _ _ T _ _ _ _ Hch Hk0) as (kq' & Hkq' & Haq).
  rewrite <- (node_fun _ _ _ _ _ _ Hkq Hkq') in Haq.
  assert (Heq : sk_hash kq = sk_hash ke).
  { rewrite Hq in Hhkq. eapply anc_ht_eq; [exact U_zero| |exact Hhkq|exact Hhe].
    eapply anc_linear_le; eauto. }
  destruct (chain_cached U cfg B U_zero G _ _ _ T _ _ _ _ _ Hch Hk0 Hkq) as [[-> ->]|Hcq].
  - rewrite (node_fun _ _ _ _ _ _ Hk0 Hkq) in Hlt. lia.
  - eapply same_pointer; [exact Hcq|exact Hce|done].
Qed.

(** Deciding a walk and moving [b_exec] to its top keeps the invariant. *)
Lemma RepInv_commit h co c sg p0 k0 ke l db :
  RepInv G h co c sg →
  cnode (core_genesis co) (skel <$> h) c p0 k0 → committed U cfg B G (sk_hash k0) →
  cnode (core_genesis co) (skel <$> h) c (b_exec co) ke →
  anc U (sk_hash ke) (sk_hash k0) →
  (∀ kl, (skel <$> h) !! b_lock co = Some kl → sk_height k0 ≤ sk_height kl)%N →
  chain (skel <$> h) p0 l (b_exec co) →
  RepInv G (decide_all h (rev l)) (set_index db (set_b_exec p0 co)) c sg.
Proof using All.
  intros I Hc0 Hcm0 Hce Ha Hlk Hch. pose proof (ri_tree _ _ _ _ _ I) as T.
  pose proof Hc0 as [Hk0 _]. pose proof Hce as [Hke _]. pose proof I as [].
  split; simpl; rewrite ?decide_all_skel; try done.
  - by exists k0.
  - intros kl ke' Hkl Hke'. assert (ke' = k0) as -> by (destruct Hk0; congruence). auto.
  - intros p b ke' Hb Hd Hke'. assert (ke' = k0) as -> by (destruct Hk0; congruence).
    destruct (decide_all_inv _ _ _ _ Hb) as (b1 & Hb1 & Hsk & Hqc & Hdec).
    unfold get_hash. rewrite Hqc. fold (get_hash b1). rewrite Hsk.
    apply Hdec in Hd as [Hd|Hin].
    + destruct (ri_decided0 p b1 ke Hb1 Hd) as [? ?]; [by destruct Hke|].
      split; [done|by eapply anc_trans].
    + rewrite elem_of_rev in Hin.
      destruct (chain_members U cfg B U_zero G _ _ _ T _ _ _ _ _ _ Hch Hk0 Hke Hin)
        as (kx & Hkx & Hax & _ & _).
      assert (kx = skel b1) as ->.
      { destruct Hkx as [Hkx _]. rewrite lookup_fmap, Hb1 in Hkx. by simplify_eq/=. }
      done.
  - intros hh p b ke' Hc Hb Hke' Haq.
    assert (ke' = k0) as -> by (destruct Hk0; congruence).
    destruct (decide_all_inv _ _ _ _ Hb) as (b1 & Hb1 & Hsk & Hqc & Hdec).
    apply Hdec.
    destruct (chain_complete U cfg B U_zero G _ _ _ T _ _ _ _ _ _ Hch Hk0 Hke Haq)
      as [Ha'|(x & kx & Hx & Hkx & Hxh)].
    + left. eapply ri_undecided0; [done..| |done]. by destruct Hke.
    + right. rewrite elem_of_rev.
      destruct (chain_members U cfg B U_zero G _ _ _ T _ _ _ _ _ _ Hch Hk0 Hke Hx)
        as (kx' & Hkx' & _ & _ & Hor).
      rewrite <- (node_fun _ _ _ _ _ _ Hkx Hkx') in Hor.
      assert (x = p) as <-; [|done]. rewrite Hxh in Hor.
      destruct Hor as [->|?]; [|congruence]. destruct Hc0 as [_ Hc0].
      rewrite (node_fun _ _ _ _ _ _ Hk0 Hkx), Hxh in Hc0. congruence.
  - intros p b Hb. destruct (decide_all_inv _ _ _ _ Hb) as (b1 & Hb1 & Hsk & Hqc & _).
    unfold qc_ok, get_hash. rewrite Hqc. by apply ri_qcs0 in Hb1.
Qed.

(** Stopping part-way through the commit loop: what was decided is still
    below the block being committed. *)
Lemma stopped_commit h co c sg p0 k0 l q kq ps rest :
  RepInv G h co c sg →
  node (core_genesis co) (skel <$> h) c p0 k0 → committed U cfg B G (sk_hash k0) →
  chain (skel <$> h) p0 l q → node (core_genesis co) (skel <$> h) c q kq →
  rev l = ps ++ rest → stopped G (decide_all h ps) sg.
Proof using All.
  intros I Hk0 Hcm0 Hch Hkq Hl. split; [|apply (ri_log _ _ _ _ _ I)].
  intros p b Hb Hd. destruct (decide_all_inv _ _ _ _ Hb) as (b1 & Hb1 & _ & Hqc & Hdec).
  unfold get_hash. rewrite Hqc. fold (get_hash b1). destruct (proj1 Hdec Hd) as [Hd1|Hin].
  - destruct (ri_exec _ _ _ _ _ I) as (ke & [[Hke _] _] & Hc).
    exists (sk_hash ke). split; [done|]. by eapply (ri_decided _ _ _ _ _ I).
  - exists (sk_hash k0). split; [done|].
    assert (Hpl : p ∈ l) by (apply elem_of_rev; rewrite Hl; set_solver).
    destruct (chain_members U cfg B U_zero G _ _ _ (ri_tree _ _ _ _ _ I)
                _ _ _ _ _ _ Hch Hk0 Hkq Hpl) as (kx & [Hkx _] & Hax & _).
    rewrite lookup_fmap, Hb1 in Hkx. by simplify_eq/=.
Qed.

Definition commit_frame (s s' : CoreSt E) : Prop :=
  env_frame s s' ∧ skel <$> st_heap s' = skel <$> st_heap s ∧
  core_genesis (st_core s') = core_genesis (st_core s) ∧
  b_lock (st_core s') = b_lock (st_core s) ∧ vheight (st_core s') = vheight (st_core s).

Definition fault_ok (s s' : CoreSt E) (f : fault) : Prop :=
  stopped G (st_heap s') (votes s') ∧ votes s' = votes s ∧ allowed f.

(** The commit: "safety breached" is not thrown. *)
Lemma commit_chain_wp s p0 k0 b0 blk1 :
  RI G s →
  cnode (core_genesis (st_core s)) (skel <$> st_heap s) (cache s) p0 k0 →
  committed U cfg B G (sk_hash k0) →
  st_heap s !! p0 = Some b0 → decided b0 = false → is_Some (parsed_qc blk1) →
  (∀ kl, (skel <$> st_heap s) !! b_lock (st_core s) = Some kl →
     sk_height k0 ≤ sk_height kl)%N →
  wp (commit_chain p0 blk1)
    (λ _ s', RI G s' ∧ commit_frame s s' ∧ b_exec (st_core s') = p0)
    (λ f s', fault_ok s s' f) s.
Proof using All.
  intros I Hc0 Hcm0 Hb0 Hd0 [qc Hqc] Hlk. pose proof Hc0 as [Hk0 _].
  destruct (ri_exec _ _ _ _ _ I) as (ke & Hce & Hcme). pose proof Hce as [Hke _].
  destruct (commit_above _ _ _ _ _ _ _ _ I Hc0 Hcm0 Hb0 Hd0 Hce Hcme) as [Ha Hlt].
  pose proof Hke as [(be & Hbe & Hske)%skel_lookup _].
  assert (Hsk0 : skel b0 = k0).
  { pose proof Hk0 as [Hk _]. rewrite lookup_fmap, Hb0 in Hk. by simplify_eq/=. }
  destruct (collect_commits_spec U cfg B U_zero G (core_genesis (st_core s)) (cache s)
              s (S (N.to_nat (get_height b0))) p0 k0 (get_height be) [])
    as (l & q & kq & Hrun & Hch & Hkq & _ & Hhq & _).
  { apply I. } { done. } { rewrite <- Hsk0. simpl. unfold get_height. lia. }
  assert (q = b_exec (st_core s)) as ->.
  { eapply (commit_walk _ _ _ _ p0 k0 b0 ke); eauto. by rewrite <- Hske. }
  unfold commit_chain. apply wp_bind, wp_gets, wp_bind, (wp_read _ _ be); [done|].
  apply wp_bind, (wp_read _ _ b0); [done|]. apply wp_bind. eapply wp_run; [exact Hrun|].
  cbn beta iota. rewrite bool_decide_true by done. simpl.
  apply wp_bind, wp_gets, wp_bind. eapply wp_mono; [apply commit_blocks_wp|..].
  { intros p Hp. rewrite elem_of_rev in Hp.
    destruct (chain_members U cfg B U_zero G _ _ _ (ri_tree _ _ _ _ _ I)
      _ _ _ _ _ _ Hch Hk0 Hkq Hp) as (kx & [(b & Hb & _)%skel_lookup _] & _). eauto. }
  2: { intros f s' ([Hca Hvo] & Hf & ps & rest & Heq & Hh). unfold fault_ok.
       rewrite Hh, Hvo. split; [by eapply (stopped_commit _ _ _ _ p0 k0 l)|done]. }
  intros tx s1 ([Hca Hvo] & Hco & Hh).
  apply wp_bind, wp_modify, wp_bind. unfold get_justify_qc. rewrite Hqc.
  apply wp_ret, wp_bind, wp_modify. simpl.
  set (s2 := mkSt _ _ _ _).
  assert (I2 : RI G s2).
  { unfold s2, cache, votes in *. simpl. rewrite Hca, Hvo, Hh, Hco.
    eapply RepInv_commit; eauto. }
  assert (F2 : commit_frame s s2).
  { unfold s2, commit_frame. simpl. rewrite Hco, Hh, decide_all_skel. by repeat split. }
  eapply wp_mono; [apply in_env_quiet, notify_prune_law|..].
  + intros _ s' ([Hca' Hvo'] & Hh' & Hco'). rewrite Hh', Hco', Hca', Hvo'.
    split; [done|]. unfold commit_frame, env_frame. by rewrite Hh', Hco', Hca', Hvo'.
  + intros f s' ([Hca' Hvo'] & Hh' & Hco' & ?). unfold fault_ok. rewrite Hh', Hvo'.
    split; [by apply RepInv_stopped|done].
Qed.

(** The block at [p] is decided. *)
Definition decided_in (s : CoreSt E) (p : loc) : Prop :=
  ∃ b, st_heap s !! p = Some b ∧ decided b = true.

Lemma exec_decided s : RI G s → decided_in s (b_exec (st_core s)).
Proof using All.
  intros I. destruct (ri_exec _ _ _ _ _ I) as (ke & [[Hke _] Hc] & _).
  pose proof Hke as (b & Hb & _)%skel_lookup. exists b. split; [done|].
  by eapply (ri_undecided _ _ _ _ _ I); [exact Hc|done|exact Hke|constructor].
Qed.

(** A stored ancestor of a decided block is decided. *)
Lemma decided_below s p b q bq :
  RI G s → st_heap s !! p = Some b → decided b = true → st_heap s !! q = Some bq →
  cache s !! get_hash bq = Some q → anc U (get_hash bq) (get_hash b) → decided_in s q.
Proof using All.
  intros I Hb Hd Hq Hc Ha. destruct (ri_exec _ _ _ _ _ I) as (ke & [[Hke _] _] & _).
  destruct (ri_decided _ _ _ _ _ I _ _ _ Hb Hd Hke) as [_ Hae]. exists bq. split; [done|].
  eapply (ri_undecided _ _ _ _ _ I); [exact Hc|done|exact Hke|by eapply anc_trans].
Qed.

(** ** [update] *)

Lemma RepInv_set_b_lock h co c sg p k kl :
  RepInv G h co c sg → cnode (core_genesis co) (skel <$> h) c p k →
  certified cfg B G (sk_hash k) → (skel <$> h) !! b_lock co = Some kl →
  (sk_height kl ≤ sk_height k)%N → RepInv G h (set_b_lock p co) c sg.
Proof using All.
  intros [] Hk Hc Hkl Hle. split; simpl; try done; [by exists k|].
  intros kl' ke Hkl' Hke. assert (kl' = k) as -> by (destruct Hk as [[? _] _]; congruence).
  pose proof (ri_order0 _ _ Hkl Hke). lia.
Qed.

Lemma get_info_wp {S} rid (Q : ReplicaInfo → S → Prop) (R : fault → S → Prop) s :
  rid ∈ replicas cfg → (∀ info, Q info s) → wp (get_info cfg rid) Q R s.
Proof using All.
  intros [info Hi]%elem_of_replicas HQ. unfold get_info. rewrite Hi. by apply wp_ret.
Qed.

(** A heap on which only unseen parts of blocks changed. *)
Definition view_frame (s s' : CoreSt E) : Prop :=
  env_frame s s' ∧ st_core s' = st_core s ∧ same_view (st_heap s') (st_heap s).

Lemma RepInv_view_frame s s' : RI G s → view_frame s s' → RI G s'.
Proof using All.
  intros I ([Hc Hv] & Hco & Hh). rewrite Hc, Hv, Hco. by eapply RepInv_same_view.
Qed.

Lemma write_block_wp s info p k :
  RI G s → node (core_genesis (st_core s)) (skel <$> st_heap s) (cache s) p k →
  wp (write_block info p) (λ _ s', view_frame s s')
    (λ f s', view_frame s s' ∧ allowed f) s.
Proof using All.
  intros I Hk. pose proof Hk as [(b & Hb & Hkb)%skel_lookup _].
  unfold write_block. apply wp_bind, (wp_read _ _ b); [done|]. apply wp_zoom.
  eapply wp_mono; [eapply (write_to_disk_wp U cfg B U_zero G)|..]; simpl.
  - apply I.
  - exact Hk.
  - rewrite <- Hkb. simpl. unfold get_height. lia.
  - by intros _ hd Hhd.
  - intros f hd [Hhd ?]. split; [done|by right].
Qed.

Definition lock_le (s s' : CoreSt E) : Prop :=
  ∀ kl kl', (skel <$> st_heap s) !! b_lock (st_core s) = Some kl →
    (skel <$> st_heap s') !! b_lock (st_core s') = Some kl' →
    (sk_height kl ≤ sk_height kl')%N.

Definition update_frame (s s' : CoreSt E) : Prop :=
  env_frame s s' ∧ skel <$> st_heap s' = skel <$> st_heap s ∧
  core_genesis (st_core s') = core_genesis (st_core s) ∧
  vheight (st_core s') = vheight (st_core s) ∧ lock_le s s'.

Lemma lock_le_same s s' :
  skel <$> st_heap s' = skel <$> st_heap s →
  b_lock (st_core s') = b_lock (st_core s) → lock_le s s'.
Proof. intros Hh Hl kl kl'. rewrite Hh, Hl. intros. by simplify_eq. Qed.

Lemma update_frame_refl s : update_frame s s.
Proof. repeat split. by apply lock_le_same. Qed.

Lemma update_frame_trans s1 s2 s3 :
  RI G s2 → update_frame s1 s2 → update_frame s2 s3 → update_frame s1 s3.
Proof using All.
  intros I ([Hc Hv] & Hh & Hg & Hvh & Hl) ([Hc' Hv'] & Hh' & Hg' & Hvh' & Hl').
  split; [by split; etrans|]. do 3 (split; [by etrans|]).
  destruct (ri_lock _ _ _ _ _ I) as (k & [[Hk _] _] & _).
  intros kl kl' Hkl Hkl'. pose proof (Hl _ _ Hkl Hk). pose proof (Hl' _ _ Hk Hkl'). lia.
Qed.

Lemma hqc_update_frame s s' : hqc_frame s s' → update_frame s s'.
Proof.
  intros (He & Hh & Hg & Hl & _ & Hv). split; [done|]. rewrite Hh.
  do 3 (split; [done|]). apply lock_le_same; by rewrite ?Hh.
Qed.

Lemma commit_update_frame s s' : commit_frame s s' → update_frame s s'.
Proof.
  intros (He & Hh & Hg & Hl & Hv). do 4 (split; [done|]). by apply lock_le_same.
Qed.

Lemma view_update_frame s s' : view_frame s s' → update_frame s s'.
Proof.
  intros (He & Hco & Hh%same_view_skel). split; [done|]. rewrite Hco.
  do 3 (split; [done|]). apply lock_le_same; [done|by rewrite Hco].
Qed.

(** The lock is at least as high as [n]. *)
Definition lock_above (s : CoreSt E) (n : N) : Prop :=
  ∀ kl, (skel <$> st_heap s) !! b_lock (st_core s) = Some kl → (n ≤ sk_height kl)%N.

Lemma lock_above_le s s' n : RI G s → lock_above s n → lock_le s s' → lock_above s' n.
Proof using All.
  intros I Ha Hl kl' Hkl'. destruct (ri_lock _ _ _ _ _ I) as (k & [[Hk _] _] & _).
  pose proof (Ha _ Hk). pose proof (Hl _ _ Hk Hkl'). lia.
Qed.

Abbreviation gn s p k := (node (core_genesis (st_core s)) (skel <$> st_heap s) (cache s) p k).

Lemma wp_raise_lock s p1 b1 (Q : unit → CoreSt E → Prop) R :
  RI G s → gn s p1 (skel b1) → cache s !! get_hash b1 = Some p1 →
  certified cfg B G (get_hash b1) →
  (∀ s', RI G s' → update_frame s s' → st_heap s' = st_heap s → st_disk s' = st_disk s →
     st_core s' = st_core s ∨ st_core s' = set_b_lock p1 (st_core s) →
     lock_above s' (get_height b1) → Q tt s') →
  wp (raise_lock p1 b1) Q R s.
Proof using All.
  unfold raise_lock. intros I Hk Hc Hcert HQ. destruct (ri_lock _ _ _ _ _ I) as (kl & [[Hkl _] _] & _).
  pose proof Hkl as (lb & Hlb & Hskl)%skel_lookup.
  apply wp_bind, wp_gets, wp_bind, (wp_read _ _ lb); [done|].
  apply wp_when; intros Hlt.
  - apply wp_modify. apply N.ltb_lt in Hlt. apply HQ; simpl; auto.
    + eapply RepInv_set_b_lock; [done|by split|done|exact Hkl|].
      rewrite <- Hskl. simpl. unfold get_height in *. lia.
    + do 4 (split; [done|]). intros kl0 kl' H0 H'. simpl in *.
      destruct Hk as [Hk _]. simplify_eq. simpl. unfold get_height in *. lia.
    + intros kl' H'. simpl in *. destruct Hk as [Hk _]. simplify_eq. done.
  - apply N.ltb_ge in Hlt. apply HQ; auto using update_frame_refl.
    intros kl' H'. simplify_eq. done.
Qed.

Lemma RI_fault s s' f :
  RI G s → update_frame s s' → RI G s' → allowed f → fault_ok s s' f.
Proof using All.
  intros I ([_ Hv] & _) I' Hf. split; [by apply RepInv_stopped|done].
Qed.

Lemma fault_ok_trans s s1 s2 f : update_frame s s1 → fault_ok s1 s2 f → fault_ok s s2 f.
Proof. intros ([_ Hv] & _) (Hs & Hv' & Hf). split; [done|]. by rewrite Hv'. Qed.

(** The 3-chain test: both parents are the justified blocks. *)
Lemma direct_committed s b2 p2 p1 b1 p0 b0 :
  RI G s → gn s p2 (skel b2) → linked (skel <$> st_heap s) (cache s) (skel b2) →
  certified cfg B G (get_hash b2) →
  get_justify b2 = Some p1 → gn s p1 (skel b1) →
  get_justify b1 = Some p0 → gn s p0 (skel b0) →
  get_parent b2 = Some p1 → get_parent b1 = Some p0 →
  cache s !! get_hash b0 = Some p0 ∧ committed U cfg B G (get_hash b0) ∧
  (get_height b0 ≤ get_height b1)%N.
Proof using All.
  intros I Hk2 Hl2 Hc2 Hj2 Hk1 Hj1 Hk0 Hp2 Hp1.
  pose proof (ri_tree _ _ _ _ _ I) as T.
  pose proof (node_justify_linked U cfg B U_zero G _ _ _ T _ _ _ Hk1 Hj1) as Hl1.
  destruct Hk2 as [Hk2 _], Hk1 as [Hk1 _].
  destruct (linked_parent U cfg B U_zero G _ _ _ T _ _ Hk2 Hl2) as (? & pk1 & ? & [? _] & _ & Hh2 & _).
  destruct (linked_justify U cfg B U_zero G _ _ _ T _ _ Hk2 Hl2) as (? & jk1 & ? & [? _] & _ & Hjh2).
  destruct (linked_parent U cfg B U_zero G _ _ _ T _ _ Hk1 Hl1) as (? & pk0 & ? & [? _] & Hc0 & Hh1 & Hht).
  destruct (linked_justify U cfg B U_zero G _ _ _ T _ _ Hk1 Hl1) as (? & jk0 & ? & [? _] & _ & Hjh1).
  destruct Hk0 as [Hk0 _]. unfold get_justify, get_parent in *. simpl in *. simplify_eq.
  simpl in *. split; [done|]. split; [|unfold get_height; lia].
  right. exists (get_hash b1), (get_hash b2). eexists _, _.
  split_and!; [eapply (linked_U U cfg B U_zero G _ _ _ T _ _ Hk2 Hl2)|done|done
    |eapply (linked_U U cfg B U_zero G _ _ _ T _ _ Hk1 Hl1)|done|done|done].
Qed.

Lemma gn_frame s s' p k : update_frame s s' → gn s p k → gn s' p k.
Proof. intros ([Hc _] & Hh & Hg & _) Hk. by rewrite Hc, Hh, Hg. Qed.

Lemma linked_frame s s' k :
  update_frame s s' → linked (skel <$> st_heap s) (cache s) k →
  linked (skel <$> st_heap s') (cache s') k.
Proof. intros ([Hc _] & Hh & _) Hl. by rewrite Hc, Hh. Qed.

(** A non-genesis block has a parsed certificate. *)
Lemma linked_parsed s p k :
  RI G s → gn s p k → linked (skel <$> st_heap s) (cache s) k →
  ∃ qc, sk_qc k = Some qc ∧ obj_hash qc = just_of (sk_header k).
Proof using All.
  intros I [Hk _] Hl. pose proof (ri_tree _ _ _ _ _ I) as T.
  pose proof (linked_not_genesis U cfg B U_zero G _ _ _ T _ _ Hk Hl) as Hne.
  destruct (tw_nodes _ _ _ (ti_wf _ _ _ _ _ _ _ T) _ _ Hk Hne) as [[Hqc _] _].
  eexists. split; [done|]. by rewrite QC_of_wire_hash.
Qed.

Lemma lock_and_commit_wp s p2 b2 p1 b1 :
  RI G s → gn s p2 (skel b2) → linked (skel <$> st_heap s) (cache s) (skel b2) →
  certified cfg B G (get_hash b2) → get_justify b2 = Some p1 → gn s p1 (skel b1) →
  wp (lock_and_commit b2 p1 b1)
    (λ _ s', RI G s' ∧ update_frame s s' ∧ lock_above s' (get_height b1) ∧
       ∀ p0, get_parent b2 = Some p1 → get_justify b1 = Some p0 → get_parent b1 = Some p0 →
         decided_in s' p0)
    (λ f s', fault_ok s s' f) s.
Proof using All.
  intros I Hk2 Hl2 Hc2 Hj2 Hk1. pose proof (ri_tree _ _ _ _ _ I) as T.
  destruct (linked_justify U cfg B U_zero G _ _ _ T _ _ (proj1 Hk2) Hl2)
    as (p1' & k1' & Hj & Hk1' & Hcj & Hjh).
  assert (p1' = p1) as -> by (unfold get_justify in *; simpl in *; congruence).
  rewrite (node_fun _ _ _ _ _ _ Hk1' Hk1) in Hcj, Hjh.
  destruct (ti_just _ _ _ _ _ _ _ T _ _ (proj1 Hk2) Hl2) as [_ Hc1].
  rewrite <- Hjh in Hc1. simpl in *.
  unfold lock_and_commit. apply wp_bind, wp_raise_lock; [done..|].
  intros s1 I1 F1 _ _ _ La1. apply wp_bind, wp_gets, wp_bind, wp_gets, wp_bind.
  rewrite (ri_config _ _ _ _ _ I1). destruct (ri_self _ _ _ _ _ I1) as [-> Hself].
  apply get_info_wp; [done|]. intros info. apply wp_bind, wp_gets, wp_bind.
  destruct (ri_lock _ _ _ _ _ I1) as (kl & [Hkl _] & _).
  eapply wp_mono; [by eapply write_block_wp| |].
  2: { intros f s2 [F2 Hf]. eapply fault_ok_trans; [done|].
       eauto using RI_fault, RepInv_view_frame, view_update_frame. }
  intros u s2 F2. pose proof (RepInv_view_frame _ _ I1 F2) as I2.
  apply view_update_frame in F2.
  assert (F : update_frame s s2) by by apply (update_frame_trans s s1 s2).
  assert (La : lock_above s2 (get_height b1)) by (eapply lock_above_le; [exact I1|done|apply F2]).
  destruct (get_justify b1) as [p0|] eqn:Hj1; [|by apply wp_ret].
  assert (Hl1 : linked (skel <$> st_heap s) (cache s) (skel b1))
    by by eapply node_justify_linked.
  destruct (linked_justify U cfg B U_zero G _ _ _ T _ _ (proj1 Hk1) Hl1)
    as (p0' & k0 & Hj' & Hk0 & _). simpl in Hj'.
  assert (p0' = p0) as -> by (unfold get_justify in *; congruence).
  apply (gn_frame _ _ _ _ F) in Hk0. pose proof Hk0 as [(b0 & Hb0 & <-)%skel_lookup _].
  apply wp_bind, (wp_read _ _ b0); [done|].
  destruct (has_been_decided b0) eqn:Hd.
  { apply wp_ret. do 3 (split; [done|]). intros q _ [= <-] _. by exists b0. }
  destruct (bool_decide_reflect (get_parent b2 = Some p1)) as [Hp2|]; [|by apply wp_ret].
  destruct (bool_decide_reflect (get_parent b1 = Some p0)) as [Hp1|Hp1].
  2: { apply wp_ret. do 3 (split; [done|]). by intros q _ [= <-]. }
  destruct (direct_committed s2 b2 p2 p1 b1 p0 b0) as (Hc0 & Hcm & Hle);
    eauto using gn_frame, linked_frame.
  destruct (linked_parsed _ _ _ I Hk1 Hl1) as (qc & Hqc & _).
  eapply wp_mono; [eapply (commit_chain_wp s2 p0 (skel b0) b0)|..]; try done.
  - intros kl' Hkl'. pose proof (La _ Hkl'). unfold get_height in *. simpl. lia.
  - intros _ s3 (I3 & F3%commit_update_frame & Hex). split; [done|].
    split; [by apply (update_frame_trans s s2 s3)|].
    split; [eapply lock_above_le; [exact I2|done|apply F3]|].
    intros q _ [= <-] _. rewrite <- Hex. by apply exec_decided.
  - intros f s3 Hf. by eapply fault_ok_trans.
Qed.

(** After [update] on [k], the lock covers the certificates two below [k]. *)
Definition lock_covers (s : CoreSt E) (k : Skel) : Prop :=
  ∀ hj n, U (just_of (sk_header k)) = Some hj → ht U (just_of hj) n → lock_above s n.

(** A decided block is at or below the lock. *)
Lemma decided_lock_above s p b :
  RI G s → st_heap s !! p = Some b → decided b = true → lock_above s (get_height b).
Proof using All.
  intros I Hb Hd kl Hkl. pose proof (ri_tree _ _ _ _ _ I) as T.
  destruct (ri_exec _ _ _ _ _ I) as (ke & [Hke _] & _).
  destruct (ri_decided _ _ _ _ _ I _ _ _ Hb Hd (proj1 Hke)) as [Hn Ha].
  pose proof (anc_ht_le U U_zero _ _ _ _ Ha (ti_ht _ _ _ _ _ _ _ T _ _ Hn)
                (ti_ht _ _ _ _ _ _ _ T _ _ Hke)).
  pose proof (ri_order _ _ _ _ _ I _ _ Hkl (proj1 Hke)). simpl in *.
  unfold get_height. lia.
Qed.

(** A linked block's justified block is not above it. *)
Lemma just_height s p k j :
  RI G s → gn s p k → linked (skel <$> st_heap s) (cache s) k →
  ht U (just_of (sk_header k)) j → (j < sk_height k)%N.
Proof using All.
  intros I [Hk _] Hl Hj. pose proof (ri_tree _ _ _ _ _ I) as T.
  destruct (ti_just _ _ _ _ _ _ _ T _ _ Hk Hl) as [Ha _].
  destruct (linked_parent U cfg B U_zero G _ _ _ T _ _ Hk Hl)
    as (pp & pk & _ & Hpk & _ & Hh & Hht).
  pose proof (ti_ht _ _ _ _ _ _ _ T _ _ Hpk) as Hp. rewrite Hh in Hp.
  pose proof (anc_ht_le U U_zero _ _ _ _ Ha Hj Hp). lia.
Qed.

(** The blocks a proposal [b] closes a direct chain over, up to the one it
    decides. *)
Definition three_chain (s : CoreSt E) (b : HotstuffBlock) (p0 : loc) : Prop :=
  ∃ p2 b2 p1 b1, get_justify b = Some p2 ∧ st_heap s !! p2 = Some b2 ∧
    get_justify b2 = Some p1 ∧ get_parent b2 = Some p1 ∧ st_heap s !! p1 = Some b1 ∧
    get_justify b1 = Some p0 ∧ get_parent b1 = Some p0.

(** A link down by a parent. *)
Lemma chain_below s p1 b1 p0 :
  RI G s → gn s p1 (skel b1) → get_justify b1 = Some p0 → get_parent b1 = Some p0 →
  ∃ b0, st_heap s !! p0 = Some b0 ∧ gn s p0 (skel b0) ∧ cache s !! get_hash b0 = Some p0 ∧
    anc U (get_hash b0) (get_hash b1).
Proof using All.
  intros I Hk1 Hj1 Hp1. pose proof (ri_tree _ _ _ _ _ I) as T.
  pose proof (node_justify_linked U cfg B U_zero G _ _ _ T _ _ _ Hk1 Hj1) as Hl1.
  destruct (linked_parent U cfg B U_zero G _ _ _ T _ _ (proj1 Hk1) Hl1)
    as (pp & pk & Hpp & Hpk & Hc & Hh & _). pose proof Hpk as [(b0 & Hb0 & <-)%skel_lookup _].
  assert (pp = p0) as -> by (unfold get_parent in *; simpl in *; congruence).
  exists b0. do 3 (split; [done|]).
  eapply anc_step; [by apply (linked_U U cfg B U_zero G _ _ _ T _ _ (proj1 Hk1) Hl1)|].
  rewrite <- Hh. constructor.
Qed.

(** If one of the upper blocks is decided, so is the lowest. *)
Lemma three_chain_decided s b p2 b2 p0 :
  RI G s → get_justify b = Some p2 → st_heap s !! p2 = Some b2 → gn s p2 (skel b2) →
  three_chain s b p0 →
  decided b2 = true ∨ (∃ p1 b1, get_justify b2 = Some p1 ∧ st_heap s !! p1 = Some b1 ∧
    decided b1 = true) → decided_in s p0.
Proof using All.
  intros I Hj Hb2 Hk2 (q2 & b2' & p1 & b1 & Hq2 & Hb2' & Hj1 & Hp1 & Hb1 & Hj0 & Hp0) Hd.
  assert (q2 = p2) as -> by congruence. assert (b2' = b2) as -> by congruence.
  destruct (chain_below s p2 b2 p1) as (b1' & Hb1' & Hk1 & Hc1 & Ha1); [done..|].
  assert (b1' = b1) as -> by congruence.
  destruct (chain_below s p1 b1 p0) as (b0 & Hb0 & _ & Hc0 & Ha0); [done..|].
  destruct Hd as [Hd|(p1' & b1' & Hj1' & Hb1'' & Hd)].
  - apply (decided_below s p2 b2 p0 b0); eauto using anc_trans.
  - simplify_eq. by apply (decided_below s p1 b1 p0 b0).
Qed.

Lemma update_wp s p b :
  RI G s → st_heap s !! p = Some b →
  linked (skel <$> st_heap s) (cache s) (skel b) →
  wp (update p)
    (λ _ s', RI G s' ∧ update_frame s s' ∧ lock_covers s' (skel b) ∧
       ∀ p0, three_chain s b p0 → decided_in s' p0)
    (λ f s', fault_ok s s' f) s.
Proof using All.
  intros I Hb Hl. pose proof (ri_tree _ _ _ _ _ I) as T.
  pose proof (skel_lookup_Some _ _ _ Hb) as Hk.
  destruct (linked_justify U cfg B U_zero G _ _ _ T _ _ Hk Hl)
    as (p2 & k2 & Hj & Hk2 & Hcc2 & Hjh).
  destruct (ti_just _ _ _ _ _ _ _ T _ _ Hk Hl) as [_ Hc2]. rewrite <- Hjh in Hc2.
  pose proof Hk2 as [(b2 & Hb2 & <-)%skel_lookup Hor2]. simpl in Hj.
  unfold update. apply wp_bind, (wp_read _ _ b); [done|]. unfold get_justify. rewrite Hj.
  apply wp_bind, (wp_read _ _ b2); [done|].
  (* what the lock has to cover, given the header of [b2] *)
  assert (Hcov : ∀ s' n1, lock_above s' n1 →
    (∀ n, linked (skel <$> st_heap s) (cache s) (skel b2) →
          ht U (just_of (sk_header (skel b2))) n → n ≤ n1)%N → lock_covers s' (skel b)).
  { intros s' n1 La Hle hj n HU Hn kl Hkl. rewrite <- Hjh in HU.
    destruct Hor2 as [->|Hl2].
    - rewrite (node_hash_genesis U cfg B U_zero G _ _ _ T _ _ Hk2 eq_refl) in HU. congruence.
    - rewrite (linked_U U cfg B U_zero G _ _ _ T _ _ (proj1 Hk2) Hl2) in HU. simplify_eq.
      pose proof (Hle _ Hl2 Hn). pose proof (La _ Hkl). lia. }
  destruct (has_been_decided b2) eqn:Hd2.
  { apply wp_ret. split; [done|]. split; [apply update_frame_refl|]. split.
    - eapply Hcov; [by eapply decided_lock_above|]. intros n Hl2 Hn.
      pose proof (just_height _ _ _ _ I Hk2 Hl2 Hn). simpl in *. unfold get_height. lia.
    - intros p0 H3. eapply three_chain_decided; [done|exact Hj|done..|by left]. }
  destruct (linked_parsed _ _ _ I (conj Hk (or_intror Hl)) Hl) as (qc & Hqc & Hqh).
  simpl in Hqc. unfold get_justify_qc. rewrite Hqc.
  apply wp_bind, wp_ret, wp_bind.
  eapply wp_mono; [eapply (update_hqc_wp G s p2 (skel b2)); [done..|congruence]|..].
  2: { intros f s' (Hh & Hv & Hf). split; [|done]. rewrite Hh, Hv. by apply RepInv_stopped. }
  intros _ s1 [I1 F1]. pose proof F1 as (_ & Hh1 & _). apply hqc_update_frame in F1.
  destruct (justify_block_ptr b2) as [p1|] eqn:Hj1.
  2: { apply wp_ret. split; [done|]. split; [done|]. split.
       - apply (Hcov _ 0%N); [intros ??; lia|].
         intros n (? & ? & ? & ? & _ & _ & _ & _ & Hj2 & _) _. simpl in Hj2. congruence.
       - intros p0 (? & ? & ? & ? & Hq & Hb2' & Hj1' & _). unfold get_justify in *. congruence. }
  pose proof (node_justify_linked U cfg B U_zero G _ _ _ T _ _ _ Hk2 Hj1) as Hl2.
  destruct (linked_justify U cfg B U_zero G _ _ _ T _ _ (proj1 Hk2) Hl2)
    as (p1' & k1 & Hj1' & Hk1 & _ & Hjh1). simpl in Hj1'.
  assert (p1' = p1) as -> by congruence.
  pose proof Hk1 as [(b1 & Hb1 & <-)%skel_lookup _].
  assert (Hcov1 : ∀ s', lock_above s' (get_height b1) → lock_covers s' (skel b)).
  { intros s' La. apply (Hcov _ _ La). intros n _ Hn. rewrite <- Hjh1 in Hn.
    rewrite (ht_fun U U_zero _ _ _ Hn (ti_ht _ _ _ _ _ _ _ T _ _ Hk1)). simpl. unfold get_height. lia. }
  apply wp_bind, (wp_read _ _ b1); [by rewrite Hh1|].
  destruct (has_been_decided b1) eqn:Hd1.
  { apply wp_ret. split; [done|]. split; [done|]. split.
    - apply Hcov1. eapply decided_lock_above; [done|by rewrite Hh1|done].
    - intros p0 H3. destruct (three_chain_decided s b p2 b2 p0) as (b0 & Hb0 & Hd0); auto.
      { right. by exists p1, b1. }
      exists b0. by rewrite Hh1. }
  eapply wp_mono; [apply (lock_and_commit_wp s1 p2 b2 p1 b1)|..];
    eauto using gn_frame, linked_frame.
  - intros _ s2 (I2 & F2 & La & Hcm). split; [done|].
    split; [by apply (update_frame_trans s s1 s2)|]. split; [by apply Hcov1|].
    intros p0 (q2 & b2' & q1 & b1' & Hq2 & Hb2' & Hj1'' & Hp1 & Hb1' & Hj0 & Hp0).
    unfold get_justify in Hq2, Hj1''. simplify_eq. by apply Hcm.
  - intros f s2 Hf. by eapply fault_ok_trans.
Qed.
End commit.

(** ** [on_receive_proposal] *)

Section vote.
Context (G : list (ReplicaID * Hash)).
Abbreviation gn s p k := (node (core_genesis (st_core s)) (skel <$> st_heap s) (cache s) p k).

(** The vote decision reads only, and a yes means the voting rule holds. *)
Lemma opinion_spec s p b :
  RI G s → st_heap s !! p = Some b →
  linked (skel <$> st_heap s) (cache s) (skel b) →
  ∃ op, opinion p s = Ok op s ∧
    (op = true → (vheight (st_core s) < get_height b)%N ∧
       ∃ kl, gn s (b_lock (st_core s)) kl ∧ certified cfg B G (sk_hash kl) ∧
         ((∃ m, ht U (just_of (sk_header (skel b))) m ∧ (sk_height kl < m)%N) ∨
          anc U (sk_hash kl) (get_hash b))).
Proof using U_zero.
  intros I Hb Hl. pose proof (ri_tree _ _ _ _ _ I) as T.
  pose proof (skel_lookup_Some _ _ _ Hb) as Hk.
  destruct (linked_justify U cfg B U_zero G _ _ _ T _ _ Hk Hl)
    as (jp & jk & Hj & Hjk & _ & Hjh).
  pose proof Hjk as [(jb & Hjb & <-)%skel_lookup _].
  destruct (ri_lock _ _ _ _ _ I) as (kl & [Hkl _] & Hcl).
  pose proof Hkl as [(lb & Hlb & <-)%skel_lookup _].
  unfold opinion, read, core, bind, gets, read_ptr, deref_ptr, deref, get_justify.
  rewrite Hb. simpl in Hj, Hjh, Hcl. unfold ret at 1.
  destruct (N.ltb_spec (vheight (st_core s)) (get_height b)) as [Hv|Hv]; [|by exists false].
  rewrite Hj, Hjb. unfold ret at 1. rewrite Hlb. unfold ret at 1.
  destruct (N.ltb_spec (get_height lb) (get_height jb)) as [Hlt|Hge].
  { exists true. split; [done|]. intros _. split; [done|]. exists (skel lb).
    split; [done|]. split; [done|]. left. exists (get_height jb). split; [|done].
    simpl. rewrite <- Hjh. apply (ti_ht _ _ _ _ _ _ _ T _ _ Hjk). }
  destruct (walk_down_spec U cfg B U_zero G (core_genesis (st_core s)) (cache s)
              s (S (N.to_nat (get_height b))) p (skel b) (get_height lb))
    as (l & q & _ & Hrun & Hch & _); [done|by split; [|right]|simpl; unfold get_height; lia|].
  rewrite Hrun. eexists. split; [done|]. intros Hq%bool_decide_eq_true. simplify_eq.
  split; [done|]. exists (skel lb). split; [done|]. split; [done|]. right.
  destruct (chain_node U cfg B U_zero G _ _ _ T _ _ _ (skel b) Hch) as (k' & Hk' & Ha);
    [by split; [|right]|].
  by rewrite (node_fun _ _ _ _ _ _ Hkl Hk').
Qed.

(** Conversely, a stored block that satisfies the rule gets the vote. *)
Lemma opinion_complete s p b jb lb :
  RI G s → st_heap s !! p = Some b → cache s !! get_hash b = Some p →
  linked (skel <$> st_heap s) (cache s) (skel b) →
  get_justify b ≫= (λ q, st_heap s !! q) = Some jb →
  st_heap s !! b_lock (st_core s) = Some lb →
  (vheight (st_core s) < get_height b)%N →
  (get_height lb < get_height jb)%N ∨ anc U (get_hash lb) (get_hash b) →
  opinion p s = Ok true s.
Proof using U_zero.
  intros I Hb Hcb Hl Hjb Hlb Hv Hrule. pose proof (ri_tree _ _ _ _ _ I) as T.
  pose proof (conj (skel_lookup_Some _ _ _ Hb) (or_intror Hl) : gn s p (skel b)) as Hk.
  destruct (ri_lock _ _ _ _ _ I) as (kl & [Hkl Hcl] & _).
  pose proof (proj1 Hkl) as Hkl'. rewrite (skel_lookup_Some _ _ _ Hlb) in Hkl'. injection Hkl' as <-.
  destruct (get_justify b) as [jp|] eqn:Hj; simpl in Hjb; [|done].
  unfold opinion, read, core, bind, gets, read_ptr, deref_ptr, deref.
  rewrite Hb. unfold ret at 1. rewrite (proj2 (N.ltb_lt _ _) Hv), Hj, Hjb. unfold ret at 1.
  rewrite Hlb. unfold ret at 1.
  destruct (N.ltb_spec (get_height lb) (get_height jb)) as [Hlt|Hge]; [done|].
  destruct Hrule as [?|Ha]; [lia|].
  pose proof (anc_ht_le U U_zero _ _ _ _ Ha (ti_ht _ _ _ _ _ _ _ T _ _ Hkl)
    (ti_ht _ _ _ _ _ _ _ T _ _ Hk)) as Hle.
  destruct (walk_down_spec U cfg B U_zero G (core_genesis (st_core s)) (cache s)
              s (S (N.to_nat (get_height b))) p (skel b) (get_height lb))
    as (l & q & kq & Hrun & Hch & Hkq & Hq); [done|done|simpl; unfold get_height; lia|].
  rewrite Hrun. unfold ret. f_equal. apply bool_decide_eq_true_2. f_equal.
  destruct (chain_node U cfg B U_zero G _ _ _ T _ _ _ _ Hch Hk) as (k' & Hk' & Ha').
  rewrite (node_fun _ _ _ _ _ _ Hk' Hkq) in Ha'. specialize (Hq Hle).
  pose proof (ti_ht _ _ _ _ _ _ _ T _ _ Hkq) as Hhq. rewrite Hq in Hhq.
  pose proof (ti_ht _ _ _ _ _ _ _ T _ _ Hkl) as Hhl.
  assert (Hsame : sk_hash kq = sk_hash (skel lb)).
  { destruct (anc_linear U _ _ _ Ha' Ha) as [H|H];
      [exact (anc_ht_eq U U_zero _ _ _ H Hhq Hhl)|
       symmetry; exact (anc_ht_eq U U_zero _ _ _ H Hhl Hhq)]. }
  assert (Hcq : cache s !! sk_hash kq = Some q).
  { destruct (chain_cached U cfg B U_zero G _ _ _ T _ _ _ _ _ Hch Hk Hkq) as [[<- _]|?]; [|done].
    by rewrite (node_fun _ _ _ _ _ _ Hkq Hk). }
  rewrite Hsame in Hcq. congruence.
Qed.

Lemma opinion_iff s p b jb lb :
  RI G s → cache s !! get_hash b = Some p → st_heap s !! p = Some b →
  get_justify b ≫= (λ q, st_heap s !! q) = Some jb →
  st_heap s !! b_lock (st_core s) = Some lb →
  ∃ op, opinion p s = Ok op s ∧
    (op = true ↔ (vheight (st_core s) < get_height b)%N ∧
      ((get_height lb < get_height jb)%N ∨ anc U (get_hash lb) (get_hash b))).
Proof using U_zero.
  intros I Hc Hb Hj Hlb. pose proof (ri_tree _ _ _ _ _ I) as T.
  pose proof (skel_lookup_Some _ _ _ Hb) as Hk.
  destruct (cached_node U cfg B U_zero G _ _ _ T _ _ Hc) as (k & [Hk' Hor] & _).
  rewrite Hk in Hk'. injection Hk' as <-.
  destruct (get_justify b) as [jp|] eqn:Hjp; simpl in Hj; [|done].
  assert (Hl : linked (skel <$> st_heap s) (cache s) (skel b)).
  { destruct Hor as [->|?]; [|done]. rewrite (tw_genesis _ _ _ (ti_wf _ _ _ _ _ _ _ T)) in Hk.
    apply (f_equal (fmap sk_justify)) in Hk. simpl in Hk.
    unfold get_justify in Hjp. congruence. }
  destruct (linked_justify U cfg B U_zero G _ _ _ T _ _ Hk Hl) as (jp' & jk & Hjp' & Hjk & _ & Hjh).
  unfold get_justify in Hjp. simpl in Hjp'. assert (jp' = jp) as -> by congruence.
  pose proof Hjk as [Hjk' _]. rewrite (skel_lookup_Some _ _ _ Hj) in Hjk'. injection Hjk' as <-.
  destruct (opinion_spec s p b I Hb Hl) as (op & Hop & Hy). exists op. split; [done|]. split.
  - intros ->. destruct (Hy eq_refl) as (Hv & kl & [Hkl _] & _ & Hrule). split; [done|].
    rewrite (skel_lookup_Some _ _ _ Hlb) in Hkl. injection Hkl as <-.
    destruct Hrule as [(m & Hm & Hlt)|?]; [left|by right].
    rewrite <- Hjh in Hm.
    by rewrite (ht_fun U U_zero _ _ _ Hm (ti_ht _ _ _ _ _ _ _ T _ _ Hjk)) in Hlt.
  - intros [Hv Hrule]. assert (Hop' : opinion p s = Ok true s); [|congruence].
    apply (opinion_complete s p b jb lb); auto. unfold get_justify. by rewrite Hjp.
Qed.

(** Hence the vote obeys the rules of Safety.v. *)
Lemma opinion_vote_ok s p b :
  RI G s → locked_votes (st_heap s) (st_core s) (votes s) → st_heap s !! p = Some b →
  linked (skel <$> st_heap s) (cache s) (skel b) → opinion p s = Ok true s →
  vote_ok U cfg B G r (get_hash b).
Proof using U_zero.
  intros I Hlv Hb Hl Hop. pose proof (ri_tree _ _ _ _ _ I) as T.
  pose proof (skel_lookup_Some _ _ _ Hb) as Hk.
  destruct (opinion_spec s p b I Hb Hl) as (op & Hop' & Hy).
  rewrite Hop in Hop'. simplify_eq.
  destruct (Hy eq_refl) as (Hv & kl & Hkl & Hcl & Hrule).
  pose proof (linked_U U cfg B U_zero G _ _ _ T _ _ Hk Hl) as HU. simpl in HU.
  destruct (ti_just _ _ _ _ _ _ _ T _ _ Hk Hl) as [Ha Hc].
  pose proof (ti_ht _ _ _ _ _ _ _ T _ _ (conj Hk (or_intror Hl))) as Hht. simpl in Hht.
  split.
  - eexists. split; [done|]. split; [done|]. by eapply anc_step.
  - eauto.
  - intros v n m Hin Hn Hm. apply (ri_log _ _ _ _ _ I) in Hin.
    destruct (ri_votes _ _ _ _ _ I _ Hin) as (n' & Hn' & Hle).
    rewrite (ht_fun U U_zero _ _ _ Hn Hn'), (ht_fun U U_zero _ _ _ Hm Hht).
    unfold get_height in Hv. lia.
  - exists (sk_hash kl), (sk_height kl). split; [done|].
    split; [by apply (ti_ht _ _ _ _ _ _ _ T _ _ Hkl)|]. split.
    + intros v hv hj j n Hin Hhv Hhj <- Hn. apply (ri_log _ _ _ _ _ I) in Hin.
      eapply Hlv; [done..|apply Hkl].
    + destruct Hrule as [(m & ? & ?)|]; [left|by right]. eauto.
Qed.
End vote.

(** What a replica guarantees together with the log, while it runs. *)
Definition good (G : list (ReplicaID * Hash)) (s : CoreSt E) : Prop :=
  log_ok U cfg B G ∧ RI G s ∧ locked_votes (st_heap s) (st_core s) (votes s).

(** The log with the votes [ws] of this replica added. *)
Definition log_add (ws : list Hash) (G : list (ReplicaID * Hash)) :=
  ((λ w, (r, w)) <$> ws) ++ G.

(** The handlers leave the block tree and the cache alone. *)
Definition tree_frame (s s' : CoreSt E) : Prop :=
  cache s' = cache s ∧ skel <$> st_heap s' = skel <$> st_heap s ∧
  core_genesis (st_core s') = core_genesis (st_core s).

(** The result of a handler: it went on and is [good], or it stopped. *)
Definition handler_ok (G : list (ReplicaID * Hash)) (s s' : CoreSt E) : Prop :=
  tree_frame s s' ∧ ∃ ws, votes s' = ws ++ votes s ∧ good (log_add ws G) s'.

Definition handler_stop (G : list (ReplicaID * Hash)) (s : CoreSt E) (f : fault)
    (s' : CoreSt E) : Prop :=
  allowed f ∧
  ∃ ws, votes s' = ws ++ votes s ∧ log_ok U cfg B (log_add ws G) ∧
        stopped (log_add ws G) (st_heap s') (votes s').

Section proposal.
Hypothesis cfg_wf : config_wf cfg.
Hypothesis few_faulty :
  (N.of_nat (size B) < nreplicas cfg - 2 * (nreplicas cfg / 3))%N.

Lemma locked_votes_update G s s' (b : HotstuffBlock) (voted : bool) :
  RI G s → lock_le s s' → lock_covers s' (skel b) →
  U (get_hash b) = Some (sk_header (skel b)) →
  locked_votes (st_heap s) (st_core s) (votes s) →
  votes s' = (if voted then [get_hash b] else []) ++ votes s →
  locked_votes (st_heap s') (st_core s') (votes s').
Proof.
  intros I Hle Hcov HU Hlv -> v hv hj n kl Hin Hhv Hhj Hn Hkl.
  destruct (ri_lock _ _ _ _ _ I) as (kl0 & [[Hkl0 _] _] & _).
  apply elem_of_app in Hin as [Hin|Hin].
  - destruct voted; [|set_solver]. assert (v = get_hash b) as -> by set_solver.
    rewrite HU in Hhv. simplify_eq. by eapply Hcov.
  - pose proof (Hlv _ _ _ _ _ Hin Hhv Hhj Hn Hkl0). pose proof (Hle _ _ Hkl0 Hkl). lia.
Qed.

Lemma on_receive_proposal_wp G s p b proposer :
  good G s → st_heap s !! p = Some b →
  linked (skel <$> st_heap s) (cache s) (skel b) → env_reaches (st_env s) proposer →
  wp (on_receive_proposal p proposer)
    (λ _ s', handler_ok G s s' ∧ ∀ p0, three_chain s b p0 → decided_in s' p0)
    (λ f s', handler_stop G s f s') s.
Proof using All.
  intros (Hlog & I & Hlv) Hb Hl Hreach. pose proof (ri_tree _ _ _ _ _ I) as T.
  pose proof (skel_lookup_Some _ _ _ Hb) as Hk.
  pose proof (linked_U U cfg B U_zero G _ _ _ T _ _ Hk Hl) as HU.
  destruct (opinion_spec G s p b I Hb Hl) as (op & Hop & Hy).
  unfold on_receive_proposal. apply wp_bind. eapply wp_run; [exact Hop|]. apply wp_bind.
  set (vs := if op then [get_hash b] else []).
  assert (Hupd : ∀ s1, log_ok U cfg B (log_add vs G) → RI (log_add vs G) s1 →
    votes s1 = vs ++ votes s → st_heap s1 = st_heap s → cache s1 = cache s →
    core_genesis (st_core s1) = core_genesis (st_core s) → b_lock (st_core s1) = b_lock (st_core s) →
    wp (update p) (λ _ s', handler_ok G s s' ∧ ∀ p0, three_chain s b p0 → decided_in s' p0)
      (λ f s', handler_stop G s f s') s1).
  { intros s1 Hlog1 I1 Hv1 Hh1 Hc1 Hg1 Hbl.
    eapply wp_mono; [eapply (update_wp cfg_wf few_faulty (log_add vs G) Hlog1 s1 p b I1)|..].
    - by rewrite Hh1.
    - by rewrite Hh1, Hc1.
    - intros _ s' (I' & F & Hcov & Hcm). destruct F as ([Hc' Hv'] & Hh' & Hg' & _ & Hle).
      split; [|intros p0 H3; apply Hcm; unfold three_chain in *; by rewrite Hh1].
      split; [by repeat split; rewrite ?Hc', ?Hh', ?Hg', ?Hh1|]. exists vs. split; [by rewrite Hv', Hv1|]. split; [done|]. split; [done|].
      apply (locked_votes_update G s s' b op); try done; [|by rewrite Hv', Hv1].
      intros kl kl' Hkl Hkl'. eapply Hle; [|done]. by rewrite Hh1, Hbl.
    - intros f s' (Hs & Hv' & Hf). split; [done|]. exists vs.
      split; [by rewrite Hv', Hv1|]. done. }
  apply wp_when; intros ->; [|by apply Hupd].
  destruct (Hy eq_refl) as (Hlt & _).
  assert (Hok : log_ok U cfg B (log_add [get_hash b] G))
    by (split; [by eapply opinion_vote_ok|done]).
  apply wp_bind, (wp_read _ _ b); [done|]. apply wp_bind, wp_modify. simpl.
  set (s0 := mkSt _ _ _ _).
  assert (I0 : RepInv ((r, get_hash b) :: G) (st_heap s) (st_core s0) (cache s)
                 (get_hash b :: votes s)).
  { eapply RepInv_vote; [done| |unfold get_height in *; lia|].
    - apply (ti_ht _ _ _ _ _ _ _ T _ _ (conj Hk (or_intror Hl))).
    - apply (ti_bound _ _ _ _ _ _ _ T _ _ Hk). }
  unfold in_env. apply wp_zoom. eapply wp_mono; [by apply do_vote_law|..]; simpl.
  - intros _ e [Hc Hs]. apply Hupd; unfold cache, votes in *; simpl; try done.
    by rewrite Hc, Hs.
  - intros f e (Hc & [Hs|Hs] & Hf); (split; [by left|]); unfold votes in *; simpl; rewrite Hs.
    + exists []. split; [done|]. split; [done|]. by apply RepInv_stopped.
    + exists [get_hash b]. split; [done|]. split; [done|].
      by eapply RepInv_stop.
Qed.
End proposal.

(** ** [on_receive_vote] *)

Lemma RepInv_set_qc G h co c sg p b qc :
  RepInv G h co c sg → h !! p = Some b → obj_hash qc = get_hash b →
  qc_ok G (with_self_qc b qc) → RepInv G (<[p := with_self_qc b qc]> h) co c sg.
Proof.
  intros [] Hb Hh Hq. set (b' := with_self_qc b qc).
  assert (Hgh : get_hash b' = get_hash b) by done.
  assert (Hskb : skel b' = skel b) by (unfold skel; simpl; by rewrite Hgh).
  assert (Hs : skel <$> <[p := b']> h = skel <$> h) by by apply (same_skel_insert _ _ b).
  assert (Hlk : ∀ q b1, <[p := b']> h !! q = Some b1 →
    ∃ b0, h !! q = Some b0 ∧ skel b1 = skel b0 ∧ get_hash b1 = get_hash b0 ∧
          decided b1 = decided b0).
  { intros q b1 [[<- <-]|[_ ?]]%lookup_insert_Some; [by exists b|by exists b1]. }
  split; rewrite ?Hs; try done.
  - intros q b1 ke Hb1 Hd Hke. destruct (Hlk _ _ Hb1) as (b0 & Hb0 & Hsk & Hg & Hdd).
    rewrite Hsk, Hg. eapply ri_decided0; [done|congruence|done].
  - intros hh q b1 ke Hc Hb1 Hke Ha. destruct (Hlk _ _ Hb1) as (b0 & Hb0 & _ & _ & ->).
    by eapply ri_undecided0.
  - intros q b1 [[<- <-]|[_ ?]]%lookup_insert_Some; [done|by eapply ri_qcs0].
Qed.

(** A certificate that reached a quorum certifies its block. *)
Lemma qc_ok_certified G b :
  qc_ok G b → has_quorum cfg (get_self_qc b) = true → certified cfg B G (get_hash b).
Proof.
  intros [Hwf Hm] Hq%N.leb_le. right. exists (list_to_set (sigs (self_qc b)).*1).
  split; [|split].
  - intros rid Hin%elem_of_list_to_set. by apply Hm.
  - rewrite size_list_to_set by by apply map_wf_NoDup. by rewrite length_fmap.
  - intros rid Hin%elem_of_list_to_set. by apply Hm.
Qed.

Lemma locked_votes_same h h' co co' sg :
  locked_votes h co sg → skel <$> h' = skel <$> h → b_lock co' = b_lock co →
  locked_votes h' co' sg.
Proof. intros Hl Hh Hb. unfold locked_votes. by rewrite Hh, Hb. Qed.

Lemma on_receive_vote_wp G s p b pc voterid :
  good G s → st_heap s !! p = Some b →
  node (core_genesis (st_core s)) (skel <$> st_heap s) (cache s) p (skel b) →
  voterid ∈ replicas cfg → (voterid ∉ B → (voterid, get_hash b) ∈ G) →
  pc_hash pc = get_hash b →
  wp (on_receive_vote pc p voterid)
    (λ _ s', handler_ok G s s') (λ f s', handler_stop G s f s') s.
Proof.
  intros (Hlog & I & Hlv) Hb Hk Hrid Hvote Hpc. unfold on_receive_vote.
  assert (Hstop : ∀ f s', allowed f → stopped G (st_heap s') (votes s') →
    votes s' = votes s → handler_stop G s f s').
  { intros f s' Hf Hst Hv. split; [done|]. by exists []. }
  apply wp_bind, (wp_read _ _ b); [done|]. apply wp_bind, wp_gets.
  destruct (add_partial_certificate voterid pc (get_self_qc b)) as [[] qc|f ?] eqn:Hadd.
  2: { apply Hstop; [|by apply RepInv_stopped|done]. revert Hadd.
       unfold add_partial_certificate. rewrite bool_decide_true by done. simpl.
       destruct (N.leb_spec MAX_REPLICAS voterid); [|done]. intros [= <- _]. right.
       by eapply out_id. }
  apply add_partial_certificate_Ok in Hadd as (_ & _ & Hqc).
  set (b' := with_self_qc b qc).
  assert (Hq : qc_ok G b').
  { destruct (ri_qcs _ _ _ _ _ I _ _ Hb) as [Hwf Hm]. unfold qc_ok, b'. simpl.
    rewrite Hqc. simpl. split; [by apply map_emplace_wf|].
    intros rid [->|Hin]%map_emplace_keys; [done|]. by apply Hm. }
  assert (Hh : obj_hash qc = get_hash b) by by rewrite Hqc.
  apply wp_bind, wp_modify. simpl. set (s1 := mkSt _ _ _ _).
  assert (I1 : RI G s1) by by apply RepInv_set_qc.
  assert (Hs1 : skel <$> st_heap s1 = skel <$> st_heap s).
  { apply (same_skel_insert _ _ b); [done|]. unfold skel. simpl. change (get_hash b') with (obj_hash qc). by rewrite Hh. }
  assert (L1 : locked_votes (st_heap s1) (st_core s1) (votes s1))
    by by apply (locked_votes_same (st_heap s) _ (st_core s)).
  rewrite (ri_config _ _ _ _ _ I). apply wp_when; intros Hnew.
  2: { split; [done|]. by exists []. }
  apply andb_true_iff in Hnew as [Hnew _].
  apply wp_bind. eapply wp_mono; [eapply (update_hqc_wp G s1 p (skel b))|..].
  - done.
  - by rewrite Hs1.
  - change (sk_hash (skel b)) with (get_hash b). rewrite <- Hh.
    by apply (qc_ok_certified G b').
  - done.
  - intros _ s2 (I2 & [Hc2 Hv2] & Hh2 & Hg2 & Hl2 & _).
    eapply wp_mono; [apply in_env_quiet, on_new_qc_law|..].
    + intros _ s' ([Hc' Hv'] & Hh' & Hco').
      split; [by repeat split; rewrite ?Hc', ?Hh', ?Hco', ?Hc2, ?Hh2, ?Hg2|]. exists []. split; [by rewrite Hv', Hv2|]. split; [done|].
      rewrite Hh', Hco', Hc', Hv'. split; [done|]. rewrite Hv2.
      eapply locked_votes_same; [exact L1|by rewrite Hh2|done].
    + intros f s' ([Hc' Hv'] & Hh' & Hco' & Hf). apply Hstop; [done| |by rewrite Hv', Hv2].
      rewrite Hh', Hv'. by apply RepInv_stopped.
  - intros f s2 (Hh2 & Hv2 & Hf). apply Hstop; [done| |done]. rewrite Hh2, Hv2.
    by apply RepInv_stopped.
Qed.
End replica.

(** ** Recording a vote, and restarting *)

Section recorded.
Context {i_sodium : Sodium} {i_xdr : Xdr} {i_bv : BitVector} {i_fs : Fs} {i_lmdb : LmdbLib}.
Context {E : Type} {i_virt : CoreVirtuals E}.

Definition with_vheight (n : N) (s : CoreSt E) : CoreSt E :=
  mkSt (st_heap s) (st_disk s) (set_vheight n (st_core s)) (st_env s).

Lemma read_ptr_vheight n p : natural (with_vheight n) (read_ptr p).
Proof.
  intros s. unfold read_ptr, deref_ptr, deref. destruct p as [p|]; [|done]. simpl.
  by destruct (st_heap s !! p).
Qed.

Lemma walk_down_vheight n fuel p lh : natural (with_vheight n) (walk_down fuel p lh).
Proof.
  revert p. induction fuel; intros p; simpl; nat_step; auto. apply read_ptr_vheight.
Qed.

#[local] Arguments walk_down : simpl never.
#[local] Arguments u32 : simpl never.

(** Once a vote is recorded the same block is refused, as long as its height
    fits the 32 bits of [vheight]. *)
Lemma vote_recorded s p b :
  st_heap s !! p = Some b → opinion p s = Ok true s →
  let s' := with_vheight (get_height b) s in
  opinion p s' = Ok (2 ^ 32 <=? get_height b)%N s'.
Proof.
  intros Hb Hop s'. unfold opinion, read, core, bind, gets, deref in *. simpl in *.
  rewrite Hb in *. unfold ret in *.
  destruct (N.leb_spec (2 ^ 32) (get_height b)) as [Hbig|Hsmall].
  - rewrite (proj2 (N.ltb_lt _ _)) by
      (apply N.lt_le_trans with (2 ^ 32)%N; [by apply N.mod_lt|done]).
    destruct (vheight (st_core s) <? get_height b)%N; [|done].
    unfold s'. rewrite read_ptr_vheight.
    destruct (read_ptr (get_justify b) s) as [jb s1|f s1] eqn:Hj; [simpl|done].
    assert (s1 = s) as ->.
    { unfold read_ptr, deref_ptr, deref, ret, halt_with in Hj.
      destruct (get_justify b) as [q|]; [|done]. by destruct (st_heap s !! q); simplify_eq. }
    destruct (st_heap s !! b_lock (st_core s)) as [lb|]; [|done]. simpl in *.
    destruct (get_height lb <? get_height jb)%N; [done|]. rewrite walk_down_vheight.
    destruct (walk_down _ _ _ s); simpl in *; [|done]. by injection Hop as -> ->.
  - rewrite (u32_small _ Hsmall : vheight (st_core s') = get_height b). by rewrite N.ltb_irrefl.
Qed.

(** After a restart the lock, the executed block and the last vote are those
    of the certificate on disk, whatever they were before. *)
Lemma reload_state_spec s qc p b e :
  get_highest_qc (decided_hash_index (st_core s)) s = Ok qc s →
  find_block_by_hash (obj_hash qc) (st_env s) = Ok p e →
  st_heap s !! p = Some b →
  wp reload_state_from_index
    (λ _ s', b_lock (st_core s') = p ∧ b_exec (st_core s') = p ∧
       vheight (st_core s') = u32 (get_height b)) (λ _ _, True) s.
Proof.
  intros Hqc Hp Hb. unfold reload_state_from_index.
  apply wp_bind, wp_gets, wp_bind. eapply wp_run; [exact Hqc|].
  apply wp_bind. unfold in_env, zoom, wp at 1. rewrite Hp. apply wp_bind.
  eapply (wp_mono _ (λ _ s', st_heap s' = st_heap s) _ (λ _ _, True)); [|intros u s' Hh|done].
  { unfold wp, update_hqc, bind, read, deref, core, gets, halt_with, ret. simpl. rewrite Hb. simpl.
    destruct (st_heap s !! (hqc (st_core s)).1); simpl; [|done].
    destruct (_ <? _)%N; [|done]. unfold in_core, modify. simpl.
    destruct (negb _); [|done]. unfold in_env, zoom. simpl.
    by destruct (notify_vm_of_qc_on_nonself_block _ _ _). }
  apply wp_bind, (wp_read _ _ b); [by rewrite Hh|]. unfold wp. simpl. done.
Qed.
End recorded.
