(* ===== verification/StoreInv.v ===== *)
(** * The block store and the replica's invariant

    Receiving a block puts it on the heap, [insert_block] links it into the
    tree, the collector flushes bodies: each keeps the invariant of
    ReplicaInv.v, provided the block's header is the one its hash stands for and
    its justified block is a certified ancestor of its parent. *)

From S2P Require Import Prelude Types ReplicaConfig Certs IoUtils Block BlockStore Lmdb.
From S2P Require Import Consensus Safety ReplicaInv.

Section store.
Context {i_sodium : Sodium} {i_xdr : Xdr} {i_bv : BitVector}.
Context (U : Hash → option HotstuffBlockHeader) (cfg : ReplicaConfig) (B : gset ReplicaID).
Hypothesis U_zero : U zero_hash = None.
Context (r : ReplicaID).
Context {i_lmdb : LmdbLib}.

Abbreviation RepI := (RepInv U cfg B r).
Abbreviation TreeI := (TreeInv U cfg B).

(** Every ancestor of a stored block is stored. *)
Lemma anc_cached G g t c p k a :
  TreeI G g t c → cnode g t c p k → anc U a (sk_hash k) → is_Some (c !! a).
Proof using U_zero.
  intros T Hk Ha. remember (sk_hash k) as w eqn:Hw. revert p k Hk Hw.
  induction Ha as [|w hd HU Ha IH]; intros p k [Hk Hc] Hw.
  - rewrite Hw. eauto.
  - destruct Hk as [Hk [->|Hl]].
    { rewrite (tw_genesis _ _ _ (ti_wf _ _ _ _ _ _ _ T)) in Hk. simplify_eq.
      change (U zero_hash = Some hd) in HU. congruence. }
    pose proof (linked_U U cfg B U_zero G g t c T _ _ Hk Hl) as HU'.
    rewrite <- Hw, HU in HU'. simplify_eq.
    destruct (linked_parent U cfg B U_zero G g t c T _ _ Hk Hl)
      as (pp & pk & _ & Hpk & Hcp & Hh & _).
    by apply (IH pp pk).
Qed.

(** A change of the heap that keeps nodes and entries keeps the invariant. *)
Lemma RepInv_ext G h h' co c c' sg :
  RepI G h co c sg →
  TreeI G (core_genesis co) (skel <$> h') c' →
  (∀ q k, node (core_genesis co) (skel <$> h) c q k →
          node (core_genesis co) (skel <$> h') c' q k) →
  (∀ hh q, c !! hh = Some q → c' !! hh = Some q) →
  (∀ p b, h' !! p = Some b → decided b = true →
     ∃ b0, h !! p = Some b0 ∧ decided b0 = true ∧ skel b = skel b0) →
  (∀ hh p b, c' !! hh = Some p → h' !! p = Some b →
     c !! hh = None ∨
     ∃ b0, c !! hh = Some p ∧ h !! p = Some b0 ∧ decided b = decided b0) →
  (∀ p b, h' !! p = Some b → qc_ok cfg B G b) →
  RepI G h' co c' sg.
Proof using U_zero.
  intros I T' Hn Hc Hd Hud Hq. pose proof (ri_tree _ _ _ _ _ _ _ _ _ I) as T.
  destruct (ri_lock _ _ _ _ _ _ _ _ _ I) as (kl & [Hkl Hcl] & Hcertl).
  destruct (ri_exec _ _ _ _ _ _ _ _ _ I) as (ke & [Hke Hce] & Hcm).
  pose proof (Hn _ _ Hkl) as Hkl'. pose proof (Hn _ _ Hke) as Hke'.
  assert (Hex : ∀ k, (skel <$> h') !! b_exec co = Some k → k = ke)
    by (intros k Hk; destruct Hke'; congruence).
  destruct I as [_ ? ? _ _ Ho (kh & Hkh & Hch & Hqh) (kf & kh' & Hkf & Hkh' & Haf) Hdec Hund _ Hv Hlog].
  split; try done.
  - exists kl. split; [split; [done|by apply Hc]|done].
  - exists ke. split; [split; [done|by apply Hc]|done].
  - intros kl0 ke0 Hl0 ->%Hex. assert (kl0 = kl) as -> by (destruct Hkl'; congruence).
    eapply Ho; [apply Hkl|apply Hke].
  - exists kh. auto.
  - exists kf, kh. split; [by apply Hn|]. split; [apply (Hn _ _ Hkh)|].
    assert (kh' = kh) as -> by (destruct Hkh; congruence). done.
  - intros p b ke0 Hb Hdb ->%Hex. destruct (Hd _ _ Hb Hdb) as (b0 & Hb0 & Hd0 & Hsk).
    destruct (Hdec _ _ _ Hb0 Hd0 (proj1 Hke)) as [Hnode Ha]. rewrite Hsk.
    split; [by apply Hn|].
    change (get_hash b) with (sk_hash (skel b)). by rewrite Hsk.
  - intros hh p b ke0 Hch' Hb ->%Hex Ha.
    destruct (Hud _ _ _ Hch' Hb) as [Hnone|(b0 & Hc0 & Hb0 & ->)].
    + destruct (anc_cached _ _ _ _ _ _ _ T (conj Hke Hce) Ha). congruence.
    + eapply Hund; [done..|apply Hke|done].
Qed.

(** ** Receiving a block *)

Lemma TreeInv_alloc G g t c p k :
  TreeI G g t c → t !! p = None → node_ok k → unlinked k →
  U (sk_hash k) = Some (sk_header k) →
  TreeI G g (<[p := k]> t) c ∧ ∀ q kq, node g t c q kq → node g (<[p := k]> t) c q kq.
Proof.
  intros T Hp Hk Hu HU. pose proof T as [Hwf HtU Hht Hb Hj].
  assert (Hmono : ∀ q kq, t !! q = Some kq → <[p := k]> t !! q = Some kq).
  { intros q kq Hq. rewrite lookup_insert_ne; [done|congruence]. }
  assert (Hl : ∀ kq, linked t c kq → linked (<[p := k]> t) c kq)
    by (intros; eapply linked_mono; eauto).
  assert (Hback : ∀ q kq, <[p := k]> t !! q = Some kq → linked (<[p := k]> t) c kq →
            t !! q = Some kq ∧ linked t c kq).
  { intros q kq [[<- <-]|[Hne Hq]]%lookup_insert_Some Hlk.
    { by destruct (linked_not_unlinked _ _ _ Hlk). }
    split; [done|]. destruct (decide (q = g)) as [->|Hqg].
    { rewrite (tw_genesis _ _ _ Hwf) in Hq. simplify_eq.
      by destruct Hlk as (? & ? & ? & ? & ? & _). }
    destruct (tw_nodes _ _ _ Hwf _ _ Hq Hqg) as [_ [Hul|?]]; [|done].
    by destruct (linked_not_unlinked _ _ _ Hlk). }
  split.
  - split.
    + by apply tree_wf_alloc.
    + intros q kq [[<- <-]|[_ Hq]]%lookup_insert_Some; eauto.
    + intros q kq [Hq [->|Hlk]].
      * rewrite (Hmono _ _ (tw_genesis _ _ _ Hwf)) in Hq. simplify_eq.
        apply (Hht g). split; [apply (tw_genesis _ _ _ Hwf)|by left].
      * destruct (Hback _ _ Hq Hlk). apply (Hht q). split; auto.
    + intros q kq [[<- <-]|[_ Hq]]%lookup_insert_Some; [|eauto].
      by destruct Hu as (-> & _).
    + intros q kq Hq Hlk. destruct (Hback _ _ Hq Hlk). eauto.
  - intros q kq [Hq [->|Hlk]]; split; auto.
Qed.

Lemma RepInv_alloc G h co c sg p b :
  RepI G h co c sg → h !! p = None → node_ok (skel b) → unlinked (skel b) →
  U (get_hash b) = Some (header (wire_block b)) → decided b = false →
  sigs (self_qc b) = [] →
  RepI G (<[p := b]> h) co c sg ∧
  ∀ q kq, node (core_genesis co) (skel <$> h) c q kq →
          node (core_genesis co) (skel <$> <[p := b]> h) c q kq.
Proof using U_zero.
  intros I Hp Hok Hun HU Hd Hs.
  pose proof (ri_tree _ _ _ _ _ _ _ _ _ I) as T.
  destruct (TreeInv_alloc G _ _ c p (skel b) T) as [T' Hn]; try done.
  { by rewrite lookup_fmap, Hp. }
  rewrite <- fmap_insert in *. split; [|done].
  eapply RepInv_ext; [exact I|done|done|done|..].
  - intros q b' [[<- <-]|[_ Hq]]%lookup_insert_Some; [congruence|eauto].
  - intros hh q b' Hc [[<- <-]|[_ Hq]]%lookup_insert_Some; [|eauto].
    destruct (tw_cached _ _ _ (ti_wf _ _ _ _ _ _ _ T) _ _ Hc) as (k & Hk & _).
    by rewrite lookup_fmap, Hp in Hk.
  - intros q b' [[<- <-]|[_ Hq]]%lookup_insert_Some; [|by eapply ri_qcs].
    unfold qc_ok. rewrite Hs. split; [apply map_wf_nil|]. simpl. set_solver.
Qed.

(** ** Inserting a block *)

Hypothesis U_short : ∀ h n, ht U h n → (n < 2 ^ 32)%N.

Section link.
Context (G : list (ReplicaID * Hash)) (g : loc) (t : tree) (c : gmap Hash loc).
Context (p : loc) (k : Skel) (pp : loc) (pk : Skel) (jp : loc).
Hypothesis T : TreeI G g t c.
Hypothesis Hk : t !! p = Some k.
Hypothesis Hpg : p ≠ g.
Hypothesis Hpp : c !! parent_hash (sk_header k) = Some pp.
Hypothesis Hpk : t !! pp = Some pk.
Hypothesis Hjp : c !! qcw_justify (header_qc (sk_header k)) = Some jp.
Hypothesis Hanc : anc U (just_of (sk_header k)) (parent_hash (sk_header k)).
Hypothesis Hcert : certified cfg B G (just_of (sk_header k)).

Let t' := <[p := link k pp pk jp]> t.
Let c' := cache_emplace (sk_hash k) p c.

Lemma link_linked_mono kq : linked t c kq → linked t' c' kq.
Proof using T Hk Hpg Hpp Hpk Hjp.
  intros Hl. eapply linked_mono; [done| |apply cache_emplace_mono].
  intros q k0. by apply (link_frame g); [apply T|..].
Qed.

Lemma link_node q kq : node g t c q kq → node g t' c' q kq.
Proof using T Hk Hpg Hpp Hpk Hjp.
  intros [Hq Hor]. destruct (decide (p = q)) as [<-|Hne].
  - destruct Hor as [->|Hl]; [done|]. simplify_eq. split; [|by right; apply link_linked_mono].
    unfold t'. rewrite lookup_insert_eq. f_equal. by eapply link_linked.
  - split; [unfold t'; by rewrite lookup_insert_ne|].
    destruct Hor as [->|Hl]; [by left|right]. by apply link_linked_mono.
Qed.

Lemma link_back q kq : t' !! q = Some kq → linked t' c' kq →
  (q = p ∧ kq = link k pp pk jp) ∨ (t !! q = Some kq ∧ linked t c kq).
Proof using T Hk Hpg Hpp Hpk Hjp.
  unfold t'. intros [[<- <-]|[Hne Hq]]%lookup_insert_Some Hlk; [by left|right].
  split; [done|]. pose proof (ti_wf _ _ _ _ _ _ _ T) as Hwf.
  destruct (decide (q = g)) as [->|Hqg].
  { rewrite (tw_genesis _ _ _ Hwf) in Hq. simplify_eq.
    by destruct Hlk as (? & ? & ? & ? & ? & _). }
  destruct (tw_nodes _ _ _ Hwf _ _ Hq Hqg) as [_ [Hul|?]]; [|done].
  by destruct (linked_not_unlinked _ _ _ Hlk).
Qed.

Lemma link_ht : ht U (sk_hash k) (sk_height pk + 1) ∧ u64 (sk_height pk + 1) = (sk_height pk + 1)%N.
Proof using T Hk Hpg Hpp Hpk U_zero U_short.
  destruct (cached_node U cfg B U_zero G g t c T _ _ Hpp) as (pk' & Hn & Hh).
  assert (pk' = pk) as -> by (destruct Hn; congruence).
  split.
  - eapply ht_step; [by apply (ti_U _ _ _ _ _ _ _ T p)|]. rewrite <- Hh.
    by apply (ti_ht _ _ _ _ _ _ _ T pp).
  - apply u64_small. pose proof (ti_bound _ _ _ _ _ _ _ T _ _ Hpk).
    change (2 ^ 64)%N with (2 ^ 32 * 2 ^ 32)%N. lia.
Qed.

Lemma TreeInv_link : TreeI G g t' c'.
Proof using All.
  pose proof T as [Hwf HtU Hht Hb Hj]. destruct link_ht as [Hnew Hu].
  split.
  - by apply tree_wf_link.
  - intros q kq [[<- <-]|[_ Hq]]%lookup_insert_Some Hqg; [exact (HtU p k Hk Hpg)|eauto].
  - intros q kq [Hq [->|Hlk]].
    + unfold t' in Hq. rewrite lookup_insert_ne in Hq by done.
      apply (Hht g). split; [done|by left].
    + destruct (link_back _ _ Hq Hlk) as [[-> ->]|[Hq' Hl']].
      * simpl. by rewrite Hu.
      * apply (Hht q). split; auto.
  - intros q kq [[<- <-]|[_ Hq]]%lookup_insert_Some; [|eauto].
    simpl. rewrite Hu. by eapply U_short.
  - intros q kq Hq Hlk. destruct (link_back _ _ Hq Hlk) as [[-> ->]|[Hq' Hl']]; [done|eauto].
Qed.
End link.

(** A received block that may enter the tree. *)
Definition block_valid (G : list (ReplicaID * Hash)) (g : loc) (h : heap) (p : loc) : Prop :=
  p ≠ g ∧ ∃ b, h !! p = Some b ∧
    anc U (just_of (header (wire_block b))) (get_parent_hash b) ∧
    certified cfg B G (just_of (header (wire_block b))).

(** Blocks stay on the heap with their header and hash. *)
Definition heap_le (h h' : heap) : Prop := ∀ q b, h !! q = Some b →
  ∃ b', h' !! q = Some b' ∧ header (wire_block b') = header (wire_block b) ∧
        get_hash b' = get_hash b.

(** The tree only grows. *)
Definition tree_le (g : loc) (h : heap) (c : gmap Hash loc) (h' : heap) (c' : gmap Hash loc)
  : Prop :=
  heap_le h h' ∧
  (∀ q k, node g (skel <$> h) c q k → node g (skel <$> h') c' q k) ∧
  (∀ hh q, c !! hh = Some q → c' !! hh = Some q).

Lemma tree_le_refl g h c : tree_le g h c h c.
Proof. split; [|done]. intros q b Hq. eauto. Qed.

Lemma tree_le_trans g h1 c1 h2 c2 h3 c3 :
  tree_le g h1 c1 h2 c2 → tree_le g h2 c2 h3 c3 → tree_le g h1 c1 h3 c3.
Proof.
  intros (H1 & N1 & C1) (H2 & N2 & C2). split; [|split; eauto].
  intros q b Hb. destruct (H1 _ _ Hb) as (b2 & Hb2 & ? & ?).
  destruct (H2 _ _ Hb2) as (b3 & Hb3 & ? & ?). exists b3. split; [done|]. split; congruence.
Qed.

Lemma tree_le_same_skel g h c h' : skel <$> h' = skel <$> h → tree_le g h c h' c.
Proof.
  intros Hs. split; [|by rewrite Hs]. intros q b Hb.
  assert (Hk : (skel <$> h') !! q = Some (skel b)) by (rewrite Hs; by apply skel_lookup_Some).
  apply skel_lookup in Hk as (b' & Hb' & Hsk). exists b'. split; [done|].
  split; [exact (f_equal sk_header Hsk)|exact (f_equal sk_hash Hsk)].
Qed.

Lemma block_valid_le G G' g h c h' c' p :
  block_valid G g h p → tree_le g h c h' c' → (∀ x, x ∈ G → x ∈ G') → block_valid G' g h' p.
Proof.
  intros (Hg & b & Hb & Ha & Hc) (Hle & _) Hsub. split; [done|].
  destruct (Hle _ _ Hb) as (b' & Hb' & Hw & _). exists b'. unfold get_parent_hash in *.
  rewrite Hw. split; [done|]. split; [done|]. by eapply certified_mono.
Qed.

(** [insert_block] on a valid block: it returns, keeps the invariant and grows
    the tree, and unless a dependency is missing the block is linked. *)
Lemma insert_block_RepInv G h co st sg p :
  RepI G h co (block_cache st) sg → block_valid G (core_genesis co) h p →
  ∃ md h' st', insert_block p (h, st) = Ok md (h', st') ∧
    RepI G h' co (block_cache st') sg ∧
    tree_le (core_genesis co) h (block_cache st) h' (block_cache st') ∧
    (missing md = false → ∃ b', h' !! p = Some b' ∧
       linked (skel <$> h') (block_cache st') (skel b')) ∧
    (∀ b, h !! p = Some b → is_Some (block_cache st !! get_parent_hash b) →
       is_Some (block_cache st !! just_of (header (wire_block b))) → missing md = false).
Proof using All.
  intros I (Hpg & b & Hb & Ha & Hcert). pose proof (ri_tree _ _ _ _ _ _ _ _ _ I) as T.
  pose proof (insert_block_spec _ h st p b (ti_wf _ _ _ _ _ _ _ T) Hb Hpg) as Hspec.
  simpl in Hspec.
  destruct (block_cache st !! get_parent_hash b) as [pp|] eqn:Hpp;
    destruct (block_cache st !! qcw_justify (header_qc (header (wire_block b)))) as [jp|] eqn:Hjp;
    [|eexists _, h, st; split; [exact Hspec|]; split; [done|]; split;
      [apply tree_le_refl|]; split; [done|];
      intros b1 Hb1 [??] [??]; unfold just_of in *; congruence..].
  destruct Hspec as (pb & Hpb & Hrun). eexists _, _, _. split; [exact Hrun|]. simpl.
  set (b' := set_justify (set_parent b pp (get_height pb)) jp) in *.
  pose proof (skel_lookup_Some _ _ _ Hb) as Hk. pose proof (skel_lookup_Some _ _ _ Hpb) as Hpk.
  assert (Hnode := λ q kq, link_node G _ _ _ p (skel b) pp (skel pb) jp T Hk Hpg Hpp Hpk Hjp q kq).
  assert (T' := TreeInv_link G _ _ _ p (skel b) pp (skel pb) jp T Hk Hpg Hpp Hpk Hjp Ha Hcert).
  change (link (skel b) pp (skel pb) jp) with (skel b') in *.
  change (sk_hash (skel b)) with (get_hash b) in *.
  rewrite <- fmap_insert in Hnode, T'.
  split; [|split; [split; [|split; [done|apply cache_emplace_mono]]|]].
  - eapply RepInv_ext; [exact I|done|done|apply cache_emplace_mono|..].
    + intros q b1 [[<- <-]|[_ Hq]]%lookup_insert_Some Hd1; [|by eauto].
      exists b. split; [done|]. split; [done|].
      destruct (ri_exec _ _ _ _ _ _ _ _ _ I) as (ke & [[Hke _] _] & _).
      destruct (ri_decided _ _ _ _ _ _ _ _ _ I _ _ _ Hb Hd1 Hke) as [[_ [->|Hl]] _]; [done|].
      by eapply (link_linked _ _ (skel b) pp (skel pb) jp).
    + intros hh q b1 Hc1 Hb1.
      destruct (block_cache st !! hh) as [q0|] eqn:Hq0; [right|by left].
      apply (cache_emplace_mono (get_hash b) p) in Hq0 as Hq0'. simplify_eq.
      apply lookup_insert_Some in Hb1 as [[<- <-]|[_ Hb1]]; eauto.
    + intros q b1 [[<- <-]|[_ Hq]]%lookup_insert_Some; [|by eapply ri_qcs].
      exact (ri_qcs _ _ _ _ _ _ _ _ _ I p b Hb).
  - intros q b1 Hq. destruct (decide (p = q)) as [<-|Hne].
    + simplify_eq. exists b'. by rewrite lookup_insert_eq.
    + exists b1. by rewrite lookup_insert_ne.
  - split; [|done]. intros _. exists b'. rewrite lookup_insert_eq. split; [done|].
    assert (Hk' : (skel <$> <[p := b']> h) !! p = Some (skel b'))
      by (apply skel_lookup_Some, lookup_insert_eq).
    destruct (tw_nodes _ _ _ (ti_wf _ _ _ _ _ _ _ T') _ _ Hk' Hpg) as [_ [(_ & Hul & _)|Hl]];
      [done|exact Hl].
Qed.
End store.
