(* ===== verification/AppInv.v ===== *)
(** * What a replica process maintains

    [HotstuffAppBase] implements the virtual methods as the core expects
    ([CoreLaws]); and the invariant of the whole process of App.v: the core's
    invariant, and everything waiting in a queue is fit to be handled.  Each
    operation of the process keeps it. *)

From S2P Require Import Prelude Types ReplicaConfig Certs IoUtils Block BlockStore Lmdb.
From S2P Require Import Consensus Events FetchManager App Safety ReplicaInv StoreInv.

(** How a vm bridge may stop when it is given blocks of the heap; not with the
    core's own exception. *)
Class VMBridgeLaws {i_lmdb : LmdbLib} (V : Type) {i_bridge : VMBridge V} := {
  bridge_fault : fault → Prop;
  bridge_no_breach : ¬ bridge_fault safety_breached;
  next_faults : ∀ ne n v,
    wp (get_next_vm_block ne n) (λ _ _, True) (λ f _, bridge_fault f) v;
  apply_faults : ∀ h p tx v, is_Some (h !! p) →
    wp (bridge_apply_block h p tx) (λ _ _, True) (λ f _, bridge_fault f) v;
  commit_faults : ∀ h p v, is_Some (h !! p) →
    wp (bridge_notify_vm_of_commitment h p) (λ _ _, True) (λ f _, bridge_fault f) v;
}.

Section laws.
Context {i_sodium : Sodium} {i_xdr : Xdr} {i_bv : BitVector} {i_fs : Fs} {i_lmdb : LmdbLib}.
Context {V : Type} {i_bridge : VMBridge V} {i_blaws : VMBridgeLaws V}.

Definition app_same (e e' : AppBase V) : Prop :=
  block_cache (a_store e') = block_cache (a_store e) ∧ a_signed e' = a_signed e.

Lemma in_vm_wp {A} (m : M V A) (Q : A → V → Prop) (R : fault → Prop) e :
  (∀ v, wp m Q (λ f _, R f) v) →
  wp (in_vm m) (λ _, app_same e) (λ f e', app_same e e' ∧ R f) e.
Proof.
  intros Hm. unfold in_vm. apply wp_zoom. eapply wp_mono; [apply Hm|done|done].
Qed.

(** An event whose block exists, and has the hash that was voted for. *)
Definition event_fits (h : heap) (ev : Event) : Prop :=
  match ev with
  | EVote v => ∃ b, h !! ve_block v = Some b ∧ get_hash b = pc_hash (ve_cert v)
  | EProposal p => is_Some (h !! pe_block p)
  end.

Lemma event_queue_add_spec h ev (e : AppBase V) :
  event_fits h ev →
  wp (event_queue_add h ev)
    (λ _ e', e' = e ∨ e' = set_events (a_events e ++ [ev]) e) (λ _ _, False) e.
Proof.
  unfold event_queue_add, Event_validate, VoteEvent_validate, ProposalEvent_validate,
    wp, bind, deref, ret, throw, halt_with, add_event, modify.
  destruct ev as [v|p]; simpl.
  - intros (b & -> & Hh). rewrite bool_decide_true by done. simpl. auto.
  - intros [b ->]. destruct (negb _); simpl; auto.
Qed.

Lemma event_queue_add_wp h ev e :
  event_fits h ev → wp (event_queue_add h ev) (λ _ e', app_same e e') (λ _ _, False) e.
Proof.
  intros Hf. eapply wp_mono; [by apply event_queue_add_spec| |done].
  by intros _ e' [-> | ->].
Qed.

(** The replicas the protocol manager can send to. *)
Definition peers (e : AppBase V) (rid : ReplicaID) : Prop :=
  rid = pm_self_id (a_protocol e) ∨ rid ∈ dom (other_clients (a_protocol e)).

Lemma send_vote_to_wp h p b pc target e :
  h !! p = Some b → get_hash b = pc_hash pc → peers e target →
  wp (send_vote_to h p pc target) (λ _ e', app_same e e') (λ _ _, False) e.
Proof.
  intros Hb Hh Hp. unfold send_vote_to. apply wp_bind, wp_gets.
  destruct (N.eqb_spec target (pm_self_id (a_protocol e))) as [?|Hne].
  - apply event_queue_add_wp. by exists b.
  - destruct Hp as [?|[work Hw]%elem_of_dom]; [done|]. by rewrite Hw.
Qed.

(** The application's virtual methods obey the core's interface. *)
#[export, refine] Instance app_laws : CoreLaws (AppBase V) := {|
  env_store := a_store;
  signed := a_signed;
  env_fault f := bridge_fault f ∨ (f = Exn (RuntimeError "failed to sign message") ∧
    ∃ m sk, crypto_sign_detached m sk = None);
  env_reaches := peers;
|}.
Proof.
  - intros h p r b e Hb Hr. simpl. unfold app_do_vote. apply wp_bind. unfold deref. rewrite Hb.
    apply wp_ret, wp_bind, wp_gets, wp_bind. unfold PC_sign.
    destruct (crypto_sign_detached _ _) as [sig|] eqn:Hs.
    2: { apply wp_throw. split; [done|]. split; [by left|]. right. split; [done|]. by eexists _, _. }
    apply wp_ret, wp_bind, wp_modify.
    eapply wp_mono; [by apply (send_vote_to_wp h p b)| |done]; simpl.
    intros _ e' [Hc Hsg]. by rewrite Hc, Hsg.
  - intros h e. done.
  - intros h p tx Hp e. eapply wp_mono; [apply (in_vm_wp _ (λ _ _, True) bridge_fault)|done|].
    + intros v. by apply apply_faults.
    + intros f e' [? ?]. auto.
  - intros h p Hp e. eapply wp_mono; [apply (in_vm_wp _ (λ _ _, True) bridge_fault)|done|].
    + intros v. by apply commit_faults.
    + intros f e' [? ?]. auto.
  - intros h p e. done.
  - intros n e. done.
Defined.

Lemma app_allowed cfg f : allowed (E := AppBase V) cfg f ↔ bridge_fault f ∨ outside cfg f.
Proof.
  unfold allowed. simpl. split; [|naive_solver].
  intros [[?|[-> (m & sk & Hs)]]|?]; [by left|right; by eapply out_sign|by right].
Qed.

Lemma app_no_breach cfg f : allowed (E := AppBase V) cfg f → f ≠ safety_breached.
Proof.
  intros [Hf|Hf]%app_allowed ->; [by apply bridge_no_breach in Hf|].
  by apply outside_no_breach in Hf.
Qed.
End laws.

(** ** Relations on the application's state kept by the core's handlers *)

Section env_rel.
Context {i_sodium : Sodium} {i_xdr : Xdr} {i_bv : BitVector} {i_fs : Fs} {i_lmdb : LmdbLib}.
Context {E : Type} {i_virt : CoreVirtuals E}.
Context (R : E → E → Prop) {R_po : PreOrder R}.

Definition env_rel {A} (m : M (CoreSt E) A) : Prop := ∀ s,
  wp m (λ _ s', R (st_env s) (st_env s')) (λ _ s', R (st_env s) (st_env s')) s.

Lemma env_rel_bind {A A'} (m : M (CoreSt E) A) (k : A → M (CoreSt E) A') :
  env_rel m → (∀ a, env_rel (k a)) → env_rel (bind m k).
Proof using R_po.
  intros Hm Hk s. apply wp_bind. eapply wp_mono; [apply Hm| |done].
  intros a s1 H1. eapply wp_mono; [apply Hk|..]; intros; (etrans; [exact H1|done]).
Qed.

(** Computations that do not touch the environment at all. *)
Definition env_id {A} (m : M (CoreSt E) A) : Prop := ∀ s,
  wp m (λ _ s', st_env s' = st_env s) (λ _ s', st_env s' = st_env s) s.

Lemma env_id_rel {A} (m : M (CoreSt E) A) : env_id m → env_rel m.
Proof using R_po. intros Hm s. eapply wp_mono; [apply Hm|..]; by intros ?? ->. Qed.

Lemma env_id_ret {A} (a : A) : env_id (ret a).
Proof. done. Qed.
Lemma env_id_throw {A} e : env_id (A := A) (throw e).
Proof. done. Qed.
Lemma env_id_halt {A} h : env_id (A := A) (halt_with h).
Proof. done. Qed.
Lemma env_id_core {A} (f : HotstuffCore → A) : env_id (core f).
Proof. done. Qed.
Lemma env_id_in_core f : env_id (in_core f).
Proof. done. Qed.
Lemma env_id_set_block p b : env_id (set_block p b).
Proof. done. Qed.
Lemma env_id_read p : env_id (read p).
Proof. intros s. unfold wp, read, deref. by destruct (st_heap s !! p). Qed.
Lemma env_id_read_ptr p : env_id (read_ptr p).
Proof. intros s. unfold wp, read_ptr, deref_ptr. destruct p; [apply env_id_read|done]. Qed.
Lemma env_id_get_info c rid : env_id (get_info c rid).
Proof. intros s. unfold wp, get_info. by destruct (replica_map c !! rid). Qed.
Lemma env_id_justify_qc b : env_id (get_justify_qc b).
Proof. intros s. unfold wp, get_justify_qc. by destruct (parsed_qc b). Qed.
Lemma env_id_zoom {T A} get put (m : M T A) :
  (∀ t s, st_env (put t s) = st_env s) → env_id (zoom get put m).
Proof. intros Hp s. unfold wp, zoom. destruct (m (get s)); apply Hp. Qed.

Lemma env_rel_when b m : env_rel m → env_rel (when b m).
Proof using R_po. destruct b; [done|]. intros _. by apply env_id_rel. Qed.

Lemma env_rel_in_env {A} (m : heap → M E A) :
  (∀ h e, wp (m h) (λ _ e', R e e') (λ _ e', R e e') e) → env_rel (in_env m).
Proof. intros Hm s. unfold in_env. apply wp_zoom. apply Hm. Qed.
End env_rel.

Create HintDb env_rel.
#[export] Hint Resolve env_id_ret env_id_throw env_id_halt env_id_core env_id_in_core
  env_id_set_block env_id_read env_id_read_ptr env_id_get_info env_id_justify_qc : env_rel.

(** Go through a handler's body. *)
Ltac env_step :=
  repeat match goal with
  | |- env_rel _ (bind _ _) => apply (env_rel_bind _); [|intros ?]
  | |- env_rel _ (when _ _) => apply (env_rel_when _)
  | |- env_rel _ (match _ with _ => _ end) => case_match
  | |- env_rel _ _ => apply (env_id_rel _); solve [auto with env_rel]
  end.

Section handlers_rel.
Context {i_sodium : Sodium} {i_xdr : Xdr} {i_bv : BitVector} {i_fs : Fs} {i_lmdb : LmdbLib}.
Context {E : Type} {i_virt : CoreVirtuals E}.
Context (R : E → E → Prop) {R_po : PreOrder R}.

Definition keeps {A} (m : M E A) : Prop := ∀ e, wp m (λ _ e', R e e') (λ _ e', R e e') e.

Hypothesis apply_keeps : ∀ h p tx, keeps (apply_block h p tx).
Hypothesis commit_keeps : ∀ h p, keeps (notify_vm_of_commitment h p).
Hypothesis nonself_keeps : ∀ h p, keeps (notify_vm_of_qc_on_nonself_block h p).
Hypothesis prune_keeps : ∀ n, keeps (notify_ok_to_prune_blocks n).
Hypothesis new_qc_keeps : ∀ h, keeps (on_new_qc h).

Lemma collect_commits_env fuel p n q : env_rel (E := E) R (collect_commits fuel p n q).
Proof using R_po. revert p q. induction fuel; intros; simpl; env_step; auto. Qed.

Lemma walk_down_env fuel p n : env_rel (E := E) R (walk_down fuel p n).
Proof using R_po. revert p. induction fuel; intros; simpl; env_step; auto. Qed.

Lemma write_block_env info p : env_rel (E := E) R (write_block info p).
Proof using R_po. unfold write_block. env_step. by apply env_id_rel, env_id_zoom. Qed.

Lemma commit_blocks_env q tx : env_rel R (commit_blocks q tx).
Proof using All.
  revert tx. induction q as [|p q IH]; intros tx; simpl; env_step; auto;
    apply env_rel_in_env; intros; auto; [apply apply_keeps|apply commit_keeps].
Qed.

Lemma update_hqc_env p qc : env_rel R (update_hqc p qc).
Proof using All.
  unfold update_hqc. env_step. apply env_rel_in_env. intros. apply nonself_keeps.
Qed.

Lemma update_env p : env_rel R (update p).
Proof using All.
  unfold update, lock_and_commit, raise_lock. env_step; [apply update_hqc_env|..].
  - apply write_block_env.
  - unfold commit_chain. env_step.
    + apply collect_commits_env.
    + apply commit_blocks_env.
    + apply env_rel_in_env. intros. apply prune_keeps.
Qed.

(** The vote sees the heap the handler started with. *)
Lemma on_receive_proposal_rel s p proposer op :
  opinion p s = Ok op s → keeps (do_vote (st_heap s) p proposer) →
  wp (on_receive_proposal p proposer) (λ _ s', R (st_env s) (st_env s'))
    (λ _ s', R (st_env s) (st_env s')) s.
Proof using All.
  intros Hop Hv. unfold on_receive_proposal. apply wp_bind. eapply wp_run; [exact Hop|].
  assert (Hup : ∀ s1, R (st_env s) (st_env s1) →
    wp (update p) (λ _ s', R (st_env s) (st_env s')) (λ _ s', R (st_env s) (st_env s')) s1).
  { intros s1 H1. eapply wp_mono; [apply update_env|..]; intros; (etrans; [exact H1|done]). }
  apply wp_bind, wp_when; intros _; [|by apply Hup].
  apply wp_bind. unfold read, wp at 1, deref. destruct (st_heap s !! p); [|simpl; reflexivity].
  apply wp_bind, wp_modify. unfold in_env. apply wp_zoom. simpl.
  eapply wp_mono; [apply Hv|..]; simpl; auto.
Qed.

Lemma on_receive_vote_env pc p rid : env_rel R (on_receive_vote pc p rid).
Proof using All.
  unfold on_receive_vote. env_step.
  - apply update_hqc_env.
  - apply env_rel_in_env. intros. apply new_qc_keeps.
  - intros s0. unfold wp. reflexivity.
Qed.
End handlers_rel.

(** ** The invariant of a process *)

Section process.
Context {i_sodium : Sodium} {i_xdr : Xdr} {i_bv : BitVector} {i_fs : Fs} {i_lmdb : LmdbLib}.
Context {V : Type} {i_bridge : VMBridge V} {i_blaws : VMBridgeLaws V}.
Context (U : Hash → option HotstuffBlockHeader) (cfg : ReplicaConfig) (B : gset ReplicaID).
Hypothesis U_zero : U zero_hash = None.
Hypothesis U_short : ∀ h n, ht U h n → (n < 2 ^ 32)%N.
Hypothesis cfg_wf : config_wf cfg.
Hypothesis few_faulty :
  (N.of_nat (size B) < nreplicas cfg - 2 * (nreplicas cfg / 3))%N.
Context (r : ReplicaID).
Hypothesis r_member : r ∈ replicas cfg.

Abbreviation glog := (list (ReplicaID * Hash)).
Abbreviation gen s := (core_genesis (st_core s)).
Abbreviation tr s := (skel <$> st_heap s).

(** An event fit to be handled by the core. *)
Definition event_ok (G : glog) (s : AppSt V) (e : Event) : Prop :=
  match e with
  | EVote v => ∃ b, st_heap s !! ve_block v = Some b ∧
      node (gen s) (tr s) (cache s) (ve_block v) (skel b) ∧
      ve_rid v ∈ replicas cfg ∧ (ve_rid v ∉ B → (ve_rid v, get_hash b) ∈ G) ∧
      get_hash b = pc_hash (ve_cert v)
  | EProposal p => pe_rid p ∈ replicas cfg ∧ ∃ b, st_heap s !! pe_block p = Some b ∧
      linked (tr s) (cache s) (skel b)
  end.

Lemma event_ok_fits G s e : event_ok G s e → event_fits (st_heap s) e.
Proof.
  destruct e; simpl; [intros (b & ? & _ & _ & _ & ?); by exists b|].
  intros (_ & b & ? & _). by exists b.
Qed.

(** A network event that passed validation. *)
Definition net_event_ok (G : glog) (s : AppSt V) (e : NetEvent) : Prop :=
  match e with
  | NVote v => vn_voter v ∈ replicas cfg ∧
      (vn_voter v ∉ B → (vn_voter v, pc_hash (vn_cert v)) ∈ G)
  | NProposal p => pn_proposer p ∈ replicas cfg ∧
      block_valid U cfg B G (gen s) (st_heap s) (pn_block p)
  | NReceive b => block_valid U cfg B G (gen s) (st_heap s) (rn_block b)
  end.

(** The protocol manager has a client for every other replica. *)
Definition peers_ok (pm : HotstuffProtocolManager) : Prop :=
  pm_self_id pm = r ∧ dom (other_clients pm) = replicas cfg ∖ {[r]}.

Definition same_peers (pm pm' : HotstuffProtocolManager) : Prop :=
  pm_self_id pm' = pm_self_id pm ∧ dom (other_clients pm') = dom (other_clients pm).

#[local] Instance same_peers_po : PreOrder same_peers.
Proof. split; unfold same_peers; [done|]. intros ??? [??] [??]. split; congruence. Qed.

Lemma same_peers_refl pm : same_peers pm pm.
Proof. reflexivity. Qed.
#[local] Hint Resolve same_peers_refl : core.

Record AppInv (G : glog) (s : AppSt V) : Prop := {
  ai_good : good U cfg B r G s;
  ai_events : Forall (event_ok G s) (a_events (st_env s));
  ai_net : Forall (net_event_ok G s) (a_net_events (st_env s));
  ai_fetch : fetch_wf cfg (a_fetch (st_env s));
  ai_pending : ∀ h, Forall (net_event_ok G s) (pending (a_fetch (st_env s)) h);
  ai_self : peers_ok (a_protocol (st_env s));
}.

Lemma AppInv_reaches G s rid : AppInv G s → rid ∈ replicas cfg → peers (st_env s) rid.
Proof.
  intros I Hr. destruct (ai_self _ _ I) as [Hs Hd]. unfold peers. rewrite Hs, Hd.
  destruct (decide (rid = r)); set_solver.
Qed.

Definition state_le (s s' : AppSt V) : Prop :=
  gen s' = gen s ∧ tree_le (gen s) (st_heap s) (cache s) (st_heap s') (cache s').

Lemma event_ok_le G G' s s' e :
  good U cfg B r G s → state_le s s' → (∀ x, x ∈ G → x ∈ G') →
  event_ok G s e → event_ok G' s' e.
Proof using U_zero.
  intros (_ & I & _) (Hg & Hle & Hn & Hc) Hsub. pose proof (ri_tree _ _ _ _ _ _ _ _ _ I) as T.
  assert (Hnode : ∀ p b, st_heap s !! p = Some b → node (gen s) (tr s) (cache s) p (skel b) →
    ∃ b', st_heap s' !! p = Some b' ∧ get_hash b' = get_hash b ∧
          node (gen s) (tr s') (cache s') p (skel b')).
  { intros p b Hb Hk. destruct (Hle _ _ Hb) as (b' & Hb' & _ & Hh). exists b'.
    split; [done|]. split; [done|]. pose proof (Hn _ _ Hk) as Hk'.
    assert (skel b' = skel b) as ->; [|done].
    pose proof (skel_lookup_Some _ _ _ Hb'). destruct Hk'. congruence. }
  destruct e as [v|p]; simpl.
  - intros (b & Hb & Hk & Hr & Hv & Hpc). destruct (Hnode _ _ Hb Hk) as (b' & Hb' & Hh & Hk').
    exists b'. rewrite Hg, Hh. split_and!; auto.
  - intros (Hr & b & Hb & Hl). split; [done|]. pose proof (skel_lookup_Some _ _ _ Hb) as Hk.
    pose proof (linked_not_genesis U cfg B U_zero G _ _ _ T _ _ Hk Hl) as Hne.
    destruct (Hnode _ _ Hb) as (b' & Hb' & _ & [_ [?|Hl']]); [by split; [|right]|done|].
    by exists b'.
Qed.

Lemma net_event_ok_le G G' s s' e :
  state_le s s' → (∀ x, x ∈ G → x ∈ G') → net_event_ok G s e → net_event_ok G' s' e.
Proof.
  intros (Hg & Hle) Hsub. destruct e as [v|p|b]; simpl; rewrite ?Hg.
  - intros [? ?]. split; auto.
  - intros [? ?]. split; [done|]. by eapply block_valid_le.
  - intros. by eapply block_valid_le.
Qed.

Lemma AppInv_le G G' s s' :
  AppInv G s → good U cfg B r G' s' → state_le s s' → (∀ x, x ∈ G → x ∈ G') →
  (∀ e, e ∈ a_events (st_env s') → e ∈ a_events (st_env s) ∨ event_ok G' s' e) →
  (∀ e, e ∈ a_net_events (st_env s') →
     e ∈ a_net_events (st_env s) ∨ net_event_ok G' s' e) →
  fetch_wf cfg (a_fetch (st_env s')) →
  (∀ h e, e ∈ pending (a_fetch (st_env s')) h →
     e ∈ pending (a_fetch (st_env s)) h ∨ net_event_ok G' s' e) →
  same_peers (a_protocol (st_env s)) (a_protocol (st_env s')) →
  AppInv G' s'.
Proof using U_zero.
  intros [Hg He Hn Hf Hp Hs] Hg' Hle Hsub He' Hn' Hf' Hp' Hs'.
  rewrite Forall_forall in He. rewrite Forall_forall in Hn. setoid_rewrite Forall_forall in Hp.
  split; try done; [| | |destruct Hs, Hs'; split; congruence].
  - apply Forall_forall. intros e [Hin|]%He'; [|done]. apply (event_ok_le G G' s s'); auto.
  - apply Forall_forall. intros e [Hin|]%Hn'; [|done]. apply (net_event_ok_le G G' s s'); eauto.
  - intros h. apply Forall_forall. intros e [Hin|]%Hp'; [|done].
    apply (net_event_ok_le G G' s s'); eauto.
Qed.

Lemma state_le_refl s : state_le s s.
Proof. split; [done|apply tree_le_refl]. Qed.

Lemma tree_frame_le s s' : tree_frame s s' → state_le s s'.
Proof.
  intros (Hc & Hh & Hg). split; [done|]. rewrite Hc. by apply tree_le_same_skel.
Qed.

(** The outcome of an operation of the process. *)
Definition proc_ok (G : glog) (s s' : AppSt V) : Prop :=
  ∃ ws, votes s' = ws ++ votes s ∧ AppInv (log_add r ws G) s'.

Lemma log_add_sub ws G x : x ∈ G → x ∈ log_add r ws G.
Proof. intros. apply elem_of_app. by right. Qed.

(** A fault leaves a stopped replica. *)
Lemma AppInv_stop G s f : AppInv G s → allowed cfg f → handler_stop U cfg B r G s f s.
Proof.
  intros [(Hl & I & _) _ _ _ _ _] Hf. split; [done|]. exists []. split; [done|].
  split; [done|]. by eapply RepInv_stop.
Qed.

(** What handling an event does around the core: fetch manager and network
    queue stay, and the only event it adds is the own vote on [w]. *)
Definition queues_le (self : ReplicaID) (p : loc) (w : Hash) (e e' : AppBase V) : Prop :=
  a_fetch e' = a_fetch e ∧ a_net_events e' = a_net_events e ∧
  same_peers (a_protocol e) (a_protocol e') ∧
  (∀ h, h ∈ a_signed e → h ∈ a_signed e') ∧
  (pm_self_id (a_protocol e) = self →
   ∀ ev, ev ∈ a_events e' → ev ∈ a_events e ∨
     ∃ cert, ev = EVote (mkVoteEvent self cert p) ∧ pc_hash cert = w ∧ w ∈ a_signed e').

#[local] Instance queues_le_po self p w : PreOrder (queues_le self p w).
Proof.
  split; unfold queues_le.
  - intros e. split_and!; auto.
  - intros e1 e2 e3 (F1 & N1 & P1 & S1 & E1) (F2 & N2 & P2 & S2 & E2).
    split_and!; [congruence..|by etrans|by auto|]. intros Hs ev Hev. destruct P1 as [P1 _].
    destruct (E2 ltac:(congruence) ev Hev) as [Hev'|?]; [|by right].
    destruct (E1 Hs ev Hev') as [?|(cert & -> & ? & ?)]; [by left|right; eauto 6].
Qed.

Lemma in_vm_keeps {A} (m : M V A) self p w : keeps (queues_le self p w) (in_vm m).
Proof.
  intros e. unfold wp, in_vm, zoom. destruct (m (a_vm e)); repeat split; auto.
Qed.

Lemma do_vote_keeps self h p b proposer :
  h !! p = Some b → keeps (queues_le self p (get_hash b)) (do_vote h p proposer).
Proof.
  intros Hb e. simpl. unfold app_do_vote. apply wp_bind. unfold deref. rewrite Hb.
  apply wp_ret, wp_bind, wp_gets, wp_bind. unfold PC_sign.
  destruct (crypto_sign_detached _ _) as [sig|]; [|apply wp_throw; reflexivity].
  apply wp_ret, wp_bind, wp_modify. unfold send_vote_to. apply wp_bind, wp_gets. simpl.
  assert (H0 : queues_le self p (get_hash b) e (add_signed (get_hash b) e)).
  { repeat split; auto. simpl. intros. by right. }
  destruct (proposer =? pm_self_id (a_protocol e))%N.
  - unfold self_vote. eapply wp_mono; [apply event_queue_add_spec; by exists b| |done]; simpl.
    intros _ e' [->| ->]; [done|]. repeat split; auto; simpl.
    + intros. by right.
    + intros <- ev [?|Hev]%elem_of_app; [by left|]. right.
      apply list_elem_of_singleton in Hev as ->. eexists. do 2 (split; [done|]). by left.
  - destruct (other_clients (a_protocol e) !! proposer) eqn:Hc; [|by apply wp_throw].
    apply wp_modify. repeat split; auto; simpl.
    + rewrite dom_insert_L. apply elem_of_dom_2 in Hc. set_solver.
    + intros. by right.
Qed.

(** From a core handler to the process. *)
Lemma handler_proc G s s' p b :
  AppInv G s → handler_ok U cfg B r G s s' → st_heap s !! p = Some b →
  node (gen s) (tr s) (cache s) p (skel b) →
  queues_le r p (get_hash b) (st_env s) (st_env s') → proc_ok G s s'.
Proof using U_zero r_member.
  intros I (F & ws & Hws & Hg) Hb Hk (Hf & Hn & Hs & _ & He). exists ws. split; [done|].
  pose proof (tree_frame_le _ _ F) as Hle.
  eapply (AppInv_le G _ s s'); auto using log_add_sub.
  - intros ev Hev.
    destruct (He (proj1 (ai_self _ _ I)) ev Hev) as [?|(cert & -> & Hpc & Hw)]; [by left|right].
    apply (event_ok_le (log_add r ws G) _ s' s'); auto using state_le_refl.
    destruct F as (Hc & Hh & Hgen). simpl.
    assert (Hk' : (skel <$> st_heap s') !! p = Some (skel b))
      by (rewrite Hh; by apply skel_lookup_Some).
    apply skel_lookup in Hk' as (b' & Hb' & Hsk). exists b'. rewrite Hsk, Hgen, Hc, Hh.
    change (get_hash b') with (sk_hash (skel b')). rewrite Hsk.
    do 3 (split; [done|]). split; [|done]. intros _.
    destruct Hg as (_ & I' & _). by apply (ri_log _ _ _ _ _ _ _ _ _ I').
  - rewrite Hn. auto.
  - rewrite Hf. apply I.
  - rewrite Hf. auto.
Qed.

Lemma on_event_wp G s e :
  AppInv G s → event_ok G s e →
  wp (on_event e) (λ _ s', proc_ok G s s') (λ f s', handler_stop U cfg B r G s f s') s.
Proof using All.
  intros I He. pose proof (ai_good _ _ I) as Hg. pose proof Hg as (_ & RI & _).
  destruct e as [v|p]; simpl in *.
  - destruct He as (b & Hb & Hk & Hr & Hv & Hpc).
    eapply wp_mono; [apply wp_and; [eapply on_receive_vote_wp; eauto|]|..].
    + apply (on_receive_vote_env (queues_le r (ve_block v) (get_hash b)));
        intros; try apply in_vm_keeps; intros e; repeat split; auto.
    + intros _ s' [Hok Hq]. by eapply handler_proc.
    + by intros f s' [? _].
  - destruct He as (Hr & b & Hb & Hl).
    destruct (opinion_spec U cfg B U_zero r G s (pe_block p) b RI Hb Hl) as (op & Hop & _).
    eapply wp_mono; [apply wp_and; [eapply on_receive_proposal_wp; eauto; by eapply AppInv_reaches|]|..].
    + eapply (on_receive_proposal_rel (queues_le r (pe_block p) (get_hash b))); [..|exact Hop|];
        intros; try apply in_vm_keeps; try by apply do_vote_keeps.
      all: intros e; repeat split; auto.
    + intros _ s' [[Hok _] Hq]. eapply handler_proc; [done..| |done].
      split; [by apply skel_lookup_Some|by right].
    + by intros f s' [? _].
Qed.

(** ** The block store *)

Lemma good_le G s s' :
  good U cfg B r G s →
  RepInv U cfg B r G (st_heap s') (st_core s') (cache s') (votes s') →
  state_le s s' → b_lock (st_core s') = b_lock (st_core s) → votes s' = votes s →
  good U cfg B r G s'.
Proof.
  intros (Hl & I & Hlv) I' (Hg & Hle & Hn & _) Hb Hv. split; [done|]. split; [done|].
  destruct (ri_lock _ _ _ _ _ _ _ _ _ I) as (k & [Hk _] & _).
  intros v hv hj n kl Hin HU HUj Hn' Hkl. rewrite Hv in Hin. rewrite Hb in Hkl.
  assert (kl = k) as -> by (destruct (Hn _ _ Hk); congruence).
  eapply Hlv; [done..|apply Hk].
Qed.

(** Only the store changed. *)
Definition store_changed (s s' : AppSt V) : Prop :=
  st_core s' = st_core s ∧ ∃ st, st_env s' = set_store st (st_env s).

Lemma AppInv_store G s s' :
  AppInv G s → store_changed s s' → state_le s s' →
  RepInv U cfg B r G (st_heap s') (st_core s') (cache s') (votes s') → AppInv G s'.
Proof using U_zero.
  intros I (Hco & st & He) Hle I'.
  apply (AppInv_le G G s s'); auto; try (rewrite He; simpl; auto; done).
  - eapply good_le; [apply I|done|done|by rewrite Hco|]. unfold votes. by rewrite He.
  - rewrite He. apply I.
Qed.

Lemma store_insert_wp G s p :
  AppInv G s → block_valid U cfg B G (gen s) (st_heap s) p →
  wp (store_insert p)
    (λ md s', AppInv G s' ∧ store_changed s s' ∧ state_le s s' ∧
       (missing md = false →
          ∃ b, st_heap s' !! p = Some b ∧ linked (tr s') (cache s') (skel b)) ∧
       (∀ b, st_heap s !! p = Some b → is_Some (cache s !! get_parent_hash b) →
          is_Some (cache s !! just_of (header (wire_block b))) → missing md = false))
    (λ _ _, False) s.
Proof using U_zero U_short.
  intros I Hv. pose proof (ai_good _ _ I) as (_ & RI & _).
  unfold store_insert. apply wp_zoom.
  destruct (insert_block_RepInv U cfg B U_zero r U_short G (st_heap s) (st_core s)
              (a_store (st_env s)) (votes s) p RI Hv)
    as (md & h' & st' & Hrun & RI' & Hle & Hl).
  eapply wp_run; [exact Hrun|]. simpl. set (s' := mkSt _ _ _ _).
  assert (Hsl : state_le s s') by by split.
  assert (Hsc : store_changed s s') by (split; [done|by exists st']).
  split; [|done]. by apply (AppInv_store G s s').
Qed.

Lemma store_gc_wp G s :
  AppInv G s →
  wp store_gc (λ _ s', (AppInv G s' ∧ votes s' = votes s) ∧ state_le s s') (λ _ _, False) s.
Proof using U_zero.
  intros I. unfold store_gc. apply wp_zoom. unfold wp, gc_run_once.
  pose proof (ai_good _ _ I) as (_ & RI & _).
  assert (Hgen : ∀ h' gc, same_view h' (st_heap s) →
    let s' := mkSt h' (st_disk s) (st_core s)
      (set_store (mkStore (block_cache (a_store (st_env s))) gc) (st_env s)) in
    (AppInv G s' ∧ votes s' = votes s) ∧ state_le s s').
  { intros h' gc Hv s'.
    assert (Hle : state_le s s') by (split; [done|]; by apply tree_le_same_skel, same_view_skel).
    split; [split; [|done]|done]. eapply AppInv_store; [done|by split; [|eexists]|done|].
    by eapply RepInv_same_view. }
  destruct (hotstuff_height_to_gc _); [|by apply Hgen].
  unfold do_gc. destruct (swap_remove _ _ _ _) as [kept out]. simpl.
  apply Hgen. clear Hgen. generalize (st_heap s). unfold flush_all.
  induction out as [|p out IH]; intros h; simpl; [done|].
  etrans; [apply IH|]. unfold same_view. apply map_eq. intros q.
  rewrite !lookup_fmap. destruct (decide (p = q)) as [->|Hne].
  - rewrite lookup_alter_eq. destruct (h !! q) as [b|]; simpl; [|done].
    unfold flush_from_memory. by destruct (flushed_from_memory b).
  - by rewrite lookup_alter_ne.
Qed.

(** ** Network events *)

(** Operations that do not vote. *)
Definition quiet_ok (G : glog) (s s' : AppSt V) : Prop := AppInv G s' ∧ votes s' = votes s.

Definition quiet_wp (G : glog) {A} (m : M (AppSt V) A) (Q : A → AppSt V → Prop) s : Prop :=
  wp m (λ a s', quiet_ok G s s' ∧ state_le s s' ∧ st_core s' = st_core s ∧ Q a s')
    (λ f s', handler_stop U cfg B r G s f s') s.

Lemma quiet_stop G s s' f :
  AppInv G s' → votes s' = votes s → allowed cfg f → handler_stop U cfg B r G s f s'.
Proof.
  intros I Hv Hf. destruct (AppInv_stop G s' f I Hf) as (_ & ws & _ & Hs).
  split; [done|]. exists []. split; [done|]. pose proof (ai_good _ _ I) as (Hl & RI & _).
  split; [done|]. by eapply RepInv_stop.
Qed.

Lemma state_le_trans s1 s2 s3 : state_le s1 s2 → state_le s2 s3 → state_le s1 s3.
Proof.
  intros [Hg1 H1] [Hg2 H2]. split; [congruence|]. rewrite Hg1 in H2. by eapply tree_le_trans.
Qed.

Lemma quiet_bind G {A A'} (m : M (AppSt V) A) (k : A → M (AppSt V) A') Q Q' s :
  quiet_wp G m Q s →
  (∀ a s1, AppInv G s1 → state_le s s1 → st_core s1 = st_core s → Q a s1 →
     quiet_wp G (k a) Q' s1) →
  quiet_wp G (bind m k) Q' s.
Proof.
  intros Hm Hk. apply wp_bind. eapply wp_mono; [exact Hm| |done].
  intros a s1 ([I1 V1] & L1 & C1 & HQ).
  eapply wp_mono; [by apply (Hk a s1)|..].
  - intros a' s2 ([I2 V2] & L2 & C2 & HQ'). split; [by split; [|etrans]|].
    split; [by eapply state_le_trans|]. split; [by etrans|done].
  - intros f s2 (Hf & ws & Hws & ?). split; [done|]. exists ws. by rewrite <- V1.
Qed.

Lemma quiet_ret G {A} (a : A) (Q : A → AppSt V → Prop) s :
  AppInv G s → Q a s → quiet_wp G (ret a) Q s.
Proof. intros. apply wp_ret. split; [done|]. split; [apply state_le_refl|done]. Qed.

Lemma quiet_core G {A} (f : HotstuffCore → A) (Q : A → AppSt V → Prop) s :
  AppInv G s → Q (f (st_core s)) s → quiet_wp G (core f) Q s.
Proof. intros. apply wp_gets. split; [done|]. split; [apply state_le_refl|done]. Qed.

Lemma quiet_read G p b (Q : HotstuffBlock → AppSt V → Prop) s :
  AppInv G s → st_heap s !! p = Some b → Q b s → quiet_wp G (read p) Q s.
Proof.
  intros I Hb HQ. eapply wp_read; [done|].
  split; [done|]. split; [apply state_le_refl|done].
Qed.

(** Changing the queues of the process only. *)
Lemma AppInv_env G s e :
  AppInv G s → a_store e = a_store (st_env s) → a_signed e = a_signed (st_env s) →
  same_peers (a_protocol (st_env s)) (a_protocol e) →
  (∀ ev, ev ∈ a_events e → ev ∈ a_events (st_env s) ∨ event_ok G s ev) →
  (∀ ev, ev ∈ a_net_events e → ev ∈ a_net_events (st_env s) ∨ net_event_ok G s ev) →
  fetch_wf cfg (a_fetch e) →
  (∀ h ev, ev ∈ pending (a_fetch e) h →
     ev ∈ pending (a_fetch (st_env s)) h ∨ net_event_ok G s ev) →
  let s' := mkSt (st_heap s) (st_disk s) (st_core s) e in
  quiet_ok G s s' ∧ state_le s s' ∧ st_core s' = st_core s.
Proof using U_zero.
  intros I Hst Hsg Hs He Hn Hf Hp s'.
  assert (Hc : cache s' = cache s) by (unfold cache; simpl; by rewrite Hst).
  assert (Hv : votes s' = votes s) by done.
  assert (Hle : state_le s s').
  { split; [done|]. rewrite Hc. by apply tree_le_same_skel. }
  assert (Hev : ∀ ev, event_ok G s ev → event_ok G s' ev)
    by (intros ev; apply event_ok_le; auto; apply I).
  split; [split; [|done]|done].
  pose proof (ai_good _ _ I) as (Hl & RI & Hlv).
  apply (AppInv_le G G s s'); auto.
  - split; [done|]. rewrite Hc, Hv. done.
  - intros ev Hin. destruct (He ev Hin); auto.
Qed.

Lemma event_queue_quiet G s ev :
  AppInv G s → event_ok G s ev →
  quiet_wp G (in_env (λ h, event_queue_add h ev)) (λ _ _, True) s.
Proof using U_zero.
  intros I Hev. unfold quiet_wp, in_env. apply wp_zoom.
  eapply wp_mono; [by eapply event_queue_add_spec, event_ok_fits| |done]; simpl.
  intros _ e Hor.
    edestruct (AppInv_env G s e) as (? & ? & ?); [done|by destruct Hor as [-> | ->]..| | | | |].
    + destruct Hor as [-> | ->]; [auto|]. simpl. intros ev' [?| ->%list_elem_of_singleton]%elem_of_app; auto.
    + destruct Hor as [-> | ->]; auto.
    + destruct Hor as [-> | ->]; apply I.
    + destruct Hor as [-> | ->]; auto.
    + done.
Qed.

Lemma add_net_events_quiet G s es :
  AppInv G s → Forall (net_event_ok G s) es →
  quiet_wp G (in_env (λ _, add_events a_net_events set_net_events es)) (λ _ _, True) s.
Proof using U_zero.
  intros I Hes. unfold quiet_wp, in_env. apply wp_zoom, wp_modify. simpl.
  rewrite Forall_forall in Hes.
  edestruct (AppInv_env G s (set_net_events (a_net_events (st_env s) ++ es) (st_env s)))
    as (? & ? & ?); simpl; auto.
  - intros ev [?|?]%elem_of_app; auto.
  - apply I.
Qed.

Lemma add_net_event_quiet G s e :
  AppInv G s → net_event_ok G s e →
  quiet_wp G (in_env (λ _, add_event a_net_events set_net_events e)) (λ _ _, True) s.
Proof using U_zero. intros I He. apply (add_net_events_quiet G s [e]); auto. Qed.

Lemma AppInv_fetch G s m' :
  AppInv G s → fetch_wf cfg m' →
  (∀ h ev, ev ∈ pending m' h →
     ev ∈ pending (a_fetch (st_env s)) h ∨ net_event_ok G s ev) →
  let s' := mkSt (st_heap s) (st_disk s) (st_core s) (set_fetch m' (st_env s)) in
  quiet_ok G s s' ∧ state_le s s' ∧ st_core s' = st_core s.
Proof using U_zero. intros I Hf Hp. apply AppInv_env; auto. Qed.

Lemma add_fetch_quiet G s h rid es :
  AppInv G s → Forall (net_event_ok G s) es →
  quiet_wp G (in_fetch (add_fetch_request cfg h rid es)) (λ _ _, True) s.
Proof using U_zero.
  intros I Hes. unfold quiet_wp, in_fetch, in_env. apply wp_zoom, wp_zoom.
  rewrite Forall_forall in Hes. pose proof (ai_fetch _ _ I) as Hwf.
  destruct (decide (rid ∈ replicas cfg)) as [Hr|Hr].
  - destruct (add_fetch_request_spec cfg h rid es _ Hwf Hr) as (m' & Hrun & Hwf' & Hp & Hp' & _).
    eapply wp_run; [exact Hrun|]. edestruct (AppInv_fetch G s m') as (? & ? & ?); auto.
    intros h' ev Hin. destruct (decide (h' = h)) as [->|Hne].
    + rewrite Hp in Hin. apply elem_of_app in Hin as [?|?]; auto.
    + rewrite Hp' in Hin by done. auto.
  - eapply wp_run; [by apply add_fetch_request_invalid|].
    edestruct (AppInv_fetch G s (a_fetch (st_env s))) as (? & ? & ?); auto.
Qed.

Lemma deliver_quiet G s h :
  AppInv G s →
  quiet_wp G (in_fetch (deliver_block h)) (λ es s', Forall (net_event_ok G s') es) s.
Proof using U_zero.
  intros I. unfold quiet_wp, in_fetch, in_env. apply wp_zoom, wp_zoom.
  destruct (deliver_block_spec cfg h _ (ai_fetch _ _ I)) as (m' & Hrun & Hwf' & Hp & Hp' & _).
  eapply wp_run; [exact Hrun|]. edestruct (AppInv_fetch G s m') as (? & ? & ?); auto.
  - intros h' ev Hin. destruct (decide (h' = h)) as [->|Hne].
    + rewrite Hp in Hin. by apply elem_of_nil in Hin.
    + rewrite Hp' in Hin by done. auto.
  - split; [done|]. split; [done|]. split; [done|]. apply (ai_pending _ _ I).
Qed.

Lemma store_insert_quiet G s p :
  AppInv G s → block_valid U cfg B G (gen s) (st_heap s) p →
  quiet_wp G (store_insert p)
    (λ md s', (missing md = false →
       ∃ b, st_heap s' !! p = Some b ∧ linked (tr s') (cache s') (skel b)) ∧
       (∀ b, st_heap s !! p = Some b → is_Some (cache s !! get_parent_hash b) →
          is_Some (cache s !! just_of (header (wire_block b))) → missing md = false)) s.
Proof using U_zero U_short.
  intros I Hv. eapply wp_mono; [by apply (store_insert_wp G)| |done].
  intros md s' (I' & (Hco & st & He) & Hle & Hl). split; [|done].
  split; [done|]. unfold votes. by rewrite He.
Qed.

(** The requests for missing dependencies. *)
Lemma request_missing_quiet G s md from es :
  AppInv G s → Forall (net_event_ok G s) es →
  quiet_wp G (request_missing md from es) (λ _ _, True) s.
Proof using U_zero.
  intros I Hes. unfold request_missing.
  assert (Hc : config (st_core s) = cfg) by (pose proof (ai_good _ _ I) as (_ & RI & _); apply RI).
  eapply (quiet_bind _ _ _ (λ c s1, c = cfg ∧ Forall (net_event_ok G s1) es));
    [by apply quiet_core|].
  intros c s1 I1 _ _ [-> Hes1]. destruct (md_parent_hash md).
  - eapply quiet_bind; [by apply add_fetch_quiet|]. intros.
    destruct (md_justify_hash md); [by apply add_fetch_quiet|by apply quiet_ret].
  - destruct (md_justify_hash md); [by apply add_fetch_quiet|by apply quiet_ret].
Qed.

(** Inserting a received block. *)
Lemma insert_received_quiet G s p from e :
  AppInv G s → block_valid U cfg B G (gen s) (st_heap s) p → net_event_ok G s e →
  quiet_wp G (insert_received p from e)
    (λ stored s', stored = true →
       ∃ b, st_heap s' !! p = Some b ∧ linked (tr s') (cache s') (skel b)) s.
Proof using U_zero U_short.
  intros I Hv He. unfold insert_received.
  eapply quiet_bind; [by apply store_insert_quiet|]. intros md s1 I1 L1 C1 [Hmd _].
  assert (Hv1 : block_valid U cfg B G (gen s1) (st_heap s1) p).
  { rewrite (proj1 L1). eapply block_valid_le; [exact Hv|apply L1|done]. }
  destruct Hv1 as (_ & b & Hb & _).
  eapply (quiet_bind _ _ _ (λ b' s2, s2 = s1)); [by eapply quiet_read|].
  intros b' s2 I2 L2 C2 ->. eapply quiet_bind; [by apply deliver_quiet|].
  intros es s3 I3 L3 C3 Hes. destruct (missing md) eqn:Hm; simpl.
  - assert (He3 : net_event_ok G s3 e).
    { eapply net_event_ok_le; [|done|exact He]. by eapply state_le_trans. }
    eapply quiet_bind; [apply request_missing_quiet; [done|]|].
    { apply Forall_app. split; [done|by constructor]. }
    intros _ s4 I4 _ _ _. by apply quiet_ret.
  - eapply quiet_bind; [by apply add_net_events_quiet|]. intros _ s4 I4 L4 _ _.
    apply quiet_ret; [done|]. intros _. destruct (Hmd eq_refl) as (b1 & Hb1 & Hl1).
    pose proof (ai_good _ _ I1) as (_ & RI1 & _).
    destruct (ri_self _ _ _ _ _ _ _ _ _ RI1) as [_ Hself].
    assert (Hp : event_ok G s1 (EProposal (mkProposalEvent r p))) by (split; [done|by exists b1]).
    assert (Hp4 : event_ok G s4 (EProposal (mkProposalEvent r p)));
      [|destruct Hp4 as (_ & b4 & ? & ?); by exists b4].
    eapply (event_ok_le G G s1 s4); [apply I1|by eapply state_le_trans|done|done].
Qed.

Lemma on_net_event_quiet G s e :
  AppInv G s → net_event_ok G s e → quiet_wp G (on_net_event e) (λ _ _, True) s.
Proof using U_zero U_short.
  intros I He. pose proof (ai_good _ _ I) as (_ & RI & _).
  pose proof (ri_tree _ _ _ _ _ _ _ _ _ RI) as T.
  destruct e as [v|p|b]; unfold on_net_event.
  - eapply (quiet_bind _ _ _ (λ st s1, st = a_store (st_env s) ∧ s1 = s)).
    { apply wp_gets. split; [done|]. split; [apply state_le_refl|done]. }
    intros st s1 _ _ _ [-> ->]. destruct He as [Hr Hv].
    destruct (get_block (a_store (st_env s)) (pc_hash (vn_cert v))) as [p|] eqn:Hp.
    + apply event_queue_quiet; [done|].
      destruct (cached_node U cfg B U_zero G _ _ _ T _ _ Hp) as (k & Hk & Hh).
      pose proof Hk as [(b & Hb & <-)%skel_lookup _]. exists b. simpl in *.
      split_and!; [done..|by rewrite Hh|done].
    + eapply (quiet_bind _ _ _ (λ c s1, c = cfg ∧ s1 = s)).
      { apply quiet_core; [done|]. split; [apply RI|done]. }
      intros c s1 _ _ _ [-> ->]. apply add_fetch_quiet; [done|]. by repeat constructor.
  - destruct He as [Hr Hv]. eapply quiet_bind; [by apply insert_received_quiet|].
    intros [] s1 I1 _ _ Hst; simpl; [|by apply quiet_ret].
    apply event_queue_quiet; [done|]. split; [done|]. by apply Hst.
  - eapply quiet_bind; [by apply insert_received_quiet|]. intros. by apply quiet_ret.
Qed.

(** ** Messages *)

(** Signatures of honest replicas cannot be forged: one that verifies was made,
    so its vote is in the log. *)
Definition sig_unforged (G : glog) (rid : ReplicaID) (sig : Signature) (h : Hash) : Prop :=
  ∀ info, replica_map cfg !! rid = Some info → check_sig sig h (pk info) = true →
    rid ∉ B → (rid, h) ∈ G.

(** What the network may deliver. *)
Definition vote_arrival (G : glog) (v : VoteMessage) : Prop :=
  sig_unforged G (vm_voter v) (pc_sig (vm_vote v)) (pc_hash (vm_vote v)).

Definition header_known (hd : HotstuffBlockHeader) : Prop :=
  ∀ h, crypto_generichash (xdr_header hd) = Some h → U h = Some hd.

(** Hashes stand for one header, the signatures of certificates are genuine. *)
Definition authentic_arrival (G : glog) (w : HotstuffBlockWire) : Prop :=
  header_known (header w) ∧
  ∀ rid sig, (rid, sig) ∈ sigs (QC_of_wire (header_qc (header w))) →
    sig_unforged G rid sig (just_of (header w)).

(** The justified block is moreover an ancestor of the block. *)
Definition block_arrival (G : glog) (w : HotstuffBlockWire) : Prop :=
  authentic_arrival G w ∧ anc U (just_of (header w)) (parent_hash (header w)).

(** A certificate that verifies certifies its block. *)
Lemma verify_certified G hd {S} (s s' : S) :
  (∀ rid sig, (rid, sig) ∈ sigs (QC_of_wire (header_qc hd)) →
     sig_unforged G rid sig (just_of hd)) →
  verify cfg (QC_of_wire (header_qc hd)) s = Ok true s' → certified cfg B G (just_of hd).
Proof.
  intros Hun Hv. destruct (decide (just_of hd = zero_hash)) as [?|Hnz]; [by left|right].
  assert (Hwf : map_wf (sigs (QC_of_wire (header_qc hd)))).
  { unfold QC_of_wire. destruct (negb _); [apply map_wf_nil|]. apply load_sigs_wf, map_wf_nil. }
  destruct (verify_signers cfg _ s s' Hwf Hv) as (Q & HQ & Hs & Hr);
    [by rewrite QC_of_wire_hash|].
  exists Q. split; [done|]. split; [done|]. intros rid Hin Hb.
  destruct (Hr rid Hin) as (info & sig & Hi & Hsig & Hc). rewrite QC_of_wire_hash in Hc.
  by eapply (Hun rid sig).
Qed.

Lemma hash_xdr_outside {S} bs (s s' : S) f :
  hash_xdr bs s = Fault f s' → s' = s ∧ outside cfg f.
Proof.
  unfold hash_xdr. destruct (crypto_generichash bs) eqn:Hh; [done|].
  intros [= <- <-]. split; [done|by eapply out_hash].
Qed.

Lemma validate_hash_wp b :
  wp validate_hash (λ _ b', view b' = view b ∧ wire_block b' = wire_block b ∧
      parsed_qc b' = parsed_qc b)
    (λ f b', view b' = view b ∧ outside cfg f) b.
Proof.
  unfold wp, validate_hash. destruct (hash_checked b); [done|].
  destruct (crypto_generichash _) eqn:Hh; [by case_bool_decide|].
  split; [done|by eapply out_hash].
Qed.

Lemma verify_wp {S} qc (s : S) :
  wp (verify cfg qc) (λ _ s', s' = s) (λ f s', s' = s ∧ outside cfg f) s.
Proof.
  unfold verify. case_bool_decide; [done|]. destruct (_ <? _)%N; [done|].
  apply wp_bind. generalize 0%N. generalize (sigs qc).
  intros l. induction l as [|[rid sig] l IH]; intros n; simpl; [done|].
  apply wp_bind. unfold get_publickey, get_info, bind, wp.
  destruct (replica_map cfg !! rid) as [info|] eqn:Hi; [simpl; apply IH|].
  split; [done|]. apply out_signer. rewrite elem_of_replicas, Hi. by intros [??].
Qed.

(** Validating a block only sets its cached flags; a yes means the
    certificate verified. *)
Lemma validate_hotstuff_wp b qc :
  parsed_qc b = Some qc →
  wp (validate_hotstuff cfg)
    (λ ok b', view b' = view b ∧
       (ok = true → verify cfg qc (b' : HotstuffBlock) = Ok true b'))
    (λ f b', view b' = view b ∧ outside cfg f) b.
Proof.
  intros Hqc. unfold validate_hotstuff. apply wp_bind.
  eapply wp_mono; [apply validate_hash_wp| |done]. intros ok b' (Hv & _ & Hp).
  destruct ok; simpl; [|by apply wp_ret].
  apply wp_bind, wp_gets, wp_bind. unfold get_justify_qc. rewrite Hp, Hqc. apply wp_ret.
  pose proof (verify_wp qc b') as Hver. unfold wp in *.
  destruct (verify cfg qc b') as [ok b1|f b1] eqn:Hr.
  - subst b1. split; [done|]. by intros ->.
  - destruct Hver as [-> ?]. done.
Qed.

(** A block fresh from the network. *)
Lemma new_block_quiet G s b :
  AppInv G s → node_ok (skel b) → unlinked (skel b) →
  U (get_hash b) = Some (header (wire_block b)) → decided b = false →
  sigs (self_qc b) = [] →
  quiet_wp G (new_block b) (λ p s', p ≠ gen s' ∧ st_heap s' !! p = Some b) s.
Proof using U_zero.
  intros I Hok Hun HU Hd Hs. unfold quiet_wp, new_block, wp. simpl.
  pose proof (ai_good _ _ I) as (_ & RI & _).
  pose proof (ri_tree _ _ _ _ _ _ _ _ _ RI) as T.
  set (p := fresh (dom (st_heap s))).
  assert (Hp : st_heap s !! p = None) by (apply not_elem_of_dom, is_fresh).
  destruct (RepInv_alloc U cfg B U_zero r G _ _ _ _ p b RI Hp Hok Hun HU Hd Hs) as [RI' Hn].
  set (s' := mkSt _ _ _ _).
  assert (Hle : state_le s s').
  { split; [done|]. split; [|done]. intros q b0 Hq. exists b0. simpl.
    rewrite lookup_insert_ne; [done|congruence]. }
  split; [split; [|done]|split; [done|split; [done|]]].
  - apply (AppInv_le G G s s'); auto; try apply I.
    eapply good_le; [apply I|done..].
  - split; [|simpl; by rewrite lookup_insert_eq]. intros ->.
    pose proof (tw_genesis _ _ _ (ti_wf _ _ _ _ _ _ _ T)) as Hg. simpl in *.
    rewrite lookup_fmap in Hg. change (core_genesis (st_core s)) with (gen s) in *.
    by destruct (st_heap s !! gen s).
Qed.

(** Validating a block and queueing the event that carries it. *)
Lemma net_queue_add_block G s p b e :
  AppInv G s → p ≠ gen s → st_heap s !! p = Some b →
  parsed_qc b = Some (QC_of_wire (header_qc (header (wire_block b)))) →
  block_arrival G (wire_block b) →
  (∃ rid, e = NProposal (mkProposalNet p rid) ∧ rid ∈ replicas cfg ∨
     e = NReceive (mkReceiveNet p rid)) →
  quiet_wp G (net_queue_add e) (λ _ _, True) s.
Proof using U_zero.
  intros I Hpg Hb Hqc [[_ Hun] Ha] He. pose proof (ai_good _ _ I) as (_ & RI & _).
  unfold net_queue_add.
  eapply (quiet_bind _ _ _ (λ c s1, c = cfg ∧ s1 = s)).
  { apply quiet_core; [done|]. split; [apply RI|done]. }
  intros c s1 _ _ _ [-> ->].
  assert (Hview : ∀ b', view b' = view b →
    let s' := mkSt (<[p := b']> (st_heap s)) (st_disk s) (st_core s) (st_env s) in
    AppInv G s' ∧ state_le s s').
  { intros b' Hv s'. assert (Hsv : same_view (st_heap s') (st_heap s))
      by (by apply (same_view_insert _ _ b)).
    assert (Hle : state_le s s') by (split; [done|]; by apply tree_le_same_skel, same_view_skel).
    split; [|done]. apply (AppInv_le G G s s'); auto; try apply I.
    eapply good_le; [apply I|by eapply RepInv_same_view|done..]. }
  eapply (quiet_bind _ _ _ (λ ok s1, ok = true →
    block_valid U cfg B G (gen s1) (st_heap s1) p)).
  - assert (Hv : NetEvent_validate cfg e = validate_block cfg p)
      by (destruct He as (rid & [[-> _]| ->]); done).
    rewrite Hv. apply wp_zoom. unfold wp, validate_block. rewrite Hb.
    pose proof (validate_hotstuff_wp b _ Hqc) as Hw. unfold wp in Hw.
    destruct (validate_hotstuff cfg b) as [ok b'|f b'].
    + destruct Hw as [Hvw Hver]. destruct (Hview b' Hvw) as [I' Hle].
      split; [done|]. split; [done|]. split; [done|]. intros ->. split; [done|].
      exists b'. simpl. rewrite lookup_insert_eq. split; [done|].
      pose proof (view_inv _ _ Hvw) as (Hsk & _).
      pose proof (f_equal sk_header Hsk) as Hhd. simpl in Hhd. unfold get_parent_hash.
      rewrite Hhd. split; [done|]. eapply verify_certified; [exact Hun|by apply Hver].
    + destruct Hw as [Hvw Hf]. destruct (Hview b' Hvw) as [I' Hle].
      apply quiet_stop; [done..|by right].
  - intros [] s1 I1 _ _ Hok; simpl; [|by apply quiet_ret].
    apply add_net_event_quiet; [done|].
    destruct He as (rid & [[-> Hr]| ->]); simpl; [split; [done|]|]; by apply Hok.
Qed.

Lemma receive_block_Ok {S} w src b (s s' : S) :
  receive_block w src s = Ok b s' → s' = s ∧
  ∃ h, crypto_generichash (xdr_header (header w)) = Some h ∧
    b = mkBlock w (Some (QC_of_wire (header_qc (header w)))) src 0 None None
          (QC_new h) false false false false false.
Proof.
  unfold receive_block, bind, hash_xdr, ret, throw. intros Hr.
  destruct (crypto_generichash _) as [h|]; [|done]. simplify_eq. split; [done|]. by exists h.
Qed.

Lemma receive_block_fault {S} w src f (s s' : S) :
  receive_block w src s = Fault f s' → s' = s ∧ outside cfg f.
Proof.
  unfold receive_block, bind. destruct (hash_xdr _ s) as [h s1|f1 s1] eqn:Hh; [done|].
  intros [= <- <-]. by eapply hash_xdr_outside.
Qed.

Lemma receive_block_quiet G s w src :
  AppInv G s → header_known (header w) →
  quiet_wp G (receive_block w src)
    (λ b _, wire_block b = w ∧ node_ok (skel b) ∧ unlinked (skel b) ∧
       U (get_hash b) = Some (header (wire_block b)) ∧ decided b = false ∧
       self_qc b = QC_new (get_hash b) ∧ proposer b = src) s.
Proof.
  intros I HU. unfold quiet_wp, wp.
  destruct (receive_block w src s) as [b s'|f s'] eqn:Hr.
  - apply receive_block_Ok in Hr as (-> & h & Hh & ->).
    split; [done|]. split; [apply state_le_refl|]. split; [done|].
    split; [done|]. split; [by split|]. split; [done|]. split; [by apply HU|done].
  - destruct (receive_block_fault _ _ _ _ _ Hr) as [-> ?]. apply AppInv_stop; [done|by right].
Qed.

Lemma handler_propose_quiet G s m :
  AppInv G s → block_arrival G (pm_proposal m) →
  quiet_wp G (handler_propose m) (λ _ _, True) s.
Proof using U_zero.
  intros I Harr. unfold handler_propose.
  pose proof (ai_good _ _ I) as (_ & RI & _).
  eapply (quiet_bind _ _ _ (λ c _, c = cfg)); [apply quiet_core; [done|apply RI]|].
  intros c s1 I1 _ _ ->. destruct (is_valid_replica cfg (pm_proposer m)) eqn:Hr; simpl;
    [|by apply quiet_ret].
  apply bool_decide_eq_true, elem_of_replicas in Hr.
  eapply quiet_bind; [apply receive_block_quiet; [done|apply Harr]|].
  intros b s2 I2 _ _ (Hw & Hok & Hun & HU & Hd & Hq & _).
  eapply quiet_bind; [apply new_block_quiet; try done; by rewrite Hq|].
  intros p s3 I3 _ _ [Hpg Hp]. eapply net_queue_add_block; try done.
  - apply Hok.
  - by rewrite Hw.
  - eexists. left. by split.
Qed.

Lemma worker_response_quiet G s w from :
  AppInv G s → block_arrival G w → quiet_wp G (worker_response w from) (λ _ _, True) s.
Proof using U_zero.
  intros I Harr. unfold worker_response.
  eapply quiet_bind; [apply receive_block_quiet; [done|apply Harr]|].
  intros b s2 I2 _ _ (Hw & Hok & Hun & HU & Hd & Hq & _).
  pose proof (validate_hash_wp b) as Hh. unfold wp in Hh.
  destruct (validate_hash b) as [ok b'|f b']; [|apply AppInv_stop; [done|by right; apply Hh]].
  destruct Hh as (Hv & Hw' & _). apply view_inv in Hv as (Hsk & Hqc & Hgh & Hdec).
  eapply quiet_bind; [apply new_block_quiet|].
  - done.
  - by rewrite Hsk.
  - by rewrite Hsk.
  - by rewrite Hgh, Hw'.
  - by rewrite Hdec.
  - by rewrite Hqc, Hq.
  - intros p s3 I3 _ _ [Hpg Hp]. eapply net_queue_add_block; try done.
    + rewrite Hw'. destruct Hok as [Hok _]. rewrite <- Hsk in Hok.
      rewrite <- Hw'. exact Hok.
    + by rewrite Hw', Hw.
    + eexists. by right.
Qed.

Lemma handler_vote_quiet G s v :
  AppInv G s → vote_arrival G v → quiet_wp G (handler_vote v) (λ _ _, True) s.
Proof using U_zero.
  intros I Harr. pose proof (ai_good _ _ I) as (_ & RI & _). unfold handler_vote.
  eapply (quiet_bind _ _ _ (λ c s1, c = cfg ∧ s1 = s)).
  { apply quiet_core; [done|]. split; [apply RI|done]. }
  intros c s1 _ _ _ [-> ->]. destruct (is_valid_replica cfg (vm_voter v)) eqn:Hv; simpl;
    [|by apply quiet_ret].
  unfold net_queue_add. eapply (quiet_bind _ _ _ (λ c s1, c = cfg ∧ s1 = s)).
  { apply quiet_core; [done|]. split; [apply RI|done]. }
  intros c s1 _ _ _ [-> ->]. apply bool_decide_eq_true in Hv as [info Hi].
  eapply (quiet_bind _ _ _ (λ ok s1, s1 = s ∧ ok = PC_validate (vm_vote v) info)).
  { apply wp_zoom. simpl. unfold VoteNetEvent_validate, get_info, wp, bind. simpl.
    rewrite Hi. simpl. destruct s. split; [done|]. split; [apply state_le_refl|done]. }
  intros ok s1 _ _ _ [-> ->]. destruct (PC_validate _ _) eqn:Hpc; simpl; [|by apply quiet_ret].
  apply add_net_event_quiet; [done|]. simpl. split; [apply elem_of_replicas; eauto|].
  intros Hb. by eapply Harr.
Qed.

(** ** Proposing *)

(** A computation that only looks. *)
Definition reads_only {A} (m : M (AppSt V) A) : Prop := ∀ s,
  wp m (λ _ s', s' = s) (λ _ s', s' = s) s.

Lemma supports_nonempty_reads lb : reads_only (supports_nonempty lb).
Proof.
  intros s. unfold supports_nonempty. generalize proposal_depth. intros d. revert lb.
  unfold wp. induction d as [|d IH]; intros lb; simpl; [done|].
  destruct (self_id (st_core s) =? proposer lb)%N; simpl; [|done].
  destruct (justify_block_ptr lb), (parent_block_ptr lb) as [pp|]; try done.
  unfold get_justify_hash, get_justify_qc, bind.
  destruct (parsed_qc lb); simpl; [|done].
  destruct (bool_decide _); simpl; [|done].
  unfold deref. destruct (st_heap s !! pp); simpl; [apply IH|done].
Qed.

Lemma always_empty_reads lb : reads_only (always_empty lb).
Proof. done. Qed.

(** It answers for every block of the tree. *)
Definition chooses (nonempty : HotstuffBlock → M (AppSt V) bool) : Prop := ∀ G s p lb,
  AppInv G s → node (gen s) (tr s) (cache s) p (skel lb) → ∃ ne, nonempty lb s = Ok ne s.

Lemma supports_nonempty_chooses : chooses supports_nonempty.
Proof using U_zero.
  intros G s p lb I. pose proof (ai_good _ _ I) as (_ & RI & _).
  pose proof (ri_tree _ _ _ _ _ _ _ _ _ RI) as T.
  unfold supports_nonempty. generalize proposal_depth. intros d. revert p lb.
  induction d as [|d IH]; intros p lb Hk; simpl; [by exists true|].
  destruct (self_id (st_core s) =? proposer lb)%N; simpl; [|by exists false].
  destruct (justify_block_ptr lb) as [jp|] eqn:Hj; [|by exists false].
  destruct (parent_block_ptr lb) as [pp|] eqn:Hp; [|by exists false].
  pose proof (node_justify_linked U cfg B U_zero G _ _ _ T _ _ jp Hk Hj) as Hl.
  destruct (linked_parent U cfg B U_zero G _ _ _ T _ _ (proj1 Hk) Hl) as (pp' & pk & Hpp & Hpk & _).
  simpl in Hpp. assert (pp' = pp) as -> by congruence.
  pose proof Hpk as [(pb & Hpb & <-)%skel_lookup _].
  pose proof (linked_not_genesis U cfg B U_zero G _ _ _ T _ _ (proj1 Hk) Hl) as Hne.
  destruct (tw_nodes _ _ _ (ti_wf _ _ _ _ _ _ _ T) _ _ (proj1 Hk) Hne) as [[Hqc _] _].
  unfold get_justify_hash, get_justify_qc, bind. simpl in Hqc. rewrite Hqc. simpl.
  destruct (bool_decide _); simpl; [|by exists false].
  unfold deref. rewrite Hpb. simpl. by apply (IH pp).
Qed.

Lemma always_empty_chooses : chooses always_empty.
Proof. intros G s p lb _ _. by exists false. Qed.

(** The block about to be proposed has a header its hash stands for. *)
Definition mint_known (nonempty : HotstuffBlock → M (AppSt V) bool) (s : AppSt V) : Prop :=
  ∀ b s', mint_proposal nonempty s = Ok b s' → header_known (header (wire_block b)).

Lemma set_vm_AppInv G s v :
  AppInv G s →
  let s' := mkSt (st_heap s) (st_disk s) (st_core s) (set_vm v (st_env s)) in
  AppInv G s' ∧ state_le s s'.
Proof using U_zero.
  intros I. edestruct (AppInv_env G s (set_vm v (st_env s))) as ([? ?] & ? & ?); auto. apply I.
Qed.

(** The new block: a child of the leaf carrying the highest certificate. *)
Lemma mint_block_quiet G s bd qc parent self :
  AppInv G s →
  quiet_wp G (mint_block bd qc parent self)
    (λ b _, node_ok (skel b) ∧ unlinked (skel b) ∧ decided b = false ∧
       self_qc b = QC_new (get_hash b) ∧ proposer b = self ∧
       parent_hash (header (wire_block b)) = parent ∧ header_qc (header (wire_block b)) = qc) s.
Proof.
  intros I. unfold mint_block. eapply (quiet_bind _ _ _ (λ _ s2, s2 = s)).
  { unfold quiet_wp, wp. destruct (hash_xdr _ s) as [h s'|f s'] eqn:Hh.
    - apply hash_xdr_Ok in Hh as [_ ->]. split; [done|]. split; [apply state_le_refl|done].
    - apply hash_xdr_outside in Hh as [-> ?]. apply AppInv_stop; [done|by right]. }
  intros bh ? _ _ _ ->. unfold quiet_wp, wp.
  destruct (receive_block _ _ s) as [b s2|f s2] eqn:Hr.
  - apply receive_block_Ok in Hr as (-> & h & Hh & ->).
    split; [done|]. split; [apply state_le_refl|]. by repeat split.
  - apply receive_block_fault in Hr as [-> ?]. apply AppInv_stop; [done|by right].
Qed.

Lemma mint_proposal_shape G s nonempty lb :
  AppInv G s → chooses nonempty →
  st_heap s !! b_leaf (st_core s) = Some lb →
  quiet_wp G (mint_proposal nonempty)
    (λ b _, node_ok (skel b) ∧ unlinked (skel b) ∧ decided b = false ∧
       self_qc b = QC_new (get_hash b) ∧ proposer b = self_id (st_core s) ∧
       parent_hash (header (wire_block b)) = get_hash lb ∧
       header_qc (header (wire_block b)) = (hqc (st_core s)).2) s.
Proof using U_zero.
  intros I Hne Hlb. pose proof (ai_good _ _ I) as (_ & RI & _).
  destruct (ri_leaf _ _ _ _ _ _ _ _ _ RI) as (k & _ & Hk & _).
  pose proof (proj1 Hk) as Hk'. rewrite (skel_lookup_Some _ _ _ Hlb) in Hk'. injection Hk' as <-.
  unfold mint_proposal.
  eapply (quiet_bind _ _ _ (λ p s1, p = b_leaf (st_core s) ∧ s1 = s)); [by apply quiet_core|].
  intros ? ? _ _ _ [-> ->].
  eapply (quiet_bind _ _ _ (λ b s1, b = lb ∧ s1 = s)); [by eapply quiet_read|].
  intros ? ? _ _ _ [-> ->]. simpl.
  eapply (quiet_bind _ _ _ (λ _ s1, s1 = s)).
  { destruct (Hne G s _ lb I Hk) as [ne Hrun]. eapply wp_run; [exact Hrun|].
    split; [done|]. split; [apply state_le_refl|done]. }
  intros ne ? _ _ _ ->. eapply (quiet_bind _ _ _ (λ _ _, True)).
  { unfold in_env, in_vm. apply wp_zoom, wp_zoom.
    eapply wp_mono; [apply next_faults|..]; simpl.
    - intros bd v _. destruct (set_vm_AppInv G s v I) as [? ?]. done.
    - intros f v Hf. destruct (set_vm_AppInv G s v I) as [? ?].
      apply quiet_stop; [done..|by do 2 left]. }
  intros bd s1 I1 L1 C1 _.
  eapply (quiet_bind _ _ _ (λ h s2, h = hqc (st_core s) ∧ s2 = s1)).
  { apply quiet_core; [done|]. by rewrite C1. }
  intros ? ? _ _ _ [-> ->].
  eapply (quiet_bind _ _ _ (λ i s2, i = self_id (st_core s) ∧ s2 = s1)).
  { apply quiet_core; [done|]. by rewrite C1. }
  intros ? ? _ _ _ [-> ->]. by apply mint_block_quiet.
Qed.

(** A new proposal extends the highest certificate: its justified block is a
    certified ancestor of its parent, which is the current leaf. *)
Lemma mint_proposal_quiet G s nonempty :
  AppInv G s → chooses nonempty → mint_known nonempty s →
  quiet_wp G (mint_proposal nonempty)
    (λ b s', node_ok (skel b) ∧ unlinked (skel b) ∧ decided b = false ∧
       self_qc b = QC_new (get_hash b) ∧
       U (get_hash b) = Some (header (wire_block b)) ∧
       anc U (just_of (header (wire_block b))) (get_parent_hash b) ∧
       certified cfg B G (just_of (header (wire_block b))) ∧
       header_qc (header (wire_block b)) = (hqc (st_core s)).2 ∧
       is_Some (cache s' !! get_parent_hash b) ∧
       is_Some (cache s' !! just_of (header (wire_block b)))) s.
Proof using U_zero.
  intros I Hne Hk. pose proof (ai_good _ _ I) as (_ & RI & _).
  pose proof (ri_tree _ _ _ _ _ _ _ _ _ RI) as T.
  destruct (ri_leaf _ _ _ _ _ _ _ _ _ RI) as (kf & kh & Hnf & Hkh & Ha).
  destruct (ri_hqc _ _ _ _ _ _ _ _ _ RI) as (kh' & Hnh & Hc & Hq).
  assert (kh' = kh) as -> by (destruct Hnh; congruence).
  pose proof (node_in_cache U cfg B U_zero G _ _ _ T _ _ Hnf) as [pf Hpf].
  pose proof (node_in_cache U cfg B U_zero G _ _ _ T _ _ Hnh) as [ph Hph].
  pose proof Hnf as [(lb & Hlb & <-)%skel_lookup _].
  eapply wp_mono; [apply wp_eq; by eapply mint_proposal_shape| |done].
  intros b s' [(Hq1 & L1 & C1 & Hok & Hun & Hd & Hsq & Hpr & Hpar & Hqc) Hrun].
  split; [done|]. split; [done|]. split; [done|].
  unfold just_of, get_parent_hash. rewrite Hqc, Hpar, Hq.
  do 4 (split; [done|]). split; [by apply (Hk _ _ Hrun), Hok|].
  do 3 (split; [done|]). destruct L1 as (_ & _ & _ & Hcm). split; eauto.
Qed.

Lemma RepInv_set_leaf G h co c sg p k :
  RepInv U cfg B r G h co c sg → node (core_genesis co) (skel <$> h) c p k →
  anc U (qcw_justify (hqc co).2) (sk_hash k) →
  RepInv U cfg B r G h (set_b_leaf p co) c sg.
Proof.
  intros [] Hk Ha. split; simpl; try done.
  destruct ri_hqc as (kh & Hkh & _ & Hq). exists k, kh. rewrite <- Hq.
  split; [done|]. split; [apply Hkh|done].
Qed.

Lemma broadcast_quiet G s p b :
  AppInv G s → st_heap s !! p = Some b → linked (tr s) (cache s) (skel b) →
  quiet_wp G (in_env (λ h, broadcast_proposal h p)) (λ _ _, True) s.
Proof using U_zero r_member.
  intros I Hb Hl. unfold quiet_wp, in_env, broadcast_proposal. apply wp_zoom, wp_bind, wp_gets.
  assert (Hev : event_ok G s (EProposal (mkProposalEvent r p))) by (split; [done|by exists b]).
  pose proof (event_queue_quiet G s _ I Hev) as He. unfold quiet_wp, in_env in He.
  rewrite (proj1 (ai_self _ _ I)). apply wp_bind. unfold self_propose.
  unfold wp, zoom in He |- *.
  destruct (event_queue_add _ _ (st_env s)) as [[] e|f e]; [|done].
  destruct He as ([I1 V1] & L1 & C1 & _). unfold bind, deref. rewrite Hb. simpl.
  set (s1 := mkSt (st_heap s) (st_disk s) (st_core s) e) in *.
  edestruct (AppInv_env G s1 (set_clients ((λ work, work ++ [MPropose
    (mkProposeMessage (wire_block b) r)]) <$> other_clients (a_protocol (st_env s))) e))
    as ([I2 V2] & L2 & C2); auto; [|apply I1|].
  { split; [done|]. simpl. rewrite dom_fmap_L, (proj2 (ai_self _ _ I)).
    symmetry. apply (ai_self _ _ I1). }
  split; [split; [done|exact V1]|]. split; [by eapply state_le_trans|done].
Qed.

Lemma propose_wp G s nonempty :
  AppInv G s → chooses nonempty → mint_known nonempty s →
  wp (propose_with nonempty) (λ _ s', quiet_ok G s s' ∧ state_le s s')
    (λ f s', handler_stop U cfg B r G s f s') s.
Proof using U_zero U_short r_member.
  intros I Hne Hk. unfold propose_with. apply wp_bind.
  eapply wp_mono; [by apply mint_proposal_quiet| |done].
  intros b s1 ([I1 V1] & L1 & C1 & Hok & Hun & Hd & Hsq & HU & Ha & Hc & Hqc & [pp Hpp] & [jp Hjp]).
  assert (Htail : quiet_wp G (p <- new_block b ;; md <- store_insert p ;; ret (p, md))
    (λ pm s', missing pm.2 = false ∧ ∃ b', st_heap s' !! pm.1 = Some b' ∧
       get_hash b' = get_hash b ∧ linked (tr s') (cache s') (skel b')) s1).
  { eapply quiet_bind; [apply new_block_quiet; try done; by rewrite Hsq|].
    intros p s2 I2 L2 C2 [Hpg Hp]. eapply quiet_bind; [apply store_insert_quiet; [done|]|].
    { split; [done|]. by exists b. }
    intros md s3 I3 L3 C3 [Hl Hnm]. apply quiet_ret; [done|]. simpl.
    assert (Hm : missing md = false).
    { destruct L2 as (_ & _ & _ & Hcm). apply (Hnm b); eauto. }
    split; [done|].
    destruct (Hl Hm) as (b' & Hb' & Hl'). exists b'. split; [done|]. split; [|done].
    destruct (proj1 (proj2 L3) _ _ Hp) as (b3 & Hb3 & _ & Hh). congruence. }
  assert (Hst : ∀ f s', handler_stop U cfg B r G s1 f s' → handler_stop U cfg B r G s f s').
  { intros f s' (Hf & ws & Hws & ?). split; [done|]. exists ws. by rewrite <- V1. }
  unfold quiet_wp, wp, bind in Htail |- *.
  destruct (new_block b s1) as [p s2|f s2]; [|by apply Hst].
  destruct (store_insert p s2) as [md s3|f s3]; [|by apply Hst].
  destruct Htail as ([I3 V3] & L3 & C3 & Hm & b' & Hb' & Hh & Hl'). cbn [fst snd] in Hm, Hb'. rewrite Hm. simpl.
  set (s4 := mkSt (st_heap s3) (st_disk s3) (set_b_leaf p (st_core s3)) (st_env s3)).
  pose proof (ai_good _ _ I3) as Hg3. pose proof Hg3 as (_ & RI3 & _).
  assert (Hk' : node (gen s3) (tr s3) (cache s3) p (skel b'))
    by (split; [by apply skel_lookup_Some|by right]).
  assert (L4 : state_le s3 s4) by (split; [done|apply tree_le_refl]).
  assert (I4 : AppInv G s4).
  { apply (AppInv_le G G s3 s4); auto; try apply I3.
    eapply good_le; [exact Hg3| |exact L4|done|done].
    eapply RepInv_set_leaf; [exact RI3|exact Hk'|].
    simpl. rewrite Hh. rewrite C3, C1, <- Hqc. by eapply anc_step. }
  pose proof (broadcast_quiet G s4 p b' I4 Hb' Hl') as Hbc. unfold quiet_wp, wp in Hbc.
  destruct (in_env (λ h, broadcast_proposal h p) s4) as [[] s5|f s5].
  - destruct Hbc as ([I5 V5] & L5 & _). split; [split; [done|]|].
    2: exact (state_le_trans _ _ _ L1 (state_le_trans _ _ _ L3 (state_le_trans _ _ _ L4 L5))).
    rewrite V5. change (votes s4) with (votes s3). congruence.
  - destruct Hbc as (Hf & ws & Hws & ?). split; [done|]. exists ws.
    change (votes s4) with (votes s3) in Hws. split; [congruence|done].
Qed.
End process.

#[export] Hint Resolve same_peers_refl : core.
