(* ===== verification/Network.v ===== *)
(** * A cluster of replicas

    Honest replicas run the process of App.v; faulty ones, and the network, are
    everything the honest ones may receive.  A step is one operation of one
    honest replica.  The theorems: every reachable cluster keeps the invariants,
    what honest replicas decide is on one branch, and honest replicas stop only
    for the causes of [allowed]. *)

From S2P Require Import Prelude Types ReplicaConfig Certs IoUtils Block BlockStore Lmdb.
From S2P Require Import Consensus Events FetchManager App Safety ReplicaInv StoreInv AppInv.

Section network.
Context {i_sodium : Sodium} {i_xdr : Xdr} {i_bv : BitVector} {i_fs : Fs} {i_lmdb : LmdbLib}.
Context {V : Type} {i_bridge : VMBridge V}.

(** ** Operations of a replica *)

(** [AVm]: the vm side moves on its own (its worker thread, the application's
    calls of [put_vm_in_proposer_mode] or [add_proposal]), to any state. *)
Inductive action :=
  | AVoteMsg (v : VoteMessage)
  | AProposeMsg (m : ProposeMessage)
  | ABlockMsg (w : HotstuffBlockWire) (from : ReplicaID)
  | ANetEvent
  | AEvent
  | APropose
  | AEmptyPropose
  | AGc
  | AWait (expected : Hash)
  | ACancel
  | AVm (v : V).

Definition st_events (s : AppSt V) : list Event := a_events (st_env s).
Definition set_st_events (l : list Event) (s : AppSt V) : AppSt V :=
  mkSt (st_heap s) (st_disk s) (st_core s) (set_events l (st_env s)).
Definition st_net_events (s : AppSt V) : list NetEvent := a_net_events (st_env s).
Definition set_st_net_events (l : list NetEvent) (s : AppSt V) : AppSt V :=
  mkSt (st_heap s) (st_disk s) (st_core s) (set_net_events l (st_env s)).

Definition run_action (a : action) : M (AppSt V) unit :=
  match a with
  | AVoteMsg v => handler_vote v
  | AProposeMsg m => handler_propose m
  | ABlockMsg w from => worker_response w from
  | ANetEvent => run_head st_net_events set_st_net_events on_net_event
  | AEvent => run_head st_events set_st_events on_event
  | APropose => do_propose ;; ret tt
  | AEmptyPropose => do_empty_propose ;; ret tt
  | AGc => store_gc
  | AWait h => in_env (λ _, wait_for_new_qc h) ;; ret tt
  | ACancel => in_env (λ _, cancel_wait_for_new_qc)
  | AVm v => in_env (λ _, modify (set_vm v))
  end.

(** ** The cluster *)

(** A replica whose thread faulted has stopped for good. *)
Record Replica := mkReplica {
  rep_state : AppSt V;
  rep_fault : option fault;
}.

(** The honest replicas and the history of their votes, newest first. *)
Record Net := mkNet {
  net_log : list (ReplicaID * Hash);
  net_reps : gmap ReplicaID Replica;
}.

Definition step (r : ReplicaID) (a : action) (net : Net) : option Net :=
  match net_reps net !! r with
  | Some (mkReplica s None) =>
    let '(s', f) := match run_action a s with
                    | Ok _ s' => (s', None)
                    | Fault f s' => (s', Some f)
                    end in
    let new := take (length (a_signed (st_env s')) - length (a_signed (st_env s)))
                 (a_signed (st_env s')) in
    Some (mkNet (log_add r new (net_log net)) (<[r := mkReplica s' f]> (net_reps net)))
  | _ => None
  end.

Context (cfg : ReplicaConfig) (B : gset ReplicaID).

(** The state a replica is constructed in ([init_clean]). *)
Definition init_state (sk : ReplicaID → SecretKey) (vm : V) (r : ReplicaID) : AppSt V :=
  mkSt {[1%positive := genesis_block]} ∅
    (HotstuffCore_init 1%positive cfg r create_db)
    (AppBase_init 1%positive cfg r (sk r) vm).

Definition net_init (sk : ReplicaID → SecretKey) (vm : V) : Net :=
  mkNet [] (set_to_map (λ r, (r, mkReplica (init_state sk vm r) None)) (replicas cfg ∖ B)).

Context (U : Hash → option HotstuffBlockHeader).
Context (arrival : list (ReplicaID * Hash) → HotstuffBlockWire → Prop).

(** What may happen: votes are genuine, blocks are those [arrival] lets in, a
    block a replica mints has a hash of its own. *)
Definition admissible (net : Net) (r : ReplicaID) (a : action) : Prop :=
  match a with
  | AVoteMsg v => vote_arrival cfg B (net_log net) v
  | AProposeMsg m => arrival (net_log net) (pm_proposal m)
  | ABlockMsg w _ => arrival (net_log net) w
  | APropose => ∀ s f, net_reps net !! r = Some (mkReplica s f) →
      mint_known U supports_nonempty s
  | AEmptyPropose => ∀ s f, net_reps net !! r = Some (mkReplica s f) →
      mint_known U always_empty s
  | _ => True
  end.

Inductive reachable (sk : ReplicaID → SecretKey) (vm : V) : Net → Prop :=
  | reach_init : reachable sk vm (net_init sk vm)
  | reach_step net r a net' :
      reachable sk vm net → admissible net r a → step r a net = Some net' →
      reachable sk vm net'.
End network.

Arguments Replica {_} _.
Arguments Net {_} _.
Arguments action : clear implicits.

Section agreement.
Context {i_sodium : Sodium} {i_xdr : Xdr} {i_bv : BitVector} {i_fs : Fs} {i_lmdb : LmdbLib}.
Context {V : Type} {i_bridge : VMBridge V} {i_blaws : VMBridgeLaws V}.
Context (cfg : ReplicaConfig) (B : gset ReplicaID) (U : Hash → option HotstuffBlockHeader).
Hypothesis U_zero : U zero_hash = None.
Hypothesis U_short : ∀ h n, ht U h n → (n < 2 ^ 32)%N.
Hypothesis cfg_wf : config_wf cfg.
Hypothesis few_faulty :
  (N.of_nat (size B) < nreplicas cfg - 2 * (nreplicas cfg / 3))%N.

(** ** The initial state *)

Lemma init_RepInv sk vm r :
  r ∈ replicas cfg →
  RepInv U cfg B r [] (st_heap (init_state (V := V) cfg sk vm r))
    (st_core (init_state cfg sk vm r)) (cache (init_state cfg sk vm r))
    (votes (init_state cfg sk vm r)).
Proof.
  intros Hr.
  assert (Hnode : node 1%positive {[1%positive := skel genesis_block]}
            {[zero_hash := 1%positive]} 1%positive (skel genesis_block))
    by (split; [by rewrite lookup_singleton_eq|by left]).
  assert (Hone : ∀ p k, ({[1%positive := skel genesis_block]} : tree) !! p = Some k →
    p = 1%positive ∧ k = skel genesis_block) by by intros p k [<- <-]%lookup_singleton_Some.
  assert (Hlink : ∀ k c, linked {[1%positive := skel genesis_block]} c k → k = skel genesis_block → False)
    by by intros k c (? & ? & ? & ? & ? & _) ->.
  change (cache (init_state (V := V) cfg sk vm r)) with
    ({[zero_hash := 1%positive]} : gmap Hash loc).
  split; simpl; rewrite ?map_fmap_singleton; try done.
  - split.
    + apply tree_wf_init.
    + intros p k [-> ->]%Hone. done.
    + intros p k [[-> ->]%Hone _]. constructor.
    + by intros p k [-> ->]%Hone.
    + intros p k [-> ->]%Hone Hl. by destruct (Hlink _ _ Hl).
  - exists (skel genesis_block). split; [split; [done|by rewrite lookup_singleton_eq]|by left].
  - exists (skel genesis_block). split; [split; [done|by rewrite lookup_singleton_eq]|by left].
  - by intros kl ke [_ ->]%Hone [_ ->]%Hone.
  - exists (skel genesis_block). split; [done|]. split; [by left|]. done.
  - exists (skel genesis_block), (skel genesis_block). split; [done|].
    split; [by rewrite lookup_singleton_eq|constructor].
  - intros p b ke [<- <-]%lookup_singleton_Some _ [_ ->]%Hone. split; [done|constructor].
  - by intros hh p b ke _ [<- <-]%lookup_singleton_Some.
  - intros p b [<- <-]%lookup_singleton_Some. split; [apply map_wf_nil|].
    simpl. set_solver.
  - intros v. set_solver.
  - intros v. set_solver.
Qed.

Lemma init_AppInv sk vm r :
  r ∈ replicas cfg → AppInv U cfg B r [] (init_state (V := V) cfg sk vm r).
Proof.
  intros Hr. split; simpl; try done.
  - split; [done|]. split; [by apply init_RepInv|]. intros v hv hj n kl Hin. set_solver.
  - apply init_configs_wf.
  - split; [done|]. simpl. by rewrite dom_fmap_L, dom_delete_L.
Qed.

(** ** One operation *)

(** The side conditions of [admissible], at a replica's state. *)
Definition action_ok (G : list (ReplicaID * Hash)) (s : AppSt V) (a : action V) : Prop :=
  match a with
  | AVoteMsg v => vote_arrival cfg B G v
  | AProposeMsg m => block_arrival U cfg B G (pm_proposal m)
  | ABlockMsg w _ => block_arrival U cfg B G w
  | APropose => mint_known U supports_nonempty s
  | AEmptyPropose => mint_known U always_empty s
  | _ => True
  end.

Section one.
Context (r : ReplicaID).
Hypothesis r_member : r ∈ replicas cfg.

Abbreviation AInv := (AppInv U cfg B r).

Lemma quiet_proc G s s' : quiet_ok U cfg B r G s s' → proc_ok U cfg B r G s s'.
Proof. intros [I Hv]. by exists []. Qed.

Lemma quiet_wp_proc G {A} (m : M (AppSt V) A) Q s :
  quiet_wp U cfg B r G m Q s →
  wp m (λ _ s', proc_ok U cfg B r G s s') (λ f s', handler_stop U cfg B r G s f s') s.
Proof.
  intros Hm. eapply wp_mono; [exact Hm| |done].
  intros a s' (Hq & _). by apply quiet_proc.
Qed.

Lemma run_head_events G s :
  AInv G s →
  wp (run_head st_events set_st_events on_event) (λ _ s', proc_ok U cfg B r G s s')
    (λ f s', handler_stop U cfg B r G s f s') s.
Proof using All.
  intros I. unfold run_head, wp. destruct (st_events s) as [|e es] eqn:He.
  { by exists []. }
  pose proof (ai_events _ _ _ _ _ _ I) as Hall. unfold st_events in He. rewrite He in Hall.
  apply Forall_cons in Hall as [He1 Hes].
  edestruct (AppInv_env U cfg B U_zero r G s (set_events es (st_env s)))
    as ([I1 _] & _ & _); auto; [|apply I|].
  { intros ev Hev. left. rewrite He. by right. }
  change (wp (on_event e) (λ _ s', proc_ok U cfg B r G (set_st_events es s) s')
    (λ f s', handler_stop U cfg B r G (set_st_events es s) f s') (set_st_events es s)).
  apply (on_event_wp U cfg B U_zero U_short cfg_wf few_faulty r r_member G); [done|].
  eapply (event_ok_le U cfg B U_zero r G G s); [apply I| |done|done].
  split; [done|apply tree_le_refl].
Qed.

Lemma run_head_net_events G s :
  AInv G s →
  wp (run_head st_net_events set_st_net_events on_net_event)
    (λ _ s', proc_ok U cfg B r G s s')
    (λ f s', handler_stop U cfg B r G s f s') s.
Proof using All.
  intros I. unfold run_head, wp. destruct (st_net_events s) as [|e es] eqn:He.
  { by exists []. }
  pose proof (ai_net _ _ _ _ _ _ I) as Hall. unfold st_net_events in He. rewrite He in Hall.
  apply Forall_cons in Hall as [He1 Hes].
  edestruct (AppInv_env U cfg B U_zero r G s (set_net_events es (st_env s)))
    as ([I1 _] & _ & _); auto; [|apply I|].
  { intros ev Hev. left. rewrite He. by right. }
  change (wp (on_net_event e) (λ _ s', proc_ok U cfg B r G (set_st_net_events es s) s')
    (λ f s', handler_stop U cfg B r G (set_st_net_events es s) f s')
    (set_st_net_events es s)).
  apply (quiet_wp_proc G _ (λ _ _, True) (set_st_net_events es s)).
  by apply on_net_event_quiet.
Qed.

Lemma run_action_wp G s a :
  AInv G s → action_ok G s a →
  wp (run_action a) (λ _ s', proc_ok U cfg B r G s s')
    (λ f s', handler_stop U cfg B r G s f s') s.
Proof using All.
  intros I Hok.
  assert (Hp : ∀ ne, chooses U cfg B r ne → mint_known U ne s →
    wp (propose_with ne ;; ret tt) (λ _ s', proc_ok U cfg B r G s s')
      (λ f s', handler_stop U cfg B r G s f s') s).
  { intros ne Hne Hk. apply wp_bind.
    eapply wp_mono; [by apply (propose_wp U cfg B U_zero U_short r r_member G)| |done].
    intros h s' [Hq _]. by apply wp_ret, quiet_proc. }
  assert (Hw : ∀ q c, AInv G (mkSt (st_heap s) (st_disk s) (st_core s) (set_wait q c (st_env s)))).
  { intros q c. edestruct (AppInv_env U cfg B U_zero r G s (set_wait q c (st_env s)))
      as ([? _] & _); auto. apply I. }
  destruct a; simpl in *.
  - eapply quiet_wp_proc. by apply handler_vote_quiet.
  - eapply quiet_wp_proc. by apply handler_propose_quiet.
  - eapply quiet_wp_proc. by apply worker_response_quiet.
  - by apply run_head_net_events.
  - by apply run_head_events.
  - apply Hp; [by apply supports_nonempty_chooses|done].
  - apply Hp; [apply always_empty_chooses|done].
  - eapply wp_mono; [by apply store_gc_wp| |done]. intros u s' [Hq _]. by apply quiet_proc.
  - apply wp_bind. unfold in_env. apply wp_zoom. unfold wp, wait_for_new_qc.
    destruct (latest_new_qc (st_env s)), (cancel_wait (st_env s)); simpl;
      exists []; (split; [done|]); try apply Hw. by destruct s.
  - exists []. split; [done|]. apply Hw.
  - exists []. split; [done|]. by apply (set_vm_AppInv U cfg B U_zero r G).
Qed.
End one.

(** ** The cluster's invariant *)

Definition replica_ok (G : list (ReplicaID * Hash)) (r : ReplicaID) (rep : Replica V) : Prop :=
  r ∈ replicas cfg ∧ r ∉ B ∧
  match rep_fault rep with
  | None => AppInv U cfg B r G (rep_state rep)
  | Some f => allowed (E := AppBase V) cfg f ∧
      stopped U cfg B r G (st_heap (rep_state rep)) (votes (rep_state rep))
  end.

Definition net_inv (net : Net V) : Prop :=
  log_ok U cfg B (net_log net) ∧
  ∀ r rep, net_reps net !! r = Some rep → replica_ok (net_log net) r rep.

(** A vote elsewhere does not disturb a replica. *)
Lemma replica_ok_mono G r r' ws rep :
  log_ok U cfg B (log_add r ws G) → r' ≠ r →
  replica_ok G r' rep → replica_ok (log_add r ws G) r' rep.
Proof using U_zero.
  intros Hlog Hne (Hm & Hb & Hs). split; [done|]. split; [done|].
  assert (Hsub : ∀ x, x ∈ G → x ∈ log_add r ws G) by (intros; by apply log_add_sub).
  assert (Hown : ∀ v, (r', v) ∈ log_add r ws G → (r', v) ∈ G).
  { intros v [Hin|?]%elem_of_app; [|done].
    apply list_elem_of_fmap in Hin as (w & ? & _). simplify_eq. }
  destruct (rep_fault rep) as [f|].
  - destruct Hs as [Hf Hs]. split; [done|]. by eapply stopped_log_mono.
  - pose proof (ai_good _ _ _ _ _ _ Hs) as (_ & RI & Hlv).
    apply (AppInv_le U cfg B U_zero r' G _ (rep_state rep)); auto; try apply Hs.
    + split; [done|]. split; [|done]. by eapply RepInv_log_mono.
    + split; [done|apply tree_le_refl].
Qed.

Lemma net_inv_init sk vm : net_inv (net_init cfg B sk vm).
Proof.
  split; [done|]. intros r rep Hr. unfold net_init in Hr. simpl in Hr.
  apply lookup_set_to_map in Hr as (r' & Hr' & Heq); [|done]. simplify_eq.
  split; [set_solver|]. split; [set_solver|]. apply init_AppInv. set_solver.
Qed.

Lemma net_inv_step net r a net' :
  net_inv net → admissible cfg B U (block_arrival U cfg B) net r a → step r a net = Some net' → net_inv net'.
Proof using All.
  intros [Hlog Hinv] Hadm Hstep. unfold step in Hstep.
  destruct (net_reps net !! r) as [[s [f|]]|] eqn:Hr; [done| |done].
  destruct (Hinv _ _ Hr) as (Hm & Hb & I). simpl in I.
  assert (Hok : action_ok (net_log net) s a) by (destruct a; simpl in *; eauto).
  pose proof (run_action_wp r Hm _ _ _ I Hok) as Hwp. unfold wp in Hwp.
  assert (Hcommon : ∀ s' f ws, votes s' = ws ++ votes s →
    log_ok U cfg B (log_add r ws (net_log net)) →
    replica_ok (log_add r ws (net_log net)) r (mkReplica s' f) →
    net_inv (mkNet (log_add r (take (length (a_signed (st_env s')) - length (a_signed (st_env s)))
      (a_signed (st_env s'))) (net_log net)) (<[r := mkReplica s' f]> (net_reps net)))).
  { intros s' f ws Hv Hl Hrep. unfold votes in Hv. simpl in Hv.
    rewrite Hv, length_app, take_app_length' by lia. split; [done|]. simpl.
    intros r' rep [[<- <-]|[Hne Hr']]%lookup_insert_Some; [done|].
    apply replica_ok_mono; auto. }
  destruct (run_action a s) as [[] s'|f s']; simplify_eq.
  - destruct Hwp as (ws & Hws & I'). apply (Hcommon s' None ws); [done| |].
    + by destruct (ai_good _ _ _ _ _ _ I').
    + by split.
  - destruct Hwp as (Hf & ws & Hws & Hl & Hst). by apply (Hcommon s' (Some f) ws).
Qed.

Lemma reachable_inv sk vm net : reachable cfg B U (block_arrival U cfg B) sk vm net → net_inv net.
Proof using All.
  induction 1; [apply net_inv_init|by eapply net_inv_step].
Qed.

(** What a replica has decided is below a committed block. *)
Lemma decided_committed net r rep p b :
  net_inv net → net_reps net !! r = Some rep →
  st_heap (rep_state rep) !! p = Some b → decided b = true →
  ∃ c, committed U cfg B (net_log net) c ∧ anc U (get_hash b) c.
Proof.
  intros [_ Hinv] Hr Hb Hd. destruct (Hinv _ _ Hr) as (_ & _ & Hs).
  destruct (rep_fault rep) as [f|].
  - destruct Hs as [_ [Hs _]]. by eapply Hs.
  - pose proof (ai_good _ _ _ _ _ _ Hs) as (_ & RI & _).
    destruct (RepInv_stop U cfg B r _ _ _ _ _ RI) as [Hst _]. by eapply Hst.
Qed.

Lemma agreement_inv net r1 r2 rep1 rep2 p1 p2 b1 b2 :
  net_inv net →
  net_reps net !! r1 = Some rep1 → net_reps net !! r2 = Some rep2 →
  st_heap (rep_state rep1) !! p1 = Some b1 → decided b1 = true →
  st_heap (rep_state rep2) !! p2 = Some b2 → decided b2 = true →
  anc U (get_hash b1) (get_hash b2) ∨ anc U (get_hash b2) (get_hash b1).
Proof using U_zero cfg_wf few_faulty.
  intros I Hr1 Hr2 Hb1 Hd1 Hb2 Hd2. pose proof I as [Hlog _].
  destruct (decided_committed _ _ _ _ _ I Hr1 Hb1 Hd1) as (c1 & Hc1 & Ha1).
  destruct (decided_committed _ _ _ _ _ I Hr2 Hb2 Hd2) as (c2 & Hc2 & Ha2).
  destruct (committed_agree U U_zero cfg B cfg_wf few_faulty _ _ _ Hlog Hc1 Hc2) as [Ha|Ha].
  - apply (anc_linear U _ _ c2); [|done]. by eapply anc_trans.
  - apply (anc_linear U _ _ c1); [done|]. by eapply anc_trans.
Qed.
End agreement.
