(* ===== verification/Durable.v ===== *)
(** * What is on disk

    The second invariant of a running replica, on top of AppInv.v: every decided
    block has been written to its file, the index of decided blocks lists exactly
    the chain below [b_exec], and it holds a certificate for [b_exec].  The
    blocks of a commit are written because they are ancestors of the locked
    block, which [update] writes with all its ancestors before it commits. *)

From S2P Require Import Prelude Types ReplicaConfig Certs IoUtils Block BlockStore Lmdb.
From S2P Require Import Consensus Events FetchManager App Safety ReplicaInv StoreInv AppInv.
From S2P Require Import Network.

(** What the bridge does with the index, and how large its proposals are. *)
Class VMBridgeData {i_lmdb : LmdbLib} (V : Type) {i_bridge : VMBridge V} := {
  next_small : ∀ ne n v bd v', get_next_vm_block ne n v = Ok bd v' →
    (N.of_nat (length bd) < 2 ^ 32)%N;
  apply_indexes : ∀ h p tx v tx' v', bridge_apply_block h p tx v = Ok tx' v' →
    ∃ b vid, h !! p = Some b ∧ tx' = add_decided_block tx b vid;
}.

Section durable.
Context {i_sodium : Sodium} {i_xdr : Xdr} {i_bv : BitVector} {i_fs : Fs} {i_lmdb : LmdbLib}.
Context {i_xdrlaws : XdrLaws} {i_bvlaws : BitVectorLaws} {i_lmdblaws : LmdbLaws}.
Context {V : Type} {i_bridge : VMBridge V} {i_blaws : VMBridgeLaws V} {i_bdata : VMBridgeData V}.
Context (U : Hash → option HotstuffBlockHeader) (cfg : ReplicaConfig) (B : gset ReplicaID).
Hypothesis U_zero : U zero_hash = None.
Hypothesis U_short : ∀ h n, ht U h n → (n < 2 ^ 32)%N.
Hypothesis cfg_wf : config_wf cfg.
Hypothesis few_faulty :
  (N.of_nat (size B) < nreplicas cfg - 2 * (nreplicas cfg / 3))%N.
(** Headers in circulation respect the sizes of the .x files. *)
Hypothesis U_sized : ∀ h hd, U h = Some hd → header_ok hd.
Context (r : ReplicaID) (info : ReplicaInfo).
Hypothesis Hinfo : replica_map cfg !! r = Some info.

Abbreviation gen s := (core_genesis (st_core s)).
Abbreviation tr s := (skel <$> st_heap s).

(** ** The invariant *)

(** The file of a block holds its header. *)
Definition on_disk (d : Disk) (k : Skel) : Prop :=
  ∃ w, d !! block_filename (sk_hash k) info = Some (xdr_block w) ∧
    header w = sk_header k ∧ wire_ok w.

Definition small_body (b : HotstuffBlock) : Prop :=
  (N.of_nat (length (body (wire_block b))) < 2 ^ 32)%N.

(** Written blocks are in the tree and on disk, and, except for those in [X],
    so are their parents. *)
Definition written_ok (g : loc) (c : gmap Hash loc) (X : gset loc) (h : heap) (d : Disk) : Prop :=
  ∀ p b, h !! p = Some b → p ≠ g → written_to_disk b = true →
    node g (skel <$> h) c p (skel b) ∧ on_disk d (skel b) ∧
    (p ∈ X ∨ ∀ pp pb, parent_block_ptr b = Some pp → h !! pp = Some pb →
                written_to_disk pb = true).

(** The index of decided blocks, [ke] being the block of [b_exec]. *)
Record index_ok (db : DB) (t : tree) (c : gmap Hash loc) (ke : Skel) : Prop := {
  ix_keys : height_keys db;
  ix_entries : ∀ n, (n < 2 ^ 64)%N →
    match rget db data_dbi (write_unsigned_big_endian n) with
    | Some v => ∃ p k vid, c !! sk_hash k = Some p ∧ t !! p = Some k ∧ sk_height k = n ∧
        (0 < n)%N ∧ anc U (sk_hash k) (sk_hash ke) ∧ v = sk_hash k ++ vmid_serialize vid
    | None => n = 0%N ∨ (sk_height ke < n)%N
    end;
  ix_qc : (0 < sk_height ke)%N → ∃ w, qc_wire_ok w ∧ qcw_justify w = sk_hash ke ∧
    rget db meta_dbi (dbval_string "qc") = Some (xdr_qc (serialize (QC_of_wire w)));
  ix_none : sk_height ke = 0%N → rget db meta_dbi (dbval_string "qc") = None;
}.

Record DurInv (s : AppSt V) : Prop := {
  du_small : ∀ p b, st_heap s !! p = Some b → small_body b;
  du_genesis : ∃ b, st_heap s !! gen s = Some b ∧ written_to_disk b = true;
  du_written : written_ok (gen s) (cache s) ∅ (st_heap s) (st_disk s);
  du_decided : ∀ p b, st_heap s !! p = Some b → decided b = true → written_to_disk b = true;
  du_index : ∀ ke, tr s !! b_exec (st_core s) = Some ke →
    index_ok (decided_hash_index (st_core s)) (tr s) (cache s) ke;
}.

(** ** Operations that leave the disk, the index and the decisions alone *)

Definition flags_le (s s' : AppSt V) : Prop :=
  st_disk s' = st_disk s ∧ gen s' = gen s ∧
  decided_hash_index (st_core s') = decided_hash_index (st_core s) ∧
  b_exec (st_core s') = b_exec (st_core s) ∧
  (∀ p, is_Some (st_heap s !! p) → is_Some (st_heap s' !! p)) ∧
  ∀ p b', st_heap s' !! p = Some b' →
    (∃ b, st_heap s !! p = Some b ∧ written_to_disk b' = written_to_disk b ∧
       decided b' = decided b ∧ length (body (wire_block b')) ≤ length (body (wire_block b))) ∨
    (st_heap s !! p = None ∧ written_to_disk b' = false ∧ decided b' = false ∧ small_body b').

#[local] Instance flags_le_po : PreOrder flags_le.
Proof.
  split; unfold flags_le.
  - intros s. do 5 (split; [done|]). intros p b Hb. left. by exists b.
  - intros s1 s2 s3 (D1 & G1 & I1 & E1 & M1 & H1) (D2 & G2 & I2 & E2 & M2 & H2).
    do 4 (split; [congruence|]). split; [auto|]. intros p b3 Hb3.
    destruct (H2 _ _ Hb3) as [(b2 & Hb2 & W2 & X2 & L2)|(Hn & W2 & X2 & L2)].
    + destruct (H1 _ _ Hb2) as [(b1 & Hb1 & W1 & X1 & L1)|(Hn & W1 & X1 & L1)].
      * left. exists b1. split; [done|]. do 2 (split; [congruence|]). lia.
      * right. split; [done|]. do 2 (split; [congruence|]). unfold small_body in *. lia.
    + right. split; [|done]. destruct (st_heap s1 !! p) as [b1|] eqn:Hb1; [|done].
      destruct (M1 p) as [b2 Hb2]; [by exists b1|]. congruence.
Qed.

Definition keeps_flags {A} (m : M (AppSt V) A) : Prop := ∀ s,
  wp m (λ _ s', flags_le s s') (λ _ _, True) s.

Lemma kf_bind {A A'} (m : M (AppSt V) A) (k : A → M (AppSt V) A') :
  keeps_flags m → (∀ a, keeps_flags (k a)) → keeps_flags (bind m k).
Proof.
  intros Hm Hk s. apply wp_bind. eapply wp_mono; [apply Hm| |done].
  intros a s1 H1. eapply wp_mono; [apply Hk| |done]. intros a' s2 H2.
  etrans; [exact H1|exact H2].
Qed.

Lemma kf_ret {A} (a : A) : keeps_flags (ret a).
Proof. intros s. unfold wp. simpl. reflexivity. Qed.

Lemma kf_throw {A} e : keeps_flags (A := A) (throw e).
Proof. done. Qed.

Lemma kf_gets {A} (f : AppSt V → A) : keeps_flags (gets f).
Proof. intros s. unfold wp. simpl. reflexivity. Qed.

Lemma kf_read p : keeps_flags (read p).
Proof. intros s. unfold wp, read, deref. destruct (st_heap s !! p); [simpl; reflexivity|done]. Qed.

Lemma kf_when b m : keeps_flags m → keeps_flags (when b m).
Proof. destruct b; [done|]. intros _. apply kf_ret. Qed.

(** The core's other fields. *)
Lemma kf_in_core f :
  (∀ co, core_genesis (f co) = core_genesis co ∧ b_exec (f co) = b_exec co ∧
     decided_hash_index (f co) = decided_hash_index co) → keeps_flags (in_core f).
Proof.
  intros Hf s. unfold wp, in_core, modify. destruct (Hf (st_core s)) as (Hg & He & Hi).
  do 4 (split; [done|]). split; [done|]. simpl. intros p b Hb. left. by exists b.
Qed.

Lemma flags_le_env s e :
  flags_le s (mkSt (st_heap s) (st_disk s) (st_core s) e).
Proof. do 5 (split; [done|]). simpl. intros p b Hb. left. by exists b. Qed.

Lemma kf_in_env {A} (m : heap → M (AppBase V) A) : keeps_flags (in_env m).
Proof.
  intros s. unfold in_env. apply wp_zoom. unfold wp.
  destruct (m (st_heap s) (st_env s)); [apply flags_le_env|done].
Qed.

(** Changing one block without touching its flags. *)
Lemma flags_le_insert s p b b' e :
  st_heap s !! p = Some b → written_to_disk b' = written_to_disk b → decided b' = decided b →
  length (body (wire_block b')) ≤ length (body (wire_block b)) →
  flags_le s (mkSt (<[p := b']> (st_heap s)) (st_disk s) (st_core s) e).
Proof.
  intros Hb Hw Hd Hl. do 4 (split; [done|]). simpl. split.
  - intros q Hq. destruct (decide (p = q)) as [->|]; [rewrite lookup_insert_eq; eauto|].
    by rewrite lookup_insert_ne.
  - intros q b1 [[<- <-]|[_ Hq]]%lookup_insert_Some; left; [by exists b|by exists b1].
Qed.

Lemma kf_new_block b :
  written_to_disk b = false → decided b = false → small_body b → keeps_flags (new_block b).
Proof.
  intros Hw Hd Hs s. unfold wp, new_block. simpl.
  assert (Hp : st_heap s !! fresh (dom (st_heap s)) = None) by apply not_elem_of_dom, is_fresh.
  do 4 (split; [done|]). simpl. split.
  - intros q Hq. destruct (decide (fresh (dom (st_heap s)) = q)) as [<-|];
      [rewrite lookup_insert_eq; eauto|by rewrite lookup_insert_ne].
  - intros q b1 [[<- <-]|[_ Hq]]%lookup_insert_Some; [by right|left; by exists b1].
Qed.

Lemma kf_store_insert p : keeps_flags (store_insert p).
Proof.
  intros s. unfold store_insert. apply wp_zoom.
  unfold wp, insert_block, bind, gets, get_justify_hash, get_justify_qc, bind, deref, ret, halt_with.
  destruct (st_heap s !! p) as [b|] eqn:Hb; [|done].
  destruct (parsed_qc b) as [qc|]; simpl; [|done].
  destruct (block_cache _ !! get_parent_hash b) as [pp|]; simpl; [|apply flags_le_env].
  destruct (block_cache _ !! obj_hash qc) as [jp|]; simpl; [|apply flags_le_env].
  destruct (st_heap s !! pp) as [pb|]; simpl; [|done]. by apply (flags_le_insert _ _ b).
Qed.

Lemma kf_store_gc : keeps_flags store_gc.
Proof.
  intros s. unfold store_gc. apply wp_zoom. unfold wp, gc_run_once.
  destruct (hotstuff_height_to_gc _); simpl; [|apply flags_le_env].
  unfold do_gc. destruct (swap_remove _ _ _ _) as [kept out]. simpl.
  do 4 (split; [done|]). simpl. split.
  - intros p [b Hb]. rewrite flush_all_lookup, Hb. case_bool_decide; eauto.
  - intros p b'. rewrite flush_all_lookup. intros Hb'. left.
    case_bool_decide; [|by exists b'].
    destruct (st_heap s !! p) as [b|]; simpl in Hb'; [|done]. simplify_eq. exists b.
    unfold flush_from_memory. destruct (flushed_from_memory b); simpl; auto with lia.
Qed.

Lemma validate_hotstuff_flags c b :
  wp (validate_hotstuff c)
    (λ _ b', written_to_disk b' = written_to_disk b ∧ decided b' = decided b ∧
       wire_block b' = wire_block b) (λ _ _, True) b.
Proof.
  unfold validate_hotstuff. apply wp_bind.
  assert (Hh : wp validate_hash
    (λ _ b', written_to_disk b' = written_to_disk b ∧ decided b' = decided b ∧
       wire_block b' = wire_block b) (λ _ _, True) b).
  { unfold wp, validate_hash. destruct (hash_checked b); [done|].
    destruct (crypto_generichash _); [|done]. by case_bool_decide. }
  eapply wp_mono; [exact Hh| |done]. intros [] b' Hb'; simpl; [|by apply wp_ret].
  apply wp_bind, wp_gets, wp_bind. unfold get_justify_qc.
  destruct (parsed_qc b') as [qc|]; [|done]. apply wp_ret.
  unfold verify. case_bool_decide; [done|]. destruct (_ <? _)%N; [done|].
  apply wp_bind. generalize 0%N. generalize (sigs qc).
  intros l. induction l as [|[rid sig] l IH]; intros n; simpl; [done|].
  apply wp_bind. unfold get_publickey, get_info, bind, wp.
  destruct (replica_map c !! rid); [simpl; apply IH|done].
Qed.

Lemma kf_validate_block c p :
  keeps_flags (zoom st_heap (λ h s, mkSt h (st_disk s) (st_core s) (st_env s))
    (validate_block c p)).
Proof.
  intros s. apply wp_zoom. unfold wp, validate_block.
  destruct (st_heap s !! p) as [b|] eqn:Hb; [|done].
  pose proof (validate_hotstuff_flags c b) as Hv. unfold wp in Hv.
  destruct (validate_hotstuff c b) as [ok b'|f b']; [|done]. destruct Hv as (Hw & Hd & Hwb).
  apply (flags_le_insert _ _ b); [done..|]. by rewrite Hwb.
Qed.

Lemma kf_net_queue_add e : keeps_flags (net_queue_add e).
Proof.
  unfold net_queue_add. apply kf_bind; [apply kf_gets|intros c].
  apply kf_bind; [|intros ok; apply kf_when, kf_in_env].
  destruct e as [v|p|b]; [|apply kf_validate_block..].
  intros s. apply wp_zoom. unfold wp, NetEvent_validate, VoteNetEvent_validate, get_info, bind.
  destruct (replica_map c !! vn_voter v); simpl; [apply (flags_le_env s (st_env s))|done].
Qed.

(** A step with a fact about its result. *)
Definition kf_post {A} (m : M (AppSt V) A) (Q : A → Prop) : Prop := ∀ s,
  wp m (λ a s', flags_le s s' ∧ Q a) (λ _ _, True) s.

Lemma kf_bind_post {A A'} (m : M (AppSt V) A) Q (k : A → M (AppSt V) A') Q' :
  kf_post m Q → (∀ a, Q a → kf_post (k a) Q') → kf_post (bind m k) Q'.
Proof.
  intros Hm Hk s. apply wp_bind. eapply wp_mono; [apply Hm| |done].
  intros a s1 [H1 HQ]. eapply wp_mono; [by apply Hk| |done]. intros a' s2 [H2 ?].
  split; [|done]. etrans; [exact H1|exact H2].
Qed.

Lemma kf_post_kf {A} (m : M (AppSt V) A) Q : kf_post m Q → keeps_flags m.
Proof. intros Hm s. eapply wp_mono; [apply Hm| |done]. by intros ?? [? _]. Qed.

Lemma kf_kf_post {A} (m : M (AppSt V) A) : keeps_flags m → kf_post m (λ _, True).
Proof. intros Hm s. eapply wp_mono; [apply Hm| |done]. done. Qed.

(** A block fresh from a constructor. *)
Definition new_ok (b : HotstuffBlock) : Prop :=
  written_to_disk b = false ∧ decided b = false ∧ small_body b.

Lemma kf_receive_block w src :
  (N.of_nat (length (body w)) < 2 ^ 32)%N → kf_post (receive_block w src) new_ok.
Proof.
  intros Hw s. unfold wp, receive_block, bind, hash_xdr.
  destruct (crypto_generichash _); [|done]. simpl. split; [reflexivity|]. by repeat split.
Qed.

Lemma kf_handler_vote v : keeps_flags (handler_vote v).
Proof.
  unfold handler_vote. apply kf_bind; [apply kf_gets|intros c].
  destruct (negb _); [apply kf_ret|apply kf_net_queue_add].
Qed.

Lemma kf_handler_propose m :
  (N.of_nat (length (body (pm_proposal m))) < 2 ^ 32)%N → keeps_flags (handler_propose m).
Proof.
  intros Hw. unfold handler_propose. apply kf_bind; [apply kf_gets|intros c].
  destruct (negb _); [apply kf_ret|]. eapply kf_post_kf, kf_bind_post; [by apply kf_receive_block|].
  intros b (? & ? & ?). apply kf_kf_post, kf_bind; [by apply kf_new_block|].
  intros p. apply kf_net_queue_add.
Qed.

Lemma kf_worker_response w from :
  (N.of_nat (length (body w)) < 2 ^ 32)%N → keeps_flags (worker_response w from).
Proof.
  intros Hw. unfold worker_response.
  eapply kf_post_kf, kf_bind_post; [by apply kf_receive_block|].
  intros b (Hwr & Hd & Hs).
  assert (Hh : wp validate_hash (λ _, new_ok) (λ _ _, True) b).
  { unfold wp, validate_hash, new_ok, small_body. destruct (hash_checked b); [done|].
    destruct (crypto_generichash _); [|done]. by case_bool_decide. }
  unfold wp in Hh. destruct (validate_hash b) as [ok b'|f b']; [|done].
  destruct Hh as (? & ? & ?). apply kf_kf_post, kf_bind; [by apply kf_new_block|].
  intros p. apply kf_net_queue_add.
Qed.

Lemma kf_in_fetch {A} (m : M BlockFetchManager A) : keeps_flags (in_fetch m).
Proof. apply kf_in_env. Qed.

Create HintDb flags.
#[local] Hint Resolve kf_ret kf_throw kf_gets kf_read kf_in_env kf_in_fetch kf_store_insert
  kf_store_gc kf_net_queue_add : flags.

(** Go through a body made of such steps. *)
Local Ltac flags_step :=
  repeat match goal with
  | |- keeps_flags (bind _ _) => apply kf_bind; [|intros ?]
  | |- keeps_flags (when _ _) => apply kf_when
  | |- keeps_flags (match _ with _ => _ end) => case_match
  | |- keeps_flags _ => solve [auto with flags]
  end.

Lemma kf_insert_received p from e : keeps_flags (insert_received p from e).
Proof. unfold insert_received, request_missing, core. flags_step. Qed.

Lemma kf_on_net_event e : keeps_flags (on_net_event e).
Proof.
  unfold on_net_event, core. pose proof kf_insert_received. flags_step; auto.
Qed.

Lemma kf_update_hqc p qc : keeps_flags (update_hqc p qc).
Proof. unfold update_hqc, core. flags_step; by apply kf_in_core. Qed.

Lemma kf_on_receive_vote pc p rid : keeps_flags (on_receive_vote pc p rid).
Proof.
  intros s. unfold on_receive_vote. apply wp_bind. unfold read, wp at 1, deref.
  destruct (st_heap s !! p) as [b|] eqn:Hb; [|done]. simpl. apply wp_bind, wp_gets.
  destruct (add_partial_certificate _ _ _) as [[] qc|f ?]; [|done].
  apply wp_bind, wp_modify. set (s1 := mkSt _ _ _ _).
  assert (F1 : flags_le s s1) by by apply (flags_le_insert _ _ b).
  assert (Hk : keeps_flags (update_hqc p qc ;; in_env (λ _, on_new_qc (get_hash b)))).
  { apply kf_bind; [apply kf_update_hqc|intros _; apply kf_in_env]. }
  eapply wp_mono; [apply (kf_when _ _ Hk s1)| |done]. intros a s2 F2.
  etrans; [exact F1|exact F2].
Qed.

Lemma kf_mint_block bd qc parent self :
  (N.of_nat (length bd) < 2 ^ 32)%N → kf_post (mint_block bd qc parent self) new_ok.
Proof.
  intros Hbd. unfold mint_block. eapply kf_bind_post; [apply kf_kf_post|intros bh _].
  - intros s. unfold wp, hash_xdr. destruct (crypto_generichash _); simpl; [reflexivity|done].
  - by apply kf_receive_block.
Qed.

Lemma kf_mint_proposal nonempty :
  (∀ lb, reads_only (nonempty lb)) → kf_post (mint_proposal nonempty) new_ok.
Proof.
  intros Hne. unfold mint_proposal, core.
  eapply kf_bind_post; [apply kf_kf_post; auto with flags|intros leaf _].
  eapply kf_bind_post; [apply kf_kf_post; auto with flags|intros lb _].
  eapply kf_bind_post; [apply kf_kf_post|intros ne _].
  { intros s. eapply wp_mono; [apply Hne| |done]. by intros a s' ->. }
  eapply (kf_bind_post _ (λ bd, (N.of_nat (length bd) < 2 ^ 32)%N)).
  { intros s. unfold in_env, in_vm. apply wp_zoom, wp_zoom. unfold wp.
    destruct (get_next_vm_block _ _ _) as [bd v|] eqn:Hn; [|done]. simpl.
    split; [apply flags_le_env|]. by eapply next_small. }
  intros bd Hbd. do 2 (eapply kf_bind_post; [apply kf_kf_post; auto with flags|intros ? _]).
  by apply kf_mint_block.
Qed.

Lemma kf_propose nonempty :
  (∀ lb, reads_only (nonempty lb)) → keeps_flags (propose_with nonempty).
Proof.
  intros Hne. unfold propose_with. eapply kf_post_kf, kf_bind_post; [by apply kf_mint_proposal|].
  intros b (? & ? & ?). apply kf_kf_post, kf_bind; [by apply kf_new_block|intros p].
  flags_step. by apply kf_in_core.
Qed.

(** ** Keeping the invariant *)

Abbreviation AInv := (AppInv U cfg B r).
Abbreviation glog := (list (ReplicaID * Hash)).

Lemma index_ok_le db t c t' c' ke :
  index_ok db t c ke →
  (∀ h q, c !! h = Some q → c' !! h = Some q) →
  (∀ h q k, c !! h = Some q → t !! q = Some k → t' !! q = Some k) →
  index_ok db t' c' ke.
Proof.
  intros [Hk He Hq Hn] Hc Ht. split; [done| |done|done]. intros n Hlt. specialize (He n Hlt).
  destruct (rget db data_dbi _) as [v|]; [|done].
  destruct He as (p & k & vid & Hcp & Htp & ? & ? & ? & ?). exists p, k, vid. eauto 10.
Qed.

Lemma DurInv_le G s s' :
  AInv G s → DurInv s → state_le s s' → flags_le s s' → DurInv s'.
Proof using All.
  intros I [Hsm (gb & Hgb & Hgw) Hwr Hdec Hix] (_ & Hle & Hnode & Hcache) (Hd & Hg & Hdb & He & Hm & Hfl).
  pose proof (ai_good _ _ _ _ _ _ I) as (_ & RI & _).
  pose proof (ri_tree _ _ _ _ _ _ _ _ _ RI) as T.
  assert (Hkeep : ∀ p k, node (gen s) (tr s) (cache s) p k → tr s' !! p = Some k)
    by (intros p k Hk; by apply Hnode in Hk as [? _]).
  split.
  - intros p b' Hb'. destruct (Hfl _ _ Hb') as [(b & Hb & _ & _ & Hl)|(_ & _ & _ & ?)]; [|done].
    specialize (Hsm _ _ Hb). unfold small_body in *. lia.
  - rewrite Hg. destruct (Hm (gen s)) as [b' Hb']; [by exists gb|]. exists b'. split; [done|].
    destruct (Hfl _ _ Hb') as [(b & Hb & Hw & _)|(? & _)]; congruence.
  - rewrite Hg, Hd. intros p b' Hb' Hpg Hw'.
    destruct (Hfl _ _ Hb') as [(b & Hb & Hw & _)|(_ & Hw & _)]; [|congruence].
    destruct (Hwr p b Hb Hpg) as (Hk & Hdisk & Hpar); [congruence|].
    pose proof (Hkeep _ _ Hk) as Hk'.
    assert (Hsk : skel b' = skel b)
      by (pose proof (skel_lookup_Some _ _ _ Hb') as Hs; congruence).
    rewrite Hsk. split; [by apply Hnode|]. split; [done|right].
    destruct Hpar as [?|Hpar]; [set_solver|]. intros pp pb' Hpp Hpb'.
    change (parent_block_ptr b') with (sk_parent (skel b')) in Hpp. rewrite Hsk in Hpp.
    destruct Hk as [Hkp [?|Hl]]; [done|].
    destruct (linked_parent U cfg B U_zero G _ _ _ T _ _ Hkp Hl) as (pp0 & pk & Hpp0 & Hpk & _).
    assert (pp0 = pp) as -> by congruence. destruct Hpk as [(pb & Hpb & _)%skel_lookup _].
    destruct (Hfl _ _ Hpb') as [(pb0 & Hpb0 & -> & _)|(? & _)]; [|congruence].
    by apply (Hpar pp pb0).
  - intros p b' Hb' Hd'. destruct (Hfl _ _ Hb') as [(b & Hb & -> & Hdd & _)|(_ & _ & ? & _)];
      [|congruence]. apply (Hdec p b Hb). congruence.
  - rewrite Hdb, He. intros ke Hke.
    destruct (ri_exec _ _ _ _ _ _ _ _ _ RI) as (ke0 & [Hke0 _] & _).
    assert (ke0 = ke) as -> by (pose proof (Hkeep _ _ Hke0); congruence).
    apply (index_ok_le _ (tr s) (cache s)); [by apply Hix, Hke0|done|].
    intros h q k Hq Hk. destruct (cached_node U cfg B U_zero G _ _ _ T _ _ Hq) as (k0 & Hk0 & _).
    assert (k0 = k) as -> by (destruct Hk0; congruence). by apply Hkeep.
Qed.

(** ** Writing blocks *)

(** Changes of a heap that the writing loop makes. *)
Definition wrote (h h' : heap) : Prop :=
  same_view h' h ∧
  ∀ p b', h' !! p = Some b' → ∃ b, h !! p = Some b ∧
    body (wire_block b') = body (wire_block b) ∧
    (written_to_disk b = true → written_to_disk b' = true).

#[local] Instance wrote_po : PreOrder wrote.
Proof.
  split; unfold wrote.
  - intros h. split; [done|]. intros p b Hb. by exists b.
  - intros h1 h2 h3 [V1 H1] [V2 H2]. split; [by etrans|]. intros p b3 Hb3.
    destruct (H2 _ _ Hb3) as (b2 & Hb2 & E2 & W2). destruct (H1 _ _ Hb2) as (b1 & Hb1 & E1 & W1).
    exists b1. split; [done|]. split; [congruence|auto].
Qed.

Lemma wrote_insert h p b :
  h !! p = Some b → wrote h (<[p := with_written b true]> h).
Proof.
  intros Hb. split; [by apply (same_view_insert _ _ b)|].
  intros q b' [[<- <-]|[_ Hq]]%lookup_insert_Some; [by exists b|by exists b'].
Qed.

Section writing.
Context (G : glog) (g : loc) (c : gmap Hash loc).
Abbreviation TI h := (TreeInv U cfg B G g (skel <$> h) c).

(** Two written blocks with one hash have one header. *)
Lemma on_disk_save h d p b hh :
  TI h → p ≠ g → h !! p = Some b → small_body b →
  crypto_generichash (xdr_header (header (wire_block b))) = Some hh →
  let d' := <[block_filename hh info := xdr_block (wire_block b)]> d in
  on_disk d' (skel b) ∧
  ∀ q bq, h !! q = Some bq → q ≠ g → on_disk d (skel bq) → on_disk d' (skel bq).
Proof using All.
  intros T Hpg Hb Hsm Hh d'. pose proof (skel_lookup_Some _ _ _ Hb) as Hk.
  destruct (tw_nodes _ _ _ (ti_wf _ _ _ _ _ _ _ T) _ _ Hk Hpg) as [[_ Hgh] _]. simpl in Hgh.
  assert (hh = get_hash b) as -> by congruence.
  pose proof (ti_U _ _ _ _ _ _ _ T _ _ Hk Hpg) as HU. simpl in HU.
  assert (Hok : wire_ok (wire_block b)) by (split; [by eapply U_sized|done]).
  split.
  - exists (wire_block b). unfold d'. simpl. by rewrite lookup_insert_eq.
  - intros q bq Hq Hqg (w & Hw & Hhd & Hwok). unfold d', on_disk.
    destruct (decide (get_hash bq = get_hash b)) as [Heq|Hne].
    + exists (wire_block b). simpl. rewrite Heq, lookup_insert_eq. split; [done|]. split; [|done].
      pose proof (ti_U _ _ _ _ _ _ _ T _ _ (skel_lookup_Some _ _ _ Hq) Hqg) as HUq. simpl in HUq.
      rewrite Heq in HUq. congruence.
    + exists w. simpl. rewrite lookup_insert_ne; [done|].
      intros Hf%block_filename_inj. by apply Hne.
Qed.

(** [write_to_disk] writes the block and all its ancestors. *)
Lemma write_to_disk_dur fuel X h d p k :
  TI h → (∀ q b, h !! q = Some b → small_body b) →
  (∃ b, h !! g = Some b ∧ written_to_disk b = true) →
  written_ok g c X h d → node g (skel <$> h) c p k →
  wp (write_to_disk fuel info p)
    (λ _ hd, written_ok g c X hd.1 hd.2 ∧ wrote h hd.1 ∧
       ∃ b, hd.1 !! p = Some b ∧ written_to_disk b = true) (λ _ _, True) (h, d).
Proof using All.
  revert X h d p k. induction fuel as [|fuel IH]; intros X h d p k T Hsm Hgen Hw Hk; [done|].
  pose proof Hk as [(b & Hb & Hkb)%skel_lookup Hor]. subst k.
  cbn [write_to_disk]. apply wp_bind, wp_gets, wp_bind. simpl. unfold deref. rewrite Hb. apply wp_ret.
  destruct (written_to_disk b) eqn:Hwb; [apply wp_ret; simpl; split; [done|split; [done|by exists b]]|].
  assert (Hpg : p ≠ g) by (intros ->; destruct Hgen as (gb & ? & ?); congruence).
  destruct Hor as [?|Hl]; [done|].
  apply wp_bind, wp_modify. simpl. set (h1 := <[p := with_written b true]> h).
  pose proof (wrote_insert h p b Hb) as Hv1. fold h1 in Hv1.
  assert (Hs1 : skel <$> h1 = skel <$> h) by by apply same_view_skel, Hv1.
  apply wp_bind, wp_zoom. simpl. unfold wp.
  destruct (save_block (wire_block b) info d) as [[] d1|f d1] eqn:Hsave; [|done].
  apply save_block_Ok in Hsave as (hh & Hhh & _ & ->).
  destruct (on_disk_save h d p b hh T Hpg Hb (Hsm _ _ Hb) Hhh) as [Hnew Hold].
  set (d1 := <[block_filename hh info := xdr_block (wire_block b)]> d) in *.
  destruct (linked_parent U cfg B U_zero G g _ c T p (skel b))
    as (pp & pk & Hpp & Hpk & _); [by apply skel_lookup_Some|done|]. simpl in Hpp. rewrite Hpp.
  assert (Hw1 : written_ok g c ({[p]} ∪ X) h1 d1).
  { intros q bq [[<- <-]|[Hne Hq]]%lookup_insert_Some Hqg Hwq; rewrite Hs1.
    - split; [done|]. split; [done|left; set_solver].
    - destruct (Hw q bq Hq Hqg Hwq) as (? & ? & [?|Hpar]);
        (split; [done|]; split; [by apply (Hold q)|]); [left; set_solver|right].
      intros q' b' Hq' [[<- <-]|[_ Hb']]%lookup_insert_Some; [done|eauto]. }
  eapply wp_mono; [apply (IH ({[p]} ∪ X) h1 d1 pp pk)| |done]; simpl.
  - by rewrite Hs1.
  - intros q bq Hbq. destruct (proj2 Hv1 _ _ Hbq) as (b0 & Hb0 & Heq & _).
    unfold small_body. rewrite Heq. by eapply Hsm.
  - destruct Hgen as (gb & ? & ?). exists gb. unfold h1. by rewrite lookup_insert_ne.
  - done.
  - by rewrite Hs1.
  - intros _ [h2 d2] (Hw2 & Hv2 & pb & Hpb & Hwpb). simpl in *.
    assert (Hp2 : ∃ b2, h2 !! p = Some b2 ∧ written_to_disk b2 = true ∧ skel b2 = skel b).
    { destruct (same_view_lookup h1 h2 p (with_written b true)) as (b2 & Hb2 & Hvb).
      - symmetry. apply Hv2.
      - apply lookup_insert_eq.
      - exists b2. split; [done|]. split; [|by apply view_inv in Hvb as (-> & _)].
        destruct (proj2 Hv2 _ _ Hb2) as (b1 & Hb1 & _ & Himp). apply Himp.
        unfold h1 in Hb1. rewrite lookup_insert_eq in Hb1. by simplify_eq. }
    split; [|split; [etrans; [exact Hv1|exact Hv2]|destruct Hp2 as (b2 & ? & ? & _); by exists b2]].
    intros q bq Hbq Hqg Hwq. destruct (Hw2 q bq Hbq Hqg Hwq) as (? & ? & Hor2).
    split; [done|]. split; [done|]. destruct Hor2 as [[->%elem_of_singleton|?]%elem_of_union|?]; auto.
    right. intros q' b' Hq' Hb'. destruct Hp2 as (b2 & Hb2 & _ & Hsk2).
    assert (bq = b2) as -> by congruence.
    change (parent_block_ptr b2) with (sk_parent (skel b2)) in Hq'. rewrite Hsk2 in Hq'. simpl in Hq'.
    congruence.
Qed.
End writing.

(** ** [update] *)

Abbreviation RI G s := (RepInv U cfg B r G (st_heap s) (st_core s) (cache s) (votes s)).
Abbreviation gn s p k := (node (gen s) (tr s) (cache s) p k).

(** The invariant depends on the core through three fields. *)
Lemma DurInv_core s s' :
  DurInv s → st_heap s' = st_heap s → st_disk s' = st_disk s → cache s' = cache s →
  gen s' = gen s → b_exec (st_core s') = b_exec (st_core s) →
  decided_hash_index (st_core s') = decided_hash_index (st_core s) → DurInv s'.
Proof. intros [] Hh Hd Hc Hg He Hi. split; rewrite ?Hh, ?Hd, ?Hc, ?Hg, ?He, ?Hi; done. Qed.

Lemma write_block_dur G s p k :
  RI G s → DurInv s → gn s p k →
  wp (write_block info p)
    (λ _ s', DurInv s' ∧ ∃ b, st_heap s' !! p = Some b ∧ written_to_disk b = true)
    (λ _ _, True) s.
Proof using All.
  intros I D Hk. pose proof Hk as [(b & Hb & Hkb)%skel_lookup _].
  unfold write_block. apply wp_bind, (wp_read _ _ b); [done|]. apply wp_zoom.
  eapply wp_mono; [apply (write_to_disk_dur G (gen s) (cache s) _ ∅ _ _ p k); [apply I|apply D..|done]
    | |done].
  - intros _ [h' d'] (Hw & [Hv Hbd] & Hp). simpl in *. split; [|done].
    assert (Hs : skel <$> h' = tr s) by by apply same_view_skel.
    destruct D as [Hsm (gb & Hgb & Hgw) _ Hdec Hix]. split; simpl.
    + intros q bq Hq. destruct (Hbd _ _ Hq) as (b0 & Hb0 & Heq & _). unfold small_body.
      rewrite Heq. by eapply Hsm.
    + destruct (same_view_lookup _ h' _ _ (symmetry Hv) Hgb) as (gb' & Hgb' & _).
      exists gb'. split; [done|]. destruct (Hbd _ _ Hgb') as (b0 & Hb0 & _ & Himp).
      apply Himp. congruence.
    + done.
    + intros q bq Hq Hd. destruct (Hbd _ _ Hq) as (b0 & Hb0 & _ & Himp). apply Himp, (Hdec q); [done|].
      destruct (same_view_lookup _ _ _ _ Hv Hq) as (b1 & Hb1 & Hvb).
      apply view_inv in Hvb as (_ & _ & _ & Hdd). congruence.
    + rewrite Hs. apply Hix.
Qed.

(** The stored ancestors of a written block are written. *)
Lemma written_anc G s p k a q b :
  RI G s → DurInv s → cnode (gen s) (tr s) (cache s) p k →
  (∃ b, st_heap s !! p = Some b ∧ written_to_disk b = true) →
  anc U a (sk_hash k) → cache s !! a = Some q → st_heap s !! q = Some b →
  written_to_disk b = true.
Proof using All.
  intros I D Hk Hw Ha Hq Hb. pose proof (ri_tree _ _ _ _ _ _ _ _ _ I) as T.
  remember (sk_hash k) as w eqn:Hwk. revert p k Hk Hw Hwk.
  induction Ha as [|w hd HU Ha IH]; intros p k [Hk Hc] (pb & Hpb & Hwp) Hwk.
  - assert (q = p) as -> by congruence. congruence.
  - destruct Hk as [Hkp [->|Hl]].
    { rewrite (tw_genesis _ _ _ (ti_wf _ _ _ _ _ _ _ T)) in Hkp. simplify_eq.
      change (U zero_hash = Some hd) in HU. congruence. }
    pose proof (linked_not_genesis U cfg B U_zero G _ _ _ T _ _ Hkp Hl) as Hpg.
    pose proof (linked_U U cfg B U_zero G _ _ _ T _ _ Hkp Hl) as HU'.
    rewrite <- Hwk, HU in HU'. simplify_eq.
    destruct (linked_parent U cfg B U_zero G _ _ _ T _ _ Hkp Hl)
      as (pp & pk & Hpp & Hpk & Hcp & Hh & _).
    apply (IH pp pk); [by split| |done].
    pose proof Hpk as [(ppb & Hppb & _)%skel_lookup _]. exists ppb. split; [done|].
    destruct (du_written _ D p pb Hpb Hpg Hwp) as (_ & _ & [?|Hpar]); [set_solver|].
    apply (Hpar pp); [|done]. rewrite (skel_lookup_Some _ _ _ Hpb) in Hkp.
    apply (inj Some) in Hkp. subst k. exact Hpp.
Qed.

(** ** The index after a commit *)

Lemma txn_get_add_other tx l n :
  heights_ok l → (n < 2 ^ 64)%N → n ∉ (λ bv, get_height bv.1) <$> l →
  txn_get (add_decided_blocks tx l) data_dbi (write_unsigned_big_endian n) =
    txn_get tx data_dbi (write_unsigned_big_endian n).
Proof using i_lmdblaws.
  intros Hl Hn. induction l as [|[b v] l IH] using rev_ind; intros Hni; [done|].
  apply Forall_app in Hl as [Hl [Hb _]%Forall_cons]. rewrite fmap_app in Hni.
  apply not_elem_of_app in Hni as [Hni Hne]. unfold add_decided_blocks. rewrite foldl_snoc.
  rewrite txn_get_add_decided by done. rewrite bool_decide_eq_false_2; [by apply IH|].
  intros Heq. apply Hne. simpl. rewrite <- Heq. by left.
Qed.

(** What [commit_blocks] puts in the transaction. *)
Lemma commit_blocks_index queue tx (s : AppSt V) :
  wp (commit_blocks queue tx)
    (λ tx' s', st_disk s' = st_disk s ∧
       (∀ p b', st_heap s' !! p = Some b' → ∃ b, st_heap s !! p = Some b ∧
          wire_block b' = wire_block b ∧ written_to_disk b' = written_to_disk b) ∧
       ∃ l, Forall2 (λ p bv, tr s !! p = Some (skel bv.1)) queue l ∧
            tx' = add_decided_blocks tx l) (λ _ _, True) s.
Proof using All.
  revert tx s. induction queue as [|p queue IH]; intros tx s; simpl.
  { apply wp_ret. split; [done|]. split; [intros p b Hb; by exists b|]. exists []. split; [constructor|done]. }
  apply wp_bind. unfold read, wp at 1, deref. destruct (st_heap s !! p) as [b|] eqn:Hb; [|done].
  simpl. apply wp_bind, wp_modify. simpl. set (h1 := <[p := decide_block b]> (st_heap s)).
  assert (Hs1 : skel <$> h1 = tr s) by by apply (same_skel_insert _ _ b).
  apply wp_bind. unfold in_env, in_vm. apply wp_zoom, wp_zoom. simpl. unfold wp at 1.
  destruct (bridge_apply_block h1 p tx (a_vm (st_env s))) as [tx1 v1|] eqn:Ha; [|done].
  apply apply_indexes in Ha as (b1 & vid & Hb1 & ->). simpl.
  unfold h1 in Hb1. rewrite lookup_insert_eq in Hb1. injection Hb1 as <-.
  apply wp_bind, wp_zoom, wp_zoom. simpl. unfold wp at 1. fold h1.
  destruct (bridge_notify_vm_of_commitment h1 p v1) as [[] v2|]; [|done]. simpl.
  eapply wp_mono; [apply IH| |done]. intros tx' s' (Hd & Hh & l & Hl & ->). simpl in *.
  split; [done|]. split.
  - intros q b' Hb'. destruct (Hh _ _ Hb') as (b0 & Hb0 & Hw & Hwr). unfold h1 in Hb0.
    apply lookup_insert_Some in Hb0 as [[<- <-]|[_ Hb0]]; [by exists b|by exists b0].
  - exists ((decide_block b, vid) :: l). split; [|done]. constructor.
    + change (tr s !! p = Some (skel b)). by apply skel_lookup_Some.
    + eapply Forall2_impl; [exact Hl|]. intros q bv. by rewrite Hs1.
Qed.

Lemma queue_heights (t : tree) queue (l : list (HotstuffBlock * VMBlockID)) :
  Forall2 (λ p bv, t !! p = Some (skel bv.1)) queue l →
  (λ x, sk_height <$> t !! x) <$> queue = Some <$> ((λ bv, get_height bv.1) <$> l).
Proof. induction 1 as [|p bv queue l Hp _ IH]; [done|]. rewrite !fmap_cons, IH, Hp. done. Qed.

Lemma index_commit db t c ke k0 path l w :
  index_ok db t c ke →
  Forall2 (λ p bv, t !! p = Some (skel bv.1)) (rev path) l →
  (λ x, sk_height <$> t !! x) <$> rev path =
    (λ i, Some (sk_height ke + 1 + N.of_nat i)%N) <$> seq 0 (length path) →
  sk_height k0 = (sk_height ke + N.of_nat (length path))%N →
  (∀ p k, p ∈ path → t !! p = Some k → c !! sk_hash k = Some p ∧ anc U (sk_hash k) (sk_hash k0)) →
  anc U (sk_hash ke) (sk_hash k0) → (sk_height ke < sk_height k0)%N →
  (sk_height k0 < 2 ^ 64)%N → qc_wire_ok w → qcw_justify w = sk_hash k0 →
  index_ok (commit (set_qc_on_top_block (add_decided_blocks (open_txn db) l) (QC_of_wire w)) db)
    t c k0.
Proof using All.
  intros [Hk He _ _] Hl Hhs Hk0 Hmem Hanc Hlt Hb Hw Hj.
  assert (Hheights : (λ bv, get_height bv.1) <$> l =
            (λ i, sk_height ke + 1 + N.of_nat i)%N <$> seq 0 (length path)).
  { apply (inj (fmap Some)). rewrite <- (queue_heights t (rev path) l) by done.
    rewrite Hhs, <- list_fmap_compose. done. }
  assert (Hin : ∀ n, n ∈ (λ bv, get_height bv.1) <$> l ↔ (sk_height ke < n ≤ sk_height k0)%N).
  { intros n. rewrite Hheights, list_elem_of_fmap. setoid_rewrite elem_of_seq. split.
    - intros (i & -> & ?). lia.
    - intros ?. exists (N.to_nat (n - sk_height ke - 1)). lia. }
  assert (Hnd : NoDup ((λ bv, get_height bv.1) <$> l)).
  { rewrite Hheights. apply NoDup_fmap_2_strong; [intros; lia|apply NoDup_seq]. }
  assert (Hok : heights_ok l).
  { apply Forall_forall. intros [b vid] Hbv. simpl.
    assert (Hn : get_height b ∈ (λ bv, get_height bv.1) <$> l)
      by (apply list_elem_of_fmap; by exists (b, vid)).
    apply Hin in Hn. lia. }
  split.
  - by apply height_keys_commit.
  - intros n Hn. destruct (decide (n ∈ (λ bv, get_height bv.1) <$> l)) as [Hnl|Hnl].
    + pose proof Hnl as ((b & vid) & -> & Hbv)%list_elem_of_fmap. simpl in *.
      rewrite (decided_entry db l (QC_of_wire w) b vid) by done.
      apply list_elem_of_lookup in Hbv as [i Hi].
      destruct (Forall2_lookup_r _ _ _ _ _ Hl Hi) as (p & Hp & Htp). simpl in Htp.
      assert (Hpp : p ∈ path) by (apply elem_of_rev, list_elem_of_lookup; by exists i).
      destruct (Hmem _ _ Hpp Htp). exists p, (skel b), vid. apply Hin in Hnl.
      split_and!; try done. lia.
    + unfold commit. rewrite rget_commit, txn_get_set_qc, txn_get_add_other by auto.
      unfold open_txn. rewrite txn_get_begin. specialize (He n Hn).
      destruct (rget db data_dbi _) as [v|].
      * destruct He as (p & k & vid & ? & ? & ? & ? & ? & ?). exists p, k, vid.
        split_and!; try done. by eapply anc_trans.
      * rewrite Hin in Hnl. destruct He; [by left|right; lia].
  - intros _. exists w. split; [done|]. split; [done|]. unfold commit.
    rewrite rget_commit by auto. apply txn_get_set_qc_key.
  - lia.
Qed.

(** ** The commit *)

Section commit.
Context (G : glog).
Hypothesis Hlog : log_ok U cfg B G.

(** A written lock covers the chain being committed. *)
Lemma chain_written s p0 k0 p k b :
  RI G s → DurInv s → cnode (gen s) (tr s) (cache s) p0 k0 → committed U cfg B G (sk_hash k0) →
  (∀ kl, tr s !! b_lock (st_core s) = Some kl → sk_height k0 ≤ sk_height kl)%N →
  (∃ b, st_heap s !! b_lock (st_core s) = Some b ∧ written_to_disk b = true) →
  cache s !! sk_hash k = Some p → anc U (sk_hash k) (sk_hash k0) → st_heap s !! p = Some b →
  written_to_disk b = true.
Proof using All.
  intros I D [Hk0 _] Hcm0 Hlk Hwl Hc Ha Hb. pose proof (ri_tree _ _ _ _ _ _ _ _ _ I) as T.
  destruct (ri_lock _ _ _ _ _ _ _ _ _ I) as (kl & Hkl & Hcl). pose proof Hkl as [Hkl' _].
  apply (written_anc G s _ kl (sk_hash k) p b I D Hkl Hwl); [|done|done].
  eapply anc_trans; [exact Ha|].
  eapply (commit_extends U U_zero cfg B cfg_wf few_faulty G); [done|done|done| | |].
  - by apply (ti_ht _ _ _ _ _ _ _ T _ _ Hk0).
  - by apply (ti_ht _ _ _ _ _ _ _ T _ _ Hkl').
  - apply Hlk, Hkl'.
Qed.

Lemma DurInv_commit s s' p0 k0 db :
  DurInv s → st_disk s' = st_disk s → cache s' = cache s → gen s' = gen s →
  tr s' = tr s → b_exec (st_core s') = p0 → decided_hash_index (st_core s') = db →
  (∀ p b', st_heap s' !! p = Some b' → ∃ b, st_heap s !! p = Some b ∧
     wire_block b' = wire_block b ∧ written_to_disk b' = written_to_disk b ∧
     (decided b' = true → written_to_disk b = true)) →
  tr s !! p0 = Some k0 → index_ok db (tr s) (cache s) k0 → DurInv s'.
Proof using All.
  intros [Hsm (gb & Hgb & Hgw) Hwr _ _] Hd Hc Hg Ht He Hi Hh Hp0 Hix.
  assert (Hfwd : ∀ p b, st_heap s !! p = Some b → ∃ b', st_heap s' !! p = Some b' ∧ skel b' = skel b).
  { intros p b Hb. apply skel_lookup_Some in Hb. rewrite <- Ht in Hb.
    by apply skel_lookup in Hb as (b' & ? & ?); exists b'. }
  split.
  - intros p b' Hb'. destruct (Hh _ _ Hb') as (b & Hb & Hw & _). unfold small_body. rewrite Hw.
    by eapply Hsm.
  - rewrite Hg. destruct (Hfwd _ _ Hgb) as (gb' & Hgb' & _). exists gb'. split; [done|].
    destruct (Hh _ _ Hgb') as (b & Hb & _ & Hw & _). congruence.
  - rewrite Hg, Hc, Hd. intros p b' Hb' Hpg Hw'. rewrite Ht.
    destruct (Hh _ _ Hb') as (b & Hb & _ & Hw & _).
    assert (Hsk : skel b' = skel b).
    { destruct (Hfwd _ _ Hb) as (b1 & Hb1 & ?). congruence. }
    destruct (Hwr p b Hb Hpg) as (Hn & Hod & [?|Hpar]); [congruence|set_solver|].
    rewrite Hsk. split; [done|]. split; [done|right]. intros pp pb' Hpp Hpb'.
    destruct (Hh _ _ Hpb') as (pb & Hpb & _ & -> & _). apply (Hpar pp pb); [|done].
    change (sk_parent (skel b) = Some pp). rewrite <- Hsk. exact Hpp.
  - intros p b' Hb' Hdec. destruct (Hh _ _ Hb') as (b & Hb & _ & -> & Himp). auto.
  - rewrite He, Ht, Hc, Hi. intros ke Hke. assert (ke = k0) as -> by congruence. done.
Qed.

Lemma commit_chain_dur s p0 k0 b0 blk1 w :
  RI G s → DurInv s → cnode (gen s) (tr s) (cache s) p0 k0 →
  committed U cfg B G (sk_hash k0) → st_heap s !! p0 = Some b0 → decided b0 = false →
  parsed_qc blk1 = Some (QC_of_wire w) → qc_wire_ok w → qcw_justify w = sk_hash k0 →
  (∀ kl, tr s !! b_lock (st_core s) = Some kl → sk_height k0 ≤ sk_height kl)%N →
  (∃ b, st_heap s !! b_lock (st_core s) = Some b ∧ written_to_disk b = true) →
  wp (commit_chain p0 blk1) (λ _ s', DurInv s') (λ _ _, True) s.
Proof using All.
  intros I D Hc0 Hcm0 Hb0 Hd0 Hqc Hw Hj Hlk Hwl. pose proof Hc0 as [Hk0 _].
  pose proof (ri_tree _ _ _ _ _ _ _ _ _ I) as T.
  destruct (ri_exec _ _ _ _ _ _ _ _ _ I) as (ke & Hce & Hcme). pose proof Hce as [Hke _].
  destruct (commit_above U cfg B U_zero r cfg_wf few_faulty G Hlog _ _ _ _ _ _ _ _
    I Hc0 Hcm0 Hb0 Hd0 Hce Hcme) as [Ha Hlt].
  pose proof Hke as [(be & Hbe & Hske)%skel_lookup _].
  assert (Hsk0 : skel b0 = k0).
  { pose proof Hk0 as [Hk _]. rewrite (skel_lookup_Some _ _ _ Hb0) in Hk. by apply (inj Some) in Hk. }
  destruct (collect_commits_spec U cfg B U_zero G (gen s) (cache s)
              s (S (N.to_nat (get_height b0))) p0 k0 (get_height be) [])
    as (l & q & kq & Hrun & Hch & Hkq & _ & Hhq & _).
  { done. } { done. } { rewrite <- Hsk0. simpl. unfold get_height. lia. }
  assert (q = b_exec (st_core s)) as ->.
  { eapply (commit_walk U cfg B U_zero r cfg_wf few_faulty G Hlog _ _ _ _ p0 k0 b0 ke); eauto.
    by rewrite <- Hske. }
  destruct (chain_heights_walk U cfg B U_zero G _ _ _ T _ _ _ _ _ Hch Hk0 Hke) as [Hlen Hhs].
  assert (Hmem : ∀ p k, p ∈ l → tr s !! p = Some k →
    cache s !! sk_hash k = Some p ∧ anc U (sk_hash k) (sk_hash k0)).
  { intros p k Hp Htp.
    destruct (chain_members U cfg B U_zero G _ _ _ T _ _ _ _ _ _ Hch Hk0 Hke Hp)
      as (kx & [Hkx _] & Hax & _ & Hor).
    assert (kx = k) as -> by congruence. split; [|done]. destruct Hor as [->|?]; [|done].
    assert (k = k0) as -> by (destruct Hk0; congruence). apply Hc0. }
  unfold commit_chain. apply wp_bind, wp_gets, wp_bind, (wp_read _ _ be); [done|].
  apply wp_bind, (wp_read _ _ b0); [done|]. apply wp_bind. eapply wp_run; [exact Hrun|].
  cbn beta iota. rewrite bool_decide_true by done. simpl.
  apply wp_bind, wp_gets, wp_bind.
  eapply wp_mono; [apply wp_and; [apply commit_blocks_index|apply (commit_blocks_wp U cfg U_zero)]|..].
  { intros p Hp. rewrite elem_of_rev in Hp.
    destruct (chain_members U cfg B U_zero G _ _ _ T _ _ _ _ _ _ Hch Hk0 Hke Hp)
      as (kx & [(b & Hb & _)%skel_lookup _] & _). eauto. }
  2: done.
  intros tx s1 [(Hd1 & Hh1 & bl & Hbl & ->) ([Hca Hvo] & Hco & Hdh)].
  apply wp_bind, wp_modify, wp_bind. unfold get_justify_qc. rewrite Hqc.
  apply wp_ret, wp_bind, wp_modify. simpl.
  set (s2 := mkSt _ _ _ _).
  assert (D2 : DurInv s2).
  { apply (DurInv_commit s s2 p0 k0 (decided_hash_index (st_core s2))); try done.
    - unfold s2. simpl. by rewrite Hco.
    - unfold s2. simpl. by rewrite Hdh, (decide_all_skel U U_zero).
    - intros p b' Hb'. destruct (Hh1 _ _ Hb') as (b & Hb & Hwb & Hwr). exists b.
      do 3 (split; [done|]). intros Hdb. unfold s2 in Hb'. simpl in Hb'. rewrite Hdh in Hb'.
      destruct (decide_all_inv U U_zero _ _ _ _ Hb') as (b1 & Hb1 & _ & _ & Hiff).
      assert (b1 = b) as -> by congruence. apply Hiff in Hdb as [Hdb|Hpl];
        [by apply (du_decided _ D p)|]. rewrite elem_of_rev in Hpl.
      destruct (Hmem p (skel b) Hpl) as [? ?]; [by apply skel_lookup_Some|].
      by apply (chain_written s p0 k0 p (skel b)).
    - apply Hk0.
    - unfold s2. simpl.
      apply (index_commit _ _ _ ke k0 l); try done; [by apply (du_index _ D), Hke|].
      pose proof (ti_bound _ _ _ _ _ _ _ T _ _ (proj1 Hk0)).
      change (2 ^ 64)%N with (2 ^ 32 * 2 ^ 32)%N. lia. }
  eapply wp_mono; [apply wp_and; [apply kf_in_env|by apply (in_env_quiet cfg)]| |done].
  intros _ s' [(Hd' & _) ([Hca' _] & Hh' & Hco')]. by apply (DurInv_core s2); rewrite ?Hco'.
Qed.

(** A linked block's certificate as it came over the wire. *)
Lemma linked_wire s p k :
  RI G s → tr s !! p = Some k → linked (tr s) (cache s) k →
  sk_qc k = Some (QC_of_wire (header_qc (sk_header k))) ∧ qc_wire_ok (header_qc (sk_header k)).
Proof using All.
  intros I Hk Hl. pose proof (ri_tree _ _ _ _ _ _ _ _ _ I) as T.
  pose proof (linked_not_genesis U cfg B U_zero G _ _ _ T _ _ Hk Hl) as Hne.
  destruct (tw_nodes _ _ _ (ti_wf _ _ _ _ _ _ _ T) _ _ Hk Hne) as [[Hqc _] _].
  split; [done|]. by destruct (U_sized _ _ (ti_U _ _ _ _ _ _ _ T _ _ Hk Hne)) as (_ & _ & ?).
Qed.

Lemma lock_and_commit_dur s p2 b2 p1 b1 :
  RI G s → DurInv s → gn s p2 (skel b2) → linked (tr s) (cache s) (skel b2) →
  certified cfg B G (get_hash b2) → get_justify b2 = Some p1 → gn s p1 (skel b1) →
  wp (lock_and_commit b2 p1 b1) (λ _ s', DurInv s') (λ _ _, True) s.
Proof using All.
  intros I D Hk2 Hl2 Hc2 Hj2 Hk1. pose proof (ri_tree _ _ _ _ _ _ _ _ _ I) as T.
  destruct (linked_justify U cfg B U_zero G _ _ _ T _ _ (proj1 Hk2) Hl2)
    as (p1' & k1' & Hj & Hk1' & Hcj & Hjh).
  assert (p1' = p1) as -> by (unfold get_justify in *; simpl in *; congruence).
  rewrite (node_fun _ _ _ _ _ _ Hk1' Hk1) in Hcj, Hjh.
  destruct (ti_just _ _ _ _ _ _ _ T _ _ (proj1 Hk2) Hl2) as [_ Hc1].
  rewrite <- Hjh in Hc1. simpl in *.
  unfold lock_and_commit. apply wp_bind.
  apply (wp_raise_lock U cfg B U_zero r cfg_wf few_faulty G Hlog); [done..|].
  intros s1 I1 F1 Hh1 Hd1 Hco1 La1.
  assert (D1 : DurInv s1).
  { pose proof F1 as ([Hca _] & _). apply (DurInv_core s); try done;
      by destruct Hco1 as [-> | ->]. }
  apply wp_bind, wp_gets, wp_bind, wp_gets, wp_bind.
  rewrite (ri_config _ _ _ _ _ _ _ _ _ I1), (proj1 (ri_self _ _ _ _ _ _ _ _ _ I1)).
  unfold get_info. rewrite Hinfo. apply wp_ret, wp_bind, wp_gets, wp_bind.
  destruct (ri_lock _ _ _ _ _ _ _ _ _ I1) as (kl & [Hkl _] & _).
  eapply wp_mono; [apply wp_and; [by eapply write_block_dur|
    by eapply (write_block_wp U cfg B U_zero r cfg_wf few_faulty G Hlog)]| |done].
  intros u s2 [[D2 Hwl] F2].
  pose proof (RepInv_view_frame U cfg B U_zero r cfg_wf few_faulty G Hlog _ _ I1 F2) as I2.
  pose proof F2 as (_ & Hco2 & _). apply view_update_frame in F2.
  assert (F : update_frame s s2)
    by by apply (update_frame_trans U cfg B U_zero r cfg_wf few_faulty G Hlog s s1 s2).
  assert (La : lock_above s2 (get_height b1))
    by (eapply (lock_above_le U cfg B U_zero r cfg_wf few_faulty G Hlog); [exact I1|done|apply F2]).
  destruct (get_justify b1) as [p0|] eqn:Hj1; [|by apply wp_ret].
  assert (Hl1 : linked (tr s) (cache s) (skel b1)) by by eapply node_justify_linked.
  destruct (linked_justify U cfg B U_zero G _ _ _ T _ _ (proj1 Hk1) Hl1)
    as (p0' & k0 & Hj' & Hk0 & _ & Hjh1). simpl in Hj'.
  assert (p0' = p0) as -> by (unfold get_justify in *; congruence).
  apply (gn_frame _ _ _ _ F) in Hk0. pose proof Hk0 as [(b0 & Hb0 & <-)%skel_lookup _].
  apply wp_bind, (wp_read _ _ b0); [done|].
  destruct (has_been_decided b0) eqn:Hd; [by apply wp_ret|].
  destruct (bool_decide_reflect (get_parent b2 = Some p1)) as [Hp2|]; [|by apply wp_ret].
  destruct (bool_decide_reflect (get_parent b1 = Some p0)) as [Hp1|]; [|by apply wp_ret].
  destruct (direct_committed U cfg B U_zero r cfg_wf few_faulty G Hlog s2 b2 p2 p1 b1 p0 b0)
    as (Hc0 & Hcm & Hle); eauto using gn_frame, linked_frame.
  destruct (linked_wire _ _ _ I (proj1 Hk1) Hl1) as [Hqc Hwok]. simpl in Hqc, Hwok, Hjh1.
  apply (commit_chain_dur s2 p0 (skel b0) b0 b1 (header_qc (header (wire_block b1)))); try done.
  - intros kl' Hkl'. pose proof (La _ Hkl'). unfold get_height in *. simpl. lia.
  - by rewrite Hco2.
Qed.

Lemma update_dur s p b :
  RI G s → DurInv s → st_heap s !! p = Some b → linked (tr s) (cache s) (skel b) →
  wp (update p) (λ _ s', DurInv s') (λ _ _, True) s.
Proof using All.
  intros I D Hb Hl. pose proof (ri_tree _ _ _ _ _ _ _ _ _ I) as T.
  pose proof (skel_lookup_Some _ _ _ Hb) as Hk.
  destruct (linked_justify U cfg B U_zero G _ _ _ T _ _ Hk Hl)
    as (p2 & k2 & Hj & Hk2 & Hcc2 & Hjh).
  destruct (ti_just _ _ _ _ _ _ _ T _ _ Hk Hl) as [_ Hc2]. rewrite <- Hjh in Hc2.
  pose proof Hk2 as [(b2 & Hb2 & <-)%skel_lookup _]. simpl in Hj.
  unfold update. apply wp_bind, (wp_read _ _ b); [done|]. unfold get_justify. rewrite Hj.
  apply wp_bind, (wp_read _ _ b2); [done|].
  destruct (has_been_decided b2) eqn:Hd2; [by apply wp_ret|].
  destruct (linked_wire _ _ _ I Hk Hl) as [Hqc _].
  simpl in Hqc. unfold get_justify_qc. rewrite Hqc. apply wp_bind, wp_ret, wp_bind.
  eapply wp_mono; [apply wp_and; [apply kf_update_hqc|
    eapply (update_hqc_wp U cfg B r G s p2 (skel b2)); [done..|by rewrite QC_of_wire_hash]]| |done].
  intros _ s1 [Fl1 [I1 F1]]. pose proof F1 as ([Hca1 _] & Hh1 & Hg1 & _).
  apply hqc_update_frame in F1.
  assert (D1 : DurInv s1).
  { destruct Fl1 as (Hd1 & _ & Hi1 & He1 & _). by apply (DurInv_core s). }
  destruct (justify_block_ptr b2) as [p1|] eqn:Hj1; [|by apply wp_ret].
  pose proof (node_justify_linked U cfg B U_zero G _ _ _ T _ _ _ Hk2 Hj1) as Hl2.
  destruct (linked_justify U cfg B U_zero G _ _ _ T _ _ (proj1 Hk2) Hl2)
    as (p1' & k1 & Hj1' & Hk1 & _ & Hjh1). simpl in Hj1'.
  assert (p1' = p1) as -> by congruence.
  pose proof Hk1 as [(b1 & Hb1 & <-)%skel_lookup _].
  apply wp_bind, (wp_read _ _ b1); [by rewrite Hh1|].
  destruct (has_been_decided b1) eqn:Hd1; [by apply wp_ret|].
  apply (lock_and_commit_dur s1 p2 b2 p1 b1); eauto using gn_frame, linked_frame.
Qed.
End commit.

Lemma on_receive_proposal_dur G s p b proposer :
  good U cfg B r G s → DurInv s → st_heap s !! p = Some b → linked (tr s) (cache s) (skel b) →
  env_reaches (st_env s) proposer →
  wp (on_receive_proposal p proposer) (λ _ s', DurInv s') (λ _ _, True) s.
Proof using All.
  intros (Hlog & I & Hlv) D Hb Hl Hre. pose proof (ri_tree _ _ _ _ _ _ _ _ _ I) as T.
  pose proof (skel_lookup_Some _ _ _ Hb) as Hk.
  destruct (opinion_spec U cfg B U_zero r G s p b I Hb Hl) as (op & Hop & Hy).
  unfold on_receive_proposal. apply wp_bind. eapply wp_run; [exact Hop|]. apply wp_bind.
  apply wp_when; intros ->; [|by apply (update_dur G Hlog s p b)].
  destruct (Hy eq_refl) as (Hlt & _).
  assert (Hok : log_ok U cfg B (log_add r [get_hash b] G))
    by (split; [by eapply opinion_vote_ok|done]).
  apply wp_bind, (wp_read _ _ b); [done|]. apply wp_bind, wp_modify. simpl.
  assert (I0 : RepInv U cfg B r (log_add r [get_hash b] G) (st_heap s)
                 (set_vheight (get_height b) (st_core s)) (cache s) (get_hash b :: votes s)).
  { eapply (RepInv_vote U cfg B U_zero r G); [exact I| |unfold get_height in *; lia|].
    - apply (ti_ht _ _ _ _ _ _ _ T _ _ (conj Hk (or_intror Hl))).
    - apply (ti_bound _ _ _ _ _ _ _ T _ _ Hk). }
  unfold in_env. apply wp_zoom. eapply wp_mono;
    [exact (do_vote_law (st_heap s) p proposer b (st_env s) Hb Hre)| |done]; simpl.
  intros _ e [Hc Hs].
  apply (update_dur _ Hok (mkSt (st_heap s) (st_disk s) (set_vheight (get_height b) (st_core s)) e) p b).
  - unfold cache, votes in *. simpl in *. by rewrite Hc, Hs.
  - by apply (DurInv_core s).
  - done.
  - simpl. unfold cache in *. simpl in *. by rewrite Hc.
Qed.

(** ** The process *)

Lemma r_member : r ∈ replicas cfg.
Proof using Hinfo. apply elem_of_replicas. by exists info. Qed.

Lemma on_event_dur G s e :
  AInv G s → DurInv s → event_ok cfg B G s e →
  wp (on_event e) (λ _ s', DurInv s') (λ _ _, True) s.
Proof using All.
  intros I D He. pose proof (ai_good _ _ _ _ _ _ I) as Hg. destruct e as [v|p]; simpl.
  - destruct He as (b & Hb & Hk & Hr & Hv & Hpc).
    eapply wp_mono; [apply wp_and; [apply kf_on_receive_vote|eapply (on_receive_vote_wp U cfg B); eauto]
      | |done].
    intros _ s' [F [Hf _]]. apply (DurInv_le G s s'); auto. by apply tree_frame_le.
  - destruct He as (Hr & b & Hb & Hl).
    eapply on_receive_proposal_dur; eauto. exact (AppInv_reaches U cfg B U_zero U_short cfg_wf few_faulty r r_member G s _ I Hr).
Qed.

(** Received blocks have bodies that XDR can hold. *)
Definition sized_arrival (G : glog) (w : HotstuffBlockWire) : Prop :=
  block_arrival U cfg B G w ∧ (N.of_nat (length (body w)) < 2 ^ 32)%N.

Definition sized_ok (a : action V) : Prop :=
  match a with
  | AProposeMsg m => (N.of_nat (length (body (pm_proposal m))) < 2 ^ 32)%N
  | ABlockMsg w _ => (N.of_nat (length (body w)) < 2 ^ 32)%N
  | _ => True
  end.

Lemma quiet_dur G {A} (m : M (AppSt V) A) Q s :
  AInv G s → DurInv s → quiet_wp U cfg B r G m Q s → keeps_flags m →
  wp m (λ _ s', DurInv s') (λ _ _, True) s.
Proof using All.
  intros I D Hq Hf. eapply wp_mono; [apply wp_and; [exact Hq|apply Hf]| |done].
  intros a s' [(_ & Hle & _) Fl]. by apply (DurInv_le G s s').
Qed.

Lemma run_action_dur G s a :
  AInv G s → DurInv s → action_ok cfg B U G s a → sized_ok a →
  wp (run_action a) (λ _ s', DurInv s') (λ _ _, True) s.
Proof using All.
  intros I D Hok Hsz. pose proof r_member.
  assert (Hp : ∀ ne, (∀ lb, reads_only (ne lb)) → chooses U cfg B r ne → mint_known U ne s →
    wp (propose_with ne ;; ret tt) (λ _ s', DurInv s') (λ _ _, True) s).
  { intros ne Hne Hch Hk. apply wp_bind.
    eapply wp_mono; [apply wp_and; [by apply (propose_wp U cfg B U_zero U_short r r_member G)|
      by apply (kf_propose ne)]| |done].
    intros h s' [[_ Hle] Fl]. by apply wp_ret, (DurInv_le G s s'). }
  destruct a; simpl in *.
  - by eapply quiet_dur; [..|apply handler_vote_quiet|apply kf_handler_vote].
  - by eapply quiet_dur; [..|apply handler_propose_quiet|apply kf_handler_propose].
  - by eapply quiet_dur; [..|apply worker_response_quiet|apply kf_worker_response].
  - unfold run_head, wp. destruct (st_net_events s) as [|e es] eqn:He; [done|].
    pose proof (ai_net _ _ _ _ _ _ I) as Hall. unfold st_net_events in He. rewrite He in Hall.
    apply Forall_cons in Hall as [He1 Hes].
    edestruct (AppInv_env U cfg B U_zero r G s (set_net_events es (st_env s)))
      as ([I1 _] & _ & _); auto; [|apply I|].
    { intros ev Hev. left. rewrite He. by right. }
    change (wp (on_net_event e) (λ _ s', DurInv s') (λ _ _, True) (set_st_net_events es s)).
    eapply quiet_dur; [exact I1| |by apply on_net_event_quiet|apply kf_on_net_event].
    by apply (DurInv_core s).
  - unfold run_head, wp. destruct (st_events s) as [|e es] eqn:He; [done|].
    pose proof (ai_events _ _ _ _ _ _ I) as Hall. unfold st_events in He. rewrite He in Hall.
    apply Forall_cons in Hall as [He1 Hes].
    edestruct (AppInv_env U cfg B U_zero r G s (set_events es (st_env s)))
      as ([I1 _] & _ & _); auto; [|apply I|].
    { intros ev Hev. left. rewrite He. by right. }
    change (wp (on_event e) (λ _ s', DurInv s') (λ _ _, True) (set_st_events es s)).
    apply (on_event_dur G); [exact I1|by apply (DurInv_core s)|done].
  - apply Hp; [apply supports_nonempty_reads|by apply supports_nonempty_chooses|done].
  - apply Hp; [apply always_empty_reads|apply always_empty_chooses|done].
  - eapply wp_mono; [apply wp_and; [by apply (store_gc_wp U cfg B U_zero r G)|apply kf_store_gc]| |done].
    intros u s' [[_ Hle] Fl]. by apply (DurInv_le G s s').
  - apply wp_bind. unfold in_env. apply wp_zoom. unfold wp, wait_for_new_qc.
    destruct (latest_new_qc (st_env s)), (cancel_wait (st_env s)); simpl;
      by apply (DurInv_core s).
  - by apply (DurInv_core s).
  - by apply (DurInv_core s).
Qed.

(** The initial state. *)
Lemma init_DurInv sk vm : DurInv (init_state (V := V) cfg sk vm r).
Proof using All.
  split; simpl.
  - by intros p b [<- <-]%lookup_singleton_Some.
  - exists genesis_block. by rewrite lookup_singleton_eq.
  - intros p b [<- <-]%lookup_singleton_Some. done.
  - by intros p b [<- <-]%lookup_singleton_Some.
  - intros ke. rewrite map_fmap_singleton. intros [_ <-]%lookup_singleton_Some. split.
    + apply height_keys_create.
    + intros n Hn. rewrite rget_create. destruct (decide (n = 0)%N); [by left|right]. simpl. lia.
    + simpl. lia.
    + intros _. apply rget_create.
Qed.
End durable.

(** ** The cluster *)

Section network.
Context {i_sodium : Sodium} {i_xdr : Xdr} {i_bv : BitVector} {i_fs : Fs} {i_lmdb : LmdbLib}.
Context {i_xdrlaws : XdrLaws} {i_bvlaws : BitVectorLaws} {i_lmdblaws : LmdbLaws}.
Context {V : Type} {i_bridge : VMBridge V} {i_blaws : VMBridgeLaws V} {i_bdata : VMBridgeData V}.
Context (U : Hash → option HotstuffBlockHeader) (cfg : ReplicaConfig) (B : gset ReplicaID).
Hypothesis U_zero : U zero_hash = None.
Hypothesis U_short : ∀ h n, ht U h n → (n < 2 ^ 32)%N.
Hypothesis cfg_wf : config_wf cfg.
Hypothesis few_faulty :
  (N.of_nat (size B) < nreplicas cfg - 2 * (nreplicas cfg / 3))%N.
Hypothesis U_sized : ∀ h hd, U h = Some hd → header_ok hd.

Lemma reachable_mono (arr1 arr2 : list (ReplicaID * Hash) → HotstuffBlockWire → Prop) sk (vm : V) net :
  (∀ G w, arr1 G w → arr2 G w) →
  reachable cfg B U arr1 sk vm net → reachable cfg B U arr2 sk vm net.
Proof.
  intros Harr. induction 1 as [|net r a net' Hr IH Hadm Hstep]; [constructor|].
  eapply reach_step; [exact IH| |exact Hstep]. destruct a; simpl in *; auto.
Qed.

Definition net_durable (net : Net V) : Prop :=
  ∀ r s info, net_reps net !! r = Some (mkReplica s None) →
    replica_map cfg !! r = Some info → DurInv U info s.

Lemma net_durable_step net r a net' :
  net_inv cfg B U net → net_durable net →
  admissible cfg B U (sized_arrival U cfg B) net r a → step r a net = Some net' →
  net_durable net'.
Proof using All.
  intros [_ Hinv] Hdur Hadm Hstep. unfold step in Hstep.
  destruct (net_reps net !! r) as [[s [f|]]|] eqn:Hr; [done| |done].
  destruct (Hinv _ _ Hr) as (Hm & Hb & I). simpl in I.
  apply elem_of_replicas in Hm as [info Hi].
  assert (Hok : action_ok cfg B U (net_log net) s a ∧ sized_ok a).
  { destruct a; simpl in *; try (by eauto); split; try apply Hadm; eauto. }
  pose proof (run_action_dur U cfg B U_zero U_short cfg_wf few_faulty U_sized r info Hi
    _ _ _ I (Hdur _ _ _ Hr Hi) (proj1 Hok) (proj2 Hok)) as Hwp. unfold wp in Hwp.
  intros r' s' info' Hr' Hi'.
  destruct (run_action a s) as [[] s1|f s1]; simplify_eq; simpl in Hr';
    apply lookup_insert_Some in Hr' as [[<- ?]|[_ Hr']]; simplify_eq; by eauto.
Qed.

Lemma reachable_durable sk vm net :
  reachable cfg B U (sized_arrival U cfg B) sk vm net → net_durable net.
Proof using All.
  intros Hr. pose proof Hr as Hr'. induction Hr as [|net r a net' Hr IH Hadm Hstep].
  - intros r s info Hl Hi. unfold net_init in Hl. simpl in Hl.
    apply lookup_set_to_map in Hl as (r' & _ & Heq); [|done]. simplify_eq.
    by apply (init_DurInv U cfg B U_zero U_short cfg_wf few_faulty U_sized _ info Hi).
  - eapply net_durable_step; [|by apply IH|exact Hadm|exact Hstep].
    apply (reachable_inv cfg B U U_zero U_short cfg_wf few_faulty sk vm).
    eapply reachable_mono; [|exact Hr]. by intros G w [? _].
Qed.
End network.
