(* ===== verification/Votes.v ===== *)
(** * From votes to a certificate

    A replica that handles the votes of a quorum on one of its blocks ends with
    that block's certificate as its highest one, and the certificate, sent in
    the header of its next proposal, is one that every replica accepts. *)

From S2P Require Import Prelude Types ReplicaConfig Certs IoUtils Block BlockStore Lmdb.
From S2P Require Import Consensus Events FetchManager App Safety ReplicaInv.

Section votes.
Context {i_sodium : Sodium} {i_xdr : Xdr} {i_bv : BitVector} {i_fs : Fs} {i_lmdb : LmdbLib}.
Context {i_bvlaws : BitVectorLaws} {V : Type} {i_bridge : VMBridge V}.

(** A vote as it is counted: the voter and the signature. *)
Abbreviation vote := (ReplicaID * Signature)%type.

(** A configured voter with a valid signature of [h]. *)
Definition good_vote (c : ReplicaConfig) (h : Hash) (v : vote) : Prop :=
  v.1 ∈ replicas c ∧ (v.1 < MAX_REPLICAS)%N ∧ signer_valid c h v = true.

(** Handling the votes of [vs] on the block at [p], which has hash [h]. *)
Definition receive_votes (h : Hash) (p : loc) (vs : list vote) : M (AppSt V) unit :=
  for_each vs (λ v, on_receive_vote (mkPC h v.2) p v.1).

(** A certificate for [h] made of some of the votes [vs]. *)
Definition made_of (h : Hash) (vs : list vote) (qc : QuorumCertificate) : Prop :=
  obj_hash qc = h ∧ map_wf (sigs qc) ∧ ∀ e, e ∈ sigs qc → e ∈ vs.

Lemma made_of_verified {T} c h vs qc (t : T) :
  made_of h vs qc → Forall (good_vote c h) vs → has_quorum c qc = true →
  verify c (QC_of_wire (serialize qc)) t = Ok true t ∧
  qcw_justify (serialize qc) = h.
Proof using i_bvlaws.
  intros (Hh & Hwf & Hin) Hgood Hq. rewrite Forall_forall in Hgood.
  assert (Hok : qc_wf qc).
  { split; [done|]. apply Forall_forall. intros r ([r' sig] & -> & He)%list_elem_of_fmap.
    by apply Hin, Hgood in He as (_ & ? & _). }
  rewrite <- QC_of_wire_hash, (QC_roundtrip _ Hok). split; [|done].
  unfold verify. case_bool_decide; [done|]. unfold has_quorum in Hq.
  rewrite N.leb_le in Hq. rewrite (proj2 (N.ltb_ge _ _)) by done.
  unfold bind. rewrite count_valid_exact, N.add_0_l.
  2: { apply Forall_forall. intros e He. by apply Hin, Hgood in He as (? & _). }
  unfold ret. f_equal. apply N.leb_le. rewrite Hh.
  rewrite filter_all; [done|]. intros e He. by apply Hin, Hgood in He as (_ & _ & ?).
Qed.

(** The state after the votes [seen]: [b] at [p] with their signatures and, once
    they are a quorum, its certificate as the highest one. *)
Definition counted (s : AppSt V) (p : loc) (b : HotstuffBlock) (seen : list vote) (s' : AppSt V)
  : Prop :=
  let c := config (st_core s) in
  let h := get_hash b in
  config (st_core s') = c ∧ ∃ qc,
  st_heap s' = <[p := with_self_qc b qc]> (st_heap s) ∧
  made_of h seen qc ∧ (∀ v, v ∈ seen → v.1 ∈ (sigs qc).*1) ∧
  if has_quorum c qc then
    (hqc (st_core s')).1 = p ∧ b_leaf (st_core s') = p ∧ latest_new_qc (st_env s') = Some h ∧
    ∃ qc', (hqc (st_core s')).2 = serialize qc' ∧ made_of h seen qc' ∧ has_quorum c qc' = true
  else hqc (st_core s') = hqc (st_core s).

Lemma made_of_more h seen v qc : made_of h seen qc → made_of h (seen ++ [v]) qc.
Proof. intros (? & ? & Hin). split_and!; [done|done|]. intros e He%Hin. apply elem_of_app. by left. Qed.

Lemma made_of_add h seen v qc :
  made_of h seen qc → made_of h (seen ++ [v]) (mkQC h (map_emplace v.1 v.2 (sigs qc))).
Proof.
  intros (Hh & Hwf & Hin). split_and!; [done|by apply map_emplace_wf|].
  intros e [->|He%Hin]%map_emplace_elem; apply elem_of_app; [right|by left].
  apply list_elem_of_singleton. by destruct v.
Qed.

Lemma counted_step s p b hb seen v s1 :
  st_heap s !! p = Some b → st_heap s !! (hqc (st_core s)).1 = Some hb → (get_height hb < get_height b)%N →
  (v.1 < MAX_REPLICAS)%N → counted s p b seen s1 →
  wp (on_receive_vote (mkPC (get_hash b) v.2) p v.1)
    (λ _ s', counted s p b (seen ++ [v]) s') (λ _ _, False) s1.
Proof.
  intros Hb Hhb Hlt Hv (Hc & qc & Hheap & Hm & Hseen & Hq). pose proof Hm as (Hh & Hwf & Hin).
  set (c := config (st_core s)) in *.
  unfold on_receive_vote. apply wp_bind, (wp_read _ _ (with_self_qc b qc)).
  { by rewrite Hheap, lookup_insert_eq. }
  apply wp_bind, wp_gets. rewrite Hc. change (get_self_qc (with_self_qc b qc)) with qc.
  set (qc1 := mkQC (get_hash b) (map_emplace v.1 v.2 (sigs qc))).
  assert (Hadd : add_partial_certificate v.1 (mkPC (get_hash b) v.2) qc = Ok tt qc1)
    by (apply add_partial_certificate_Ok; rewrite Hh; done).
  rewrite Hadd. apply wp_bind, wp_modify. rewrite Hheap, insert_insert_eq.
  change (with_self_qc (with_self_qc b qc) qc1) with (with_self_qc b qc1).
  assert (Hm1 : made_of (get_hash b) (seen ++ [v]) qc1) by by apply made_of_add.
  assert (Hseen1 : ∀ w, w ∈ seen ++ [v] → w.1 ∈ (sigs qc1).*1).
  { intros w [Hw| ->%list_elem_of_singleton]%elem_of_app; apply map_emplace_keys; auto. }
  destruct (has_quorum c qc) eqn:Hq0.
  - assert (Hq1 : has_quorum c qc1 = true).
    { eapply add_partial_certificate_quorum; [exact Hwf|exact Hadd|done]. }
    rewrite Hq1. simpl. apply wp_ret. split; [done|]. exists qc1. fold c. rewrite Hq1.
    destruct Hq as (Hp & Hl & Hn & qc' & Hs & Hm' & Hq').
    split_and!; try done. exists qc'. split_and!; try done. by apply made_of_more.
  - simpl. destruct (has_quorum c qc1) eqn:Hq1; simpl.
    2: { apply wp_ret. split; [done|]. exists qc1. fold c. by rewrite Hq1. }
    apply wp_bind. unfold update_hqc. apply wp_bind, (wp_read _ _ (with_self_qc b qc1)).
    { simpl. by rewrite lookup_insert_eq. }
    apply wp_bind, wp_gets. simpl. rewrite Hq.
    assert (Hne : (hqc (st_core s)).1 ≠ p) by (intros Heq; rewrite Heq, Hb in Hhb; simplify_eq; lia).
    apply wp_bind, (wp_read _ _ hb); [simpl; by rewrite lookup_insert_ne|].
    change (get_hash (with_self_qc b qc)) with (obj_hash qc). rewrite Hh.
    assert (Hlt' : (get_height hb <? block_height b)%N = true) by by apply N.ltb_lt.
    rewrite Hlt'. apply wp_bind, wp_modify, wp_bind, wp_modify, wp_bind, wp_gets.
    assert (Hrest : ∀ co e, config co = c → (hqc co) = (p, serialize qc1) → b_leaf co = p →
      latest_new_qc e = Some (get_hash b) →
      counted s p b (seen ++ [v])
        (mkSt (<[p := with_self_qc b qc1]> (st_heap s)) (st_disk s1) co e)).
    { intros co e Hco Hh1 Hl1 He1. split; [done|]. exists qc1. fold c. rewrite Hq1. simpl. rewrite Hh1.
      split_and!; try done. by exists qc1. }
    destruct (negb _); by apply Hrest.
Qed.

Lemma counted_nil s p b :
  st_heap s !! p = Some b → get_self_qc b = QC_new (get_hash b) →
  (0 < nmajority (config (st_core s)))%N → counted s p b [] s.
Proof.
  intros Hb Hself Hpos. split; [done|]. exists (QC_new (get_hash b)). rewrite <- Hself.
  change (with_self_qc b (get_self_qc b)) with (with_self_qc b (self_qc b)).
  assert (Hbb : with_self_qc b (self_qc b) = b) by by destruct b.
  rewrite Hbb, insert_id, Hself by done. split; [done|].
  split; [split_and!; [done|apply map_wf_nil|set_solver]|]. split; [set_solver|].
  unfold has_quorum. simpl. by rewrite (proj2 (N.leb_gt _ _)).
Qed.

(** Once the votes are those of a quorum, the block is certified. *)
Lemma counted_quorum s p b vs s' :
  let c := config (st_core s) in
  counted s p b vs s' → Forall (good_vote c (get_hash b)) vs →
  (nmajority c ≤ N.of_nat (size (list_to_set vs.*1 : gset ReplicaID)))%N →
  (hqc (st_core s')).1 = p ∧ b_leaf (st_core s') = p ∧
  latest_new_qc (st_env s') = Some (get_hash b) ∧
  qcw_justify (hqc (st_core s')).2 = get_hash b ∧
  ∀ T (t : T), verify c (QC_of_wire (hqc (st_core s')).2) t = Ok true t.
Proof using i_bvlaws.
  intros c (_ & qc & _ & (_ & Hwf & _) & Hseen & Hq) Hgood Hsize.
  fold c in Hq. assert (Hquo : has_quorum c qc = true).
  { unfold has_quorum. apply N.leb_le. etrans; [exact Hsize|]. apply map_wf_NoDup in Hwf.
    rewrite <- (length_fmap fst), <- (size_list_to_set (C := gset ReplicaID) _ Hwf).
    apply N2Z.inj_le. rewrite !nat_N_Z. apply inj_le, subseteq_size.
    intros r Hr. apply elem_of_list_to_set in Hr as (v & -> & Hv)%list_elem_of_fmap.
    apply elem_of_list_to_set. by apply Hseen. }
  rewrite Hquo in Hq. destruct Hq as (Hp & Hl & Hn & qc' & Hs & Hm & Hq').
  split_and!; try done; rewrite Hs.
  - by apply (made_of_verified (T := unit) c _ vs qc' tt).
  - intros T t. by apply (made_of_verified c (get_hash b) vs).
Qed.

(** The votes of a quorum on a block above the highest certificate. *)
Lemma receive_votes_spec s p b hb vs :
  st_heap s !! p = Some b → get_self_qc b = QC_new (get_hash b) →
  st_heap s !! (hqc (st_core s)).1 = Some hb → (get_height hb < get_height b)%N →
  (0 < nmajority (config (st_core s)))%N →
  Forall (good_vote (config (st_core s)) (get_hash b)) vs →
  (nmajority (config (st_core s)) ≤ N.of_nat (size (list_to_set vs.*1 : gset ReplicaID)))%N →
  ∃ s', receive_votes (get_hash b) p vs s = Ok tt s' ∧ counted s p b vs s' ∧
    (hqc (st_core s')).1 = p ∧ b_leaf (st_core s') = p ∧
    latest_new_qc (st_env s') = Some (get_hash b) ∧
    qcw_justify (hqc (st_core s')).2 = get_hash b ∧
    ∀ T (t : T), verify (config (st_core s)) (QC_of_wire (hqc (st_core s')).2) t = Ok true t.
Proof using i_bvlaws.
  intros Hb Hself Hhb Hlt Hpos Hgood Hsize.
  assert (Hwp : wp (receive_votes (get_hash b) p vs) (λ _ s', counted s p b vs s') (λ _ _, False) s).
  { apply (wp_for_each (counted s p b)); [by apply counted_nil| |done].
    intros seen v rest s1 -> Hs1. eapply counted_step; eauto.
    apply Forall_app in Hgood as [_ Hg]. by inversion Hg as [|?? (_ & ? & _)]. }
  unfold wp in Hwp. destruct (receive_votes _ p vs s) as [[] s'|]; [|done]. exists s'.
  split; [done|]. split; [done|]. by apply (counted_quorum s p b vs).
Qed.
End votes.
