(* ===== verification/Runs.v ===== *)
(** * Executions seen from one replica

    An execution of the cluster as the sequence of one replica's own steps, the
    others doing anything in between; and what a replica's state is like while
    it stacks blocks on top of each other, each extending and certifying the one
    before.  Progress.v and Leader.v use both, for followers and for the
    leader. *)

From S2P Require Import Prelude Types ReplicaConfig Certs IoUtils Block BlockStore Lmdb.
From S2P Require Import Consensus Events FetchManager App Safety ReplicaInv StoreInv AppInv.
From S2P Require Import Network.

(** ** Outgoing messages

    Whatever a replica does, it never withdraws a message and keeps its key. *)

Section outbox.
Context {i_sodium : Sodium} {i_xdr : Xdr} {i_bv : BitVector} {i_fs : Fs} {i_lmdb : LmdbLib}.
Context {V : Type} {i_bridge : VMBridge V}.

(** What was given to the client of [q]. *)
Definition outbox (s : AppSt V) (q : ReplicaID) : list msg_t :=
  default [] (other_clients (a_protocol (st_env s)) !! q).

Definition sends (e e' : AppBase V) : Prop :=
  a_secret_key e' = a_secret_key e ∧ ∀ q, ∃ more,
    default [] (other_clients (a_protocol e') !! q) =
    default [] (other_clients (a_protocol e) !! q) ++ more.

#[export] Instance sends_po : PreOrder sends.
Proof.
  split; [by split; [done|]; intros q; exists []; rewrite app_nil_r|].
  intros x y z [Hk1 H1] [Hk2 H2]. split; [congruence|]. intros q.
  destruct (H1 q) as [m1 E1], (H2 q) as [m2 E2]. exists (m1 ++ m2). by rewrite E2, E1, app_assoc.
Qed.

(** A computation that leaves the clients and the key alone. *)
Lemma same_sends (e e' : AppBase V) :
  a_secret_key e' = a_secret_key e → other_clients (a_protocol e') = other_clients (a_protocol e) →
  sends e e'.
Proof. intros Hk Hc. split; [done|]. intros q. exists []. by rewrite Hc, app_nil_r. Qed.

Lemma modify_sends f :
  (∀ e : AppBase V, sends e (f e)) → keeps sends (modify f).
Proof. intros Hf e. apply wp_modify, Hf. Qed.

Lemma queue_add_sends h ev : keeps sends (event_queue_add (V := V) h ev).
Proof.
  intros e. unfold event_queue_add, wp, bind.
  destruct (Event_validate h ev e) as [ok e'|f e'] eqn:Hv.
  - assert (e' = e) as ->.
    { revert Hv. destruct ev; simpl; unfold VoteEvent_validate, ProposalEvent_validate, bind, deref;
        destruct (h !! _); try done; simpl; [case_match|]; by intros [= ]. }
    by destruct ok; apply same_sends.
  - assert (e' = e) as ->; [|simpl; reflexivity].
    revert Hv. destruct ev; simpl; unfold VoteEvent_validate, ProposalEvent_validate, bind, deref;
      destruct (h !! _); simpl; try case_match; by intros [= ].
Qed.

Lemma send_vote_sends h p pc q : keeps sends (send_vote_to (V := V) h p pc q).
Proof.
  intros e. unfold send_vote_to. apply wp_bind, wp_gets. destruct (_ =? _)%N; [apply queue_add_sends|].
  destruct (other_clients _ !! q) as [work|] eqn:Hq; [|unfold wp; simpl; reflexivity].
  apply wp_modify. split; [done|]. intros q'. simpl. destruct (decide (q' = q)) as [->|Hne].
  - rewrite lookup_insert_eq, Hq. eexists. reflexivity.
  - rewrite lookup_insert_ne by done. exists []. by rewrite app_nil_r.
Qed.

Lemma do_vote_sends h p q : keeps sends (app_do_vote (V := V) h p q).
Proof.
  intros e. unfold app_do_vote, wp, bind, deref, gets, PC_sign. destruct (h !! p) as [b|]; [|simpl; reflexivity].
  simpl. destruct (crypto_sign_detached _ _) as [sig|]; [|simpl; reflexivity]. simpl.
  pose proof (send_vote_sends h p (mkPC (get_hash b) sig) q (add_signed (get_hash b) e)) as Hs.
  unfold wp in Hs. by destruct (send_vote_to _ _ _ _ _).
Qed.

Lemma in_vm_sends {A} (m : M V A) : keeps sends (in_vm m).
Proof. intros e. unfold in_vm, wp, zoom. destruct (m _); by apply same_sends. Qed.

Lemma broadcast_sends h p : keeps sends (broadcast_proposal (V := V) h p).
Proof.
  intros e. unfold broadcast_proposal. apply wp_bind, wp_gets, wp_bind.
  pose proof (queue_add_sends h (EProposal (mkProposalEvent (pm_self_id (a_protocol e)) p)) e) as Hq.
  unfold self_propose. eapply wp_mono; [exact Hq| |done]. intros u e1 H1.
  unfold wp, bind, deref. destruct (h !! p) as [b|]; [|done]. simpl. split; [apply H1|]. intros q. simpl.
  rewrite lookup_fmap. destruct (other_clients (a_protocol e) !! q); simpl; by eexists.
Qed.

Lemma commit_sends :
  (∀ h p tx, keeps sends (apply_block (E := AppBase V) h p tx)) ∧
  (∀ h p, keeps sends (notify_vm_of_commitment (E := AppBase V) h p)) ∧
  (∀ h p, keeps sends (notify_vm_of_qc_on_nonself_block (E := AppBase V) h p)) ∧
  (∀ n, keeps sends (notify_ok_to_prune_blocks (E := AppBase V) n)) ∧
  ∀ h, keeps sends (on_new_qc (E := AppBase V) h).
Proof.
  split_and!; intros; try apply in_vm_sends; [|by apply modify_sends; intros; apply same_sends..].
  intros e. unfold wp. simpl. reflexivity.
Qed.

Lemma on_event_sends ev : env_rel sends (on_event (V := V) ev).
Proof.
  destruct commit_sends as (Ha & Hc & Hn & Hp & Hq). destruct ev as [v|pr]; simpl.
  - apply (on_receive_vote_env _); done.
  - unfold on_receive_proposal. apply env_rel_bind; [apply _| |intros op].
    { unfold opinion. env_step. apply (walk_down_env _). }
    env_step; [|by apply (update_env _)]. apply env_rel_in_env. intros. apply do_vote_sends.
Qed.

Lemma store_insert_sends p : env_rel sends (store_insert (V := V) p).
Proof.
  intros s. unfold store_insert, wp, zoom. destruct (insert_block p _); simpl; by apply same_sends.
Qed.

Lemma in_fetch_sends {A} (m : M BlockFetchManager A) : env_rel sends (in_fetch (V := V) m).
Proof.
  apply env_rel_in_env. intros h e. unfold wp, zoom. destruct (m _); simpl; by apply same_sends.
Qed.

Lemma add_events_sends es : env_rel sends (in_env (λ _, add_events a_net_events (set_net_events (V := V)) es)).
Proof. apply env_rel_in_env. intros. apply modify_sends. intros. by apply same_sends. Qed.

Lemma insert_received_sends p from ev : env_rel sends (insert_received (V := V) p from ev).
Proof.
  unfold insert_received, request_missing.
  env_step; auto using store_insert_sends, in_fetch_sends, add_events_sends.
Qed.

Lemma net_queue_add_sends ev : env_rel sends (net_queue_add (V := V) ev).
Proof.
  unfold net_queue_add. env_step; [by apply env_id_rel; [apply _|]; apply env_id_zoom|].
  apply env_rel_in_env. intros. apply modify_sends. intros. by apply same_sends.
Qed.

Lemma on_net_event_sends ev : env_rel sends (on_net_event (V := V) ev).
Proof.
  assert (Hg : env_rel sends (gets (λ s : AppSt V, a_store (st_env s))))
    by (intros s; apply wp_gets; reflexivity).
  destruct ev as [v|pr|rb]; simpl; env_step; auto using insert_received_sends, in_fetch_sends;
    apply env_rel_in_env; intros; apply queue_add_sends.
Qed.

Lemma propose_sends ne :
  (∀ lb, env_rel sends (ne lb)) → env_rel sends (propose_with (V := V) ne).
Proof.
  intros Hne. unfold propose_with, mint_proposal. env_step; auto using store_insert_sends.
  - apply env_rel_in_env. intros. apply in_vm_sends.
  - unfold mint_block, receive_block, hash_xdr. env_step.
  - intros s. unfold new_block, wp. simpl. reflexivity.
  - apply env_rel_in_env. intros. apply broadcast_sends.
Qed.

Lemma run_action_sends (a : action V) : env_rel sends (run_action a).
Proof.
  assert (Hnew : ∀ b, env_rel sends (new_block (V := V) b))
    by (intros b s; unfold new_block, wp; simpl; reflexivity).
  assert (Hrecv : ∀ w src, env_rel sends (receive_block (S := AppSt V) w src))
    by (intros; unfold receive_block, hash_xdr; env_step).
  assert (Hhead : ∀ {T} get put (f : T → M (AppSt V) unit),
    (∀ l s, sends (st_env s) (st_env (put l s))) → (∀ e, env_rel sends (f e)) →
    env_rel sends (run_head get put f)).
  { intros T get put f Hput Hf s. unfold run_head, wp. destruct (get s) as [|e es]; [simpl; reflexivity|].
    pose proof (Hf e (put es s)) as He. unfold wp in He.
    destruct (f e (put es s)); (etrans; [apply Hput|exact He]). }
  destruct a; simpl.
  - unfold handler_vote. env_step. apply net_queue_add_sends.
  - unfold handler_propose. env_step; auto using net_queue_add_sends.
  - unfold worker_response. env_step; auto using net_queue_add_sends.
    intros s0. unfold wp. simpl. reflexivity.
  - apply Hhead; [intros; by apply same_sends|apply on_net_event_sends].
  - apply Hhead; [intros; by apply same_sends|apply on_event_sends].
  - env_step. apply propose_sends. intros lb s. unfold supports_nonempty, wp.
    generalize proposal_depth. intros d. revert lb. induction d as [|d IH]; intros lb; simpl; [reflexivity|].
    destruct (negb _); [simpl; reflexivity|].
    destruct (justify_block_ptr lb), (parent_block_ptr lb) as [q|]; try (simpl; reflexivity).
    unfold bind, get_justify_hash, bind, get_justify_qc. destruct (parsed_qc lb); simpl; [|reflexivity].
    destruct (negb _); [simpl; reflexivity|]. unfold deref.
    destruct (st_heap s !! q); simpl; [apply IH|reflexivity].
  - env_step. apply propose_sends. intros lb. unfold always_empty. env_step.
  - intros s. unfold store_gc, wp, zoom. destruct (gc_run_once _); simpl; by apply same_sends.
  - env_step. apply env_rel_in_env. intros h e. unfold wp, wait_for_new_qc.
    destruct (latest_new_qc e), (cancel_wait e); by apply same_sends.
  - apply env_rel_in_env. intros. apply modify_sends. intros. by apply same_sends.
  - apply env_rel_in_env. intros. apply modify_sends. intros. by apply same_sends.
Qed.
End outbox.

(** ** The steps of one replica *)

Section runs.
Context {i_sodium : Sodium} {i_xdr : Xdr} {i_bv : BitVector} {i_fs : Fs} {i_lmdb : LmdbLib}.
Context {V : Type} {i_bridge : VMBridge V}.
Context (cfg : ReplicaConfig) (B : gset ReplicaID) (U : Hash → option HotstuffBlockHeader).
Abbreviation adm := (admissible cfg B U (block_arrival U cfg B)).

(** A step of any replica, and of another one than [r]. *)
Definition any_step (net net' : Net V) : Prop :=
  ∃ r a, adm net r a ∧ step r a net = Some net'.

Context (r : ReplicaID).

Definition others_step (net net' : Net V) : Prop :=
  ∃ r' a, r' ≠ r ∧ adm net r' a ∧ step r' a net = Some net'.

(** An execution in which the actions of [r] are the given ones. *)
Inductive ran : list (action V) → Net V → Net V → Prop :=
  | ran_nil net net' : rtc others_step net net' → ran [] net net'
  | ran_cons a acts n0 n1 n2 net' :
      rtc others_step n0 n1 → adm n1 r a → step r a n1 = Some n2 →
      ran acts n2 net' → ran (a :: acts) n0 net'.

(** Every execution is one, for some actions. *)
Lemma execution_ran net net' : rtc any_step net net' → ∃ acts, ran acts net net'.
Proof.
  induction 1 as [net|net n1 net' (r' & a & Ha & Hs) _ [acts IH]].
  { exists []. constructor. apply rtc_refl. }
  destruct (decide (r' = r)) as [->|Hne].
  { exists (a :: acts). eapply ran_cons; eauto using rtc_refl. }
  exists acts. assert (others_step net n1) by by exists r', a.
  destruct IH; [constructor|econstructor]; eauto using rtc_l.
Qed.

Lemma ran_app acts1 acts2 net net' :
  ran (acts1 ++ acts2) net net' → ∃ n1, ran acts1 net n1 ∧ ran acts2 n1 net'.
Proof.
  revert net. induction acts1 as [|a acts1 IH]; intros net Hran.
  { exists net. split; [constructor; apply rtc_refl|done]. }
  inversion Hran as [|? ? ? n1 n2 ? Ho Ha Hs Hrest]; subst.
  destruct (IH _ Hrest) as (n3 & H1 & H2). exists n3. split; [by econstructor|done].
Qed.

(** The replica after a step of its own. *)
Lemma step_own (net : Net V) s a net' :
  net_reps net !! r = Some (mkReplica s None) → step r a net = Some net' →
  net_reps net' !! r = Some (match run_action a s with
    | Ok _ s' => mkReplica s' None
    | Fault f s' => mkReplica s' (Some f)
    end).
Proof.
  unfold step. intros Hr. rewrite Hr. destruct (run_action a s); intros [= <-]; simpl;
    by rewrite lookup_insert_eq.
Qed.

Context (sk : ReplicaID → SecretKey) (vm : V).
Abbreviation reach net := (reachable cfg B U (block_arrival U cfg B) sk vm net).

Lemma others_keep net net' :
  rtc others_step net net' → net_reps net' !! r = net_reps net !! r ∧ (reach net → reach net').
Proof.
  induction 1 as [|net net1 net' (r' & a & Hne & Ha & Hs) _ [IH1 IH2]]; [done|].
  assert (net_reps net1 !! r = net_reps net !! r) as <-.
  { unfold step in Hs. destruct (net_reps net !! r') as [[s [f|]]|]; [done| |done].
    destruct (run_action a s); simplify_eq; simpl; by rewrite lookup_insert_ne. }
  split; [done|]. intros Hr. by apply IH2, (reach_step _ _ _ _ _ _ net r' a).
Qed.

Lemma ran_reach acts net net' : ran acts net net' → reach net → reach net'.
Proof.
  induction 1 as [net net' Ho|a acts n0 n1 n2 net' Ho Ha Hs _ IH]; intros Hr.
  - by apply (others_keep _ _ Ho).
  - apply IH. eapply reach_step; [by apply (others_keep _ _ Ho)|exact Ha|exact Hs].
Qed.

(** No replica disappears. *)
Lemma step_present q r' a net net' :
  step r' a net = Some net' → is_Some (net_reps net !! q) → is_Some (net_reps net' !! q).
Proof.
  unfold step. destruct (net_reps net !! r') as [[s [f|]]|]; [done| |done].
  destruct (run_action a s); intros [= <-] ?; simpl; rewrite lookup_insert_is_Some'; auto.
Qed.

Lemma others_present q net net' :
  rtc others_step net net' → is_Some (net_reps net !! q) → is_Some (net_reps net' !! q).
Proof.
  induction 1 as [|? ? ? (r' & a & _ & _ & Hs) _ IH]; [done|]. intros Hq.
  by apply IH, (step_present _ _ _ _ _ Hs).
Qed.

Lemma ran_present q acts net net' :
  ran acts net net' → is_Some (net_reps net !! q) → is_Some (net_reps net' !! q).
Proof.
  induction 1 as [? ? Ho|? ? ? ? ? ? Ho _ Hs _ IH]; intros Hq; [by eapply others_present|].
  eapply IH, step_present, others_present; eauto.
Qed.

(** A replica that runs at the end has run all along. *)
Lemma ran_running acts net net' s' :
  ran acts net net' → net_reps net' !! r = Some (mkReplica s' None) →
  ∃ s, net_reps net !! r = Some (mkReplica s None).
Proof.
  intros Hf Hs'. inversion Hf as [? ? Ho|? ? ? n1 n2 ? Ho _ Hst]; subst.
  - destruct (others_keep _ _ Ho) as [<- _]. eauto.
  - destruct (others_keep _ _ Ho) as [<- _]. unfold step in Hst.
    destruct (net_reps n1 !! r) as [[s [f|]]|]; [done|eauto|done].
Qed.

Lemma ran_none net net' s s' :
  ran [] net net' → net_reps net !! r = Some (mkReplica s None) →
  net_reps net' !! r = Some (mkReplica s' None) → s' = s.
Proof.
  intros Hf Hs Hs'. inversion Hf as [? ? Ho|]; subst.
  destruct (others_keep _ _ Ho) as [Heq _]. rewrite Heq, Hs in Hs'. by injection Hs' as ->.
Qed.

(** The first action returned, in the state the replica had. *)
Lemma ran_first a acts net net' s s' :
  ran (a :: acts) net net' → reach net → net_reps net !! r = Some (mkReplica s None) →
  net_reps net' !! r = Some (mkReplica s' None) →
  ∃ n1 s1, run_action a s = Ok tt s1 ∧ reach n1 ∧ net_reps n1 !! r = Some (mkReplica s1 None) ∧
    ran acts n1 net'.
Proof.
  intros Hf Hr Hs Hs'. inversion Hf as [|? ? ? n1 n2 ? Ho Ha Hst Hrest]; subst.
  destruct (others_keep _ _ Ho) as [Heq Hr1]. rewrite Hs in Heq.
  destruct (ran_running _ _ _ _ Hrest Hs') as [s2 Hs2].
  pose proof (step_own _ _ _ _ Heq Hst) as Hown. rewrite Hs2 in Hown.
  exists n2, s2. destruct (run_action a s) as [[] s3|]; [|done]. injection Hown as ->.
  split_and!; [done| |done|done]. eapply reach_step; [by apply Hr1|exact Ha|exact Hst].
Qed.

Lemma ran_sends acts net net' s s' :
  ran acts net net' → reach net → net_reps net !! r = Some (mkReplica s None) →
  net_reps net' !! r = Some (mkReplica s' None) → sends (st_env s) (st_env s').
Proof.
  revert net s. induction acts as [|a acts IH]; intros net s Hran Hr Hs Hs'.
  { rewrite (ran_none _ _ _ _ Hran Hs Hs'). reflexivity. }
  destruct (ran_first _ _ _ _ _ _ Hran Hr Hs Hs') as (n1 & s1 & Hrun & R1 & Hs1 & Hran1).
  pose proof (run_action_sends a s) as H1. unfold wp in H1. rewrite Hrun in H1.
  etrans; [exact H1|by eapply IH].
Qed.
End runs.

(** ** Blocks on top of each other *)

Section tips.
Context {i_sodium : Sodium} {i_xdr : Xdr} {i_bv : BitVector} {i_fs : Fs} {i_lmdb : LmdbLib}.
Context {V : Type} {i_bridge : VMBridge V} {i_blaws : VMBridgeLaws V}.
Context (cfg : ReplicaConfig) (B : gset ReplicaID) (U : Hash → option HotstuffBlockHeader).
Hypothesis U_zero : U zero_hash = None.
Hypothesis U_short : ∀ h n, ht U h n → (n < 2 ^ 32)%N.
Hypothesis cfg_wf : config_wf cfg.
Hypothesis few_faulty :
  (N.of_nat (size B) < nreplicas cfg - 2 * (nreplicas cfg / 3))%N.
Context (r : ReplicaID).

Abbreviation AInv := (AppInv U cfg B r).
Abbreviation tr s := (skel <$> st_heap s).

Lemma running_AInv sk vm net s :
  reachable cfg B U (block_arrival U cfg B) sk vm net →
  net_reps net !! r = Some (mkReplica s None) → AInv (net_log net) s.
Proof using U_short U_zero cfg_wf few_faulty i_blaws.
  intros Hn Hr. apply (reachable_inv cfg B U U_zero U_short cfg_wf few_faulty) in Hn as [_ Hinv].
  by destruct (Hinv _ _ Hr) as (_ & _ & ?).
Qed.

(** The replica would vote for a child of [tip], which is at [tp] and has
    height [n], if the child certifies [tip]. *)
Record at_tip (s : AppSt V) (tip : Hash) (tp : loc) (n : N) : Prop := {
  at_cache : cache s !! tip = Some tp;
  at_height : ∃ k, tr s !! tp = Some k ∧ sk_height k = n;
  at_vote : (vheight (st_core s) ≤ n)%N;
  at_lock : b_lock (st_core s) = tp ∨
    ∀ kl, tr s !! b_lock (st_core s) = Some kl → (sk_height kl < n)%N;
}.

(** [s'] has one more block than [s]: [h] at [p], on the block at [tp]. *)
Record grown (s s' : AppSt V) (h : Hash) (p tp : loc) : Prop := {
  gr_unseen : cache s !! h = None;
  gr_cache : cache s' = <[h := p]> (cache s);
  gr_tree : ∀ q k, tr s !! q = Some k → tr s' !! q = Some k;
  gr_new : ∃ k, tr s' !! p = Some k ∧ sk_parent k = Some tp ∧ sk_justify k = Some tp;
  gr_fetch : a_fetch (st_env s') = a_fetch (st_env s);
  gr_key : a_secret_key (st_env s') = a_secret_key (st_env s);
}.

(** The block two direct links below the block at [tp]. *)
Definition two_below (s : AppSt V) (tp p0 : loc) : Prop :=
  ∃ k p1 k1, tr s !! tp = Some k ∧ sk_parent k = Some p1 ∧ sk_justify k = Some p1 ∧
    tr s !! p1 = Some k1 ∧ sk_parent k1 = Some p0 ∧ sk_justify k1 = Some p0.

Definition advanced (s s' : AppSt V) (h : Hash) (p tp : loc) : Prop :=
  grown s s' h p tp ∧ ∀ p0, two_below s tp p0 → decided_in s' p0.

(** The stored blocks with hashes [hs], newest first, are direct links. *)
Fixpoint direct (s : AppSt V) (hs : list Hash) : Prop :=
  match hs with
  | x :: ((y :: _) as hs') =>
    (∃ p q k, cache s !! x = Some p ∧ tr s !! p = Some k ∧ cache s !! y = Some q ∧
       sk_parent k = Some q ∧ sk_justify k = Some q) ∧ direct s hs'
  | _ => True
  end.

Definition hash_decided (s : AppSt V) (x : Hash) : Prop :=
  ∃ p b, cache s !! x = Some p ∧ st_heap s !! p = Some b ∧ decided b = true.

(** And the one three below the newest is decided. *)
Definition stacked (s : AppSt V) (hs : list Hash) : Prop :=
  direct s hs ∧ ∀ x, hs !! 3 = Some x → hash_decided s x.

(** None of [hs] is stored or asked for. *)
Definition unseen (s : AppSt V) (hs : list Hash) : Prop :=
  ∀ h, h ∈ hs → cache s !! h = None ∧ outstanding_reqs (a_fetch (st_env s)) !! h = None.

(** *** A justified block is an ancestor, and lower *)

Lemma justify_anc G (s : AppSt V) jp jb p b :
  AInv G s → node (core_genesis (st_core s)) (tr s) (cache s) p (skel b) →
  get_justify b = Some jp → st_heap s !! jp = Some jb → anc U (get_hash jb) (get_hash b).
Proof using U_zero.
  intros I Hk Hj Hjb. destruct (ai_good _ _ _ _ _ _ I) as (_ & RI & _).
  pose proof (ri_tree _ _ _ _ _ _ _ _ _ RI) as T.
  assert (Hl : linked (tr s) (cache s) (skel b))
    by (eapply (node_justify_linked U cfg B U_zero); [exact T|exact Hk|exact Hj]).
  destruct (linked_justify U cfg B U_zero _ _ _ _ T _ _ (proj1 Hk) Hl)
    as (q & kq & Hq & [Hkq _] & _ & Hh).
  assert (q = jp) as -> by (unfold get_justify in Hj; simpl in Hq; congruence).
  rewrite (skel_lookup_Some _ _ _ Hjb) in Hkq. injection Hkq as <-.
  destruct (ti_just _ _ _ _ _ _ _ T _ _ (proj1 Hk) Hl) as [Ha _]. rewrite <- Hh in Ha.
  eapply anc_step; [|exact Ha].
  exact (linked_U U cfg B U_zero _ _ _ _ T p (skel b) (proj1 Hk) Hl).
Qed.

Lemma justify_lower G (s : AppSt V) p k q kq :
  AInv G s → node (core_genesis (st_core s)) (tr s) (cache s) p k → sk_justify k = Some q →
  tr s !! q = Some kq → (sk_height kq < sk_height k)%N.
Proof using U_zero.
  intros I Hk Hj Hq. destruct (ai_good _ _ _ _ _ _ I) as (_ & RI & _).
  pose proof (ri_tree _ _ _ _ _ _ _ _ _ RI) as T.
  pose proof (node_justify_linked U cfg B U_zero _ _ _ _ T _ _ _ Hk Hj) as Hl.
  destruct (linked_justify U cfg B U_zero _ _ _ _ T _ _ (proj1 Hk) Hl)
    as (q' & kq' & Hj' & Hkq & _ & Hjh).
  assert (q' = q) as -> by congruence. assert (kq' = kq) as -> by (destruct Hkq; congruence).
  destruct (linked_parent U cfg B U_zero _ _ _ _ T _ _ (proj1 Hk) Hl)
    as (pp & pk & _ & Hpk & _ & Hph & Hh).
  destruct (ti_just _ _ _ _ _ _ _ T _ _ (proj1 Hk) Hl) as [Ha _]. rewrite <- Hjh, <- Hph in Ha.
  pose proof (anc_ht_le U U_zero _ _ _ _ Ha (ti_ht _ _ _ _ _ _ _ T _ _ Hkq)
    (ti_ht _ _ _ _ _ _ _ T _ _ Hpk)). clear few_faulty. lia.
Qed.

(** *** Stacking *)

Lemma grown_cache s s' h p tp x q :
  grown s s' h p tp → cache s !! x = Some q → cache s' !! x = Some q.
Proof. intros [Hh -> _ _ _ _] Hx. rewrite lookup_insert_ne; [done|]. intros ->. congruence. Qed.

Lemma unseen_grown s s' h p tp hs :
  grown s s' h p tp → h ∉ hs → unseen s hs → unseen s' hs.
Proof.
  intros [_ Hc _ _ Hf _] Hh Hu x Hx. rewrite Hc, Hf. destruct (Hu x Hx). split; [|done].
  rewrite lookup_insert_ne; [done|]. by intros ->.
Qed.

Lemma direct_grown s s' h p tp hs : grown s s' h p tp → direct s hs → direct s' hs.
Proof.
  intros Hg. induction hs as [|x [|y hs] IH]; [done|done|].
  intros [(px & q & k & Hx & Hk & Hy & Hp & Hj) Hd]. split; [|by apply IH].
  exists px, q, k. split_and!; eauto using grown_cache. by apply Hg.
Qed.

Lemma direct_two_below s tip tp path x :
  cache s !! tip = Some tp → direct s (tip :: path) → path !! 1 = Some x →
  ∃ p0, cache s !! x = Some p0 ∧ two_below s tp p0.
Proof.
  intros Ht. destruct path as [|y1 [|y2 path]]; [done|done|]. intros Hd [= ->].
  destruct Hd as [(p & p1 & k & Hp & Hk & Hy1 & Hpa & Hju) [(p1' & p0 & k1 & Hp1 & Hk1 & Hx & Hpa1 & Hju1) _]].
  assert (p = tp) as -> by congruence. assert (p1' = p1) as -> by congruence.
  exists p0. split; [done|]. by exists k, p1, k1.
Qed.

Lemma stacked_push s s' h p tp tip path :
  advanced s s' h p tp → cache s !! tip = Some tp → direct s (tip :: path) →
  stacked s' (h :: tip :: path).
Proof.
  intros [Hg Hdec] Ht Hd. split.
  - split; [|by eapply direct_grown].
    destruct (gr_new _ _ _ _ _ Hg) as (k & Hk & Hp & Hj). exists p, tp, k.
    split_and!; eauto using grown_cache. rewrite (gr_cache _ _ _ _ _ Hg). apply lookup_insert_eq.
  - intros x Hx. destruct (direct_two_below s tip tp path x) as (p0 & Hp0 & H2); [done..|].
    destruct (Hdec p0 H2) as (b0 & Hb0 & Hdb). exists p0, b0. eauto using grown_cache.
Qed.

(** Below a decided block everything is decided. *)
Lemma direct_decided G s x hs y :
  AInv G s → direct s (x :: hs) → hash_decided s x → y ∈ hs → hash_decided s y.
Proof using U_zero cfg_wf few_faulty.
  intros I. revert x. induction hs as [|z hs IH]; intros x Hd Hx Hy; [by apply elem_of_nil in Hy|].
  destruct Hd as [(p & q & k & Hp & Hk & Hz & Hpa & _) Hd].
  enough (hash_decided s z) as Hzd by (apply elem_of_cons in Hy as [->|Hy]; [done|by apply (IH z)]).
  destruct (ai_good _ _ _ _ _ _ I) as (Hlog & RI & _). pose proof (ri_tree _ _ _ _ _ _ _ _ _ RI) as T.
  destruct Hx as (p' & b & Hp' & Hb & Hdb). assert (p' = p) as -> by congruence.
  rewrite (skel_lookup_Some _ _ _ Hb) in Hk. injection Hk as <-.
  destruct (cached_node U cfg B U_zero _ _ _ _ T _ _ Hp) as (k & Hn & _).
  pose proof (proj1 Hn) as Hk'. rewrite (skel_lookup_Some _ _ _ Hb) in Hk'. injection Hk' as <-.
  assert (Hl : linked (tr s) (cache s) (skel b)).
  { destruct Hn as [Hn [->|Hl]]; [|done]. rewrite (tw_genesis _ _ _ (ti_wf _ _ _ _ _ _ _ T)) in Hn.
    assert (Heq : skel genesis_block = skel b) by congruence. rewrite <- Heq in Hpa. done. }
  destruct (linked_parent U cfg B U_zero _ _ _ _ T _ _ (proj1 Hn) Hl)
    as (q' & kq & Hq & Hkq & Hcq & Hph & _).
  assert (q' = q) as -> by congruence. pose proof (proj1 Hkq) as (bq & Hbq & <-)%skel_lookup.
  destruct (cached_node U cfg B U_zero _ _ _ _ T _ _ Hz) as (kz & Hkz & Hhz).
  rewrite (node_fun _ _ _ _ _ _ Hkz Hkq) in Hhz. simpl in Hhz, Hcq, Hph. rewrite Hhz in Hcq, Hph.
  destruct (decided_below U cfg B U_zero r cfg_wf few_faulty G Hlog s p b q bq) as (bq' & Hbq' & Hdq);
    try done; [by rewrite Hhz| |by exists q, bq'].
  eapply anc_step; [apply (linked_U U cfg B U_zero _ _ _ _ T _ _ (proj1 Hn) Hl)|].
  simpl. rewrite Hhz, Hph. constructor.
Qed.

(** All but the newest three are decided. *)
Lemma stacked_decided G s hs tip i h :
  AInv G s → stacked s (reverse hs ++ [tip]) → i + 3 < length hs → hs !! i = Some h →
  hash_decided s h.
Proof using U_zero cfg_wf few_faulty.
  intros I [Hd Hdec] Hi Hh.
  assert (Hlen : length (reverse hs) = length hs) by apply length_reverse.
  assert (Hin : h ∈ drop 3 (reverse hs)).
  { apply list_elem_of_lookup. exists (length hs - 1 - i - 3). rewrite lookup_drop.
    rewrite reverse_lookup by lia. rewrite <- Hh. f_equal. lia. }
  destruct (reverse hs) as [|x1 [|x2 [|x3 [|x4 hs']]]]; simpl in Hlen; try lia.
  simpl in Hin. assert (Hx : hash_decided s x4) by by apply Hdec.
  destruct Hd as (_ & _ & _ & Hd). apply elem_of_cons in Hin as [->|Hin]; [done|].
  eapply (direct_decided _ s x4 (hs' ++ [tip])); [done|exact Hd|done|].
  apply elem_of_app. by left.
Qed.
End tips.
