(* ===== verification/Progress.v ===== *)
(** * A follower makes progress

    What a running replica does with the proposals of a leader whose
    certificates verify: each is validated, stored, voted for, and the vote is
    queued for the leader; a block three proposals back is decided.  First one
    proposal, thread by thread, then a chain of them, with other replicas taking
    any steps in between. *)

From S2P Require Import Prelude Types ReplicaConfig Certs IoUtils Block BlockStore Lmdb.
From S2P Require Import Consensus Events FetchManager App Safety ReplicaInv StoreInv AppInv.
From S2P Require Import Network Runs.

(** ** What the core leaves alone *)

Section kept.
Context {i_sodium : Sodium} {i_xdr : Xdr} {i_bv : BitVector} {i_fs : Fs} {i_lmdb : LmdbLib}.
Context {E : Type} {i_virt : CoreVirtuals E}.

(** A relation between states that deciding, writing and recording blocks
    respects. *)
Class CommitRel (R : CoreSt E → CoreSt E → Prop) : Prop := {
  #[global] cr_po :: PreOrder R;
  cr_env : ∀ s e, R s (mkSt (st_heap s) (st_disk s) (st_core s) e);
  cr_disk : ∀ s d, R s (mkSt (st_heap s) d (st_core s) (st_env s));
  cr_exec : ∀ s p, R s (mkSt (st_heap s) (st_disk s) (set_b_exec p (st_core s)) (st_env s));
  cr_index : ∀ s db, R s (mkSt (st_heap s) (st_disk s) (set_index db (st_core s)) (st_env s));
  cr_decide : ∀ s p b, st_heap s !! p = Some b →
    R s (mkSt (<[p := decide_block b]> (st_heap s)) (st_disk s) (st_core s) (st_env s));
  cr_written : ∀ s p b, st_heap s !! p = Some b →
    R s (mkSt (<[p := with_written b true]> (st_heap s)) (st_disk s) (st_core s) (st_env s));
}.

Context (R : CoreSt E → CoreSt E → Prop) {R_rel : CommitRel R}.

(** A computation that stays in the relation. *)
Definition keeps_rel {A} (m : M (CoreSt E) A) : Prop :=
  ∀ s, wp m (λ _ s', R s s') (λ _ _, True) s.

Lemma kr_bind {A A'} (m : M (CoreSt E) A) (k : A → M (CoreSt E) A') :
  keeps_rel m → (∀ a, keeps_rel (k a)) → keeps_rel (bind m k).
Proof using R_rel.
  intros Hm Hk s. apply wp_bind. eapply wp_mono; [apply Hm| |done].
  intros a s1 H1. eapply wp_mono; [apply Hk| |done]. intros a' s2 H2. by transitivity s1.
Qed.
Lemma kr_ret {A} (a : A) : keeps_rel (ret a).
Proof using R_rel. intros s. apply wp_ret. reflexivity. Qed.
Lemma kr_throw {A} e : keeps_rel (A := A) (throw e).
Proof. done. Qed.
Lemma kr_halt {A} h : keeps_rel (A := A) (halt_with h).
Proof. done. Qed.
Lemma kr_core {A} (f : HotstuffCore → A) : keeps_rel (core f).
Proof using R_rel. intros s. apply wp_gets. reflexivity. Qed.
Lemma kr_read p : keeps_rel (read p).
Proof using R_rel. intros s. unfold wp, read, deref. destruct (st_heap s !! p); simpl; [reflexivity|done]. Qed.
Lemma kr_read_ptr p : keeps_rel (read_ptr p).
Proof using R_rel. intros s. unfold wp, read_ptr, deref_ptr. destruct p; [apply kr_read|done]. Qed.
Lemma kr_get_info c rid : keeps_rel (get_info c rid).
Proof using R_rel. intros s. unfold wp, get_info. destruct (replica_map c !! rid); simpl; [reflexivity|done]. Qed.
Lemma kr_justify_qc b : keeps_rel (get_justify_qc b).
Proof using R_rel. intros s. unfold wp, get_justify_qc. destruct (parsed_qc b); simpl; [reflexivity|done]. Qed.
Lemma kr_in_env {A} (m : heap → M E A) : keeps_rel (in_env m).
Proof using R_rel. intros s. unfold in_env, wp, zoom. destruct (m _ _); [apply cr_env|done]. Qed.
Lemma kr_set_b_exec p : keeps_rel (in_core (set_b_exec p)).
Proof using R_rel. intros s. apply cr_exec. Qed.
Lemma kr_set_index d : keeps_rel (in_core (set_index d)).
Proof using R_rel. intros s. apply cr_index. Qed.

(** Deciding the block just read. *)
Lemma kr_decide {A} p (k : HotstuffBlock → M (CoreSt E) A) :
  (∀ b, keeps_rel (k b)) →
  keeps_rel (b <- read p ;; set_block p (decide_block b) ;; k b).
Proof using R_rel.
  intros Hk s. unfold wp, bind, read, deref. destruct (st_heap s !! p) as [b|] eqn:Hb; [|done]. simpl.
  unfold set_block, modify. eapply wp_mono; [apply Hk| |done]. intros a s' H'.
  etransitivity; [by apply (cr_decide s p b)|done].
Qed.
End kept.

Create HintDb keeps_rel.
#[export] Hint Resolve kr_ret kr_throw kr_halt kr_core kr_read kr_read_ptr
  kr_get_info kr_justify_qc kr_in_env kr_set_b_exec kr_set_index : keeps_rel.
#[export] Hint Extern 1 (CommitRel _) => apply _ : keeps_rel.

Ltac kr_step :=
  repeat match goal with
  | |- keeps_rel _ (bind _ _) => apply (kr_bind _); [|intros ?]
  | |- keeps_rel _ (match _ with _ => _ end) => case_match
  | |- keeps_rel _ _ => solve [auto with keeps_rel]
  end.

Section kept_commits.
Context {i_sodium : Sodium} {i_xdr : Xdr} {i_bv : BitVector} {i_fs : Fs} {i_lmdb : LmdbLib}.
Context {E : Type} {i_virt : CoreVirtuals E}.
Context (R : CoreSt E → CoreSt E → Prop) {R_rel : CommitRel R}.

Lemma kr_collect fuel p n q : keeps_rel R (collect_commits fuel p n q).
Proof using R_rel. revert p q. induction fuel; intros; simpl; kr_step; auto. Qed.

Lemma kr_commit_blocks q tx : keeps_rel R (commit_blocks q tx).
Proof using R_rel.
  revert tx. induction q as [|p q IH]; intros tx; simpl; [kr_step|].
  apply kr_decide; [done|]. intros b. kr_step.
Qed.

Lemma write_to_disk_rel fuel info p (s : CoreSt E) :
  wp (write_to_disk fuel info p)
    (λ _ hd, R s (mkSt hd.1 hd.2 (st_core s) (st_env s))) (λ _ _, True) (st_heap s, st_disk s).
Proof using R_rel.
  revert p s. induction fuel as [|fuel IH]; intros p s; simpl; [done|].
  unfold wp, bind, gets, deref. simpl. destruct (st_heap s !! p) as [b|] eqn:Hb; [|done]. simpl.
  assert (Hs : mkSt (st_heap s) (st_disk s) (st_core s) (st_env s) = s) by by destruct s.
  destruct (written_to_disk b); simpl; [by rewrite Hs|]. unfold modify, zoom. simpl.
  destruct (save_block (wire_block b) info (st_disk s)) as [[] d|]; [|done]. simpl.
  set (s1 := mkSt (<[p := with_written b true]> (st_heap s)) d (st_core s) (st_env s)).
  assert (H1 : R s s1).
  { pose proof (cr_written s p b Hb) as H1. etransitivity; [exact H1|].
    exact (cr_disk (mkSt (<[p := with_written b true]> (st_heap s)) (st_disk s) (st_core s) (st_env s)) d). }
  destruct (parent_block_ptr b) as [pp|]; [|done]. specialize (IH pp s1). unfold wp in IH. simpl in IH.
  destruct (write_to_disk fuel info pp _) as [[] hd|]; [|done]. by transitivity s1.
Qed.

Lemma kr_write_block info p : keeps_rel R (write_block info p).
Proof using R_rel.
  unfold write_block. apply kr_bind; [done|apply kr_read, R_rel|]. intros b s.
  unfold wp, zoom. pose proof (write_to_disk_rel (S (N.to_nat (get_height b))) info p s) as Hw.
  unfold wp in Hw. by destruct (write_to_disk _ _ _ _).
Qed.

Lemma kr_commit_chain p b : keeps_rel R (commit_chain p b).
Proof using R_rel. unfold commit_chain. kr_step; auto using kr_collect, kr_commit_blocks. Qed.

(** The part of [lock_and_commit] after the lock is raised. *)
Lemma kr_after_lock b2 p1 b1 :
  keeps_rel R (cfg <- core config ;; self <- core self_id ;; info <- get_info cfg self ;;
        lock <- core b_lock ;; write_block info lock ;;
        match get_justify b1 with
        | None => ret tt
        | Some p0 =>
          blk <- read p0 ;;
          if has_been_decided blk then ret tt
          else if negb (bool_decide (get_parent b2 = Some p1)) ||
                  negb (bool_decide (get_parent b1 = Some p0)) then ret tt
          else commit_chain p0 b1
        end).
Proof using R_rel. kr_step; auto using kr_write_block, kr_commit_chain. Qed.
End kept_commits.

Section kept_handlers.
Context {i_sodium : Sodium} {i_xdr : Xdr} {i_bv : BitVector} {i_fs : Fs} {i_lmdb : LmdbLib}.
Context {E : Type} {i_virt : CoreVirtuals E}.

(** The lock and the last vote. *)
Definition core_kept (s s' : CoreSt E) : Prop :=
  b_lock (st_core s') = b_lock (st_core s) ∧ vheight (st_core s') = vheight (st_core s).

#[export] Instance core_kept_rel : CommitRel core_kept.
Proof. split; [split|..]; try done. intros x y z [??] [??]. split; congruence. Qed.

Abbreviation keeps_core := (keeps_rel core_kept).

Lemma kc_update_hqc p qc : keeps_core (update_hqc p qc).
Proof.
  unfold update_hqc. kr_step; by intros s.
Qed.

(** The highest certificate, the leaf, and the votes counted on each block. *)
Definition high_kept (s s' : CoreSt E) : Prop :=
  hqc (st_core s') = hqc (st_core s) ∧ b_leaf (st_core s') = b_leaf (st_core s) ∧
  self_qc <$> st_heap s' = self_qc <$> st_heap s.

#[export] Instance high_kept_rel : CommitRel high_kept.
Proof.
  assert (Hins : ∀ (h : heap) p b b', h !! p = Some b → self_qc b' = self_qc b →
    self_qc <$> <[p := b']> h = self_qc <$> h).
  { intros h p b b' Hb Hq. rewrite fmap_insert, insert_id; [done|].
    by rewrite lookup_fmap, Hb, Hq. }
  split; [split|..]; try done.
  - intros x y z (? & ? & ?) (? & ? & ?). split_and!; congruence.
  - intros s p b Hb. split_and!; [done..|]. by apply (Hins _ _ b).
  - intros s p b Hb. split_and!; [done..|]. by apply (Hins _ _ b).
Qed.

(** When the block justifies the one of the highest certificate, [update] keeps
    that certificate. *)
Lemma update_high_kept s p b p2 :
  st_heap s !! p = Some b → get_justify b = Some p2 → (hqc (st_core s)).1 = p2 →
  wp (update p) (λ _ s', high_kept s s') (λ _ _, True) s.
Proof.
  intros Hb Hj Hq. unfold update. apply wp_bind, (wp_read _ _ b); [done|]. rewrite Hj.
  destruct (st_heap s !! p2) as [b2|] eqn:Hb2; [|by unfold wp, bind, read, deref; rewrite Hb2].
  apply wp_bind, (wp_read _ _ b2); [done|]. case_match; [by apply wp_ret|].
  unfold wp at 1, bind at 1, get_justify_qc. destruct (parsed_qc b) as [qc|]; [|done]. simpl.
  match goal with |- context [bind ?m ?k s] => change (wp (bind m k) (λ _ s', high_kept s s') (λ _ _, True) s) end.
  apply wp_bind. unfold update_hqc. apply wp_bind, (wp_read _ _ b2); [done|].
  apply wp_bind, wp_gets. rewrite Hq. apply wp_bind, (wp_read _ _ b2); [done|].
  rewrite N.ltb_irrefl. apply wp_ret.
  match goal with |- wp ?m _ _ _ => assert (Hk : keeps_rel high_kept m) end; [|apply Hk].
  kr_step. unfold lock_and_commit. apply kr_bind; [apply _| |intros _; apply kr_after_lock; apply _].
  unfold raise_lock. kr_step. intros s1. apply wp_when; intros _; [by apply wp_modify|done].
Qed.

(** After [update] the lock is where it was, or at the block that the block
    justified by the new one justifies. *)
Definition lock_moved (s : CoreSt E) (b : HotstuffBlock) (s' : CoreSt E) : Prop :=
  vheight (st_core s') = vheight (st_core s) ∧
  (b_lock (st_core s') = b_lock (st_core s) ∨
   ∃ p2 b2, get_justify b = Some p2 ∧ st_heap s !! p2 = Some b2 ∧
     get_justify b2 = Some (b_lock (st_core s'))).

Lemma update_lock_moved s p b :
  st_heap s !! p = Some b → wp (update p) (λ _ s', lock_moved s b s') (λ _ _, True) s.
Proof.
  intros Hb. unfold update. apply wp_bind, (wp_read _ _ b); [done|].
  assert (Hsame : ∀ s', core_kept s s' → lock_moved s b s') by (intros s' [??]; split; auto).
  destruct (get_justify b) as [p2|] eqn:Hj; [|by apply wp_ret, Hsame].
  destruct (st_heap s !! p2) as [b2|] eqn:Hb2; [|by unfold wp, bind, read, deref; rewrite Hb2].
  apply wp_bind, (wp_read _ _ b2); [done|]. case_match; [by apply wp_ret, Hsame|].
  apply wp_bind. eapply wp_mono; [apply (kr_justify_qc core_kept)| |done]. intros qc s1 [L1 V1].
  apply wp_bind. eapply wp_mono; [apply kc_update_hqc| |done]. intros _ s2 [L2 V2].
  destruct (get_justify b2) as [p1|] eqn:Hj2; [|apply wp_ret, Hsame; split; congruence].
  apply wp_bind. eapply wp_mono; [apply (kr_read core_kept)| |done]. intros b1 s3 [L3 V3].
  case_match; [apply wp_ret, Hsame; split; congruence|]. unfold lock_and_commit. apply wp_bind.
  assert (Hrest : ∀ s4 s5, vheight (st_core s4) = vheight (st_core s) →
    b_lock (st_core s4) = b_lock (st_core s) ∨ b_lock (st_core s4) = p1 →
    core_kept s4 s5 → lock_moved s b s5).
  { intros s4 s5 V4 L4 [L5 V5]. split; [congruence|]. destruct L4 as [L4|L4]; [left; congruence|].
    right. exists p2, b2. by rewrite L5, L4. }
  unfold raise_lock. apply wp_bind, wp_gets, wp_bind.
  eapply wp_mono; [apply (kr_read core_kept)| |done].
  intros lb s4 [L4 V4]. apply wp_when; intros _; [apply wp_modify|];
    (eapply wp_mono; [apply (kr_after_lock core_kept)| |done]); intros u s5; apply Hrest;
    simpl; try congruence; [by right|left; congruence].
Qed.
End kept_handlers.

(** ** One proposal, thread by thread *)

Section one_proposal.
Context {i_sodium : Sodium} {i_xdr : Xdr} {i_bv : BitVector} {i_fs : Fs} {i_lmdb : LmdbLib}.
Context {V : Type} {i_bridge : VMBridge V}.

(** The queues, messages, keys and signatures of a replica. *)
Definition still (e e' : AppBase V) : Prop :=
  a_fetch e' = a_fetch e ∧ a_events e' = a_events e ∧ a_net_events e' = a_net_events e ∧
  a_protocol e' = a_protocol e ∧ a_secret_key e' = a_secret_key e ∧ a_signed e' = a_signed e.

#[export] Instance still_po : PreOrder still.
Proof.
  split; [done|]. intros x y z (? & ? & ? & ? & ? & ?) (? & ? & ? & ? & ? & ?).
  split_and!; congruence.
Qed.

Lemma in_vm_still {A} (m : M V A) : keeps still (in_vm m).
Proof. intros e. unfold in_vm, wp, zoom. by destruct (m _). Qed.

Lemma update_still p : env_rel still (update p).
Proof. apply update_env; try apply _; intros; by try apply in_vm_still. Qed.

(** The message that carries the vote of [self] on [h]. *)
Definition vote_message (self : ReplicaID) (h : Hash) (sig : Signature) : msg_t :=
  MVote (mkVoteMessage (mkPC h sig) self).

(** The core after a vote on [b] and the update that follows. *)
Definition voted_core (s : AppSt V) (b : HotstuffBlock) (s' : AppSt V) : Prop :=
  vheight (st_core s') = u32 (get_height b) ∧
  (b_lock (st_core s') = b_lock (st_core s) ∨
   ∃ p2 b2, get_justify b = Some p2 ∧ st_heap s !! p2 = Some b2 ∧
     get_justify b2 = Some (b_lock (st_core s'))).

(** The state after a vote on [b], to be sent to [ldr]. *)
Record voted (s : AppSt V) (b : HotstuffBlock) (ldr : ReplicaID) (work : list msg_t)
    (sig : Signature) (s' : AppSt V) : Prop := {
  vo_fetch : a_fetch (st_env s') = a_fetch (st_env s);
  vo_events : a_events (st_env s') = a_events (st_env s);
  vo_net : a_net_events (st_env s') = a_net_events (st_env s);
  vo_key : a_secret_key (st_env s') = a_secret_key (st_env s);
  vo_self : pm_self_id (a_protocol (st_env s')) = pm_self_id (a_protocol (st_env s));
  vo_sent : other_clients (a_protocol (st_env s')) !! ldr =
    Some (work ++ [vote_message (pm_self_id (a_protocol (st_env s))) (get_hash b) sig]);
  vo_signed : a_signed (st_env s') = get_hash b :: a_signed (st_env s);
  vo_core : voted_core s b s';
}.

Lemma vote_cast s p b ldr work sig :
  st_heap s !! p = Some b → opinion p s = Ok true s →
  ldr ≠ pm_self_id (a_protocol (st_env s)) →
  other_clients (a_protocol (st_env s)) !! ldr = Some work →
  crypto_sign_detached (get_hash b) (a_secret_key (st_env s)) = Some sig →
  wp (on_receive_proposal p ldr) (λ _ s', voted s b ldr work sig s') (λ _ _, True) s.
Proof.
  intros Hb Hop Hne Hw Hsig. unfold on_receive_proposal.
  apply wp_bind. eapply wp_run; [exact Hop|]. apply wp_bind. apply wp_when; [intros _|done].
  apply wp_bind, (wp_read _ _ b); [done|]. apply wp_bind, wp_modify. unfold in_env. apply wp_zoom.
  change (do_vote (st_heap s)) with (app_do_vote (V := V) (st_heap s)). unfold app_do_vote.
  apply wp_bind. unfold wp at 1, deref. simpl. rewrite Hb. apply wp_bind, wp_gets.
  apply wp_bind. unfold wp at 1, PC_sign. rewrite Hsig. apply wp_bind, wp_modify.
  unfold send_vote_to. apply wp_bind, wp_gets. simpl. rewrite (proj2 (N.eqb_neq _ _) Hne), Hw.
  apply wp_modify. set (s1 := mkSt _ _ _ _).
  eapply wp_mono; [apply wp_and; [apply (update_still p)|by apply (update_lock_moved s1 p b)]| |done].
  intros _ s' [(F & Ev & Nt & Pr & Ke & Si) Hcore]. split; rewrite ?Pr; try done.
  simpl. by rewrite lookup_insert_eq.
Qed.

(** A block whose header has hash [h], whose body is the one its header names,
    and whose certificate verifies. *)
Definition good_wire (cfg : ReplicaConfig) (h : Hash) (w : HotstuffBlockWire) : Prop :=
  crypto_generichash (xdr_header (header w)) = Some h ∧
  crypto_generichash (xdr_opaque (body w)) = Some (body_hash (header w)) ∧
  verify cfg (QC_of_wire (header_qc (header w))) tt = Ok true tt.

(** The block as it is in the network queue. *)
Definition received (w : HotstuffBlockWire) (h : Hash) (ldr : ReplicaID) : HotstuffBlock :=
  mkBlock w (Some (QC_of_wire (header_qc (header w)))) ldr 0 None None (QC_new h)
    false false true true false.

(** The RPC thread: the block is validated and queued. *)
Lemma propose_received cfg (s : AppSt V) h w ldr :
  config (st_core s) = cfg → ldr ∈ replicas cfg → good_wire cfg h w →
  let p := fresh (dom (st_heap s)) in
  handler_propose (mkProposeMessage w ldr) s =
    Ok tt (mkSt (<[p := received w h ldr]> (st_heap s)) (st_disk s) (st_core s)
      (set_net_events (a_net_events (st_env s) ++ [NProposal (mkProposalNet p ldr)]) (st_env s))).
Proof.
  intros Hc Hl (Hh & Hbh & Hv) p. apply elem_of_replicas in Hl.
  unfold handler_propose, bind, core, gets. rewrite Hc. simpl.
  unfold is_valid_replica. rewrite bool_decide_true by done. simpl.
  unfold receive_block, bind, hash_xdr. rewrite Hh. simpl.
  unfold net_queue_add, bind, core, gets, zoom, new_block. simpl. rewrite Hc.
  unfold validate_block. rewrite lookup_insert_eq. unfold validate_hotstuff, bind, validate_hash.
  simpl. rewrite Hbh, bool_decide_true by done. simpl. unfold with_hash_cache. simpl.
  rewrite (verify_state cfg _ true _ tt tt Hv). by rewrite insert_insert_eq.
Qed.

(** The block once it is in the store. *)
Definition stored_block (w : HotstuffBlockWire) (h : Hash) (ldr : ReplicaID) (pp : loc) (n : N)
    (jp : loc) : HotstuffBlock :=
  set_justify (set_parent (received w h ldr) pp n) jp.

Lemma queue_proposal h pe b (e : AppBase V) :
  h !! pe_block pe = Some b → get_height b ≠ 0%N →
  event_queue_add h (EProposal pe) e = Ok tt (set_events (a_events e ++ [EProposal pe]) e).
Proof.
  intros Hb Hn. unfold event_queue_add, bind. simpl.
  unfold ProposalEvent_validate, bind, deref. rewrite Hb. simpl.
  by rewrite (proj2 (N.eqb_neq _ _) Hn).
Qed.

(** The network thread: the block is linked and its event queued. *)
Lemma proposal_stored (s : AppSt V) p h w ldr pp pb jp :
  a_net_events (st_env s) = [NProposal (mkProposalNet p ldr)] →
  tree_wf (core_genesis (st_core s)) (skel <$> st_heap s) (block_cache (a_store (st_env s))) →
  st_heap s !! p = Some (received w h ldr) → p ≠ core_genesis (st_core s) →
  block_cache (a_store (st_env s)) !! parent_hash (header w) = Some pp →
  block_cache (a_store (st_env s)) !! qcw_justify (header_qc (header w)) = Some jp →
  st_heap s !! pp = Some pb → (get_height pb + 1 < 2 ^ 64)%N →
  block_cache (a_store (st_env s)) !! h = None →
  outstanding_reqs (a_fetch (st_env s)) !! h = None →
  run_head st_net_events set_st_net_events on_net_event s =
    Ok tt (mkSt (<[p := stored_block w h ldr pp (get_height pb) jp]> (st_heap s)) (st_disk s)
      (st_core s)
      (set_events (a_events (st_env s) ++ [EProposal (mkProposalEvent ldr p)])
        (set_net_events []
          (set_store (mkStore (<[h := p]> (block_cache (a_store (st_env s))))
                       (gc_add_block p (gc_collector (a_store (st_env s))))) (st_env s))))).
Proof.
  intros Hq Ht Hb Hp Hpp Hjp Hpb Hn Hc Ho.
  pose proof (insert_block_spec _ _ (a_store (st_env s)) _ _ Ht Hb Hp) as Hins. simpl in Hins.
  change (get_parent_hash (received w h ldr)) with (parent_hash (header w)) in Hins.
  rewrite Hpp, Hjp in Hins. destruct Hins as (pb' & Hpb' & Hins).
  assert (pb' = pb) as -> by congruence.
  change (get_hash (received w h ldr)) with h in Hins.
  unfold cache_emplace in Hins. rewrite Hc in Hins.
  unfold run_head, st_net_events. rewrite Hq. simpl.
  unfold insert_received, bind, store_insert, zoom. simpl. rewrite Hins. simpl.
  unfold read, deref. simpl. rewrite lookup_insert_eq. simpl.
  unfold in_fetch, in_env, zoom, deliver_block. simpl.
  change (get_hash (set_justify (set_parent (received w h ldr) pp (get_height pb)) jp)) with h.
  rewrite Ho. simpl. unfold proposal_to_event. cbn [pn_proposer pn_block].
  rewrite (queue_proposal _ _ (stored_block w h ldr pp (get_height pb) jp)); [done| |].
  - apply lookup_insert_eq.
  - change (get_height _) with (u64 (get_height pb + 1)). rewrite u64_small by done. lia.
Qed.
End one_proposal.

(** ** The proposal of a leader at a running replica *)

Section handled.
Context {i_sodium : Sodium} {i_xdr : Xdr} {i_bv : BitVector} {i_fs : Fs} {i_lmdb : LmdbLib}.
Context {V : Type} {i_bridge : VMBridge V} {i_blaws : VMBridgeLaws V}.
Context (cfg : ReplicaConfig) (B : gset ReplicaID) (U : Hash → option HotstuffBlockHeader).
Hypothesis U_zero : U zero_hash = None.
Hypothesis U_short : ∀ h n, ht U h n → (n < 2 ^ 32)%N.
Hypothesis cfg_wf : config_wf cfg.
Hypothesis few_faulty :
  (N.of_nat (size B) < nreplicas cfg - 2 * (nreplicas cfg / 3))%N.
Context (r ldr : ReplicaID).
Hypothesis r_member : r ∈ replicas cfg.
Hypothesis ldr_member : ldr ∈ replicas cfg.

Abbreviation AInv := (AppInv U cfg B r).
Abbreviation tr s := (skel <$> st_heap s).

(** [s2] is [s] with the block [b] stored at [p], a child of the block at [tp]
    that certifies it. *)
Record extends (s s2 : AppSt V) (tp : loc) (n : N) (h : Hash) (p : loc) (b : HotstuffBlock)
  : Prop := {
  ex_hash : get_hash b = h;
  ex_height : get_height b = u64 (n + 1);
  ex_parent : get_parent b = Some tp;
  ex_justify : get_justify b = Some tp;
  ex_unseen : cache s !! h = None;
  ex_fresh : st_heap s !! p = None;
  ex_heap : st_heap s2 = <[p := b]> (st_heap s);
  ex_cache : cache s2 = <[h := p]> (cache s);
  ex_core : b_lock (st_core s2) = b_lock (st_core s) ∧
    vheight (st_core s2) = vheight (st_core s);
  ex_fetch : a_fetch (st_env s2) = a_fetch (st_env s);
  ex_key : a_secret_key (st_env s2) = a_secret_key (st_env s);
}.

Section extended.
Context (G G2 : list (ReplicaID * Hash)) (s s2 : AppSt V).
Context (tip : Hash) (tp : loc) (n : N) (h : Hash) (p : loc) (b : HotstuffBlock).
Hypothesis I : AInv G s.
Hypothesis I2 : AInv G2 s2.
Hypothesis A : at_tip s tip tp n.
Hypothesis E : extends s s2 tp n h p b.

Lemma extended_old q kq : tr s !! q = Some kq → tr s2 !! q = Some kq.
Proof using E.
  intros (bq & Hbq & <-)%skel_lookup. apply skel_lookup_Some.
  rewrite (ex_heap _ _ _ _ _ _ _ E), lookup_insert_ne; [done|]. intros ->.
  pose proof (ex_fresh _ _ _ _ _ _ _ E). congruence.
Qed.

Lemma extended_height : get_height b = (n + 1)%N.
Proof using A E I.
  rewrite (ex_height _ _ _ _ _ _ _ E). apply u64_small.
  destruct (ai_good _ _ _ _ _ _ I) as (_ & RI & _).
  destruct (at_height _ _ _ _ A) as (k & Hk & <-).
  pose proof (ti_bound _ _ _ _ _ _ _ (ri_tree _ _ _ _ _ _ _ _ _ RI) _ _ Hk) as Hb.
  clear few_faulty. change (2 ^ 64)%N with (2 ^ 32 * 2 ^ 32)%N. lia.
Qed.

(** The consensus thread takes the proposal: it votes, and what is two below the
    certified block is decided. *)
Lemma proposal_taken s' :
  a_events (st_env s2) = [EProposal (mkProposalEvent ldr p)] → run_action AEvent s2 = Ok tt s' →
  let s0 := set_st_events [] s2 in
  opinion p s0 = Ok true s0 ∧ on_receive_proposal p ldr s0 = Ok tt s' ∧ tree_frame s2 s' ∧
  ∀ p0, two_below s tp p0 → decided_in s' p0.
Proof using All.
  intros Hev Hrun s0. pose proof E as [Eh En Ep Ej Eu Ef Ehe Ec [El Ev] _ _].
  pose proof (ai_good _ _ _ _ _ _ I) as (_ & RI & _).
  pose proof (ai_good _ _ _ _ _ _ I2) as Hg2. pose proof Hg2 as (_ & RI2 & _).
  pose proof (ri_tree _ _ _ _ _ _ _ _ _ RI2) as T2.
  pose proof A as [Act (k & Hk & Hn) Avo Alo].
  pose proof (extended_old _ _ Hk) as (tb & Htb & Htk)%skel_lookup.
  assert (Hb : st_heap s2 !! p = Some b) by by rewrite Ehe, lookup_insert_eq.
  assert (Hc : cache s2 !! get_hash b = Some p) by by rewrite Ec, Eh, lookup_insert_eq.
  destruct (cached_node U cfg B U_zero _ _ _ _ T2 _ _ Hc) as (kb & Hkb & _).
  pose proof (proj1 Hkb) as Hk'. rewrite (skel_lookup_Some _ _ _ Hb) in Hk'. injection Hk' as <-.
  assert (Hl : linked (tr s2) (cache s2) (skel b))
    by (eapply (node_justify_linked U cfg B U_zero); [exact T2|exact Hkb|exact Ej]).
  destruct (ri_lock _ _ _ _ _ _ _ _ _ RI) as (kl & [[Hkl _] _] & _).
  pose proof (extended_old _ _ Hkl) as (lb & Hlb & Hlk)%skel_lookup. rewrite <- El in Hlb.
  assert (RI0 : RepInv U cfg B r G2 (st_heap s0) (st_core s0) (cache s0) (votes s0)) by exact RI2.
  destruct (opinion_iff U cfg B U_zero r G2 s0 p b tb lb RI0 Hc Hb) as (op & Hop & Hiff).
  { by rewrite Ej. }
  { done. }
  assert (op = true) as ->.
  { apply Hiff. rewrite extended_height. split; [simpl; rewrite Ev; lia|].
    destruct Alo as [Alo|Alo].
    - right. assert (lb = tb) as -> by (rewrite El, Alo in Hlb; congruence).
      by apply (justify_anc cfg B U U_zero r G2 s2 tp tb p b).
    - left. specialize (Alo _ Hkl). rewrite <- Hlk, <- Htk in *. simpl in *. unfold get_height. lia. }
  split; [done|]. simpl in Hrun. unfold run_head, st_events in Hrun. rewrite Hev in Hrun.
  change (on_receive_proposal p ldr s0 = Ok tt s') in Hrun. split; [done|].
  assert (Hg0 : good U cfg B r G2 s0) by exact Hg2.
  pose proof (on_receive_proposal_wp U cfg B U_zero r cfg_wf few_faulty G2 s0 p b ldr Hg0 Hb Hl
    (AppInv_reaches U cfg B U_zero U_short cfg_wf few_faulty r r_member _ _ _ I2 ldr_member)) as Hwp.
  unfold wp in Hwp. rewrite Hrun in Hwp. destruct Hwp as [[Hf _] Hd]. split; [exact Hf|].
  intros p0 (k2 & p1 & k1 & (b2 & Hb2 & <-)%skel_lookup & Hp1 & Hj1 &
    (b1 & Hb1 & <-)%skel_lookup & Hp0 & Hj0).
  assert (Hold : ∀ q bq, st_heap s !! q = Some bq → st_heap s2 !! q = Some bq).
  { intros q bq Hq. rewrite Ehe, lookup_insert_ne; [done|]. intros ->. congruence. }
  apply Hd. exists tp, b2, p1, b1. split_and!; try done; by apply Hold.
Qed.

(** Afterwards the replica would vote for a child of the new block. *)
Lemma tip_moved s' :
  voted_core s2 b s' → tree_frame s2 s' →
  a_fetch (st_env s') = a_fetch (st_env s) → a_secret_key (st_env s') = a_secret_key (st_env s) →
  (∀ p0, two_below s tp p0 → decided_in s' p0) →
  at_tip s' h p (n + 1) ∧ advanced s s' h p tp.
Proof using A E I U_zero few_faulty.
  intros [Vv Vl] (Fc & Ft & _) Hf Hkey Hdec. pose proof E as [Eh En Ep Ej Eu Ef Ehe Ec [El Ev] _ _].
  destruct (ai_good _ _ _ _ _ _ I) as (_ & RI & _). pose proof (ri_tree _ _ _ _ _ _ _ _ _ RI) as T.
  pose proof A as [Act (k & Hk & Hn) Avo Alo].
  assert (Hold : ∀ q kq, tr s !! q = Some kq → tr s' !! q = Some kq)
    by (intros; rewrite Ft; by apply extended_old).
  assert (Hnew : tr s' !! p = Some (skel b)) by by rewrite Ft, Ehe, fmap_insert, lookup_insert_eq.
  destruct (ri_lock _ _ _ _ _ _ _ _ _ RI) as (kl & [[Hkl _] _] & _).
  split; [split|split; [split|done]]; try done; try congruence.
  - by rewrite Fc, Ec, lookup_insert_eq.
  - exists (skel b). split; [done|]. apply extended_height.
  - rewrite Vv, extended_height. unfold u32. apply N.Div0.mod_le.
  - right. intros kl' Hkl'. destruct Vl as [Vl|(p2 & b2 & Hj & Hb2 & Hj2)].
    + rewrite Vl, El, (Hold _ _ Hkl) in Hkl'. injection Hkl' as <-.
      destruct Alo as [Alo|Alo];
        [rewrite Alo, Hk in Hkl; injection Hkl as <-|specialize (Alo _ Hkl)]; lia.
    + rewrite Ej in Hj. injection Hj as <-.
      pose proof (extended_old _ _ Hk) as (b2' & Hb2' & Hbk)%skel_lookup.
      assert (b2' = b2) as -> by congruence. subst k.
      destruct (cached_node U cfg B U_zero _ _ _ _ T _ _ Act) as (k & Hnode & _).
      pose proof (proj1 Hnode) as Hk'. rewrite Hk in Hk'. injection Hk' as <-.
      pose proof (node_justify_linked U cfg B U_zero _ _ _ _ T _ _ _ Hnode Hj2) as Hl.
      destruct (linked_justify U cfg B U_zero _ _ _ _ T _ _ (proj1 Hnode) Hl)
        as (q & kq & Hq & [Hkq _] & _). simpl in Hq.
      assert (q = b_lock (st_core s')) as -> by (unfold get_justify in *; congruence).
      rewrite (Hold _ _ Hkq) in Hkl'. injection Hkl' as <-.
      pose proof (justify_lower cfg B U U_zero r G s _ _ _ _ I Hnode Hq Hkq). simpl in *. lia.
  - exists (skel b). by split_and!.
Qed.
End extended.
End handled.

(** ** A follower and a chain of proposals *)

(** Each block extends and certifies the one before it, the first [tip]. *)
Fixpoint chained `{Sodium, Xdr, BitVector} (cfg : ReplicaConfig) (tip : Hash)
    (hws : list (Hash * HotstuffBlockWire)) : Prop :=
  match hws with
  | [] => True
  | (h, w) :: hws => good_wire cfg h w ∧ parent_hash (header w) = tip ∧
      qcw_justify (header_qc (header w)) = tip ∧ chained cfg h hws
  end.

Section follower.
Context {i_sodium : Sodium} {i_xdr : Xdr} {i_bv : BitVector} {i_fs : Fs} {i_lmdb : LmdbLib}.
Context {V : Type} {i_bridge : VMBridge V} {i_blaws : VMBridgeLaws V}.
Context (cfg : ReplicaConfig) (B : gset ReplicaID) (U : Hash → option HotstuffBlockHeader).
Hypothesis U_zero : U zero_hash = None.
Hypothesis U_short : ∀ h n, ht U h n → (n < 2 ^ 32)%N.
Hypothesis cfg_wf : config_wf cfg.
Hypothesis few_faulty :
  (N.of_nat (size B) < nreplicas cfg - 2 * (nreplicas cfg / 3))%N.
Context (r ldr : ReplicaID).
Hypothesis r_member : r ∈ replicas cfg.
Hypothesis ldr_member : ldr ∈ replicas cfg.
Hypothesis ldr_other : ldr ≠ r.
Hypothesis can_sign : ∀ m sk, is_Some (crypto_sign_detached m sk).

Abbreviation AInv := (AppInv U cfg B r).
Abbreviation tr s := (skel <$> st_heap s).

(** The three threads of a replica on a proposal. *)
Definition handle_proposal (w : HotstuffBlockWire) : list (action V) :=
  [AProposeMsg (mkProposeMessage w ldr); ANetEvent; AEvent].

(** The replica has handled everything and would vote for a child of [tip];
    [work] waits for the leader. *)
Record ready (s : AppSt V) (tip : Hash) (tp : loc) (n : N) (work : list msg_t) : Prop := {
  rd_tip : at_tip s tip tp n;
  rd_events : a_events (st_env s) = [];
  rd_net : a_net_events (st_env s) = [];
  rd_work : other_clients (a_protocol (st_env s)) !! ldr = Some work;
}.

(** The first two threads. *)
Lemma proposal_linked G0 G1 s s1 tip tp n work h w :
  AInv G0 s → ready s tip tp n work → good_wire cfg h w →
  parent_hash (header w) = tip → qcw_justify (header_qc (header w)) = tip →
  cache s !! h = None → outstanding_reqs (a_fetch (st_env s)) !! h = None →
  run_action (AProposeMsg (mkProposeMessage w ldr)) s = Ok tt s1 → AInv G1 s1 →
  let p := fresh (dom (st_heap s)) in
  ∃ s2, run_action ANetEvent s1 = Ok tt s2 ∧
    extends s s2 tp n h p (stored_block w h ldr tp n tp) ∧
    a_events (st_env s2) = [EProposal (mkProposalEvent ldr p)] ∧ a_net_events (st_env s2) = [] ∧
    a_protocol (st_env s2) = a_protocol (st_env s).
Proof using All.
  intros I0 [[Hct (k & Hk & Hn) Hvo Hlo] Hev Hnet Hw] Hgw Hpar Hjus Hch Hout Hrun I1 p.
  destruct (ai_good _ _ _ _ _ _ I0) as (_ & RI & _).
  destruct (ai_good _ _ _ _ _ _ I1) as (_ & RI1 & _).
  pose proof (ri_tree _ _ _ _ _ _ _ _ _ RI) as T.
  pose proof (ti_wf _ _ _ _ _ _ _ (ri_tree _ _ _ _ _ _ _ _ _ RI1)) as Hwf1.
  assert (Hp : st_heap s !! p = None) by (apply not_elem_of_dom, is_fresh).
  pose proof (propose_received cfg s h w ldr (ri_config _ _ _ _ _ _ _ _ _ RI) ldr_member Hgw) as Hr.
  fold p in Hr. simpl in Hr, Hrun. rewrite Hr in Hrun. injection Hrun as Hs1.
  pose proof Hk as (tb & Htb & <-)%skel_lookup.
  assert (Hne : p ≠ tp) by (intros ->; congruence).
  pose proof (proposal_stored s1 p h w ldr tp tb tp) as Hs. subst s1. simpl in Hs.
  eexists. split; [apply Hs|].
  - by rewrite Hnet.
  - exact Hwf1.
  - by rewrite lookup_insert_eq.
  - intros Heq. pose proof (tw_genesis _ _ _ (ti_wf _ _ _ _ _ _ _ T)) as (gb & Hgb & _)%skel_lookup.
    rewrite <- Heq in Hgb. congruence.
  - by rewrite Hpar.
  - by rewrite Hjus.
  - by rewrite lookup_insert_ne.
  - pose proof (ti_bound _ _ _ _ _ _ _ T _ _ Hk). simpl in *. unfold get_height.
    change (2 ^ 64)%N with (2 ^ 32 * 2 ^ 32)%N. lia.
  - exact Hch.
  - exact Hout.
  - split; [split|]; simpl; rewrite ?insert_insert_eq, ?Hev; try done. by rewrite <- Hn.
Qed.

Context (sk : ReplicaID → SecretKey) (vm : V).
Abbreviation reach net := (reachable cfg B U (block_arrival U cfg B) sk vm net).

(** All three threads, other replicas moving in between. *)
Lemma proposal_followed acts net net' w h s tip tp n work s' :
  ran cfg B U r (handle_proposal w ++ acts) net net' →
  reach net → net_reps net !! r = Some (mkReplica s None) → ready s tip tp n work →
  good_wire cfg h w → parent_hash (header w) = tip → qcw_justify (header_qc (header w)) = tip →
  cache s !! h = None → outstanding_reqs (a_fetch (st_env s)) !! h = None →
  net_reps net' !! r = Some (mkReplica s' None) →
  ∃ n3 s3 p sig, reach n3 ∧ net_reps n3 !! r = Some (mkReplica s3 None) ∧
    ran cfg B U r acts n3 net' ∧
    crypto_sign_detached h (a_secret_key (st_env s)) = Some sig ∧
    ready s3 h p (n + 1) (work ++ [vote_message r h sig]) ∧ advanced s s3 h p tp.
Proof using All.
  intros Hran Hr Hs Hrd Hgw Hpar Hjus Hch Hout Hs'.
  destruct (ran_first _ _ _ _ _ _ _ _ _ _ _ _ Hran Hr Hs Hs') as (n1 & s1 & Hrun1 & R1 & Hs1 & Hran1).
  destruct (ran_first _ _ _ _ _ _ _ _ _ _ _ _ Hran1 R1 Hs1 Hs') as (n2 & s2 & Hrun2 & R2 & Hs2 & Hran2).
  destruct (ran_first _ _ _ _ _ _ _ _ _ _ _ _ Hran2 R2 Hs2 Hs') as (n3 & s3 & Hrun3 & R3 & Hs3 & Hran3).
  pose proof (running_AInv cfg B U U_zero U_short cfg_wf few_faulty r sk vm) as HI.
  pose proof (HI _ _ Hr Hs) as I0. pose proof (HI _ _ R2 Hs2) as I2.
  destruct (proposal_linked _ _ s s1 tip tp n work h w I0 Hrd Hgw Hpar Hjus Hch Hout Hrun1
    (HI _ _ R1 Hs1)) as (s2' & Hrun2' & E & Hev & Hnn & Hpr).
  rewrite Hrun2 in Hrun2'. injection Hrun2' as <-. set (p := fresh (dom (st_heap s))) in *.
  destruct (proposal_taken cfg B U U_zero U_short cfg_wf few_faulty r ldr r_member ldr_member
    _ _ s s2 tip tp n h p _ I0 I2 (rd_tip _ _ _ _ _ Hrd) E s3 Hev Hrun3) as (Hop & Hon & Hf & Hdec).
  destruct (can_sign h (a_secret_key (st_env s))) as [sig Hsig].
  destruct (ai_self _ _ _ _ _ _ I0) as [Hself _].
  pose proof (vote_cast (set_st_events [] s2) p _ ldr work sig
    (eq_trans (f_equal (lookup p) (ex_heap _ _ _ _ _ _ _ E)) (lookup_insert_eq _ _ _)) Hop) as Hv.
  unfold wp in Hv. rewrite Hon in Hv. destruct Hv as [Vf Ve Vn Vk Vs Vw _ Vc].
  { simpl. by rewrite Hpr, Hself. }
  { simpl. rewrite Hpr. apply Hrd. }
  { simpl. by rewrite (ex_key _ _ _ _ _ _ _ E). }
  destruct (tip_moved cfg B U U_zero few_faulty r _ s s2 tip tp n h p _ I0 (rd_tip _ _ _ _ _ Hrd) E
    s3 Vc Hf) as [Ha Hadv]; try done.
  { by rewrite Vf, <- (ex_fetch _ _ _ _ _ _ _ E). }
  { by rewrite Vk, <- (ex_key _ _ _ _ _ _ _ E). }
  exists n3, s3, p, sig. split_and!; try done. split; [done|done|by rewrite Vn|].
  rewrite Vw. simpl. by rewrite Hpr, Hself.
Qed.

(** The outcome after [hws]: votes queued, blocks stored and decided. *)
Definition followed (s : AppSt V) (tip : Hash) (path : list Hash) (n : N) (work : list msg_t)
    (hws : list (Hash * HotstuffBlockWire)) (s' : AppSt V) : Prop :=
  ∃ sigs tip' tp',
    Forall2 (λ h sig, crypto_sign_detached h (a_secret_key (st_env s)) = Some sig) hws.*1 sigs ∧
    ready s' tip' tp' (n + N.of_nat (length hws)) (work ++ zip_with (vote_message r) hws.*1 sigs) ∧
    stacked s' (reverse hws.*1 ++ tip :: path).

Lemma chain_followed hws net net' s path tip tp n work s' :
  ran cfg B U r (concat (handle_proposal <$> hws.*2)) net net' → reach net →
  net_reps net !! r = Some (mkReplica s None) →
  ready s tip tp n work → stacked s (tip :: path) → chained cfg tip hws → unseen s hws.*1 →
  NoDup hws.*1 → net_reps net' !! r = Some (mkReplica s' None) →
  followed s tip path n work hws s'.
Proof using All.
  revert net s path tip tp n work. induction hws as [|[h w] hws IH];
    intros net s path tip tp n work Hf Hr Hs Hrd Hd Hch Hun Hnd Hs'; simpl in Hf.
  { rewrite (ran_none _ _ _ _ sk vm _ _ _ _ Hf Hs Hs').
    exists [], tip, tp. simpl. rewrite N.add_0_r, app_nil_r. by split_and!. }
  destruct Hch as (Hgw & Hpar & Hjus & Hch). rewrite fmap_cons in Hun, Hnd. simpl in Hun, Hnd.
  apply NoDup_cons in Hnd as [Hnin Hnd]. destruct (Hun h) as [Hc Ho]; [by left|].
  destruct (proposal_followed _ net net' w h s tip tp n work s' Hf)
    as (n3 & s3 & p & sig & R3 & Hs3 & Hran & Hsig & Hrd3 & Hadv); try done.
  destruct (IH n3 s3 (tip :: path) h p (n + 1)%N (work ++ [vote_message r h sig]))
    as (sigs & tip' & tp' & Hsigs & Hrd' & Hd'); try done.
  { eapply stacked_push; [done|apply Hrd|apply Hd]. }
  { eapply unseen_grown; [apply Hadv|done|]. intros x Hx. apply Hun. by right. }
  exists (sig :: sigs), tip', tp'. rewrite fmap_cons, reverse_cons, <- app_assoc. simpl.
  rewrite (gr_key _ _ _ _ _ (proj1 Hadv)) in Hsigs. split_and!; [by constructor| |done].
  rewrite <- app_assoc in Hrd'. simpl in Hrd'.
  by replace (n + N.of_nat (S (length hws)))%N with (n + 1 + N.of_nat (length hws))%N by lia.
Qed.
End follower.
