(* ===== verification/Leader.v ===== *)
(** * A leader makes progress

    What a leader does in a round: it proposes, votes for its own block, and
    counts the votes that come back until they certify the block.  Then a chain
    of rounds, and the cluster: the leader and a quorum of followers that
    receive its proposals and whose votes it receives decide its chain. *)

From S2P Require Import Prelude Types ReplicaConfig Certs IoUtils Block BlockStore Lmdb.
From S2P Require Import Consensus Events FetchManager App Safety ReplicaInv StoreInv AppInv.
From S2P Require Import Network Votes Runs Progress.

(** ** Proposing *)

Section propose.
Context {i_sodium : Sodium} {i_xdr : Xdr} {i_bv : BitVector} {i_fs : Fs} {i_lmdb : LmdbLib}.
Context {V : Type} {i_bridge : VMBridge V}.

(** A block as it is minted, and once it is in the store. *)
Definition minted (w : HotstuffBlockWire) (h : Hash) (self : ReplicaID) : HotstuffBlock :=
  mkBlock w (Some (QC_of_wire (header_qc (header w)))) self 0 None None (QC_new h)
    false false false false false.
Definition minted_block (w : HotstuffBlockWire) (h : Hash) (self : ReplicaID) (pp : loc) (n : N)
    (jp : loc) : HotstuffBlock :=
  set_justify (set_parent (minted w h self) pp n) jp.

(** A block on [lb] that carries the highest certificate of the core. *)
Definition proposes (co : HotstuffCore) (lb : HotstuffBlock) (h : Hash) (w : HotstuffBlockWire)
  : Prop :=
  crypto_generichash (xdr_header (header w)) = Some h ∧
  crypto_generichash (xdr_opaque (body w)) = Some (body_hash (header w)) ∧
  parent_hash (header w) = get_hash lb ∧ header_qc (header w) = (hqc co).2.

Lemma mint_exact nonempty (s : AppSt V) lb ne b s1 :
  st_heap s !! b_leaf (st_core s) = Some lb → nonempty lb s = Ok ne s →
  mint_proposal nonempty s = Ok b s1 →
  ∃ w h v, proposes (st_core s) lb h w ∧ b = minted w h (self_id (st_core s)) ∧
    s1 = mkSt (st_heap s) (st_disk s) (st_core s) (set_vm v (st_env s)).
Proof.
  intros Hlb Hne. unfold mint_proposal, bind, core, gets, read, deref. rewrite Hlb. simpl.
  rewrite Hne. unfold in_env, in_vm, zoom. simpl.
  destruct (get_next_vm_block ne _ (a_vm (st_env s))) as [bd v|]; [|done]. simpl.
  unfold mint_block, receive_block, bind, hash_xdr.
  destruct (crypto_generichash (xdr_opaque bd)) as [bh|] eqn:Hbh; [|done]. simpl.
  destruct (crypto_generichash (xdr_header _)) as [h|] eqn:Hh; [|done]. simpl. intros [= <- <-].
  by exists (mkWire (mkHeader (get_hash lb) (hqc (st_core s)).2 bh) bd), h, v.
Qed.

Lemma broadcast_exact hp p b (e : AppBase V) :
  hp !! p = Some b → get_height b ≠ 0%N →
  broadcast_proposal hp p e = Ok tt
    (set_clients ((λ work, work ++ [MPropose (mkProposeMessage (wire_block b)
        (pm_self_id (a_protocol e)))]) <$> other_clients (a_protocol e))
      (set_events (a_events e ++ [EProposal (mkProposalEvent (pm_self_id (a_protocol e)) p)]) e)).
Proof.
  intros Hb Hn. unfold broadcast_proposal, self_propose, bind, gets.
  rewrite (queue_proposal _ _ b) by done. unfold deref. by rewrite Hb.
Qed.

(** The state after the proposal of [w]: stored at [p], on the block at [tp], sent to everyone. *)
Definition proposed_state (s : AppSt V) (w : HotstuffBlockWire) (h : Hash) (tp : loc) (n : N) (v : V)
  : AppSt V :=
  let p := fresh (dom (st_heap s)) in
  let self := self_id (st_core s) in
  let e := st_env s in
  mkSt (<[p := minted_block w h self tp n tp]> (st_heap s)) (st_disk s)
    (set_b_leaf p (st_core s))
    (set_clients ((λ work, work ++ [MPropose (mkProposeMessage w self)]) <$>
        other_clients (a_protocol e))
      (set_events (a_events e ++ [EProposal (mkProposalEvent self p)])
        (set_store (mkStore (cache_emplace h p (block_cache (a_store e)))
            (gc_add_block p (gc_collector (a_store e))))
          (set_vm v e)))).

Lemma propose_exact nonempty (s : AppSt V) tp lb ne h s1 :
  tree_wf (core_genesis (st_core s)) (skel <$> st_heap s) (block_cache (a_store (st_env s))) →
  pm_self_id (a_protocol (st_env s)) = self_id (st_core s) →
  b_leaf (st_core s) = tp → st_heap s !! tp = Some lb → nonempty lb s = Ok ne s →
  block_cache (a_store (st_env s)) !! get_hash lb = Some tp →
  qcw_justify (hqc (st_core s)).2 = get_hash lb → (get_height lb + 1 < 2 ^ 64)%N →
  propose_with nonempty s = Ok h s1 →
  ∃ w v, proposes (st_core s) lb h w ∧ s1 = proposed_state s w h tp (get_height lb) v.
Proof.
  intros Hwf Hself Hleaf Hlb Hne Hct Hq Hn. subst tp. unfold propose_with.
  rewrite bind_Ok. intros (b & s2 & Hm & Hrest).
  destruct (mint_exact _ _ _ _ _ _ Hlb Hne Hm) as (w & h' & v & Hw & -> & ->).
  exists w, v. set (p := fresh (dom (st_heap s))).
  assert (Hp : st_heap s !! p = None) by (apply not_elem_of_dom, is_fresh).
  assert (Hpg : p ≠ core_genesis (st_core s)).
  { intros Heq. pose proof (tw_genesis _ _ _ Hwf) as (gb & Hgb & _)%skel_lookup.
    rewrite <- Heq in Hgb. congruence. }
  assert (Hpl : p ≠ b_leaf (st_core s)) by (intros Heq; rewrite Heq in Hp; congruence).
  pose proof Hw as (Hhh & Hbh & Hpar & Hqc).
  set (m := minted w h' (self_id (st_core s))) in *.
  assert (Hwf' : tree_wf (core_genesis (st_core s)) (skel <$> <[p := m]> (st_heap s))
    (block_cache (a_store (st_env s)))).
  { rewrite fmap_insert. apply tree_wf_alloc; [done| |by split_and!|done].
    by rewrite lookup_fmap, Hp. }
  pose proof (insert_block_spec _ _ (a_store (st_env s)) p m Hwf' (lookup_insert_eq _ _ _) Hpg) as Hins.
  simpl in Hins. change (get_parent_hash m) with (parent_hash (header w)) in Hins.
  rewrite Hpar, Hqc, Hq, Hct in Hins. destruct Hins as (pb & Hpb & Hins).
  rewrite lookup_insert_ne, Hlb in Hpb by done. injection Hpb as <-.
  rewrite insert_insert_eq in Hins.
  revert Hrest. unfold bind at 1, new_block, alloc. simpl. fold p.
  unfold bind at 1, store_insert, zoom. simpl. rewrite Hins. simpl.
  unfold bind, in_core, modify, in_env, zoom. simpl.
  rewrite (broadcast_exact _ _ (set_justify (set_parent m (b_leaf (st_core s)) (get_height lb))
    (b_leaf (st_core s)))); [|apply lookup_insert_eq|].
  2: { change (u64 (get_height lb + 1) ≠ 0%N). rewrite u64_small by done. lia. }
  simpl. change (get_hash m) with h'. rewrite Hself. intros [= <- <-].
  by split.
Qed.
End propose.

(** ** The leader's own vote *)

Section own_vote.
Context {i_sodium : Sodium} {i_xdr : Xdr} {i_bv : BitVector} {i_fs : Fs} {i_lmdb : LmdbLib}.
Context {V : Type} {i_bridge : VMBridge V}.

(** The state after the leader's vote on its own block [b] at [p]. *)
Record self_voted (s : AppSt V) (b : HotstuffBlock) (p : loc) (sig : Signature) (s' : AppSt V)
  : Prop := {
  sv_fetch : a_fetch (st_env s') = a_fetch (st_env s);
  sv_events : a_events (st_env s') = a_events (st_env s) ++
    [EVote (mkVoteEvent (pm_self_id (a_protocol (st_env s))) (mkPC (get_hash b) sig) p)];
  sv_net : a_net_events (st_env s') = a_net_events (st_env s);
  sv_key : a_secret_key (st_env s') = a_secret_key (st_env s);
  sv_protocol : a_protocol (st_env s') = a_protocol (st_env s);
  sv_core : voted_core s b s';
  sv_high : high_kept s s';
}.

Lemma queue_vote hp ve b (e : AppBase V) :
  hp !! ve_block ve = Some b → get_hash b = pc_hash (ve_cert ve) →
  event_queue_add hp (EVote ve) e = Ok tt (set_events (a_events e ++ [EVote ve]) e).
Proof.
  intros Hb Hh. unfold event_queue_add, bind. simpl. unfold VoteEvent_validate, bind, deref.
  rewrite Hb. simpl. by rewrite bool_decide_true by done.
Qed.

Lemma own_vote_cast s p b sig :
  st_heap s !! p = Some b → opinion p s = Ok true s →
  get_justify b = Some (hqc (st_core s)).1 →
  crypto_sign_detached (get_hash b) (a_secret_key (st_env s)) = Some sig →
  wp (on_receive_proposal p (pm_self_id (a_protocol (st_env s))))
    (λ _ s', self_voted s b p sig s') (λ _ _, True) s.
Proof.
  intros Hb Hop Hj Hsig. unfold on_receive_proposal.
  apply wp_bind. eapply wp_run; [exact Hop|]. apply wp_bind. apply wp_when; [intros _|done].
  apply wp_bind, (wp_read _ _ b); [done|]. apply wp_bind, wp_modify. unfold in_env. apply wp_zoom.
  change (do_vote (st_heap s)) with (app_do_vote (V := V) (st_heap s)). unfold app_do_vote.
  apply wp_bind. unfold wp at 1, deref. simpl. rewrite Hb. apply wp_bind, wp_gets.
  apply wp_bind. unfold wp at 1, PC_sign. rewrite Hsig. apply wp_bind, wp_modify.
  unfold send_vote_to. apply wp_bind, wp_gets. simpl. rewrite N.eqb_refl. unfold self_vote.
  unfold wp at 1. rewrite (queue_vote _ _ b) by done. set (s1 := mkSt _ _ _ _).
  eapply wp_mono; [apply wp_and; [apply (update_still p)|
    apply wp_and; [by apply (update_lock_moved s1 p b)|by eapply (update_high_kept s1 p b)]]| |done].
  intros _ s' [(F & Ev & Nt & Pr & Ke & Si) [Hcore Hhigh]]. by split.
Qed.
End own_vote.

(** ** Counting the votes *)

Section count.
Context {i_sodium : Sodium} {i_xdr : Xdr} {i_bv : BitVector} {i_fs : Fs} {i_lmdb : LmdbLib}.
Context {i_bvlaws : BitVectorLaws} {V : Type} {i_bridge : VMBridge V}.

(** What counting a vote leaves alone. *)
Definition vote_frame (s s' : AppSt V) : Prop :=
  core_kept s s' ∧ still (st_env s) (st_env s') ∧
  a_store (st_env s') = a_store (st_env s) ∧ config (st_core s') = config (st_core s).

Lemma vote_frame_po : PreOrder vote_frame.
Proof.
  split; [done|]. intros x y z ([??] & Ha & ? & ?) ([??] & Hb & ? & ?).
  split_and!; try congruence; [split; congruence|by etransitivity].
Qed.

Lemma on_receive_vote_frame pc p v (s : AppSt V) :
  wp (on_receive_vote pc p v) (λ _ s', vote_frame s s') (λ _ _, True) s.
Proof.
  unfold on_receive_vote, wp, bind, read, deref. destruct (st_heap s !! p) as [b|]; [|done]. simpl.
  destruct (add_partial_certificate v pc (get_self_qc b)) as [[] qc|]; [|done]. simpl.
  unfold when. destruct (_ && _); simpl; [|done].
  unfold update_hqc, bind, read, deref. simpl.
  rewrite lookup_insert_eq. simpl.
  destruct (_ !! (hqc (st_core s)).1) as [hb|]; [|done]. simpl.
  destruct (get_height hb <? _)%N; simpl; [|by split_and!].
  destruct (negb _); simpl; by split_and!.
Qed.

(** The three threads of a replica on a vote. *)
Definition handle_vote (v : VoteMessage) : list (action V) := [AVoteMsg v; ANetEvent; AEvent].

(** They count it: nothing else was queued, and the vote is for a stored block
    and its signature is valid. *)
Lemma vote_handled (s : AppSt V) v p b info s1 s2 :
  a_events (st_env s) = [] → a_net_events (st_env s) = [] →
  replica_map (config (st_core s)) !! vm_voter v = Some info →
  check_sig (pc_sig (vm_vote v)) (pc_hash (vm_vote v)) (pk info) = true →
  block_cache (a_store (st_env s)) !! pc_hash (vm_vote v) = Some p →
  st_heap s !! p = Some b → get_hash b = pc_hash (vm_vote v) →
  run_action (AVoteMsg v) s = Ok tt s1 → run_action ANetEvent s1 = Ok tt s2 →
  run_action AEvent s2 = on_receive_vote (vm_vote v) p (vm_voter v) s.
Proof.
  intros Hev Hne Hi Hsig Hc Hb Hh. simpl. unfold handler_vote, bind, core, gets. simpl.
  unfold is_valid_replica. rewrite bool_decide_true by by rewrite Hi. simpl.
  unfold net_queue_add, bind, core, gets, zoom. simpl.
  unfold VoteNetEvent_validate, bind, get_info. simpl. rewrite Hi. simpl.
  unfold PC_validate. rewrite Hsig. simpl. intros [= <-].
  unfold run_head, st_net_events. simpl. rewrite Hne. simpl.
  unfold on_net_event, bind, gets, get_block. simpl. rewrite Hc.
  unfold in_env, zoom, vote_to_event. simpl.
  rewrite (queue_vote _ _ b) by done. simpl. intros [= <-].
  unfold st_events. simpl. rewrite Hev. simpl. f_equal.
  destruct s as [hp d co e]. unfold set_st_events, set_st_net_events. simpl in *. f_equal.
  destruct e. simpl in *. by rewrite Hev, Hne.
Qed.
End count.

(** ** A round of the leader *)

Section leader.
Context {i_sodium : Sodium} {i_xdr : Xdr} {i_bv : BitVector} {i_fs : Fs} {i_lmdb : LmdbLib}.
Context {i_bvlaws : BitVectorLaws} {V : Type} {i_bridge : VMBridge V} {i_blaws : VMBridgeLaws V}.
Context (cfg : ReplicaConfig) (B : gset ReplicaID) (U : Hash → option HotstuffBlockHeader).
Hypothesis U_zero : U zero_hash = None.
Hypothesis U_short : ∀ h n, ht U h n → (n < 2 ^ 32)%N.
Hypothesis cfg_wf : config_wf cfg.
Hypothesis few_faulty :
  (N.of_nat (size B) < nreplicas cfg - 2 * (nreplicas cfg / 3))%N.
Context (ldr : ReplicaID).
Hypothesis ldr_member : ldr ∈ replicas cfg.
Hypothesis can_sign : ∀ m sk, is_Some (crypto_sign_detached m sk).

Abbreviation AInv := (AppInv U cfg B ldr).
Abbreviation tr s := (skel <$> st_heap s).

(** The leader has handled everything, and its highest certificate is a valid
    one for [tip], on which it proposes next. *)
Record leading (s : AppSt V) (tip : Hash) (tp : loc) (n : N) : Prop := {
  le_tip : at_tip s tip tp n;
  le_events : a_events (st_env s) = [];
  le_net : a_net_events (st_env s) = [];
  le_leaf : b_leaf (st_core s) = tp;
  le_high : (hqc (st_core s)).1 = tp;
  le_cert : qcw_justify (hqc (st_core s)).2 = tip;
  le_valid : verify cfg (QC_of_wire (hqc (st_core s)).2) tt = Ok true tt;
}.

(** Propose a block, or an empty one; take the own proposal and the own vote;
    take the votes of the others. *)
Definition propose_action (empty : bool) : action V := if empty then AEmptyPropose else APropose.
Definition lead_round (round : bool * list VoteMessage) : list (action V) :=
  propose_action round.1 :: AEvent :: AEvent :: concat (handle_vote <$> round.2).

Definition proposal_message (w : HotstuffBlockWire) : msg_t := MPropose (mkProposeMessage w ldr).

(** A replica whose signatures verify under its configured key. *)
Definition own_key (r : ReplicaID) (s : AppSt V) : Prop := ∀ h sig,
  crypto_sign_detached h (a_secret_key (st_env s)) = Some sig → good_vote cfg h (r, sig).

Definition vote_of (v : VoteMessage) : ReplicaID * Signature := (vm_voter v, pc_sig (vm_vote v)).

(** With the leader's, the votes of a quorum on [h]. *)
Definition certifying (h : Hash) (vs : list VoteMessage) : Prop :=
  Forall (λ v, pc_hash (vm_vote v) = h ∧ good_vote cfg h (vote_of v)) vs ∧
  (nmajority cfg ≤ N.of_nat (size (list_to_set (ldr :: (vm_voter <$> vs)) : gset ReplicaID)))%N.

(** The first action of a round. *)
Lemma round_proposed G s s1 e tip tp n :
  AInv G s → leading s tip tp n → run_action (propose_action e) s = Ok tt s1 →
  ∃ h w v, good_wire cfg h w ∧ parent_hash (header w) = tip ∧
    qcw_justify (header_qc (header w)) = tip ∧ s1 = proposed_state s w h tp n v.
Proof using All.
  intros I [[Act (k & Hk & Hn) _ _] Lev Lne Llf Lhi Lce Lva] Hrun.
  destruct (ai_good _ _ _ _ _ _ I) as (_ & RI & _). pose proof (ri_tree _ _ _ _ _ _ _ _ _ RI) as T.
  destruct (ai_self _ _ _ _ _ _ I) as [Hself _].
  assert (Hne : ∃ ne, chooses U cfg B ldr ne ∧ ∃ h, propose_with ne s = Ok h s1).
  { destruct e; simpl in Hrun; apply bind_Ok in Hrun as (h & s2 & Hp & [= <-]).
    - exists always_empty. split; [apply always_empty_chooses|by exists h].
    - exists supports_nonempty. split; [by apply supports_nonempty_chooses|by exists h]. }
  destruct Hne as (ne & Hne & h & Hp).
  destruct (cached_node U cfg B U_zero _ _ _ _ T _ _ Act) as (k' & Hnode & Hhash).
  assert (k' = k) as -> by (destruct Hnode; congruence).
  pose proof Hk as (lb & Hlb & <-)%skel_lookup. destruct (Hne G s tp lb I Hnode) as [b Hb].
  simpl in Hhash. destruct (propose_exact ne s tp lb b h s1) as (w & v & (Hh & Hbh & Hpar & Hqc) & ->);
    try done.
  - apply (ti_wf _ _ _ _ _ _ _ T).
  - rewrite Hself. symmetry. apply (ri_self _ _ _ _ _ _ _ _ _ RI).
  - by rewrite Hhash.
  - by rewrite Hhash.
  - pose proof (ti_bound _ _ _ _ _ _ _ T _ _ Hk) as Hbd. simpl in Hbd. unfold get_height.
    change (2 ^ 64)%N with (2 ^ 32 * 2 ^ 32)%N. clear few_faulty. lia.
  - exists h, w, v. rewrite Hqc, Hpar. split_and!; try done; [split_and!; [done..|by rewrite Hqc]|].
    by subst n.
Qed.

(** The proposed block, when it is a new one. *)
Lemma proposed_extends s tip tp n h w v :
  leading s tip tp n → self_id (st_core s) = ldr → cache s !! h = None →
  let p := fresh (dom (st_heap s)) in
  extends s (proposed_state s w h tp n v) tp n h p (minted_block w h ldr tp n tp).
Proof.
  intros L Hs Hc p. split; try done; simpl; rewrite ?Hs; try done.
  - apply not_elem_of_dom, is_fresh.
  - change (cache_emplace h p (cache s) = <[h := p]> (cache s)). unfold cache_emplace. by rewrite Hc.
Qed.

Context (sk : ReplicaID → SecretKey) (vm : V).
Abbreviation reach net := (reachable cfg B U (block_arrival U cfg B) sk vm net).

(** Counting from [s0], where nothing is queued and the block [b] is above the
    highest certificate. *)
Record counting_from (s0 : AppSt V) (p : loc) (b : HotstuffBlock) : Prop := {
  cf_events : a_events (st_env s0) = [];
  cf_net : a_net_events (st_env s0) = [];
  cf_config : config (st_core s0) = cfg;
  cf_cache : cache s0 !! get_hash b = Some p;
  cf_block : st_heap s0 !! p = Some b;
  cf_above : ∃ hb, st_heap s0 !! (hqc (st_core s0)).1 = Some hb ∧ (get_height hb < get_height b)%N;
}.

Definition so_far (s0 : AppSt V) (p : loc) (b : HotstuffBlock) (seen : list (ReplicaID * Signature))
    (s : AppSt V) : Prop :=
  vote_frame s0 s ∧ counted s0 p b seen s.

(** A vote is counted. *)
Lemma vote_counted s0 p b seen s v s' :
  counting_from s0 p b → so_far s0 p b seen s → (v.1 < MAX_REPLICAS)%N →
  on_receive_vote (mkPC (get_hash b) v.2) p v.1 s = Ok tt s' → so_far s0 p b (seen ++ [v]) s'.
Proof.
  intros [_ _ Cc _ Cb (hb & Hhb & Hlt)] [Hf Hc] Hv Hrun. split.
  - pose proof (on_receive_vote_frame (mkPC (get_hash b) v.2) p v.1 s) as Hf'. unfold wp in Hf'.
    rewrite Hrun in Hf'. by eapply (PreOrder_Transitive (PreOrder := vote_frame_po)).
  - pose proof (counted_step s0 p b hb seen v s Cb Hhb Hlt Hv Hc) as Hw. unfold wp in Hw.
    by rewrite Hrun in Hw.
Qed.

Lemma votes_counted vs acts net net' s0 p b seen s s' :
  ran cfg B U ldr (concat (handle_vote <$> vs) ++ acts) net net' → reach net →
  net_reps net !! ldr = Some (mkReplica s None) → net_reps net' !! ldr = Some (mkReplica s' None) →
  counting_from s0 p b → so_far s0 p b seen s →
  Forall (λ v, pc_hash (vm_vote v) = get_hash b ∧ good_vote cfg (get_hash b) (vote_of v)) vs →
  ∃ n1 s1, reach n1 ∧ net_reps n1 !! ldr = Some (mkReplica s1 None) ∧
    ran cfg B U ldr acts n1 net' ∧ so_far s0 p b (seen ++ (vote_of <$> vs)) s1.
Proof using All.
  intros Hran Hr Hs Hs' C. revert net seen s Hran Hr Hs.
  induction vs as [|v vs IH]; intros net seen s Hran Hr Hs Hsf Hall.
  { exists net, s. by rewrite app_nil_r. }
  apply Forall_cons in Hall as [[Hpc Hgv] Hall].
  change (ran cfg B U ldr (AVoteMsg v :: ANetEvent :: AEvent :: (concat (handle_vote <$> vs) ++ acts))
    net net') in Hran.
  destruct (ran_first _ _ _ _ _ _ _ _ _ _ _ _ Hran Hr Hs Hs') as (n1 & s1 & Hrun1 & R1 & Hs1 & Hran1).
  destruct (ran_first _ _ _ _ _ _ _ _ _ _ _ _ Hran1 R1 Hs1 Hs') as (n2 & s2 & Hrun2 & R2 & Hs2 & Hran2).
  destruct (ran_first _ _ _ _ _ _ _ _ _ _ _ _ Hran2 R2 Hs2 Hs') as (n3 & s3 & Hrun3 & R3 & Hs3 & Hran3).
  pose proof Hsf as [(_ & (_ & Fe & Fn & _) & Fs & Fc) (_ & qc & Hheap & (Hqc & _) & _)].
  pose proof C as [Ce Cn Cc Cca Cb _]. destruct Hgv as (Hmem & Hlt & Hsig).
  unfold signer_valid in Hsig. apply elem_of_replicas in Hmem as [info Hinfo].
  simpl in Hinfo, Hsig. rewrite Hinfo in Hsig.
  rewrite (vote_handled s v p (with_self_qc b qc) info s1 s2) in Hrun3; try done.
  - destruct v as [[vh vsig] voter]. simpl in *. subst vh.
    destruct (IH n3 (seen ++ [(voter, vsig)]) s3) as (n4 & s4 & ? & ? & ? & Hsf'); try done.
    { by eapply (vote_counted s0 p b seen s (voter, vsig)). }
    exists n4, s4. by rewrite <- app_assoc in Hsf'.
  - by rewrite Fe.
  - by rewrite Fn.
  - by rewrite Fc, Cc.
  - by rewrite Hpc.
  - rewrite Fs, Hpc. exact Cca.
  - by rewrite Hheap, lookup_insert_eq.
  - rewrite Hpc. exact Hqc.
Qed.

(** Counting moves neither the blocks nor what the replica votes for. *)
Lemma counted_skel s0 p b seen s :
  counting_from s0 p b → so_far s0 p b seen s →
  cache s = cache s0 ∧ tr s = tr s0 ∧ core_kept s0 s ∧
  ∀ q, decided_in s0 q → decided_in s q.
Proof.
  intros [_ _ _ _ Cb _] [(Hk & _ & Hst & _) (_ & qc & Hheap & (Hqc & _) & _)].
  split; [unfold cache; simpl; by rewrite Hst|]. split; [|split; [done|]].
  - rewrite Hheap, fmap_insert, insert_id; [done|]. rewrite lookup_fmap, Cb. simpl. f_equal.
    unfold skel, get_hash in *. simpl. by rewrite Hqc.
  - intros q (bq & Hbq & Hd). unfold decided_in. rewrite Hheap.
    destruct (decide (q = p)) as [->|Hne]; [|rewrite lookup_insert_ne by done; eauto].
    rewrite lookup_insert_eq. assert (bq = b) as -> by congruence. eauto.
Qed.

Lemma at_tip_same (s s' : AppSt V) tip tp n :
  cache s' = cache s → tr s' = tr s → core_kept s s' → at_tip s tip tp n → at_tip s' tip tp n.
Proof. intros Hc Ht [Hl Hv] [A1 A2 A3 A4]. split; by rewrite ?Hc, ?Ht, ?Hl, ?Hv. Qed.

Lemma advanced_same s s' s'' h p tp :
  cache s'' = cache s' → tr s'' = tr s' → (∀ q, decided_in s' q → decided_in s'' q) →
  a_fetch (st_env s'') = a_fetch (st_env s') → a_secret_key (st_env s'') = a_secret_key (st_env s') →
  advanced (V := V) s s' h p tp → advanced s s'' h p tp.
Proof.
  intros Hc Ht Hd Hf Hk [[G1 G2 G3 G4 G5 G6] Hdec]. split; [|by auto].
  split; rewrite ?Hc, ?Ht, ?Hf, ?Hk; done.
Qed.

(** The leader has taken its own proposal: the vote [sig] on it is queued. *)
Record own_taken (s s1 s2 : AppSt V) (h : Hash) (p tp : loc) (n : N) (b : HotstuffBlock)
    (sig : Signature) : Prop := {
  ot_sig : crypto_sign_detached h (a_secret_key (st_env s)) = Some sig;
  ot_events : a_events (st_env s2) = [EVote (mkVoteEvent ldr (mkPC h sig) p)];
  ot_net : a_net_events (st_env s2) = [];
  ot_protocol : a_protocol (st_env s2) = a_protocol (st_env s1);
  ot_block : st_heap s2 !! p = Some b;
  ot_qc : self_qc b = QC_new h;
  ot_height : get_height b = (n + 1)%N;
  ot_high : (hqc (st_core s2)).1 = tp;
  ot_tip : at_tip s2 h p (n + 1);
  ot_advanced : advanced s s2 h p tp;
}.

Lemma own_proposal_taken G G1 s s1 s2 tip tp n h w v :
  AInv G s → leading s tip tp n → cache s !! h = None → s1 = proposed_state s w h tp n v →
  AInv G1 s1 → run_action AEvent s1 = Ok tt s2 →
  ∃ b sig, own_taken s s1 s2 h (fresh (dom (st_heap s))) tp n b sig.
Proof using All.
  intros I L Hc Hs1 I1 Hrun1. set (p := fresh (dom (st_heap s))).
  destruct (ai_good _ _ _ _ _ _ I) as (_ & RI & _). destruct (ri_self _ _ _ _ _ _ _ _ _ RI) as [Hid _].
  pose proof (proposed_extends s tip tp n h w v L Hid Hc) as E. fold p in E. rewrite <- Hs1 in E.
  pose proof L as [A Lev Lne Llf Lhi Lce Lva]. set (b := minted_block w h ldr tp n tp) in *.
  assert (Hev : a_events (st_env s1) = [EProposal (mkProposalEvent ldr p)])
    by (subst s1; simpl; by rewrite Lev, Hid).
  destruct (proposal_taken cfg B U U_zero U_short cfg_wf few_faulty ldr ldr ldr_member ldr_member
    _ _ s s1 tip tp n h p b I I1 A E s2 Hev Hrun1) as (Hop & Hon & Hf & Hdec).
  destruct (can_sign h (a_secret_key (st_env s))) as [sig Hsig].
  destruct (ai_self _ _ _ _ _ _ I1) as [Hself1 _].
  assert (Hheap1 : st_heap s1 !! p = Some b) by by rewrite (ex_heap _ _ _ _ _ _ _ E), lookup_insert_eq.
  pose proof (own_vote_cast (set_st_events [] s1) p b sig Hheap1 Hop) as Hv.
  unfold wp in Hv. simpl in Hv. rewrite Hself1, Hon in Hv.
  destruct Hv as [Vf Ve Vn Vk Vp Vc (Vh & Vl & Vq)].
  { subst s1. simpl. by rewrite Lhi. }
  { change (get_hash b) with h. by rewrite (ex_key _ _ _ _ _ _ _ E). }
  simpl in Ve. rewrite Hself1 in Ve. change (get_hash b) with h in Ve.
  destruct (tip_moved cfg B U U_zero few_faulty ldr _ s s1 tip tp n h p b I A E s2 Vc Hf)
    as [Ha Hadv]; try done.
  { by rewrite Vf, <- (ex_fetch _ _ _ _ _ _ _ E). }
  { by rewrite Vk, <- (ex_key _ _ _ _ _ _ _ E). }
  destruct Hf as (_ & Ft & _).
  assert (Hsk : tr s2 !! p = Some (skel b)) by by rewrite Ft; apply skel_lookup_Some.
  apply skel_lookup in Hsk as (b2 & Hb2 & Hsk). exists b2, sig.
  split; try done.
  - by rewrite Vn; subst s1.
  - apply (f_equal (lookup p)) in Vq. simpl in Vq. rewrite !lookup_fmap, Hb2, Hheap1 in Vq.
    by injection Vq.
  - change (sk_height (skel b2) = (n + 1)%N). rewrite Hsk.
    apply (extended_height cfg B U ldr _ s s1 tip tp n h p b I A E).
  - rewrite Vh. by subst s1.
Qed.

(** It is ready to count votes on its block. *)
Lemma own_counting G2 s s1 s2 h p tp n b sig :
  own_taken s s1 s2 h p tp n b sig → AInv G2 s2 →
  (∃ k, tr s !! tp = Some k ∧ sk_height k = n) →
  get_hash b = h ∧ counting_from (set_st_events [] s2) p b.
Proof using All.
  intros [_ Oe On _ Ob Oq Oh Ohi Ot Oa] I2 (k & Hk & Hn).
  assert (Hh : get_hash b = h) by by unfold get_hash; rewrite Oq.
  destruct (ai_good _ _ _ _ _ _ I2) as (_ & RI2 & _). split; [done|]. split; try done; simpl.
  - apply (ri_config _ _ _ _ _ _ _ _ _ RI2).
  - rewrite Hh. apply (at_cache _ _ _ _ Ot).
  - pose proof (gr_tree _ _ _ _ _ (proj1 Oa) _ _ Hk) as (hb & Hhb & Hhk)%skel_lookup.
    exists hb. rewrite Ohi, Oh. split; [done|].
    assert (get_height hb = n) as -> by (rewrite <- Hn, <- Hhk; done). lia.
Qed.

(** The leader takes its own proposal and its own vote. *)
Lemma own_proposal_voted G G1 G2 s s1 s2 s3 tip tp n h w v :
  AInv G s → leading s tip tp n → cache s !! h = None → own_key ldr s →
  s1 = proposed_state s w h tp n v → AInv G1 s1 → AInv G2 s2 →
  run_action AEvent s1 = Ok tt s2 → run_action AEvent s2 = Ok tt s3 →
  let p := fresh (dom (st_heap s)) in
  ∃ s0 b sig, counting_from s0 p b ∧ get_hash b = h ∧ so_far s0 p b [(ldr, sig)] s3 ∧
    good_vote cfg h (ldr, sig) ∧ at_tip s0 h p (n + 1) ∧ advanced s s0 h p tp ∧
    a_protocol (st_env s0) = a_protocol (st_env s1).
Proof using All.
  intros I L Hc Hkey Hs1 I1 I2 Hrun1 Hrun2 p.
  destruct (own_proposal_taken G G1 s s1 s2 tip tp n h w v I L Hc Hs1 I1 Hrun1) as (b & sig & O).
  fold p in O. destruct (own_counting _ _ _ _ _ _ _ _ _ _ O I2) as [Hh C]; [apply L|].
  destruct O as [Osig Oe _ Op Ob Oq _ _ Ot Oa]. set (s0 := set_st_events [] s2) in *.
  assert (Hpos : (0 < nmajority (config (st_core s0)))%N).
  { rewrite (cf_config _ _ _ C), (cw_nmajority _ cfg_wf). lia. }
  exists s0, b, sig. split; [done|]. split; [done|]. split; [|split_and!].
  - change [(ldr, sig)] with ([] ++ [(ldr, sig)]).
    apply (vote_counted s0 p b [] s0 (ldr, sig)); [done| |by apply (Hkey h sig)|].
    + split; [by apply (PreOrder_Reflexive (PreOrder := vote_frame_po))|].
      apply counted_nil; [done| |done]. unfold get_self_qc. by rewrite Oq, Hh.
    + simpl in Hrun2. unfold run_head, st_events in Hrun2. rewrite Oe in Hrun2. simpl in Hrun2.
      rewrite Hh. exact Hrun2.
  - by apply Hkey.
  - by apply (at_tip_same s2).
  - by apply (advanced_same s s2).
  - exact Op.
Qed.

(** The block [w] on [tip], certifying it, whose hash is [h]. *)
Definition on_tip (tip h : Hash) (w : HotstuffBlockWire) : Prop :=
  good_wire cfg h w ∧ parent_hash (header w) = tip ∧ qcw_justify (header_qc (header w)) = tip.

Lemma outbox_proposed (s : AppSt V) w h tp n v q :
  is_Some (other_clients (a_protocol (st_env s)) !! q) → self_id (st_core s) = ldr →
  outbox (proposed_state s w h tp n v) q = outbox s q ++ [proposal_message w].
Proof.
  intros [work Hw] Hid. unfold outbox. simpl. rewrite lookup_fmap, Hw, Hid. done.
Qed.

(** A round in which the block is new and the votes are those of a quorum: the
    leader certifies the block and would propose on it.  The block is the one
    that [q] was sent. *)
Lemma round_led round acts net net' (s s' : AppSt V) tip tp n q :
  ran cfg B U ldr (lead_round round ++ acts) net net' → reach net →
  net_reps net !! ldr = Some (mkReplica s None) → net_reps net' !! ldr = Some (mkReplica s' None) →
  leading s tip tp n → own_key ldr s → q ∈ replicas cfg → q ≠ ldr →
  (∀ h w rest, on_tip tip h w → outbox s' q = outbox s q ++ proposal_message w :: rest →
     cache s !! h = None ∧ certifying h round.2) →
  ∃ n1 s1 h w p, reach n1 ∧ net_reps n1 !! ldr = Some (mkReplica s1 None) ∧
    ran cfg B U ldr acts n1 net' ∧ on_tip tip h w ∧
    (∀ q', q' ∈ replicas cfg → q' ≠ ldr → outbox s1 q' = outbox s q' ++ [proposal_message w]) ∧
    leading s1 h p (n + 1) ∧ advanced s s1 h p tp.
Proof using All.
  intros Hran Hr Hs Hs' L Hkey Hq Hql Hgood.
  change (ran cfg B U ldr (propose_action round.1 :: AEvent :: AEvent ::
    (concat (handle_vote <$> round.2) ++ acts)) net net') in Hran.
  destruct (ran_first _ _ _ _ _ _ _ _ _ _ _ _ Hran Hr Hs Hs') as (n1 & s1 & Hrun1 & R1 & Hs1 & Hran1).
  destruct (ran_first _ _ _ _ _ _ _ _ _ _ _ _ Hran1 R1 Hs1 Hs') as (n2 & s2 & Hrun2 & R2 & Hs2 & Hran2).
  destruct (ran_first _ _ _ _ _ _ _ _ _ _ _ _ Hran2 R2 Hs2 Hs') as (n3 & s3 & Hrun3 & R3 & Hs3 & Hran3).
  pose proof (running_AInv cfg B U U_zero U_short cfg_wf few_faulty ldr sk vm) as HI.
  pose proof (HI _ _ Hr Hs) as I. pose proof (HI _ _ R1 Hs1) as I1. pose proof (HI _ _ R2 Hs2) as I2.
  destruct (round_proposed _ s s1 _ tip tp n I L Hrun1) as (h & w & v & Hgw & Hpar & Hjus & Hst1).
  destruct (ai_good _ _ _ _ _ _ I) as (_ & RI & _). destruct (ri_self _ _ _ _ _ _ _ _ _ RI) as [Hid _].
  assert (Hbox : ∀ q', q' ∈ replicas cfg → q' ≠ ldr →
    outbox s1 q' = outbox s q' ++ [proposal_message w]).
  { intros q' Hq' Hne. rewrite Hst1. apply outbox_proposed; [|done].
    destruct (ai_self _ _ _ _ _ _ I) as [_ Hdom]. apply elem_of_dom. rewrite Hdom. set_solver. }
  destruct (ran_sends _ _ _ _ _ _ _ _ _ _ _ Hran1 R1 Hs1 Hs') as [_ Hsend].
  destruct (Hsend q) as [rest Hrest]. fold (outbox s' q) (outbox s1 q) in Hrest.
  destruct (Hgood h w rest) as [Hc [Hvs Hquo]]; [done| |].
  { by rewrite Hrest, (Hbox q Hq Hql), <- app_assoc. }
  destruct (own_proposal_voted _ _ _ s s1 s2 s3 tip tp n h w v I L Hc Hkey Hst1 I1 I2 Hrun2 Hrun3)
    as (s0 & b & sig & C & Hbh & Hsf & Hown & Ha & Hadv & Hpr).
  set (p := fresh (dom (st_heap s))) in *.
  destruct (votes_counted round.2 acts n3 net' s0 p b [(ldr, sig)] s3 s')
    as (n4 & s4 & R4 & Hs4 & Hran4 & Hsf4); try done.
  { by rewrite Hbh. }
  pose proof (cf_config _ _ _ C) as Hcfg.
  destruct (counted_skel _ _ _ _ _ C Hsf4) as (Hca & Htr & Hco & Hd).
  destruct Hsf4 as [(_ & (Ff & Fe & Fn & Fp & Fk & _) & _ & _) Hcnt].
  destruct (counted_quorum s0 p b _ s4 Hcnt) as (Hh1 & Hl1 & _ & Hj1 & Hv1); rewrite ?Hcfg, ?Hbh in *.
  { constructor; [done|]. apply Forall_fmap. eapply Forall_impl; [exact Hvs|]. by intros ? [_ ?]. }
  { etrans; [exact Hquo|]. simpl. rewrite <- list_fmap_compose. done. }
  exists n4, s4, h, w, p. split_and!; try done.
  - intros q' Hq' Hne. rewrite <- (Hbox q' Hq' Hne). unfold outbox. by rewrite Fp, Hpr.
  - split; [by apply (at_tip_same s0)| | | | | |]; try done.
    + rewrite Fe. apply C.
    + rewrite Fn. apply C.
  - by apply (advanced_same s s0).
Qed.

(** Consecutive rounds.  The condition on a round may use that the blocks up to
    it form a chain. *)
Lemma rounds_led rounds net net' (s s' : AppSt V) path tip tp n q :
  ran cfg B U ldr (concat (lead_round <$> rounds)) net net' → reach net →
  net_reps net !! ldr = Some (mkReplica s None) → net_reps net' !! ldr = Some (mkReplica s' None) →
  leading s tip tp n → stacked s (tip :: path) → own_key ldr s → q ∈ replicas cfg → q ≠ ldr →
  (∀ hws h w rest round, chained cfg tip (hws ++ [(h, w)]) →
     outbox s' q = outbox s q ++ (proposal_message <$> (hws ++ [(h, w)]).*2) ++ rest →
     rounds !! length hws = Some round →
     cache s !! h = None ∧ h ∉ hws.*1 ∧ certifying h round.2) →
  ∃ hws tip' tp', length hws = length rounds ∧ chained cfg tip hws ∧
    (∀ q', q' ∈ replicas cfg → q' ≠ ldr →
       outbox s' q' = outbox s q' ++ (proposal_message <$> hws.*2)) ∧
    leading s' tip' tp' (n + N.of_nat (length rounds)) ∧ stacked s' (reverse hws.*1 ++ tip :: path).
Proof using All.
  revert net s path tip tp n. induction rounds as [|round rounds IH];
    intros net s path tip tp n Hran Hr Hs Hs' L Hst Hkey Hq Hql Hgood; simpl in Hran.
  { rewrite (ran_none _ _ _ _ sk vm _ _ _ _ Hran Hs Hs'). exists [], tip, tp.
    rewrite N.add_0_r. split_and!; try done. intros. by rewrite app_nil_r. }
  destruct (round_led round _ net net' s s' tip tp n q Hran)
    as (n1 & s1 & h & w & p & R1 & Hs1 & Hran1 & Hon & Hbox & L1 & Hadv); try done.
  { intros h w rest (? & ? & ?) Hbox.
    by destruct (Hgood [] h w rest round) as (? & _ & ?). }
  destruct (IH n1 s1 (tip :: path) h p (n + 1)%N Hran1)
    as (hws & tip' & tp' & Hlen & Hch & Hbox' & L' & Hst'); try done.
  - eapply stacked_push; [done|apply L|apply Hst].
  - intros h' sig'. rewrite (gr_key _ _ _ _ _ (proj1 Hadv)). apply Hkey.
  - intros hws h' w' rest round' Hch Hbox' Hround.
    destruct (Hgood ((h, w) :: hws) h' w' rest round') as (Hc & Hnin & Hcert); try done.
    { destruct Hon as (? & ? & ?). by split_and!. }
    { rewrite Hbox', (Hbox q Hq Hql), <- app_assoc. done. }
    apply not_elem_of_cons in Hnin as [Hne Hnin]. split_and!; try done.
    rewrite (gr_cache _ _ _ _ _ (proj1 Hadv)), lookup_insert_ne; done.
  - exists ((h, w) :: hws), tip', tp'. split_and!.
    + simpl. by rewrite Hlen.
    + destruct Hon as (? & ? & ?). by split_and!.
    + intros q' Hq' Hne. rewrite (Hbox' q' Hq' Hne), (Hbox q' Hq' Hne), <- app_assoc. done.
    + simpl. by replace (n + N.of_nat (S (length rounds)))%N with (n + 1 + N.of_nat (length rounds))%N by lia.
    + rewrite fmap_cons, reverse_cons, <- app_assoc. done.
Qed.
End leader.
