(* ===== verification/Cluster.v ===== *)
(** * A leader and a quorum of followers

    An execution in which a leader goes through rounds, a quorum of replicas
    handles the proposals it sends them, and it handles the votes they send
    back: its blocks form a chain, and all the participants decide it.  Every
    interleaving is covered, and the other replicas do anything. *)

From S2P Require Import Prelude Types ReplicaConfig Certs IoUtils Block BlockStore Lmdb.
From S2P Require Import Consensus Events FetchManager App Safety ReplicaInv StoreInv AppInv.
From S2P Require Import Network Votes Runs Progress Leader.

Section cluster.
Context {i_sodium : Sodium} {i_xdr : Xdr} {i_bv : BitVector} {i_fs : Fs} {i_lmdb : LmdbLib}.
Context {i_bvlaws : BitVectorLaws} {V : Type} {i_bridge : VMBridge V} {i_blaws : VMBridgeLaws V}.
Context (cfg : ReplicaConfig) (B : gset ReplicaID) (U : Hash → option HotstuffBlockHeader).
Hypothesis U_zero : U zero_hash = None.
Hypothesis U_short : ∀ h n, ht U h n → (n < 2 ^ 32)%N.
Hypothesis cfg_wf : config_wf cfg.
Hypothesis few_faulty :
  (N.of_nat (size B) < nreplicas cfg - 2 * (nreplicas cfg / 3))%N.
Hypothesis can_sign : ∀ m sk, is_Some (crypto_sign_detached m sk).
Context (ldr : ReplicaID).

(** The hash that goes with a block. *)
Definition hashed (hw : Hash * HotstuffBlockWire) : Prop :=
  crypto_generichash (xdr_header (header hw.2)) = Some hw.1.

(** A follower: it starts at [tip] and handles the proposals of [hws], which it
    has not seen before. *)
Record follows (hws : list (Hash * HotstuffBlockWire)) (tip : Hash) (n : N) (net net' : Net V)
    (f : ReplicaID) (s : AppSt V) : Prop := {
  fo_member : f ∈ replicas cfg;
  fo_start : net_reps net !! f = Some (mkReplica s None);
  fo_ready : ∃ tp, ready ldr s tip tp n (outbox s ldr);
  fo_key : own_key cfg f s;
  fo_unseen : unseen s hws.*1;
  fo_ran : ran cfg B U f (concat (handle_proposal ldr <$> hws.*2)) net net';
}.

(** [v] is the [i]-th message [f] has sent to the leader meanwhile. *)
Definition sent_vote (net net' : Net V) (i : nat) (f : ReplicaID) (v : VoteMessage) : Prop :=
  ∃ s rep', net_reps net !! f = Some (mkReplica s None) ∧ net_reps net' !! f = Some rep' ∧
    outbox (rep_state rep') ldr !! (length (outbox s ldr) + i) = Some (MVote v).

(** The leader: it starts at [tip], and goes through [rounds]. *)
Record leads (rounds : list (bool * list VoteMessage)) (hws : list (Hash * HotstuffBlockWire))
    (tip : Hash) (n : N) (net net' : Net V) (s : AppSt V) : Prop := {
  ld_start : net_reps net !! ldr = Some (mkReplica s None);
  ld_tip : ∃ tp, leading cfg s tip tp n;
  ld_key : own_key cfg ldr s;
  ld_new : ∀ h, h ∈ hws.*1 → cache s !! h = None;
  ld_ran : ran cfg B U ldr (concat (lead_round <$> rounds)) net net';
}.

(** The followers handle what the leader has sent them, and the votes of a round
    are those they have sent on its block, in any order. *)
Record exchanged (F : list ReplicaID) (rounds : list (bool * list VoteMessage))
    (hws : list (Hash * HotstuffBlockWire)) (net net' : Net V) (s : AppSt V) : Prop := {
  ex_proposals : ∀ f rep', f ∈ F → net_reps net' !! ldr = Some rep' →
    outbox (rep_state rep') f = outbox s f ++ (proposal_message ldr <$> hws.*2);
  ex_votes : ∀ i round, rounds !! i = Some round →
    ∃ fs, fs ≡ₚ F ∧ Forall2 (sent_vote net net' i) fs round.2;
}.

#[local] Instance proposal_message_inj : Inj (=) (=) (proposal_message ldr).
Proof. by intros w w' [= ->]. Qed.

Lemma chained_hashed tip hws : chained cfg tip hws → Forall hashed hws.
Proof.
  revert tip. induction hws as [|[h w] hws IH]; intros tip; [constructor|].
  intros ((Hh & _) & _ & _ & Hch). constructor; [exact Hh|by eapply IH].
Qed.

(** Blocks determine their hashes. *)
Lemma hashed_fun hws1 hws2 :
  Forall hashed hws1 → Forall hashed hws2 → hws1.*2 = hws2.*2 → hws1 = hws2.
Proof.
  intros H1. revert hws2. induction H1 as [|[h w] hws1 Hh _ IH]; intros [|[h' w'] hws2] H2 Heq;
    try done.
  rewrite !fmap_cons in Heq. simpl in Heq. injection Heq as Hw Heq. subst w'.
  apply Forall_cons in H2 as [Hh' H2]. unfold hashed in Hh, Hh'. simpl in Hh, Hh'.
  assert (h' = h) as -> by congruence. f_equal. by apply IH.
Qed.

Context (sk : ReplicaID → SecretKey) (vm : V) (net net' : Net V).
Hypothesis net_reachable : reachable cfg B U (block_arrival U cfg B) sk vm net.
Hypothesis ldr_member : ldr ∈ replicas cfg.

Section one_follower.
Context (tip : Hash) (n : N) (pre post : list (Hash * HotstuffBlockWire)).
Context (f : ReplicaID) (s s' : AppSt V).
Hypothesis fol : follows (pre ++ post) tip n net net' f s.
Hypothesis f_end : net_reps net' !! f = Some (mkReplica s' None).
Hypothesis f_other : f ≠ ldr.
Hypothesis pre_chained : chained cfg tip pre.
Hypothesis distinct : NoDup (pre ++ post).*1.

(** After a prefix of the proposals that is a chain. *)
Lemma prefix_followed :
  ∃ n1 s1 sigs, reachable cfg B U (block_arrival U cfg B) sk vm n1 ∧
    net_reps n1 !! f = Some (mkReplica s1 None) ∧
    ran cfg B U f (concat (handle_proposal ldr <$> post.*2)) n1 net' ∧
    Forall2 (λ h sig, crypto_sign_detached h (a_secret_key (st_env s)) = Some sig) pre.*1 sigs ∧
    outbox s1 ldr = outbox s ldr ++ zip_with (vote_message f) pre.*1 sigs ∧
    stacked s1 (reverse pre.*1 ++ [tip]).
Proof using All.
  destruct fol as [Fm Fs [tp Frd] Fk Fu Fr].
  rewrite fmap_app, fmap_app, concat_app in Fr.
  destruct (ran_app _ _ _ _ _ _ _ _ Fr) as (n1 & Hr1 & Hr2).
  destruct (ran_running _ _ _ _ sk vm _ _ _ _ Hr2 f_end) as [s1 Hs1].
  rewrite fmap_app in Fu, distinct. apply NoDup_app in distinct as (Hnd & _ & _).
  destruct (chain_followed cfg B U U_zero U_short cfg_wf few_faulty f ldr Fm ldr_member
    (not_eq_sym f_other) can_sign sk vm pre net n1 s [] tip tp n (outbox s ldr) s1)
    as (sigs & tip' & tp' & Hsigs & Hrd & Hst); try done.
  { intros h Hh. apply Fu, elem_of_app. by left. }
  exists n1, s1, sigs. split; [by eapply ran_reach|]. split_and!; try done.
  unfold outbox at 1. by rewrite (rd_work _ _ _ _ _ _ Hrd).
Qed.

(** The follower's vote on a block of the prefix. *)
Lemma prefix_vote i h v :
  pre.*1 !! i = Some h → sent_vote net net' i f v →
  vm_voter v = f ∧ pc_hash (vm_vote v) = h ∧ good_vote cfg h (vote_of v).
Proof using All.
  intros Hi (s2 & rep' & Hs2 & Hs2' & Hv).
  rewrite (fo_start _ _ _ _ _ _ _ fol) in Hs2. rewrite f_end in Hs2'.
  injection Hs2 as <-. injection Hs2' as <-. simpl in Hv.
  destruct prefix_followed as (n1 & s1 & sigs & R1 & Hs1 & Hran & Hsigs & Hbox & _).
  destruct (ran_sends _ _ _ _ _ _ _ _ _ _ _ Hran R1 Hs1 f_end) as [_ Hsend].
  destruct (Hsend ldr) as [more Hmore]. fold (outbox s' ldr) (outbox s1 ldr) in Hmore.
  destruct (Forall2_lookup_l _ _ _ _ _ Hsigs Hi) as (sig & Hsi & Hsig).
  assert (Hz : zip_with (vote_message f) pre.*1 sigs !! i = Some (vote_message f h sig))
    by by rewrite lookup_zip_with, Hi, Hsi.
  rewrite Hmore, Hbox, <- app_assoc, lookup_app_r in Hv by lia.
  replace (length (outbox s ldr) + i - length (outbox s ldr)) with i in Hv by lia.
  rewrite (lookup_app_l_Some _ _ _ _ Hz) in Hv. injection Hv as <-.
  split_and!; [done|done|]. by apply (fo_key _ _ _ _ _ _ _ fol).
Qed.
End one_follower.

(** A replica has stopped, or none has. *)
Lemma stopped_or_running acts rs :
  ran cfg B U ldr acts net net' → Forall (λ r, is_Some (net_reps net !! r)) rs →
  (∃ r rep f, r ∈ rs ∧ net_reps net' !! r = Some rep ∧ rep_fault rep = Some f) ∨
  Forall (λ r, ∃ s', net_reps net' !! r = Some (mkReplica s' None)) rs.
Proof.
  intros Hran. induction 1 as [|r rs Hr _ IH]; [by right; constructor|].
  destruct (ran_present _ _ _ _ r _ _ _ Hran Hr) as [[s' [f|]] Hr'].
  { left. exists r, (mkReplica s' (Some f)), f. split_and!; [by left|done|done]. }
  destruct IH as [(r1 & rep & f & H1 & H2)|Hall].
  - left. exists r1, rep, f. split; [by right|done].
  - right. constructor; eauto.
Qed.

Section quorum.
Context (F : list ReplicaID) (rounds : list (bool * list VoteMessage)).
Context (hws : list (Hash * HotstuffBlockWire)) (tip : Hash) (n : N).
Context (s s' : AppSt V).
Hypothesis F_distinct : NoDup (ldr :: F).
Hypothesis F_some : F ≠ [].
Hypothesis F_quorum : (nmajority cfg ≤ N.of_nat (length (ldr :: F)))%N.
Hypothesis F_follow : ∀ f, f ∈ F → ∃ sf, follows hws tip n net net' f sf.
Hypothesis F_end : ∀ f, f ∈ F → ∃ sf', net_reps net' !! f = Some (mkReplica sf' None).
Hypothesis l_leads : leads rounds hws tip n net net' s.
Hypothesis l_end : net_reps net' !! ldr = Some (mkReplica s' None).
Hypothesis hws_hashed : Forall hashed hws.
Hypothesis hws_distinct : NoDup hws.*1.
Hypothesis messages : exchanged F rounds hws net net' s.

Lemma proposals_sent f :
  f ∈ F → outbox s' f = outbox s f ++ (proposal_message ldr <$> hws.*2).
Proof using messages l_end.
  intros Hf. exact (ex_proposals _ _ _ _ _ _ messages _ _ Hf l_end).
Qed.

(** The leader's blocks so far are the first of those the followers handle. *)
Lemma sent_prefix f pre rest :
  f ∈ F → chained cfg tip pre →
  outbox s' f = outbox s f ++ (proposal_message ldr <$> pre.*2) ++ rest →
  ∃ post, hws = pre ++ post.
Proof using messages l_end hws_hashed.
  clear few_faulty F_quorum. intros Hf Hch Hbox. rewrite (proposals_sent _ Hf) in Hbox. apply app_inv_head in Hbox.
  assert (Hlen : length pre ≤ length hws).
  { apply (f_equal length) in Hbox. rewrite length_app, !length_fmap in Hbox. lia. }
  exists (drop (length pre) hws). rewrite <- (take_drop (length pre) hws) at 1. f_equal.
  apply hashed_fun; [by apply Forall_take|by eapply chained_hashed|].
  apply (f_equal (take (length pre))) in Hbox.
  rewrite take_app_length', <- !fmap_take in Hbox by by rewrite !length_fmap.
  revert Hbox. apply (inj (fmap (proposal_message ldr))).
Qed.

(** The votes of a round are those of the followers on its block. *)
Lemma round_certifying pre h w post round :
  hws = pre ++ (h, w) :: post → chained cfg tip (pre ++ [(h, w)]) →
  rounds !! length pre = Some round → certifying cfg ldr h round.2.
Proof using All.
  intros Hhws Hch Hround. destruct (ex_votes _ _ _ _ _ _ messages _ _ Hround) as (fs & Hfs & Hall).
  assert (Hev : Forall2 (λ f v, vm_voter v = f ∧ pc_hash (vm_vote v) = h ∧
      good_vote cfg h (vote_of v)) fs round.2).
  { apply Forall2_same_length_lookup in Hall as [Hlen Hall].
    apply Forall2_same_length_lookup_2; [done|]. intros i f v Hi Hv.
    specialize (Hall _ _ _ Hi Hv). apply list_elem_of_lookup_2 in Hi as Hf. rewrite Hfs in Hf.
    destruct (F_follow _ Hf) as [sf Hfol], (F_end _ Hf) as [sf' Hend].
    rewrite (cons_middle (h, w)), app_assoc in Hhws. rewrite Hhws in Hfol, hws_distinct.
    eapply (prefix_vote tip n (pre ++ [(h, w)]) post f sf sf'); try done.
    - intros ->. by apply NoDup_cons in F_distinct as [? _].
    - by rewrite fmap_app, lookup_app_r, length_fmap, Nat.sub_diag by by rewrite length_fmap. }
  assert (Hvoters : vm_voter <$> round.2 = fs)
    by (clear -Hev; induction Hev as [|f v fs' vs (<- & _) _ IH]; [done|]; by rewrite fmap_cons, IH).
  split.
  - clear -Hev. induction Hev as [|f v fs' vs (_ & ?) _ IH]; [done|by constructor].
  - rewrite Hvoters, size_list_to_set by by rewrite Hfs. simpl. by rewrite Hfs.
Qed.

(** The leader's rounds give the chain the followers handle. *)
Lemma rounds_chain :
  length hws = length rounds ∧ chained cfg tip hws ∧ stacked s' (reverse hws.*1 ++ [tip]).
Proof using All.
  assert (∃ q, q ∈ F) as [q Hq]
    by (clear -F_some; destruct F as [|q F']; [done|exists q; by left]).
  destruct (F_follow _ Hq) as [sq Hfq]. pose proof (fo_member _ _ _ _ _ _ _ Hfq) as Hqm.
  assert (Hql : q ≠ ldr) by (intros ->; by apply NoDup_cons in F_distinct as [? _]).
  destruct l_leads as [l_start [tp l_leading] l_key hws_new l_ran].
  destruct (rounds_led cfg B U U_zero U_short cfg_wf few_faulty ldr ldr_member can_sign sk vm
    rounds net net' s s' [] tip tp n q) as (hws' & tip' & tp' & Hlen & Hch & Hbox & _ & Hst);
    try done.
  - intros pre h w rest round Hch Hbox Hround.
    destruct (sent_prefix q _ rest Hq Hch Hbox) as [post Hhws]. rewrite <- app_assoc in Hhws.
    split_and!.
    + apply hws_new. rewrite Hhws, fmap_app. set_solver.
    + rewrite Hhws, fmap_app in hws_distinct. apply NoDup_app in hws_distinct as (_ & Hd & _).
      intros Hh. apply (Hd _ Hh). by left.
    + by eapply round_certifying.
  - destruct (sent_prefix q hws' [] Hq Hch) as [post Hhws].
    { by rewrite app_nil_r, Hbox. }
    specialize (Hbox q Hqm Hql). rewrite (proposals_sent _ Hq) in Hbox.
    apply app_inv_head, (inj _), hashed_fun in Hbox; [by subst|done|by eapply chained_hashed].
Qed.

(** The participants have decided all of the chain but its end. *)
Definition all_but_three (s : AppSt V) : Prop :=
  ∀ i h, i + 3 < length hws → hws.*1 !! i = Some h → hash_decided s h.

Lemma cluster_decides r :
  r ∈ ldr :: F → ∃ sr, net_reps net' !! r = Some (mkReplica sr None) ∧ all_but_three sr.
Proof using All.
  intros Hr. destruct rounds_chain as (_ & Hch & Hst).
  assert (Hreach : reachable cfg B U (block_arrival U cfg B) sk vm net')
    by (eapply ran_reach; [apply l_leads|done]).
  assert (∃ sr, net_reps net' !! r = Some (mkReplica sr None) ∧ stacked sr (reverse hws.*1 ++ [tip]))
    as (sr & Hsr & Hstr).
  { apply elem_of_cons in Hr as [->|Hr]; [by exists s'|].
    destruct (F_follow _ Hr) as [sf Hfol], (F_end _ Hr) as [sf' Hend].
    destruct (prefix_followed tip n hws [] r sf sf')
      as (n1 & s1 & _ & _ & Hs1 & Hran & _ & _ & Hst1); try done; try by rewrite app_nil_r.
    - intros ->. by apply NoDup_cons in F_distinct as [? _].
    - exists sf'. split; [done|]. by rewrite (ran_none _ _ _ _ sk vm _ _ _ _ Hran Hs1 Hend). }
  exists sr. split; [done|]. intros i h Hi Hh.
  pose proof (running_AInv cfg B U U_zero U_short cfg_wf few_faulty r sk vm net' sr Hreach Hsr) as I.
  eapply (stacked_decided cfg B U U_zero cfg_wf few_faulty r); [exact I|exact Hstr| |done].
  by rewrite length_fmap.
Qed.
End quorum.
End cluster.
