(* ===== verification/Batches.v ===== *)
(** * Event batches

    [GenericEventQueue::run] takes the whole queue and handles the batch while
    other threads, and the handlers themselves, append to the queue.  The
    cluster of Network.v handles one event at a time.  Here: a handler of
    either queue behaves the same whatever is queued before its own events, so
    a batch is the sequence of single steps. *)

From S2P Require Import Prelude Types ReplicaConfig Certs IoUtils Block BlockStore Lmdb.
From S2P Require Import Consensus Events FetchManager App Safety ReplicaInv StoreInv AppInv.
From S2P Require Import Network.

(** ** Reads *)

Section natural.
Context {S : Type} (T : S → S).

Lemma nat_deref h p : natural T (deref h p).
Proof. intros s. unfold deref. by destruct (h !! p). Qed.
Lemma nat_get_info c rid : natural T (get_info c rid).
Proof. intros s. unfold get_info. by destruct (replica_map c !! rid). Qed.
Lemma nat_justify_qc b : natural T (get_justify_qc b).
Proof. intros s. unfold get_justify_qc. by destruct (parsed_qc b). Qed.
End natural.

#[export] Hint Resolve nat_deref nat_get_info nat_justify_qc : natural.

(** ** The core's handlers *)

Section core.
Context {i_sodium : Sodium} {i_xdr : Xdr} {i_bv : BitVector} {i_fs : Fs} {i_lmdb : LmdbLib}.
Context {E : Type} {i_virt : CoreVirtuals E}.
Context (Te : E → E).

Definition lift (s : CoreSt E) : CoreSt E :=
  mkSt (st_heap s) (st_disk s) (st_core s) (Te (st_env s)).

Hypothesis vote_nat : ∀ h p r, natural Te (do_vote h p r).
Hypothesis new_qc_nat : ∀ h, natural Te (on_new_qc h).
Hypothesis apply_nat : ∀ h p tx, natural Te (apply_block h p tx).
Hypothesis commit_nat : ∀ h p, natural Te (notify_vm_of_commitment h p).
Hypothesis nonself_nat : ∀ h p, natural Te (notify_vm_of_qc_on_nonself_block h p).
Hypothesis prune_nat : ∀ n, natural Te (notify_ok_to_prune_blocks n).

Lemma nat_core {A} (f : HotstuffCore → A) : natural lift (core f).
Proof. done. Qed.
Lemma nat_in_core f : natural lift (in_core f).
Proof. done. Qed.
Lemma nat_set_block p b : natural lift (set_block p b).
Proof. done. Qed.
Lemma nat_read p : natural lift (read p).
Proof. intros s. unfold read, deref. simpl. by destruct (st_heap s !! p). Qed.
Lemma nat_read_ptr p : natural lift (read_ptr p).
Proof. destruct p as [p|]; [|done]. intros s. apply (nat_read p s). Qed.
Lemma nat_in_env {A} (m : heap → M E A) : (∀ h, natural Te (m h)) → natural lift (in_env m).
Proof.
  intros Hm s. unfold in_env, zoom. simpl. rewrite Hm. by destruct (m (st_heap s) (st_env s)).
Qed.
Lemma nat_write_block info p : natural lift (write_block info p).
Proof.
  unfold write_block. apply nat_bind; [apply nat_read|]. intros b. by apply nat_zoom.
Qed.

#[local] Hint Resolve nat_core nat_in_core nat_set_block nat_read nat_read_ptr nat_in_env
  nat_write_block : natural.

Lemma nat_collect fuel p n q : natural lift (collect_commits fuel p n q).
Proof. revert p q. induction fuel; intros; simpl; nat_step; auto. Qed.
Lemma nat_walk_down fuel p n : natural lift (walk_down fuel p n).
Proof. revert p. induction fuel; intros; simpl; nat_step; auto. Qed.
Lemma nat_commit_blocks q tx : natural lift (commit_blocks q tx).
Proof using apply_nat commit_nat. revert tx. induction q; intros; simpl; nat_step; auto. Qed.

#[local] Hint Resolve nat_collect nat_walk_down nat_commit_blocks : natural.

Lemma nat_update_hqc p qc : natural lift (update_hqc p qc).
Proof using nonself_nat. unfold update_hqc. nat_step. Qed.

Lemma nat_update p : natural lift (update p).
Proof using apply_nat commit_nat nonself_nat prune_nat.
  pose proof nat_update_hqc. unfold update, lock_and_commit, raise_lock, commit_chain. nat_step.
Qed.

Lemma nat_receive_proposal p r : natural lift (on_receive_proposal p r).
Proof using vote_nat apply_nat commit_nat nonself_nat prune_nat.
  pose proof nat_update. unfold on_receive_proposal, opinion. nat_step.
Qed.

Lemma nat_receive_vote pc p r : natural lift (on_receive_vote pc p r).
Proof using new_qc_nat nonself_nat.
  pose proof nat_update_hqc. unfold on_receive_vote. nat_step. by intros ?.
Qed.
End core.

(** ** The replica's two queues *)

Section app.
Context {i_sodium : Sodium} {i_xdr : Xdr} {i_bv : BitVector} {i_fs : Fs} {i_lmdb : LmdbLib}.
Context {V : Type} {i_bridge : VMBridge V}.

(** Events queued before everything else. *)
Definition events_before (pre : list Event) (a : AppBase V) : AppBase V :=
  set_events (pre ++ a_events a) a.
Definition net_events_before (pre : list NetEvent) (a : AppBase V) : AppBase V :=
  set_net_events (pre ++ a_net_events a) a.

Lemma nat_in_vm {A} (m : M V A) pre : natural (events_before pre) (in_vm m).
Proof. by apply nat_zoom. Qed.

Lemma nat_event_queue_add h e pre : natural (events_before pre) (event_queue_add h e).
Proof.
  unfold event_queue_add, Event_validate, VoteEvent_validate, ProposalEvent_validate.
  nat_step; apply nat_modify; intros ?; unfold events_before, set_events; simpl;
    by rewrite app_assoc.
Qed.

Lemma nat_do_vote h p rid pre : natural (events_before pre) (app_do_vote h p rid).
Proof.
  pose proof nat_event_queue_add. unfold app_do_vote, send_vote_to, self_vote, PC_sign. nat_step.
Qed.

Lemma on_event_natural e pre : natural (lift (events_before pre)) (on_event e).
Proof.
  destruct e; [apply nat_receive_vote|apply nat_receive_proposal]; intros; simpl;
    auto using nat_in_vm, nat_do_vote with natural; by apply nat_modify.
Qed.

Lemma nat_in_fetch {A} (m : M BlockFetchManager A) pre :
  natural (lift (net_events_before pre)) (in_fetch m).
Proof. apply nat_in_env. intros h. by apply nat_zoom. Qed.

Lemma nat_net_queue_add h e pre : natural (net_events_before pre) (event_queue_add h e).
Proof.
  unfold event_queue_add, Event_validate, VoteEvent_validate, ProposalEvent_validate.
  nat_step; by apply nat_modify.
Qed.

Lemma nat_insert_received p from e pre :
  natural (lift (net_events_before pre)) (insert_received p from e).
Proof.
  unfold insert_received, request_missing. apply nat_bind; [by apply nat_zoom|intros md].
  pose proof @nat_in_fetch. pose proof @nat_core. nat_step; auto using nat_read.
  apply nat_in_env. intros h. apply nat_modify. intros ?. unfold net_events_before, set_net_events.
  simpl. by rewrite app_assoc.
Qed.

Lemma on_net_event_natural e pre : natural (lift (net_events_before pre)) (on_net_event e).
Proof.
  pose proof @nat_in_fetch. pose proof @nat_core. pose proof nat_insert_received.
  destruct e; simpl; nat_step; auto; apply nat_in_env; intros h; apply nat_net_queue_add.
Qed.

(** A batch is its events, one by one. *)
Lemma event_batch (s : AppSt V) :
  same_outcome st_events set_st_events (st_events s)
    (run_batch st_events set_st_events on_event s)
    (run_heads st_events set_st_events on_event (length (st_events s)) s).
Proof.
  apply run_batch_heads; [done|done|by intros [? ? ? []]|].
  intros e t pre. pose proof (on_event_natural e pre t) as H.
  by destruct (on_event e t) as [[]|].
Qed.

Lemma net_event_batch (s : AppSt V) :
  same_outcome st_net_events set_st_net_events (st_net_events s)
    (run_batch st_net_events set_st_net_events on_net_event s)
    (run_heads st_net_events set_st_net_events on_net_event (length (st_net_events s)) s).
Proof.
  apply run_batch_heads; [done|done|by intros [? ? ? []]|].
  intros e t pre. pose proof (on_net_event_natural e pre t) as H.
  by destruct (on_net_event e t) as [[]|].
Qed.
End app.
