(* ===== verification/Pacemaker.v ===== *)
(** * The pacemaker

    include/hotstuff/liveness.h: [PaceMakerWaitQC], the application's loop of
    proposing a block and waiting for a certificate on it, over the replica of
    App.v; and what can wake it up. *)

From S2P Require Import Prelude Types ReplicaConfig Certs IoUtils Block BlockStore Lmdb.
From S2P Require Import Consensus Events FetchManager App Safety ReplicaInv StoreInv AppInv.
From S2P Require Import Network Batches.

Record PaceMakerWaitQC := mkPace {
  expected_hash : Hash;
  pace_proposer : ReplicaID;
}.

Section pacemaker.
Context {i_sodium : Sodium} {i_xdr : Xdr} {i_bv : BitVector} {i_fs : Fs} {i_lmdb : LmdbLib}.
Context {V : Type} {i_bridge : VMBridge V}.

Abbreviation PaceSt := (PaceMakerWaitQC * AppSt V)%type.

Definition in_app {A} (m : M (AppSt V) A) : M PaceSt A := zoom snd (λ s p, (p.1, s)) m.
Definition set_proposer_id (r : ReplicaID) : M PaceSt unit :=
  modify (λ p, (mkPace (expected_hash p.1) r, p.2)).
Definition set_expected (h : Hash) : M PaceSt unit :=
  modify (λ p, (mkPace h (pace_proposer p.1), p.2)).

(** The constructor: the proposer of the genesis block, in a new replica. *)
Definition PaceMakerWaitQC_init : M (AppSt V) PaceMakerWaitQC :=
  r <- get_last_proposer ;;
  ret (mkPace zero_hash r).

(** [rotate_proposers]; nothing calls it. *)
Definition rotate_proposers : M PaceSt unit :=
  cfg <- in_app (core config) ;;
  modify (λ p, (mkPace (expected_hash p.1) ((pace_proposer p.1 + 1) mod nreplicas cfg)%N, p.2)).

(** [wait_for_qc]; [false]: the caller is still blocked. *)
Definition wait_for_qc : M PaceSt bool :=
  p <- gets fst ;;
  res <- in_app (in_env (λ _, wait_for_new_qc (expected_hash p))) ;;
  match res with
  | None => ret false
  | Some true => ret true
  | Some false =>
    r <- in_app get_last_proposer ;;
    set_proposer_id r ;;
    ret true
  end.

(** [should_propose], [set_self_as_proposer] *)
Definition should_propose : M PaceSt bool :=
  p <- gets fst ;;
  self <- in_app (core self_id) ;;
  ret (pace_proposer p =? self)%N.
Definition set_self_as_proposer : M PaceSt unit :=
  self <- in_app (core self_id) ;;
  set_proposer_id self.

(** [do_propose] and [do_empty_propose] *)
Definition pace_propose_with (propose : M (AppSt V) Hash) : M PaceSt unit :=
  set_self_as_proposer ;;
  h <- in_app propose ;;
  set_expected h.
Definition pace_do_propose : M PaceSt unit := pace_propose_with do_propose.
Definition pace_do_empty_propose : M PaceSt unit := pace_propose_with do_empty_propose.

(** ** Who proposes *)

(** In a new replica nobody is told to propose: the first proposer is that of
    the genesis block. *)
Lemma pace_init cfg (sk : ReplicaID → SecretKey) (vm : V) r :
  ∃ p, PaceMakerWaitQC_init (init_state cfg sk vm r) = Ok p (init_state cfg sk vm r) ∧
    pace_proposer p = UNKNOWN_REPLICA ∧
    should_propose (p, init_state cfg sk vm r) =
      Ok (UNKNOWN_REPLICA =? r)%N (p, init_state cfg sk vm r).
Proof.
  exists (mkPace zero_hash UNKNOWN_REPLICA). split; [|done].
  unfold PaceMakerWaitQC_init, get_last_proposer, bind, core, gets, read, deref. simpl.
  by rewrite lookup_singleton_eq.
Qed.

(** The wait: blocked without news; a certificate on the expected block keeps
    the proposer, anything else makes it that of the highest certificate. *)
Lemma wait_for_qc_spec p s b :
  st_heap s !! (hqc (st_core s)).1 = Some b →
  wait_for_qc (p, s) =
    let woken q c r := Ok true (mkPace (expected_hash p) r,
      mkSt (st_heap s) (st_disk s) (st_core s) (set_wait q c (st_env s))) in
    match latest_new_qc (st_env s), cancel_wait (st_env s) with
    | None, false => Ok false (p, s)
    | q, true => woken q false (get_proposer b)
    | Some q, false =>
      woken None false (if bool_decide (q = expected_hash p) then pace_proposer p
                        else get_proposer b)
    end.
Proof.
  intros Hb. destruct p as [e r], s as [h d co a]. unfold wait_for_qc, bind, gets, in_app, zoom, in_env, zoom, wait_for_new_qc.
  simpl in *. destruct (latest_new_qc a) as [q|] eqn:Hq, (cancel_wait a) eqn:Hc; simpl.
  - unfold get_last_proposer, bind, core, gets, read, deref. simpl. by rewrite Hb.
  - case_bool_decide; simpl; [done|].
    unfold get_last_proposer, bind, core, gets, read, deref. simpl. by rewrite Hb.
  - unfold get_last_proposer, bind, core, gets, read, deref. simpl. by rewrite Hb.
  - done.
Qed.

(** ** What wakes a waiting pacemaker *)

(** Keeping the two variables of the wait. *)
Definition keeps_wait {A} (m : M (AppSt V) A) : Prop := ∀ s,
  match m s with
  | Ok _ s' | Fault _ s' => latest_new_qc (st_env s') = latest_new_qc (st_env s) ∧
      cancel_wait (st_env s') = cancel_wait (st_env s)
  end.

(** An operation that works the same whatever the two variables are does not
    change them. *)
Lemma natural_keeps_wait {A} (m : M (AppSt V) A) :
  (∀ q c, natural (lift (set_wait q c)) m) → keeps_wait m.
Proof.
  intros Hm s. specialize (Hm (latest_new_qc (st_env s)) (cancel_wait (st_env s)) s).
  replace (lift (set_wait _ _) s) with s in Hm; [|by destruct s as [? ? ? []]].
  destruct (m s) as [a s'|f s']; simpl in Hm; injection Hm as Hs'; rewrite Hs'; done.
Qed.

Lemma nat_queue_add_wait h e q c : natural (set_wait q c) (event_queue_add (V := V) h e).
Proof.
  unfold event_queue_add, Event_validate, VoteEvent_validate, ProposalEvent_validate.
  nat_step; by apply nat_modify.
Qed.

Lemma nat_do_vote_wait h p rid q c : natural (set_wait q c) (app_do_vote (V := V) h p rid).
Proof.
  pose proof nat_queue_add_wait. unfold app_do_vote, send_vote_to, self_vote, PC_sign. nat_step.
Qed.

(** Handling a proposal, from whatever replica, tells the wait nothing. *)
Lemma proposal_keeps_wait p rid : keeps_wait (on_receive_proposal p rid).
Proof.
  apply natural_keeps_wait. intros q c.
  apply nat_receive_proposal; intros; simpl; auto using nat_do_vote_wait with natural;
    try by apply nat_zoom. by apply nat_modify.
Qed.

Section others.
Context (q : option Hash) (c : bool).
Abbreviation T := (lift (set_wait (V := V) q c)).

Lemma nat_in_fetch_wait {A} (m : M BlockFetchManager A) : natural T (in_fetch m).
Proof. apply nat_in_env. intros h. by apply nat_zoom. Qed.

Lemma nat_new_block_wait b : natural T (new_block b).
Proof. done. Qed.

Lemma nat_in_env_wait {A} (m : heap → M (AppBase V) A) :
  (∀ h, natural (set_wait q c) (m h)) → natural T (in_env m).
Proof. apply nat_in_env. Qed.

#[local] Hint Resolve nat_in_fetch_wait nat_new_block_wait nat_core nat_in_core nat_read
  nat_in_env_wait : natural.

Lemma nat_net_queue_add_wait e : natural T (net_queue_add e).
Proof.
  unfold net_queue_add. nat_step. apply nat_in_env. intros h. by apply nat_modify.
Qed.

Lemma nat_insert_received_wait p from e : natural T (insert_received p from e).
Proof.
  unfold insert_received, request_missing. apply nat_bind; [by apply nat_zoom|intros md].
  nat_step. apply nat_in_env. intros h. by apply nat_modify.
Qed.

Lemma nat_net_event_wait e : natural T (on_net_event e).
Proof.
  pose proof nat_insert_received_wait. pose proof nat_queue_add_wait.
  destruct e; simpl; nat_step.
Qed.

Lemma nat_receive_block_wait w from : natural T (receive_block w from).
Proof. unfold receive_block, hash_xdr. nat_step. Qed.

Lemma nat_supports h b self depth : natural T (supports_nonempty_child_proposal h b self depth).
Proof.
  revert b. induction depth; intros b; simpl; nat_step; auto.
  unfold get_justify_hash. nat_step.
Qed.

Lemma nat_propose_wait ne : (∀ b, natural T (ne b)) → natural T (propose_with ne).
Proof.
  intros Hne. pose proof nat_queue_add_wait. pose proof nat_receive_block_wait.
  unfold propose_with, mint_proposal, mint_block, hash_xdr. nat_step; auto.
  - apply nat_in_env. intros h. by apply nat_zoom.
  - by apply nat_zoom.
  - apply nat_in_env. intros h. unfold broadcast_proposal, self_propose. nat_step; auto.
Qed.
End others.

(** The actions that do tell it something: a vote, and the wait's own two. *)
Definition tells_wait (s : AppSt V) (a : action V) : bool :=
  match a with
  | AEvent => match st_events s with EVote _ :: _ => true | _ => false end
  | AWait _ | ACancel => true
  | _ => false
  end.

Lemma action_keeps_wait s a :
  tells_wait s a = false →
  match run_action a s with
  | Ok _ s' | Fault _ s' => latest_new_qc (st_env s') = latest_new_qc (st_env s) ∧
      cancel_wait (st_env s') = cancel_wait (st_env s)
  end.
Proof.
  pose proof nat_net_queue_add_wait. pose proof nat_receive_block_wait.
  assert (Hp : ∀ ne, (∀ q c b, natural (lift (set_wait q c)) (ne b)) →
    keeps_wait (propose_with ne ;; ret tt)).
  { intros ne Hne. apply natural_keeps_wait. intros q c.
    apply nat_bind; [by apply nat_propose_wait|intros ?; apply nat_ret]. }
  intros Ht. destruct a; simpl in *; try done.
  - apply natural_keeps_wait. intros q c. unfold handler_vote.
    pose proof @nat_core. nat_step; auto.
  - apply natural_keeps_wait. intros q c. unfold handler_propose.
    pose proof @nat_core. nat_step; auto using nat_new_block_wait.
  - apply natural_keeps_wait. intros q c. unfold worker_response.
    nat_step; auto using nat_new_block_wait. by intros ?.
  - unfold run_head. destruct (st_net_events s) as [|e es]; [done|].
    apply (natural_keeps_wait (on_net_event e) (λ q c, nat_net_event_wait q c e)
      (set_st_net_events es s)).
  - unfold run_head. destruct (st_events s) as [|[v|p] es]; [done|done|].
    apply (proposal_keeps_wait (pe_block p) (pe_rid p) (set_st_events es s)).
  - apply Hp. intros q c b s'. apply nat_supports.
  - apply Hp. intros q c b. apply nat_ret.
  - apply natural_keeps_wait. intros q c. by apply nat_zoom.
Qed.

(** A vote tells it the block's hash, when it completes a quorum and not
    otherwise. *)
Lemma vote_wakes pc p rid s b qc :
  st_heap s !! p = Some b → add_partial_certificate rid pc (get_self_qc b) = Ok tt qc →
  let cfg := config (st_core s) in
  wp (on_receive_vote pc p rid)
    (λ _ s', latest_new_qc (st_env s') =
       (if has_quorum cfg qc && negb (has_quorum cfg (get_self_qc b)) then Some (get_hash b)
        else latest_new_qc (st_env s)) ∧
       cancel_wait (st_env s') = cancel_wait (st_env s)) (λ _ _, True) s.
Proof.
  intros Hb Hqc cfg. unfold on_receive_vote.
  apply wp_bind, (wp_read _ _ b); [done|]. apply wp_bind, wp_gets. fold cfg. rewrite Hqc.
  apply wp_bind, wp_modify, wp_when; intros ->; [|done]. apply wp_bind.
  pose proof (natural_keeps_wait (update_hqc p qc)) as Hk. unfold keeps_wait in Hk.
  set (s1 := mkSt _ _ _ _). specialize (λ H, Hk H s1). unfold wp at 1.
  destruct (update_hqc p qc s1) as [u s2|]; [|done]. destruct Hk as [_ Hc].
  { intros q c. apply nat_update_hqc. intros; simpl; apply nat_ret. }
  unfold wp. simpl. done.
Qed.
End pacemaker.
