(* ===== verification/SpecGadget.v ===== *)
(** * The speculation gadget

    hotstuff/vm/speculative_exec_gadget.h: the list of speculatively executed
    (height, vm block id) entries.  [last_elt_iter] always points at the last
    entry, or past the end of an empty list, so appending after it appends to
    the list.  The gadget's mutex is a flag: locking it again from the same
    thread never returns. *)

From S2P Require Import Prelude.

Record SpeculativeExecGadget (VMValueType : Type) := mkGadget {
  height_map : list (N * VMValueType);
  speculation_head_hotstuff_height : N;
  highest_committed_height : N;
  gadget_locked : bool;
}.
Arguments mkGadget {_}.
Arguments height_map {_}.
Arguments speculation_head_hotstuff_height {_}.
Arguments highest_committed_height {_}.
Arguments gadget_locked {_}.

Section gadget.
Context {VMValueType : Type}.
Abbreviation Gadget := (SpeculativeExecGadget VMValueType).

Definition SpeculativeExecGadget_init : Gadget := mkGadget [] 1 0 false.

Definition set_locked (b : bool) (g : Gadget) : Gadget :=
  mkGadget (height_map g) (speculation_head_hotstuff_height g)
    (highest_committed_height g) b.

(** [std::lock_guard]: released on every way out. *)
Definition with_gadget_lock {A} (m : M Gadget A) : M Gadget A := λ g,
  if gadget_locked g then Halt SelfDeadlock g
  else match m (set_locked true g) with
       | Ok a g' => Ok a (set_locked false g')
       | Fault f g' => Fault f (set_locked false g')
       end.

(** [empty] *)
Definition gadget_empty (g : Gadget) : bool := bool_decide (height_map g = []).

(** [add_height_pair] *)
Definition add_height_pair (hotstuff_height : N) (vm_value : VMValueType) : M Gadget unit :=
  modify (λ g,
    if (speculation_head_hotstuff_height g =? hotstuff_height)%N then
      mkGadget (height_map g ++ [(hotstuff_height, vm_value)])
        (u64 (speculation_head_hotstuff_height g + 1)) (highest_committed_height g)
        (gadget_locked g)
    else g).

(** [on_commit_hotstuff] *)
Definition on_commit_hotstuff (hotstuff_height : N) : M Gadget VMValueType :=
  with_gadget_lock (λ g,
    match height_map g with
    | [] => Throw (RuntimeError ("committing on empty map at hs height " +:+
                                   pretty hotstuff_height)) g
    | (front_height, out) :: rest =>
      if negb (hotstuff_height =? front_height)%N then
        Throw (RuntimeError "gap in commit log!") g
      else Ok out (mkGadget rest (speculation_head_hotstuff_height g) front_height
                     (gadget_locked g))
    end).

(** [clear] *)
Definition gadget_clear : M Gadget unit :=
  with_gadget_lock (modify (λ g,
    mkGadget [] (u64 (highest_committed_height g + 1)) (highest_committed_height g)
      (gadget_locked g))).

(** [init_from_disk] *)
Definition gadget_init_from_disk (highest_decided_height : N) : M Gadget unit :=
  modify (λ g, mkGadget (height_map g) (speculation_head_hotstuff_height g)
                 highest_decided_height (gadget_locked g)) ;;
  gadget_clear.

(** [get_lowest_speculative_hotstuff_height] *)
Definition get_lowest_speculative {S} (g : Gadget) : M S (N * VMValueType) :=
  match height_map g with
  | [] => throw (RuntimeError "can't access from empty list!")
  | e :: _ => ret e
  end.

(** ** Properties *)

(** The entries are the heights right after the last commit, in order. *)
Definition gadget_wf (g : Gadget) : Prop :=
  (height_map g).*1 =
    (λ i, highest_committed_height g + 1 + N.of_nat i)%N <$> seq 0 (length (height_map g)) ∧
  speculation_head_hotstuff_height g =
    (highest_committed_height g + 1 + N.of_nat (length (height_map g)))%N ∧
  (speculation_head_hotstuff_height g < 2 ^ 64)%N.

Lemma gadget_init_wf : gadget_wf SpeculativeExecGadget_init.
Proof. done. Qed.

(** Only the next height is logged; any other call changes nothing. *)
Lemma add_height_pair_spec h v g :
  gadget_wf g →
  ∃ g', add_height_pair h v g = Ok tt g' ∧
    ((h = speculation_head_hotstuff_height g ∧ height_map g' = height_map g ++ [(h, v)]) ∨
     (h ≠ speculation_head_hotstuff_height g ∧ g' = g)).
Proof.
  intros _. eexists. split; [done|].
  destruct (N.eqb_spec (speculation_head_hotstuff_height g) h); simpl; auto.
Qed.

Lemma add_height_pair_wf h v g g' :
  gadget_wf g → (speculation_head_hotstuff_height g + 1 < 2 ^ 64)%N →
  add_height_pair h v g = Ok tt g' → gadget_wf g'.
Proof.
  intros Hwf Hb Hrun. pose proof Hwf as (Hm & Hh & _).
  unfold add_height_pair, modify in Hrun. simplify_eq.
  destruct (N.eqb_spec (speculation_head_hotstuff_height g) h) as [<-|]; [|done].
  unfold gadget_wf. simpl. rewrite u64_small by done.
  rewrite length_app, fmap_app, seq_app, fmap_app, Hm. simpl.
  repeat split; [|lia|lia]. by rewrite Hh.
Qed.

(** Committing takes the lowest entry; any other height is an error that
    changes nothing. *)
Lemma on_commit_spec h g :
  gadget_wf g → gadget_locked g = false →
  match height_map g with
  | [] => ∃ e, on_commit_hotstuff h g = Throw e g
  | (h0, v) :: rest =>
    if (h =? h0)%N then
      on_commit_hotstuff h g =
        Ok v (mkGadget rest (speculation_head_hotstuff_height g) h0 false)
    else ∃ e, on_commit_hotstuff h g = Throw e g
  end.
Proof.
  intros _ Hl. unfold on_commit_hotstuff, with_gadget_lock. rewrite Hl. simpl.
  destruct g as [hm hd hc lk]. simpl in *. subst lk.
  destruct hm as [|[h0 v] rest]; [by eexists|]. destruct (h =? h0)%N; simpl; [done|by eexists].
Qed.

Lemma on_commit_wf h g v g' :
  gadget_wf g → on_commit_hotstuff h g = Ok v g' →
  gadget_wf g' ∧ h = (highest_committed_height g + 1)%N ∧
  highest_committed_height g' = h ∧ height_map g = (h, v) :: height_map g'.
Proof.
  intros (Hm & Hh & Hb) Hrun. unfold on_commit_hotstuff, with_gadget_lock in Hrun.
  destruct (gadget_locked g); [done|]. simpl in Hrun.
  destruct (height_map g) as [|[h0 v0] rest] eqn:Hmap; [done|].
  destruct (N.eqb_spec h h0) as [->|]; simpl in Hrun; [|done]. injection Hrun as <- <-. simpl in *.
  pose proof (f_equal (head (A := N)) Hm) as Hh0. simpl in Hh0. injection Hh0 as Hh0.
  assert (Hrest : rest.*1 = (λ i, highest_committed_height g + 1 + N.of_nat i)%N <$>
            seq 1 (length rest)) by exact (f_equal (@tail N) Hm).
  assert (Heq : h0 = (highest_committed_height g + 1)%N) by lia.
  split; [|done]. split; [|split; simpl; lia]. simpl. rewrite Hrest.
  rewrite <- fmap_S_seq, <- list_fmap_compose. apply list_fmap_ext.
  intros i x _. simpl. lia.
Qed.

Lemma gadget_clear_wf g g' :
  gadget_wf g → gadget_clear g = Ok tt g' →
  gadget_wf g' ∧ height_map g' = [] ∧ highest_committed_height g' = highest_committed_height g.
Proof.
  intros (Hm & Hh & Hb) Hrun. unfold gadget_clear, with_gadget_lock in Hrun.
  destruct (gadget_locked g); [done|]. simpl in Hrun. unfold set_locked in Hrun. simpl in Hrun.
  simplify_eq. simpl. split; [|done]. unfold gadget_wf. simpl.
  assert (highest_committed_height g + 1 < 2 ^ 64)%N by lia.
  rewrite u64_small by done. repeat split; lia.
Qed.

(** A thread that holds the gadget's lock cannot clear it. *)
Lemma gadget_clear_locked g : gadget_locked g = true → gadget_clear g = Halt SelfDeadlock g.
Proof. intros Hl. unfold gadget_clear, with_gadget_lock. by rewrite Hl. Qed.
End gadget.
