(* ===== verification/VMControl.v ===== *)
(** * The virtual machine and its control interface

    include/hotstuff/vm/vm_base.h ([VMBase], [VMBlock]) as a class, the example
    machine examples/vm/counting_vm.{h,cc}, and
    hotstuff/vm/vm_control_interface.{h,cc}: the buffers between consensus and
    the machine and the worker thread that runs the machine.  [run_once] is one
    iteration of the worker.  How many of them happen while another thread waits
    is not determined by the sources, and [wait_for_async_task] is of the utils
    submodule: both are the class [AsyncWait], whose laws say what a wait may
    end in.  The threads themselves are in VMThreads.v. *)

From S2P Require Import Prelude Types ReplicaConfig Certs IoUtils Block Lmdb.

(** ** VMBase *)

Class VMBase := {
  VMState : Type;
  VMBlock : Type;
  get_id : VMBlock → VMBlockID;
  vm_serialize : VMBlock → bytes;
  try_parse : bytes → option VMBlock;
  vm_init_clean : M VMState unit;
  propose : M VMState (option VMBlock);
  exec_block : VMBlock → M VMState unit;
  vm_log_commitment : VMBlockID → M VMState unit;
  rewind_to_last_commit : M VMState unit;
}.

(** [VMBase::nonempty_block_id], [empty_block_id]; [get_block_id] of both bridges. *)
Definition nonempty_block_id {i_vm : VMBase} (b : VMBlock) : VMBlockID := get_id b.
Definition empty_block_id : VMBlockID := VMBlockID_null.
Definition get_block_id {i_vm : VMBase} (b : option VMBlock) : VMBlockID :=
  match b with
  | Some b => nonempty_block_id b
  | None => empty_block_id
  end.

(** ** include/hotstuff/log_access_wrapper.h

    A view of the decided blocks for the machine: the index, and the replica
    whose files hold the blocks. *)

Section log_access.
Context {i_sodium : Sodium} {i_xdr : Xdr} {i_bv : BitVector} {i_fs : Fs} {i_lmdb : LmdbLib}.

Record LogAccessWrapper := mkLog {
  log_lmdb : DB;
  log_info : ReplicaInfo;
}.

(** What [++] visits from [begin()] to [end()]. *)
Definition log_entries (l : LogAccessWrapper) : list (bytes * bytes) :=
  forward_cursor (log_lmdb l).

(** [load_vm_block<vm_block_type>], [construct] being the constructor of
    [vm_block_type]. *)
Definition load_vm_block {A} (construct : bytes → M Disk A) (l : LogAccessWrapper) (h : Hash)
  : M Disk A :=
  unparsed <- load_block_unparsed h (log_info l) ;;
  match unparsed with
  | None => throw (RuntimeError "failed to load expected block")
  | Some bs => construct bs
  end.

(** [VMBase::init_from_disk]: it may read the log and the files. *)
Class VMRestore {i_vm : VMBase} := {
  vm_init_from_disk : LogAccessWrapper → M (VMState * Disk) unit;
}.
End log_access.

(** ** CountingVM *)

Record CountingVM := mkCounting {
  cvm_state : N;
  last_committed_state : N;
}.

Section counting.
Context {i_sodium : Sodium} {i_xdr : Xdr} {i_bv : BitVector} {i_fs : Fs} {i_lmdb : LmdbLib}.

(** [CountingVMBlock(xdr::opaque_vec<> const&)] *)
Definition CountingVMBlock_of {S} (v : bytes) : M S N :=
  match xdr_uint64_from v with
  | Some n => ret n
  | None => throw XdrError
  end.

Definition counting_init_clean : M CountingVM unit := λ _, Ok tt (mkCounting 0 0).

Definition counting_propose : M CountingVM (option N) := λ s,
  let st := u64 (cvm_state s + 1) in Ok (Some st) (mkCounting st (last_committed_state s)).

Definition counting_exec_block (value : N) : M CountingVM unit :=
  modify (λ s, if (value =? u64 (cvm_state s + 1))%N
               then mkCounting (u64 (cvm_state s + 1)) (last_committed_state s) else s).

Definition counting_log_commitment (i : VMBlockID) : M CountingVM unit :=
  match vmid_value i with
  | None => ret tt
  | Some bs =>
    match xdr_uint64_from bs with
    | None => throw XdrError
    | Some res => modify (λ s, mkCounting (cvm_state s) res)
    end
  end.

Definition counting_rewind : M CountingVM unit :=
  modify (λ s, mkCounting (last_committed_state s) (last_committed_state s)).

#[export] Instance counting_vm : VMBase := {|
  VMState := CountingVM;
  VMBlock := N;
  get_id := λ v, VMBlockID_of (xdr_uint64 v);
  vm_serialize := xdr_uint64;
  try_parse := xdr_uint64_from;
  vm_init_clean := counting_init_clean;
  propose := counting_propose;
  exec_block := counting_exec_block;
  vm_log_commitment := counting_log_commitment;
  rewind_to_last_commit := counting_rewind;
|}.

(** The loop body of [CountingVM::init_from_disk]. *)
Fixpoint counting_replay (l : LogAccessWrapper) (entries : list (bytes * bytes))
  : M (CountingVM * Disk) unit :=
  match entries with
  | [] => ret tt
  | e :: entries =>
    hid <- get_hs_hash_and_vm_data e ;;
    when (vmid_bool (hid.2))
      (loaded <- zoom snd (λ d s, (s.1, d)) (load_vm_block CountingVMBlock_of l (hid.1)) ;;
       zoom fst (λ v s, (v, s.2)) (counting_exec_block loaded) ;;
       zoom fst (λ v s, (v, s.2)) (counting_log_commitment (hid.2))) ;;
    counting_replay l entries
  end.

(** [CountingVM::init_from_disk] *)
Definition counting_init_from_disk (l : LogAccessWrapper) : M (CountingVM * Disk) unit :=
  counting_replay l (log_entries l).

#[export] Instance counting_restore : VMRestore (i_vm := counting_vm) := {|
  vm_init_from_disk := counting_init_from_disk;
|}.
End counting.

(** ** VMControlInterface *)

Section control.
Context {i_vm : VMBase}.

Record VMControlInterface := mkControl {
  vm_instance : VMState;
  PROPOSAL_BUFFER_TARGET : N;
  immediately_refill : bool;
  blocks_to_validate : list (option VMBlock);
  proposal_buffer : list (option VMBlock);
  additional_proposal_requests : N;
  is_proposer : bool;
  highest_committed_id : option VMBlockID;
}.

(** [done_flag] of the base class, which only [terminate_worker] sets: this is
    an interface in use, whose destructor has not started. *)
Definition done_flag (c : VMControlInterface) : bool := false.

(** The constructor. *)
Definition VMControlInterface_init (vm : VMState) (proposal_buffer_target : N) (refill : bool)
  : VMControlInterface :=
  mkControl vm proposal_buffer_target refill [] [] 0 false None.

Definition set_vm_instance (v : VMState) (c : VMControlInterface) : VMControlInterface :=
  mkControl v (PROPOSAL_BUFFER_TARGET c) (immediately_refill c) (blocks_to_validate c)
    (proposal_buffer c) (additional_proposal_requests c) (is_proposer c)
    (highest_committed_id c).
Definition set_blocks (l : list (option VMBlock)) (c : VMControlInterface) : VMControlInterface :=
  mkControl (vm_instance c) (PROPOSAL_BUFFER_TARGET c) (immediately_refill c) l
    (proposal_buffer c) (additional_proposal_requests c) (is_proposer c)
    (highest_committed_id c).
Definition set_buffer (l : list (option VMBlock)) (n : N) (c : VMControlInterface)
  : VMControlInterface :=
  mkControl (vm_instance c) (PROPOSAL_BUFFER_TARGET c) (immediately_refill c)
    (blocks_to_validate c) l n (is_proposer c) (highest_committed_id c).
Definition set_committed_id (i : option VMBlockID) (c : VMControlInterface)
  : VMControlInterface :=
  mkControl (vm_instance c) (PROPOSAL_BUFFER_TARGET c) (immediately_refill c)
    (blocks_to_validate c) (proposal_buffer c) (additional_proposal_requests c)
    (is_proposer c) i.
Definition set_is_proposer (b : bool) (c : VMControlInterface) : VMControlInterface :=
  mkControl (vm_instance c) (PROPOSAL_BUFFER_TARGET c) (immediately_refill c)
    (blocks_to_validate c) (proposal_buffer c) (additional_proposal_requests c)
    b (highest_committed_id c).
Definition set_target (n : N) (c : VMControlInterface) : VMControlInterface :=
  mkControl (vm_instance c) n (immediately_refill c)
    (blocks_to_validate c) (proposal_buffer c) (additional_proposal_requests c)
    (is_proposer c) (highest_committed_id c).

Definition in_vm_instance {A} (m : M VMState A) : M VMControlInterface A :=
  zoom vm_instance set_vm_instance m.

(** [init_clean] and [init_from_disk] *)
Definition control_init_clean : M VMControlInterface unit := in_vm_instance vm_init_clean.
Definition control_init_from_disk {i_lmdb : LmdbLib} {i_restore : VMRestore}
    (decided_block_cache : LogAccessWrapper) : M (VMControlInterface * Disk) unit :=
  zoom (λ s, (vm_instance s.1, s.2)) (λ vd s, (set_vm_instance vd.1 s.1, vd.2))
    (vm_init_from_disk decided_block_cache).

(** [exists_work_to_do] *)
Definition vm_work_to_do (c : VMControlInterface) : bool :=
  negb (bool_decide (blocks_to_validate c = [])) ||
  ((0 <? additional_proposal_requests c)%N && is_proposer c) ||
  bool_decide (is_Some (highest_committed_id c)).

(** The inner loop of [run] over [blocks_to_validate]. *)
Fixpoint exec_blocks (l : list (option VMBlock)) : M VMControlInterface unit :=
  match l with
  | [] => ret tt
  | b :: l =>
    modify (set_blocks l) ;;
    match b with
    | Some blk => in_vm_instance (exec_block blk)
    | None => ret tt
    end ;;
    exec_blocks l
  end.

(** The last part of an iteration: an additional proposal. *)
Definition make_proposal : M VMControlInterface unit :=
  c <- gets (λ c, c) ;;
  if (0 <? additional_proposal_requests c)%N then
    if negb (is_proposer c) then throw (RuntimeError "vm thread woke up early")
    else
      p <- in_vm_instance propose ;;
      modify (λ c, set_buffer (proposal_buffer c ++ [p])
                     (additional_proposal_requests c - 1) c)
  else ret tt.

(** One iteration of [run], when there is work and the worker is not
    shutting down. *)
Definition run_once : M VMControlInterface unit :=
  c <- gets (λ c, c) ;;
  if done_flag c || negb (vm_work_to_do c) then ret tt
  else
    exec_blocks (blocks_to_validate c) ;;
    match highest_committed_id c with
    | None => ret tt
    | Some i =>
      in_vm_instance (vm_log_commitment i) ;;
      modify (set_committed_id None)
    end ;;
    make_proposal.

(** ** Waiting for the worker *)

(** A turn of the worker, and any number of them. *)
Definition worker_turn (c c' : VMControlInterface) : Prop :=
  vm_work_to_do c = true ∧ run_once c = Ok tt c'.

(** How a wait for [pred] that starts in [c] may end: after some turns of the
    worker with [pred]; with a turn that stops the process; or never, when the
    worker has nothing more to do and [pred] has not held. *)
Definition waited (pred : VMControlInterface → bool) (c : VMControlInterface)
    (res : Res VMControlInterface unit) : Prop :=
  match res with
  | Ok _ c' => rtc worker_turn c c' ∧ pred c' = true
  | Fault f c' =>
    (∃ c1, rtc worker_turn c c1 ∧ vm_work_to_do c1 = true ∧ run_once c1 = Fault f c') ∨
    (f = Stop Blocked ∧ rtc worker_turn c c' ∧ vm_work_to_do c' = false ∧
     ∀ c1, rtc worker_turn c c1 → pred c1 = false)
  end.

(** [wait_for_async_task] waits until there is no work; [cv_wait pred] is
    [cv.wait(lock, pred)] in a thread other than the worker. *)
Class AsyncWait := {
  wait_for_async_task : M VMControlInterface unit;
  cv_wait : (VMControlInterface → bool) → M VMControlInterface unit;
  async_waited : ∀ c, waited (λ c, negb (vm_work_to_do c)) c (wait_for_async_task c);
  cv_waited : ∀ pred c, waited pred c (cv_wait pred c);
}.
Context {i_async : AsyncWait}.

(** [set_proposer] *)
Definition set_proposer : M VMControlInterface unit := modify (set_is_proposer true).

(** The end of [get_proposal], once the buffer is not empty. *)
Definition take_proposal : M VMControlInterface (option VMBlock) := λ c,
  match proposal_buffer c with
  | [] => Halt NullDeref c
  | out :: rest =>
    Ok out
      (set_buffer rest
         (if immediately_refill c then
            (if (PROPOSAL_BUFFER_TARGET c <? N.of_nat (length rest))%N then 0
             else PROPOSAL_BUFFER_TARGET c - N.of_nat (length rest))%N
          else additional_proposal_requests c) c)
  end.

(** [get_proposal] *)
Definition get_proposal : M VMControlInterface (option VMBlock) :=
  c <- gets (λ c, c) ;;
  if negb (is_proposer c) then ret None
  else if done_flag c then ret None
  else if bool_decide (proposal_buffer c = []) then
    modify (λ c, set_buffer (proposal_buffer c)
      (N.max (additional_proposal_requests c) (PROPOSAL_BUFFER_TARGET c)) c) ;;
    if (PROPOSAL_BUFFER_TARGET c =? 0)%N then ret None
    else
      cv_wait (λ c, done_flag c || negb (bool_decide (proposal_buffer c = []))) ;;
      take_proposal
  else take_proposal.

Definition clear_proposal_settings (c : VMControlInterface) : VMControlInterface :=
  set_is_proposer false (set_buffer [] 0 c).

(** [submit_block_for_exec] *)
Definition submit_block_for_exec (submission : option VMBlock) : M VMControlInterface unit :=
  wait_for_async_task ;;
  modify clear_proposal_settings ;;
  modify (λ c, set_blocks (blocks_to_validate c ++ [submission]) c).

(** [log_commitment] *)
Definition log_commitment (block_id : VMBlockID) : M VMControlInterface unit :=
  wait_for_async_task ;;
  modify (λ c, if vmid_bool block_id then set_committed_id (Some block_id) c else c).

(** [finish_work_and_force_rewind] *)
Definition finish_work_and_force_rewind : M VMControlInterface unit :=
  wait_for_async_task ;;
  in_vm_instance rewind_to_last_commit.

Definition proposal_buffer_is_empty (c : VMControlInterface) : bool :=
  bool_decide (proposal_buffer c = []) && (PROPOSAL_BUFFER_TARGET c =? 0)%N &&
  (additional_proposal_requests c =? 0)%N.

Definition stop_proposals : M VMControlInterface unit := modify (set_target 0).
End control.

(** ** Properties of the control interface *)

(** The faults a machine's methods may end in. *)
Class VMFaults {i_vm : VMBase} (P : fault → Prop) := {
  propose_faults : ∀ v, wp propose (λ _ _, True) (λ f _, P f) v;
  exec_faults : ∀ b v, wp (exec_block b) (λ _ _, True) (λ f _, P f) v;
  log_faults : ∀ i v, wp (vm_log_commitment i) (λ _ _, True) (λ f _, P f) v;
  rewind_faults : ∀ v, wp rewind_to_last_commit (λ _ _, True) (λ f _, P f) v;
}.

#[export] Instance counting_faults {i_xdr : Xdr} : VMFaults (i_vm := counting_vm) (λ f, f = Exn XdrError).
Proof.
  split; try done. intros i v. unfold wp. simpl. unfold counting_log_commitment.
  destruct (vmid_value i) as [bs|]; [|done]. by destruct (xdr_uint64_from bs).
Qed.

Section control_props.
Context {i_vm : VMBase} (P : fault → Prop) {i_faults : VMFaults P}.

(** Proposals are requested only in proposer mode. *)
Definition control_wf (c : VMControlInterface) : Prop :=
  (0 < additional_proposal_requests c)%N → is_proposer c = true.

(** What an iteration leaves of a state: the parts it does not touch. *)
Definition same_settings (c c' : VMControlInterface) : Prop :=
  is_proposer c' = is_proposer c ∧ PROPOSAL_BUFFER_TARGET c' = PROPOSAL_BUFFER_TARGET c ∧
  immediately_refill c' = immediately_refill c.

Lemma in_vm_instance_wp {A} (m : M VMState A) c :
  (∀ v, wp m (λ _ _, True) (λ f _, P f) v) →
  wp (in_vm_instance m) (λ _ c', ∃ v, c' = set_vm_instance v c) (λ f _, P f) c.
Proof.
  intros Hm. unfold in_vm_instance. apply wp_zoom.
  eapply wp_mono; [apply Hm|simpl; eauto|done].
Qed.

Lemma exec_blocks_wp l c :
  wp (exec_blocks l)
    (λ _ c', same_settings c c' ∧ blocks_to_validate c' = (if l then blocks_to_validate c else []) ∧
       proposal_buffer c' = proposal_buffer c ∧ highest_committed_id c' = highest_committed_id c ∧
       additional_proposal_requests c' = additional_proposal_requests c)
    (λ f _, P f) c.
Proof using i_faults.
  revert c. induction l as [|b l IH]; intros c; simpl; [by apply wp_ret|].
  apply wp_bind, wp_modify, wp_bind.
  assert (Hrest : ∀ v, wp (exec_blocks l)
    (λ _ c', same_settings c c' ∧ blocks_to_validate c' = [] ∧
       proposal_buffer c' = proposal_buffer c ∧ highest_committed_id c' = highest_committed_id c ∧
       additional_proposal_requests c' = additional_proposal_requests c)
    (λ f _, P f) (set_vm_instance v (set_blocks l c))).
  { intros v. eapply wp_mono; [apply IH| |done]. simpl. intros _ c' (Hs & Hb & ?).
    split; [exact Hs|]. split; [|done]. rewrite Hb. by destruct l. }
  destruct b as [blk|].
  - eapply wp_mono; [apply in_vm_instance_wp, exec_faults| |done].
    intros _ c' [v ->]. apply Hrest.
  - apply wp_ret. specialize (Hrest (vm_instance c)). destruct c. exact Hrest.
Qed.

(** The outcome of an iteration from [c]. *)
Definition iterated (c c' : VMControlInterface) : Prop :=
  control_wf c' ∧ same_settings c c' ∧ blocks_to_validate c' = [] ∧
  highest_committed_id c' = None ∧
  additional_proposal_requests c' = (additional_proposal_requests c - 1)%N ∧
  ∃ ps, proposal_buffer c' = proposal_buffer c ++ ps ∧
    length ps = if (0 <? additional_proposal_requests c)%N then 1 else 0.

Lemma make_proposal_wp c c2 :
  control_wf c → same_settings c c2 → blocks_to_validate c2 = [] →
  highest_committed_id c2 = None → proposal_buffer c2 = proposal_buffer c →
  additional_proposal_requests c2 = additional_proposal_requests c →
  wp make_proposal (λ _ c', iterated c c') (λ f _, P f) c2.
Proof using i_faults.
  intros Hwf S2 B2 I2 Bu2 A2. pose proof S2 as (Hpr & _). unfold make_proposal.
  apply wp_bind, wp_gets. rewrite A2.
  destruct (N.ltb_spec 0 (additional_proposal_requests c)) as [Hpos|Hz].
  - rewrite Hpr, (Hwf Hpos). simpl. apply wp_bind.
    eapply wp_mono; [apply in_vm_instance_wp, propose_faults| |done].
    intros p c3 [v ->]. apply wp_modify. unfold iterated. simpl. rewrite A2, Bu2.
    split; [intros _; simpl; by rewrite Hpr, (Hwf Hpos)|].
    split; [exact S2|]. do 3 (split; [done|]). exists [p].
    by rewrite (proj2 (N.ltb_lt _ _) Hpos).
  - apply wp_ret. split; [intros ?; lia|]. split; [done|]. split; [done|]. split; [done|].
    split; [lia|]. exists []. rewrite app_nil_r. split; [done|].
    by rewrite (proj2 (N.ltb_ge _ _) Hz).
Qed.

(** An iteration empties the queues of blocks and commitments and takes one
    proposal request; it never finds a request outside proposer mode. *)
Lemma run_once_wp c :
  control_wf c → vm_work_to_do c = true →
  wp run_once (λ _ c', iterated c c') (λ f _, P f) c.
Proof using i_faults.
  intros Hwf Hw. unfold run_once. apply wp_bind, wp_gets. rewrite Hw. simpl.
  apply wp_bind. eapply wp_mono; [apply exec_blocks_wp| |done].
  intros _ c1 (S1 & B1 & Bu1 & I1 & A1). apply wp_bind.
  assert (Hb1 : blocks_to_validate c1 = []) by (rewrite B1; by destruct (blocks_to_validate c)).
  destruct (highest_committed_id c) as [i|] eqn:Hid.
  - apply wp_bind. eapply wp_mono; [apply in_vm_instance_wp, log_faults| |done].
    intros _ c2 [v ->]. apply wp_modify. by apply make_proposal_wp.
  - apply wp_ret. apply make_proposal_wp; try done; congruence.
Qed.

(** With a request outside proposer mode an iteration throws. *)
Lemma run_once_early c :
  ¬ control_wf c → vm_work_to_do c = true →
  wp run_once (λ _ _, False)
    (λ f _, P f ∨ f = Exn (RuntimeError "vm thread woke up early")) c.
Proof using i_faults.
  intros Hwf Hw. unfold run_once. apply wp_bind, wp_gets. rewrite Hw. simpl.
  assert (Hm : ∀ c', is_proposer c' = is_proposer c →
    additional_proposal_requests c' = additional_proposal_requests c →
    wp make_proposal (λ _ _, False)
      (λ f _, P f ∨ f = Exn (RuntimeError "vm thread woke up early")) c').
  { intros c' Hp Ha. unfold make_proposal. apply wp_bind, wp_gets. rewrite Hp, Ha.
    unfold control_wf in Hwf. destruct (is_proposer c); [by destruct Hwf|].
    destruct (N.ltb_spec 0 (additional_proposal_requests c)); [by right|].
    destruct Hwf. lia. }
  apply wp_bind. eapply wp_mono; [apply exec_blocks_wp| |auto].
  intros _ c1 ((Hp & _) & _ & _ & _ & A1). apply wp_bind.
  destruct (highest_committed_id c) as [i|]; [|apply wp_ret; by apply Hm].
  apply wp_bind. eapply wp_mono; [apply in_vm_instance_wp, log_faults| |auto].
  intros _ c2 [v ->]. apply wp_modify. by apply Hm.
Qed.

Lemma no_work c :
  blocks_to_validate c = [] → highest_committed_id c = None →
  additional_proposal_requests c = 0%N → vm_work_to_do c = false.
Proof. intros Hb Hi Ha. unfold vm_work_to_do. by rewrite Hb, Hi, Ha. Qed.

Lemma work_left c :
  control_wf c → vm_work_to_do c = false →
  blocks_to_validate c = [] ∧ highest_committed_id c = None ∧ additional_proposal_requests c = 0%N.
Proof.
  intros Hwf Hw. unfold vm_work_to_do in Hw. apply orb_false_iff in Hw as [Hw Hi].
  apply orb_false_iff in Hw as [Hb Ha]. apply negb_false_iff, bool_decide_eq_true in Hb.
  apply bool_decide_eq_false in Hi. destruct (highest_committed_id c); [by destruct Hi|].
  split; [done|]. split; [done|]. destruct (N.ltb_spec 0 (additional_proposal_requests c)); [|lia].
  by rewrite Hwf in Ha.
Qed.

(** What is left of the state once the worker is idle. *)
Definition idled (c c' : VMControlInterface) : Prop :=
  control_wf c' ∧ same_settings c c' ∧ blocks_to_validate c' = [] ∧
  highest_committed_id c' = None ∧ additional_proposal_requests c' = 0%N ∧
  ∃ ps, proposal_buffer c' = proposal_buffer c ++ ps ∧
    length ps = N.to_nat (additional_proposal_requests c).

(** What turns of the worker leave of a state. *)
Definition advanced_from (c c' : VMControlInterface) : Prop :=
  control_wf c' ∧ same_settings c c' ∧
  ∃ ps, proposal_buffer c' = proposal_buffer c ++ ps ∧
    additional_proposal_requests c = (additional_proposal_requests c' + N.of_nat (length ps))%N.

Lemma turn_advances c c' :
  control_wf c → worker_turn c c' → advanced_from c c'.
Proof using i_faults.
  intros Hwf [Hw Hr]. pose proof (run_once_wp c Hwf Hw) as H. unfold wp in H. rewrite Hr in H.
  destruct H as (Hwf' & S' & _ & _ & A' & ps & Hps & Hlen). split_and!; [done..|].
  exists ps. split; [done|]. rewrite A', Hlen.
  destruct (N.ltb_spec 0 (additional_proposal_requests c)); simpl; lia.
Qed.

Lemma turns_advance c c' :
  control_wf c → rtc worker_turn c c' → advanced_from c c'.
Proof using i_faults.
  intros Hwf Ht. revert Hwf. induction Ht as [c|c c1 c' H1 _ IH]; intros Hwf.
  { split_and!; [done|by repeat split|]. exists []. rewrite app_nil_r. simpl. by rewrite N.add_0_r. }
  destruct (turn_advances c c1 Hwf H1) as (Hwf1 & (? & ? & ?) & ps1 & Hps1 & A1).
  destruct (IH Hwf1) as (Hwf' & (? & ? & ?) & ps & Hps & A'). split; [done|].
  split; [repeat split; congruence|]. exists (ps1 ++ ps).
  rewrite Hps, Hps1, app_assoc, A1, A', length_app. split; [done|lia].
Qed.

Lemma turns_idled c c' :
  control_wf c → rtc worker_turn c c' → vm_work_to_do c' = false → idled c c'.
Proof using i_faults.
  intros Hwf Ht Hw. destruct (turns_advance c c' Hwf Ht) as (Hwf' & Hs & ps & Hps & Ha).
  destruct (work_left c' Hwf' Hw) as (Hb & Hi & Ha'). split_and!; try done.
  exists ps. split; [done|]. rewrite Ha, Ha'. lia.
Qed.

Section waits.
Context {i_async : AsyncWait}.

(** A wait that is not stuck ends in [Q], or in a fault of the machine. *)
Lemma waited_wp pred (m : M VMControlInterface unit) (Q : VMControlInterface → Prop) c :
  control_wf c → waited pred c (m c) →
  (∀ c', rtc worker_turn c c' → pred c' = true → Q c') →
  (∀ c', rtc worker_turn c c' → vm_work_to_do c' = false →
     ∃ c1, rtc worker_turn c c1 ∧ pred c1 = true) →
  wp m (λ _ c', Q c') (λ f _, P f) c.
Proof using i_faults.
  intros Hwf Hm Hq Hidle. unfold wp, waited in *. destruct (m c) as [[] c'|f c'].
  - destruct Hm. by apply Hq.
  - destruct Hm as [(c1 & Ht & Hw & Hr)|(_ & Ht & Hw & Hn)].
    + destruct (turns_advance c c1 Hwf Ht) as (Hwf1 & _).
      pose proof (run_once_wp c1 Hwf1 Hw) as H. unfold wp in H. by rewrite Hr in H.
    + destruct (Hidle c' Ht Hw) as (c1 & Ht1 & Hp1). by rewrite (Hn c1 Ht1) in Hp1.
Qed.

(** The worker catches up: afterwards nothing is queued and every requested
    proposal is in the buffer. *)
Lemma wait_for_async_task_wp c :
  control_wf c → wp wait_for_async_task (λ _ c', idled c c') (λ f _, P f) c.
Proof using i_faults.
  intros Hwf. eapply waited_wp; [done|apply async_waited| |].
  - intros c' Ht Hp. apply turns_idled; [done|done|by apply negb_true_iff].
  - intros c' Ht Hw. exists c'. by rewrite Hw.
Qed.

Lemma take_proposal_wp c p rest :
  control_wf c → is_proposer c = true → proposal_buffer c = p :: rest →
  wp take_proposal
    (λ o c', control_wf c' ∧ same_settings c c' ∧ o = p ∧ proposal_buffer c' = rest)
    (λ f _, P f) c.
Proof. intros Hwf Hp Hb. unfold wp, take_proposal. rewrite Hb. split; [by intros _|]. by repeat split. Qed.

(** [get_proposal]: nothing outside proposer mode; otherwise, unless proposals
    have been stopped, the oldest proposal of the buffer, the machine being
    asked for one if there is none. *)
Lemma get_proposal_wp c :
  control_wf c →
  wp get_proposal
    (λ o c', control_wf c' ∧ same_settings c c' ∧
       (is_proposer c = false → o = None ∧ c' = c) ∧
       (is_proposer c = true → proposal_buffer c ≠ [] ∨ (0 < PROPOSAL_BUFFER_TARGET c)%N →
          ∃ ps, proposal_buffer c ++ ps = o :: proposal_buffer c'))
    (λ f _, P f) c.
Proof using i_faults.
  intros Hwf. unfold get_proposal. apply wp_bind, wp_gets.
  destruct (is_proposer c) eqn:Hp; simpl.
  2: { apply wp_ret. by repeat split. }
  case_bool_decide as Hb.
  - apply wp_bind, wp_modify. set (c1 := set_buffer _ _ c).
    assert (Hwf1 : control_wf c1) by by intros _.
    destruct (N.eqb_spec (PROPOSAL_BUFFER_TARGET c) 0) as [Hz|Hnz].
    { apply wp_ret. split; [done|]. split; [by repeat split|]. split; [done|].
      intros _ [?|?]; [done|lia]. }
    assert (Hpos : (0 < additional_proposal_requests c1)%N) by (simpl; lia).
    assert (Hw1 : vm_work_to_do c1 = true).
    { unfold vm_work_to_do. rewrite (proj2 (N.ltb_lt _ _) Hpos). simpl. rewrite Hp.
      by rewrite orb_true_r. }
    apply wp_bind. eapply wp_mono; [apply (waited_wp _ _
      (λ c2, rtc worker_turn c1 c2 ∧ proposal_buffer c2 ≠ []) c1 Hwf1 (cv_waited _ c1))| |done].
    { intros c2 Ht Hne%negb_true_iff%bool_decide_eq_false. done. }
    { intros c2 Ht Hw2. exists c2. split; [done|]. simpl. apply negb_true_iff, bool_decide_eq_false_2.
      destruct (turns_idled c1 c2 Hwf1 Ht Hw2) as (_ & _ & _ & _ & _ & ps & -> & Hlen).
      simpl. intros Hnil%app_eq_nil. destruct Hnil as [_ ->]. simpl in *. lia. }
    intros _ c2 [Ht Hne]. destruct (turns_advance c1 c2 Hwf1 Ht) as (Hwf2 & S2 & ps & Hps & _).
    simpl in Hps. rewrite Hb in Hps. destruct ps as [|p rest]; [done|].
    eapply wp_mono; [eapply take_proposal_wp; [done| |done]| |done].
    + destruct S2 as (-> & _). done.
    + intros o c3 (Hwf3 & S3 & -> & Hb3). split; [done|].
      split; [destruct S2 as (? & ? & ?), S3 as (? & ? & ?); repeat split; simpl in *; congruence|].
      split; [done|]. intros _ _. exists (p :: rest). by rewrite Hb, Hb3.
  - destruct (proposal_buffer c) as [|p rest] eqn:Hbuf; [done|].
    eapply wp_mono; [by eapply take_proposal_wp| |done].
    intros o c' (Hwf' & S' & -> & Hb'). split; [done|]. split; [done|]. split; [done|].
    intros _ _. exists []. by rewrite app_nil_r, Hb'.
Qed.

(** Submitting a block takes the interface out of proposer mode, after the
    worker has caught up: the block is the only thing queued. *)
Lemma submit_block_wp b c :
  control_wf c →
  wp (submit_block_for_exec b)
    (λ _ c', control_wf c' ∧ is_proposer c' = false ∧
       proposal_buffer c' = [] ∧ blocks_to_validate c' = [b] ∧
       additional_proposal_requests c' = 0%N)
    (λ f _, P f) c.
Proof using i_faults.
  intros Hwf. unfold submit_block_for_exec. apply wp_bind.
  eapply wp_mono; [by apply wait_for_async_task_wp| |done].
  intros _ c1 (_ & _ & B1 & _). apply wp_bind, wp_modify, wp_modify. simpl.
  rewrite B1. split; [|done]. intros ?. simpl in *. lia.
Qed.

Lemma log_commitment_wp i c :
  control_wf c →
  wp (log_commitment i)
    (λ _ c', control_wf c' ∧ same_settings c c' ∧ blocks_to_validate c' = [] ∧
       highest_committed_id c' = if vmid_bool i then Some i else None)
    (λ f _, P f) c.
Proof using i_faults.
  intros Hwf. unfold log_commitment. apply wp_bind.
  eapply wp_mono; [by apply wait_for_async_task_wp| |done].
  intros _ c1 (Hwf1 & S1 & B1 & I1 & _). apply wp_modify. by destruct (vmid_bool i).
Qed.

Lemma finish_work_wp c :
  control_wf c →
  wp finish_work_and_force_rewind
    (λ _ c', control_wf c' ∧ vm_work_to_do c' = false) (λ f _, P f) c.
Proof using i_faults.
  intros Hwf. unfold finish_work_and_force_rewind. apply wp_bind.
  eapply wp_mono; [by apply wait_for_async_task_wp| |done].
  intros _ c1 (Hwf1 & _ & B1 & I1 & A1 & _).
  eapply wp_mono; [apply in_vm_instance_wp, rewind_faults| |done].
  intros _ c2 [v ->]. split; [done|]. by apply no_work.
Qed.
End waits.
End control_props.

(** ** A worker that runs only while someone waits *)

Section lazy.
Context {i_vm : VMBase}.

#[export] Instance any_faults : VMFaults (λ _, True).
Proof. split; intros; unfold wp; by case_match. Qed.

(** A turn that returns started with requests in proposer mode only. *)
Lemma turn_iterated c c' : worker_turn c c' → control_wf c ∧ iterated c c'.
Proof.
  intros [Hw Hr]. assert (Hwf : control_wf c).
  { unfold control_wf. intros Hpos. destruct (is_proposer c) eqn:Hp; [done|].
    pose proof (run_once_early (λ _, True) c) as H. unfold wp in H. rewrite Hr in H.
    destruct H; [|done]. intros Hwf. by rewrite Hwf in Hp. }
  split; [done|]. pose proof (run_once_wp (λ _, True) c Hwf Hw) as H. unfold wp in H. by rewrite Hr in H.
Qed.

(** The turns a state has left. *)
Definition turns_left (c : VMControlInterface) : nat :=
  if vm_work_to_do c then S (N.to_nat (additional_proposal_requests c)) else 0.

Lemma turn_left c c' : worker_turn c c' → turns_left c' < turns_left c.
Proof.
  intros Ht. pose proof Ht as [Hw _]. destruct (turn_iterated c c' Ht) as [_ (_ & _ & B' & I' & A' & _)].
  unfold turns_left. rewrite Hw, A'.
  destruct (vm_work_to_do c') eqn:Hw'; [|lia].
  assert (additional_proposal_requests c' ≠ 0%N) by (intros Hz; by rewrite no_work in Hw').
  lia.
Qed.

Fixpoint run_until (pred : VMControlInterface → bool) (fuel : nat) (c : VMControlInterface)
  : Res VMControlInterface unit :=
  if pred c then Ok tt c
  else if vm_work_to_do c then
    match fuel with
    | 0 => Halt OutOfFuel c
    | S fuel =>
      match run_once c with
      | Ok _ c' => run_until pred fuel c'
      | Fault f c' => Fault f c'
      end
    end
  else Halt Blocked c.

(** Only one way to take a turn. *)
Lemma turns_cons c c1 c' : run_once c = Ok tt c1 → rtc worker_turn c c' → c' = c ∨ rtc worker_turn c1 c'.
Proof.
  intros Hr Ht. inversion Ht as [|? ? ? [_ Hr2] ?]; subst; [by left|right].
  rewrite Hr in Hr2. by injection Hr2 as ->.
Qed.

Lemma turns_idle c c' : vm_work_to_do c = false → rtc worker_turn c c' → c' = c.
Proof. intros Hw Ht. inversion Ht as [|? ? ? [Hw1 _] _]; [done|congruence]. Qed.

Lemma run_until_waited pred fuel c :
  turns_left c ≤ fuel → waited pred c (run_until pred fuel c).
Proof.
  revert c. induction fuel as [|fuel IH]; intros c Hf; simpl;
    (destruct (pred c) eqn:Hp; [split; [apply rtc_refl|done]|]);
    destruct (vm_work_to_do c) eqn:Hw.
  - unfold turns_left in Hf. rewrite Hw in Hf. lia.
  - right. split_and!; [done|apply rtc_refl|done|].
    intros c1 Ht. by rewrite (turns_idle c c1 Hw Ht).
  - destruct (run_once c) as [[] c1|f c1] eqn:Hr; [|left; exists c; split_and!; [apply rtc_refl|done..]].
    assert (Ht : worker_turn c c1) by done. specialize (IH c1).
    pose proof (turn_left c c1 Ht). unfold waited in *. specialize (IH ltac:(lia)).
    destruct (run_until pred fuel c1) as [[] c'|f c'].
    + destruct IH. split; [by eapply rtc_l|done].
    + destruct IH as [(c2 & H2 & Hrest)|(-> & H2 & Hw' & Hn)].
      * left. exists c2. split; [by eapply rtc_l|done].
      * right. split_and!; [done|by eapply rtc_l|done|]. intros c2 Hc2.
        by destruct (turns_cons c c1 c2 Hr Hc2) as [->|?]; [|apply Hn].
  - right. split_and!; [done|apply rtc_refl|done|].
    intros c1 Ht. by rewrite (turns_idle c c1 Hw Ht).
Qed.

(** The worker takes no more turns than the wait needs. *)
Definition lazy_wait : AsyncWait := {|
  wait_for_async_task c := run_until (λ c, negb (vm_work_to_do c)) (turns_left c) c;
  cv_wait pred c := run_until pred (turns_left c) c;
  async_waited c := run_until_waited _ _ c (le_n _);
  cv_waited pred c := run_until_waited pred _ c (le_n _);
|}.
End lazy.

(** ** Properties of the counting machine *)

Section counting_props.
Context {i_sodium : Sodium} {i_xdr : Xdr} {i_bv : BitVector} {i_fs : Fs} {i_lmdb : LmdbLib}.
Context {i_xdrlaws : XdrLaws}.

(** Executing the next [n] values in order counts up by [n]; the committed
    counter is not touched. *)
Lemma counting_exec_run n s :
  (cvm_state s + N.of_nat n < 2 ^ 64)%N →
  for_each ((λ i, cvm_state s + 1 + N.of_nat i)%N <$> seq 0 n) counting_exec_block s =
    Ok tt (mkCounting (cvm_state s + N.of_nat n) (last_committed_state s)).
Proof using.
  revert s. induction n as [|n IH]; intros s Hb.
  { simpl. rewrite N.add_0_r. by destruct s. }
  cbn [seq]. rewrite fmap_cons. cbn [for_each].
  unfold bind, counting_exec_block at 1, modify. rewrite u64_small by lia.
  rewrite (proj2 (N.eqb_eq _ _)) by lia.
  set (s1 := mkCounting _ _).
  assert (Heq : ((λ i, cvm_state s + 1 + N.of_nat i)%N <$> seq 1 n : list N) =
                (λ i, cvm_state s1 + 1 + N.of_nat i)%N <$> seq 0 n).
  { rewrite <- fmap_S_seq, <- list_fmap_compose. apply list_fmap_ext. intros i x _. simpl. lia. }
  rewrite Heq, IH by (simpl; lia). simpl. do 2 f_equal. lia.
Qed.

(** Executing a committed block does not undo proposals made ahead: after two
    of them the next committed value is ignored. *)
Lemma counting_exec_after_proposals s :
  (last_committed_state s + 3 < 2 ^ 64)%N → cvm_state s = last_committed_state s →
  ∃ s', (counting_propose ;; counting_propose ;;
         counting_exec_block (last_committed_state s + 1)) s = Ok tt s' ∧
    cvm_state s' = (last_committed_state s + 2)%N.
Proof using.
  intros Hb Hs. unfold bind, counting_propose, counting_exec_block, modify. simpl.
  rewrite Hs, (u64_small (last_committed_state s + 1)) by lia.
  rewrite (u64_small (last_committed_state s + 1 + 1)) by lia. rewrite u64_small by lia. rewrite (proj2 (N.eqb_neq _ _)) by lia.
  eexists. split; [done|]. simpl. lia.
Qed.

(** What the log says of one decided block: its hash, the vm block id of its
    body, and a file with that body. *)
Definition logged (l : LogAccessWrapper) (d : Disk) (e : bytes * bytes) (bd : bytes) : Prop :=
  ∃ h w, e.2 = h ++ vmid_serialize (get_block_id (i_vm := counting_vm) (try_parse bd)) ∧
    length h = 32 ∧ load_block h (log_info l) d = Ok (Some w) d ∧ body w = bd.

(** The machine after executing and committing the values. *)
Definition replay_values (vs : list N) (s : CountingVM) : CountingVM :=
  foldl (λ s v, mkCounting (if (v =? u64 (cvm_state s + 1))%N then u64 (cvm_state s + 1)
                            else cvm_state s) v) s vs.

(** One entry: a body that holds a value is executed and committed. *)
Lemma counting_replay_value l d e es bd v s :
  logged l d e bd → xdr_uint64_from bd = Some v →
  counting_replay l (e :: es) (s, d) = counting_replay l es (replay_values [v] s, d).
Proof using i_xdrlaws.
  intros (h & w & He & Hl & Hload & Hw) Hv. cbn [counting_replay].
  unfold get_hs_hash_and_vm_data, bind. rewrite He. simpl in *. rewrite Hv. cbn.
  rewrite get_hash_prefix by done. cbn. rewrite drop_app_length' by done.
  unfold load_vm_block, load_block_unparsed, bind, zoom. cbn. rewrite Hload. cbn.
  rewrite Hw. unfold CountingVMBlock_of. rewrite Hv. cbn.
  unfold counting_log_commitment. cbn. rewrite xdr_uint64_rt by (by eapply xdr_uint64_bound). cbn.
  by destruct (_ =? _)%N.
Qed.

(** A null id does not survive the index: it reads back as an id, and parsing
    a body without a value throws. *)
Lemma counting_replay_empty l d e es bd s :
  logged l d e bd → xdr_uint64_from bd = None →
  counting_replay l (e :: es) (s, d) = Throw XdrError (s, d).
Proof using i_xdrlaws.
  intros (h & w & He & Hl & Hload & Hw) Hv. cbn [counting_replay].
  unfold get_hs_hash_and_vm_data, bind. rewrite He. simpl in *. rewrite Hv. cbn.
  rewrite get_hash_prefix by done. cbn. rewrite drop_app_length' by done.
  unfold load_vm_block, load_block_unparsed, bind, zoom. cbn. rewrite Hload. cbn.
  rewrite Hw. unfold CountingVMBlock_of. by rewrite Hv.
Qed.

(** A restart replays the log up to the first body that holds no value, and
    throws there. *)
Lemma counting_replay_spec l d es bds s :
  Forall2 (logged l d) es bds →
  ∃ vs s', s' = replay_values vs s ∧
    Forall2 (λ bd v, xdr_uint64_from bd = Some v) (take (length vs) bds) vs ∧
    match bds !! length vs with
    | None => counting_replay l es (s, d) = Ok tt (s', d)
    | Some bd => xdr_uint64_from bd = None ∧
        counting_replay l es (s, d) = Throw XdrError (s', d)
    end.
Proof using i_xdrlaws.
  intros Hall. revert s. induction Hall as [|e bd es bds He Hall IH]; intros s.
  { by exists [], s. }
  destruct (xdr_uint64_from bd) as [v|] eqn:Hv.
  - destruct (IH (replay_values [v] s)) as (vs & s' & -> & Hvs & Hres).
    exists (v :: vs), (replay_values (v :: vs) s). split; [done|]. split; [by constructor|].
    cbn [length lookup list_lookup].
    by rewrite (counting_replay_value l d e es bd v s He Hv).
  - exists [], s. split; [done|]. split; [constructor|]. cbn. split; [done|].
    by eapply counting_replay_empty.
Qed.
End counting_props.
