(* ===== verification/VMThreads.v ===== *)
(** * The threads around the virtual machine

    hotstuff/vm/vm_control_interface.{h,cc}: the worker thread of [run] and one
    thread that makes calls to the interface, one after the other.  All of the
    interface's state but the machine is used under its mutex, and the machine
    by the worker under the mutex, or by a rewind after [wait_for_async_task].  A step is a stretch of
    code between acquiring the mutex and releasing it or waiting on the
    condition variable; [cv.notify_all] wakes the waiting threads.

    [wait_for_async_task] and [terminate_worker] are of the utils submodule: a
    test that the wait uses the condition variable for, and a relation, with
    what the interface relies on. *)

From S2P Require Import Prelude Types ReplicaConfig Certs IoUtils Block Lmdb VMControl.

Section threads.
Context {i_vm : VMBase}.

(** Calls of the thread outside. *)
Inductive vm_call :=
  | VSetProposer
  | VGetProposal
  | VSubmit (submission : option VMBlock)
  | VCommit (block_id : VMBlockID)
  | VRewind
  | VStopProposals.

(** What the machine is told. *)
Inductive vm_item := ItemExec (b : option VMBlock) | ItemCommit (i : VMBlockID).

(** The worker: about to take the mutex, in [cv.wait], or ended. *)
Inductive vm_worker := TReady | TWaiting | TEnded.

(** The caller: between calls; in the [cv.wait] of [get_proposal], waiting or
    woken; in [wait_for_async_task] of a call, waiting or about to test; past
    it. *)
Inductive vm_caller :=
  | KNext
  | KGetWait | KGetReady
  | KAsyncWait (k : vm_call) | KAsyncReady (k : vm_call)
  | KBody (k : vm_call).

Record Threads := mkThreads {
  th_c : VMControlInterface;
  th_done : bool;                      (* done_flag *)
  th_worker : vm_worker;
  th_caller : vm_caller;
  th_todo : list vm_call;              (* the calls to come *)
  th_sent : list vm_item;              (* what calls have queued for the machine *)
  th_seen : list vm_item;              (* what the worker has told the machine *)
  th_made : list (option VMBlock);     (* proposals since the last submission *)
  th_handed : list (option VMBlock);   (* those that calls have returned *)
  th_fault : option fault;             (* what a method of the machine ended in *)
}.

(** The constructor has just started the worker. *)
Definition Threads_init (vm : VMState) (target : N) (refill : bool) (calls : list vm_call) : Threads :=
  mkThreads (VMControlInterface_init vm target refill) false TReady KNext calls [] [] [] [] None.

Definition set_c (c : VMControlInterface) (t : Threads) : Threads :=
  mkThreads c (th_done t) (th_worker t) (th_caller t) (th_todo t) (th_sent t) (th_seen t)
    (th_made t) (th_handed t) (th_fault t).
Definition set_worker (w : vm_worker) (t : Threads) : Threads :=
  mkThreads (th_c t) (th_done t) w (th_caller t) (th_todo t) (th_sent t) (th_seen t)
    (th_made t) (th_handed t) (th_fault t).
Definition set_caller (k : vm_caller) (t : Threads) : Threads :=
  mkThreads (th_c t) (th_done t) (th_worker t) k (th_todo t) (th_sent t) (th_seen t)
    (th_made t) (th_handed t) (th_fault t).
Definition set_todo (l : list vm_call) (t : Threads) : Threads :=
  mkThreads (th_c t) (th_done t) (th_worker t) (th_caller t) l (th_sent t) (th_seen t)
    (th_made t) (th_handed t) (th_fault t).
Definition stopped_by (f : fault) (c : VMControlInterface) (t : Threads) : Threads :=
  mkThreads c (th_done t) (th_worker t) (th_caller t) (th_todo t) (th_sent t) (th_seen t)
    (th_made t) (th_handed t) (Some f).

(** [cv.notify_all] *)
Definition wake_worker (w : vm_worker) : vm_worker := match w with TWaiting => TReady | _ => w end.
Definition wake_caller (k : vm_caller) : vm_caller :=
  match k with KGetWait => KGetReady | KAsyncWait k => KAsyncReady k | _ => k end.
Definition notify (t : Threads) : Threads :=
  set_worker (wake_worker (th_worker t)) (set_caller (wake_caller (th_caller t)) t).

(** What an iteration of the worker tells the machine. *)
Definition pending (c : VMControlInterface) : list vm_item :=
  (ItemExec <$> blocks_to_validate c) ++ (ItemCommit <$> option_list (highest_committed_id c)).

(** [run]: from the lock to [cv.wait], to the return, or through an iteration. *)
Definition worker_step (t : Threads) : option Threads :=
  match th_worker t with
  | TReady =>
    if th_done t then Some (set_worker TEnded t)
    else if negb (vm_work_to_do (th_c t)) then Some (set_worker TWaiting t)
    else
      match run_once (th_c t) with
      | Ok _ c' =>
        Some (notify (mkThreads c' (th_done t) (th_worker t) (th_caller t) (th_todo t) (th_sent t)
          (th_seen t ++ pending (th_c t))
          (th_made t ++ drop (length (proposal_buffer (th_c t))) (proposal_buffer c'))
          (th_handed t) (th_fault t)))
      | Fault f c' => Some (stopped_by f c' t)
      end
  | TWaiting | TEnded => None
  end.

(** The end of [get_proposal], which notifies if it has asked for more. *)
Definition finish_get (t : Threads) : Threads :=
  match take_proposal (th_c t) with
  | Ok o c' =>
    let t' := mkThreads c' (th_done t) (th_worker t) KNext (th_todo t) (th_sent t) (th_seen t)
                (th_made t) (th_handed t ++ [o]) (th_fault t) in
    if immediately_refill c' && (0 <? additional_proposal_requests c')%N then notify t' else t'
  | Fault f c' => stopped_by f c' t
  end.

(** [get_proposal] up to its wait. *)
Definition start_get (t : Threads) : Threads :=
  let c := th_c t in
  if negb (is_proposer c) then t
  else if th_done t then t
  else if bool_decide (proposal_buffer c = []) then
    let c1 := set_buffer [] (N.max (additional_proposal_requests c) (PROPOSAL_BUFFER_TARGET c)) c in
    if (PROPOSAL_BUFFER_TARGET c =? 0)%N then set_c c1 t
    else set_caller KGetWait (notify (set_c c1 t))
  else finish_get t.

(** The parts of the calls after [wait_for_async_task]. *)
Definition submit_body (b : option VMBlock) (t : Threads) : Threads :=
  let c1 := clear_proposal_settings (th_c t) in
  notify (mkThreads (set_blocks (blocks_to_validate c1 ++ [b]) c1) (th_done t) (th_worker t) KNext
    (th_todo t) (th_sent t ++ [ItemExec b]) (th_seen t) [] [] (th_fault t)).

Definition commit_body (i : VMBlockID) (t : Threads) : Threads :=
  let c1 := if vmid_bool i then set_committed_id (Some i) (th_c t) else th_c t in
  let t1 := mkThreads c1 (th_done t) (th_worker t) KNext (th_todo t)
    (if vmid_bool i then th_sent t ++ [ItemCommit i] else th_sent t)
    (th_seen t) (th_made t) (th_handed t) (th_fault t) in
  if highest_committed_id c1 then notify t1 else t1.

Definition rewind_body (t : Threads) : Threads :=
  match in_vm_instance rewind_to_last_commit (th_c t) with
  | Ok _ c' => set_caller KNext (set_c c' t)
  | Fault f c' => stopped_by f c' t
  end.

(** The test of [wait_for_async_task]. *)
Context (async_idle : VMControlInterface → bool).
Hypothesis async_idle_work : ∀ c, async_idle c = negb (vm_work_to_do c).

Definition caller_step (t : Threads) : option Threads :=
  match th_caller t with
  | KNext =>
    match th_todo t with
    | [] => None
    | k :: ks =>
      let t1 := set_todo ks t in
      match k with
      | VSetProposer => Some (set_c (set_is_proposer true (th_c t)) t1)
      | VStopProposals => Some (set_c (set_target 0 (th_c t)) t1)
      | VGetProposal => Some (start_get t1)
      | VSubmit _ | VCommit _ | VRewind => Some (set_caller (KAsyncReady k) t1)
      end
    end
  | KGetWait => None
  | KGetReady =>
    if th_done t then Some (set_caller KNext t)
    else if bool_decide (proposal_buffer (th_c t) = []) then Some (set_caller KGetWait t)
    else Some (finish_get t)
  | KAsyncWait _ => None
  | KAsyncReady k =>
    Some (set_caller (if async_idle (th_c t) then KBody k else KAsyncWait k) t)
  | KBody (VSubmit b) => Some (submit_body b t)
  | KBody (VCommit i) => Some (commit_body i t)
  | KBody VRewind => Some (rewind_body t)
  | KBody _ => Some (set_caller KNext t)
  end.

(** [terminate_worker] up to its wait for the thread's end. *)
Context (terminate : Threads → Threads → Prop).
Hypothesis terminate_notifies : ∀ t t', terminate t t' →
  t' = notify (mkThreads (th_c t) true (th_worker t) (th_caller t) (th_todo t) (th_sent t)
         (th_seen t) (th_made t) (th_handed t) (th_fault t)).

(** A step of a thread; the start of the destructor; a wake-up nobody asked
    for. *)
Inductive th_label := TInner | TDestroy | TSpurious.

Inductive th_step : th_label → Threads → Threads → Prop :=
  | worker_runs t t' : th_fault t = None → worker_step t = Some t' → th_step TInner t t'
  | caller_runs t t' : th_fault t = None → caller_step t = Some t' → th_step TInner t t'
  | th_terminates t t' : th_fault t = None → terminate t t' → th_step TDestroy t t'
  | th_spurious_worker t :
      th_fault t = None → th_step TSpurious t (set_worker (wake_worker (th_worker t)) t)
  | th_spurious_caller t :
      th_fault t = None → th_step TSpurious t (set_caller (wake_caller (th_caller t)) t).

Inductive th_reachable (start : Threads) : Threads → Prop :=
  | thr_start : th_reachable start start
  | thr_step l t t' : th_reachable start t → th_step l t t' → th_reachable start t'.

(** ** The invariant *)

Context (P : fault → Prop) {i_faults : VMFaults P}.

Definition in_get (k : vm_caller) : bool := match k with KGetWait | KGetReady => true | _ => false end.

(** While no method of the machine has faulted: what calls have queued is what
    the machine was told and what the worker is about to tell it, and the
    proposals made are those handed out and those in the buffer; the worker
    waits only without work; and a caller waits only while there is work. *)
Record ThRun (t : Threads) : Prop := {
  tr_wf : control_wf (th_c t);
  tr_sent : th_sent t = th_seen t ++ pending (th_c t);
  tr_made : th_made t = th_handed t ++ proposal_buffer (th_c t);
  tr_waiting : th_worker t = TWaiting → th_done t = false ∧ vm_work_to_do (th_c t) = false;
  tr_ended : th_worker t = TEnded → th_done t = true;
  tr_get : in_get (th_caller t) = true → is_proposer (th_c t) = true ∧
    (proposal_buffer (th_c t) = [] → (0 < additional_proposal_requests (th_c t))%N);
  tr_get_wait : th_caller t = KGetWait → th_done t = false ∧ proposal_buffer (th_c t) = [];
  tr_async : ∀ k, th_caller t = KAsyncWait k → th_done t = false → vm_work_to_do (th_c t) = true;
  tr_body : ∀ k, th_caller t = KBody k → vm_work_to_do (th_c t) = false;
}.

Record ThInv (t : Threads) : Prop := {
  ti_seen : th_seen t `prefix_of` th_sent t;
  ti_handed : th_handed t `prefix_of` th_made t;
  ti_fault : ∀ f, th_fault t = Some f → P f;
  ti_run : th_fault t = None → ThRun t;
}.

Lemma ThRun_inv t : th_fault t = None → ThRun t → ThInv t.
Proof.
  intros Hf R. split; [rewrite (tr_sent _ R)|rewrite (tr_made _ R)|by rewrite Hf|done];
    by apply prefix_app_r.
Qed.

Lemma stopped_inv f c t : P f → ThInv t → ThInv (stopped_by f c t).
Proof. intros Hp [H1 H2 _ _]. split; [done|done|by intros ? [= <-]|done]. Qed.

(** Requests in proposer mode are work. *)
Lemma requests_work c :
  is_proposer c = true → (0 < additional_proposal_requests c)%N → vm_work_to_do c = true.
Proof.
  intros Hp Ha. unfold vm_work_to_do. rewrite Hp, (proj2 (N.ltb_lt _ _) Ha). simpl.
  by rewrite orb_true_r.
Qed.

Lemma idle_pending c : control_wf c → vm_work_to_do c = false → pending c = [].
Proof. intros Hwf Hw. destruct (work_left c Hwf Hw) as (Hb & Hi & _). unfold pending. by rewrite Hb, Hi. Qed.

(** Waking threads up is always safe. *)
Lemma wake_worker_run t : ThRun t → ThRun (set_worker (wake_worker (th_worker t)) t).
Proof. intros [W S M Hw He G Gw A B]. split; simpl; try done; by destruct (th_worker t). Qed.

Lemma wake_caller_run t : ThRun t → ThRun (set_caller (wake_caller (th_caller t)) t).
Proof.
  intros [W S M Hw He G Gw A B]. split; simpl; try done.
  - intros Hg. apply G. by destruct (th_caller t).
  - by destruct (th_caller t).
  - by destruct (th_caller t).
  - intros k Hk. apply (B k). by destruct (th_caller t).
Qed.

(** The threads after something has changed that they wait for. *)
Lemma notify_run t :
  control_wf (th_c t) → th_sent t = th_seen t ++ pending (th_c t) →
  th_made t = th_handed t ++ proposal_buffer (th_c t) →
  (th_worker t = TEnded → th_done t = true) →
  (in_get (th_caller t) = true → is_proposer (th_c t) = true ∧
     (proposal_buffer (th_c t) = [] → (0 < additional_proposal_requests (th_c t))%N)) →
  (∀ k, th_caller t = KBody k → vm_work_to_do (th_c t) = false) →
  ThRun (notify t).
Proof.
  intros W S M He G B. split; simpl; try done.
  - by destruct (th_worker t).
  - intros ?. apply He. by destruct (th_worker t).
  - intros Hg. apply G. by destruct (th_caller t).
  - by destruct (th_caller t).
  - by destruct (th_caller t).
  - intros k Hk. apply (B k). by destruct (th_caller t).
Qed.

Lemma worker_step_inv t t' :
  th_fault t = None → ThRun t → worker_step t = Some t' → ThInv t'.
Proof using i_faults.
  intros Hf R Hs. unfold worker_step in Hs. destruct (th_worker t) eqn:Hw; [|done|done].
  destruct (th_done t) eqn:Hd.
  { injection Hs as <-. apply ThRun_inv; [done|]. destruct R. by split. }
  destruct (vm_work_to_do (th_c t)) eqn:Hwork; simpl in Hs.
  2: { injection Hs as <-. apply ThRun_inv; [done|]. destruct R. by split. }
  pose proof (run_once_wp P (th_c t) (tr_wf _ R) Hwork) as Ho. unfold wp in Ho.
  destruct (run_once (th_c t)) as [[] c'|f c']; injection Hs as <-.
  2: { apply stopped_inv; [done|by apply ThRun_inv]. }
  destruct Ho as (Hwf' & (Hp' & _) & Hb' & Hi' & Ha' & ps & Hps & Hlen).
  apply ThRun_inv; [done|]. destruct R as [W S M _ He G Gw A B]. apply notify_run; simpl; try done.
  - unfold pending at 2. rewrite Hb', Hi', S. simpl. by rewrite app_nil_r.
  - by rewrite Hps, drop_app_length, M, <- app_assoc.
  - intros Hg. destruct (G Hg) as [Hpr Hreq]. split; [congruence|].
    rewrite Hps. intros [Hb Hnil]%app_eq_nil. rewrite Hnil in Hlen.
    by rewrite (proj2 (N.ltb_lt _ _) (Hreq Hb)) in Hlen.
  - intros k Hk. by rewrite (B k Hk) in Hwork.
Qed.

(** Between calls nothing is waited for. *)
Lemma next_run t :
  control_wf (th_c t) → th_sent t = th_seen t ++ pending (th_c t) →
  th_made t = th_handed t ++ proposal_buffer (th_c t) →
  (th_worker t = TWaiting → th_done t = false ∧ vm_work_to_do (th_c t) = false) →
  (th_worker t = TEnded → th_done t = true) → th_caller t = KNext → ThRun t.
Proof. intros W S M Hw He Hk. split; try done; by rewrite Hk. Qed.

Lemma finish_get_inv t :
  th_fault t = None → ThRun t → is_proposer (th_c t) = true → proposal_buffer (th_c t) ≠ [] →
  ThInv (finish_get t).
Proof.
  intros Hf R Hp Hb. destruct R as [W S M Hw He G Gw A B]. unfold finish_get, take_proposal.
  destruct (proposal_buffer (th_c t)) as [|o rest] eqn:Hbuf; [done|]. clear Hb.
  assert (M' : th_made t = (th_handed t ++ [o]) ++ rest) by (rewrite M, <- app_assoc; done).
  destruct (immediately_refill (th_c t)) eqn:Hr; simpl; rewrite Hr; simpl.
  - set (more := if (_ <? _)%N then 0%N else _). destruct (N.ltb_spec 0 more) as [Hm|Hm].
    + apply ThRun_inv; [done|]. apply notify_run; try done. by intros _.
    + apply ThRun_inv; [done|]. apply next_run; try done; [by intros _|]. simpl. intros Hwt.
      destruct (Hw Hwt) as [Hd Hn]. split; [done|].
      destruct (work_left _ W Hn) as (Hb & Hi & _). apply no_work; [done|done|]. simpl. lia.
  - apply ThRun_inv; [done|]. by apply next_run.
Qed.

Lemma start_get_inv t :
  th_fault t = None → ThRun t → th_caller t = KNext → ThInv (start_get t).
Proof.
  intros Hf R Hk. unfold start_get. destruct (is_proposer (th_c t)) eqn:Hp; simpl; [|by apply ThRun_inv].
  destruct (th_done t) eqn:Hd; [by apply ThRun_inv|].
  case_bool_decide as Hb; [|by apply finish_get_inv]. destruct R as [W S M Hw He G Gw A B].
  rewrite Hb in M. set (c1 := set_buffer _ _ _).
  destruct (N.eqb_spec (PROPOSAL_BUFFER_TARGET (th_c t)) 0) as [Hz|Hnz]; (apply ThRun_inv; [done|]).
  - assert (Hc1 : c1 = th_c t).
    { unfold c1. rewrite Hz, N.max_0_r, <- Hb. by destruct (th_c t). }
    rewrite Hc1. apply next_run; simpl; try done; by rewrite Hb.
  - assert (Hpos : (0 < additional_proposal_requests c1)%N) by (simpl; lia).
    split; simpl; try done; [by intros _|by destruct (th_worker t)|].
    intros Hwe. apply He. by destruct (th_worker t).
Qed.

Lemma submit_body_inv b t :
  th_fault t = None → ThRun t → th_caller t = KBody (VSubmit b) → ThInv (submit_body b t).
Proof.
  intros Hf [W S M Hw He G Gw A B] Hk. apply ThRun_inv; [done|].
  destruct (work_left _ W (B _ Hk)) as (Hb & Hi & _).
  rewrite (idle_pending _ W (B _ Hk)), app_nil_r in S.
  apply notify_run; simpl; try done. unfold pending. simpl. by rewrite Hb, Hi, S.
Qed.

Lemma commit_body_inv i t :
  th_fault t = None → ThRun t → th_caller t = KBody (VCommit i) → ThInv (commit_body i t).
Proof.
  intros Hf [W S M Hw He G Gw A B] Hk. pose proof (B _ Hk) as Hn.
  destruct (work_left _ W Hn) as (Hb & Hi & _).
  unfold commit_body. destruct (vmid_bool i); simpl; [|rewrite Hi]; (apply ThRun_inv; [done|]).
  - rewrite (idle_pending _ W Hn), app_nil_r in S. apply notify_run; simpl; try done.
    unfold pending. simpl. by rewrite Hb, S.
  - by apply next_run.
Qed.

Lemma rewind_body_inv t :
  th_fault t = None → ThRun t → th_caller t = KBody VRewind → ThInv (rewind_body t).
Proof using i_faults.
  intros Hf R Hk. unfold rewind_body.
  pose proof (in_vm_instance_wp P _ (th_c t) rewind_faults) as Ho. unfold wp in Ho.
  destruct (in_vm_instance rewind_to_last_commit (th_c t)) as [[] c'|f c'].
  2: { apply stopped_inv; [done|by apply ThRun_inv]. }
  destruct Ho as [v ->]. apply ThRun_inv; [done|]. destruct R as [W S M Hw He G Gw A B].
  by apply next_run.
Qed.

Lemma caller_step_inv t t' :
  th_fault t = None → ThRun t → caller_step t = Some t' → ThInv t'.
Proof using i_faults async_idle_work.
  intros Hf R Hs. unfold caller_step in Hs. destruct (th_caller t) as [| | |k|k|k] eqn:Hk; try done.
  - destruct (th_todo t) as [|k ks]; [done|].
    assert (R1 : ThRun (set_todo ks t)) by (destruct R; by split).
    destruct k; injection Hs as <-; try (by apply start_get_inv);
      apply ThRun_inv; try done; destruct R as [W S M Hw He G Gw A B];
      try (by split); apply next_run; simpl; try done.
    + intros Hwt. destruct (Hw Hwt) as [Hd Hn]. split; [done|].
      destruct (work_left _ W Hn) as (Hb & Hi & Ha). by apply no_work.
  - destruct (th_done t) eqn:Hd.
    { injection Hs as <-. apply ThRun_inv; [done|]. destruct R as [W S M Hw He G Gw A B].
      by apply next_run. }
    destruct R as [W S M Hw He G Gw A B]. rewrite Hk in G. destruct (G eq_refl) as [Hp Hreq].
    case_bool_decide as Hb; injection Hs as <-.
    + apply ThRun_inv; [done|]. by split.
    + by apply finish_get_inv.
  - injection Hs as <-. apply ThRun_inv; [done|]. rewrite async_idle_work.
    destruct R as [W S M Hw He G Gw A B].
    destruct (vm_work_to_do (th_c t)) eqn:Hn; split; simpl; try done; by rewrite Hn.
  - destruct k; injection Hs as <-; auto using submit_body_inv, commit_body_inv, rewind_body_inv;
      apply ThRun_inv; try done; destruct R as [W S M Hw He G Gw A B]; by apply next_run.
Qed.

Lemma th_inv vm target refill calls t :
  th_reachable (Threads_init vm target refill calls) t → ThInv t.
Proof using i_faults async_idle_work terminate_notifies.
  induction 1 as [|l t t' _ I Hs]; [by apply ThRun_inv; [|apply next_run]|].
  destruct Hs as [t t' Hf Hs|t t' Hf Hs|t t' Hf Ht|t Hf|t Hf]; pose proof (ti_run _ I Hf) as R.
  - by eapply worker_step_inv.
  - by eapply caller_step_inv.
  - rewrite (terminate_notifies _ _ Ht). apply ThRun_inv; [done|]. destruct R. by apply notify_run.
  - apply ThRun_inv; [done|]. by apply wake_worker_run.
  - apply ThRun_inv; [done|]. by apply wake_caller_run.
Qed.

(** ** Termination *)

(** The items and requests the worker has before it. *)
Definition queued (c : VMControlInterface) : nat :=
  N.to_nat (additional_proposal_requests c) + length (blocks_to_validate c) +
  length (option_list (highest_committed_id c)).

Definition worker_cost (w : vm_worker) : nat := match w with TReady => 1 | _ => 0 end.
Definition caller_cost (target : nat) (k : vm_caller) : nat :=
  match k with
  | KNext => 0
  | KGetWait => 4 * target + 3
  | KGetReady => 4 * target + 4
  | KBody _ => 7
  | KAsyncWait _ => 8
  | KAsyncReady _ => 9
  end.

(** A bound on the steps to come: four for everything queued, and enough for
    what a call may queue. *)
Definition th_left (t : Threads) : nat :=
  match th_fault t with
  | Some _ => 0
  | None =>
    let target := N.to_nat (PROPOSAL_BUFFER_TARGET (th_c t)) in
    1 + 4 * queued (th_c t) + worker_cost (th_worker t) + caller_cost target (th_caller t) +
    (8 * target + 20) * length (th_todo t)
  end.

Lemma notify_left t : th_left (notify t) ≤ th_left t + 2.
Proof.
  unfold th_left. simpl. destruct (th_fault t); [lia|].
  destruct (th_worker t), (th_caller t); simpl; lia.
Qed.

Lemma wake_worker_left t :
  caller_cost 0 (th_caller t) = caller_cost 0 (wake_caller (th_caller t)) →
  th_left (notify t) ≤ th_left t + 1.
Proof.
  unfold th_left. simpl. destruct (th_fault t); [lia|].
  destruct (th_worker t), (th_caller t); simpl; lia.
Qed.

Lemma worker_step_left t t' :
  th_fault t = None → ThRun t → worker_step t = Some t' → th_left t' < th_left t.
Proof using i_faults.
  intros Hf R Hs. unfold worker_step in Hs. destruct (th_worker t) eqn:Hw; [|done|done].
  destruct (th_done t) eqn:Hd; [injection Hs as <-; unfold th_left; simpl; rewrite Hf, Hw; simpl; lia|].
  destruct (vm_work_to_do (th_c t)) eqn:Hwork; simpl in Hs.
  2: { injection Hs as <-. unfold th_left. simpl. rewrite Hf, Hw. simpl. lia. }
  pose proof (run_once_wp P (th_c t) (tr_wf _ R) Hwork) as Ho. unfold wp in Ho.
  destruct (run_once (th_c t)) as [[] c'|f c']; injection Hs as <-.
  2: { unfold th_left. simpl. rewrite Hf. lia. }
  destruct Ho as (_ & (_ & Ht' & _) & Hb' & Hi' & Ha' & _).
  assert (Hq : queued c' < queued (th_c t)).
  { unfold queued. rewrite Hb', Hi', Ha'. simpl.
    destruct (blocks_to_validate (th_c t)) as [|] eqn:Hb; simpl; [|lia].
    destruct (highest_committed_id (th_c t)) as [|] eqn:Hi; simpl; [lia|].
    destruct (decide (additional_proposal_requests (th_c t) = 0%N)) as [Hz|]; [|lia].
    by rewrite no_work in Hwork. }
  eapply Nat.le_lt_trans; [apply notify_left|]. unfold th_left. simpl. rewrite Hf, Hw, Ht'. simpl. lia.
Qed.

Lemma finish_get_left t :
  th_fault t = None →
  th_left (finish_get t) + caller_cost (N.to_nat (PROPOSAL_BUFFER_TARGET (th_c t))) (th_caller t) ≤
    th_left t + 4 * N.to_nat (PROPOSAL_BUFFER_TARGET (th_c t)) + 1.
Proof.
  intros Hf. unfold finish_get, take_proposal.
  destruct (proposal_buffer (th_c t)) as [|o rest]; [unfold th_left; simpl; rewrite Hf; lia|].
  set (more := if immediately_refill (th_c t) then _ else _).
  assert (Hmore : N.to_nat more ≤ N.to_nat (additional_proposal_requests (th_c t)) +
    N.to_nat (PROPOSAL_BUFFER_TARGET (th_c t))).
  { unfold more. destruct (immediately_refill (th_c t)); [case_match|]; lia. }
  case_match; [etrans; [apply Nat.add_le_mono_r, wake_worker_left; done|]|];
    unfold th_left, queued; simpl; rewrite Hf; lia.
Qed.

Lemma caller_step_left t t' :
  th_fault t = None → ThRun t → caller_step t = Some t' → th_left t' < th_left t.
Proof using async_idle_work.
  intros Hf R Hs. unfold caller_step in Hs. destruct (th_caller t) as [| | |k|k|k] eqn:Hk; try done.
  - destruct (th_todo t) as [|k ks] eqn:Htodo; [done|].
    destruct k; injection Hs as <-; try (unfold th_left, queued; simpl; rewrite Hf, Hk, Htodo; simpl; lia).
    unfold start_get. destruct (negb _); [unfold th_left; simpl; rewrite Hf, Hk, Htodo; simpl; lia|].
    destruct (th_done _); [unfold th_left; simpl; rewrite Hf, Hk, Htodo; simpl; lia|].
    case_bool_decide.
    + case_match; unfold th_left, queued; simpl; rewrite Hf, Hk, Htodo; simpl;
        [lia|]. destruct (th_worker t); simpl; lia.
    + pose proof (finish_get_left (set_todo ks t) Hf) as Hl. simpl in Hl. rewrite Hk in Hl. simpl in Hl.
      assert (th_left (set_todo ks t) + 8 * N.to_nat (PROPOSAL_BUFFER_TARGET (th_c t)) + 20 = th_left t)
        by (unfold th_left; simpl; rewrite Hf, Hk, Htodo; simpl; lia). lia.
  - destruct (th_done t); [injection Hs as <-; unfold th_left; simpl; rewrite Hf, Hk; simpl; lia|].
    case_bool_decide; injection Hs as <-; [unfold th_left; simpl; rewrite Hf, Hk; simpl; lia|].
    pose proof (finish_get_left t Hf) as Hl. rewrite Hk in Hl. simpl in Hl. lia.
  - injection Hs as <-. unfold th_left. simpl. rewrite Hf, Hk. destruct (async_idle _); simpl; lia.
  - assert (Hbody : ∀ t1, th_left t1 + 7 ≤ th_left t + 4 → th_caller t1 = KNext →
      th_left (notify t1) < th_left t).
    { intros t1 Hl Hk1. eapply Nat.le_lt_trans; [apply wake_worker_left; by rewrite Hk1|]. lia. }
    destruct (work_left _ (tr_wf _ R) (tr_body _ R k Hk)) as (Hb & Hi & Ha).
    destruct k as [| |b|i| |]; injection Hs as <-;
      try (unfold th_left; simpl; rewrite Hf, Hk; simpl; lia).
    + apply Hbody; [|done]. unfold th_left, queued. simpl. rewrite Hf, Hk, Hb. simpl. lia.
    + unfold commit_body. destruct (vmid_bool i); simpl.
      * apply Hbody; [|done]. unfold th_left, queued. simpl. rewrite Hf, Hk, Hb, Hi. simpl. lia.
      * rewrite Hi. unfold th_left. simpl. rewrite Hf, Hk. simpl. lia.
    + unfold rewind_body, in_vm_instance, zoom.
      destruct (rewind_to_last_commit _); unfold th_left, queued; simpl; rewrite Hf, ?Hk; simpl; lia.
Qed.

Lemma inner_step_left t t' : ThInv t → th_step TInner t t' → th_left t' < th_left t.
Proof using i_faults async_idle_work.
  intros I Hs. inversion Hs as [? ? Hf Hw|? ? Hf Hc| | |]; subst.
  - by apply worker_step_left; [|apply (ti_run _ I)|].
  - by apply caller_step_left; [|apply (ti_run _ I)|].
Qed.

(** Where the threads may stop: a method of the machine has faulted; the
    destructor runs, the worker has ended and no caller waits for a proposal; or
    every call has returned, and the worker waits and has told the machine
    everything. *)
Definition th_rest (t : Threads) : Prop :=
  (∃ f, th_fault t = Some f ∧ P f) ∨
  (th_done t = true ∧ th_worker t = TEnded ∧ in_get (th_caller t) = false) ∨
  (th_done t = false ∧ th_worker t = TWaiting ∧ th_caller t = KNext ∧ th_todo t = [] ∧
   vm_work_to_do (th_c t) = false ∧ th_seen t = th_sent t).

Lemma inner_step_progress t : ThInv t → th_rest t ∨ ∃ t', th_step TInner t t'.
Proof.
  intros I. destruct (th_fault t) as [f|] eqn:Hf.
  { left. left. exists f. split; [done|by apply (ti_fault _ I)]. }
  pose proof (ti_run _ I Hf) as R.
  destruct (worker_step t) as [t'|] eqn:Hw; [right; exists t'; by apply worker_runs|].
  destruct (caller_step t) as [t'|] eqn:Hc; [right; exists t'; by apply caller_runs|].
  left. destruct R as [W S M Hwt He G Gw A B]. unfold worker_step in Hw. unfold caller_step in Hc.
  destruct (th_worker t) eqn:Hwk.
  { destruct (th_done t); [done|]. destruct (negb _); [done|]. by destruct (run_once (th_c t)). }
  - destruct (Hwt eq_refl) as [Hd Hn]. right. right.
    destruct (th_caller t) as [| | |k|k|[]] eqn:Hk; try done.
    + destruct (th_todo t) as [|[]]; [|done..]. split_and!; try done.
      by rewrite S, (idle_pending _ W Hn), app_nil_r.
    + destruct (G eq_refl) as [Hp Hreq]. destruct (Gw eq_refl) as [_ Hb].
      by rewrite (requests_work _ Hp (Hreq Hb)) in Hn.
    + rewrite Hd in Hc. by case_bool_decide.
    + by rewrite (A k eq_refl Hd) in Hn.
  - right. left. specialize (He eq_refl). split_and!; [done|done|].
    destruct (th_caller t) as [| | |k|k|[]] eqn:Hk; try done.
    + destruct (Gw eq_refl) as [Hd _]. congruence.
    + by rewrite He in Hc.
Qed.

Lemma th_runs vm target refill calls t t' n :
  th_reachable (Threads_init vm target refill calls) t → nsteps (th_step TInner) n t t' →
  ThInv t' ∧ n + th_left t' ≤ th_left t ∧ (th_rest t' ∨ ∃ t'', th_step TInner t' t'').
Proof using i_faults async_idle_work terminate_notifies.
  intros Hr Hn. revert Hr. induction Hn as [t|n t t1 t' H1 Hn IH]; intros Hr.
  - pose proof (th_inv _ _ _ _ _ Hr) as I. split_and!; [done|done|by apply inner_step_progress].
  - pose proof (inner_step_left _ _ (th_inv _ _ _ _ _ Hr) H1) as Hlt.
    destruct IH as (? & Hle & ?); [by eapply thr_step|]. split_and!; [done|lia|done].
Qed.

(** ** The waits of VMControl.v

    While a caller waits the interface changes only by turns of the worker, and
    [wait_for_async_task] is left where there is no work: the laws of
    [AsyncWait]. *)
Definition waits (k : vm_caller) : bool :=
  match k with KGetWait | KGetReady | KAsyncWait _ | KAsyncReady _ => true | _ => false end.

Lemma waiting_turns t t' :
  waits (th_caller t) = true → th_step TInner t t' → th_fault t' = None →
  (waits (th_caller t') = true ∧ (th_c t' = th_c t ∨ worker_turn (th_c t) (th_c t'))) ∨
  (∃ k, th_caller t' = KBody k ∧ th_c t' = th_c t ∧ vm_work_to_do (th_c t') = false) ∨
  (th_caller t' = KNext ∧ (th_done t = true ∨ proposal_buffer (th_c t) ≠ [])).
Proof using async_idle_work.
  intros Hk Hs Hf'. inversion Hs as [? ? Hf Hw|? ? Hf Hc| | |]; subst.
  - left. unfold worker_step in Hw. destruct (th_worker t); [|done|done].
    destruct (th_done t); [injection Hw as <-; auto|].
    destruct (vm_work_to_do (th_c t)) eqn:Hn; simpl in Hw; [|injection Hw as <-; auto].
    destruct (run_once (th_c t)) as [[] c'|] eqn:Hr; injection Hw as <-; [|done].
    simpl. split; [by destruct (th_caller t)|by right].
  - unfold caller_step in Hc. destruct (th_caller t) as [| | |k|k|k] eqn:Hkt; try done.
    + destruct (th_done t) eqn:Hd; [injection Hc as <-; auto|].
      case_bool_decide as Hb; injection Hc as <-; [auto|]. right. right. split; [|by right].
      unfold finish_get, take_proposal in *. destruct (proposal_buffer (th_c t)); [done|]. by case_match.
    + injection Hc as <-. rewrite async_idle_work. simpl.
      destruct (vm_work_to_do (th_c t)) eqn:Hn; simpl; [auto|]. right. left. eauto.
Qed.
End threads.
