(* ===== verification/LogAccess.v ===== *)
(** * Iterating over the index of decided blocks

    The cursor of hotstuff/lmdb.h with its iterator, and the iterator of
    hotstuff/log_access_wrapper.cc around it.  The cursor of LMDB and the
    iterator of its C++ wrapper are library code: a class of operations and a
    class of laws.  The loops of [HotstuffAppBase::reload_decided_blocks] and
    [CountingVM::init_from_disk] are written with these iterators, and are
    proved equal to the loops over the list of entries that App.v and
    VMControl.v have. *)

From S2P Require Import Prelude Types ReplicaConfig Certs IoUtils Block BlockStore Lmdb.
From S2P Require Import Consensus Events FetchManager App VMControl.

(** ** The library *)

(** [lmdb::dbenv::cursor] in its read transaction, and its iterator; [None] is
    the dereference of an iterator that is at no entry. *)
Class CursorLib {i_lmdb : LmdbLib} := {
  CURSOR : Type;
  LIT : Type;
  cursor_open : DB → dbi → CURSOR;
  cursor_get_first : CURSOR → CURSOR;
  lit_of : CURSOR → LIT;
  lit_null : LIT;
  lit_deref : LIT → option (bytes * bytes);
  lit_next : LIT → LIT;
  lit_eqb : LIT → LIT → bool;
}.

(** An iterator moves forward over the entries it has not visited, and is equal
    to the null iterator when none are left. *)
Class CursorLaws {i_lmdb : LmdbLib} {i_cursor : CursorLib} := {
  remaining : LIT → list (bytes * bytes);
  remaining_first : ∀ d i,
    remaining (lit_of (cursor_get_first (cursor_open d i))) = cursor_entries d i;
  remaining_deref : ∀ x e es, remaining x = e :: es → lit_deref x = Some e;
  remaining_next : ∀ x e es, remaining x = e :: es → remaining (lit_next x) = es;
  remaining_end : ∀ x, lit_eqb x lit_null = bool_decide (remaining x = []);
}.

Section log_access.
Context {i_sodium : Sodium} {i_xdr : Xdr} {i_bv : BitVector} {i_fs : Fs}.
Context {i_lmdb : LmdbLib} {i_cursor : CursorLib}.

(** ** HotstuffLMDB::cursor *)

Record cursor := mkCursor { cursor_c : CURSOR }.
Record iterator := mkIterator { iterator_it : LIT }.

Definition open_forward_cursor (db : DB) : cursor := mkCursor (cursor_open db data_dbi).

Definition cursor_begin (c : cursor) : iterator :=
  mkIterator (lit_of (cursor_get_first (cursor_c c))).
Definition cursor_end : iterator := mkIterator lit_null.

Definition iterator_next (i : iterator) : iterator := mkIterator (lit_next (iterator_it i)).
Definition iterator_eqb (a b : iterator) : bool := lit_eqb (iterator_it a) (iterator_it b).

(** The entry an iterator is at. *)
Definition iterator_entry {S} (i : iterator) : M S (bytes * bytes) :=
  match lit_deref (iterator_it i) with
  | Some e => ret e
  | None => halt_with NullDeref
  end.

(** [operator*] and [get_hs_hash_and_vm_data<VMBlockID>] *)
Definition iterator_kv {S} (i : iterator) : M S (N * Hash) :=
  e <- iterator_entry i ;; iterator_deref e.
Definition iterator_data {S} (i : iterator) : M S (Hash * VMBlockID) :=
  e <- iterator_entry i ;; get_hs_hash_and_vm_data e.

(** ** LogAccessWrapper::iterator *)

(** The internals own the cursor their iterator moves; those of [end()] have
    none. *)
Record IteratorInternals := mkInternals {
  internals_cursor : option cursor;
  internals_it : iterator;
}.

Definition IteratorInternals_of (db : DB) : IteratorInternals :=
  let c := open_forward_cursor db in mkInternals (Some c) (cursor_begin c).
Definition IteratorInternals_end : IteratorInternals := mkInternals None cursor_end.

(** The pointer to the internals is never null: every constructor allocates. *)
Record log_iterator := mkLogIterator { log_it : IteratorInternals }.

Definition log_begin (l : LogAccessWrapper) : log_iterator :=
  mkLogIterator (IteratorInternals_of (log_lmdb l)).
Definition log_end : log_iterator := mkLogIterator IteratorInternals_end.

Definition log_kv {S} (i : log_iterator) : M S (N * Hash) := iterator_kv (internals_it (log_it i)).
Definition log_data {S} (i : log_iterator) : M S (Hash * VMBlockID) :=
  iterator_data (internals_it (log_it i)).
Definition log_next (i : log_iterator) : log_iterator :=
  mkLogIterator (mkInternals (internals_cursor (log_it i)) (iterator_next (internals_it (log_it i)))).
Definition log_eqb (a b : log_iterator) : bool :=
  iterator_eqb (internals_it (log_it a)) (internals_it (log_it b)).

(** ** Loops *)

(** [for (auto it = first; it != last; ++it) acc = body(it, acc);] *)
Fixpoint iterate {S I A} (next : I → I) (finished : I → bool) (body : I → A → M S A)
    (fuel : nat) (it : I) (acc : A) : M S A :=
  if finished it then ret acc
  else
    match fuel with
    | 0 => halt_with OutOfFuel
    | S fuel => acc' <- body it acc ;; iterate next finished body fuel (next it) acc'
    end.

(** The loop of [CountingVM::init_from_disk]. *)
Definition counting_body (l : LogAccessWrapper) (it : log_iterator) (_ : unit)
  : M (CountingVM * Disk) unit :=
  hid <- log_data it ;;
  when (vmid_bool (hid.2))
    (loaded <- zoom snd (λ d s, (s.1, d)) (load_vm_block CountingVMBlock_of l (hid.1)) ;;
     zoom fst (λ v s, (v, s.2)) (counting_exec_block loaded) ;;
     zoom fst (λ v s, (v, s.2)) (counting_log_commitment (hid.2))).

Definition counting_loop (l : LogAccessWrapper) (fuel : nat) : M (CountingVM * Disk) unit :=
  iterate log_next (λ it, log_eqb it log_end) (counting_body l) fuel (log_begin l) tt.

Section reload.
Context {V : Type} {i_bridge : VMBridge V}.

(** The loop of [reload_decided_blocks]. *)
Definition reload_body (cfg : ReplicaConfig) (self : ReplicaID) (it : iterator) (_ : N)
  : M (AppSt V) N :=
  kv <- iterator_kv it ;;
  info <- get_info cfg self ;;
  blk <- zoom st_disk (λ d s, mkSt (st_heap s) d (st_core s) (st_env s))
           (load_decided_block (kv.2) info) ;;
  p <- new_block blk ;;
  res <- store_insert p ;;
  if missing res then
    throw (RuntimeError "unable to properly load data into block store")
  else b <- read p ;; ret (get_height b).

Definition reload_loop (cfg : ReplicaConfig) (self : ReplicaID) (db : DB) (fuel : nat)
  : M (AppSt V) N :=
  iterate iterator_next (λ it, iterator_eqb it cursor_end) (reload_body cfg self) fuel
    (cursor_begin (open_forward_cursor db)) 0%N.
End reload.

(** ** Properties *)

Context {i_cursorlaws : CursorLaws}.

Lemma finished_end i : iterator_eqb i cursor_end = bool_decide (remaining (iterator_it i) = []).
Proof. apply remaining_end. Qed.

Lemma begin_remaining db :
  remaining (iterator_it (cursor_begin (open_forward_cursor db))) = forward_cursor db.
Proof. apply remaining_first. Qed.

Section loop.
Context {S I A : Type} (next : I → I) (finished : I → bool) (rest : I → list (bytes * bytes)).
Context (body : I → A → M S A) (step : bytes * bytes → A → M S A).
Hypothesis at_end : ∀ it, finished it = bool_decide (rest it = []).
Hypothesis moves : ∀ it e es, rest it = e :: es → rest (next it) = es.
Hypothesis body_step : ∀ it e es acc s, rest it = e :: es → body it acc s = step e acc s.

(** What a loop over a list of entries does. *)
Fixpoint fold_entries (entries : list (bytes * bytes)) (acc : A) : M S A :=
  match entries with
  | [] => ret acc
  | e :: entries => acc' <- step e acc ;; fold_entries entries acc'
  end.

(** A loop with an iterator visits the entries in order, each once, and ends. *)
Lemma iterate_entries fuel it acc s :
  length (rest it) ≤ fuel →
  iterate next finished body fuel it acc s = fold_entries (rest it) acc s.
Proof using All.
  revert it acc s. induction fuel as [|fuel IH]; intros it acc s Hlen; simpl; rewrite at_end;
    destruct (rest it) as [|e es] eqn:Hr; try done; simpl in Hlen; [lia|].
  rewrite bool_decide_eq_false_2 by done. unfold bind. rewrite (body_step it e es) by done.
  simpl. unfold bind. destruct (step e acc s) as [acc' s'|]; [|done].
  rewrite IH, (moves it e es); [done..|]. rewrite (moves it e es) by done. lia.
Qed.
End loop.

Lemma iterator_entry_at {S} i e es (s : S) :
  remaining (iterator_it i) = e :: es → iterator_entry i s = Ok e s.
Proof. intros Hr. unfold iterator_entry. by rewrite (remaining_deref _ _ _ Hr). Qed.

Lemma counting_replay_fold l entries s :
  counting_replay l entries s =
  fold_entries (λ e _, hid <- get_hs_hash_and_vm_data e ;;
    when (vmid_bool (hid.2))
      (loaded <- zoom snd (λ d s, (s.1, d)) (load_vm_block CountingVMBlock_of l (hid.1)) ;;
       zoom fst (λ v s, (v, s.2)) (counting_exec_block loaded) ;;
       zoom fst (λ v s, (v, s.2)) (counting_log_commitment (hid.2)))) entries tt s.
Proof.
  revert s. induction entries as [|e es IH]; intros s; [done|]. simpl. unfold bind.
  destruct (get_hs_hash_and_vm_data e s) as [hid s1|]; [|done].
  destruct (when _ _ s1) as [[] s2|]; [apply IH|done].
Qed.

(** The restart of the machine reads exactly the entries of the index. *)
Lemma counting_loop_entries l fuel s :
  length (log_entries l) ≤ fuel → counting_loop l fuel s = counting_init_from_disk l s.
Proof using All.
  unfold log_entries. intros Hlen. unfold counting_loop, counting_init_from_disk, log_entries.
  rewrite counting_replay_fold, <- (begin_remaining (log_lmdb l)).
  apply (iterate_entries _ _ (λ it, remaining (iterator_it (internals_it (log_it it))))).
  - intros it. apply finished_end.
  - intros it e es Hr. by apply (remaining_next _ e).
  - intros it e es [] s1 Hr. unfold counting_body, log_data, iterator_data, bind.
    by rewrite (iterator_entry_at _ _ _ _ Hr).
  - simpl. by rewrite remaining_first.
Qed.

Section reload_equal.
Context {V : Type} {i_bridge : VMBridge V}.

Definition reload_entry (cfg : ReplicaConfig) (self : ReplicaID) (e : bytes * bytes) (_ : N)
  : M (AppSt V) N :=
  reload_blocks cfg self [e] 0.

Lemma reload_blocks_fold cfg self entries acc (s : AppSt V) :
  reload_blocks cfg self entries acc s = fold_entries (reload_entry cfg self) entries acc s.
Proof.
  revert acc s. induction entries as [|e es IH]; intros acc s; [done|].
  cbn [fold_entries reload_blocks]. set (loop := fold_entries (reload_entry cfg self) es) in *.
  unfold reload_entry. cbn [reload_blocks]. unfold bind.
  destruct (iterator_deref e s) as [kv s1|]; [|done].
  destruct (get_info cfg self s1) as [info s2|]; [|done].
  destruct (zoom _ _ _ s2) as [blk s3|]; [|done]. destruct (new_block blk s3) as [p s4|]; [|done].
  destruct (store_insert p s4) as [res s5|]; [|done]. destruct (missing res); [done|].
  destruct (read p s5) as [b s6|]; [apply IH|done].
Qed.

(** The restart of the replica reads exactly the entries of the index. *)
Lemma reload_loop_entries cfg self db fuel (s : AppSt V) :
  length (forward_cursor db) ≤ fuel →
  reload_loop cfg self db fuel s = reload_blocks cfg self (forward_cursor db) 0 s.
Proof using All.
  intros Hlen. unfold reload_loop. rewrite reload_blocks_fold, <- (begin_remaining db).
  apply (iterate_entries _ _ (λ it, remaining (iterator_it it))).
  - apply finished_end.
  - intros it e es Hr. by apply (remaining_next _ e).
  - intros it e es acc s1 Hr. unfold reload_body, iterator_kv, reload_entry, bind. simpl.
    rewrite (iterator_entry_at _ _ _ _ Hr). done.
  - by rewrite begin_remaining.
Qed.
End reload_equal.
End log_access.
