(* ===== verification/Bridges.v ===== *)
(** * The bridges between consensus and the virtual machine

    hotstuff/vm/hotstuff_vm_bridge.{h,cc} and nonspeculative_vm_bridge.{h,cc},
    as implementations of the interface the application uses ([VMBridge]).
    [HotstuffVMBridge] holds the speculation gadget's lock for a whole call;
    locking it again inside the call is a self-deadlock. *)

From S2P Require Import Prelude Types ReplicaConfig Certs IoUtils Block BlockStore Lmdb.
From S2P Require Import Consensus Events FetchManager App Safety ReplicaInv StoreInv AppInv.
From S2P Require Import SpecGadget VMControl.

(** ** HotstuffVMBridge *)

Section speculative.
Context {i_lmdb : LmdbLib} {i_vm : VMBase} {i_async : AsyncWait}.

Record HotstuffVMBridge := mkBridge {
  speculation_map : SpeculativeExecGadget VMBlockID;
  vm_interface : VMControlInterface;
  initialized : bool;
}.

(** The constructor. *)
Definition HotstuffVMBridge_init (vm : VMState) (target : N) (refill : bool)
  : HotstuffVMBridge :=
  mkBridge SpeculativeExecGadget_init (VMControlInterface_init vm target refill) false.

Definition set_map (g : SpeculativeExecGadget VMBlockID) (b : HotstuffVMBridge)
  : HotstuffVMBridge := mkBridge g (vm_interface b) (initialized b).
Definition set_interface (c : VMControlInterface) (b : HotstuffVMBridge)
  : HotstuffVMBridge := mkBridge (speculation_map b) c (initialized b).

Definition in_map {A} (m : M (SpeculativeExecGadget VMBlockID) A) : M HotstuffVMBridge A :=
  zoom speculation_map set_map m.
Definition in_interface {A} (m : M VMControlInterface A) : M HotstuffVMBridge A :=
  zoom vm_interface set_interface m.

(** [auto lock = speculation_map.lock()]: held until the call returns or
    throws; a thread stuck inside never releases it. *)
Definition with_map_lock {A} (m : M HotstuffVMBridge A) : M HotstuffVMBridge A := λ b,
  if gadget_locked (speculation_map b) then Halt SelfDeadlock b
  else
    match m (set_map (set_locked true (speculation_map b)) b) with
    | Ok a b' => Ok a (set_map (set_locked false (speculation_map b')) b')
    | Throw e b' => Throw e (set_map (set_locked false (speculation_map b')) b')
    | Halt h b' => Halt h b'
    end.

(** [init_guard] *)
Definition init_guard : M HotstuffVMBridge unit := λ b,
  if initialized b then Ok tt b else Throw (RuntimeError "uninitialized vm!") b.

(** [revert_to_last_commitment] *)
Definition revert_to_last_commitment : M HotstuffVMBridge unit := in_map gadget_clear.

(** [init_clean] *)
Definition bridge_init_clean : M HotstuffVMBridge unit :=
  in_interface control_init_clean ;;
  modify (λ b, mkBridge (speculation_map b) (vm_interface b) true).

(** [init_from_disk] *)
Definition bridge_init_from_disk {i_restore : VMRestore} (decided_block_index : LogAccessWrapper)
    (decided_hotstuff_height : N) : M (HotstuffVMBridge * Disk) unit :=
  zoom (λ s, (vm_interface s.1, s.2)) (λ cd s, (set_interface cd.1 s.1, cd.2))
    (control_init_from_disk decided_block_index) ;;
  zoom fst (λ b s, (b, s.2))
    (in_map (gadget_init_from_disk decided_hotstuff_height) ;;
     modify (λ b, mkBridge (speculation_map b) (vm_interface b) true)).

(** [make_empty_proposal] *)
Definition make_empty_proposal (proposal_height : N) : M HotstuffVMBridge bytes :=
  init_guard ;;
  with_map_lock (in_map (add_height_pair proposal_height empty_block_id) ;; ret []).

(** [get_and_apply_next_proposal] *)
Definition get_and_apply_next_proposal (proposal_height : N) : M HotstuffVMBridge bytes :=
  init_guard ;;
  with_map_lock
    (proposal <- in_interface get_proposal ;;
     match proposal with
     | None => in_map (add_height_pair proposal_height empty_block_id) ;; ret []
     | Some p => in_map (add_height_pair proposal_height (nonempty_block_id p)) ;;
                 ret (vm_serialize p)
     end).

(** The end of [apply_block]: log the block and submit it. *)
Definition log_and_submit (blk : HotstuffBlock) (blk_value : option VMBlock)
  : M HotstuffVMBridge unit :=
  in_map (add_height_pair (get_height blk) (get_block_id blk_value)) ;;
  in_interface (submit_block_for_exec blk_value).

(** [apply_block] *)
Definition spec_apply_block (h : heap) (p : loc) (tx : TXN) : M HotstuffVMBridge TXN :=
  init_guard ;;
  with_map_lock
    (blk <- deref h p ;;
     let blk_value := try_parse (get_wire_body blk) in
     let blk_id := get_block_id blk_value in
     let tx' := add_decided_block tx blk blk_id in
     g <- gets speculation_map ;;
     if negb (gadget_empty g) then
       lowest <- get_lowest_speculative g ;;
       if bool_decide (blk_id = lowest.2) then ret tx'
       else
         revert_to_last_commitment ;;
         in_interface finish_work_and_force_rewind ;;
         log_and_submit blk blk_value ;;
         ret tx'
     else log_and_submit blk blk_value ;; ret tx').

(** [notify_vm_of_commitment] *)
Definition spec_notify_vm_of_commitment (h : heap) (p : loc) : M HotstuffVMBridge unit :=
  init_guard ;;
  blk <- deref h p ;;
  committed_block_id <- in_map (on_commit_hotstuff (get_height blk)) ;;
  in_interface (log_commitment committed_block_id).

(** [put_vm_in_proposer_mode] *)
Definition put_vm_in_proposer_mode : M HotstuffVMBridge unit :=
  init_guard ;; in_interface set_proposer.

(** [HotstuffApp]'s overrides. *)
#[export] Instance speculative_bridge : VMBridge HotstuffVMBridge := {|
  get_next_vm_block nonempty height :=
    if negb nonempty then make_empty_proposal height
    else get_and_apply_next_proposal height;
  bridge_apply_block := spec_apply_block;
  bridge_notify_vm_of_commitment := spec_notify_vm_of_commitment;
|}.
End speculative.

(** ** NonspeculativeVMBridge *)

Section nonspeculative.
Context {i_lmdb : LmdbLib} {i_vm : VMBase}.

Record NonspeculativeVMBridge := mkNonspec {
  ns_vm : VMState;
  ns_initialized : bool;
  ns_proposal_buffer : list bytes;
}.

Definition NonspeculativeVMBridge_init (vm : VMState) : NonspeculativeVMBridge :=
  mkNonspec vm false [].

Definition set_ns_vm (v : VMState) (b : NonspeculativeVMBridge) : NonspeculativeVMBridge :=
  mkNonspec v (ns_initialized b) (ns_proposal_buffer b).

Definition in_ns_vm {A} (m : M VMState A) : M NonspeculativeVMBridge A :=
  zoom ns_vm set_ns_vm m.

Definition ns_init_guard : M NonspeculativeVMBridge unit := λ b,
  if ns_initialized b then Ok tt b else Throw (RuntimeError "uninitialized vm!") b.

(** [init_clean] *)
Definition ns_init_clean : M NonspeculativeVMBridge unit :=
  in_ns_vm vm_init_clean ;;
  modify (λ b, mkNonspec (ns_vm b) true (ns_proposal_buffer b)).

(** [init_from_disk] *)
Definition ns_init_from_disk {i_restore : VMRestore} (decided_block_index : LogAccessWrapper)
  : M (NonspeculativeVMBridge * Disk) unit :=
  zoom (λ s, (ns_vm s.1, s.2)) (λ vd s, (set_ns_vm vd.1 s.1, vd.2))
    (vm_init_from_disk decided_block_index) ;;
  zoom fst (λ b s, (b, s.2))
    (modify (λ b, mkNonspec (ns_vm b) true (ns_proposal_buffer b))).

(** [make_empty_proposal] *)
Definition ns_make_empty_proposal (proposal_height : N) : M NonspeculativeVMBridge bytes :=
  ns_init_guard ;; ret [].

(** [add_proposal]: inserted at the front of the vector. *)
Definition add_proposal (proposal : bytes) : M NonspeculativeVMBridge unit :=
  modify (λ b, mkNonspec (ns_vm b) (ns_initialized b) (proposal :: ns_proposal_buffer b)).

(** [get_next_proposal]: taken from the back. *)
Definition get_next_proposal (proposal_height : N) : M NonspeculativeVMBridge bytes :=
  ns_init_guard ;;
  λ b, match last (ns_proposal_buffer b) with
       | None => Ok [] b
       | Some out =>
         Ok out (mkNonspec (ns_vm b) (ns_initialized b)
                   (take (length (ns_proposal_buffer b) - 1) (ns_proposal_buffer b)))
       end.

(** [apply_block]: the parsed value is dereferenced without a test. *)
Definition ns_apply_block (h : heap) (p : loc) (tx : TXN) : M NonspeculativeVMBridge TXN :=
  ns_init_guard ;;
  blk <- deref h p ;;
  let blk_value := try_parse (get_wire_body blk) in
  let tx' := add_decided_block tx blk (get_block_id blk_value) in
  match blk_value with
  | None => halt_with NullDeref
  | Some b => in_ns_vm (exec_block b) ;; ret tx'
  end.

Definition ns_proposal_buffer_is_empty (b : NonspeculativeVMBridge) : bool :=
  (length (ns_proposal_buffer b) =? 0)%nat.

(** [NonspeculativeHotstuffApp]'s overrides. *)
#[export] Instance nonspeculative_bridge : VMBridge NonspeculativeVMBridge := {|
  get_next_vm_block nonempty height :=
    if negb nonempty then ns_make_empty_proposal height else get_next_proposal height;
  bridge_apply_block := ns_apply_block;
  bridge_notify_vm_of_commitment _ _ := ret tt;
|}.
End nonspeculative.

(** ** What stops a bridge

    The machine's own faults, a call before the bridge is initialized, and, of
    the speculative bridge, the self-deadlock, a commitment that does not match
    the speculation, and a proposal requested outside proposer mode.  A worker
    that never becomes idle and an access to an empty buffer are not among
    them, nor is the core's exception. *)

Definition faults_in (P : fault → Prop) {S A} (m : M S A) : Prop :=
  ∀ s, wp m (λ _ _, True) (λ f _, P f) s.

Section faults_in.
Context {S : Type} (P : fault → Prop).

Lemma fi_ret {A} (a : A) : faults_in P (S := S) (ret a).
Proof. done. Qed.
Lemma fi_bind {A A'} (m : M S A) (k : A → M S A') :
  faults_in P m → (∀ a, faults_in P (k a)) → faults_in P (bind m k).
Proof.
  intros Hm Hk s. apply wp_bind. eapply wp_mono; [apply Hm| |done]. intros a s' _. apply Hk.
Qed.
Lemma fi_gets {A} (f : S → A) : faults_in P (gets f).
Proof. done. Qed.
Lemma fi_modify (f : S → S) : faults_in P (modify f).
Proof. done. Qed.
Lemma fi_zoom {T A} (get : S → T) put (m : M T A) : faults_in P m → faults_in P (zoom get put m).
Proof. intros Hm s. apply wp_zoom. eapply wp_mono; [apply Hm|done|done]. Qed.
Lemma fi_deref h p : is_Some (h !! p) → faults_in P (S := S) (deref h p).
Proof. intros [b Hb] s. unfold wp, deref. by rewrite Hb. Qed.
End faults_in.

Create HintDb faults_in.
#[export] Hint Resolve fi_ret fi_gets fi_modify fi_deref : faults_in.

Ltac fi_step :=
  repeat match goal with
  | |- faults_in _ (bind _ _) => apply fi_bind; [|intros ?]
  | |- faults_in _ (zoom _ _ _) => apply fi_zoom
  | |- faults_in _ (match _ with _ => _ end) => case_match
  | |- faults_in _ (let '_ := _ in _) => case_match
  | |- faults_in _ _ => solve [auto with faults_in]
  end.

(** A machine with the faults of its methods, the core's exception not among
    them. *)
Class VMLaws {i_vm : VMBase} := {
  vm_fault : fault → Prop;
  vm_no_breach : ¬ vm_fault safety_breached;
  vm_faults :: VMFaults vm_fault;
}.

Section bridge_laws.
Context {i_lmdb : LmdbLib} {i_vm : VMBase} {i_async : AsyncWait} {i_laws : VMLaws}.

Inductive spec_fault : fault → Prop :=
  | sf_vm f : vm_fault f → spec_fault f
  | sf_uninitialized : spec_fault (Exn (RuntimeError "uninitialized vm!"))
  | sf_deadlock : spec_fault (Stop SelfDeadlock)
  | sf_early : spec_fault (Exn (RuntimeError "vm thread woke up early"))
  | sf_commit_empty h :
      spec_fault (Exn (RuntimeError ("committing on empty map at hs height " +:+ pretty (h : N))))
  | sf_gap : spec_fault (Exn (RuntimeError "gap in commit log!")).
#[local] Hint Constructors spec_fault : core.

Inductive nonspec_fault : fault → Prop :=
  | nf_vm f : vm_fault f → nonspec_fault f
  | nf_uninitialized : nonspec_fault (Exn (RuntimeError "uninitialized vm!"))
  | nf_unparsed bs : try_parse bs = None → nonspec_fault (Stop NullDeref).
#[local] Hint Constructors nonspec_fault : core.

(** A turn of the worker in any state. *)
Lemma run_once_faults c f c' :
  vm_work_to_do c = true → run_once c = Fault f c' →
  vm_fault f ∨ f = Exn (RuntimeError "vm thread woke up early").
Proof using i_laws.
  intros Hw Hr. assert (control_wf c ∨ ¬ control_wf c) as [Hwf|Hwf].
  { unfold control_wf. destruct (is_proposer c); [auto|].
    destruct (decide (0 < additional_proposal_requests c)%N); [right|left]; naive_solver. }
  - left. pose proof (run_once_wp vm_fault c Hwf Hw) as H. unfold wp in H. by rewrite Hr in H.
  - pose proof (run_once_early vm_fault c Hwf Hw) as H. unfold wp in H. by rewrite Hr in H.
Qed.

(** Waiting for the worker ends from any state. *)
Lemma fi_wait : faults_in spec_fault wait_for_async_task.
Proof using i_laws.
  intros c. pose proof (async_waited c) as H. unfold wp, waited in *.
  destruct (wait_for_async_task c) as [|f c']; [done|].
  destruct H as [(c1 & _ & Hw & Hr)|(_ & Ht & Hw & Hn)].
  - destruct (run_once_faults c1 f c' Hw Hr) as [?| ->]; auto.
  - specialize (Hn c' Ht). by rewrite Hw in Hn.
Qed.

Lemma fi_get_proposal : faults_in spec_fault get_proposal.
Proof using i_laws.
  intros c. destruct (is_proposer c) eqn:Hp; [|unfold get_proposal; apply wp_bind, wp_gets; by rewrite Hp].
  eapply wp_mono; [apply (get_proposal_wp vm_fault); by intros _|done|auto].
Qed.

Lemma fi_init_guard : faults_in spec_fault init_guard.
Proof. intros b. unfold wp, init_guard. destruct (initialized b); auto. Qed.

Lemma fi_with_map_lock {A} (m : M HotstuffVMBridge A) :
  faults_in spec_fault m → faults_in spec_fault (with_map_lock m).
Proof.
  intros Hm b. unfold wp, with_map_lock. destruct (gadget_locked _); [auto|].
  specialize (Hm (set_map (set_locked true (speculation_map b)) b)). unfold wp in Hm.
  by destruct (m _) as [a b'|[e|h] b'].
Qed.

Lemma fi_clear : faults_in spec_fault (gadget_clear (VMValueType := VMBlockID)).
Proof. intros g. unfold wp, gadget_clear, with_gadget_lock. destruct (gadget_locked g); simpl; auto. Qed.

Lemma fi_on_commit h : faults_in spec_fault (on_commit_hotstuff (VMValueType := VMBlockID) h).
Proof.
  intros g. unfold wp, on_commit_hotstuff, with_gadget_lock.
  destruct (gadget_locked g); [auto|]. simpl. destruct (height_map g) as [|[h0 v] rest]; [auto|].
  destruct (negb _); auto.
Qed.

Lemma fi_log_and_submit b v : faults_in spec_fault (log_and_submit b v).
Proof using i_laws.
  unfold log_and_submit, in_map, in_interface, submit_block_for_exec, add_height_pair.
  fi_step; auto using fi_wait.
Qed.

Lemma fi_rewind : faults_in spec_fault finish_work_and_force_rewind.
Proof using i_laws.
  unfold finish_work_and_force_rewind, in_vm_instance. fi_step; [apply fi_wait|].
  intros v. eapply wp_mono; [apply rewind_faults|done|auto].
Qed.

Lemma fi_spec_apply h p tx :
  is_Some (h !! p) → faults_in spec_fault (spec_apply_block h p tx).
Proof using i_laws.
  intros Hp. unfold spec_apply_block. apply fi_bind; [apply fi_init_guard|intros _].
  apply fi_with_map_lock. apply fi_bind; [by apply fi_deref|intros blk].
  apply fi_bind; [apply fi_gets|intros g]. unfold gadget_empty.
  case_bool_decide as Hg; simpl; [apply fi_bind; [apply fi_log_and_submit|auto with faults_in]|].
  unfold get_lowest_speculative. destruct (height_map g); [done|].
  unfold revert_to_last_commitment, in_interface, in_map.
  fi_step; auto using fi_clear, fi_rewind, fi_log_and_submit.
Qed.

#[export] Instance speculative_laws : VMBridgeLaws HotstuffVMBridge.
Proof using i_laws.
  refine {| bridge_fault := spec_fault |}.
  - inversion 1. by apply vm_no_breach.
  - intros ne n. change (faults_in spec_fault (get_next_vm_block (V := HotstuffVMBridge) ne n)).
    destruct ne; simpl; unfold make_empty_proposal, get_and_apply_next_proposal;
      (apply fi_bind; [apply fi_init_guard|intros _]); apply fi_with_map_lock;
      unfold in_interface, in_map, add_height_pair; fi_step; auto using fi_get_proposal.
  - intros h p tx v Hp. by apply fi_spec_apply.
  - intros h p v Hp. revert v. change (faults_in spec_fault (spec_notify_vm_of_commitment h p)).
    unfold spec_notify_vm_of_commitment, in_map, in_interface, log_commitment.
    fi_step; auto using fi_init_guard, fi_on_commit, fi_wait.
Defined.

Lemma fi_ns_init_guard : faults_in nonspec_fault ns_init_guard.
Proof. intros b. unfold wp, ns_init_guard. destruct (ns_initialized b); auto. Qed.

#[export] Instance nonspeculative_laws : VMBridgeLaws NonspeculativeVMBridge.
Proof using i_laws.
  refine {| bridge_fault := nonspec_fault |}.
  - inversion 1. by apply vm_no_breach.
  - intros ne n. change (faults_in nonspec_fault (get_next_vm_block (V := NonspeculativeVMBridge) ne n)).
    destruct ne; simpl; (apply fi_bind; [apply fi_ns_init_guard|intros _]); [|done].
    intros b. unfold wp. by destruct (last _).
  - intros h p tx v Hp. revert v. change (faults_in nonspec_fault (ns_apply_block h p tx)).
    unfold ns_apply_block, in_ns_vm. fi_step; auto using fi_ns_init_guard.
    + intros s. eapply wp_mono; [apply exec_faults|done|auto].
    + intros s. unfold wp, halt_with. by eapply nf_unparsed.
  - done.
Defined.
End bridge_laws.

#[export] Instance counting_laws {i_xdr : Xdr} : VMLaws (i_vm := counting_vm).
Proof. refine {| vm_fault f := f = Exn XdrError |}. done. Defined.

(** ** What the bridges do *)

Section spec_props.
Context {i_lmdb : LmdbLib} {i_vm : VMBase} {i_async : AsyncWait}.

(** Applying a block whose id is the lowest speculated one: it is recorded as
    decided and nothing else changes. *)
Lemma spec_apply_match h p blk tx b h0 i rest :
  initialized b = true → gadget_locked (speculation_map b) = false →
  h !! p = Some blk → height_map (speculation_map b) = (h0, i) :: rest →
  get_block_id (try_parse (get_wire_body blk)) = i →
  spec_apply_block h p tx b = Ok (add_decided_block tx blk i) b.
Proof.
  intros Hi Hl Hb Hm Hid. destruct b as [[hm hd hc lk] c ini]. simpl in *. subst.
  unfold spec_apply_block, bind, init_guard, with_map_lock. simpl. unfold deref. rewrite Hb.
  unfold gets, gadget_empty, get_lowest_speculative. simpl.
  by rewrite bool_decide_eq_true_2.
Qed.

(** Applying any other block while something is speculated never returns: the
    revert locks the mutex the call already holds. *)
Lemma spec_apply_mismatch h p blk tx b h0 i rest :
  initialized b = true → gadget_locked (speculation_map b) = false →
  h !! p = Some blk → height_map (speculation_map b) = (h0, i) :: rest →
  get_block_id (try_parse (get_wire_body blk)) ≠ i →
  ∃ b', spec_apply_block h p tx b = Halt SelfDeadlock b'.
Proof.
  intros Hi Hl Hb Hm Hid. destruct b as [[hm hd hc lk] c ini]. simpl in *. subst.
  unfold spec_apply_block, bind, init_guard, with_map_lock. simpl. unfold deref. rewrite Hb.
  unfold gets, gadget_empty, get_lowest_speculative. simpl.
  rewrite bool_decide_eq_false_2 by done. eauto.
Qed.

(** Committing the lowest speculated height hands its id to the machine. *)
Lemma spec_notify_match h p blk b h0 i rest :
  initialized b = true → gadget_locked (speculation_map b) = false →
  h !! p = Some blk → height_map (speculation_map b) = (h0, i) :: rest →
  get_height blk = h0 →
  spec_notify_vm_of_commitment h p b =
    in_interface (log_commitment i)
      (set_map (mkGadget rest (speculation_head_hotstuff_height (speculation_map b)) h0 false) b).
Proof.
  intros Hi Hl Hb Hm Hh. destruct b as [[hm hd hc lk] c ini]. simpl in *. subst.
  unfold spec_notify_vm_of_commitment, bind, init_guard, deref. simpl. rewrite Hb. simpl.
  unfold in_map, zoom, on_commit_hotstuff, with_gadget_lock. simpl.
  rewrite N.eqb_refl. done.
Qed.

(** A follower: nothing is speculated, so the block is logged and submitted,
    and the commitment that follows takes its id back out. *)
Lemma spec_follower_cycle (P : fault → Prop) {i_faults : VMFaults P} h p blk tx b :
  initialized b = true → gadget_locked (speculation_map b) = false →
  control_wf (vm_interface b) →
  h !! p = Some blk → height_map (speculation_map b) = [] →
  speculation_head_hotstuff_height (speculation_map b) = get_height blk →
  let i := get_block_id (try_parse (get_wire_body blk)) in
  wp (spec_apply_block h p tx)
    (λ tx' b', tx' = add_decided_block tx blk i ∧
       height_map (speculation_map b') = [(get_height blk, i)] ∧
       gadget_locked (speculation_map b') = false ∧ initialized b' = true ∧
       blocks_to_validate (vm_interface b') = [try_parse (get_wire_body blk)] ∧
       is_proposer (vm_interface b') = false)
    (λ f _, P f) b.
Proof.
  intros Hi Hl Hwf Hb Hm Hh i. destruct b as [[hm hd hc lk] c ini]. simpl in *. subst.
  unfold spec_apply_block. apply wp_bind. unfold wp at 1, init_guard. simpl.
  unfold wp, with_map_lock. simpl. unfold bind, deref. rewrite Hb. simpl.
  unfold log_and_submit, bind, in_map, zoom, add_height_pair, modify. simpl. rewrite N.eqb_refl. simpl.
  unfold in_interface, zoom. simpl.
  pose proof (submit_block_wp P (try_parse (get_wire_body blk)) c Hwf) as Hs.
  unfold wp in Hs. destruct (submit_block_for_exec _ c) as [[] c'|[e|hh] c']; [|done|done].
  destruct Hs as (_ & Hp & _ & Hbl & _). simpl. done.
Qed.
End spec_props.

Section own_proposals.
Context {i_lmdb : LmdbLib} {i_vm : VMBase} {i_async : AsyncWait}.

(** What a leader relies on in its machine: an empty body is no block, and a
    proposal is read back from its body. *)
Hypothesis parse_empty : try_parse [] = None.
Hypothesis propose_parses : ∀ v o v', propose v = Ok (Some o) v' → try_parse (vm_serialize o) = Some o.

Definition parses_back (o : option VMBlock) : Prop :=
  ∀ v, o = Some v → try_parse (vm_serialize v) = Some v.
Definition good_buffer (c : VMControlInterface) : Prop := Forall parses_back (proposal_buffer c).

Lemma make_proposal_good c :
  good_buffer c → wp make_proposal (λ _ c', good_buffer c') (λ _ _, True) c.
Proof using propose_parses.
  intros Hg. unfold make_proposal. apply wp_bind, wp_gets.
  destruct (0 <? additional_proposal_requests c)%N; [|by apply wp_ret].
  destruct (negb (is_proposer c)); [done|]. apply wp_bind. unfold in_vm_instance. apply wp_zoom.
  unfold wp at 1. destruct (propose (vm_instance c)) as [o v'|] eqn:Hp; [|done].
  apply wp_modify. unfold good_buffer. simpl. apply Forall_app. split; [done|].
  constructor; [|done]. intros x ->. by eapply propose_parses.
Qed.

Lemma turn_good c c' : good_buffer c → worker_turn c c' → good_buffer c'.
Proof using propose_parses.
  intros Hg [Hw Hr].
  assert (H : wp run_once (λ _ c', good_buffer c') (λ _ _, True) c); [|unfold wp in H; by rewrite Hr in H].
  unfold run_once. apply wp_bind, wp_gets. rewrite Hw. simpl. apply wp_bind.
  eapply wp_mono; [apply (exec_blocks_wp (λ _, True))| |done].
  intros _ c1 (_ & _ & Hb & _). apply wp_bind. assert (Hg1 : good_buffer c1) by (unfold good_buffer; by rewrite Hb).
  destruct (highest_committed_id c) as [i|]; [|by apply make_proposal_good].
  apply wp_bind. eapply wp_mono; [apply (in_vm_instance_wp (λ _, True)), log_faults| |done].
  intros _ c2 [v ->]. by apply wp_modify, make_proposal_good.
Qed.

Lemma turns_good c c' : good_buffer c → rtc worker_turn c c' → good_buffer c'.
Proof using propose_parses. intros Hg Ht. revert Hg. induction Ht; eauto using turn_good. Qed.

Lemma get_proposal_good c o c' :
  control_wf c → good_buffer c → get_proposal c = Ok o c' →
  control_wf c' ∧ good_buffer c' ∧ parses_back o.
Proof using propose_parses.
  intros Hwf Hg Hr.
  assert (Hw : control_wf c') by
    (pose proof (get_proposal_wp (λ _, True) c Hwf) as H; unfold wp in H; rewrite Hr in H; apply H).
  split; [done|].
  assert (Htake : ∀ c1, good_buffer c1 → wp take_proposal
    (λ o c', good_buffer c' ∧ parses_back o) (λ _ _, True) c1).
  { intros c1 Hg1. unfold wp, take_proposal, good_buffer in *.
    destruct (proposal_buffer c1) as [|x l]; [done|]. by apply Forall_cons in Hg1 as [? ?]. }
  assert (H : wp get_proposal (λ o c', good_buffer c' ∧ parses_back o) (λ _ _, True) c);
    [|unfold wp in H; by rewrite Hr in H].
  unfold get_proposal. apply wp_bind, wp_gets. destruct (negb (is_proposer c)); [by apply wp_ret|].
  simpl. case_bool_decide; [|by apply Htake]. apply wp_bind, wp_modify.
  destruct (PROPOSAL_BUFFER_TARGET c =? 0)%N; [by apply wp_ret|]. apply wp_bind.
  set (c1 := set_buffer _ _ c). pose proof (cv_waited
    (λ c, done_flag c || negb (bool_decide (proposal_buffer c = []))) c1) as Hw1.
  unfold waited in Hw1. unfold wp at 1. destruct (cv_wait _ c1) as [[] c2|]; [|done].
  apply Htake, (turns_good c1); [done|apply Hw1].
Qed.

(** A leader's bridge and the bodies it has proposed and not yet seen decided,
    with their heights: it proposes at the height after those it speculates on,
    empty blocks or the machine's, any number of them; its blocks are decided in
    order; in between the worker takes turns. *)
Inductive own_run : HotstuffVMBridge → list (N * bytes) → Prop :=
  | own_start b :
      initialized b = true → gadget_locked (speculation_map b) = false →
      height_map (speculation_map b) = [] → control_wf (vm_interface b) →
      proposal_buffer (vm_interface b) = [] → own_run b []
  | own_mode b l b' : own_run b l → put_vm_in_proposer_mode b = Ok tt b' → own_run b' l
  | own_stop b l b' : own_run b l → in_interface stop_proposals b = Ok tt b' → own_run b' l
  | own_turn b l c' :
      own_run b l → worker_turn (vm_interface b) c' → own_run (set_interface c' b) l
  | own_propose b l ne bd b' :
      own_run b l →
      get_next_vm_block ne (speculation_head_hotstuff_height (speculation_map b)) b = Ok bd b' →
      own_run b' (l ++ [(speculation_head_hotstuff_height (speculation_map b), bd)])
  | own_decide b n bd l h p blk tx tx' b1 b' :
      own_run b ((n, bd) :: l) → h !! p = Some blk → get_height blk = n → get_wire_body blk = bd →
      spec_apply_block h p tx b = Ok tx' b1 → spec_notify_vm_of_commitment h p b1 = Ok tt b' →
      own_run b' l.

(** The ids logged are those of the bodies. *)
Definition own_inv (b : HotstuffVMBridge) (l : list (N * bytes)) : Prop :=
  initialized b = true ∧ gadget_locked (speculation_map b) = false ∧
  control_wf (vm_interface b) ∧ good_buffer (vm_interface b) ∧
  height_map (speculation_map b) = (λ x, (x.1, get_block_id (try_parse x.2))) <$> l.

Lemma own_propose_inv b l ne bd b' :
  own_inv b l →
  get_next_vm_block ne (speculation_head_hotstuff_height (speculation_map b)) b = Ok bd b' →
  own_inv b' (l ++ [(speculation_head_hotstuff_height (speculation_map b), bd)]).
Proof using parse_empty propose_parses.
  intros (Hi & Hl & Hwf & Hg & Hm) Hr. destruct b as [[hm hd hc lk] c ini]. simpl in *. subst.
  destruct ne; simpl in Hr;
    unfold make_empty_proposal, get_and_apply_next_proposal, bind, init_guard, with_map_lock in Hr; simpl in Hr.
  - unfold in_interface, zoom in Hr. simpl in Hr.
    destruct (get_proposal c) as [o c'|[|] ?] eqn:Hp; [|done|done].
    destruct (get_proposal_good c o c' Hwf Hg Hp) as (Hwf' & Hg' & Ho).
    destruct o as [v|]; unfold in_map, zoom, add_height_pair, modify in Hr; simpl in Hr;
      rewrite N.eqb_refl in Hr; simpl in Hr; injection Hr as <- <-; unfold own_inv; simpl;
      rewrite fmap_app; simpl.
    + by rewrite (Ho v).
    + by rewrite parse_empty.
  - unfold in_map, zoom, add_height_pair, modify in Hr. simpl in Hr. rewrite N.eqb_refl in Hr.
    simpl in Hr. injection Hr as <- <-. unfold own_inv. simpl. rewrite fmap_app. simpl. by rewrite parse_empty.
Qed.

(** Deciding the oldest own block: nothing is reverted, and the machine is told
    to commit its id. *)
Lemma own_decide_inv (P : fault → Prop) {i_faults : VMFaults P} b n bd l h p blk tx :
  own_inv b ((n, bd) :: l) → h !! p = Some blk → get_height blk = n → get_wire_body blk = bd →
  spec_apply_block h p tx b = Ok (add_decided_block tx blk (get_block_id (try_parse bd))) b ∧
  wp (spec_notify_vm_of_commitment h p)
    (λ _ b', own_inv b' l ∧ highest_committed_id (vm_interface b') =
       let i := get_block_id (try_parse bd) in if vmid_bool i then Some i else None)
    (λ f _, P f) b.
Proof using parse_empty propose_parses.
  intros (Hi & Hl & Hwf & Hg & Hm) Hb Hn Hbd. rewrite fmap_cons in Hm. simpl in Hm. split.
  { by apply (spec_apply_match h p blk tx b n _ _ Hi Hl Hb Hm); rewrite Hbd. }
  unfold wp. rewrite (spec_notify_match h p blk b n _ _ Hi Hl Hb Hm Hn). unfold in_interface, zoom. simpl.
  set (i := get_block_id (try_parse bd)).
  assert (H : wp (log_commitment i) (λ _ c', (control_wf c' ∧ good_buffer c') ∧
    highest_committed_id c' = if vmid_bool i then Some i else None) (λ f _, P f) (vm_interface b)).
  2: { unfold wp in H. destruct (log_commitment i (vm_interface b)) as [[] c'|]; [|done].
       destruct H as [[? ?] ?]. by split. }
  unfold log_commitment. apply wp_bind.
  eapply wp_mono; [apply (waited_wp P _ _ (λ c', idled (vm_interface b) c' ∧ good_buffer c') _ Hwf
    (async_waited (vm_interface b)))| |done].
  - intros c' Ht Hw%negb_true_iff. split; [by apply (turns_idled P)|by eapply turns_good].
  - intros c' Ht Hw. exists c'. by rewrite Hw.
  - intros _ c' [(Hwf' & _ & _ & Hid & _) Hg']. apply wp_modify. by destruct (vmid_bool i).
Qed.

Lemma own_run_inv b l : own_run b l → own_inv b l.
Proof using parse_empty propose_parses.
  induction 1 as [b Hi Hl Hm Hwf Hb|b l b' _ IH Hr|b l b' _ IH Hr|b l c' _ IH Ht|b l ne bd b' _ IH Hr|
    b n bd l h p blk tx tx' b1 b' _ IH Hp Hn Hbd Ha Hnot].
  - split_and!; try done. unfold good_buffer. by rewrite Hb.
  - destruct IH as (Hi & Hl & Hwf & Hg & Hm). unfold put_vm_in_proposer_mode, bind, init_guard in Hr.
    rewrite Hi in Hr. injection Hr as <-. by split_and!.
  - destruct IH as (Hi & Hl & Hwf & Hg & Hm). injection Hr as <-. by split_and!.
  - destruct IH as (Hi & Hl & Hwf & Hg & Hm). split_and!; try done; simpl.
    + by apply (turn_advances (λ _, True) (vm_interface b)).
    + by eapply turn_good.
  - by eapply own_propose_inv.
  - destruct (own_decide_inv (λ _, True) b n bd l h p blk tx IH Hp Hn Hbd) as [Ha' Hw].
    rewrite Ha' in Ha. injection Ha as <- <-. unfold wp in Hw. by rewrite Hnot in Hw; destruct Hw.
Qed.
End own_proposals.

Section nonspec_props.
Context {i_lmdb : LmdbLib} {i_vm : VMBase}.

(** The proposals in submission order. *)
Definition pending_proposals (b : NonspeculativeVMBridge) : list bytes :=
  rev (ns_proposal_buffer b).

Lemma add_proposal_fifo x b b' :
  add_proposal x b = Ok tt b' → pending_proposals b' = pending_proposals b ++ [x].
Proof. unfold add_proposal, modify. intros ?. by simplify_eq. Qed.

Lemma get_next_proposal_fifo n b :
  ns_initialized b = true →
  match pending_proposals b with
  | [] => get_next_proposal n b = Ok [] b
  | x :: l => ∃ b', get_next_proposal n b = Ok x b' ∧ pending_proposals b' = l
  end.
Proof.
  intros Hi. unfold get_next_proposal, bind, ns_init_guard, pending_proposals. rewrite Hi.
  destruct (ns_proposal_buffer b) as [|y l _] eqn:Hb using rev_ind; [done|].
  rewrite rev_app_distr, last_snoc. simpl. eexists. split; [done|]. simpl.
  rewrite length_app, take_app_length' by (simpl; lia). done.
Qed.

(** A block whose body does not parse stops the replica; that includes the
    empty proposals the bridge itself makes. *)
Lemma ns_apply_unparsed h p blk tx b :
  ns_initialized b = true → h !! p = Some blk → try_parse (get_wire_body blk) = None →
  ns_apply_block h p tx b = Halt NullDeref b.
Proof.
  intros Hi Hb Hp. unfold ns_apply_block, bind, ns_init_guard, deref. rewrite Hi, Hb. simpl.
  by rewrite Hp.
Qed.

Lemma ns_apply_parsed h p blk tx b v :
  ns_initialized b = true → h !! p = Some blk → try_parse (get_wire_body blk) = Some v →
  ns_apply_block h p tx b =
    match exec_block v (ns_vm b) with
    | Ok _ s => Ok (add_decided_block tx blk (get_id v)) (set_ns_vm s b)
    | Fault f s => Fault f (set_ns_vm s b)
    end.
Proof.
  intros Hi Hb Hp. unfold ns_apply_block, bind, ns_init_guard, deref. rewrite Hi, Hb. simpl.
  rewrite Hp. unfold in_ns_vm, zoom. by destruct (exec_block v (ns_vm b)).
Qed.
End nonspec_props.
