(* ===== verification/Restart.v ===== *)
(** * Restarting a replica

    [init_clean] and [init_from_disk] of the two applications of
    hotstuff/hotstuff.h, and what a restart recovers.  The data a replica leaves
    behind is described by [saved_log]: one file per decided block, the index
    naming them in order, and the certificate on the last one.  A running
    replica's disk and index are such a log for the chain below [b_exec]
    ([DurInv]), and a new process that reads a [saved_log] ends with exactly
    that chain in its store. *)

From S2P Require Import Prelude Types ReplicaConfig Certs IoUtils Block BlockStore Lmdb.
From S2P Require Import Consensus Events FetchManager App Safety ReplicaInv StoreInv AppInv.
From S2P Require Import Network Durable SpecGadget VMControl Bridges.

(** A list of witnesses. *)
Lemma Forall2_choose {A A'} (P : A → A' → Prop) l :
  (∀ x, x ∈ l → ∃ y, P x y) → ∃ l', Forall2 P l l'.
Proof.
  induction l as [|x l IH]; intros Hl; [by exists []|].
  destruct (Hl x) as [y Hy]; [by left|]. destruct IH as [l' Hl']; [intros; apply Hl; by right|].
  exists (y :: l'). by constructor.
Qed.

(** ** The applications *)

Section apps.
Context {i_sodium : Sodium} {i_xdr : Xdr} {i_bv : BitVector} {i_fs : Fs} {i_lmdb : LmdbLib}.
Context {i_vm : VMBase} {i_async : AsyncWait} {i_restore : VMRestore}.

(** The bridge of a replica together with the disk. *)
Definition in_bridge {V A} (m : M (V * Disk) A) : M (AppSt V) A :=
  zoom (λ s, (a_vm (st_env s), st_disk s))
       (λ vd s, mkSt (st_heap s) vd.2 (st_core s) (set_vm vd.1 (st_env s))) m.

(** [LogAccessWrapper(decided_hash_index)] *)
Definition log_wrapper {V} : M (AppSt V) LogAccessWrapper :=
  db <- core decided_hash_index ;;
  cfg <- core config ;;
  self <- core self_id ;;
  info <- get_info cfg self ;;
  ret (mkLog db info).

(** [HotstuffApp::init_clean] and [init_from_disk] *)
Definition HotstuffApp_init_clean : M (AppSt HotstuffVMBridge) unit :=
  in_core (set_index create_db) ;;
  in_env (λ _, in_vm bridge_init_clean).
Definition HotstuffApp_init_from_disk : M (AppSt HotstuffVMBridge) unit :=
  highest_decision_height <- reload_decided_blocks ;;
  l <- log_wrapper ;;
  in_bridge (bridge_init_from_disk l highest_decision_height).

(** [NonspeculativeHotstuffApp::init_clean] and [init_from_disk] *)
Definition NonspeculativeHotstuffApp_init_clean : M (AppSt NonspeculativeVMBridge) unit :=
  in_core (set_index create_db) ;;
  in_env (λ _, in_vm ns_init_clean).
Definition NonspeculativeHotstuffApp_init_from_disk : M (AppSt NonspeculativeVMBridge) unit :=
  reload_decided_blocks ;;
  l <- log_wrapper ;;
  in_bridge (ns_init_from_disk l).
End apps.

(** ** Reading a log back *)

Section reload.
Context {i_sodium : Sodium} {i_xdr : Xdr} {i_bv : BitVector} {i_fs : Fs} {i_lmdb : LmdbLib}.
Context {i_xdrlaws : XdrLaws} {i_bvlaws : BitVectorLaws} {i_lmdblaws : LmdbLaws}.
Context {V : Type} {i_bridge : VMBridge V} {i_blaws : VMBridgeLaws V}.
Context (cfg : ReplicaConfig) (r : ReplicaID) (info : ReplicaInfo).
Hypothesis Hinfo : replica_map cfg !! r = Some info.
(** The files can be opened. *)
Hypothesis readable : ∀ f, fopen_r_ok f = true.

(** A process that has just been constructed over an existing disk and index. *)
Definition reboot (sk : SecretKey) (vm : V) (d : Disk) (db : DB) : AppSt V :=
  mkSt {[1%positive := genesis_block]} d (HotstuffCore_init 1%positive cfg r db)
    (AppBase_init 1%positive cfg r sk vm).

Abbreviation blog := (list (Hash * HotstuffBlockWire)).

(** A block file and its entry in the index. *)
Definition saved_block (d : Disk) (e : bytes * bytes) (hw : Hash * HotstuffBlockWire) : Prop :=
  (∃ bs, e.2 = hw.1 ++ bs) ∧ length hw.1 = 32 ∧ wire_ok hw.2 ∧
  crypto_generichash (xdr_header (header hw.2)) = Some hw.1 ∧
  d !! block_filename hw.1 info = Some (xdr_block hw.2).

(** The hash of the block before position [i] of the log. *)
Definition tip (l : blog) : Hash := default zero_hash (fst <$> last l).

Lemma log_tip l h :
  match length l with
  | 0 => h = zero_hash
  | S i => ∃ hw, l !! i = Some hw ∧ hw.1 = h
  end → tip l = h.
Proof.
  unfold tip. destruct l as [|hw' l' _] using rev_ind; [done|]. rewrite last_snoc, length_app,
    Nat.add_1_r. intros (hw & Hi & <-).
  rewrite lookup_app_r, Nat.sub_diag in Hi by lia. by simplify_eq/=.
Qed.

(** Each block's parent is the one before it, and its certificate is on a
    block before it. *)
Inductive log_chain : blog → Prop :=
  | log_nil : log_chain []
  | log_snoc l h w :
      log_chain l → h ≠ zero_hash → h ∉ l.*1 → parent_hash (header w) = tip l →
      just_of (header w) ∈ zero_hash :: l.*1 → log_chain (l ++ [(h, w)]).

Record saved_log (d : Disk) (db : DB) (l : blog) : Prop := {
  sl_entries : Forall2 (saved_block d) (forward_cursor db) l;
  sl_chain : log_chain l;
  sl_short : (N.of_nat (length l) < 2 ^ 32)%N;
  sl_qc : match l with
          | [] => rget db meta_dbi (dbval_string "qc") = None
          | _ => ∃ w, qc_wire_ok w ∧ qcw_justify w = tip l ∧
              rget db meta_dbi (dbval_string "qc") = Some (xdr_qc (serialize (QC_of_wire w)))
          end;
}.

(** A store that holds the genesis block and the blocks of [l], linked, with
    their heights. *)
Record loaded (l : blog) (h : heap) (c : gmap Hash loc) : Prop := {
  ld_genesis : h !! 1%positive = Some genesis_block;
  ld_zero : c !! zero_hash = Some 1%positive;
  ld_blocks : ∀ i hh w, l !! i = Some (hh, w) → ∃ p b pp jp,
    c !! hh = Some p ∧ h !! p = Some b ∧ get_hash b = hh ∧ wire_block b = w ∧
    get_height b = N.of_nat (S i) ∧ decided b = true ∧ written_to_disk b = true ∧
    proposer b = UNKNOWN_REPLICA ∧
    parent_block_ptr b = Some pp ∧ c !! parent_hash (header w) = Some pp ∧
    justify_block_ptr b = Some jp ∧ c !! just_of (header w) = Some jp;
  ld_only : ∀ hh p, c !! hh = Some p → hh ∈ zero_hash :: l.*1;
}.

Lemma loaded_init : loaded [] {[1%positive := genesis_block]} {[zero_hash := 1%positive]}.
Proof.
  split; [by rewrite lookup_singleton_eq..|done|].
  intros hh p [<- _]%lookup_singleton_Some. set_solver.
Qed.

(** The last block loaded. *)
Lemma loaded_tip l h c :
  loaded l h c → ∃ p b, c !! tip l = Some p ∧ h !! p = Some b ∧
    get_hash b = tip l ∧ get_height b = N.of_nat (length l) ∧
    (proposer b = UNKNOWN_REPLICA) ∧ decided b = true.
Proof.
  intros L. destruct l as [|[hh w] l _] using rev_ind.
  - exists 1%positive, genesis_block. split; [apply L|]. split; [apply L|]. done.
  - destruct (ld_blocks _ _ _ L (length l) hh w) as
      (p & b & pp & jp & Hc & Hb & Hh & _ & Hht & Hd & _ & Hp & _).
    { by rewrite lookup_app_r, Nat.sub_diag by lia. }
    exists p, b. unfold tip. rewrite last_snoc, length_app. simpl.
    split_and!; try done. rewrite Hht. lia.
Qed.

Lemma loaded_member l h c hh :
  loaded l h c → hh ∈ zero_hash :: l.*1 → is_Some (c !! hh).
Proof.
  intros L [->|Hin]%elem_of_cons; [rewrite (ld_zero _ _ _ L); eauto|].
  apply list_elem_of_fmap in Hin as ([h' w] & -> & [i Hi]%list_elem_of_lookup). simpl.
  destruct (ld_blocks _ _ _ L _ _ _ Hi) as (p & ? & ? & ? & Hc & _). eauto.
Qed.

(** The block [loaded_block] constructs. *)
Definition disk_block (h : Hash) (w : HotstuffBlockWire) : HotstuffBlock :=
  mkBlock w (Some (QC_of_wire (header_qc (header w)))) UNKNOWN_REPLICA 0 None None
    (QC_new h) true true true true false.

Lemma loaded_snoc l h c hh w p pp pb jp :
  loaded l h c → h !! p = None → c !! hh = None → (N.of_nat (S (length l)) < 2 ^ 64)%N →
  c !! parent_hash (header w) = Some pp → h !! pp = Some pb →
  get_height pb = N.of_nat (length l) → c !! just_of (header w) = Some jp →
  loaded (l ++ [(hh, w)])
    (<[p := set_justify (set_parent (disk_block hh w) pp (get_height pb)) jp]> h)
    (cache_emplace hh p c).
Proof.
  intros L Hp Hnew Hs Hpp Hpb Hht Hjp.
  assert (Hc : ∀ x q, c !! x = Some q → cache_emplace hh p c !! x = Some q)
    by (intros; by apply cache_emplace_mono).
  assert (Hh : ∀ q b b', h !! q = Some b → <[p := b']> h !! q = Some b)
    by (intros; rewrite lookup_insert_ne by congruence; done).
  split.
  - apply Hh, (ld_genesis _ _ _ L).
  - apply Hc, (ld_zero _ _ _ L).
  - intros i hi wi [Hi|[Hi Hsn]]%lookup_app_Some.
    + destruct (ld_blocks _ _ _ L _ _ _ Hi) as
        (q & b & pq & jq & Hcq & Hb & ? & ? & ? & ? & ? & ? & Hpar & Hcp & Hj & Hcj).
      exists q, b, pq, jq. split_and!; eauto.
    + destruct (i - length l) eqn:Hz; [|done]. simpl in Hsn. simplify_eq.
      assert (i = length l) as -> by lia.
      exists p, (set_justify (set_parent (disk_block hi wi) pp (get_height pb)) jp), pp, jp.
      split_and!; try done.
      * unfold cache_emplace. rewrite Hnew. apply lookup_insert_eq.
      * apply lookup_insert_eq.
      * unfold get_height. simpl. unfold get_height in Hht. rewrite Hht, u64_small; lia.
      * by apply Hc.
      * by apply Hc.
  - intros x q. unfold cache_emplace. rewrite Hnew, fmap_app.
    intros [[<- _]|[_ Hx]]%lookup_insert_Some; [set_solver|].
    specialize (ld_only _ _ _ L _ _ Hx). set_solver.
Qed.

Lemma log_chain_snoc_inv l h w :
  log_chain (l ++ [(h, w)]) →
  log_chain l ∧ h ≠ zero_hash ∧ h ∉ l.*1 ∧ parent_hash (header w) = tip l ∧
  just_of (header w) ∈ zero_hash :: l.*1.
Proof.
  inversion 1 as [Heq|l' h' w' ? ? ? ? ? Heq]; [by destruct l|].
  by apply app_inj_tail in Heq as [-> [= -> ->]].
Qed.

Lemma log_chain_prefix l1 l2 : log_chain (l1 ++ l2) → log_chain l1.
Proof.
  induction l2 as [|[h w] l2 IH] using rev_ind; [by rewrite app_nil_r|].
  rewrite app_assoc. intros [? _]%log_chain_snoc_inv. auto.
Qed.

(** What a reload leaves as it was. *)
Definition reload_frame (s s' : AppSt V) : Prop :=
  st_disk s' = st_disk s ∧ st_core s' = st_core s ∧
  a_vm (st_env s') = a_vm (st_env s) ∧ a_events (st_env s') = a_events (st_env s) ∧
  a_net_events (st_env s') = a_net_events (st_env s) ∧
  a_fetch (st_env s') = a_fetch (st_env s) ∧ a_protocol (st_env s') = a_protocol (st_env s) ∧
  a_secret_key (st_env s') = a_secret_key (st_env s) ∧ votes s' = votes s.

#[local] Instance reload_frame_po : PreOrder reload_frame.
Proof.
  split; [by intros ?|]. unfold reload_frame.
  intros s1 s2 s3 H1 H2. decompose [and] H1. decompose [and] H2. split_and!; congruence.
Qed.

(** One iteration of the loop. *)
Lemma reload_one l e hh w s :
  loaded l (st_heap s) (cache s) → log_chain (l ++ [(hh, w)]) →
  (N.of_nat (S (length l)) < 2 ^ 64)%N → saved_block (st_disk s) e (hh, w) →
  ∃ s', loaded (l ++ [(hh, w)]) (st_heap s') (cache s') ∧ reload_frame s s' ∧
    ∀ es n, reload_blocks cfg r (e :: es) n s =
      reload_blocks cfg r es (N.of_nat (S (length l))) s'.
Proof using All.
  intros L Hch Hs ([bs Hbs] & Hlen & Hw & Hhash & Hfile).
  apply log_chain_snoc_inv in Hch as (Hch & Hz & Hin & Hpar & Hj). simpl in *.
  destruct (loaded_tip _ _ _ L) as (pp & pb & Hcp & Hpb & _ & Hht & _).
  destruct (loaded_member _ _ _ _ L Hj) as [jp Hjp]. rewrite <- Hpar in Hcp.
  set (p := fresh (dom (st_heap s))).
  assert (Hp : st_heap s !! p = None) by apply not_elem_of_dom, is_fresh.
  assert (Hnew : cache s !! hh = None).
  { destruct (cache s !! hh) as [q|] eqn:Hq; [|done].
    apply (ld_only _ _ _ L) in Hq. set_solver. }
  set (b := set_justify (set_parent (disk_block hh w) pp (get_height pb)) jp).
  pose proof (loaded_snoc l _ _ hh w p pp pb jp L Hp Hnew Hs Hcp Hpb Hht Hjp) as L'.
  set (st := a_store (st_env s)).
  set (s' := mkSt (<[p := b]> (st_heap s)) (st_disk s) (st_core s)
    (set_store (mkStore (cache_emplace hh p (block_cache st)) (gc_add_block p (gc_collector st)))
      (st_env s))).
  exists s'. split; [exact L'|]. split; [done|]. intros es n. cbn [reload_blocks].
  assert (Hld : load_decided_block hh info (st_disk s) = Ok (disk_block hh w) (st_disk s)).
  { unfold load_decided_block, bind.
    rewrite (load_block_saved _ _ _ w) by auto. unfold loaded_block, bind, hash_xdr.
    by rewrite Hhash. }
  assert (Hins : ∀ h', h' = <[p := disk_block hh w]> (st_heap s) →
    insert_block p (h', st) = Ok (mkMissing None None)
      (<[p := b]> h', mkStore (cache_emplace hh p (block_cache st)) (gc_add_block p (gc_collector st)))).
  { intros h' ->. unfold insert_block, bind, gets, deref, get_justify_hash, get_justify_qc, bind.
    rewrite lookup_insert_eq. cbn. rewrite QC_of_wire_hash.
    unfold get_parent_hash. cbn. change (block_cache st) with (cache s). rewrite Hcp.
    unfold just_of in Hjp. rewrite Hjp.
    rewrite lookup_insert_ne by congruence. by rewrite Hpb. }
  unfold bind at 1, iterator_deref, bind at 1. rewrite Hbs, get_hash_prefix by done. cbn.
  unfold bind at 1, get_info. rewrite Hinfo. cbn.
  unfold bind at 1, zoom. rewrite Hld. cbn.
  unfold bind at 1, new_block, alloc. cbn. fold p.
  unfold bind at 1, store_insert, zoom. cbn [st_heap st_env]. fold st.
  rewrite Hins by done. cbn.
  rewrite insert_insert_eq. unfold read, deref. cbn. rewrite lookup_insert_eq. cbn.
  unfold s', get_height. cbn. unfold get_height in Hht. rewrite Hht.
  rewrite u64_small by lia. f_equal. lia.
Qed.

(** The whole loop. *)
Lemma reload_all l2 l1 es s n :
  loaded l1 (st_heap s) (cache s) → log_chain (l1 ++ l2) →
  (N.of_nat (length (l1 ++ l2)) < 2 ^ 64)%N → Forall2 (saved_block (st_disk s)) es l2 →
  n = N.of_nat (length l1) →
  ∃ s', reload_blocks cfg r es n s = Ok (N.of_nat (length (l1 ++ l2))) s' ∧
    loaded (l1 ++ l2) (st_heap s') (cache s') ∧ reload_frame s s'.
Proof using All.
  revert l1 es s n. induction l2 as [|[hh w] l2 IH]; intros l1 es s n L Hch Hs He ->.
  - apply Forall2_nil_inv_r in He as ->. exists s. rewrite app_nil_r. done.
  - apply Forall2_cons_inv_r in He as (e & es' & He & Hes & ->).
    assert (Happ : l1 ++ (hh, w) :: l2 = (l1 ++ [(hh, w)]) ++ l2) by by rewrite <- app_assoc.
    rewrite Happ in *.
    destruct (reload_one l1 e hh w s) as (s1 & L1 & F1 & Hrun); auto.
    { by eapply log_chain_prefix. }
    { rewrite !length_app in Hs. simpl in Hs. lia. }
    rewrite Hrun. pose proof F1 as (Hd & _).
    destruct (IH (l1 ++ [(hh, w)]) es' s1 (N.of_nat (S (length l1)))) as (s' & Hr & L' & F'); auto.
    { by rewrite Hd. }
    { rewrite length_app. simpl. lia. }
    exists s'. split; [done|]. split; [done|]. by etrans.
Qed.

(** The state of the core a restart ends in: everything on block [p]. *)
Definition restored (p : loc) (qc : QuorumCertificateWire) (n : N) (db : DB) : HotstuffCore :=
  mkCore 1%positive (p, serialize (QC_of_wire qc)) p p n r cfg p db.

Lemma reload_state_run db qc p b s :
  st_core s = HotstuffCore_init 1%positive cfg r db →
  st_heap s !! 1%positive = Some genesis_block →
  cache s !! qcw_justify qc = Some p → st_heap s !! p = Some b →
  (0 < get_height b < 2 ^ 32)%N → qc_wire_ok qc →
  rget db meta_dbi (dbval_string "qc") = Some (xdr_qc (serialize (QC_of_wire qc))) →
  reload_state_from_index s =
    Ok tt (mkSt (st_heap s) (st_disk s) (restored p qc (get_height b) db) (st_env s)).
Proof using All.
  intros Hco Hg Hp Hb [Hpos Hlt] Hok Hget.
  assert (Hq : get_highest_qc db s = Ok (QC_of_wire qc) s).
  { unfold get_highest_qc. rewrite Hget, xdr_qc_rt by (by apply serialize_sized).
    by rewrite QC_roundtrip by apply QC_of_wire_wf. }
  assert (Hf : app_find_block_by_hash (obj_hash (QC_of_wire qc)) (st_env s) = Ok p (st_env s)).
  { unfold app_find_block_by_hash, bind, gets, get_block. rewrite QC_of_wire_hash.
    unfold cache in Hp. simpl in Hp. by rewrite Hp. }
  unfold reload_state_from_index, bind, core, gets. rewrite Hco. cbn [decided_hash_index HotstuffCore_init].
  rewrite Hq. unfold in_env at 1, zoom. cbn [find_block_by_hash app_virtuals]. rewrite Hf.
  unfold update_hqc, bind, read, deref, core, gets. cbn. rewrite Hb. cbn. rewrite Hco. cbn.
  rewrite Hg. cbn. rewrite (proj2 (N.ltb_lt _ _) Hpos). cbn.
  destruct (negb _); cbn; rewrite Hb; cbn;
    unfold in_core, modify; cbn; unfold restored, set_vheight; cbn; by rewrite u32_small.
Qed.

(** A restart over a log that is not empty: the blocks of the log are loaded
    in order, and lock, executed block, leaf and certificate are the last. *)
Lemma reload_saved sk vm d db l :
  saved_log d db l → l ≠ [] →
  ∃ s' p qc, reload_decided_blocks (reboot sk vm d db) = Ok (N.of_nat (length l)) s' ∧
    loaded l (st_heap s') (cache s') ∧ cache s' !! tip l = Some p ∧
    qcw_justify qc = tip l ∧ st_core s' = restored p qc (N.of_nat (length l)) db ∧
    st_disk s' = d ∧ a_vm (st_env s') = vm.
Proof using All.
  intros Sv Hne. pose proof (sl_short _ _ _ Sv) as Hshort.
  destruct (reload_all l [] (forward_cursor db) (reboot sk vm d db) 0)
    as (s1 & Hrun & L & F); simpl; try done; try apply Sv.
  { apply loaded_init. }
  { lia. }
  destruct F as (Hd & Hco & Hvm & _).
  destruct (loaded_tip _ _ _ L) as (p & b & Hp & Hb & _ & Hht & _).
  assert (Hqc : ∃ w, qc_wire_ok w ∧ qcw_justify w = tip l ∧
    rget db meta_dbi (dbval_string "qc") = Some (xdr_qc (serialize (QC_of_wire w))))
    by (pose proof (sl_qc _ _ _ Sv) as Hqc; by destruct l).
  destruct Hqc as (qc & Hok & Hj & Hget). cbn [app] in *.
  pose proof (reload_state_run db qc p b s1 Hco (ld_genesis _ _ _ L)) as Hst.
  rewrite Hj, Hht in Hst. rewrite <- Hht in Hshort.
  eexists _, p, qc. split.
  - unfold reload_decided_blocks, bind, core, gets. cbn [st_core reboot HotstuffCore_init
      decided_hash_index config self_id].
    rewrite Hrun, Hst; [done|done|done|rewrite <- Hht; split; [|done]|done|done].
    destruct l; [done|]. rewrite Hht. simpl. lia.
  - by split_and!.
Qed.

(** A restart over an empty log throws: there is no certificate. *)
Lemma reload_empty sk vm d db :
  saved_log d db [] → ∃ s', reload_decided_blocks (reboot sk vm d db) =
    Throw (RuntimeError "failed to get highest qc when loading from db") s'.
Proof using All.
  intros Sv. pose proof (sl_entries _ _ _ Sv) as He. apply Forall2_nil_inv_r in He.
  unfold reload_decided_blocks, bind, core, gets. cbn [st_core reboot HotstuffCore_init
    decided_hash_index config self_id]. rewrite He.
  cbn [reload_blocks]. unfold ret, reload_state_from_index, bind, core, gets.
  cbn [st_core reboot HotstuffCore_init decided_hash_index].
  unfold get_highest_qc. rewrite (sl_qc _ _ _ Sv). by eexists.
Qed.
End reload.

(** ** What a running replica has saved *)

Section saved.
Context {i_sodium : Sodium} {i_xdr : Xdr} {i_bv : BitVector} {i_fs : Fs} {i_lmdb : LmdbLib}.
Context {i_xdrlaws : XdrLaws} {i_bvlaws : BitVectorLaws} {i_lmdblaws : LmdbLaws}.
Context {V : Type} {i_bridge : VMBridge V} {i_blaws : VMBridgeLaws V}.
Context (U : Hash → option HotstuffBlockHeader) (cfg : ReplicaConfig) (B : gset ReplicaID).
Hypothesis U_zero : U zero_hash = None.
Hypothesis U_sized : ∀ h hd, U h = Some hd → header_ok hd.
Context (r : ReplicaID) (info : ReplicaInfo) (G : list (ReplicaID * Hash)) (s : AppSt V).
Hypothesis RI : RepInv U cfg B r G (st_heap s) (st_core s) (cache s) (votes s).
Hypothesis D : DurInv U info s.
Context (ke : Skel).
Hypothesis Hke : (skel <$> st_heap s) !! b_exec (st_core s) = Some ke.

Abbreviation tr := (skel <$> st_heap s).
Abbreviation db := (decided_hash_index (st_core s)).
Abbreviation T := (ri_tree _ _ _ _ _ _ _ _ _ RI).
Abbreviation blog := (list (Hash * HotstuffBlockWire)).

(** [(h, w)] is the decided block of height [n]. *)
Definition decided_block (n : N) (hw : Hash * HotstuffBlockWire) : Prop :=
  ∃ p k, cache s !! hw.1 = Some p ∧ tr !! p = Some k ∧ sk_hash k = hw.1 ∧ sk_height k = n ∧
    header hw.2 = sk_header k ∧ anc U hw.1 (sk_hash ke) ∧ linked tr (cache s) k.

Lemma exec_node : node (core_genesis (st_core s)) tr (cache s) (b_exec (st_core s)) ke.
Proof using All.
  destruct (ri_exec _ _ _ _ _ _ _ _ _ RI) as (k & [Hk _] & _). destruct Hk as [Hk Hl].
  rewrite Hke in Hk. by simplify_eq.
Qed.

Lemma exec_short : (sk_height ke < 2 ^ 32)%N.
Proof using All. apply (ti_bound _ _ _ _ _ _ _ T _ _ Hke). Qed.

(** Hashes on the chain have the size of a hash. *)
Lemma anc_sized a b : anc U a b → a = b ∨ length a = 32.
Proof using U_sized.
  induction 1 as [|b hd Hb _ IH]; [by left|right].
  destruct IH as [->|?]; [|done]. by destruct (U_sized _ _ Hb).
Qed.

Lemma decided_sized h : (0 < sk_height ke)%N → anc U h (sk_hash ke) → length h = 32.
Proof using All.
  intros Hpos [->|?]%anc_sized; [|done].
  destruct (ix_qc _ _ _ _ _ (du_index _ _ _ D _ Hke) Hpos) as (w & (Hl & _) & <- & _). done.
Qed.

(** The entry of the index at a decided height. *)
Lemma entry_decided n :
  (0 < n ≤ sk_height ke)%N →
  ∃ hw v, rget db data_dbi (write_unsigned_big_endian n) = Some v ∧
    decided_block n hw ∧ saved_block info (st_disk s) (write_unsigned_big_endian n, v) hw.
Proof using All.
  intros Hn. pose proof exec_short as Hs.
  pose proof (ix_entries _ _ _ _ _ (du_index _ _ _ D _ Hke) n) as He.
  destruct (rget db data_dbi (write_unsigned_big_endian n)) as [v|]; [|lia].
  destruct He as (p & k & vid & Hc & Hk & Hht & Hpos & Hanc & ->); [lia|].
  pose proof Hk as (b & Hb & <-)%skel_lookup.
  destruct (cached_node U cfg B U_zero G _ _ _ T _ _ Hc) as (k' & Hk' & Hh').
  assert (k' = skel b) as -> by (destruct Hk'; congruence).
  assert (Hl : linked tr (cache s) (skel b)) 
    by (apply (node_height_pos U cfg B U_zero G _ _ _ T _ _ Hk'); by rewrite Hht).
  assert (Hg : p ≠ core_genesis (st_core s)) 
    by (by apply (linked_not_genesis U cfg B U_zero G _ _ _ T p (skel b))).
  assert (Hd : decided b = true) by by eapply (ri_undecided _ _ _ _ _ _ _ _ _ RI).
  destruct (du_written _ _ _ D _ _ Hb Hg (du_decided _ _ _ D _ _ Hb Hd)) as (_ & (w & Hf & Hw & Hok) & _).
  destruct (tw_nodes _ _ _ (ti_wf _ _ _ _ _ _ _ T) _ _ Hk Hg) as [[_ Hhash] _].
  exists (sk_hash (skel b), w). eexists. split; [done|]. split.
  - exists p, (skel b). by split_and!.
  - split; [by eexists|]. split; [apply decided_sized; [lia|done]|]. split; [done|].
    split; [|done]. cbn [fst snd]. by rewrite Hw.
Qed.

(** Two decided blocks of one height are the same. *)
Lemma anc_same_height a b c n :
  anc U a c → anc U b c → ht U a n → ht U b n → a = b.
Proof using U_zero.
  intros Ha Hb Hna Hnb. destruct (anc_linear U _ _ _ Ha Hb) as [Hab|Hba].
  - by eapply anc_ht_eq.
  - symmetry. by eapply anc_ht_eq.
Qed.

Lemma decided_block_ht n hw : decided_block n hw → ht U hw.1 n.
Proof using All.
  intros (p & k & Hc & Hk & <- & <- & _ & _ & Hl).
  apply (ti_ht _ _ _ _ _ _ _ T p). split; [done|by right].
Qed.

Lemma decided_block_fun n hw hw' :
  decided_block n hw → decided_block n hw' → hw.1 = hw'.1.
Proof using All.
  intros D1 D2. pose proof (decided_block_ht _ _ D1). pose proof (decided_block_ht _ _ D2).
  destruct D1 as (p & k & _ & _ & _ & _ & _ & H1 & _), D2 as (p' & k' & _ & _ & _ & _ & _ & H2 & _).
  by eapply anc_same_height.
Qed.

(** An ancestor of a block of the log, in the tree, is the genesis block or a
    block of the log. *)
Lemma anc_in_log l h p k :
  (∀ i hw, l !! i = Some hw → decided_block (N.of_nat (S i)) hw) →
  (sk_height k ≤ N.of_nat (length l))%N →
  node (core_genesis (st_core s)) tr (cache s) p k → sk_hash k = h → anc U h (sk_hash ke) →
  match N.to_nat (sk_height k) with
  | 0 => h = zero_hash
  | S i => ∃ hw, l !! i = Some hw ∧ hw.1 = h
  end.
Proof using All.
  intros Hl Hle Hk <- Ha. pose proof (ti_ht _ _ _ _ _ _ _ T _ _ Hk) as Hht.
  destruct (N.to_nat (sk_height k)) as [|i] eqn:Hn.
  { assert (Hz : sk_height k = 0%N) by lia. rewrite Hz in Hht. by apply ht_zero in Hht. }
  destruct (lookup_lt_is_Some_2 l i) as [hw Hi]; [lia|]. exists hw. split; [done|].
  pose proof (Hl _ _ Hi) as Hd. pose proof (decided_block_ht _ _ Hd) as Hht'.
  destruct Hd as (_ & _ & _ & _ & _ & _ & _ & Ha' & _).
  apply (anc_same_height _ _ _ _ Ha' Ha Hht'). by replace (N.of_nat (S i)) with (sk_height k) by lia.
Qed.

Lemma durable_chain l :
  (∀ i hw, l !! i = Some hw → decided_block (N.of_nat (S i)) hw) → log_chain l.
Proof using All.
  induction l as [|[h w] l IH] using rev_ind; [constructor|]. intros Hl.
  assert (Hpre : ∀ i hw, l !! i = Some hw → decided_block (N.of_nat (S i)) hw)
    by (intros i hw Hi; apply Hl; by apply lookup_app_l_Some).
  assert (Hlast : decided_block (N.of_nat (S (length l))) (h, w))
    by (apply Hl; by rewrite lookup_app_r, Nat.sub_diag by lia).
  destruct Hlast as (p & k & Hc & Hk & Hh & Hn & Hw & Ha & Hlk). simpl in Hh, Hw, Ha.
  destruct (linked_parent U cfg B U_zero G _ _ _ T p k Hk Hlk)
    as (pp & pk & _ & Hpk & _ & Hph & Hpn).
  destruct (linked_justify U cfg B U_zero G _ _ _ T p k Hk Hlk) as (jp & jk & _ & Hjk & _ & Hjh).
  destruct (ti_just _ _ _ _ _ _ _ T p k Hk Hlk) as [Hja _].
  assert (HU : U h = Some (sk_header k))
    by (rewrite <- Hh; by eapply (linked_U U cfg B U_zero G _ _ _ T)).
  assert (Hpa : anc U (sk_hash pk) (sk_hash ke))
    by (rewrite Hph; eapply anc_trans; [by apply anc_parent|done]).
  assert (Hja' : anc U (sk_hash jk) (sk_hash ke)) by (rewrite Hjh; eapply anc_trans; [exact Hja|by rewrite <- Hph]).
  assert (Hjn : (sk_height jk ≤ sk_height pk)%N).
  { apply (anc_ht_le U U_zero (sk_hash jk) (sk_hash pk)); [by rewrite Hjh, Hph|..];
      by eapply (ti_ht _ _ _ _ _ _ _ T). }
  pose proof (anc_in_log l _ pp pk Hpre ltac:(lia) Hpk eq_refl Hpa) as Hpl.
  pose proof (anc_in_log l _ jp jk Hpre ltac:(lia) Hjk eq_refl Hja') as Hjl.
  constructor; [by apply IH|..].
  - intros ->. by rewrite U_zero in HU.
  - intros ([h' w'] & Heq & [i Hi]%list_elem_of_lookup)%list_elem_of_fmap. simpl in Heq. subst h'.
    pose proof (Hpre _ _ Hi) as (p' & k' & Hc' & Hk' & _ & Hn' & _). simpl in Hc, Hc'.
    assert (p' = p) as -> by congruence. assert (k' = k) as -> by congruence.
    apply lookup_lt_Some in Hi. lia.
  - rewrite Hw, <- Hph. replace (N.to_nat (sk_height pk)) with (length l) in Hpl by lia.
    symmetry. by apply log_tip.
  - rewrite Hw, <- Hjh. destruct (N.to_nat (sk_height jk)) as [|i].
    + rewrite Hjl. by left.
    + destruct Hjl as (hw & Hi & <-). right. apply list_elem_of_fmap_2. by eapply list_elem_of_lookup_2.
Qed.

(** The disk and the index of a running replica are a log of the chain below
    [b_exec]. *)
Lemma durable_log : ∃ l, saved_log info (st_disk s) db l ∧
  N.of_nat (length l) = sk_height ke ∧ tip l = sk_hash ke ∧
  ∀ i hw, l !! i = Some hw → decided_block (N.of_nat (S i)) hw.
Proof using All.
  pose proof exec_short as Hs. pose proof (du_index _ _ _ D _ Hke) as IX.
  assert (Hkeys : (forward_cursor db).*1 =
    write_unsigned_big_endian <$> (N.of_nat <$> seq 1 (N.to_nat (sk_height ke)))).
  { apply cursor_keys; [apply IX|lia|]. intros m Hm.
    pose proof (ix_entries _ _ _ _ _ IX m Hm) as He.
    split; [intros [v Hv]; rewrite Hv in He|intros Hr; destruct (rget _ _ _); [eauto|lia]].
    destruct He as (p & k & vid & Hc & Hk & <- & Hpos & Ha & _). split; [done|].
    destruct (cached_node U cfg B U_zero G _ _ _ T _ _ Hc) as (k' & Hk' & _).
    assert (k' = k) as -> by (destruct Hk'; congruence).
    eapply (anc_ht_le U U_zero); [exact Ha|by eapply (ti_ht _ _ _ _ _ _ _ T)|].
    eapply (ti_ht _ _ _ _ _ _ _ T), exec_node. }
  assert (Hat : ∀ i e, forward_cursor db !! i = Some e →
    e.1 = write_unsigned_big_endian (N.of_nat (S i)) ∧ (i < N.to_nat (sk_height ke))%nat).
  { intros i e Hi. assert (Hi1 : (forward_cursor db).*1 !! i = Some e.1) by by rewrite list_lookup_fmap, Hi.
    rewrite Hkeys, !list_lookup_fmap in Hi1. destruct (seq 1 _ !! i) as [x|] eqn:Hx; [|done].
    apply lookup_seq in Hx as [-> Hlt]. by simplify_eq/=. }
  destruct (Forall2_choose (λ e hw, saved_block info (st_disk s) e hw ∧
    ∀ n, (n < 2 ^ 64)%N → e.1 = write_unsigned_big_endian n → decided_block n hw) (forward_cursor db)) as [l Hl].
  { intros [k v] [i Hi]%list_elem_of_lookup. destruct (Hat _ _ Hi) as [Hk Hlt]. simpl in Hk. subst k.
    destruct (entry_decided (N.of_nat (S i))) as (hw & v' & Hv' & Hd & Hsv); [lia|].
    apply list_elem_of_lookup_2, cursor_mem in Hi. assert (v' = v) as -> by congruence.
    exists hw. split; [done|]. intros n Hn Heq. simpl in Heq.
    apply write_be_inj in Heq; [by subst|lia|done]. }
  assert (Hdec : ∀ i hw, l !! i = Some hw → decided_block (N.of_nat (S i)) hw).
  { intros i hw Hi. destruct (Forall2_lookup_r _ _ _ _ _ Hl Hi) as (e & He & _ & Hd).
    destruct (Hat _ _ He) as [Hk Hlt]. apply Hd; [lia|done]. }
  assert (Hlen : N.of_nat (length l) = sk_height ke).
  { apply Forall2_length in Hl. rewrite <- Hl, <- (length_fmap fst), Hkeys, !length_fmap, length_seq. lia. }
  assert (Htip : tip l = sk_hash ke).
  { pose proof (anc_in_log l _ _ ke Hdec ltac:(lia) exec_node eq_refl ltac:(constructor)) as Ht.
    replace (N.to_nat (sk_height ke)) with (length l) in Ht by lia. by apply log_tip. }
  exists l. split; [|done]. split.
  - eapply Forall2_impl; [exact Hl|]. by intros e hw [? _].
  - by apply durable_chain.
  - by rewrite Hlen.
  - destruct l as [|hw l']; [apply IX; by rewrite <- Hlen|].
    rewrite Htip. apply IX. rewrite <- Hlen. simpl. lia.
Qed.
End saved.

(** ** The cluster *)

(** The speculative bridge indexes every block it applies; its proposals are
    those of the machine. *)
Lemma speculative_data {i_lmdb : LmdbLib} {i_vm : VMBase} {i_async : AsyncWait}
    (sized : ∀ p, (N.of_nat (length (vm_serialize p)) < 2 ^ 32)%N) :
  VMBridgeData HotstuffVMBridge.
Proof.
  assert (Hlock : ∀ A (m : M HotstuffVMBridge A) (Q : A → Prop),
    (∀ b a b', m b = Ok a b' → Q a) → ∀ b a b', with_map_lock m b = Ok a b' → Q a).
  { intros A m Q Hm b a b' Hr. unfold with_map_lock in Hr. destruct (gadget_locked _); [done|].
    destruct (m _) as [a1 b1|[e|h] b1] eqn:He; [|done|done]. simplify_eq. by eapply Hm. }
  assert (Hguard : ∀ A (m : M HotstuffVMBridge A) b a b',
    (init_guard ;; m) b = Ok a b' → m b = Ok a b').
  { intros A m b a b'. unfold bind, init_guard. by destruct (initialized b). }
  split.
  - intros ne n v bd v'. simpl. destruct ne; simpl; intros Hr%Hguard; revert v bd v' Hr;
      apply Hlock; intros b a b'.
    + unfold bind. destruct (in_interface get_proposal b) as [[p|] b1|]; [..|done].
      * unfold ret. destruct (in_map _ b1); [|done]. intros [= <- _]. apply sized.
      * unfold ret. destruct (in_map _ b1); [|done]. by intros [= <- _].
    + unfold bind, ret. destruct (in_map _ b); [|done]. by intros [= <- _].
  - intros h p tx v tx' v' Hr%Hguard. revert v tx' v' Hr. apply Hlock. intros b a b'.
    unfold bind at 1, deref. destruct (h !! p) as [blk|] eqn:Hb; [|done]. simpl.
    set (vid := get_block_id _). intros Hr. exists blk, vid. split; [done|]. revert Hr.
    unfold bind, gets, ret. destruct (negb _).
    + destruct (get_lowest_speculative _ b) as [low b1|]; [|done]. case_bool_decide; [congruence|].
      destruct (revert_to_last_commitment b1) as [? b2|]; [|done].
      destruct (in_interface _ b2) as [? b3|]; [|done]. destruct (log_and_submit _ _ b3); congruence.
    + destruct (log_and_submit _ _ b); congruence.
Qed.

#[export] Instance counting_data {i_lmdb : LmdbLib} {i_xdr : Xdr} {i_xdrlaws : XdrLaws}
    {i_async : AsyncWait (i_vm := counting_vm)} : VMBridgeData HotstuffVMBridge.
Proof. apply speculative_data. intros p. simpl. by rewrite xdr_uint64_length. Qed.

Section cluster.
Context {i_sodium : Sodium} {i_xdr : Xdr} {i_bv : BitVector} {i_fs : Fs} {i_lmdb : LmdbLib}.
Context {i_xdrlaws : XdrLaws} {i_bvlaws : BitVectorLaws} {i_lmdblaws : LmdbLaws}.
Context {V : Type} {i_bridge : VMBridge V} {i_blaws : VMBridgeLaws V} {i_bdata : VMBridgeData V}.
Context (U : Hash → option HotstuffBlockHeader) (cfg : ReplicaConfig) (B : gset ReplicaID).
Hypothesis U_zero : U zero_hash = None.
Hypothesis U_short : ∀ h n, ht U h n → (n < 2 ^ 32)%N.
Hypothesis cfg_wf : config_wf cfg.
Hypothesis few_faulty :
  (N.of_nat (size B) < nreplicas cfg - 2 * (nreplicas cfg / 3))%N.
Hypothesis U_sized : ∀ h hd, U h = Some hd → header_ok hd.
Hypothesis readable : ∀ f, fopen_r_ok f = true.

(** The store of [s'] holds exactly the blocks decided in [s], decided, with
    their headers and heights. *)
Definition same_decisions (s s' : AppSt V) : Prop :=
  (∀ h q', cache s' !! h = Some q' → ∃ b' q b,
     st_heap s' !! q' = Some b' ∧ cache s !! h = Some q ∧ st_heap s !! q = Some b ∧
     decided b' = true ∧ decided b = true ∧ get_hash b' = h ∧
     get_height b' = get_height b ∧ header (wire_block b') = header (wire_block b)) ∧
  (∀ q b, st_heap s !! q = Some b → decided b = true → is_Some (cache s' !! get_hash b)).

Lemma ht_anc_zero h n : ht U h n → anc U zero_hash h.
Proof. induction 1; [constructor|]. by eapply anc_step. Qed.

Lemma loaded_decisions r G s info ke l s' :
  RepInv U cfg B r G (st_heap s) (st_core s) (cache s) (votes s) → DurInv U info s →
  (skel <$> st_heap s) !! b_exec (st_core s) = Some ke →
  N.of_nat (length l) = sk_height ke →
  (∀ i hw, l !! i = Some hw → decided_block U s ke (N.of_nat (S i)) hw) →
  loaded l (st_heap s') (cache s') → same_decisions s s'.
Proof using All.
  intros RI D Hke Hlen Hdec L. pose proof (ri_tree _ _ _ _ _ _ _ _ _ RI) as T.
  pose proof (exec_node U cfg B U_zero U_sized r info G s RI D ke Hke) as Hexec.
  split.
  - intros h q' Hq'. pose proof (ld_only _ _ _ L _ _ Hq') as [->|Hin]%elem_of_cons.
    + rewrite (ld_zero _ _ _ L) in Hq'. simplify_eq.
      pose proof (tw_genesis _ _ _ (ti_wf _ _ _ _ _ _ _ T)) as (b & Hb & Hsk)%skel_lookup.
      pose proof (tw_zero _ _ _ (ti_wf _ _ _ _ _ _ _ T)) as Hz.
      exists genesis_block, (core_genesis (st_core s)), b.
      split; [apply L|]. split; [done|]. split; [done|]. split; [done|].
      split. { eapply (ri_undecided _ _ _ _ _ _ _ _ _ RI); [exact Hz|done|done|].
               eapply ht_anc_zero, (ti_ht _ _ _ _ _ _ _ T), Hexec. }
      split; [done|]. injection Hsk as Hh _ _ Hn _ _ _. by rewrite Hh.
    + apply list_elem_of_fmap in Hin as ([h' w] & -> & [i Hi]%list_elem_of_lookup). simpl in *.
      destruct (ld_blocks _ _ _ L _ _ _ Hi) as
        (p & b' & pp & jp & Hc' & Hb' & Hh' & Hw' & Hn' & Hd' & _).
      destruct (Hdec _ _ Hi) as (q & k & Hc & (b & Hb & <-)%skel_lookup & Hh & Hn & Hw & Ha & _).
      simplify_eq/=. exists b', q, b. split_and!; try done.
      * by eapply (ri_undecided _ _ _ _ _ _ _ _ _ RI).
      * by rewrite Hn'.
  - intros q b Hb Hd. destruct (ri_decided _ _ _ _ _ _ _ _ _ RI _ _ _ Hb Hd Hke) as [Hk Ha].
    assert (Hle : (sk_height (skel b) ≤ sk_height ke)%N).
    { eapply (anc_ht_le U U_zero); [exact Ha|exact (ti_ht _ _ _ _ _ _ _ T _ _ Hk)|].
      eapply (ti_ht _ _ _ _ _ _ _ T), Hexec. }
    pose proof (anc_in_log U cfg B U_zero U_sized r info G s RI D ke Hke l (get_hash b) q (skel b) Hdec
      ltac:(lia) Hk eq_refl Ha) as Hlog.
    eapply loaded_member; [exact L|]. destruct (N.to_nat _) as [|i]; [rewrite Hlog; by left|].
    destruct Hlog as (hw & Hi & <-). right. apply list_elem_of_fmap_2. by eapply list_elem_of_lookup_2.
Qed.

Lemma reachable_log sk vm net r s info be :
  reachable cfg B U (sized_arrival U cfg B) sk vm net →
  net_reps net !! r = Some (mkReplica s None) → replica_map cfg !! r = Some info →
  st_heap s !! b_exec (st_core s) = Some be →
  ∃ l, saved_log info (st_disk s) (decided_hash_index (st_core s)) l ∧
    N.of_nat (length l) = get_height be ∧ tip l = get_hash be ∧
    ∀ s', loaded l (st_heap s') (cache s') → same_decisions s s'.
Proof using All.
  intros Hreach Hr Hi Hbe. pose proof (skel_lookup_Some _ _ _ Hbe) as Hke.
  pose proof (reachable_durable U cfg B U_zero U_short cfg_wf few_faulty U_sized sk vm net Hreach
    r s info Hr Hi) as D.
  assert (Hinv : net_inv cfg B U net).
  { apply (reachable_inv cfg B U U_zero U_short cfg_wf few_faulty sk vm).
    eapply reachable_mono; [|exact Hreach]. by intros G w [? _]. }
  destruct Hinv as [_ Hinv]. destruct (Hinv _ _ Hr) as (_ & _ & I). simpl in I.
  pose proof (ai_good _ _ _ _ _ _ I) as (_ & RI & _).
  destruct (durable_log U cfg B U_zero U_sized r info _ s RI D _ Hke) as (l & Sl & Hlen & Htip & Hdec).
  exists l. split; [done|]. split; [done|]. split; [done|]. intros s'.
  by eapply loaded_decisions.
Qed.

(** A process that starts over what a running replica has written. *)
Lemma reachable_reload sk vm net r s info be sk' vm' :
  reachable cfg B U (sized_arrival U cfg B) sk vm net →
  net_reps net !! r = Some (mkReplica s None) → replica_map cfg !! r = Some info →
  st_heap s !! b_exec (st_core s) = Some be → (0 < get_height be)%N →
  let db := decided_hash_index (st_core s) in
  ∃ s' p qc b, reload_decided_blocks (reboot cfg r sk' vm' (st_disk s) db) = Ok (get_height be) s' ∧
    same_decisions s s' ∧ st_heap s' !! p = Some b ∧ get_hash b = get_hash be ∧
    get_height b = get_height be ∧ st_core s' = restored cfg r p qc (get_height be) db ∧
    st_disk s' = st_disk s ∧ a_vm (st_env s') = vm' ∧ (get_height be < 2 ^ 32)%N.
Proof using All.
  intros Hreach Hr Hi Hbe Hpos db.
  destruct (reachable_log sk vm net r s info be Hreach Hr Hi Hbe) as (l & Sl & Hlen & Htip & Hsame).
  destruct (reload_saved cfg r info Hi readable sk' vm' _ _ l Sl) as
    (s' & p & qc & Hrun & L & Hp & _ & Hco & Hd & Hvm); [destruct l; [simpl in *; lia|done]|].
  pose proof (sl_short _ _ _ _ Sl) as Hshort. rewrite Hlen in *.
  destruct (loaded_tip _ _ _ L) as (p' & b & Hp' & Hb & Hh & Hht & _).
  assert (p' = p) as -> by congruence. exists s', p, qc, b. rewrite Hht, Hlen, Hh.
  split_and!; auto.
Qed.
End cluster.

(** A child of the locked block, above the last vote, is voted for. *)
Lemma opinion_child {i_sodium : Sodium} {i_bv : BitVector} {i_lmdb : LmdbLib} {E : Type} (s : CoreSt E)
    q b p bp jp jb :
  st_heap s !! q = Some b → st_heap s !! p = Some bp → st_heap s !! jp = Some jb →
  b_lock (st_core s) = p → (vheight (st_core s) < get_height b)%N →
  get_parent b = Some p → get_justify b = Some jp → (get_height bp < get_height b)%N →
  opinion q s = Ok true s.
Proof.
  intros Hb Hp Hj Hl Hv Hpar Hju Hlt.
  assert (Hw : walk_down (S (N.to_nat (get_height b))) (Some q) (get_height bp) s = Ok (Some p) s).
  { simpl. unfold bind, read_ptr, deref_ptr, deref. rewrite Hb. unfold ret at 1.
    rewrite (proj2 (N.ltb_lt _ _) Hlt), Hpar.
    destruct (N.to_nat (get_height b)) eqn:Hn; [lia|]. simpl. unfold bind, read_ptr, deref_ptr, deref.
    rewrite Hp. unfold ret at 1. by rewrite N.ltb_irrefl. }
  enough (wp (opinion q) (λ op s', op = true ∧ s' = s) (λ _ _, False) s) as Hop.
  { unfold wp in Hop. destruct (opinion q s) as [op s'|]; [|done]. by destruct Hop as [-> ->]. }
  unfold opinion. apply wp_bind, (wp_read _ _ b); [done|]. apply wp_bind, wp_gets.
  rewrite (proj2 (N.ltb_lt _ _) Hv), Hju. apply wp_bind, (wp_read _ _ jb); [done|].
  apply wp_bind, wp_gets. rewrite Hl. apply wp_bind, (wp_read _ _ bp); [done|].
  destruct (_ <? _)%N; [by apply wp_ret|]. apply wp_bind. eapply wp_run; [exact Hw|].
  apply wp_ret. by rewrite bool_decide_eq_true_2.
Qed.

(** ** The bridges *)

Section restart_apps.
Context {i_sodium : Sodium} {i_xdr : Xdr} {i_bv : BitVector} {i_fs : Fs} {i_lmdb : LmdbLib}.
Context {i_vm : VMBase} {i_async : AsyncWait} {i_restore : VMRestore}.

(** Once the decided blocks are loaded, [HotstuffApp] hands the machine the
    log; the gadget then speculates from the height after the last decision. *)
Lemma HotstuffApp_init_run cfg r info s s1 n :
  replica_map cfg !! r = Some info → config (st_core s1) = cfg → self_id (st_core s1) = r →
  reload_decided_blocks s = Ok n s1 →
  gadget_locked (speculation_map (a_vm (st_env s1))) = false → (n + 1 < 2 ^ 64)%N →
  let br := a_vm (st_env s1) in
  let l := mkLog (decided_hash_index (st_core s1)) info in
  let after d v g ini := mkSt (st_heap s1) d (st_core s1)
    (set_vm (mkBridge g (set_vm_instance v (vm_interface br)) ini) (st_env s1)) in
  HotstuffApp_init_from_disk s =
    match vm_init_from_disk l (vm_instance (vm_interface br), st_disk s1) with
    | Ok _ (v, d) => Ok tt (after d v (mkGadget [] (n + 1) n false) true)
    | Fault f (v, d) => Fault f (after d v (speculation_map br) (initialized br))
    end.
Proof.
  intros Hi Hcfg Hself Hrun Hlk Hn br l after.
  unfold HotstuffApp_init_from_disk, bind at 1. rewrite Hrun.
  unfold log_wrapper, bind, core, gets. cbn. rewrite Hcfg, Hself.
  unfold get_info. rewrite Hi. cbn. unfold in_bridge, zoom, bridge_init_from_disk, bind, zoom. cbn.
  unfold control_init_from_disk, zoom. cbn. fold br l.
  destruct (vm_init_from_disk l _) as [[] [v d]|f [v d]]; cbn; [|done].
  unfold in_map, zoom, gadget_init_from_disk, bind, modify, gadget_clear, with_gadget_lock. cbn.
  fold br in Hlk. rewrite Hlk. cbn. by rewrite u64_small.
Qed.

(** [NonspeculativeHotstuffApp] only has its machine to restore. *)
Lemma NonspeculativeHotstuffApp_init_run cfg r info s s1 n :
  replica_map cfg !! r = Some info → config (st_core s1) = cfg → self_id (st_core s1) = r →
  reload_decided_blocks s = Ok n s1 →
  let br := a_vm (st_env s1) in
  let l := mkLog (decided_hash_index (st_core s1)) info in
  let after d v ini := mkSt (st_heap s1) d (st_core s1)
    (set_vm (mkNonspec v ini (ns_proposal_buffer br)) (st_env s1)) in
  NonspeculativeHotstuffApp_init_from_disk s =
    match vm_init_from_disk l (ns_vm br, st_disk s1) with
    | Ok _ (v, d) => Ok tt (after d v true)
    | Fault f (v, d) => Fault f (after d v (ns_initialized br))
    end.
Proof.
  intros Hi Hcfg Hself Hrun br l after.
  unfold NonspeculativeHotstuffApp_init_from_disk, bind at 1. rewrite Hrun.
  unfold log_wrapper, bind, core, gets. cbn. rewrite Hcfg, Hself.
  unfold get_info. rewrite Hi. cbn. unfold in_bridge, zoom, ns_init_from_disk, bind, zoom. cbn.
  fold br l. by destruct (vm_init_from_disk l _) as [[] [v d]|f [v d]].
Qed.
End restart_apps.
