(* ===== verification/Instance.v ===== *)
(** * The public interface

    include/hotstuff/hotstuff_app.h and hotstuff/hotstuff_app.cc: the abstract
    class [Hotstuff] that other programs call, as a class of operations on a
    state; its two implementations, [HotstuffApp] and [NonspeculativeHotstuffApp]
    of hotstuff/hotstuff.h, as instances; and their factories.  A new
    instance that starts clean is in the state the replicas of Network.v start
    in. *)

From S2P Require Import Prelude Types ReplicaConfig Certs IoUtils Block BlockStore Lmdb.
From S2P Require Import Consensus Events FetchManager App Safety ReplicaInv StoreInv AppInv.
From S2P Require Import Network Durable SpecGadget VMControl Bridges Restart.

(** [Hotstuff]; [hs_wait_for_new_qc] returns [None] while the caller is blocked. *)
Class Hotstuff (S : Type) := {
  hs_init_clean : M S unit;
  hs_init_from_disk : M S unit;
  hs_put_vm_in_proposer_mode : M S unit;
  hs_proposal_buffer_is_empty : M S bool;
  hs_stop_proposals : M S unit;
  hs_do_propose : M S Hash;
  hs_do_empty_propose : M S Hash;
  hs_add_proposal : bytes → M S unit;
  hs_wait_for_new_qc : Hash → M S (option bool);
  hs_cancel_wait_for_new_qc : M S unit;
  hs_get_config : M S ReplicaConfig;
  hs_get_last_proposer : M S ReplicaID;
  hs_get_self_id : M S ReplicaID;
}.

(** [Hotstuff::unimplemented] *)
Definition unimplemented {S A} : M S A := throw (RuntimeError "unimplemented").

(** include/hotstuff/hotstuff_configs.h *)
Record HotstuffConfigs := mkConfigs {
  proposal_buffer_target : N;
  immediately_refill_proposal_buffer : bool;
}.
Definition default_configs : HotstuffConfigs := mkConfigs 3 true.

Section instances.
Context {i_sodium : Sodium} {i_xdr : Xdr} {i_bv : BitVector} {i_fs : Fs} {i_lmdb : LmdbLib}.
Context {i_vm : VMBase} {i_async : AsyncWait} {i_restore : VMRestore}.

Definition on_bridge {V A} (m : M V A) : M (AppSt V) A := in_env (λ _, in_vm m).

(** [HotstuffVMBridge::proposal_buffer_is_empty] and [stop_proposals] *)
Definition bridge_buffer_is_empty : M HotstuffVMBridge bool :=
  gets (λ b, proposal_buffer_is_empty (vm_interface b)).
Definition bridge_stop_proposals : M HotstuffVMBridge unit := in_interface stop_proposals.

(** [HotstuffApp] *)
#[export] Instance HotstuffApp : Hotstuff (AppSt HotstuffVMBridge) := {|
  hs_init_clean := HotstuffApp_init_clean;
  hs_init_from_disk := HotstuffApp_init_from_disk;
  hs_put_vm_in_proposer_mode := on_bridge put_vm_in_proposer_mode;
  hs_proposal_buffer_is_empty := on_bridge bridge_buffer_is_empty;
  hs_stop_proposals := on_bridge bridge_stop_proposals;
  hs_do_propose := do_propose;
  hs_do_empty_propose := do_empty_propose;
  hs_add_proposal _ := unimplemented;
  hs_wait_for_new_qc h := in_env (λ _, wait_for_new_qc h);
  hs_cancel_wait_for_new_qc := in_env (λ _, cancel_wait_for_new_qc);
  hs_get_config := core config;
  hs_get_last_proposer := get_last_proposer;
  hs_get_self_id := core self_id;
|}.

(** [NonspeculativeHotstuffApp] *)
#[export] Instance NonspeculativeHotstuffApp : Hotstuff (AppSt NonspeculativeVMBridge) := {|
  hs_init_clean := NonspeculativeHotstuffApp_init_clean;
  hs_init_from_disk := NonspeculativeHotstuffApp_init_from_disk;
  hs_put_vm_in_proposer_mode := unimplemented;
  hs_proposal_buffer_is_empty := on_bridge (gets ns_proposal_buffer_is_empty);
  hs_stop_proposals := unimplemented;
  hs_do_propose := do_propose;
  hs_do_empty_propose := do_empty_propose;
  hs_add_proposal p := on_bridge (add_proposal p);
  hs_wait_for_new_qc h := in_env (λ _, wait_for_new_qc h);
  hs_cancel_wait_for_new_qc := in_env (λ _, cancel_wait_for_new_qc);
  hs_get_config := core config;
  hs_get_last_proposer := get_last_proposer;
  hs_get_self_id := core self_id;
|}.

(** The factories: a new process over the files and the index of a replica. *)
Definition make_speculative_hotstuff_instance (config : ReplicaConfig) (self : ReplicaID)
    (sk : SecretKey) (vm : VMState) (configs : HotstuffConfigs) (d : Disk) (db : DB)
  : AppSt HotstuffVMBridge :=
  reboot config self sk
    (HotstuffVMBridge_init vm (proposal_buffer_target configs)
       (immediately_refill_proposal_buffer configs)) d db.
Definition make_nonspeculative_hotstuff_instance (config : ReplicaConfig) (self : ReplicaID)
    (sk : SecretKey) (vm : VMState) (configs : HotstuffConfigs) (d : Disk) (db : DB)
  : AppSt NonspeculativeVMBridge :=
  reboot config self sk (NonspeculativeVMBridge_init vm) d db.
End instances.

(** ** A first start *)

Section first_start.
Context {i_sodium : Sodium} {i_xdr : Xdr} {i_bv : BitVector} {i_fs : Fs} {i_lmdb : LmdbLib}.
Context {i_vm : VMBase} {i_async : AsyncWait} {i_restore : VMRestore}.

(** [init_clean] of a new instance over empty directories gives the state in
    which the replicas of a cluster start. *)
Lemma speculative_clean_start cfg r sk vm configs db :
  hs_init_clean (make_speculative_hotstuff_instance cfg r (sk r) vm configs ∅ db) =
    let br v ini := mkBridge SpeculativeExecGadget_init
      (VMControlInterface_init v (proposal_buffer_target configs)
         (immediately_refill_proposal_buffer configs)) ini in
    match vm_init_clean vm with
    | Ok _ v => Ok tt (init_state cfg sk (br v true) r)
    | Fault f v => Fault f (init_state cfg sk (br v false) r)
    end.
Proof.
  simpl. unfold HotstuffApp_init_clean, bind, in_core, modify, in_env, in_vm, zoom,
    bridge_init_clean, bind, in_interface, control_init_clean, in_vm_instance, zoom. simpl.
  by destruct (vm_init_clean vm) as [[] v|f v].
Qed.

Lemma nonspeculative_clean_start cfg r sk vm configs db :
  hs_init_clean (make_nonspeculative_hotstuff_instance cfg r (sk r) vm configs ∅ db) =
    match vm_init_clean vm with
    | Ok _ v => Ok tt (init_state cfg sk (mkNonspec v true []) r)
    | Fault f v => Fault f (init_state cfg sk (mkNonspec v false []) r)
    end.
Proof.
  simpl. unfold NonspeculativeHotstuffApp_init_clean, bind, in_core, modify, in_env, in_vm, zoom,
    ns_init_clean, bind, in_ns_vm, zoom. simpl.
  by destruct (vm_init_clean vm) as [[] v|f v].
Qed.
End first_start.
