(* ===== verification/Concrete.v ===== *)
(** * A concrete instance of the libraries

    Executable stand-ins for the libraries behind the classes of Types.v,
    Lmdb.v and LogAccess.v: a 61-bit polynomial digest for [crypto_generichash], signatures that
    spell out their signer, RFC 4506 marshalling, a bitmap for
    [utils::BitVector], and a sorted association list for LMDB.  They satisfy
    the law classes and serve to run the model on concrete inputs; none of the
    theorems depends on them. *)

From S2P Require Import Prelude Types ReplicaConfig Certs IoUtils DataDirs Block BlockStore Lmdb.
From S2P Require Import Consensus Events FetchManager App VMControl LogAccess.

(** ** Big-endian integers *)

Definition n2b (n : N) : byte := default x00 (Byte.of_N (n mod 256)).

Fixpoint be (k : nat) (n : N) : bytes :=
  match k with
  | 0 => []
  | S k => n2b (n / 256 ^ N.of_nat k) :: be k (n mod 256 ^ N.of_nat k)
  end.

Definition unbe (bs : bytes) : N := foldl (λ acc b, acc * 256 + Byte.to_N b)%N 0%N bs.

Lemma n2b_to_N n : (n < 256)%N → Byte.to_N (n2b n) = n.
Proof.
  intros Hn. unfold n2b. rewrite N.mod_small by done.
  destruct (Byte.of_N n) as [b|] eqn:Hb; [by apply Byte.to_of_N|].
  exfalso. apply Byte.of_N_None_iff in Hb. lia.
Qed.

Lemma length_be k n : length (be k n) = k.
Proof. revert n. induction k; intros n; simpl; auto. Qed.

Lemma pow256_S k : (256 ^ N.of_nat (S k) = 256 * 256 ^ N.of_nat k)%N.
Proof. rewrite Nat2N.inj_succ, N.pow_succ_r'. done. Qed.

Lemma pow256_pos k : (0 < 256 ^ N.of_nat k)%N.
Proof. induction k; [done|]. rewrite pow256_S. lia. Qed.

Lemma be_digit k n : (n < 256 ^ N.of_nat (S k))%N → (n / 256 ^ N.of_nat k < 256)%N.
Proof.
  intros Hn. rewrite pow256_S in Hn. pose proof (pow256_pos k).
  apply N.Div0.div_lt_upper_bound. lia.
Qed.

Lemma unbe_acc bs acc :
  foldl (λ acc b, acc * 256 + Byte.to_N b)%N acc bs = (acc * 256 ^ N.of_nat (length bs) + unbe bs)%N.
Proof.
  unfold unbe. revert acc. induction bs as [|b bs IH]; intros acc.
  - simpl. lia.
  - cbn [foldl length]. rewrite IH, (IH (0 * 256 + Byte.to_N b)%N), pow256_S. lia.
Qed.

Lemma unbe_be k n : (n < 256 ^ N.of_nat k)%N → unbe (be k n) = n.
Proof.
  revert n. induction k as [|k IH]; intros n Hn.
  { change (n < 1)%N in Hn. change (0 = n)%N. lia. }
  cbn [be]. unfold unbe. cbn [foldl]. rewrite unbe_acc, length_be, n2b_to_N by by apply be_digit.
  pose proof (pow256_pos k). rewrite IH by (apply N.mod_lt; lia).
  pose proof (N.div_mod n (256 ^ N.of_nat k)). lia.
Qed.

Lemma unbe_bound bs : (unbe bs < 256 ^ N.of_nat (length bs))%N.
Proof.
  induction bs as [|b bs IH]; [done|]. unfold unbe. cbn [foldl length].
  rewrite unbe_acc, pow256_S. pose proof (byte_to_N_lt b). nia.
Qed.

Lemma be_lt k n m :
  (n < m)%N → (m < 256 ^ N.of_nat k)%N → bytes_lt (be k n) (be k m).
Proof.
  revert n m. induction k as [|k IH]; intros n m Hnm Hm.
  { change (m < 1)%N in Hm. lia. }
  cbn [be bytes_lt].
  pose proof (pow256_pos k) as Hp.
  rewrite !n2b_to_N by (apply be_digit; lia).
  destruct (decide (n / 256 ^ N.of_nat k = m / 256 ^ N.of_nat k)%N) as [Heq|Hne].
  - right. split; [by rewrite Heq|]. apply IH; [|apply N.mod_lt; lia].
    pose proof (N.div_mod n (256 ^ N.of_nat k)). pose proof (N.div_mod m (256 ^ N.of_nat k)).
    rewrite Heq in *. lia.
  - left. pose proof (N.Div0.div_le_mono n m (256 ^ N.of_nat k)). lia.
Qed.

(** ** Sodium *)

Definition digest_prime : N := 2305843009213693951.

Definition digest (bs : bytes) : Hash :=
  be 8 (foldl (λ acc b, (acc * 257 + Byte.to_N b + 1) mod digest_prime)%N 1%N bs) ++
  replicate 24 x01.

(** A key pair is one string; a signature is the key followed by the message. *)
#[export] Instance toy_sodium : Sodium := {|
  crypto_generichash bs := Some (digest bs);
  crypto_sign_detached m sk := Some (sk ++ m);
  crypto_sign_verify_detached sig m pk := bool_decide (sig = pk ++ m);
|}.

(** ** XDR *)

Definition pad4 (n : nat) : nat := (4 - n `mod` 4) `mod` 4.

Definition enc_opaque (bs : bytes) : bytes :=
  be 4 (N.of_nat (length bs)) ++ bs ++ replicate (pad4 (length bs)) x00.

Definition enc_qc (q : QuorumCertificateWire) : bytes :=
  qcw_justify q ++ be 4 (qcw_bmp q) ++ be 4 (N.of_nat (length (qcw_sigs q))) ++
  concat (qcw_sigs q).

Definition enc_header (h : HotstuffBlockHeader) : bytes :=
  parent_hash h ++ enc_qc (header_qc h) ++ body_hash h.

Definition enc_block (w : HotstuffBlockWire) : bytes :=
  enc_header (header w) ++ enc_opaque (body w).

(** Reading: a value and the rest of the input. *)
Definition rd (n : nat) (bs : bytes) : option (bytes * bytes) :=
  if n <=? length bs then Some (take n bs, drop n bs) else None.

Fixpoint rd_sigs (n : nat) (bs : bytes) : option (list Signature * bytes) :=
  match n with
  | 0 => Some ([], bs)
  | S n =>
    '(s, bs) ← rd 64 bs;
    '(ss, bs) ← rd_sigs n bs;
    Some (s :: ss, bs)
  end.

Definition dec_qc (bs : bytes) : option (QuorumCertificateWire * bytes) :=
  '(j, bs) ← rd 32 bs;
  '(bm, bs) ← rd 4 bs;
  '(n, bs) ← rd 4 bs;
  if (unbe n <=? 32)%N then
    '(ss, bs) ← rd_sigs (N.to_nat (unbe n)) bs;
    Some (mkQCWire j (unbe bm) ss, bs)
  else None.

Definition dec_block (bs : bytes) : option HotstuffBlockWire :=
  '(p, bs) ← rd 32 bs;
  '(q, bs) ← dec_qc bs;
  '(bh, bs) ← rd 32 bs;
  '(n, bs) ← rd 4 bs;
  if (unbe n <=? N.of_nat (length bs))%N then
    '(bd, bs) ← rd (N.to_nat (unbe n)) bs;
    if bool_decide (bs = replicate (pad4 (N.to_nat (unbe n))) x00)
    then Some (mkWire (mkHeader p q bh) bd) else None
  else None.

#[export] Instance toy_xdr : Xdr := {|
  xdr_header := enc_header;
  xdr_opaque := enc_opaque;
  xdr_block := enc_block;
  xdr_block_from := dec_block;
  xdr_qc := enc_qc;
  xdr_qc_from bs := match dec_qc bs with Some (q, []) => Some q | _ => None end;
  xdr_uint64 := be 8;
  xdr_uint64_from bs := if (length bs =? 8)%nat then Some (unbe bs) else None;
|}.

Lemma rd_app n a b : length a = n → rd n (a ++ b) = Some (a, b).
Proof.
  intros <-. unfold rd. rewrite length_app, (proj2 (Nat.leb_le _ _)) by lia.
  by rewrite take_app_length, drop_app_length.
Qed.

#[local] Ltac bind_simpl := cbn beta iota delta [mbind option_bind].

Lemma rd_sigs_app ss b :
  Forall (λ s, length s = 64) ss → rd_sigs (length ss) (concat ss ++ b) = Some (ss, b).
Proof.
  induction 1 as [|s ss Hs _ IH]; [done|]. cbn [length rd_sigs concat].
  rewrite <- app_assoc, rd_app by done. bind_simpl. by rewrite IH.
Qed.

Lemma dec_qc_app q b : qc_wire_ok q → dec_qc (enc_qc q ++ b) = Some (q, b).
Proof.
  intros (Hj & Hb & Hl & Hs). unfold dec_qc, enc_qc. rewrite <- !app_assoc.
  rewrite rd_app by done. bind_simpl. rewrite rd_app by apply length_be. bind_simpl.
  rewrite rd_app by apply length_be. bind_simpl.
  rewrite (unbe_be 4 (N.of_nat (length (qcw_sigs q)))) by (simpl; lia).
  rewrite (proj2 (N.leb_le _ _)) by lia. rewrite Nat2N.id, rd_sigs_app by done. bind_simpl.
  rewrite unbe_be by done. by destruct q.
Qed.

Lemma dec_block_enc w : wire_ok w → dec_block (enc_block w) = Some w.
Proof.
  intros ((Hp & Hb & Hq) & Hl). unfold dec_block, enc_block, enc_header, enc_opaque.
  rewrite <- !app_assoc, rd_app by done. bind_simpl. rewrite dec_qc_app by done. bind_simpl.
  rewrite rd_app by done. bind_simpl. rewrite rd_app by apply length_be. bind_simpl.
  rewrite unbe_be by done. rewrite length_app, (proj2 (N.leb_le _ _)) by lia.
  rewrite Nat2N.id, rd_app by done. bind_simpl. rewrite bool_decide_eq_true_2 by done.
  by destruct w as [[] ?].
Qed.

#[export] Instance toy_xdr_laws : XdrLaws.
Proof.
  split.
  - apply dec_block_enc.
  - intros q Hq. simpl. pose proof (dec_qc_app q [] Hq) as H. rewrite app_nil_r in H. by rewrite H.
  - intros n Hn. change (xdr_uint64_from (xdr_uint64 n)) with
      (if (length (be 8 n) =? 8)%nat then Some (unbe (be 8 n)) else None).
    by rewrite length_be, unbe_be.
  - done.
  - intros bs n. change (xdr_uint64_from bs) with
      (if (length bs =? 8)%nat then Some (unbe bs) else None).
    destruct (Nat.eqb_spec (length bs) 8) as [Hl|]; [|done]. intros [= <-].
    pose proof (unbe_bound bs) as Hb. by rewrite Hl in Hb.
  - intros n. apply length_be.
Qed.

(** ** Bit vectors: a bitmap of ids below 32 *)

Definition bits (b : N) : list N := filter (λ i, N.testbit b i = true) (N.of_nat <$> seq 0 32).

#[export] Instance toy_bv : BitVector := {|
  BV := N;
  bv_new := 0%N;
  bv_of := λ b, b;
  bv_size b := N.of_nat (length (bits b));
  bv_pop b := match bits b with
              | [] => (0, b)%N
              | x :: _ => (x, N.clearbit b x)
              end;
  bv_add b x := N.setbit b x;
  bv_get b := (b mod 2 ^ 32)%N;
|}.

Lemma elem_of_bits b x : x ∈ bits b ↔ N.testbit b x = true ∧ (x < 32)%N.
Proof.
  unfold bits. rewrite list_elem_of_filter, list_elem_of_fmap. setoid_rewrite elem_of_seq.
  split; intros [Hb Hx]; (split; [done|]).
  - destruct Hx as (n & -> & Hn). lia.
  - exists (N.to_nat x). lia.
Qed.

Lemma bits_sorted b : StronglySorted N.lt (bits b).
Proof.
  unfold bits. generalize (of_nat_seq_sorted 0 32). generalize (N.of_nat <$> seq 0 32). intros l.
  induction 1 as [|x l _ IH Hall]; [constructor|]. rewrite filter_cons.
  case_decide; [|done]. constructor; [done|]. rewrite Forall_forall in *.
  intros y [_ Hy]%list_elem_of_filter. auto.
Qed.

#[export, refine] Instance toy_bv_laws : BitVectorLaws := {| bv_elems := bits |}.
Proof.
  - apply bits_sorted.
  - done.
  - done.
  - intros b x l Hb. simpl. rewrite Hb. simpl. split; [done|].
    pose proof (bits_sorted b) as Hs. rewrite Hb in Hs. apply StronglySorted_inv in Hs as [Hsl Hx].
    apply sorted_ext; [apply bits_sorted|done|]. intros y. rewrite elem_of_bits.
    assert (Hy : y ∈ bits b ↔ y = x ∨ y ∈ l) by (rewrite Hb, elem_of_cons; done).
    rewrite elem_of_bits in Hy. rewrite Forall_forall in Hx.
    destruct (decide (y = x)) as [->|Hne].
    + rewrite N.clearbit_eq. split; [naive_solver|]. intros Hin. specialize (Hx x Hin). lia.
    + rewrite N.clearbit_neq by done. naive_solver.
  - intros b x y Hx. simpl. rewrite !elem_of_bits. destruct (decide (y = x)) as [->|Hne].
    + rewrite N.setbit_eq. naive_solver.
    + rewrite N.setbit_neq by done. naive_solver.
  - intros b. simpl. apply sorted_ext; [apply bits_sorted..|]. intros x.
    rewrite !elem_of_bits. split; intros [Ht Hx]; (split; [|done]).
    + by rewrite N.mod_pow2_bits_low in Ht.
    + by rewrite N.mod_pow2_bits_low.
  - intros b. apply Forall_forall. by intros x [_ ?]%elem_of_bits.
  - intros b. by apply N.mod_lt.
Defined.

(** ** Files and LMDB *)

#[export] Instance toy_fs : Fs := {| fopen_w_ok _ := true; fopen_r_ok _ := true |}.

#[export] Instance toy_dirs : DirOps :=
  {| mkdir_safe _ := ret tt; remove_all dir := λ d, Ok false (without dir d) |}.

#[export] Instance toy_dirs_laws : DirLaws.
Proof.
  split; [by intros|]. intros dir d. exists false, (without dir d). split_and!; [done| |done].
  apply map_filter_filter_l. by intros.
Defined.

(** Lexicographic comparison. *)
Fixpoint bytes_ltb (a b : bytes) : bool :=
  match a, b with
  | [], [] => false
  | [], _ :: _ => true
  | _ :: _, [] => false
  | x :: a, y :: b =>
    (Byte.to_N x <? Byte.to_N y)%N || (bool_decide (x = y) && bytes_ltb a b)
  end.

Lemma bytes_ltb_spec a b : bytes_ltb a b = true ↔ bytes_lt a b.
Proof.
  revert b. induction a as [|x a IH]; intros [|y b]; simpl; try naive_solver.
  rewrite orb_true_iff, andb_true_iff, N.ltb_lt, bool_decide_eq_true, IH. done.
Qed.

Lemma bytes_lt_total a b : bytes_lt a b ∨ a = b ∨ bytes_lt b a.
Proof.
  revert b. induction a as [|x a IH]; intros [|y b]; simpl; auto.
  destruct (decide (x = y)) as [->|Hne].
  - destruct (IH b) as [?|[->|?]]; auto.
  - destruct (N.lt_total (Byte.to_N x) (Byte.to_N y)) as [?|[Heq|?]]; auto.
    exfalso. apply Hne. pose proof (Byte.of_to_N x) as H1. rewrite Heq, Byte.of_to_N in H1. congruence.
Qed.

Abbreviation table := (list (bytes * bytes)).

Fixpoint tput (k v : bytes) (t : table) : table :=
  match t with
  | [] => [(k, v)]
  | (k', v') :: t' =>
    if bytes_ltb k k' then (k, v) :: t
    else if bool_decide (k = k') then (k, v) :: t'
    else (k', v') :: tput k v t'
  end.

Fixpoint tget (k : bytes) (t : table) : option bytes :=
  match t with
  | [] => None
  | (k', v') :: t' => if bool_decide (k = k') then Some v' else tget k t'
  end.

Lemma tget_tput k v k' t :
  StronglySorted bytes_lt t.*1 →
  tget k' (tput k v t) = if bool_decide (k = k') then Some v else tget k' t.
Proof.
  induction t as [|[k0 v0] t IH]; intros Hs; simpl.
  { by rewrite (bool_decide_ext (k' = k) (k = k')). }
  apply StronglySorted_inv in Hs as [Hs Hall].
  destruct (bytes_ltb k k0) eqn:Hlt; simpl.
  { by rewrite (bool_decide_ext (k' = k) (k = k')). }
  destruct (decide (k = k0)) as [<-|Hne].
  - rewrite (bool_decide_eq_true_2 (k = k)) by done. simpl.
    rewrite (bool_decide_ext (k' = k) (k = k')) by done. by case_bool_decide.
  - rewrite (bool_decide_eq_false_2 (k = k0)) by done. simpl. rewrite IH by done.
    repeat case_bool_decide; congruence.
Qed.

Lemma tput_keys k v t x : x ∈ (tput k v t).*1 ↔ x = k ∨ x ∈ t.*1.
Proof.
  induction t as [|[k0 v0] t IH]; simpl; [set_solver|].
  destruct (bytes_ltb k k0); simpl; [set_solver|].
  case_bool_decide as Heq; simpl; [subst; set_solver|]. rewrite !elem_of_cons, IH. naive_solver.
Qed.

Lemma tput_sorted k v t :
  StronglySorted bytes_lt t.*1 → StronglySorted bytes_lt (tput k v t).*1.
Proof.
  induction t as [|[k0 v0] t IH]; intros Hs; simpl; [repeat constructor|].
  pose proof Hs as Hs'. apply StronglySorted_inv in Hs as [Hs Hall].
  destruct (bytes_ltb k k0) eqn:Hlt; simpl.
  { constructor; [done|]. apply bytes_ltb_spec in Hlt. constructor; [done|].
    eapply Forall_impl; [exact Hall|]. intros x Hx. by eapply bytes_lt_trans. }
  case_bool_decide as Heq; simpl; [by subst|]. constructor; [by apply IH|].
  apply Forall_forall. intros x [->|Hx]%tput_keys; [|by rewrite Forall_forall in Hall; auto].
  destruct (bytes_lt_total k k0) as [H|[H|H]]; [|done|done].
  apply bytes_ltb_spec in H. congruence.
Qed.

Lemma tget_elem k v t : StronglySorted bytes_lt t.*1 → (k, v) ∈ t ↔ tget k t = Some v.
Proof.
  induction t as [|[k0 v0] t IH]; intros Hs; simpl; [split; [set_solver|done]|].
  apply StronglySorted_inv in Hs as [Hs Hall]. rewrite Forall_forall in Hall.
  rewrite elem_of_cons, IH by done. case_bool_decide as Heq.
  - subst. split; [|naive_solver]. intros [?|Hg]; [naive_solver|]. exfalso.
    apply (bytes_lt_irrefl k0), Hall. apply list_elem_of_fmap. exists (k0, v).
    split; [done|]. by apply IH.
  - naive_solver.
Qed.

(** A database is the history of its puts, newest first. *)
Abbreviation puts := (list (dbi * bytes * bytes)).

Fixpoint hget (d : puts) (i : dbi) (k : bytes) : option bytes :=
  match d with
  | [] => None
  | (i', k', v') :: d => if bool_decide (i' = i ∧ k' = k) then Some v' else hget d i k
  end.

Definition contents (d : puts) (i : dbi) : table :=
  foldr (λ '(i', k, v) t, if bool_decide (i' = i) then tput k v t else t) [] d.

#[export] Instance toy_lmdb : LmdbLib := {|
  DB := puts * N;
  TXN := puts;
  create_db := ([], 0%N);
  wbegin d := d.1;
  txn_put t i k v := (i, k, v) :: t;
  commit_wtxn t n := (t, n);
  get_persisted_round_number d := d.2;
  rget d i k := hget d.1 i k;
  cursor_entries d i := contents d.1 i;
  dbval_string s := String.list_byte_of_string s;
  write_unsigned_big_endian := be 8;
  read_unsigned_big_endian := unbe;
|}.

Lemma contents_sorted d i : StronglySorted bytes_lt (contents d i).*1.
Proof.
  induction d as [|[[i' k] v] d IH]; simpl; [constructor|].
  case_bool_decide; [by apply tput_sorted|done].
Qed.

Lemma contents_get d i k : tget k (contents d i) = hget d i k.
Proof.
  induction d as [|[[i' k'] v] d IH]; simpl; [done|].
  destruct (decide (i' = i)) as [->|Hne].
  - rewrite (bool_decide_eq_true_2 (i = i)) by done.
    rewrite tget_tput by apply contents_sorted. rewrite IH. repeat case_bool_decide; naive_solver.
  - rewrite (bool_decide_eq_false_2 (i' = i)) by done. rewrite IH.
    by rewrite bool_decide_eq_false_2 by naive_solver.
Qed.

#[export, refine] Instance toy_lmdb_laws : LmdbLaws := {| txn_get := hget |}.
Proof.
  - done.
  - done.
  - done.
  - done.
  - intros d k v. simpl. rewrite tget_elem by apply contents_sorted. by rewrite contents_get.
  - intros d. apply contents_sorted.
  - intros n Hn. by apply unbe_be.
  - intros n m Hnm Hm. by apply be_lt.
Defined.

(** A cursor over the entries; an iterator that has none left is null. *)
#[export] Instance toy_cursor : CursorLib := {|
  CURSOR := list (bytes * bytes);
  LIT := option (bytes * bytes) * list (bytes * bytes);
  cursor_open d i := cursor_entries d i;
  cursor_get_first c := c;
  lit_of c := (head c, tail c);
  lit_null := (None, []);
  lit_deref x := x.1;
  lit_next x := (head x.2, tail x.2);
  lit_eqb x y := bool_decide (x.1 = y.1);
|}.

#[export, refine] Instance toy_cursor_laws : CursorLaws := {|
  remaining x := from_option (λ e, e :: x.2) [] x.1;
|}.
Proof.
  - intros d i. simpl. by destruct (contents d.1 i).
  - by intros [[e'|] es'] e es [= -> ->].
  - intros [[e'|] es'] e es [= -> ->]. simpl. by destruct es.
  - intros [[e|] es]; reflexivity.
Defined.

(** ** Waits *)

(** The worker of the counting machine runs while a caller waits. *)
#[export] Instance toy_wait : AsyncWait (i_vm := counting_vm) := lazy_wait.
