(* ===== verification/Replay.v ===== *)
(** * Checked executions

    An executable check of the side conditions of [admissible], for a finite
    universe of headers, and its soundness: a run in which every action passes
    the check is an execution of the cluster of Network.v. *)

From S2P Require Import Prelude Types ReplicaConfig Certs IoUtils Block BlockStore Lmdb.
From S2P Require Import Consensus Events FetchManager App Safety ReplicaInv StoreInv AppInv.
From S2P Require Import Network Durable Runs.

Section universe.
(** The headers in circulation, with their hashes. *)
Context (hdrs : list (Hash * HotstuffBlockHeader)).

Definition lookup_header (h : Hash) : option HotstuffBlockHeader :=
  snd <$> find (λ x, bool_decide (x.1 = h)) hdrs.

Fixpoint ancb (fuel : nat) (a b : Hash) : bool :=
  bool_decide (a = b) ||
  match fuel, lookup_header b with
  | S fuel, Some hd => ancb fuel a (parent_hash hd)
  | _, _ => false
  end.

Fixpoint heightb (fuel : nat) (b : Hash) : option N :=
  if bool_decide (b = zero_hash) then Some 0%N
  else
    match fuel, lookup_header b with
    | S fuel, Some hd => N.succ <$> heightb fuel (parent_hash hd)
    | _, _ => None
    end.

(** Every header respects the sizes of the .x files. *)
Definition sized_headers : bool := forallb (λ x, bool_decide (header_ok x.2)) hdrs.

(** The genesis hash has no header, and every header has a height. *)
Definition universe_ok : bool :=
  forallb (λ x, negb (bool_decide (x.1 = zero_hash)) &&
    match heightb (length hdrs) (x.1) with
    | Some n => (n <? 2 ^ 32)%N
    | None => false
    end) hdrs.

Lemma ancb_anc fuel a b : ancb fuel a b = true → anc lookup_header a b.
Proof.
  revert b. induction fuel as [|fuel IH]; intros b; simpl;
    rewrite orb_true_iff, bool_decide_eq_true; (intros [->|H]; [constructor|]); [done|].
  destruct (lookup_header b) as [hd|] eqn:Hb; [|done]. eapply anc_step; eauto.
Qed.

Lemma heightb_ht fuel b n : heightb fuel b = Some n → ht lookup_header b n.
Proof.
  revert b n. induction fuel as [|fuel IH]; intros b n; simpl; case_bool_decide as Hz;
    [intros [= <-]; subst; constructor|done|intros [= <-]; subst; constructor|].
  destruct (lookup_header b) as [hd|] eqn:Hb; [|done].
  destruct (heightb fuel (parent_hash hd)) as [m|] eqn:Hm; [|done]. simpl. intros [= <-].
  rewrite <- N.add_1_r. eapply ht_step; eauto.
Qed.

Lemma lookup_header_elem h hd : lookup_header h = Some hd → (h, hd) ∈ hdrs.
Proof.
  unfold lookup_header. intros ([h' hd'] & Hf & ->)%fmap_Some.
  apply find_some in Hf as [Hin Hb%bool_decide_eq_true]. simpl in Hb. subst.
  by apply list_elem_of_In.
Qed.

Lemma sized_headers_ok h hd : sized_headers = true → lookup_header h = Some hd → header_ok hd.
Proof.
  unfold sized_headers. rewrite forallb_forall. intros Hok Hh%lookup_header_elem%list_elem_of_In.
  apply Hok in Hh. by apply bool_decide_eq_true in Hh.
Qed.

Lemma universe_ok_entry h hd :
  universe_ok = true → lookup_header h = Some hd →
  h ≠ zero_hash ∧ ∃ n, ht lookup_header h n ∧ (n < 2 ^ 32)%N.
Proof.
  intros Hok Hh%lookup_header_elem. unfold universe_ok in Hok.
  rewrite forallb_forall in Hok. apply list_elem_of_In in Hh. specialize (Hok _ Hh). simpl in Hok.
  apply andb_true_iff in Hok as [Hz Hn]. apply negb_true_iff, bool_decide_eq_false in Hz.
  split; [done|]. destruct (heightb _ h) as [n|] eqn:Hht; [|done].
  exists n. split; [by eapply heightb_ht|by apply N.ltb_lt].
Qed.

Lemma universe_zero : universe_ok = true → lookup_header zero_hash = None.
Proof.
  intros Hok. destruct (lookup_header zero_hash) as [hd|] eqn:Hz; [|done].
  by destruct (universe_ok_entry _ _ Hok Hz).
Qed.

Lemma universe_short h n : universe_ok = true → ht lookup_header h n → (n < 2 ^ 32)%N.
Proof.
  intros Hok Hn. inversion Hn as [|b hd m Hb Hm]; subst; [done|].
  destruct (universe_ok_entry _ _ Hok Hb) as (_ & k & Hk & Hlt).
  by rewrite (ht_fun _ (universe_zero Hok) _ _ _ Hn Hk).
Qed.
End universe.

#[export] Instance vote_message_eq_dec : EqDecision VoteMessage.
Proof. solve_decision. Defined.
#[export] Instance propose_message_eq_dec : EqDecision ProposeMessage.
Proof. solve_decision. Defined.
#[export] Instance msg_eq_dec : EqDecision msg_t.
Proof. solve_decision. Defined.

Section replay.
Context {i_sodium : Sodium} {i_xdr : Xdr} {i_bv : BitVector} {i_fs : Fs} {i_lmdb : LmdbLib}.
Context {V : Type} {i_bridge : VMBridge V}.
Context (cfg : ReplicaConfig) (B : gset ReplicaID) (hdrs : list (Hash * HotstuffBlockHeader)).

Abbreviation U := (lookup_header hdrs).

Definition sig_unforgedb (G : list (ReplicaID * Hash)) (rid : ReplicaID) (sig : Signature)
    (h : Hash) : bool :=
  match replica_map cfg !! rid with
  | Some info => negb (check_sig sig h (pk info)) || bool_decide (rid ∈ B) ||
      bool_decide ((rid, h) ∈ G)
  | None => true
  end.

Definition header_knownb (hd : HotstuffBlockHeader) : bool :=
  match crypto_generichash (xdr_header hd) with
  | Some h => bool_decide (U h = Some hd)
  | None => true
  end.

Definition authentic_arrivalb (G : list (ReplicaID * Hash)) (w : HotstuffBlockWire) : bool :=
  header_knownb (header w) &&
  forallb (λ x, sig_unforgedb G x.1 x.2 (just_of (header w)))
    (sigs (QC_of_wire (header_qc (header w)))).

Definition block_arrivalb (G : list (ReplicaID * Hash)) (w : HotstuffBlockWire) : bool :=
  authentic_arrivalb G w &&
  ancb hdrs (length hdrs) (just_of (header w)) (parent_hash (header w)).

Definition sized_arrivalb (G : list (ReplicaID * Hash)) (w : HotstuffBlockWire) : bool :=
  block_arrivalb G w && (N.of_nat (length (body w)) <? 2 ^ 32)%N.

Definition mint_knownb (nonempty : HotstuffBlock → M (AppSt V) bool) (net : Net V)
    (r : ReplicaID) : bool :=
  match net_reps net !! r with
  | Some rep =>
    match mint_proposal nonempty (rep_state rep) with
    | Ok b _ => header_knownb (header (wire_block b))
    | Fault _ _ => true
    end
  | None => true
  end.

Context (arrivalb : list (ReplicaID * Hash) → HotstuffBlockWire → bool).

Definition admissibleb (net : Net V) (r : ReplicaID) (a : action V) : bool :=
  match a with
  | AVoteMsg v => sig_unforgedb (net_log net) (vm_voter v) (pc_sig (vm_vote v))
                    (pc_hash (vm_vote v))
  | AProposeMsg m => arrivalb (net_log net) (pm_proposal m)
  | ABlockMsg w _ => arrivalb (net_log net) w
  | APropose => mint_knownb supports_nonempty net r
  | AEmptyPropose => mint_knownb always_empty net r
  | _ => true
  end.

(** Only admissible actions. *)
Definition checked_step (r : ReplicaID) (a : action V) (net : Net V) : option (Net V) :=
  if admissibleb net r a then step r a net else None.

Lemma sig_unforgedb_sound G rid sig h :
  sig_unforgedb G rid sig h = true → sig_unforged cfg B G rid sig h.
Proof.
  unfold sig_unforgedb. intros Hb info Hi Hc Hh. rewrite Hi, Hc in Hb. simpl in Hb.
  apply orb_true_iff in Hb as [?%bool_decide_eq_true|?%bool_decide_eq_true]; done.
Qed.

Lemma header_knownb_sound hd : header_knownb hd = true → header_known U hd.
Proof. unfold header_knownb. intros Hb h Hh. rewrite Hh in Hb. by apply bool_decide_eq_true in Hb. Qed.

Lemma authentic_arrivalb_sound G w :
  authentic_arrivalb G w = true → authentic_arrival U cfg B G w.
Proof.
  unfold authentic_arrivalb. rewrite !andb_true_iff. intros [Hk Hs].
  split; [by apply header_knownb_sound|].
  intros rid sig Hin. apply sig_unforgedb_sound.
  rewrite forallb_forall in Hs. apply (Hs (rid, sig)). by apply list_elem_of_In.
Qed.

Lemma block_arrivalb_sound G w :
  block_arrivalb G w = true → block_arrival U cfg B G w.
Proof.
  unfold block_arrivalb. rewrite andb_true_iff. intros [Hk Ha].
  split; [by apply authentic_arrivalb_sound|by eapply ancb_anc].
Qed.

Lemma sized_arrivalb_sound G w :
  sized_arrivalb G w = true → sized_arrival U cfg B G w.
Proof.
  unfold sized_arrivalb. rewrite andb_true_iff. intros [Ha Hs%N.ltb_lt].
  split; [by apply block_arrivalb_sound|done].
Qed.

Lemma mint_knownb_sound ne net r s f :
  mint_knownb ne net r = true → net_reps net !! r = Some (mkReplica s f) → mint_known U ne s.
Proof.
  unfold mint_knownb. intros Hb Hr b s' Hm. rewrite Hr in Hb. simpl in Hb. rewrite Hm in Hb.
  by apply header_knownb_sound.
Qed.

Context (arrival : list (ReplicaID * Hash) → HotstuffBlockWire → Prop).
Hypothesis arrivalb_sound : ∀ G w, arrivalb G w = true → arrival G w.

Lemma admissibleb_sound net r a :
  admissibleb net r a = true → admissible cfg B U arrival net r a.
Proof using arrivalb_sound.
  destruct a; simpl; try done; eauto using mint_knownb_sound. apply sig_unforgedb_sound.
Qed.

Lemma checked_step_reachable sk vm net r a net' :
  reachable cfg B U arrival sk vm net → checked_step r a net = Some net' → reachable cfg B U arrival sk vm net'.
Proof using arrivalb_sound.
  unfold checked_step. intros Hr Hs. destruct (admissibleb net r a) eqn:Ha; [|done].
  eapply reach_step; [done|by apply admissibleb_sound|done].
Qed.

(** ** Scripts *)

(** An action of the script's choice, or the delivery of the [k]-th message
    the client of [to] at [from] was given. *)
Inductive op :=
  | Do (r : ReplicaID) (a : action V)
  | Deliver (from to : ReplicaID) (k : nat).

Definition op_action (net : Net V) (o : op) : option (ReplicaID * action V) :=
  match o with
  | Do r a => Some (r, a)
  | Deliver from to k =>
    rep ← net_reps net !! from;
    msgs ← other_clients (a_protocol (st_env (rep_state rep))) !! to;
    m ← msgs !! k;
    Some (to, match m with MVote v => AVoteMsg v | MPropose p => AProposeMsg p end)
  end.

Fixpoint run_script (st : ReplicaID → action V → Net V → option (Net V)) (os : list op)
    (net : Net V) : option (Net V) :=
  match os with
  | [] => Some net
  | o :: os =>
    '(r, a) ← op_action net o;
    net' ← st r a net;
    run_script st os net'
  end.

Lemma run_script_reachable sk vm os net net' :
  reachable cfg B U arrival sk vm net → run_script checked_step os net = Some net' →
  reachable cfg B U arrival sk vm net'.
Proof using arrivalb_sound.
  revert net. induction os as [|o os IH]; intros net Hr; simpl; [by intros [= <-]|].
  destruct (op_action net o) as [[r a]|]; [simpl|done].
  destruct (checked_step r a net) as [net1|] eqn:Hs; [simpl|done].
  apply IH. by eapply checked_step_reachable.
Qed.

(** A script with the actions it takes. *)
Fixpoint run_trace (st : ReplicaID → action V → Net V → option (Net V)) (os : list op)
    (net : Net V) : list (ReplicaID * action V) * option (Net V) :=
  match os with
  | [] => ([], Some net)
  | o :: os =>
    match op_action net o with
    | Some (r, a) =>
      match st r a net with
      | Some net' => let '(tr, res) := run_trace st os net' in ((r, a) :: tr, res)
      | None => ([], None)
      end
    | None => ([], None)
    end
  end.

(** Those of one replica. *)
Definition actions_of (r : ReplicaID) (tr : list (ReplicaID * action V)) : list (action V) :=
  (filter (λ x, x.1 = r) tr).*2.

(** A sound test of equality, for the messages and events of a script. *)
Definition action_eqb (a b : action V) : bool :=
  match a, b with
  | AVoteMsg v, AVoteMsg v' => bool_decide (v = v')
  | AProposeMsg m, AProposeMsg m' => bool_decide (m = m')
  | ANetEvent, ANetEvent | AEvent, AEvent | APropose, APropose | AEmptyPropose, AEmptyPropose => true
  | _, _ => false
  end.

Fixpoint actions_eqb (l l' : list (action V)) : bool :=
  match l, l' with
  | [], [] => true
  | a :: l, a' :: l' => action_eqb a a' && actions_eqb l l'
  | _, _ => false
  end.

Lemma actions_eqb_eq l l' : actions_eqb l l' = true → l = l'.
Proof.
  revert l'. induction l as [|a l IH]; intros [|a' l']; simpl; try done.
  rewrite andb_true_iff. intros [Ha Hl]. f_equal; [|by apply IH].
  destruct a, a'; simpl in Ha; try done; by apply bool_decide_eq_true in Ha as ->.
Qed.
End replay.

Section scripted.
Context {i_sodium : Sodium} {i_xdr : Xdr} {i_bv : BitVector} {i_fs : Fs} {i_lmdb : LmdbLib}.
Context {V : Type} {i_bridge : VMBridge V}.
Context (cfg : ReplicaConfig) (B : gset ReplicaID) (hdrs : list (Hash * HotstuffBlockHeader)).
Abbreviation U := (lookup_header hdrs).
Abbreviation cstep := (checked_step cfg B hdrs (block_arrivalb cfg B hdrs)).

Lemma trace_ran r os (net net' : Net V) tr :
  run_trace cstep os net = (tr, Some net') → ran cfg B U r (actions_of r tr) net net'.
Proof.
  revert net tr. induction os as [|o os IH]; intros net tr; simpl.
  { intros [= <- <-]. constructor. apply rtc_refl. }
  destruct (op_action net o) as [[r' a]|]; [simpl|done].
  destruct (cstep r' a net) as [net1|] eqn:Hs; [simpl|done].
  destruct (run_trace _ os net1) as [tr' res] eqn:Htr. intros [= <- ->]. apply IH in Htr.
  unfold checked_step in Hs. destruct (admissibleb _ _ _ _ _) eqn:Ha; [|done].
  apply (admissibleb_sound cfg B hdrs _ _ (block_arrivalb_sound cfg B hdrs)) in Ha.
  unfold actions_of in *. rewrite filter_cons. simpl.
  destruct (decide (r' = r)) as [->|Hr]; [by eapply ran_cons; [apply rtc_refl|..]|].
  assert (others_step cfg B U r net net1) by by exists r', a.
  inversion Htr; subst; [constructor|econstructor]; eauto using rtc_l.
Qed.
End scripted.

Arguments op : clear implicits.
