(* ===== verification/Scenarios.v ===== *)
(** * Executions of a concrete cluster

    Four replicas, ids 0 to 3, of which 3 is faulty, running the speculative
    bridge over the counting machine with the libraries of Concrete.v.

    - [happy]: replica 0 proposes five blocks, everyone votes; the first two are
      decided everywhere.
    - [attack]: replica 3 proposes blocks on two branches, one of which carries
      a certificate for the other branch.  The signatures are genuine, but the
      justified block of [c4] is not an ancestor of [c4].  Replica 0 decides
      [a1], replica 2 decides [c1], and replica 1 throws "safety breached".
    - [crash]: replica 3 proposes a block whose certificate names replica 7. *)

From S2P Require Import Prelude Types ReplicaConfig Certs IoUtils Block BlockStore Lmdb.
From S2P Require Import Consensus Events FetchManager App Safety ReplicaInv StoreInv AppInv.
From S2P Require Import Network Durable Votes Runs Progress Leader Cluster SpecGadget VMControl Bridges Restart Concrete Replay.

(** ** The cluster *)

Definition key (r : ReplicaID) : bytes := replicate 32 (n2b (r + 65)).

Definition info (r : ReplicaID) : ReplicaInfo :=
  mkReplicaInfo "localhost" "9000" "9001" "data" r (key r).

Definition four : ReplicaConfig :=
  match configure (info <$> [0; 1; 2; 3]%N) ReplicaConfig_init with
  | Ok _ c => c
  | Fault _ c => c
  end.

Definition faulty : gset ReplicaID := {[3%N]}.

Abbreviation SpecVM := HotstuffVMBridge.

(** The state after an operation. *)
Definition run_or {S A} (m : M S A) (s : S) : S :=
  match m s with Ok _ s' => s' | Fault _ s' => s' end.

Definition follower : SpecVM :=
  run_or bridge_init_clean (HotstuffVMBridge_init (mkCounting 0 0) 1 true).
Definition leader : SpecVM := run_or put_vm_in_proposer_mode follower.

Definition start : Net SpecVM := net_init four faulty key follower.

(** ** A leader's rounds *)

(** Replica 0 proposes and votes; 1 and 2 receive the proposal, vote, and their
    votes come back. *)
Definition round (k : nat) : list (op SpecVM) :=
  [Do 0 APropose; Do 0 AEvent; Do 0 AEvent;
   Deliver 0 1 k; Do 1 ANetEvent; Do 1 AEvent; Deliver 1 0 k; Do 0 ANetEvent; Do 0 AEvent;
   Deliver 0 2 k; Do 2 ANetEvent; Do 2 AEvent; Deliver 2 0 k; Do 0 ANetEvent; Do 0 AEvent].

Definition happy : list (op SpecVM) :=
  Do 0 (AVm leader) :: concat (round <$> seq 0 5).

(** The headers of the blocks a replica holds. *)
Definition headers_at (r : ReplicaID) (net : Net SpecVM) : list (Hash * HotstuffBlockHeader) :=
  match net_reps net !! r with
  | Some rep =>
    (λ pb : loc * HotstuffBlock, (get_hash pb.2, header (wire_block pb.2))) <$>
      filter (λ pb, get_hash pb.2 ≠ zero_hash) (map_to_list (st_heap (rep_state rep)))
  | None => []
  end.

Definition happy_headers : list (Hash * HotstuffBlockHeader) :=
  Eval vm_compute in from_option (headers_at 0) [] (run_script step happy start).

(** ** Two branches *)

(** A block and the certificate the votes of 0, 1 and 3 make for it. *)
Definition forge (parent : Hash) (qc : QuorumCertificateWire) (bd : bytes) : HotstuffBlockWire :=
  mkWire (mkHeader parent qc (digest (enc_opaque bd))) bd.
Definition hash_of (w : HotstuffBlockWire) : Hash := digest (enc_header (header w)).
Definition qc_of (h : Hash) : QuorumCertificateWire :=
  mkQCWire h 11 ((λ r, key r ++ h) <$> [0; 1; 3]%N).
Definition child (w : HotstuffBlockWire) (qc : QuorumCertificateWire) (bd : bytes)
  : HotstuffBlockWire := forge (hash_of w) qc bd.

Definition a1 : HotstuffBlockWire := forge zero_hash empty_qc_wire [].
Definition a2 : HotstuffBlockWire := child a1 (qc_of (hash_of a1)) [].
Definition a3 : HotstuffBlockWire := child a2 (qc_of (hash_of a2)) [].

Definition c1 : HotstuffBlockWire := forge zero_hash empty_qc_wire [x01].
Definition c2 : HotstuffBlockWire := child c1 empty_qc_wire [].
Definition c3 : HotstuffBlockWire := child c2 empty_qc_wire [].
Definition c4 : HotstuffBlockWire := child c3 (qc_of (hash_of a3)) [].
Definition c5 : HotstuffBlockWire := child c4 (qc_of (hash_of c4)) [].
Definition c6 : HotstuffBlockWire := child c5 (qc_of (hash_of c5)) [].
Definition c7 : HotstuffBlockWire := child c6 (qc_of (hash_of c6)) [].

Definition branches : list HotstuffBlockWire := [a1; a2; a3; c1; c2; c3; c4; c5; c6; c7].
Definition branch_headers : list (Hash * HotstuffBlockHeader) :=
  (λ w, (hash_of w, header w)) <$> branches.

(** Replica 3 proposes a block to [r]; or [r] fetches it from replica 3. *)
Definition proposed (w : HotstuffBlockWire) (r : ReplicaID) : list (op SpecVM) :=
  [Do r (AProposeMsg (mkProposeMessage w 3)); Do r ANetEvent; Do r AEvent].
Definition fetched (w : HotstuffBlockWire) (r : ReplicaID) : list (op SpecVM) :=
  [Do r (ABlockMsg w 3); Do r ANetEvent].

Definition attack : list (op SpecVM) :=
  concat ((λ w, proposed w 0 ++ proposed w 1) <$> [a1; a2; a3; c1; c2; c3; c4; c5; c6]) ++
  concat ((λ w, fetched w 2) <$> [a1; a2; a3; c1; c2; c3; c4; c5; c6]) ++
  proposed c7 2 ++ proposed c7 1.

(** ** What the executions show *)

(** The hashes of the blocks a replica has decided. *)
Definition decided_at (r : ReplicaID) (net : Net SpecVM) : list Hash :=
  match net_reps net !! r with
  | Some rep => (get_hash ∘ snd) <$>
      filter (λ pb : loc * HotstuffBlock, decided pb.2 = true)
        (map_to_list (st_heap (rep_state rep)))
  | None => []
  end.

Definition fault_at (r : ReplicaID) (net : Net SpecVM) : option fault :=
  net_reps net !! r ≫= rep_fault.

Lemma decided_at_block r net h :
  h ∈ decided_at r net →
  ∃ rep p b, net_reps net !! r = Some rep ∧ st_heap (rep_state rep) !! p = Some b ∧
    decided b = true ∧ get_hash b = h.
Proof.
  unfold decided_at. destruct (net_reps net !! r) as [rep|] eqn:Hr; [|by intros ?%elem_of_nil].
  intros ([p b] & -> & [Hd Hin]%list_elem_of_filter)%list_elem_of_fmap.
  apply elem_of_map_to_list in Hin. by exists rep, p, b.
Qed.

Definition happy_net : Net SpecVM :=
  default start (run_script (checked_step four faulty happy_headers
    (sized_arrivalb four faulty happy_headers)) happy start).

Definition attack_net : Net SpecVM :=
  default start (run_script (checked_step four faulty branch_headers
    (authentic_arrivalb four faulty branch_headers)) attack start).

Lemma script_reachable hdrs arrivalb arrival os :
  (∀ G w, arrivalb G w = true → arrival G w) →
  is_Some (run_script (checked_step four faulty hdrs arrivalb) os start) →
  reachable four faulty (lookup_header hdrs) arrival key follower
    (default start (run_script (checked_step four faulty hdrs arrivalb) os start)).
Proof.
  intros Hs [net Hrun]. rewrite Hrun. simpl.
  eapply run_script_reachable; [exact Hs| |exact Hrun]. apply reach_init.
Qed.

Lemma happy_sized :
  reachable four faulty (lookup_header happy_headers)
    (sized_arrival (lookup_header happy_headers) four faulty) key follower happy_net.
Proof.
  apply (script_reachable _ (sized_arrivalb four faulty happy_headers)).
  - apply sized_arrivalb_sound.
  - refine (proj1 (bool_decide_eq_true _) _). vm_compute. reflexivity.
Qed.

Lemma happy_reachable :
  reachable four faulty (lookup_header happy_headers)
    (block_arrival (lookup_header happy_headers) four faulty) key follower happy_net.
Proof. eapply reachable_mono; [|apply happy_sized]. by intros G w [? _]. Qed.

Lemma attack_reachable :
  reachable four faulty (lookup_header branch_headers)
    (authentic_arrival (lookup_header branch_headers) four faulty) key follower attack_net.
Proof.
  apply (script_reachable _ (authentic_arrivalb four faulty branch_headers)).
  - apply authentic_arrivalb_sound.
  - refine (proj1 (bool_decide_eq_true _) _). vm_compute. reflexivity.
Qed.

Lemma happy_universe : universe_ok happy_headers = true.
Proof. vm_compute. reflexivity. Qed.

Lemma happy_headers_sized : sized_headers happy_headers = true.
Proof. vm_compute. reflexivity. Qed.

Lemma branch_universe : universe_ok branch_headers = true.
Proof. vm_compute. reflexivity. Qed.

Lemma branch_zero : lookup_header branch_headers zero_hash = None.
Proof. apply universe_zero, branch_universe. Qed.

Lemma branch_short h n : ht (lookup_header branch_headers) h n → (n < 2 ^ 32)%N.
Proof. apply universe_short, branch_universe. Qed.

Lemma four_wf : config_wf four.
Proof. by apply (configure_wf (info <$> [0; 1; 2; 3]%N)). Qed.

Lemma four_faulty : (N.of_nat (size faulty) < nreplicas four - 2 * (nreplicas four / 3))%N.
Proof. vm_compute. reflexivity. Qed.

(** Replica 0's first block is decided at replicas 1 and 2. *)
Lemma happy_decided :
  ∃ h1 h2, h1 ≠ zero_hash ∧ h2 ≠ zero_hash ∧ h1 ≠ h2 ∧
    h1 ∈ decided_at 1 happy_net ∧ h2 ∈ decided_at 2 happy_net.
Proof.
  exists (default [] (decided_at 1 happy_net !! 0)), (default [] (decided_at 1 happy_net !! 1)).
  refine (proj1 (bool_decide_eq_true _) _). vm_compute. reflexivity.
Qed.

Lemma attack_decided :
  hash_of a1 ∈ decided_at 0 attack_net ∧ hash_of c1 ∈ decided_at 2 attack_net ∧
  fault_at 1 attack_net = Some safety_breached.
Proof. refine (proj1 (bool_decide_eq_true _) _). vm_compute. reflexivity. Qed.

(** [a1] and [c1] are children of the genesis block. *)
Lemma branch_conflict :
  ¬ anc (lookup_header branch_headers) (hash_of a1) (hash_of c1) ∧
  ¬ anc (lookup_header branch_headers) (hash_of c1) (hash_of a1).
Proof.
  assert (Hc : ∀ h w, heightb branch_headers 1 h = Some 1%N →
    heightb branch_headers 1 (hash_of w) = Some 1%N → h ≠ hash_of w →
    ¬ anc (lookup_header branch_headers) h (hash_of w)).
  { intros h w Hh%heightb_ht Hw%heightb_ht Hne Ha. apply Hne.
    exact (anc_ht_eq _ (universe_zero _ branch_universe) _ _ _ Ha Hh Hw). }
  split; apply Hc; try (vm_compute; reflexivity);
    refine (proj1 (bool_decide_eq_true _) _); vm_compute; reflexivity.
Qed.

(** ** A signer nobody knows *)

(** A child of [a1] whose certificate also names replica 7. *)
Definition d2 : HotstuffBlockWire :=
  child a1 (mkQCWire (hash_of a1) 139 ((λ r, key r ++ hash_of a1) <$> [0; 1; 3; 7]%N)) [].

Definition crash_headers : list (Hash * HotstuffBlockHeader) :=
  (λ w, (hash_of w, header w)) <$> [a1; d2].

Definition crash : list (op SpecVM) :=
  proposed a1 0 ++ proposed a1 1 ++ take 1 (proposed d2 0).

Definition crash_net : Net SpecVM :=
  default start (run_script (checked_step four faulty crash_headers
    (block_arrivalb four faulty crash_headers)) crash start).

Lemma crash_reachable :
  reachable four faulty (lookup_header crash_headers)
    (block_arrival (lookup_header crash_headers) four faulty) key follower crash_net.
Proof.
  apply (script_reachable _ (block_arrivalb four faulty crash_headers)).
  - apply block_arrivalb_sound.
  - refine (proj1 (bool_decide_eq_true _) _). vm_compute. reflexivity.
Qed.

Lemma crash_universe : universe_ok crash_headers = true.
Proof. vm_compute. reflexivity. Qed.

Lemma crash_fault :
  fault_at 0 crash_net = Some (Exn (RuntimeError (rid_not_found 7))).
Proof. vm_compute. reflexivity. Qed.

(** ** Replica 1 of the first execution *)

(** Replica 1 at the end of it, evaluated. *)
Definition state1 : AppSt SpecVM :=
  Eval vm_compute in from_option rep_state (init_state four key follower 1) (net_reps happy_net !! 1%N).

Lemma state1_running : net_reps happy_net !! 1%N = Some (mkReplica state1 None).
Proof. vm_cast_no_check (eq_refl (Some (mkReplica state1 None))). Qed.

(** Its block at a location: the blocks of heights 1 to 5 are at 2 to 6. *)
Definition block1 (p : loc) : HotstuffBlock := default genesis_block (st_heap state1 !! p).

Lemma block1_at p : is_Some (st_heap state1 !! p) → st_heap state1 !! p = Some (block1 p).
Proof. unfold block1. by intros [b ->]. Qed.

(** A new process of replica 1 over what it has written. *)
Definition rebooted : AppSt SpecVM :=
  reboot four 1 (key 1) (HotstuffVMBridge_init (mkCounting 0 0) 1 true) (st_disk state1)
    (decided_hash_index (st_core state1)).

(** The execution up to where replica 1 handles the fifth proposal. *)
Definition before5_net : Net SpecVM :=
  default start (run_script (checked_step four faulty happy_headers
    (block_arrivalb four faulty happy_headers)) (take 66 happy) start).

Lemma before5_reachable :
  reachable four faulty (lookup_header happy_headers)
    (block_arrival (lookup_header happy_headers) four faulty) key follower before5_net.
Proof.
  apply (script_reachable _ (block_arrivalb four faulty happy_headers)).
  - apply block_arrivalb_sound.
  - refine (proj1 (bool_decide_eq_true _) _). vm_compute. reflexivity.
Qed.

Definition before5 : AppSt SpecVM :=
  Eval vm_compute in from_option rep_state (init_state four key follower 1) (net_reps before5_net !! 1%N).

Lemma before5_running : net_reps before5_net !! 1%N = Some (mkReplica before5 None).
Proof. vm_cast_no_check (eq_refl (Some (mkReplica before5 None))). Qed.

(** The five proposals replica 1 handles. *)
Definition proposals1 : list (Hash * HotstuffBlockWire) :=
  Eval vm_compute in (λ p, (get_hash (block1 p), wire_block (block1 p))) <$> [2; 3; 4; 5; 6]%positive.

(** ** A leader and its followers *)

(** Replica 0's rounds, from where it has entered the proposer mode. *)
Definition lead_start : Net SpecVM :=
  default start (run_script (checked_step four faulty happy_headers
    (block_arrivalb four faulty happy_headers)) (take 1 happy) start).
Definition led : list (ReplicaID * action SpecVM) * option (Net SpecVM) :=
  run_trace (checked_step four faulty happy_headers (block_arrivalb four faulty happy_headers))
    (drop 1 happy) lead_start.

Lemma lead_start_reachable :
  reachable four faulty (lookup_header happy_headers)
    (block_arrival (lookup_header happy_headers) four faulty) key follower lead_start.
Proof.
  apply (script_reachable _ (block_arrivalb four faulty happy_headers)).
  - apply block_arrivalb_sound.
  - refine (proj1 (bool_decide_eq_true _) _). vm_compute. reflexivity.
Qed.

Definition lead_state (r : ReplicaID) : AppSt SpecVM :=
  match r with
  | 0%N => mkSt (st_heap (init_state four key follower 0)) (st_disk (init_state four key follower 0))
      (st_core (init_state four key follower 0))
      (AppBase_init 1%positive four 0 (key 0) leader)
  | _ => init_state four key follower r
  end.

Lemma lead_state_running r :
  r = 0%N ∨ r = 1%N ∨ r = 2%N → net_reps lead_start !! r = Some (mkReplica (lead_state r) None).
Proof.
  intros [-> | [-> | ->]].
  - vm_cast_no_check (eq_refl (Some (mkReplica (lead_state 0) None))).
  - vm_cast_no_check (eq_refl (Some (mkReplica (lead_state 1) None))).
  - vm_cast_no_check (eq_refl (Some (mkReplica (lead_state 2) None))).
Qed.

(** The votes of 1 and 2 on each of the five blocks. *)
Definition led_vote (r : ReplicaID) (h : Hash) : VoteMessage := mkVoteMessage (mkPC h (key r ++ h)) r.

Definition lead_rounds : list (bool * list VoteMessage) :=
  (λ h, (false, [led_vote 1 h; led_vote 2 h])) <$> proposals1.*1.

(** What the replicas have done: 0 goes through its rounds, 1 and 2 handle the
    proposals. *)
Definition led_actions (r : ReplicaID) : list (action SpecVM) :=
  if bool_decide (r = 0%N) then concat (lead_round <$> lead_rounds)
  else concat (handle_proposal 0 <$> proposals1.*2).

(** What they have sent: the proposals to each follower, and the votes on them
    to the leader. *)
Definition led_sent (r q : ReplicaID) : list msg_t :=
  if bool_decide (r = 0%N) then proposal_message 0 <$> proposals1.*2
  else (MVote ∘ led_vote r) <$> proposals1.*1.

Definition led_check (tr : list (ReplicaID * action SpecVM)) (net' : Net SpecVM)
    (rq : ReplicaID * ReplicaID) : bool :=
  match net_reps net' !! rq.1 with
  | Some (mkReplica s None) =>
    actions_eqb (actions_of rq.1 tr) (led_actions rq.1) &&
    bool_decide (outbox (lead_state rq.1) rq.2 = [] ∧ outbox s rq.2 = led_sent rq.1 rq.2)
  | _ => false
  end.

Definition led_pairs : list (ReplicaID * ReplicaID) := [(0, 1); (0, 2); (1, 0); (2, 0)]%N.

Lemma led_checked :
  match led with
  | (tr, Some net') => forallb (led_check tr net') led_pairs
  | _ => false
  end = true.
Proof. vm_cast_no_check (eq_refl true). Qed.

(** The state after the rounds. *)
Definition led_to (net' : Net SpecVM) : Prop := ∃ tr, led = (tr, Some net').

Lemma led_end : ∃ net', led_to net'.
Proof.
  pose proof led_checked as H. destruct led as [tr [net'|]] eqn:Hled; [|discriminate H].
  exists net', tr. exact Hled.
Qed.

Lemma led_runs net' r q :
  led_to net' → (r, q) ∈ led_pairs →
  ran four faulty (lookup_header happy_headers) r (led_actions r) lead_start net' ∧
  ∃ s, net_reps net' !! r = Some (mkReplica s None) ∧ outbox (lead_state r) q = [] ∧
    outbox s q = led_sent r q.
Proof.
  intros [tr Hled] Hrq. pose proof led_checked as H. rewrite Hled in H.
  rewrite forallb_forall in H. apply list_elem_of_In, H in Hrq. unfold led_check in Hrq.
  cbn [fst snd] in Hrq. destruct (net_reps net' !! r) as [[s [f|]]|]; [discriminate Hrq| |discriminate Hrq].
  apply andb_true_iff in Hrq as [Hacts%actions_eqb_eq Hbox%bool_decide_eq_true].
  split; [rewrite <- Hacts; exact (trace_ran _ _ _ _ _ _ _ _ Hled)|].
  exists s. exact (conj eq_refl Hbox).
Qed.
