(* ===== verification/Theorems.v ===== *)
(** * The properties of the program

    What the development establishes of the code, component by component: the
    cluster, a replica's consensus core, certificates and configurations, the
    block store and the disk, the queues, and the virtual machine side.  The
    lemmas behind them are in the components' files. *)

From S2P Require Import EventQueue.
From S2P Require Import Prelude Types ReplicaConfig Certs IoUtils Block BlockStore Lmdb.
From S2P Require Import Consensus Events FetchManager App Safety ReplicaInv StoreInv AppInv.
From S2P Require Import Network Durable Votes Runs Progress Leader Cluster Batches SpecGadget VMControl VMThreads LogAccess Bridges Restart.
From S2P Require Import RpcClient Servers Pacemaker Concrete Replay Scenarios.

(** ** The cluster *)

Section cluster.
Context {i_sodium : Sodium} {i_xdr : Xdr} {i_bv : BitVector} {i_fs : Fs} {i_lmdb : LmdbLib}.
Context {V : Type} {i_bridge : VMBridge V} {i_blaws : VMBridgeLaws V}.

(** The universe of headers has one header per hash, none for the genesis
    hash, and branches shorter than [2 ^ 32]; the configuration is one that
    [configure] builds, and fewer replicas are faulty than two quorums share. *)
Context (cfg : ReplicaConfig) (B : gset ReplicaID) (U : Hash → option HotstuffBlockHeader).
Hypothesis U_zero : U zero_hash = None.
Hypothesis U_short : ∀ h n, ht U h n → (n < 2 ^ 32)%N.
Hypothesis cfg_wf : config_wf cfg.
Hypothesis few_faulty :
  (N.of_nat (size B) < nreplicas cfg - 2 * (nreplicas cfg / 3))%N.

Context (sk : ReplicaID → SecretKey) (vm : V) (net : Net V).
Hypothesis net_reachable : reachable cfg B U (block_arrival U cfg B) sk vm net.

Lemma net_ok : net_inv cfg B U net.
Proof using All. by apply (reachable_inv cfg B U U_zero U_short cfg_wf few_faulty sk vm). Qed.

(** The votes of the log are the hashes honest replicas have signed. *)
Lemma signed_logged r rep v :
  net_reps net !! r = Some rep → v ∈ a_signed (st_env (rep_state rep)) → (r, v) ∈ net_log net.
Proof using All.
  intros Hr Hv. destruct net_ok as [_ Hinv]. destruct (Hinv _ _ Hr) as (_ & _ & Hs).
  destruct (rep_fault rep) as [f|].
  - destruct Hs as [_ [_ Hs]]. by apply Hs.
  - destruct (ai_good _ _ _ _ _ _ Hs) as (_ & RI & _). by apply (ri_log _ _ _ _ _ _ _ _ _ RI).
Qed.

Lemma running_inv r s :
  net_reps net !! r = Some (mkReplica s None) → AppInv U cfg B r (net_log net) s.
Proof using All.
  intros Hr. destruct net_ok as [_ Hinv]. by destruct (Hinv _ _ Hr) as (_ & _ & Hs).
Qed.

(** C1: agreement.  In every execution in which signatures are genuine, a
    received block's justified block is one of its ancestors, branches are
    shorter than [2 ^ 32] and fewer than [n - 2 * (n / 3)] replicas are faulty,
    any two blocks that honest replicas have decided lie on one branch. *)
Theorem agreement r1 r2 rep1 rep2 p1 p2 b1 b2 :
  net_reps net !! r1 = Some rep1 → net_reps net !! r2 = Some rep2 →
  st_heap (rep_state rep1) !! p1 = Some b1 → decided b1 = true →
  st_heap (rep_state rep2) !! p2 = Some b2 → decided b2 = true →
  anc U (get_hash b1) (get_hash b2) ∨ anc U (get_hash b2) (get_hash b1).
Proof using All. apply (agreement_inv cfg B U U_zero cfg_wf few_faulty), net_ok. Qed.

(** C2: a replica stops only for causes outside the protocol.  In every such
    execution a fault that ends an honest replica's thread is one of the bridge
    to the virtual machine, a failure of libsodium or of the file system, a
    certificate naming a signer that is not configured, or a configured id that
    does not fit the bitmaps.  In particular the consensus core never throws
    "safety breached", follows no null pointer and has no loop that does not
    end.
    Standing assumptions: fewer than [n - 2 * (n / 3)] of the
    replicas are faulty, branches are shorter than [2 ^ 32], signatures are
    genuine and justified blocks of received blocks are ancestors. *)
Theorem only_outside_faults r rep f :
  net_reps net !! r = Some rep → rep_fault rep = Some f →
  (bridge_fault f ∨ outside cfg f) ∧ f ≠ safety_breached.
Proof using All.
  intros Hr Hf. destruct net_ok as [_ Hinv]. destruct (Hinv _ _ Hr) as (_ & _ & Hs).
  rewrite Hf in Hs. destruct Hs as [Ha _]. split; [by apply app_allowed|].
  intros ->. by eapply app_no_breach.
Qed.

(** C4: a cluster makes progress.  Take a running leader and a list of
    followers that are a quorum with it, all at a block [tip], and an execution
    in which the leader goes through rounds - propose, or propose an empty
    block; handle its own proposal and its own vote; handle the followers' votes
    - and each follower handles the proposals the leader sends it, in any
    interleaving and while the other replicas do anything.  At its end one of
    them has stopped for one of the causes of [only_outside_faults], or the
    leader's blocks are a chain on [tip], one for each round and each certifying
    the one before, and the leader and all the followers have decided all but
    the last three.
    Standing assumptions: fewer than [n - 2 * (n / 3)] of the
    replicas are faulty, branches are shorter than [2 ^ 32], signatures are
    genuine and justified blocks of received blocks are ancestors. *)
Theorem cluster_progress {i_bvlaws : BitVectorLaws} ldr F rounds hws tip n net' s :
  (∀ m k, is_Some (crypto_sign_detached m k)) →
  NoDup (ldr :: F) → F ≠ [] → (nmajority cfg ≤ N.of_nat (length (ldr :: F)))%N →
  leads cfg B U ldr rounds hws tip n net net' s →
  (∀ f, f ∈ F → ∃ sf, follows cfg B U ldr hws tip n net net' f sf) →
  exchanged ldr F rounds hws net net' s → Forall hashed hws → NoDup hws.*1 →
  (∃ r rep f, r ∈ ldr :: F ∧ net_reps net' !! r = Some rep ∧ rep_fault rep = Some f ∧
     (bridge_fault f ∨ outside cfg f)) ∨
  (length hws = length rounds ∧ chained cfg tip hws ∧
   ∀ r, r ∈ ldr :: F →
     ∃ sr, net_reps net' !! r = Some (mkReplica sr None) ∧ all_but_three hws sr).
Proof using All.
  intros Hsign Hnd Hne Hq L HF Hex Hh Hd.
  assert (Hl : ldr ∈ replicas cfg).
  { destruct (ai_good _ _ _ _ _ _ (running_inv _ _ (ld_start _ _ _ _ _ _ _ _ _ _ _ L))) as (_ & RI & _).
    exact (proj2 (ri_self _ _ _ _ _ _ _ _ _ RI)). }
  destruct (stopped_or_running cfg B U ldr net net' _ (ldr :: F) (ld_ran _ _ _ _ _ _ _ _ _ _ _ L))
    as [(r & rep & f & Hr & Hrep & Hf)|Hall].
  { constructor; [by rewrite (ld_start _ _ _ _ _ _ _ _ _ _ _ L)|]. apply Forall_forall.
    intros f Hf. destruct (HF f Hf) as [sf Hfol]. by rewrite (fo_start _ _ _ _ _ _ _ _ _ _ _ Hfol). }
  { left. exists r, rep, f. split_and!; try done.
    pose proof (ran_reach cfg B U ldr sk vm _ _ _ (ld_ran _ _ _ _ _ _ _ _ _ _ _ L) net_reachable) as Hr'.
    destruct (reachable_inv cfg B U U_zero U_short cfg_wf few_faulty sk vm _ Hr') as [_ Hinv].
    destruct (Hinv _ _ Hrep) as (_ & _ & Ha). rewrite Hf in Ha. by apply app_allowed, Ha. }
  right. apply Forall_cons in Hall as [[s' Hs'] Hall]. rewrite Forall_forall in Hall.
  destruct (rounds_chain cfg B U U_zero U_short cfg_wf few_faulty Hsign ldr sk vm net net'
    net_reachable Hl F rounds hws tip n s s') as (? & ? & _); try done.
  split_and!; try done. intros r Hr.
  by apply (cluster_decides cfg B U U_zero U_short cfg_wf few_faulty Hsign ldr sk vm net net'
    net_reachable Hl F rounds hws tip n s s').
Qed.

(** C5: a follower makes progress.  Take a running replica with empty queues
    that has not voted above a block [tip] and is locked on it or below, and an
    execution in which it handles the proposals of a leader, the first on [tip]
    and each extending and certifying the one before, while the other replicas
    do anything.  At its end the replica has stopped for one of the causes of
    [only_outside_faults], or it has queued a signed vote on every proposal to
    the leader, in order, and has decided all but the last three.
    Standing assumptions: fewer than [n - 2 * (n / 3)] of the
    replicas are faulty, branches are shorter than [2 ^ 32], signatures are
    genuine and justified blocks of received blocks are ancestors. *)
Theorem follower_progress r ldr hws net' s rep' tip tp n work :
  ldr ∈ replicas cfg → ldr ≠ r → (∀ m k, is_Some (crypto_sign_detached m k)) →
  net_reps net !! r = Some (mkReplica s None) → ready ldr s tip tp n work →
  chained cfg tip hws → unseen s hws.*1 → NoDup hws.*1 →
  ran cfg B U r (concat (handle_proposal ldr <$> hws.*2)) net net' → net_reps net' !! r = Some rep' →
  match rep_fault rep' with
  | Some f => bridge_fault f ∨ outside cfg f
  | None =>
    (∃ sigs, Forall2 (λ h sig, crypto_sign_detached h (a_secret_key (st_env s)) = Some sig)
         hws.*1 sigs ∧
       other_clients (a_protocol (st_env (rep_state rep'))) !! ldr =
         Some (work ++ zip_with (vote_message r) hws.*1 sigs)) ∧
    ∀ i h, i + 3 < length hws → hws.*1 !! i = Some h → hash_decided (rep_state rep') h
  end.
Proof using All.
  intros Hldr Hne Hsign Hs Hrd Hch Hun Hnd Hf Hs'.
  pose proof (ran_reach cfg B U r sk vm _ _ _ Hf net_reachable) as Hr'.
  destruct rep' as [s' [f|]]; simpl.
  { destruct (reachable_inv cfg B U U_zero U_short cfg_wf few_faulty sk vm _ Hr') as [_ Hinv].
    destruct (Hinv _ _ Hs') as (_ & _ & Ha & _). by apply app_allowed. }
  destruct (ai_good _ _ _ _ _ _ (running_inv _ _ Hs)) as (_ & RI & _).
  pose proof (proj2 (ri_self _ _ _ _ _ _ _ _ _ RI)) as Hself.
  destruct (chain_followed cfg B U U_zero U_short cfg_wf few_faulty r ldr Hself Hldr Hne Hsign sk vm
    hws net net' s [] tip tp n work s') as (sigs & ? & ? & Hsigs & Hrd' & Hst); try done.
  split; [exists sigs; split; [done|apply Hrd']|]. intros i h Hi Hh.
  eapply (stacked_decided cfg B U U_zero cfg_wf few_faulty r); [|exact Hst|by rewrite length_fmap|done].
  by eapply (running_AInv cfg B U U_zero U_short cfg_wf few_faulty r sk vm).
Qed.

(** C6: every vote an honest replica has signed obeys the voting rules given
    the votes before it: its block's certificate is genuine and on an
    ancestor, its height is above the replica's earlier votes, and it extends
    the lock or carries a certificate above it.
    Standing assumptions: fewer than [n - 2 * (n / 3)] of the
    replicas are faulty, branches are shorter than [2 ^ 32], signatures are
    genuine and justified blocks of received blocks are ancestors. *)
Theorem votes_obey_rules G1 r w G2 :
  net_log net = G1 ++ (r, w) :: G2 → vote_ok U cfg B G2 r w.
Proof using All.
  intros Heq. destruct net_ok as [Hlog _]. rewrite Heq in Hlog. by eapply log_ok_vote.
Qed.

(** C7: an honest replica signs at most one block of each height.
    Standing assumptions: fewer than [n - 2 * (n / 3)] of the
    replicas are faulty, branches are shorter than [2 ^ 32], signatures are
    genuine and justified blocks of received blocks are ancestors. *)
Theorem one_vote_per_height r rep v w n :
  net_reps net !! r = Some rep →
  v ∈ a_signed (st_env (rep_state rep)) → w ∈ a_signed (st_env (rep_state rep)) →
  ht U v n → ht U w n → v = w.
Proof using All.
  intros Hr Hv Hw. destruct net_ok as [Hlog _]. 
  eapply (vote_once U); eauto using signed_logged.
Qed.

(** C8: no two blocks of one height are ever certified.
    Standing assumptions: fewer than [n - 2 * (n / 3)] of the
    replicas are faulty, branches are shorter than [2 ^ 32], signatures are
    genuine and justified blocks of received blocks are ancestors. *)
Theorem one_certificate_per_height v w n :
  certified cfg B (net_log net) v → certified cfg B (net_log net) w →
  ht U v n → ht U w n → v = w.
Proof using All.
  destruct net_ok as [Hlog _]. by apply (certified_unique U U_zero cfg B cfg_wf few_faulty).
Qed.

(** C9: a decided block is an ancestor of a block that heads a chain of three
    direct descendants, each certified by the next.
    Standing assumptions: fewer than [n - 2 * (n / 3)] of the
    replicas are faulty, branches are shorter than [2 ^ 32], signatures are
    genuine and justified blocks of received blocks are ancestors. *)
Theorem decided_below_three_chain r rep p b :
  net_reps net !! r = Some rep → st_heap (rep_state rep) !! p = Some b → decided b = true →
  ∃ c, committed U cfg B (net_log net) c ∧ anc U (get_hash b) c.
Proof using All. apply decided_committed, net_ok. Qed.

(** A replica that has not stopped. *)
Context (r : ReplicaID) (s : AppSt V).
Hypothesis running : net_reps net !! r = Some (mkReplica s None).

(** C10: a running replica has decided, of the blocks it stores, exactly the
    ancestors of [b_exec].
    Standing assumptions: fewer than [n - 2 * (n / 3)] of the
    replicas are faulty, branches are shorter than [2 ^ 32], signatures are
    genuine and justified blocks of received blocks are ancestors. *)
Theorem decided_is_prefix p b eb :
  block_cache (a_store (st_env s)) !! get_hash b = Some p → st_heap s !! p = Some b →
  st_heap s !! b_exec (st_core s) = Some eb →
  decided b = true ↔ anc U (get_hash b) (get_hash eb).
Proof using All.
  intros Hc Hb He. destruct (ai_good _ _ _ _ _ _ (running_inv _ _ running)) as (_ & RI & _).
  pose proof (skel_lookup_Some _ _ _ He) as Hske. split.
  - intros Hd. by destruct (ri_decided _ _ _ _ _ _ _ _ _ RI _ _ _ Hb Hd Hske).
  - exact (ri_undecided _ _ _ _ _ _ _ _ _ RI _ _ _ _ Hc Hb Hske).
Qed.

(** C13: the vote decision of [on_receive_proposal] on a stored block always
    returns, and says yes exactly when the block is above the last vote and
    either its certificate is above the lock or it extends the locked block.
    Standing assumptions: fewer than [n - 2 * (n / 3)] of the
    replicas are faulty, branches are shorter than [2 ^ 32], signatures are
    genuine and justified blocks of received blocks are ancestors. *)
Theorem opinion_correct p b jb lb :
  block_cache (a_store (st_env s)) !! get_hash b = Some p → st_heap s !! p = Some b →
  get_justify b ≫= (λ q, st_heap s !! q) = Some jb →
  st_heap s !! b_lock (st_core s) = Some lb →
  ∃ op, opinion p s = Ok op s ∧
    (op = true ↔ (vheight (st_core s) < get_height b)%N ∧
      ((get_height lb < get_height jb)%N ∨ anc U (get_hash lb) (get_hash b))).
Proof using All.
  intros Hc Hb Hj Hlb. destruct (ai_good _ _ _ _ _ _ (running_inv _ _ running)) as (_ & RI & _).
  by apply (opinion_iff U cfg B U_zero r (net_log net)).
Qed.

(** C14: a block that an honest replica mints carries its highest certificate,
    that certificate is genuine, and the justified block is an ancestor of
    the new block's parent: honest proposals meet the condition of [agreement].
    Standing assumptions: fewer than [n - 2 * (n / 3)] of the
    replicas are faulty, branches are shorter than [2 ^ 32], signatures are
    genuine and justified blocks of received blocks are ancestors. *)
Theorem honest_proposal nonempty b s' :
  nonempty = supports_nonempty ∨ nonempty = always_empty → mint_known U nonempty s →
  mint_proposal nonempty s = Ok b s' →
  header_qc (header (wire_block b)) = (hqc (st_core s)).2 ∧
  certified cfg B (net_log net) (just_of (header (wire_block b))) ∧
  anc U (just_of (header (wire_block b))) (parent_hash (header (wire_block b))).
Proof using All.
  intros Hne Hk Hrun.
  assert (Hch : chooses U cfg B r nonempty).
  { destruct Hne as [->| ->]; [|apply always_empty_chooses].
    by apply supports_nonempty_chooses. }
  pose proof (mint_proposal_quiet U cfg B U_zero r _ _ _ (running_inv _ _ running) Hch Hk) as Hq.
  unfold quiet_wp, wp in Hq. rewrite Hrun in Hq. naive_solver.
Qed.

(** C11: a direct three-chain is decided.  When a running replica handles the
    proposal of a stored block that justifies the head of a chain of three
    blocks, each the parent of the next and justified by it, the handler
    returns with the lowest of them decided, or the replica stops for one of
    the causes of [only_outside_faults].
    Standing assumptions: fewer than [n - 2 * (n / 3)] of the
    replicas are faulty, branches are shorter than [2 ^ 32], signatures are
    genuine and justified blocks of received blocks are ancestors. *)
Theorem three_chain_commits p b proposer p0 :
  block_cache (a_store (st_env s)) !! get_hash b = Some p → st_heap s !! p = Some b →
  proposer ∈ replicas cfg → three_chain s b p0 →
  match on_receive_proposal p proposer s with
  | Ok _ s' => decided_in s' p0
  | Fault f _ => bridge_fault f ∨ outside cfg f
  end.
Proof using All.
  intros Hc Hb Hp H3. pose proof (running_inv _ _ running) as I.
  pose proof (ai_good _ _ _ _ _ _ I) as Hg. pose proof Hg as (_ & RI & _).
  assert (Hl : linked (skel <$> st_heap s) (cache s) (skel b)).
  { destruct H3 as (p2 & _ & _ & _ & Hj & _).
    eapply (node_justify_linked U cfg B U_zero); [apply RI| |exact Hj].
    destruct (cached_node U cfg B U_zero _ _ _ _ (ri_tree _ _ _ _ _ _ _ _ _ RI) _ _ Hc)
      as (k & Hk & _).
    pose proof (proj1 Hk) as Hk'. rewrite (skel_lookup_Some _ _ _ Hb) in Hk'.
    by injection Hk' as <-. }
  assert (Hr : r ∈ replicas cfg) by apply (ri_self _ _ _ _ _ _ _ _ _ RI).
  pose proof (on_receive_proposal_wp U cfg B U_zero r cfg_wf few_faulty (net_log net) s p b proposer
    Hg Hb Hl (AppInv_reaches U cfg B U_zero U_short cfg_wf few_faulty r Hr _ _ _ I Hp)) as Hwp.
  unfold wp in Hwp. destruct (on_receive_proposal p proposer s) as [[] s'|f s'].
  - by apply Hwp.
  - apply app_allowed. apply Hwp.
Qed.

(** C18: the block store of a running replica is well formed: the genesis block
    is at the bottom, stored blocks are linked to stored parents one below
    them and to stored justified blocks, and every stored block is found under
    its own hash.
    Standing assumptions: fewer than [n - 2 * (n / 3)] of the
    replicas are faulty, branches are shorter than [2 ^ 32], signatures are
    genuine and justified blocks of received blocks are ancestors. *)
Theorem store_well_formed :
  tree_wf (core_genesis (st_core s)) (skel <$> st_heap s) (block_cache (a_store (st_env s))).
Proof using All.
  destruct (ai_good _ _ _ _ _ _ (running_inv _ _ running)) as (_ & RI & _).
  apply (ri_tree _ _ _ _ _ _ _ _ _ RI).
Qed.

(** C12: votes make a certificate.  When a running replica handles votes with
    valid signatures of a quorum on one of its blocks above its highest
    certificate, it never stops, the block becomes the one it proposes on, the
    thread that waits for a certificate is told, and the certificate it will
    send with its next proposal is for that block and is accepted by every
    replica.  The block has no vote yet, and the voters' ids fit the bitmap.
    Standing assumptions: fewer than [n - 2 * (n / 3)] of the
    replicas are faulty, branches are shorter than [2 ^ 32], signatures are
    genuine and justified blocks of received blocks are ancestors. *)
Theorem votes_make_certificate {i_bvlaws : BitVectorLaws} p b hb vs :
  st_heap s !! p = Some b → get_self_qc b = QC_new (get_hash b) →
  st_heap s !! (hqc (st_core s)).1 = Some hb → (get_height hb < get_height b)%N →
  Forall (good_vote cfg (get_hash b)) vs →
  (nmajority cfg ≤ N.of_nat (size (list_to_set vs.*1 : gset ReplicaID)))%N →
  ∃ s', receive_votes (get_hash b) p vs s = Ok tt s' ∧
    (hqc (st_core s')).1 = p ∧ b_leaf (st_core s') = p ∧
    latest_new_qc (st_env s') = Some (get_hash b) ∧
    qcw_justify (hqc (st_core s')).2 = get_hash b ∧
    ∀ T (t : T), verify cfg (QC_of_wire (hqc (st_core s')).2) t = Ok true t.
Proof using All.
  intros Hb Hself Hhb Hlt Hvs Hsize.
  destruct (ai_good _ _ _ _ _ _ (running_inv _ _ running)) as (_ & RI & _).
  pose proof (ri_config _ _ _ _ _ _ _ _ _ RI) as Hcfg.
  destruct (receive_votes_spec s p b hb vs) as (s' & Hrun & _ & Hrest);
    rewrite ?Hcfg; try done; [rewrite (cw_nmajority _ cfg_wf); lia|].
  exists s'. by rewrite Hcfg in Hrest.
Qed.

End cluster.

(** C15: the condition on justified blocks in [agreement] is needed, and nothing in the
    code checks it.  With four replicas, one of them faulty, and genuine
    signatures throughout, two honest replicas decide conflicting blocks and a
    third throws "safety breached": the faulty replica proposes a block that
    carries a certificate for a block of another branch. *)
Theorem disagreement_without_ancestry :
  let U := lookup_header branch_headers in
  reachable four faulty U (authentic_arrival U four faulty) key follower attack_net ∧
  U zero_hash = None ∧ (∀ h n, ht U h n → (n < 2 ^ 32)%N) ∧ config_wf four ∧
  (N.of_nat (size faulty) < nreplicas four - 2 * (nreplicas four / 3))%N ∧
  hash_of a1 ∈ decided_at 0 attack_net ∧ hash_of c1 ∈ decided_at 2 attack_net ∧
  ¬ anc U (hash_of a1) (hash_of c1) ∧ ¬ anc U (hash_of c1) (hash_of a1) ∧
  fault_at 1 attack_net = Some safety_breached.
Proof.
  destruct attack_decided as (H0 & H2 & H1). destruct branch_conflict as [Hac Hca].
  exact (conj attack_reachable (conj branch_zero (conj branch_short
    (conj four_wf (conj four_faulty
      (conj H0 (conj H2 (conj Hac (conj Hca H1))))))))).
Qed.

(** ** The consensus core *)

Section core.
Context {i_sodium : Sodium} {i_xdr : Xdr} {i_bv : BitVector} {i_fs : Fs} {i_lmdb : LmdbLib}.
Context {E : Type} {i_virt : CoreVirtuals E}.

(** C39: after a vote is recorded, [on_receive_proposal] refuses the block it
    voted for exactly when the block's height is below [2 ^ 32]: [vheight] is
    a [uint32_t] and heights are [uint64_t], so from that height on a replica
    votes again and again. *)
Theorem recorded_vote_blocks (s : CoreSt E) p b :
  st_heap s !! p = Some b → opinion p s = Ok true s →
  let s' := with_vheight (get_height b) s in
  opinion p s' = Ok (2 ^ 32 <=? get_height b)%N s'.
Proof. apply vote_recorded. Qed.

End core.

(** ** Restarts *)

Section restarts.
Context {i_sodium : Sodium} {i_xdr : Xdr} {i_bv : BitVector} {i_fs : Fs} {i_lmdb : LmdbLib}.
Context {i_xdrlaws : XdrLaws} {i_bvlaws : BitVectorLaws} {i_lmdblaws : LmdbLaws}.

(** C3: a restart recovers the decisions.  At any time of an execution, a
    process that starts over the disk and the index a running replica has
    written loads exactly the blocks the replica has decided, with their
    headers and heights, and resumes with [b_exec], the lock, the leaf and the
    highest certificate at the last decided block and that block's height as
    its last vote.  If nothing was decided it throws: there is no certificate
    to load. *)
Theorem restart_recovers {V} {i_bridge : VMBridge V} {i_blaws : VMBridgeLaws V}
    {i_bdata : VMBridgeData V} cfg B U sk vm (net : Net V) r s info be sk' vm' :
  U zero_hash = None → (∀ h n, ht U h n → (n < 2 ^ 32)%N) → config_wf cfg →
  (N.of_nat (size B) < nreplicas cfg - 2 * (nreplicas cfg / 3))%N →
  (∀ h hd, U h = Some hd → header_ok hd) → (∀ f, fopen_r_ok f = true) →
  reachable cfg B U (sized_arrival U cfg B) sk vm net →
  net_reps net !! r = Some (mkReplica s None) → replica_map cfg !! r = Some info →
  st_heap s !! b_exec (st_core s) = Some be →
  let restarted := reboot cfg r sk' vm' (st_disk s) (decided_hash_index (st_core s)) in
  if (0 <? get_height be)%N then
    ∃ s' p b, reload_decided_blocks restarted = Ok (get_height be) s' ∧
      same_decisions s s' ∧ st_heap s' !! p = Some b ∧ get_hash b = get_hash be ∧
      b_exec (st_core s') = p ∧ b_lock (st_core s') = p ∧ b_leaf (st_core s') = p ∧
      (hqc (st_core s')).1 = p ∧ vheight (st_core s') = get_height be ∧
      st_disk s' = st_disk s ∧ decided_hash_index (st_core s') = decided_hash_index (st_core s)
  else
    ∃ s', reload_decided_blocks restarted =
      Throw (RuntimeError "failed to get highest qc when loading from db") s'.
Proof.
  intros Hz Hsh Hwf Hf Hsz Hrd Hreach Hr Hi Hbe restarted.
  destruct (N.ltb_spec 0 (get_height be)) as [Hpos|Hzero].
  - destruct (reachable_reload U cfg B Hz Hsh Hwf Hf Hsz Hrd sk vm net r s info be sk' vm' Hreach Hr
      Hi Hbe Hpos) as (s' & p & qc & b & Hrun & Hsame & Hb & Hh & _ & Hco & Hd & _).
    exists s', p, b. rewrite Hco. by split_and!.
  - destruct (reachable_log U cfg B Hz Hsh Hwf Hf Hsz Hrd sk vm net r s info be Hreach Hr Hi Hbe)
      as (l & Sl & Hlen & _).
    apply (reload_empty cfg r info Hi Hrd). destruct l; [done|simpl in *; lia].
Qed.

(** C29: after a restart a replica may vote twice.  Whatever it had voted for
    before, the process that has loaded the decided blocks votes for any block
    whose parent is the last decided one: the height of the last vote is not
    among what is kept on disk. *)
Theorem restart_votes_again {V} {i_bridge : VMBridge V} {i_blaws : VMBridgeLaws V}
    {i_bdata : VMBridgeData V} cfg B U sk vm (net : Net V) r s info be sk' vm' :
  U zero_hash = None → (∀ h n, ht U h n → (n < 2 ^ 32)%N) → config_wf cfg →
  (N.of_nat (size B) < nreplicas cfg - 2 * (nreplicas cfg / 3))%N →
  (∀ h hd, U h = Some hd → header_ok hd) → (∀ f, fopen_r_ok f = true) →
  reachable cfg B U (sized_arrival U cfg B) sk vm net →
  net_reps net !! r = Some (mkReplica s None) → replica_map cfg !! r = Some info →
  st_heap s !! b_exec (st_core s) = Some be → (0 < get_height be)%N →
  ∃ s', reload_decided_blocks (reboot cfg r sk' vm' (st_disk s) (decided_hash_index (st_core s))) =
      Ok (get_height be) s' ∧
    ∀ h q b jp jb,
      (∀ p bp, st_heap s' !! p = Some bp → h !! p = Some bp) →
      h !! q = Some b → get_parent b = Some (b_exec (st_core s')) →
      get_height b = (get_height be + 1)%N → get_justify b = Some jp → h !! jp = Some jb →
      opinion q (mkSt h (st_disk s') (st_core s') (st_env s')) =
        Ok true (mkSt h (st_disk s') (st_core s') (st_env s')).
Proof.
  intros Hz Hsh Hwf Hf Hsz Hrd Hreach Hr Hi Hbe Hpos.
  destruct (reachable_reload U cfg B Hz Hsh Hwf Hf Hsz Hrd sk vm net r s info be sk' vm' Hreach Hr
    Hi Hbe Hpos) as (s' & p & qc & bp & Hrun & _ & Hb & _ & Hht & Hco & _).
  exists s'. split; [done|]. intros h q b jp jb Hh Hq Hpar Hn Hj Hjb. rewrite Hco in *. simpl in *.
  eapply (opinion_child _ q b p bp jp jb); simpl; auto; lia.
Qed.

(** C27: [HotstuffApp::init_from_disk] after a restart over what a running
    replica has written, at any time after its first decision.  The decided
    blocks are loaded and the machine is handed the log of decisions; if it can
    restore itself from it, the bridge is initialised with nothing speculated
    and speculates next on the height after the last decision; if it throws,
    so does the restart. *)
Theorem restart_resumes {i_vm : VMBase} {i_async : AsyncWait} {i_restore : VMRestore} {i_vmlaws : VMLaws}
    {i_bdata : VMBridgeData HotstuffVMBridge} cfg B U sk vm (net : Net HotstuffVMBridge)
    r s info be sk' machine target refill :
  U zero_hash = None → (∀ h n, ht U h n → (n < 2 ^ 32)%N) → config_wf cfg →
  (N.of_nat (size B) < nreplicas cfg - 2 * (nreplicas cfg / 3))%N →
  (∀ h hd, U h = Some hd → header_ok hd) → (∀ f, fopen_r_ok f = true) →
  reachable cfg B U (sized_arrival U cfg B) sk vm net →
  net_reps net !! r = Some (mkReplica s None) → replica_map cfg !! r = Some info →
  st_heap s !! b_exec (st_core s) = Some be → (0 < get_height be)%N →
  let br := HotstuffVMBridge_init machine target refill in
  let db := decided_hash_index (st_core s) in
  ∃ s1, same_decisions s s1 ∧
    let after d v g ini := mkSt (st_heap s1) d (st_core s1)
      (set_vm (mkBridge g (set_vm_instance v (vm_interface br)) ini) (st_env s1)) in
    HotstuffApp_init_from_disk (reboot cfg r sk' br (st_disk s) db) =
      match vm_init_from_disk (mkLog db info) (machine, st_disk s) with
      | Ok _ (v, d) => Ok tt (after d v (mkGadget [] (get_height be + 1) (get_height be) false) true)
      | Fault f (v, d) => Fault f (after d v SpeculativeExecGadget_init false)
      end.
Proof.
  intros Hz Hsh Hwf Hf Hsz Hrd Hreach Hr Hi Hbe Hpos br db.
  destruct (reachable_reload U cfg B Hz Hsh Hwf Hf Hsz Hrd sk vm net r s info be sk' br Hreach Hr
    Hi Hbe Hpos) as (s1 & p & qc & b & Hrun & Hsame & _ & _ & _ & Hco & Hd & Hvm & Hlt).
  exists s1. split; [done|].
  rewrite (HotstuffApp_init_run cfg r info _ s1 (get_height be)), Hvm, Hco, Hd; try done.
  - by rewrite Hco.
  - by rewrite Hco.
  - by rewrite Hvm.
  - change (2 ^ 64)%N with (2 ^ 32 * 2 ^ 32)%N. lia.
Qed.

(** C36: [CountingVM::init_from_disk] over a log of decided blocks executes and
    commits their values in order, up to the first block whose body holds no
    value.  There it throws: the null id of such a block is read back as an
    id, and parsing its body fails.  A block with an empty body is one. *)
Theorem counting_restart_replays l d bds s :
  Forall2 (logged l d) (log_entries l) bds →
  xdr_uint64_from [] = None ∧
  ∃ vs s', s' = replay_values vs s ∧
    Forall2 (λ bd v, xdr_uint64_from bd = Some v) (take (length vs) bds) vs ∧
    match bds !! length vs with
    | None => counting_init_from_disk l (s, d) = Ok tt (s', d)
    | Some bd => xdr_uint64_from bd = None ∧
        counting_init_from_disk l (s, d) = Throw XdrError (s', d)
    end.
Proof. split; [apply xdr_uint64_nil|]. by apply counting_replay_spec. Qed.

End restarts.

(** ** Configurations and certificates *)

(** C16: a configuration built by [add_replica] and [finish_init] is well
    formed: it has the replicas that were added, each under its own id,
    [nreplicas] counts them, and [nmajority] is [n - n / 3].  Any two of its
    quorums share a replica that is not faulty as long as fewer than
    [n - 2 * (n / 3)] are. *)
Theorem configured_quorums_meet infos c :
  (N.of_nat (length infos) < 2 ^ 64)%N → configure infos ReplicaConfig_init = Ok tt c →
  config_wf c ∧ (∀ r, r ∈ replicas c ↔ r ∈ id <$> infos) ∧
  nreplicas c = N.of_nat (length infos) ∧ nmajority c = (nreplicas c - nreplicas c / 3)%N ∧
  ∀ Q1 Q2 B : gset ReplicaID, Q1 ⊆ replicas c → Q2 ⊆ replicas c →
    (nmajority c ≤ N.of_nat (size Q1))%N → (nmajority c ≤ N.of_nat (size Q2))%N →
    (N.of_nat (size B) < nreplicas c - 2 * (nreplicas c / 3))%N →
    ∃ r, r ∈ Q1 ∧ r ∈ Q2 ∧ r ∉ B.
Proof.
  intros Hlen Hc. destruct (configure_wf _ _ Hlen Hc) as [Hwf Hn].
  split_and!; [done|by apply configure_members|done|apply Hwf|]. intros Q1 Q2 B. by apply quorum_honest.
Qed.

(** C38: a configuration that [add_replica] and [finish_init] build of [3 * k]
    replicas allows for [k] faulty ones, but two of its quorums can meet in just
    [k] replicas, all of which may be faulty. *)
Theorem quorums_meet_in_faulty infos c k :
  (0 < k)%nat → length infos = 3 * k → (N.of_nat (length infos) < 2 ^ 64)%N →
  configure infos ReplicaConfig_init = Ok tt c →
  ∃ Q1 Q2 B : gset ReplicaID, Q1 ⊆ replicas c ∧ Q2 ⊆ replicas c ∧
    (nmajority c ≤ N.of_nat (size Q1))%N ∧ (nmajority c ≤ N.of_nat (size Q2))%N ∧
    size B = k ∧ nmajority c = (nreplicas c - N.of_nat k)%N ∧ ∀ r, r ∈ Q1 → r ∈ Q2 → r ∈ B.
Proof.
  intros Hk Hl Hlen Hc. destruct (configure_wf _ _ Hlen Hc) as [Hwf Hn]. rewrite Hl in Hn.
  destruct (tight_quorums c k Hwf Hk Hn) as (Q1 & Q2 & H1 & H2 & Hs1 & Hs2 & Hi).
  assert (Hd : (nreplicas c / 3 = N.of_nat k)%N)
    by (rewrite Hn, Nat2N.inj_mul, N.mul_comm; by apply N.div_mul).
  exists Q1, Q2, (Q1 ∩ Q2). split_and!; try done; [lia|lia|lia| |].
  - by rewrite (cw_nmajority _ Hwf), Hd.
  - intros r Hr1 Hr2. by apply elem_of_intersection.
Qed.

Section certs.
Context {i_sodium : Sodium} {i_bv : BitVector}.

(** C17: a certificate read off the wire that [verify] accepts, for a block
    other than the genesis block, carries signatures of the block's hash by a
    quorum of distinct configured replicas, whatever bitmap and signatures
    the wire held. *)
Theorem verified_wire_certificate {S} c w (s s' : S) :
  verify c (QC_of_wire w) s = Ok true s' → qcw_justify w ≠ zero_hash →
  ∃ Q : gset ReplicaID, Q ⊆ replicas c ∧ (nmajority c ≤ N.of_nat (size Q))%N ∧
    ∀ r, r ∈ Q → ∃ info sig, replica_map c !! r = Some info ∧
      (r, sig) ∈ sigs (QC_of_wire w) ∧ check_sig sig (qcw_justify w) (pk info) = true.
Proof.
  rewrite <- QC_of_wire_hash. intros Hv Hz.
  exact (verify_signers c _ s s' (QC_of_wire_map_wf w) Hv Hz).
Qed.

(** C32: what [verify] answers.  The genesis block needs no signatures; with
    fewer signatures than a quorum the answer is no; otherwise, if a signer is
    not configured, [verify] throws instead of answering; and if all are, the
    answer is whether the signatures that are valid make a quorum. *)
Theorem verify_outcome {S} c qc (s : S) :
  verify c qc s =
    if bool_decide (obj_hash qc = zero_hash) then Ok true s
    else if (N.of_nat (length (sigs qc)) <? nmajority c)%N then Ok false s
    else match find (λ e, bool_decide (e.1 ∉ replicas c)) (sigs qc) with
         | Some e => Throw (RuntimeError (rid_not_found e.1)) s
         | None => Ok (nmajority c <=? N.of_nat (length
             (filter (λ e, signer_valid c (obj_hash qc) e = true) (sigs qc))))%N s
         end.
Proof.
  unfold verify. case_bool_decide; [done|]. case_match; [done|]. unfold bind.
  rewrite count_valid_spec. destruct (find _ _); [done|]. by rewrite N.add_0_l.
Qed.

(** C33: serializing a certificate and reading it back gives the same
    certificate. *)
Theorem certificate_roundtrip {i_bvlaws : BitVectorLaws} qc :
  qc_wf qc → QC_of_wire (serialize qc) = qc.
Proof. apply QC_roundtrip. Qed.
End certs.

(** ** Blocks in memory and on disk *)

(** C19: [insert_block] on every branch.  With both dependencies in the store
    the block's links are to them, its height is one above its parent's as a
    [uint64_t], and nothing else of it or of another block changes; its hash is
    cached unless it already is, in which case the cached block stays; the
    garbage collector is told of it; and the store stays well formed.  Otherwise
    nothing changes and exactly the missing hashes are reported. *)
Theorem insert_block_branches g h st p b :
  tree_wf g (skel <$> h) (block_cache st) → h !! p = Some b → p ≠ g →
  let parent := get_parent_hash b in
  let justify := qcw_justify (header_qc (header (wire_block b))) in
  match block_cache st !! parent, block_cache st !! justify with
  | Some pp, Some jp =>
    ∃ h' st' pb b', insert_block p (h, st) = Ok (mkMissing None None) (h', st') ∧
      h !! pp = Some pb ∧ h' !! p = Some b' ∧ (∀ q, q ≠ p → h' !! q = h !! q) ∧
      get_height b' = ((get_height pb + 1) mod 2 ^ 64)%N ∧
      get_parent b' = Some pp ∧ get_justify b' = Some jp ∧
      with_links b' (block_height b) (parent_block_ptr b) (justify_block_ptr b) = b ∧
      (∀ x, block_cache st' !! x =
         if bool_decide (x = get_hash b) then Some (default p (block_cache st !! x))
         else block_cache st !! x) ∧
      hotstuff_height_to_gc (gc_collector st') = hotstuff_height_to_gc (gc_collector st) ∧
      gc_list (gc_collector st') = gc_list (gc_collector st) ∧
      gc_list_buffer (gc_collector st') = gc_list_buffer (gc_collector st) ++ [p] ∧
      tree_wf g (skel <$> h') (block_cache st')
  | None, Some _ => insert_block p (h, st) = Ok (mkMissing (Some parent) None) (h, st)
  | Some _, None => insert_block p (h, st) = Ok (mkMissing None (Some justify)) (h, st)
  | None, None => insert_block p (h, st) = Ok (mkMissing (Some parent) (Some justify)) (h, st)
  end.
Proof.
  intros Hwf Hb Hg. pose proof (insert_block_spec g h st p b Hwf Hb Hg) as Hs. simpl in *.
  destruct (block_cache st !! get_parent_hash b) as [pp|],
    (block_cache st !! qcw_justify _) as [jp|]; try done.
  destruct Hs as (pb & Hpb & Hrun). eexists _, _, pb, (set_justify (set_parent b pp (get_height pb)) jp).
  split; [exact Hrun|]. split; [done|]. split; [apply lookup_insert_eq|].
  split_and!; try done; simpl.
  - intros q Hq. by rewrite lookup_insert_ne.
  - by destruct b.
  - intros x. rewrite cache_emplace_lookup. by case_bool_decide as Hx; [rewrite Hx|].
  - by apply (insert_block_wf g h st p b _ _ _ Hwf Hb Hg Hrun).
Qed.

(** C34: a run of the garbage collector drops the bodies of exactly the listed
    blocks below the requested height, leaves every other block alone, and
    keeps exactly the others listed. *)
Theorem gc_flushes_below h g height :
  hotstuff_height_to_gc g = Some height →
  let listed := gc_list g ++ gc_list_buffer g in
  ∃ h' kept, gc_run_once (h, g) = Ok tt (h', mkGC None kept []) ∧
    kept ≡ₚ filter (λ p, below h height p = false) listed ∧
    ∀ p, h' !! p = if bool_decide (p ∈ listed ∧ below h height p = true)
                   then flush_from_memory <$> h !! p else h !! p.
Proof. apply gc_run_once_spec. Qed.

(** ** Queues *)

Section queues.
Context {i_sodium : Sodium} {i_xdr : Xdr} {i_bv : BitVector} {i_fs : Fs} {i_lmdb : LmdbLib}.
Context {V : Type} {i_bridge : VMBridge V}.

(** C20: an iteration of a queue's worker, which takes the whole queue and
    handles the batch while handlers append to the queue, is the same as
    handling the events one at a time from the head: both return, in one state,
    or both fault, with one cause and at one event, in states that differ only
    in that the batch has dropped the events behind it.  This is so for the
    consensus queue, and for the network queue, whose handlers re-queue the
    events that were waiting for a block. *)
Theorem batches_are_steps (s : AppSt V) :
  same_outcome st_events set_st_events (st_events s)
    (run_batch st_events set_st_events on_event s)
    (run_heads st_events set_st_events on_event (length (st_events s)) s) ∧
  same_outcome st_net_events set_st_net_events (st_net_events s)
    (run_batch st_net_events set_st_net_events on_net_event s)
    (run_heads st_net_events set_st_net_events on_net_event (length (st_net_events s)) s).
Proof. split; [apply event_batch|apply net_event_batch]. Qed.

(** A thread in [wait_for_new_qc] learns only of votes: no step of the
    replica changes what it waits for, except the handling of a vote, and the
    wait and its cancellation themselves.  In particular a proposal from
    another replica does not wake it. *)
Lemma only_votes_wake (s : AppSt V) a :
  tells_wait s a = false →
  match run_action a s with
  | Ok _ s' | Fault _ s' => latest_new_qc (st_env s') = latest_new_qc (st_env s) ∧
      cancel_wait (st_env s') = cancel_wait (st_env s)
  end.
Proof. apply action_keeps_wait. Qed.

(** C35: [PaceMakerWaitQC].  In a new replica nobody is told to propose, unless
    its id is that of [UNKNOWN_REPLICA].  A
    wait blocks without news; a certificate on the block last proposed keeps
    the proposer; any other certificate, or a cancellation, makes the proposer
    of the highest certified block the next one. *)
Theorem pacemaker_follows_certificates cfg sk (vm : V) r p (s : AppSt V) b :
  st_heap s !! (hqc (st_core s)).1 = Some b →
  (∃ p0, PaceMakerWaitQC_init (init_state cfg sk vm r) = Ok p0 (init_state cfg sk vm r) ∧
     should_propose (p0, init_state cfg sk vm r) =
       Ok (UNKNOWN_REPLICA =? r)%N (p0, init_state cfg sk vm r)) ∧
  wait_for_qc (p, s) =
    let woken q c next := Ok true (mkPace (expected_hash p) next,
      mkSt (st_heap s) (st_disk s) (st_core s) (set_wait q c (st_env s))) in
    match latest_new_qc (st_env s), cancel_wait (st_env s) with
    | None, false => Ok false (p, s)
    | q, true => woken q false (get_proposer b)
    | Some q, false =>
      woken None false (if bool_decide (q = expected_hash p) then pace_proposer p
                        else get_proposer b)
    end.
Proof.
  intros Hb. split; [|by apply wait_for_qc_spec].
  destruct (pace_init cfg sk vm r) as (p0 & H1 & _ & H2). by exists p0.
Qed.
End queues.

(** C25: the fetch manager implements its contract.  Any sequence of requests
    and deliveries succeeds and hands out exactly the events that a map from
    hashes to waiting events would: no event is lost, repeated or delivered for
    another hash, and requests to ids outside the configuration are ignored. *)
Theorem fetch_manager_refines cfg os :
  ∃ m', run_fetches cfg os (init_configs cfg) = Ok (spec_fetches cfg os (λ _, [])) m'.
Proof. apply run_fetches_spec; [apply init_configs_wf|done]. Qed.

(** ** Connections *)

(** C23: the client of a peer delivers in order and at least once.  Whatever
    the network does, after any interleaving of the threads the calls the peer
    has handled are a prefix of the messages the client was given, each
    repeated at least once, possibly followed by copies of the next one; unless
    the replica is shutting down, that prefix is everything but the messages
    still waiting.  The worker stops only when there is nothing more to
    observe, or in a shutdown. *)
Theorem client_delivers_in_order ops world :
  wp (for_each ops client_exec) (λ _ c, client_ok (enqueued ops) c)
    (client_stopped (enqueued ops)) (HotstuffProtocolClient_init world).
Proof. apply (client_run_wp ops []), client_init_ok. Qed.

(** C24: over a network that works, an iteration of the client's worker
    returns, and has delivered every waiting message exactly once. *)
Theorem client_delivers c :
  good_world (2 + 3 * length (cl_work c)) (cl_rpc c) → cl_work c ≠ [] →
  ∃ c', client_run_once c = Ok tt c' ∧ cl_work c' = [] ∧
    rc_handled (cl_rpc c') = rc_handled (cl_rpc c) ++ cl_work c.
Proof. apply client_run_good. Qed.

(** A client that is shut down while it waits for a connection follows a
    null pointer: [wait_for_try_open_connection] returns without a connection
    once [done_flag] is set, and [try_action] makes the call all the same. *)
Lemma shutdown_follows_null {A R} (x : A) todo (c : NonblockingRpcClient A R) t1 t2 ts :
  rc_client c = false → rc_done c = false → rc_world c = t1 :: t2 :: ts →
  t_done t1 = false → t_done t2 = true →
  ∃ c', do_work (x :: todo) c = Halt NullDeref c'.
Proof. apply do_work_shutdown. Qed.

(** C21: the threads of an event queue.  In every interleaving of its worker,
    of producers and of [terminate_worker], with spurious wake-ups, the events
    handled are a prefix of those added, in the order of the additions; once no
    more calls come and leaving spurious wake-ups aside the threads take at most
    [queue_left] steps; and they stop only when the worker has ended because of
    [done_flag], or waits and has handled every event.  [terminate_worker] is
    taken to set the flag and notify under the mutex. *)
Theorem event_queue_drains {EventT}
    (terminate : GenericEventQueue EventT → GenericEventQueue EventT → Prop) q q' n :
  (∀ q1 q2, terminate q1 q2 → q_mtx q1 = None ∧
     q2 = mkQueue (EventQueue.events q1) true None (wake (q_worker q1)) (q_added q1) (q_handled q1)) →
  queue_reachable terminate q → nsteps (queue_step terminate Inner) n q q' →
  q_handled q' `prefix_of` q_added q' ∧ n ≤ queue_left q ∧
  (at_rest q' ∨ ∃ q'', queue_step terminate Inner q' q'').
Proof.
  intros Ht Hr Hn. destruct (queue_runs terminate Ht q q' n Hr Hn) as (Hr' & Hle & Hor).
  split_and!; [|lia|done]. rewrite (qi_fifo _ (queue_inv terminate Ht q' Hr')). by apply prefix_app_r.
Qed.

(** C26: shutting a server down.  The destructor returns only after the
    polling thread has ended; and, leaving spurious wake-ups aside, a shutdown
    ends: it takes at most [steps_left] steps, and as long as it is not over
    some thread can move. *)
Theorem server_shutdown_ends s s' n :
  server_reachable s → start_shutdown s = true → nsteps (server_step false) n s s' →
  (sv_dtor s' = DDone → sv_poll s' = PEnd) ∧ n ≤ steps_left s ∧
  (shut_down s' ∨ ∃ s'', server_step false s' s'').
Proof.
  intros Hr Hs Hn. destruct (server_shutdown s s' n Hr Hs Hn) as [Hle Hor].
  split_and!; [|lia|done]. apply si_done, server_inv. clear -Hr Hn.
  induction Hn as [|n s s1 s' H1 _ IH]; [done|]. by apply IH, (sv_step false s).
Qed.

(** ** The virtual machine *)


Section bridges.
Context {i_lmdb : LmdbLib} {i_vm : VMBase} {i_async : AsyncWait}.

(** C37: [HotstuffVMBridge::apply_block] of a block other than the one
    speculated on never returns: the revert locks the gadget's mutex, which
    the call already holds. *)
Theorem rewind_deadlocks h p blk tx b h0 i rest :
  initialized b = true → gadget_locked (speculation_map b) = false →
  h !! p = Some blk → height_map (speculation_map b) = (h0, i) :: rest →
  get_block_id (try_parse (get_wire_body blk)) ≠ i →
  ∃ b', spec_apply_block h p tx b = Halt SelfDeadlock b'.
Proof. apply spec_apply_mismatch. Qed.

(** C30: a follower executes what is decided: with nothing speculated,
    [apply_block] records the block as decided, logs its id for its height,
    submits it to the machine and releases the mutex. *)
Theorem follower_executes (P : fault → Prop) {i_faults : VMFaults P} h p blk tx b :
  initialized b = true → gadget_locked (speculation_map b) = false →
  control_wf (vm_interface b) →
  h !! p = Some blk → height_map (speculation_map b) = [] →
  speculation_head_hotstuff_height (speculation_map b) = get_height blk →
  let i := get_block_id (try_parse (get_wire_body blk)) in
  wp (spec_apply_block h p tx)
    (λ tx' b', tx' = add_decided_block tx blk i ∧
       height_map (speculation_map b') = [(get_height blk, i)] ∧
       gadget_locked (speculation_map b') = false ∧ initialized b' = true ∧
       blocks_to_validate (vm_interface b') = [try_parse (get_wire_body blk)] ∧
       is_proposer (vm_interface b') = false)
    (λ f _, P f) b.
Proof. by apply spec_follower_cycle. Qed.


(** C40: [NonspeculativeVMBridge::apply_block] of a block whose body does not
    parse dereferences a null pointer, whoever proposed it; the bridge's own
    empty proposals are such blocks whenever the machine does not accept an
    empty body. *)
Theorem empty_proposal_crashes h p blk tx b :
  ns_initialized b = true → h !! p = Some blk →
  (try_parse (get_wire_body blk) = None → ns_apply_block h p tx b = Halt NullDeref b) ∧
  (∀ n bd b', try_parse [] = None → ns_make_empty_proposal n b = Ok bd b' →
     get_wire_body blk = bd → ns_apply_block h p tx b' = Halt NullDeref b').
Proof.
  intros Hi Hp. split; [by apply ns_apply_unparsed|]. intros n bd b' Hpe Hrun Hbd.
  unfold ns_make_empty_proposal, bind, ns_init_guard in Hrun. rewrite Hi in Hrun.
  injection Hrun as <- <-. apply ns_apply_unparsed with blk; [done|done|by rewrite Hbd].
Qed.
End bridges.

