(* ===== verification/Witnesses.v ===== *)
(** * The properties at work

    Each property with hypotheses, applied where they hold: to the executions
    of Scenarios.v and to small concrete states. *)

From S2P Require Import EventQueue.
From S2P Require Import Prelude Types ReplicaConfig Certs IoUtils Block BlockStore Lmdb.
From S2P Require Import Consensus Events FetchManager App Safety ReplicaInv StoreInv AppInv.
From S2P Require Import Network Durable Votes Runs Progress Leader Cluster Batches SpecGadget VMControl VMThreads LogAccess Bridges Restart.
From S2P Require Import RpcClient Servers Pacemaker Concrete Replay Scenarios.
From S2P Require Import Theorems.

(** Closed equations between small values, and closed decidable propositions,
    by evaluation. *)
Ltac by_compute := vm_compute; reflexivity.
Ltac by_decide := refine (proj1 (bool_decide_eq_true _) _); vm_compute; reflexivity.

(** ** The leader's execution *)

Abbreviation HU := (lookup_header happy_headers).

Lemma HU_zero : HU zero_hash = None.
Proof. apply universe_zero, happy_universe. Qed.

Lemma HU_short h n : ht HU h n → (n < 2 ^ 32)%N.
Proof. apply universe_short, happy_universe. Qed.

Lemma agreement_witness :
  ∃ h1 h2, h1 ≠ zero_hash ∧ h1 ≠ h2 ∧ h1 ∈ decided_at 1 happy_net ∧ h2 ∈ decided_at 2 happy_net ∧
    (anc HU h1 h2 ∨ anc HU h2 h1).
Proof.
  destruct happy_decided as (h1 & h2 & Hz & _ & Hne & Hd1 & Hd2). exists h1, h2.
  destruct (decided_at_block _ _ _ Hd1) as (rep1 & p1 & b1 & Hr1 & Hb1 & Hdb1 & Hh1).
  destruct (decided_at_block _ _ _ Hd2) as (rep2 & p2 & b2 & Hr2 & Hb2 & Hdb2 & Hh2).
  do 4 (split; [assumption|]). subst h1 h2.
  exact (agreement four faulty HU HU_zero HU_short four_wf four_faulty key follower happy_net
    happy_reachable 1 2 rep1 rep2 p1 p2 b1 b2 Hr1 Hr2 Hb1 Hdb1 Hb2 Hdb2).
Defined.

(** The replica that received a certificate by replica 7. *)
Lemma only_outside_faults_witness :
  ∃ rep, net_reps crash_net !! 0%N = Some rep ∧
    rep_fault rep = Some (Exn (RuntimeError (rid_not_found 7))) ∧
    (bridge_fault (V := SpecVM) (Exn (RuntimeError (rid_not_found 7))) ∨
     outside four (Exn (RuntimeError (rid_not_found 7)))) ∧
    Exn (RuntimeError (rid_not_found 7)) ≠ safety_breached.
Proof.
  pose proof crash_fault as Hf. unfold fault_at in Hf.
  destruct (net_reps crash_net !! 0%N) as [rep|] eqn:Hr; [|discriminate Hf].
  exists rep. split; [reflexivity|]. split; [exact Hf|].
  exact (only_outside_faults four faulty (lookup_header crash_headers)
    (universe_zero _ crash_universe) (λ h n, universe_short _ h n crash_universe)
    four_wf four_faulty key follower crash_net crash_reachable 0 rep _ Hr Hf).
Defined.

Lemma votes_obey_rules_witness :
  ∃ r w G, net_log happy_net = (r, w) :: G ∧ vote_ok HU four faulty G r w.
Proof.
  destruct (net_log happy_net) as [|[r w] G] eqn:HG.
  { exfalso. assert (Hl : length (net_log happy_net) = 15) by by_compute. by rewrite HG in Hl. }
  exists r, w, G. split; [reflexivity|].
  exact (votes_obey_rules four faulty HU HU_zero HU_short four_wf four_faulty key follower
    happy_net happy_reachable [] r w G HG).
Defined.

Lemma one_vote_per_height_witness :
  ∃ v, v ∈ a_signed (st_env state1) ∧ ht HU v 3 ∧
    (∀ w, w ∈ a_signed (st_env state1) → ht HU w 3 → v = w).
Proof.
  exists (get_hash (block1 4)).
  assert (Hv : get_hash (block1 4) ∈ a_signed (st_env state1)) by by_decide.
  assert (Hh : ht HU (get_hash (block1 4)) 3) by (apply (heightb_ht _ 5); by_compute).
  do 2 (split; [assumption|]). intros w Hw Hn.
  exact (one_vote_per_height four faulty HU HU_zero HU_short four_wf four_faulty key follower
    happy_net happy_reachable 1 _ _ w 3 state1_running Hv Hw Hh Hn).
Defined.

Lemma first_block_certified : certified four faulty (net_log happy_net) (get_hash (block1 2)).
Proof.
  right. exists {[0; 1; 2]}%N. split_and!.
  - by_decide.
  - vm_compute. discriminate.
  - intros r Hr _. revert r Hr. apply (bool_decide_eq_true_1 (set_Forall
      (λ r, (r, get_hash (block1 2)) ∈ net_log happy_net) {[0; 1; 2]}%N)). vm_compute. reflexivity.
Qed.

Lemma one_certificate_per_height_witness :
  ∃ v, certified four faulty (net_log happy_net) v ∧ ht HU v 1 ∧
    (∀ w, certified four faulty (net_log happy_net) w → ht HU w 1 → v = w).
Proof.
  exists (get_hash (block1 2)).
  assert (Hh : ht HU (get_hash (block1 2)) 1) by (apply (heightb_ht _ 5); by_compute).
  split; [apply first_block_certified|]. split; [assumption|]. intros w Hw Hn.
  exact (one_certificate_per_height four faulty HU HU_zero HU_short four_wf four_faulty key
    follower happy_net happy_reachable _ w 1 first_block_certified Hw Hh Hn).
Defined.

Lemma decided_below_three_chain_witness :
  decided (block1 3) = true ∧
  ∃ c, committed HU four faulty (net_log happy_net) c ∧ anc HU (get_hash (block1 3)) c.
Proof.
  assert (Hb : st_heap state1 !! 3%positive = Some (block1 3)) by (apply block1_at; by_decide).
  assert (Hd : decided (block1 3) = true) by by_compute. split; [assumption|].
  exact (decided_below_three_chain four faulty HU HU_zero HU_short four_wf four_faulty key
    follower happy_net happy_reachable 1 _ _ _ state1_running Hb Hd).
Defined.

Lemma decided_is_prefix_witness :
  b_exec (st_core state1) = 3%positive ∧
  (decided (block1 2) = true ↔ anc HU (get_hash (block1 2)) (get_hash (block1 3))) ∧
  (decided (block1 4) = true ↔ anc HU (get_hash (block1 4)) (get_hash (block1 3))).
Proof.
  assert (He : st_heap state1 !! b_exec (st_core state1) = Some (block1 3))
    by (replace (b_exec (st_core state1)) with 3%positive by by_compute; apply block1_at; by_decide).
  split; [by_compute|]. split.
  - refine (decided_is_prefix four faulty HU HU_zero HU_short four_wf four_faulty key follower
      happy_net happy_reachable 1 state1 state1_running 2 (block1 2) (block1 3) _ _ He);
      [by_compute|apply block1_at; by_decide].
  - refine (decided_is_prefix four faulty HU HU_zero HU_short four_wf four_faulty key follower
      happy_net happy_reachable 1 state1 state1_running 4 (block1 4) (block1 3) _ _ He);
      [by_compute|apply block1_at; by_decide].
Defined.

Lemma opinion_correct_witness :
  ∃ op, opinion 6 state1 = Ok op state1 ∧
    (op = true ↔ (vheight (st_core state1) < get_height (block1 6))%N ∧
      ((get_height (block1 4) < get_height (block1 5))%N ∨
       anc HU (get_hash (block1 4)) (get_hash (block1 6)))).
Proof.
  apply (opinion_correct four faulty HU HU_zero HU_short four_wf four_faulty key follower
    happy_net happy_reachable 1 state1 state1_running 6 (block1 6) (block1 5) (block1 4)).
  - by_compute.
  - apply block1_at; by_decide.
  - replace (get_justify (block1 6)) with (Some 5%positive) by by_compute.
    apply block1_at; by_decide.
  - replace (b_lock (st_core state1)) with 4%positive by by_compute. apply block1_at; by_decide.
Defined.

(** The cluster before replica 0 proposes its last block. *)
Definition fourth_script : list (op SpecVM) :=
  Do 0 (AVm leader) :: concat (round <$> seq 0 4).
Definition fourth_net : Net SpecVM :=
  default start (run_script (checked_step four faulty happy_headers
    (block_arrivalb four faulty happy_headers)) fourth_script start).

Lemma fourth_reachable :
  reachable four faulty HU (block_arrival HU four faulty) key follower fourth_net.
Proof.
  apply (script_reachable _ (block_arrivalb four faulty happy_headers)).
  - apply block_arrivalb_sound.
  - by_decide.
Qed.

Definition proposer_state : AppSt SpecVM :=
  Eval vm_compute in from_option rep_state (init_state four key follower 0) (net_reps fourth_net !! 0%N).

Lemma proposer_running : net_reps fourth_net !! 0%N = Some (mkReplica proposer_state None).
Proof. vm_cast_no_check (eq_refl (Some (mkReplica proposer_state None))). Qed.

Lemma honest_proposal_witness :
  ∃ b s', mint_proposal supports_nonempty proposer_state = Ok b s' ∧
    header_qc (header (wire_block b)) = (hqc (st_core proposer_state)).2 ∧
    certified four faulty (net_log fourth_net) (just_of (header (wire_block b))) ∧
    anc HU (just_of (header (wire_block b))) (parent_hash (header (wire_block b))).
Proof.
  destruct (mint_proposal supports_nonempty proposer_state) as [b s'|f s'] eqn:Hm.
  - exists b, s'. split; [reflexivity|].
    refine (honest_proposal four faulty HU HU_zero HU_short four_wf four_faulty key follower
      fourth_net fourth_reachable 0 proposer_state proposer_running supports_nonempty b s'
      (or_introl eq_refl) _ Hm).
    apply (mint_knownb_sound _ _ fourth_net 0 _ None); [by_compute|apply proposer_running].
  - exfalso. assert (Hok : match mint_proposal supports_nonempty proposer_state with
      Ok _ _ => true | Fault _ _ => false end = true) by by_compute.
    rewrite Hm in Hok. discriminate.
Defined.

(** Before replica 1 handles the fifth proposal, at location 6. *)
Lemma three_chain_commits_witness :
  decided (default genesis_block (st_heap before5 !! 3%positive)) = false ∧
  ∃ s', on_receive_proposal 6 0 before5 = Ok tt s' ∧ decided_in s' 3.
Proof.
  split; [by_compute|].
  assert (Hb : st_heap before5 !! 6%positive = Some (block1 6)) by by_compute.
  assert (H3 : three_chain before5 (block1 6) 3).
  { exists 5%positive, (default genesis_block (st_heap before5 !! 5%positive)), 4%positive,
      (default genesis_block (st_heap before5 !! 4%positive)). split_and!; by_compute. }
  pose proof (three_chain_commits four faulty HU HU_zero HU_short four_wf four_faulty key follower
    before5_net before5_reachable 1 before5 before5_running 6 (block1 6) 0 3) as Hw.
  assert (Hok : match on_receive_proposal 6 0 before5 with Ok _ _ => true | Fault _ _ => false end =
    true) by by_compute.
  destruct (on_receive_proposal 6 0 before5) as [[] s'|f s']; [|discriminate Hok].
  exists s'. split; [reflexivity|]. apply Hw; [by_compute|exact Hb|by_decide|exact H3].
Defined.

(** The leader's rounds: the replicas at their start, and what they send. *)
Lemma own_key_four r : r ∈ [0; 1; 2]%N → own_key four r (lead_state r).
Proof.
  intros Hr h sig Hsig.
  assert (Hk : a_secret_key (st_env (lead_state r)) = key r ∧
    (r ∈ replicas four ∧ (r < MAX_REPLICAS)%N) ∧
    (pk <$> replica_map four !! r) = Some (key r)).
  { rewrite !elem_of_cons in Hr. destruct Hr as [-> | [-> | [-> | Hr]]];
      [by_decide..|by apply elem_of_nil in Hr]. }
  destruct Hk as (Hk & [Hm Hmax] & Hpk). rewrite Hk in Hsig. simpl in Hsig. injection Hsig as <-.
  split; [exact Hm|split; [exact Hmax|]]. unfold signer_valid. simpl.
  destruct (replica_map four !! r) as [info|]; [|discriminate Hpk]. simpl in Hpk.
  injection Hpk as Hpk. unfold check_sig. simpl. rewrite Hpk. by apply bool_decide_eq_true.
Qed.

Lemma lead_state_leading : leading four (lead_state 0) zero_hash 1 0.
Proof.
  split; [split; [by_compute| |by_decide|left; by_compute]|by_compute..].
  eexists. split; by_compute.
Qed.

Lemma lead_state_ready r :
  r ∈ [1; 2]%N → ready 0 (lead_state r) zero_hash 1 0 (outbox (lead_state r) 0).
Proof.
  rewrite !elem_of_cons. intros [-> | [-> | Hr]]; [..|by apply elem_of_nil in Hr];
    (split; [split; [by_compute| |by_decide|left; by_compute]|by_compute..]);
    eexists; split; by_compute.
Qed.

Lemma lead_state_unseen r : r ∈ [0; 1; 2]%N → unseen (lead_state r) proposals1.*1.
Proof.
  intros Hr h Hh.
  assert (Hall : Forall (λ r, Forall (λ h, cache (lead_state r) !! h = None ∧
    outstanding_reqs (a_fetch (st_env (lead_state r))) !! h = None) proposals1.*1) [0; 1; 2]%N)
    by by_decide.
  rewrite Forall_forall in Hall. specialize (Hall _ Hr). rewrite Forall_forall in Hall.
  exact (Hall _ Hh).
Qed.

Lemma proposals1_chained : chained four zero_hash proposals1.
Proof. repeat split; by_compute. Qed.

Lemma two_followers f : f ∈ [1; 2]%N → f = 1%N ∨ f = 2%N.
Proof. set_solver. Qed.

Lemma follower_pair f : f ∈ [1; 2]%N → (f, 0%N) ∈ led_pairs ∧ (0%N, f) ∈ led_pairs.
Proof. intros [-> | ->]%two_followers; by_decide. Qed.

Lemma led_follower_ran net' f :
  led_to net' → f ∈ [1; 2]%N →
  ran four faulty HU f (concat (handle_proposal 0 <$> proposals1.*2)) lead_start net'.
Proof.
  intros Hled Hf. destruct (led_runs net' f 0 Hled (proj1 (follower_pair f Hf))) as [Hran _].
  destruct (two_followers f Hf) as [-> | ->]; exact Hran.
Qed.

Lemma follower_progress_witness :
  ∃ (net' : Net SpecVM) s', net_reps net' !! 1%N = Some (mkReplica s' None) ∧
    (∃ sigs, length sigs = 5 ∧
      other_clients (a_protocol (st_env s')) !! 0%N =
        Some (zip_with (vote_message 1) proposals1.*1 sigs)) ∧
    hash_decided s' (get_hash (block1 2)) ∧ hash_decided s' (get_hash (block1 3)).
Proof.
  destruct led_end as [net' Hled].
  assert (H1 : 1%N ∈ [1; 2]%N) by by_decide.
  destruct (led_runs net' 1 0 Hled) as [_ (s' & Hs' & _)]; [by_decide|].
  exists net', s'. split; [exact Hs'|].
  destruct (follower_progress (V := SpecVM) four faulty HU HU_zero HU_short four_wf four_faulty key follower
    lead_start lead_start_reachable 1 0 proposals1 net' (lead_state 1) (mkReplica s' None) zero_hash
    1 0 []) as [(sigs & Hsigs & Hw) Hdec].
  - by_decide.
  - discriminate.
  - intros m k. eexists. reflexivity.
  - apply lead_state_running. right. left. reflexivity.
  - exact (lead_state_ready 1 H1).
  - exact proposals1_chained.
  - apply lead_state_unseen. right. exact H1.
  - by_decide.
  - exact (led_follower_ran net' 1 Hled H1).
  - exact Hs'.
  - split; [|split; [apply (Hdec 0)|apply (Hdec 1)]; [by_decide|by_compute|by_decide|by_compute]].
    exists sigs. split; [|exact Hw]. apply Forall2_length in Hsigs. rewrite <- Hsigs. by_compute.
Defined.

Lemma led_leads net' :
  led_to net' →
  leads four faulty HU 0 lead_rounds proposals1 zero_hash 0 lead_start net' (lead_state 0).
Proof.
  intros Hled. split.
  - apply lead_state_running. left. reflexivity.
  - exists 1%positive. exact lead_state_leading.
  - apply own_key_four. left.
  - intros h Hh. apply (lead_state_unseen 0); [left|exact Hh].
  - destruct (led_runs net' 0 1 Hled) as [Hran _]; [by_decide|exact Hran].
Qed.

Lemma led_follows net' f :
  led_to net' → f ∈ [1; 2]%N →
  follows four faulty HU 0 proposals1 zero_hash 0 lead_start net' f (lead_state f).
Proof.
  intros Hled Hf. split.
  - destruct (two_followers f Hf) as [-> | ->]; by_decide.
  - apply lead_state_running. right. exact (two_followers f Hf).
  - exists 1%positive. exact (lead_state_ready f Hf).
  - apply own_key_four. right. exact Hf.
  - apply lead_state_unseen. right. exact Hf.
  - exact (led_follower_ran net' f Hled Hf).
Qed.

Lemma led_vote_sent net' i h r :
  led_to net' → r ∈ [1; 2]%N → proposals1.*1 !! i = Some h →
  sent_vote 0 lead_start net' i r (led_vote r h).
Proof.
  intros Hled Hr Hh.
  destruct (led_runs net' r 0 Hled (proj1 (follower_pair r Hr))) as [_ (s & Hs & Hnil & Hbox)].
  exists (lead_state r), (mkReplica s None).
  split; [apply lead_state_running; right; exact (two_followers r Hr)|]. split; [exact Hs|].
  cbn [rep_state]. rewrite Hnil, Hbox. unfold led_sent.
  rewrite bool_decide_eq_false_2 by (destruct (two_followers r Hr) as [-> | ->]; discriminate).
  cbn [length Nat.add]. rewrite list_lookup_fmap, Hh. reflexivity.
Qed.

Lemma led_exchanged net' :
  led_to net' → exchanged 0 [1; 2]%N lead_rounds proposals1 lead_start net' (lead_state 0).
Proof.
  intros Hled. split.
  - intros f rep' Hf Hrep.
    destruct (led_runs net' 0 f Hled (proj2 (follower_pair f Hf))) as [_ (s & Hs & -> & Hbox)].
    rewrite Hs in Hrep. injection Hrep as <-. exact Hbox.
  - intros i rd Hi. exists [1; 2]%N. split; [reflexivity|].
    unfold lead_rounds in Hi. rewrite list_lookup_fmap in Hi.
    destruct (proposals1.*1 !! i) as [h|] eqn:Hh; [|discriminate Hi]. injection Hi as <-.
    constructor; [|constructor; [|constructor]]; (apply led_vote_sent; [exact Hled|by_decide|exact Hh]).
Qed.

Lemma cluster_progress_witness :
  ∃ net' : Net SpecVM, led_to net' ∧
    ∀ r, r ∈ [0; 1; 2]%N → ∃ sr, net_reps net' !! r = Some (mkReplica sr None) ∧
      hash_decided sr (get_hash (block1 2)) ∧ hash_decided sr (get_hash (block1 3)).
Proof.
  destruct led_end as [net' Hled]. exists net'. split; [exact Hled|].
  destruct (cluster_progress (V := SpecVM) four faulty HU HU_zero HU_short four_wf four_faulty key follower
    lead_start lead_start_reachable 0 [1; 2]%N lead_rounds proposals1 zero_hash 0 net' (lead_state 0))
    as [(r & rep & f & Hr & Hrep & Hf & _)|(_ & _ & Hall)].
  - intros m k. eexists. reflexivity.
  - by_decide.
  - discriminate.
  - vm_compute. discriminate.
  - exact (led_leads net' Hled).
  - intros f Hf. exists (lead_state f). exact (led_follows net' f Hled Hf).
  - exact (led_exchanged net' Hled).
  - repeat constructor; by_compute.
  - by_decide.
  - exfalso.
    assert (∃ q, (r, q) ∈ led_pairs) as [q Hq].
    { rewrite !elem_of_cons in Hr. destruct Hr as [-> | [-> | [-> | Hr]]];
        [exists 1%N; by_decide|exists 0%N; by_decide..|destruct (not_elem_of_nil _ Hr)]. }
    destruct (led_runs net' r q Hled Hq) as [_ (s & Hs & _)]. rewrite Hs in Hrep.
    injection Hrep as <-. discriminate Hf.
  - intros r Hr. destruct (Hall r Hr) as (sr & Hsr & Hdec). exists sr. split; [exact Hsr|].
    split; [apply (Hdec 0)|apply (Hdec 1)]; [by_decide|by_compute|by_decide|by_compute].
Defined.

(** Votes of 0, 1 and 2 on the last block, all sent to replica 1. *)
Definition votes5 : list (ReplicaID * Signature) :=
  Eval vm_compute in (λ r, (r, key r ++ get_hash (block1 6))) <$> [0; 2; 1]%N.

Lemma votes_make_certificate_witness :
  ∃ s', receive_votes (get_hash (block1 6)) 6 votes5 state1 = Ok tt s' ∧
    (hqc (st_core s')).1 = 6%positive ∧ b_leaf (st_core s') = 6%positive ∧
    latest_new_qc (st_env s') = Some (get_hash (block1 6)) ∧
    qcw_justify (hqc (st_core s')).2 = get_hash (block1 6) ∧
    ∀ T (t : T), verify four (QC_of_wire (hqc (st_core s')).2) t = Ok true t.
Proof.
  apply (votes_make_certificate four faulty HU HU_zero HU_short four_wf four_faulty key follower
    happy_net happy_reachable 1 state1 state1_running 6 (block1 6) (block1 5)).
  - apply block1_at; by_decide.
  - by_compute.
  - replace ((hqc (st_core state1)).1) with 5%positive by by_compute. apply block1_at; by_decide.
  - by_compute.
  - assert (Hg : Forall (λ v, v.1 ∈ replicas four ∧ (v.1 < MAX_REPLICAS)%N ∧
      signer_valid four (get_hash (block1 6)) v = true) votes5) by by_decide. exact Hg.
  - vm_compute. discriminate.
Defined.

Lemma store_well_formed_witness :
  tree_wf (core_genesis (st_core state1)) (skel <$> st_heap state1)
    (block_cache (a_store (st_env state1))).
Proof.
  exact (store_well_formed four faulty HU HU_zero HU_short four_wf four_faulty key follower
    happy_net happy_reachable 1 state1 state1_running).
Defined.

(** ** Heights beyond 32 bits *)

Definition tall_block (h : Hash) (n : N) (justify : option loc) : HotstuffBlock :=
  mkBlock empty_wire None 0 n (Some 1%positive) justify (QC_new h) false false true true false.

(** A block of height [2 ^ 32] that justifies the block below it. *)
Definition tall_state : AppSt SpecVM :=
  let s := init_state four key follower 0 in
  mkSt (<[3%positive := tall_block (key 0) (2 ^ 32) (Some 2%positive)]>
          (<[2%positive := tall_block (key 1) (2 ^ 32 - 1) None]> (st_heap s)))
    (st_disk s) (st_core s) (st_env s).

Lemma recorded_vote_blocks_witness :
  opinion 3 (with_vheight (2 ^ 32) tall_state) = Ok true (with_vheight (2 ^ 32) tall_state).
Proof.
  exact (recorded_vote_blocks tall_state 3 (tall_block (key 0) (2 ^ 32) (Some 2%positive))
    eq_refl eq_refl).
Defined.

(** ** Restarts *)

Lemma restart_recovers_witness :
  ∃ s' p b, reload_decided_blocks rebooted = Ok 2%N s' ∧
    same_decisions state1 s' ∧ st_heap s' !! p = Some b ∧ get_hash b = get_hash (block1 3) ∧
    b_exec (st_core s') = p ∧ b_lock (st_core s') = p ∧ b_leaf (st_core s') = p ∧
    (hqc (st_core s')).1 = p ∧ vheight (st_core s') = 2%N ∧ st_disk s' = st_disk state1 ∧
    decided_hash_index (st_core s') = decided_hash_index (st_core state1).
Proof.
  refine (restart_recovers four faulty HU key follower happy_net 1 state1 (info 1) (block1 3) (key 1)
    (HotstuffVMBridge_init (mkCounting 0 0) 1 true) HU_zero HU_short four_wf four_faulty
    _ _ happy_sized state1_running _ _).
  - intros h hd. apply sized_headers_ok, happy_headers_sized.
  - reflexivity.
  - by_compute.
  - replace (b_exec (st_core state1)) with 3%positive by by_compute. apply block1_at; by_decide.
Defined.

(** The child of the last decided block that the replica had voted for, or any
    other block in its place. *)
Lemma restart_votes_again_witness :
  get_hash (block1 4) ∈ a_signed (st_env state1) ∧ get_height (block1 4) = 3%N ∧
  ∃ s', reload_decided_blocks rebooted = Ok 2%N s' ∧
    ∀ h q b jp jb,
      (∀ p bp, st_heap s' !! p = Some bp → h !! p = Some bp) →
      h !! q = Some b → get_parent b = Some (b_exec (st_core s')) →
      get_height b = 3%N → get_justify b = Some jp → h !! jp = Some jb →
      opinion q (mkSt h (st_disk s') (st_core s') (st_env s')) =
        Ok true (mkSt h (st_disk s') (st_core s') (st_env s')).
Proof.
  split; [by_decide|]. split; [by_compute|].
  refine (restart_votes_again four faulty HU key follower happy_net 1 state1 (info 1) (block1 3)
    (key 1) (HotstuffVMBridge_init (mkCounting 0 0) 1 true) HU_zero HU_short four_wf four_faulty
    _ _ happy_sized state1_running _ _ _).
  - intros h hd. apply sized_headers_ok, happy_headers_sized.
  - reflexivity.
  - by_compute.
  - replace (b_exec (st_core state1)) with 3%positive by by_compute. apply block1_at; by_decide.
  - by_compute.
Defined.

Lemma restart_resumes_witness :
  let br := HotstuffVMBridge_init (mkCounting 0 0) 1 true in
  let db := decided_hash_index (st_core state1) in
  ∃ s1, same_decisions state1 s1 ∧
    let after d v g ini := mkSt (st_heap s1) d (st_core s1)
      (set_vm (mkBridge g (set_vm_instance v (vm_interface br)) ini) (st_env s1)) in
    HotstuffApp_init_from_disk rebooted =
      match vm_init_from_disk (mkLog db (info 1)) (mkCounting 0 0, st_disk state1) with
      | Ok _ (v, d) => Ok tt (after d v (mkGadget [] 3 2 false) true)
      | Fault f (v, d) => Fault f (after d v SpeculativeExecGadget_init false)
      end.
Proof.
  refine (restart_resumes four faulty HU key follower happy_net 1 state1 (info 1) (block1 3)
    (key 1) (mkCounting 0 0) 1 true HU_zero HU_short four_wf four_faulty
    _ _ happy_sized state1_running _ _ _).
  - intros h hd. apply sized_headers_ok, happy_headers_sized.
  - reflexivity.
  - by_compute.
  - replace (b_exec (st_core state1)) with 3%positive by by_compute. apply block1_at; by_decide.
  - by_compute.
Defined.

(** A log of two blocks, the second without a value. *)
Definition value1 : HotstuffBlockWire := forge zero_hash empty_qc_wire (be 8 1).
Definition indexed (w : HotstuffBlockWire) (n : N) : HotstuffBlock :=
  mkBlock w None 0 n None None (QC_new (hash_of w)) true true true true false.
Definition log2 : LogAccessWrapper :=
  mkLog (commit (add_decided_blocks (open_txn create_db)
    [(indexed value1 1, VMBlockID_of (be 8 1)); (indexed a1 2, VMBlockID_null)]) create_db) (info 0).
Definition disk2 : Disk := run_or (save_block value1 (info 0) ;; save_block a1 (info 0)) ∅.

Lemma log2_entries :
  log_entries log2 =
    [(write_unsigned_big_endian 1, hash_of value1 ++ vmid_serialize (VMBlockID_of (be 8 1)));
     (write_unsigned_big_endian 2, hash_of a1 ++ vmid_serialize VMBlockID_null)].
Proof. by_compute. Qed.

Lemma counting_restart_replays_witness :
  xdr_uint64_from [] = None ∧
  ∃ vs s', s' = replay_values vs (mkCounting 0 0) ∧
    Forall2 (λ bd v, xdr_uint64_from bd = Some v) (take (length vs) [be 8 1; []]) vs ∧
    match [be 8 1; []] !! length vs with
    | None => counting_init_from_disk log2 (mkCounting 0 0, disk2) = Ok tt (s', disk2)
    | Some bd => xdr_uint64_from bd = None ∧
        counting_init_from_disk log2 (mkCounting 0 0, disk2) = Throw XdrError (s', disk2)
    end.
Proof.
  apply (counting_restart_replays log2 disk2 [be 8 1; []] (mkCounting 0 0)).
  rewrite log2_entries. constructor; [|constructor; [|constructor]].
  - exists (hash_of value1), value1. repeat split; by_compute.
  - exists (hash_of a1), a1. repeat split; by_compute.
Defined.


(** ** Configurations and certificates *)

Lemma configured_quorums_meet_witness :
  nreplicas four = 4%N ∧ nmajority four = 3%N ∧
  ∃ r : ReplicaID, r ∈ ({[0; 1; 2]} : gset ReplicaID)%N ∧ r ∈ ({[1; 2; 3]} : gset ReplicaID)%N ∧
    r ∉ ({[3]} : gset ReplicaID)%N.
Proof.
  destruct (configured_quorums_meet (info <$> [0; 1; 2; 3]%N) four) as (_ & _ & Hn & Hm & Hq);
    [reflexivity|reflexivity|].
  split; [exact Hn|]. split; [rewrite Hm, Hn; reflexivity|].
  apply (Hq {[0; 1; 2]}%N {[1; 2; 3]}%N {[3]}%N); try reflexivity; try by_decide; vm_compute; discriminate.
Defined.

Definition three : ReplicaConfig := run_or (configure (info <$> [0; 1; 2]%N)) ReplicaConfig_init.

Lemma quorums_meet_in_faulty_witness :
  ∃ Q1 Q2 B : gset ReplicaID, Q1 ⊆ replicas three ∧ Q2 ⊆ replicas three ∧
    (nmajority three ≤ N.of_nat (size Q1))%N ∧ (nmajority three ≤ N.of_nat (size Q2))%N ∧
    size B = 1 ∧ nmajority three = (nreplicas three - 1)%N ∧ ∀ r, r ∈ Q1 → r ∈ Q2 → r ∈ B.
Proof.
  apply (quorums_meet_in_faulty (info <$> [0; 1; 2]%N) three 1); [lia|reflexivity|reflexivity|reflexivity].
Defined.

Definition wire1 : QuorumCertificateWire := qc_of (hash_of a1).

Lemma verified_wire_certificate_witness :
  ∃ Q : gset ReplicaID, Q ⊆ replicas four ∧ (nmajority four ≤ N.of_nat (size Q))%N ∧
    ∀ r, r ∈ Q → ∃ info sig, replica_map four !! r = Some info ∧
      (r, sig) ∈ sigs (QC_of_wire wire1) ∧ check_sig sig (qcw_justify wire1) (pk info) = true.
Proof.
  apply (verified_wire_certificate (S := unit) four wire1 tt tt); [by_compute|].
  intros H. vm_compute in H. discriminate.
Defined.

Definition qc1 : QuorumCertificate :=
  mkQC (hash_of a1) [(0%N, key 0 ++ hash_of a1); (2%N, key 2 ++ hash_of a1)].

Lemma qc1_wf : qc_wf qc1.
Proof. split; repeat constructor. Qed.

Lemma certificate_roundtrip_witness : QC_of_wire (serialize qc1) = qc1.
Proof. apply (certificate_roundtrip qc1), qc1_wf. Defined.

(** ** Blocks *)

Lemma state1_tree :
  tree_wf (core_genesis (st_core state1)) (skel <$> st_heap state1)
    (block_cache (a_store (st_env state1))).
Proof.
  pose proof (running_inv four faulty HU HU_zero HU_short four_wf four_faulty key follower
    happy_net happy_reachable 1 state1 state1_running) as I.
  destruct (ai_good _ _ _ _ _ _ I) as (_ & RI & _).
  apply (ti_wf _ _ _ _ _ _ _ (ri_tree _ _ _ _ _ _ _ _ _ RI)).
Qed.

Lemma insert_block_branches_witness :
  ∃ h' st' b', insert_block 4 (st_heap state1, a_store (st_env state1)) =
      Ok (mkMissing None None) (h', st') ∧
    h' !! 4%positive = Some b' ∧ get_height b' = 3%N ∧
    get_parent b' = Some 3%positive ∧ get_justify b' = Some 3%positive ∧
    tree_wf (core_genesis (st_core state1)) (skel <$> h') (block_cache st').
Proof.
  pose proof (insert_block_branches (core_genesis (st_core state1)) (st_heap state1)
    (a_store (st_env state1)) 4 (block1 4) state1_tree ltac:(apply block1_at; by_decide)
    ltac:(by_decide)) as H. cbv zeta in H.
  assert (Hp : block_cache (a_store (st_env state1)) !! get_parent_hash (block1 4) = Some 3%positive)
    by by_compute.
  assert (Hj : block_cache (a_store (st_env state1)) !!
    qcw_justify (header_qc (header (wire_block (block1 4)))) = Some 3%positive) by by_compute.
  rewrite Hp, Hj in H. destruct H as (h' & st' & pb & b' & H & Hpb & Hb' & _ & Hh & Hpar & Hjus & H').
  exists h', st', b'. split; [exact H|]. split; [exact Hb'|]. split; [|split; [exact Hpar|split; [exact Hjus|apply H']]].
  rewrite Hh, (inj Some pb (block1 3)); [by_compute|]. rewrite <- Hpb. apply block1_at; by_decide.
Defined.

Lemma gc_flushes_below_witness :
  ∃ h' kept, gc_run_once (st_heap state1, mkGC (Some 2%N) [1; 2; 3]%positive [4]%positive) =
      Ok tt (h', mkGC None kept []) ∧
    kept ≡ₚ filter (λ p, below (st_heap state1) 2 p = false) [1; 2; 3; 4]%positive ∧
    ∀ p, h' !! p = if bool_decide (p ∈ [1; 2; 3; 4]%positive ∧ below (st_heap state1) 2 p = true)
                   then flush_from_memory <$> st_heap state1 !! p else st_heap state1 !! p.
Proof.
  apply (gc_flushes_below (st_heap state1) (mkGC (Some 2%N) [1; 2; 3]%positive [4]%positive) 2).
  reflexivity.
Defined.

(** ** Queues *)

(** Replica 1 having received the first proposal of replica 0. *)
Definition proposed_net : Net SpecVM :=
  default start (run_script step [Do 0 APropose; Deliver 0 1 0] start).
Definition queued1 : AppSt SpecVM :=
  from_option rep_state (init_state four key follower 1) (net_reps proposed_net !! 1%N).

Lemma only_votes_wake_witness :
  match run_action ANetEvent queued1 with
  | Ok _ s' | Fault _ s' => latest_new_qc (st_env s') = latest_new_qc (st_env queued1) ∧
      cancel_wait (st_env s') = cancel_wait (st_env queued1)
  end.
Proof. apply (only_votes_wake queued1 ANetEvent). reflexivity. Defined.

(** Replica 1 proposing, when there is a certificate on another block. *)
Definition pace1 : PaceMakerWaitQC := mkPace (get_hash (block1 6)) 1.
Definition woken1 : AppSt SpecVM :=
  mkSt (st_heap state1) (st_disk state1) (st_core state1)
    (set_wait (Some (get_hash (block1 5))) false (st_env state1)).

Lemma pacemaker_follows_certificates_witness :
  (∃ p0, PaceMakerWaitQC_init (init_state four key follower 1) =
       Ok p0 (init_state four key follower 1) ∧
     should_propose (p0, init_state four key follower 1) =
       Ok (UNKNOWN_REPLICA =? 1)%N (p0, init_state four key follower 1)) ∧
  wait_for_qc (pace1, woken1) =
    Ok true (mkPace (get_hash (block1 6)) (get_proposer (block1 5)),
      mkSt (st_heap woken1) (st_disk woken1) (st_core woken1) (set_wait None false (st_env woken1))).
Proof.
  refine (pacemaker_follows_certificates four key follower 1 pace1 woken1 (block1 5) _).
  replace (hqc (st_core woken1)).1 with 5%positive by by_compute.
  apply block1_at; by_decide.
Defined.

(** ** Connections *)

(** Observations of a network that works, and of one that is shut down. *)
Definition works : tick unit := mkTick false true (Some tt) true.
Definition refused : tick unit := mkTick false false None false.
Definition over : tick unit := mkTick true false None false.

Definition vote0 : VoteMessage := mkVoteMessage (mkPC (hash_of a1) (key 0 ++ hash_of a1)) 0.
Definition talking : HotstuffProtocolClient :=
  mkClient (NonblockingRpcClient_init (replicate 8 works))
    [MVote vote0; MPropose (mkProposeMessage a1 0)].

Lemma client_delivers_witness :
  ∃ c', client_run_once talking = Ok tt c' ∧ cl_work c' = [] ∧
    rc_handled (cl_rpc c') = rc_handled (cl_rpc talking) ++ cl_work talking.
Proof.
  apply (client_delivers talking); [|discriminate].
  split; [reflexivity|]. split; [simpl; lia|].
  apply Forall_replicate. split_and!; [reflexivity..|by exists tt].
Defined.

Lemma shutdown_follows_null_witness :
  ∃ c', do_work [MVote vote0] (NonblockingRpcClient_init [refused; over]) = Halt NullDeref c'.
Proof.
  apply (shutdown_follows_null (MVote vote0) [] (NonblockingRpcClient_init [refused; over])
    refused over []); reflexivity.
Defined.

(** The destructor has just been called. *)
Definition closing : Server := mkServer true false None PCheck DLock.

Lemma closing_reachable : server_reachable closing.
Proof. eapply sv_step; [apply sv_init|apply dtor_start]. Qed.

(** A producer that has the mutex adds two events; the worker handles them and
    waits. *)
Definition stop_queue (q q' : GenericEventQueue nat) : Prop :=
  q_mtx q = None ∧
  q' = mkQueue (EventQueue.events q) true None (wake (q_worker q)) (q_added q) (q_handled q).

Definition two_added : GenericEventQueue nat :=
  at_pc GenericEventQueue_init (Some (Inserting [1; 2])) WLock.

Lemma event_queue_drains_witness :
  ∃ q', nsteps (queue_step stop_queue Inner) 13 two_added q' ∧ q_added q' = [1; 2] ∧
    q_handled q' `prefix_of` [1; 2] ∧ 13 ≤ queue_left two_added ∧
    (at_rest q' ∨ ∃ q'', queue_step stop_queue Inner q' q'').
Proof.
  exists (mkQueue [] false None WWait [1; 2] [1; 2]).
  assert (Hn : nsteps (queue_step stop_queue Inner) 13 two_added
    (mkQueue [] false None WWait [1; 2] [1; 2])).
  { eapply nsteps_l; [by apply producer_inserts|]. eapply nsteps_l; [by apply producer_notifies|].
    do 11 (eapply nsteps_l; [apply worker_moves; reflexivity|]). apply nsteps_O. }
  split; [exact Hn|]. split; [reflexivity|].
  exact (event_queue_drains stop_queue two_added (mkQueue [] false None WWait [1; 2] [1; 2]) 13
    (λ _ _ Hs, Hs) (q_step _ _ _ _ (q_init _) (producer_locks _ GenericEventQueue_init [1; 2] eq_refl)) Hn).
Defined.

Lemma server_shutdown_ends_witness :
  1 ≤ steps_left closing ∧
  (shut_down (mkServer true false None PLock DLock) ∨
   ∃ s'', server_step false (mkServer true false None PLock DLock) s'').
Proof.
  refine (proj2 (server_shutdown_ends closing (mkServer true false None PLock DLock) 1
    closing_reachable eq_refl _)).
  eapply nsteps_l; [by apply poll_stop|apply nsteps_O].
Defined.

(** ** The virtual machine *)

Definition xdr_fault (f : fault) : Prop := f = Exn XdrError.






(** A leader that has proposed at height 1, and blocks at that height. *)
Definition leading : SpecVM := run_or (get_and_apply_next_proposal 1) leader.
Definition block_with (bd : bytes) : HotstuffBlock :=
  mkBlock (mkWire (mkHeader zero_hash empty_qc_wire zero_hash) bd) None 0 1 None None
    (QC_new zero_hash) false false true true false.
Definition heap_with (bd : bytes) : heap := {[1%positive := block_with bd]}.

Lemma rewind_deadlocks_witness :
  ∃ b', spec_apply_block (heap_with (be 8 7)) 1 (open_txn create_db) leading = Halt SelfDeadlock b'.
Proof.
  apply (rewind_deadlocks (heap_with (be 8 7)) 1 (block_with (be 8 7)) (open_txn create_db) leading
    1 (VMBlockID_of (be 8 1)) []); try by_compute. vm_compute. discriminate.
Defined.

Lemma follower_executes_witness :
  let i := get_block_id (try_parse (get_wire_body (block_with (be 8 1)))) in
  wp (spec_apply_block (heap_with (be 8 1)) 1 (open_txn create_db))
    (λ tx' b', tx' = add_decided_block (open_txn create_db) (block_with (be 8 1)) i ∧
       height_map (speculation_map b') = [(get_height (block_with (be 8 1)), i)] ∧
       gadget_locked (speculation_map b') = false ∧ initialized b' = true ∧
       blocks_to_validate (vm_interface b') = [try_parse (get_wire_body (block_with (be 8 1)))] ∧
       is_proposer (vm_interface b') = false)
    (λ f _, xdr_fault f) follower.
Proof.
  apply (follower_executes xdr_fault (heap_with (be 8 1)) 1 (block_with (be 8 1))
    (open_txn create_db) follower); try reflexivity. intros H. discriminate H.
Defined.





Definition nonspec : NonspeculativeVMBridge :=
  run_or ns_init_clean (NonspeculativeVMBridge_init (mkCounting 0 0)).

Lemma empty_proposal_crashes_witness :
  ns_apply_block (heap_with [x00]) 1 (open_txn create_db) nonspec = Halt NullDeref nonspec ∧
  ns_apply_block (heap_with []) 1 (open_txn create_db) nonspec = Halt NullDeref nonspec.
Proof.
  split.
  - apply (empty_proposal_crashes (heap_with [x00]) 1 (block_with [x00]) (open_txn create_db) nonspec);
      reflexivity.
  - apply (empty_proposal_crashes (heap_with []) 1 (block_with []) (open_txn create_db) nonspec
      eq_refl eq_refl) with 1%N []; reflexivity.
Defined.
